(* ===== verification/_CoqProject ===== *)
-Q . S2P
Prelude.v
Paths.v
Types.v
Prog.v
Json.v
Bolt.v
StoreSpec.v
JobStore.v
RaftFsm.v
RaftStore.v
WorkerPool.v
Lru.v
LogHub.v
Metrics.v
Config.v
State.v
AnyStore.v
Scheduler.v
Watch.v
Server.v
Cluster.v
Invariant.v
Safety.v
Sequential.v
Duty.v
System.v
Liveness.v
Progress.v
Autoscaler.v
Launcher.v
Env.v
Http.v
Main.v
Python.v
Framing.v
LogStream.v
Serialization.v
Executor.v
Tokens.v
WarmPool.v
Strategies.v
Worker.v
WorkerMain.v
Sdk.v
EndToEnd.v
Pickles.v
Runs.v
