(* ===== verification/Prelude.v ===== *)
(** * minimodal: verification of the orchestrator, the workers and the SDK

    minimodal runs functions on remote workers.  The orchestrator
    (src/orchestrator, Go) accepts jobs over gRPC, keeps them in a durable store,
    dispatches them to workers, collects results and streams logs.  A worker
    (src/worker, Python) runs the functions, in its own interpreter, in a fresh
    one or in a pool of warm processes, and reports.  The SDK (src/sdk/minimodal,
    Python) turns a call of a function into a job and a job into a future.  This
    library models all three and proves what callers and operators rely on.

    ** The program and how its parts interact

    - The job store (job_store.go: BoltStore; raft_store.go and raft_fsm.go:
      RaftStore) is the only durable state.  Everybody changes a job through
      [Transition], a read-modify-write with a callback that may decline.
    - InvokeFunction (server.go) submits a job and puts its ID on the pending
      queue.  The drainer takes IDs from the queue and calls the scheduler
      (scheduler.go), which picks the least loaded worker (worker_pool.go), marks
      the job RUNNING, sends it, and reverts it when the worker does not accept.
    - A worker reports with ReportTaskResult: the result cache (lru.go), the log
      hub (loghub.go), the store, the watchers and the metrics (metrics.go) are
      updated in this order.
    - The fault detector (worker_pool.go) sweeps for silent workers, the reaper
      (server.go, ReassignJobsOf) requeues or fails their jobs, and recovery
      requeues unfinished jobs at startup.
    - WatchJob (watch.go) merges the log hub's backlog, its live events and the
      store's status into one stream.
    - The autoscaler (autoscaler.go) starts and stops workers through the process
      launcher (launcher.go).  config.go reads all settings.
    - main.go opens the store, replays unfinished jobs, starts the loops and the
      servers, and shuts them down in order; in raft mode it replays on becoming
      leader and asks an existing node to be let in.  http.go serves metrics,
      health, the join and status endpoints and the dashboard.
    - A worker (worker.py) builds its executor, which may fork, before it starts
      threads, registers, and sends heartbeats.  ExecuteTask puts the task on a
      thread pool; a thread calls the executor (executor.py, warm_pool.py), sends
      the output line by line (logstream.py) and calls ReportTaskResult.
    - [Func.spawn] (app.py) serializes function and arguments (serialization.py)
      and invokes; [Future.get] (future.py) reads the WatchJob stream.

    ** Files

    - Prelude.v: Go integers, time, results, map ranges; hint databases, tactics
      and lemmas that the components share.  Types.v: errors, job records,
      protocol messages.  Prog.v: programs made of atomic steps, the
      interleaving of goroutines with crashes and restarts, total correctness of
      one program alone ([wp]) and a rely-guarantee logic with its adequacy
      theorem ([spec], [adequacy]).
    - Paths.v: path.Clean and friends.  Json.v: encoding/json on job records.  Bolt.v: BoltDB as an interface
      ([BoltAPI]) with laws ([BoltLaws]) and an instance of it.
    - StoreSpec.v: the Store interface ([StoreAPI]) and its contract ([StoreOk])
      over an abstract state of two maps.  JobStore.v: BoltStore, which meets it.
      RaftFsm.v: the replicated state machine (Apply, Snapshot, Persist, Restore)
      and its refinement of an abstract machine.  RaftStore.v: the store on top of
      a consensus log, whose compare-and-swap loop is linearizable.
    - WorkerPool.v, Lru.v, LogHub.v, Metrics.v, Config.v, Env.v (LoadConfig),
      Autoscaler.v, Launcher.v: one component each, state as a record and one
      function per method.  A method that runs under a mutex is one function on
      the state.
    - State.v: the state of a running orchestrator and its atomic steps: one per
      method call on a locked object, store call, RPC, channel operation or clock
      reading.  Scheduler.v, Watch.v, Server.v: the handlers and goroutines as
      programs over these steps, in the order of the code.
    - AnyStore.v: a store that is one of two stores, with the contract of both.
      Cluster.v: NewServer and NewRaftStore, the leadership watcher, the join
      client.  Http.v: routes, multiplexer and handlers.  Main.v: the main
      goroutine as a program with a trace, and the panic interceptor.
    - Invariant.v: the global invariant and what a step of any thread may do;
      each atomic step keeps both.  Safety.v: the same for every handler, and the
      orchestrator as a server in the sense of Prog.v.  Sequential.v: what single
      operations achieve when nothing interferes.  System.v: the theorems about
      all reachable configurations, and the limits of the code.
    - Duty.v: a logic of obligations for interleaved programs.  Liveness.v: every
      handler and loop of the orchestrator meets its obligations towards waiting
      jobs.  Progress.v: total correctness for programs that end in a wait, and
      what the queue loop achieves.
    - Python.v: exceptions and their classes, programs that raise, [try], values
      and the pickle as an interface ([Pickle], [PickleLaws]).  Serialization.v,
      Framing.v (messages on sockets and pipes), LogStream.v (modules [Router],
      [LineBuffer] and [Streamer]): one file of the worker or SDK each.
    - Executor.v: the interface of an executor ([Executor]) and what it promises
      ([ExecutorOk]); the in-process executor and the one with a fresh
      interpreter keep the promise.  Tokens.v: a logic of ownership for
      interleaved programs.  WarmPool.v: the pool of warm children, its spawner
      and the protocol, which keeps the promise too.  Strategies.v: make_executor
      and the comparison of the three.
    - Worker.v: the servicer as a concurrent server over any executor that keeps
      the promise.  WorkerMain.v: registration, heartbeats and [main].
    - Sdk.v: [App], [Func], [Future].  EndToEnd.v: a deployment of the SDK, the
      orchestrator and any number of workers.
    - Pickles.v: a pickle that satisfies the laws.  Runs.v: user functions and
      schedules on which the theorems about the Python side are evaluated.

    ** How state and operations correspond to the code

    Names are those of the source.  A Go [int] or [int64] is a [Z] and arithmetic
    that can overflow is wrapped; float64 arithmetic is that of [SpecFloat]; a
    [time.Time] is a number of nanoseconds.  A Go map is a [gmap], and a range over
    it takes the order as an argument, so the theorems hold for every order.  A
    callback that assigns captured variables takes and returns them.  What the
    process does not control is an argument: the clock, store faults, UUIDs,
    answers of workers, which case of a [select] fires ([oracle] of State.v), the
    decisions of the consensus layer ([RaftEnv], [RaftBoot]), answers of the
    launcher ([tick_env]), exits of processes ([event] of Launcher.v), the outcome
    of system calls at start and stop ([startup], [penv] of Main.v).  Three fields
    of the orchestrator's state are history that no code reads: the tasks sent,
    the payloads of the jobs created and the reports and log chunks received.

    A Python function is a program whose result is a value or an exception; an
    [except] clause tests the classes of the exception as [isinstance] does.  A
    string is its UTF-8 bytes.  What a user function prints and how it ends
    (returns, raises, kills its process, or never) is a parameter ([UserCode]), as
    is cloudpickle.  A call of a user function is one step; what the streamer
    sends meanwhile is a step of the deployment ([worker_streams] of EndToEnd.v).
    The bytes of a socket arrive in pieces of any size; processes
    and files of the warm pool are part of its state.

    ** What the theorems show

    - System.v, for every store that meets the contract, any requests, any
      interleaving, faults, crashes and restarts: the global invariant holds; a
      finished job is final; an acknowledged report is durable; an idempotency
      key names one job; an accepted job keeps its payload until it is finished;
      a watch ends with the stored outcome; status replies agree; no handler
      panics.
    - Liveness.v, for every interleaving and across crashes while the store works
      and no shutdown has begun: a PENDING job is on the queue, or a running
      goroutine settles it within finitely many of its own steps.
    - Sequential.v, Progress.v: dispatch terminates; the reaper and recovery leave
      no job behind; the queue loop places every job with workers that accept.
    - Main.v: the process serves only after the replay and a restart keeps every
      unfinished job; a panic in a unary handler becomes an error.  Http.v: the
      multiplexer is the table of routes, every request is answered without a
      panic, and joining a cluster succeeds exactly if raft added the node.
    - EndToEnd.v: for any number of workers with any strategies, in every
      interleaving, with crashes and with lost or repeated messages, what
      [Future.get] returns is what the function returns when it is called
      locally, or the error of the failed job.  It combines the orchestrator's
      invariant (a task carries the payload of its job; a DONE job has the result
      of a report; a log event has a line received for its job) with the worker's (a report of success is what the function
      of a task returned) and the round trips of the SDK.  The lines that [get]
      shows are lines that the function of this job writes, or were sent with a
      report of its failure.
    - Worker.v: a worker loses no task, reports each once and truthfully, and a
      task of a function that returns or raises gets done.  WarmPool.v: children
      are neither shared nor lost.  Strategies.v: the three strategies agree.
      WorkerMain.v: the worker forks before it starts threads, keeps trying to
      register, and is back after a restart of the orchestrator.  Framing.v,
      LogStream.v: messages survive any cutting of the stream; output arrives in
      lines, in order, from the right task.  Sdk.v: what [get] makes of a stream.
    - JobStore.v, RaftFsm.v, RaftStore.v, Json.v: the stores refine the contract,
      replicas and snapshots agree, records survive encoding.
    - Component files: the worker pool picks and sweeps correctly; the log hub
      delivers every line in order within its bounds and reclaims entries; the
      cache is an LRU cache; percentiles are order statistics; the autoscaler
      stops only what it launched and respects its upper bound; ports are leased
      without clash or leak; settings are read back as printed.
    - Limits: module [Limits] of System.v, [watch_untracked_leaks],
      [Transition_commit_failure], [scale_down_below_min],
      [boot_waits_when_overfull], [leader_replay_misses_tail],
      [pool_can_run_dry], [restart_keeps_dead_children] and
      [exit_is_not_reported] exhibit runs in which the code does less than its
      comments say or its authors meant.

    ** Bounds and fuel

    Endless loops (drainer, fault detector, watch) and the dispatch loop are
    unrolled [fuel] times and end in [Spin], which never replies; safety theorems
    hold for every fuel, and [Dispatch_terminates] gives the fuel that is enough.
    The liveness theorem asks of the drainer more fuel than there are workers,
    since a dispatch tries each at most once.
    The compare-and-swap loop has the bound of the code.  The port search gets one
    more iteration than there are leased ports, and the duration parser one per
    character; both are shown to suffice.  The loop of [register] and the
    heartbeat loop get an iteration per attempt ([register_retries] says how many
    suffice); the streamer's loop one per line and one more, which is shown to
    suffice; reading [n] bytes takes at most [n] calls.

    ** Not modelled

    The operating systems, gRPC, BoltDB, hashicorp/raft, cloudpickle, user
    functions and the UUID source are environments with the laws the code relies
    on; so are the file server and the profiling pages behind the HTTP routes.
    Logging is left out.  src/proto is the input of a code generator, whose
    messages are records of Types.v; the dashboard and the benchmarks only show
    and measure.  Timeouts of calls appear as errors that may come at any time;
    no theorem is about how long anything takes.  That a worker's signal handlers
    run and that children die with their parents is left to the system. *)

From stdpp Require Import base gmap strings list numbers fin_maps sorting.

(** ** Go machine integers

    [int] and [int64] are 64 bits wide, [int32] is 32 bits wide.  A value is
    kept as its mathematical integer; arithmetic that may leave the range goes
    through [wrap]. *)

Declare Scope go_scope.
Delimit Scope go_scope with go.

Definition wrap (w z : Z) : Z := ((z + 2 ^ (w - 1)) mod 2 ^ w - 2 ^ (w - 1))%Z.

Definition int64 (z : Z) : Z := wrap 64 z.

Definition int32 (z : Z) : Z := wrap 32 z.

Definition minInt64 : Z := (- 2 ^ 63)%Z.

Definition maxInt64 : Z := (2 ^ 63 - 1)%Z.

Definition in_int64 (z : Z) : Prop := (minInt64 ≤ z ≤ maxInt64)%Z.

(** ** Go time

    A [time.Time] is the number of nanoseconds since the zero [Time]
    (January 1, year 1, UTC), so the zero [Time] is [0].  A [time.Duration]
    is an [int64] number of nanoseconds, and [Time.Sub] saturates instead of
    wrapping. *)

Definition zeroTime : Z := 0.

Definition time_IsZero (t : Z) : bool := (t =? 0)%Z.

Definition time_Sub (t u : Z) : Z := Z.max minInt64 (Z.min maxInt64 (t - u)).

Definition time_Before (t u : Z) : bool := (t <? u)%Z.

Definition nanosecond : Z := 1.

Definition millisecond : Z := 1000000.

Definition second : Z := 1000000000.

(** ** Results *)

Inductive result (E A : Type) : Type :=
| Ok (a : A)
| Err (e : E).

Arguments Ok {E A} a.
Arguments Err {E A} e.

Definition result_map {E A B} (f : A → B) (r : result E A) : result E B :=
  match r with Ok a => Ok (f a) | Err e => Err e end.

Definition is_Ok {E A} (r : result E A) : bool :=
  match r with Ok _ => true | Err _ => false end.

(** ** Ranging over a Go map

    Go iterates over a map in an unspecified order.  [range_map ord m] lists
    the entries of [m], first those named by [ord] in the order of [ord], then
    the others; every enumeration order of [m] is obtained by some [ord]. *)

Definition range_map {V} (ord : list string) (m : gmap string V) : list (string * V) :=
  let front := remove_dups ord in
  omap (λ k, (λ v, (k, v)) <$> m !! k) front
    ++ map_to_list (filter (λ kv, kv.1 ∉ front) m).

(** ** Hint databases

    [stable] holds the assertions that other threads cannot falsify (declared in Prog.v
    and Invariant.v, used by the rely-guarantee proofs); [bounds] the machine ranges. *)

Create HintDb stable.
Create HintDb bounds.

(** ** Tactics *)

(** Boolean hypotheses as propositions. *)
Ltac bool_hyps :=
  repeat match goal with
  | H : _ && _ = true |- _ => apply andb_true_iff in H as [? ?]
  | H : _ || _ = false |- _ => apply orb_false_iff in H as [? ?]
  | H : negb _ = true |- _ => apply negb_true_iff in H
  | H : negb _ = false |- _ => apply negb_false_iff in H
  | H : (_ =? _)%string = true |- _ => apply String.eqb_eq in H
  | H : (_ =? _)%string = false |- _ => apply String.eqb_neq in H
  end.

(** ** Lemmas on integers *)

Lemma wrap_range w z : (0 < w)%Z → (- 2 ^ (w - 1) ≤ wrap w z < 2 ^ (w - 1))%Z.
Proof.
  intros Hw. unfold wrap.
  assert (2 ^ w = 2 * 2 ^ (w - 1))%Z as E.
  { rewrite <- Z.pow_succ_r by lia. f_equal. lia. }
  pose proof (Z.mod_pos_bound (z + 2 ^ (w - 1)) (2 ^ w)).
  assert (0 < 2 ^ (w - 1))%Z by (apply Z.pow_pos_nonneg; lia). lia.
Qed.

Lemma wrap_id w z : (0 < w)%Z → (- 2 ^ (w - 1) ≤ z < 2 ^ (w - 1))%Z → wrap w z = z.
Proof.
  intros Hw Hz. unfold wrap.
  assert (2 ^ w = 2 * 2 ^ (w - 1))%Z as E.
  { rewrite <- Z.pow_succ_r by lia. f_equal. lia. }
  rewrite Z.mod_small; lia.
Qed.

Lemma int64_id z : in_int64 z → int64 z = z.
Proof. unfold in_int64, minInt64, maxInt64, int64. intros. apply wrap_id; lia. Qed.

Lemma int64_in z : in_int64 (int64 z).
Proof.
  pose proof (wrap_range 64 z). unfold in_int64, int64, minInt64, maxInt64. lia.
Qed.

Lemma time_Sub_in t u : in_int64 (time_Sub t u).
Proof. unfold in_int64, time_Sub, minInt64, maxInt64. lia. Qed.

Lemma time_Sub_gt t u d :
  in_int64 d → (d < maxInt64)%Z → (time_Sub t u > d)%Z ↔ (t - u > d)%Z.
Proof. unfold in_int64, time_Sub, minInt64, maxInt64. lia. Qed.

#[export] Hint Resolve int64_in time_Sub_in : bounds.

(** ** Lemmas on lists *)

Lemma filter_none {A} (P : A → Prop) `{!∀ x, Decision (P x)} (l : list A) :
  (∀ x, x ∈ l → ¬ P x) → filter P l = [].
Proof.
  induction l as [|x l IH]; intros HP; [done|]. rewrite filter_cons_False by (apply HP; by left).
  apply IH. intros y Hy. apply HP. by right.
Qed.

Lemma filter_all {A} (P : A → Prop) `{!∀ x, Decision (P x)} (l : list A) :
  (∀ x, x ∈ l → P x) → filter P l = l.
Proof.
  induction l as [|x l IH]; intros HP; [done|]. rewrite filter_cons_True by (apply HP; by left).
  f_equal. apply IH. intros y Hy. apply HP. by right.
Qed.

Lemma NoDup_delete {A} (l : list A) i x :
  l !! i = Some x → NoDup l →
  NoDup (delete i l) ∧ ∀ y, y ∈ delete i l ↔ y ∈ l ∧ y ≠ x.
Proof.
  intros Hi%delete_Permutation Hnd. rewrite Hi in Hnd. apply NoDup_cons in Hnd as [Hx Hnd].
  split; [done|]. intros y. rewrite Hi at 2. rewrite elem_of_cons. split.
  - intros Hy. split; [by right|]. by intros ->.
  - intros [[->|?] ?]; done.
Qed.

(** ** Lemmas on pairs *)

Lemma pair_eq_fst {A B} (p : A * B) (a : A) : p.1 = a → p = (a, p.2).
Proof. destruct p. by intros <-. Qed.

(** ** Lemmas on finite maps *)

(** Inserting the pairs of a list one after the other. *)
Definition insert_all {V} (kvs : list (string * V)) (m : gmap string V) : gmap string V :=
  foldl (λ m kv, <[kv.1 := kv.2]> m) m kvs.

Lemma insert_all_union {V} (kvs : list (string * V)) (m : gmap string V) :
  NoDup kvs.*1 → insert_all kvs m = list_to_map kvs ∪ m.
Proof.
  revert m. unfold insert_all. induction kvs as [|[k v] kvs IH]; intros m.
  { intros _. cbn. by rewrite map_empty_union. }
  cbn. intros [Hni Hnd]%NoDup_cons. rewrite IH by done.
  rewrite <- insert_union_l, <- insert_union_r; [done|].
  by apply not_elem_of_list_to_map_1.
Qed.

Lemma insert_all_perm {V} (kvs : list (string * V)) (m : gmap string V) :
  kvs ≡ₚ map_to_list m → insert_all kvs ∅ = m.
Proof.
  intros Hp. assert (NoDup kvs.*1) as Hnd by (rewrite Hp; apply NoDup_fst_map_to_list).
  rewrite insert_all_union by done. rewrite map_union_empty.
  rewrite (list_to_map_proper _ _ Hnd Hp). apply list_to_map_to_list.
Qed.

(** ** Lemmas on map ranges *)

Section range.
Context {V : Type}.
Implicit Types (m : gmap string V).

Lemma elem_of_range_map ord m k v : (k, v) ∈ range_map ord m ↔ m !! k = Some v.
Proof.
  unfold range_map. rewrite elem_of_app, list_elem_of_omap, elem_of_map_to_list.
  rewrite (map_lookup_filter_Some (λ kv : string * V, kv.1 ∉ remove_dups ord)).
  cbn. split.
  - intros [(k' & Hk' & E)|[? ?]]; [|done].
    destruct (m !! k') eqn:Hm; simplify_eq/=. done.
  - intros Hm. destruct (decide (k ∈ remove_dups ord)) as [Hin|Hn]; [left|by right].
    exists k. by rewrite Hm.
Qed.

Lemma range_map_keys_NoDup ord m : NoDup (range_map ord m).*1.
Proof.
  unfold range_map. rewrite fmap_app. apply NoDup_app. repeat split.
  - pose proof (NoDup_remove_dups ord) as Hnd. revert Hnd.
    generalize (remove_dups ord). intros l.
    induction 1 as [|k l Hk Hl IH]; [constructor|]. cbn.
    destruct (m !! k) eqn:Hm; [|done]. constructor; [|done].
    intros ([k' v'] & Ek & Hin)%list_elem_of_fmap. cbn in Ek. subst k'.
    apply list_elem_of_omap in Hin as (k'' & Hk'' & E).
    destruct (m !! k''); by simplify_eq/=.
  - intros k ([k' v] & -> & Hin)%list_elem_of_fmap ([k2 v2] & E & Hin2)%list_elem_of_fmap.
    cbn in *. subst k2.
    apply elem_of_map_to_list, map_lookup_filter_Some in Hin2 as [_ Hn].
    apply list_elem_of_omap in Hin as (k'' & Hk'' & E).
    destruct (m !! k''); by simplify_eq/=.
  - apply NoDup_fst_map_to_list.
Qed.

Lemma range_map_perm ord m : range_map ord m ≡ₚ map_to_list m.
Proof.
  apply NoDup_Permutation.
  - eapply NoDup_fmap_1, range_map_keys_NoDup.
  - apply NoDup_map_to_list.
  - intros [k v]. by rewrite elem_of_range_map, elem_of_map_to_list.
Qed.

End range.
