(* ===== verification/Paths.v ===== *)
(** * Lexical paths

    [path.Clean], [filepath.Join] and [filepath.Dir] (on Unix, where the separator
    is a slash), and the slash-trimming of package strings, as the HTTP server and
    the store constructors use them. *)

From stdpp Require Import strings list prelude.
From S2P Require Import Prelude.

Definition slash : Ascii.ascii := Ascii.ascii_of_nat 47.

Definition is_slash (c : Ascii.ascii) : bool := Ascii.eqb c slash.

(** [strings.Split(s, "/")]. *)
Fixpoint split_slash (s : string) : list string :=
  match s with
  | "" => [""]
  | String c s =>
      if is_slash c then "" :: split_slash s
      else match split_slash s with
           | seg :: segs => String c seg :: segs
           | [] => [String c ""]
           end
  end.

(** [strings.Join(segs, "/")]. *)
Fixpoint join_slash (segs : list string) : string :=
  match segs with
  | [] => ""
  | [seg] => seg
  | seg :: segs => seg +:+ String slash (join_slash segs)
  end.

Definition rooted (p : string) : bool :=
  match p with String c _ => is_slash c | "" => false end.

(** [strings.HasSuffix(p, "/")]. *)
Fixpoint ends_slash (p : string) : bool :=
  match p with
  | "" => false
  | String c "" => is_slash c
  | String _ p => ends_slash p
  end.

(** One element of a path; [out] are the elements kept so far, last first. *)
Definition clean_step (abs : bool) (out : list string) (seg : string) : list string :=
  if String.eqb seg "" || String.eqb seg "." then out
  else if String.eqb seg ".." then
    match out with
    | last :: rest => if String.eqb last ".." then ".." :: out else rest
    | [] => if abs then [] else [".."]
    end
  else seg :: out.

Definition clean_segments (abs : bool) (segs : list string) : list string :=
  rev (foldl (clean_step abs) [] segs).

Definition Clean (p : string) : string :=
  if String.eqb p "" then "."
  else
    let body := join_slash (clean_segments (rooted p) (split_slash p)) in
    if rooted p then String slash body
    else if String.eqb body "" then "." else body.

(** [filepath.Join]: leading empty elements are ignored. *)
Fixpoint Join (elems : list string) : string :=
  match elems with
  | [] => ""
  | e :: rest => if String.eqb e "" then Join rest else Clean (join_slash elems)
  end.

(** [path[:i+1]] for the last slash at [i]. *)
Fixpoint upto_last_slash (p : string) : string :=
  match p with
  | "" => ""
  | String c p =>
      let rest := upto_last_slash p in
      if String.eqb rest "" then if is_slash c then String c "" else "" else String c rest
  end.

Definition Dir (p : string) : string := Clean (upto_last_slash p).

(** [strings.TrimRight(s, "/")]. *)
Fixpoint TrimRightSlash (s : string) : string :=
  match s with
  | "" => ""
  | String c s =>
      let t := TrimRightSlash s in
      if String.eqb t "" && is_slash c then "" else String c t
  end.

(** ** Facts *)

(** An element that [Clean] keeps: a name, or [".."] at the front of a relative
    path. *)
Definition name (seg : string) : Prop := seg ≠ "" ∧ seg ≠ "." ∧ seg ≠ "..".

Lemma clean_step_abs out seg : Forall name out → Forall name (clean_step true out seg).
Proof.
  intros Hout. unfold clean_step.
  destruct (String.eqb_spec seg ""); [done|]. destruct (String.eqb_spec seg "."); [done|]. cbn [orb].
  destruct (String.eqb_spec seg ".."); [|by constructor].
  destruct Hout as [|last rest (? & ? & Hdd) Hrest]; [done|].
  apply String.eqb_neq in Hdd. by rewrite Hdd.
Qed.

(** A cleaned absolute path has no [".."]: it stays below the root. *)
Lemma clean_segments_abs segs : Forall name (clean_segments true segs).
Proof.
  unfold clean_segments. apply Forall_rev.
  assert (∀ out, Forall name out → Forall name (foldl (clean_step true) out segs)) as H.
  { induction segs as [|seg segs IH]; intros out Hout; cbn; [done|]. apply IH. by apply clean_step_abs. }
  by apply H.
Qed.

(** Names are kept as they are. *)
Lemma clean_segments_names abs segs : Forall name segs → clean_segments abs segs = segs.
Proof.
  intros Hall. unfold clean_segments.
  assert (∀ out, foldl (clean_step abs) out segs = rev segs ++ out) as ->.
  { induction Hall as [|seg segs (H1 & H2 & H3) _ IH]; intros out; [done|]. cbn [foldl rev].
    rewrite IH, <- app_assoc. cbn. unfold clean_step.
    apply String.eqb_neq in H1, H2, H3. by rewrite H1, H2, H3. }
  by rewrite app_nil_r, rev_involutive.
Qed.
