(* ===== verification/Types.v ===== *)
(** * Data of the orchestrator: errors, job records, protocol messages

    The error values of the Go code with [Error], wrapping and [errors.Is];
    [JobStatus] and [JobRecord] of src/orchestrator/job_store.go; the messages
    of src/proto/minimodal.proto that the handlers of server.go and watch.go
    read and build. *)

From stdpp Require Import base gmap strings list numbers pretty.
From Stdlib.Strings Require Import Byte.
From S2P Require Import Prelude.

(** ** Bytes *)

Abbreviation bytes := (list Byte.byte).

#[export] Instance byte_eq_dec : EqDecision Byte.byte := Byte.byte_eq_dec.

(** Go's [string + string]. *)
Infix "+:+" := String.append (at level 60, right associativity) : go_scope.

Open Scope go_scope.

(** The verb [%q] on a string that needs no escapes. *)
Definition quoted (s : string) : string :=
  String (Ascii.ascii_of_nat 34) s +:+ String (Ascii.ascii_of_nat 34) "".

(** ** Errors

    The sentinel errors of the package and of hashicorp/raft are constructors;
    [errorString] is any other leaf error (an [errors.New] or an [Errorf]
    without [%w]); [wrapError pre e post] is [fmt.Errorf] with the verb [%w]
    between the texts [pre] and [post]. *)

Inductive error : Type :=
| ErrSkipTransition
| ErrNoWorkersAvailable
| ErrAllWorkersExhausted
| ErrJobAlreadyTerminal
| ErrNotLeader
| raft_ErrNotLeader
| raft_ErrLeadershipLost
| raft_ErrCantBootstrap
| http_ErrServerClosed
| errorString (msg : string)
| wrapError (pre : string) (e : error) (post : string).

#[export] Instance error_eq_dec : EqDecision error.
Proof. solve_decision. Defined.

(** The [Error] method. *)
Fixpoint Error (e : error) : string :=
  match e with
  | ErrSkipTransition => "skip transition"
  | ErrNoWorkersAvailable => "no alive workers available"
  | ErrAllWorkersExhausted => "all alive workers refused or unreachable"
  | ErrJobAlreadyTerminal => "job already in terminal state"
  | ErrNotLeader => "not the raft leader"
  | raft_ErrNotLeader => "node is not the leader"
  | raft_ErrLeadershipLost => "leadership lost while committing log"
  | raft_ErrCantBootstrap => "bootstrap only works on new clusters"
  | http_ErrServerClosed => "http: Server closed"
  | errorString msg => msg
  | wrapError pre e post => pre +:+ Error e +:+ post
  end.

(** [errors.Is]: some error of the unwrap chain is [target]. *)
Fixpoint errors_Is (e target : error) : bool :=
  bool_decide (e = target) ||
  match e with wrapError _ e' _ => errors_Is e' target | _ => false end.

(** ** gRPC status errors *)

Inductive code : Type := InvalidArgument | NotFound | Internal | FailedPrecondition.

#[export] Instance code_eq_dec : EqDecision code.
Proof. solve_decision. Defined.

Record status : Type := mkStatus { status_code : code; status_msg : string }.

#[export] Instance status_eq_dec : EqDecision status.
Proof. solve_decision. Defined.

(** ** Job records (job_store.go) *)

(** [JobStatus] is a Go string; the store may hold other values than the four
    constants. *)
Abbreviation JobStatus := string.

Definition StatusPending : JobStatus := "PENDING".

Definition StatusRunning : JobStatus := "RUNNING".

Definition StatusDone : JobStatus := "DONE".

Definition StatusFailed : JobStatus := "FAILED".

Record JobRecord : Type := mkJob {
  ID : string;
  Status : JobStatus;
  WorkerID : string;
  FunctionName : string;
  FunctionBytes : bytes;
  ArgsBytes : bytes;
  ResultBytes : bytes;
  ColdStartMs : Z;
  ExecutionMs : Z;
  IdempotencyKey : string;
  CreatedAt : Z;
  UpdatedAt : Z;
  RetryCount : Z;
  JobError : string;
  Version : Z;
}.

#[export] Instance JobRecord_eq_dec : EqDecision JobRecord.
Proof. solve_decision. Defined.

(** The zero value of the struct. *)
Definition zeroJob : JobRecord :=
  mkJob "" "" "" "" [] [] [] 0 0 "" zeroTime zeroTime 0 "" 0.

(** Assignments to one field, [rec.F = v]. *)
Definition set_Status (v : JobStatus) (r : JobRecord) : JobRecord :=
  mkJob (ID r) v (WorkerID r) (FunctionName r) (FunctionBytes r) (ArgsBytes r)
    (ResultBytes r) (ColdStartMs r) (ExecutionMs r) (IdempotencyKey r) (CreatedAt r)
    (UpdatedAt r) (RetryCount r) (JobError r) (Version r).

Definition set_WorkerID (v : string) (r : JobRecord) : JobRecord :=
  mkJob (ID r) (Status r) v (FunctionName r) (FunctionBytes r) (ArgsBytes r)
    (ResultBytes r) (ColdStartMs r) (ExecutionMs r) (IdempotencyKey r) (CreatedAt r)
    (UpdatedAt r) (RetryCount r) (JobError r) (Version r).

Definition set_FunctionBytes (v : bytes) (r : JobRecord) : JobRecord :=
  mkJob (ID r) (Status r) (WorkerID r) (FunctionName r) v (ArgsBytes r)
    (ResultBytes r) (ColdStartMs r) (ExecutionMs r) (IdempotencyKey r) (CreatedAt r)
    (UpdatedAt r) (RetryCount r) (JobError r) (Version r).

Definition set_ArgsBytes (v : bytes) (r : JobRecord) : JobRecord :=
  mkJob (ID r) (Status r) (WorkerID r) (FunctionName r) (FunctionBytes r) v
    (ResultBytes r) (ColdStartMs r) (ExecutionMs r) (IdempotencyKey r) (CreatedAt r)
    (UpdatedAt r) (RetryCount r) (JobError r) (Version r).

Definition set_ResultBytes (v : bytes) (r : JobRecord) : JobRecord :=
  mkJob (ID r) (Status r) (WorkerID r) (FunctionName r) (FunctionBytes r) (ArgsBytes r)
    v (ColdStartMs r) (ExecutionMs r) (IdempotencyKey r) (CreatedAt r)
    (UpdatedAt r) (RetryCount r) (JobError r) (Version r).

Definition set_ColdStartMs (v : Z) (r : JobRecord) : JobRecord :=
  mkJob (ID r) (Status r) (WorkerID r) (FunctionName r) (FunctionBytes r) (ArgsBytes r)
    (ResultBytes r) v (ExecutionMs r) (IdempotencyKey r) (CreatedAt r)
    (UpdatedAt r) (RetryCount r) (JobError r) (Version r).

Definition set_ExecutionMs (v : Z) (r : JobRecord) : JobRecord :=
  mkJob (ID r) (Status r) (WorkerID r) (FunctionName r) (FunctionBytes r) (ArgsBytes r)
    (ResultBytes r) (ColdStartMs r) v (IdempotencyKey r) (CreatedAt r)
    (UpdatedAt r) (RetryCount r) (JobError r) (Version r).

Definition set_IdempotencyKey (v : string) (r : JobRecord) : JobRecord :=
  mkJob (ID r) (Status r) (WorkerID r) (FunctionName r) (FunctionBytes r) (ArgsBytes r)
    (ResultBytes r) (ColdStartMs r) (ExecutionMs r) v (CreatedAt r)
    (UpdatedAt r) (RetryCount r) (JobError r) (Version r).

Definition set_CreatedAt (v : Z) (r : JobRecord) : JobRecord :=
  mkJob (ID r) (Status r) (WorkerID r) (FunctionName r) (FunctionBytes r) (ArgsBytes r)
    (ResultBytes r) (ColdStartMs r) (ExecutionMs r) (IdempotencyKey r) v
    (UpdatedAt r) (RetryCount r) (JobError r) (Version r).

Definition set_UpdatedAt (v : Z) (r : JobRecord) : JobRecord :=
  mkJob (ID r) (Status r) (WorkerID r) (FunctionName r) (FunctionBytes r) (ArgsBytes r)
    (ResultBytes r) (ColdStartMs r) (ExecutionMs r) (IdempotencyKey r) (CreatedAt r)
    v (RetryCount r) (JobError r) (Version r).

Definition set_RetryCount (v : Z) (r : JobRecord) : JobRecord :=
  mkJob (ID r) (Status r) (WorkerID r) (FunctionName r) (FunctionBytes r) (ArgsBytes r)
    (ResultBytes r) (ColdStartMs r) (ExecutionMs r) (IdempotencyKey r) (CreatedAt r)
    (UpdatedAt r) v (JobError r) (Version r).

Definition set_JobError (v : string) (r : JobRecord) : JobRecord :=
  mkJob (ID r) (Status r) (WorkerID r) (FunctionName r) (FunctionBytes r) (ArgsBytes r)
    (ResultBytes r) (ColdStartMs r) (ExecutionMs r) (IdempotencyKey r) (CreatedAt r)
    (UpdatedAt r) (RetryCount r) v (Version r).

Definition set_Version (v : Z) (r : JobRecord) : JobRecord :=
  mkJob (ID r) (Status r) (WorkerID r) (FunctionName r) (FunctionBytes r) (ArgsBytes r)
    (ResultBytes r) (ColdStartMs r) (ExecutionMs r) (IdempotencyKey r) (CreatedAt r)
    (UpdatedAt r) (RetryCount r) (JobError r) v.

(** [rec.Status == StatusDone || rec.Status == StatusFailed], the test every
    handler uses. *)
Definition terminal_status (st : JobStatus) : bool :=
  String.eqb st StatusDone || String.eqb st StatusFailed.

Definition terminal (r : JobRecord) : bool := terminal_status (Status r).

(** Every write stamps the record:
    [rec.UpdatedAt = time.Now(); if rec.CreatedAt.IsZero() { rec.CreatedAt = rec.UpdatedAt }]. *)
Definition stamp (now : Z) (r : JobRecord) : JobRecord :=
  let r := set_UpdatedAt now r in
  if time_IsZero (CreatedAt r) then set_CreatedAt (UpdatedAt r) r else r.

(** ** Protocol messages (proto/minimodal.proto) *)

Module pb.

Inductive JobStatus : Type :=
| JOB_STATUS_UNKNOWN
| JOB_STATUS_PENDING
| JOB_STATUS_RUNNING
| JOB_STATUS_DONE
| JOB_STATUS_FAILED.

#[export] Instance JobStatus_eq_dec : EqDecision JobStatus.
Proof. solve_decision. Defined.

Record LogLine : Type := mkLogLine {
  line : string;
  is_stderr : bool;
  ts_unix_ms : Z;
}.

#[export] Instance LogLine_eq_dec : EqDecision LogLine.
Proof. solve_decision. Defined.

Record JobResult : Type := mkJobResult {
  jr_status : JobStatus;
  jr_result_bytes : bytes;
  jr_error : string;
  jr_cold_start_ms : Z;
  jr_total_duration_ms : Z;
  jr_retry_count : Z;
  jr_worker_id : string;
}.

#[export] Instance JobResult_eq_dec : EqDecision JobResult.
Proof. solve_decision. Defined.

(** The [oneof event] of [JobEvent]. *)
Inductive event : Type :=
| JobEvent_Status (s : JobStatus)
| JobEvent_Log (l : LogLine)
| JobEvent_Result (r : JobResult).

#[export] Instance event_eq_dec : EqDecision event.
Proof. solve_decision. Defined.

Record JobEvent : Type := mkJobEvent { ev_job_id : string; ev_event : event }.

#[export] Instance JobEvent_eq_dec : EqDecision JobEvent.
Proof. solve_decision. Defined.

(** [ev.GetResult() != nil]. *)
Definition isResult (ev : JobEvent) : bool :=
  match ev_event ev with JobEvent_Result _ => true | _ => false end.

Record InvokeFunctionRequest : Type := mkInvoke {
  inv_function_bytes : bytes;
  inv_args_bytes : bytes;
  inv_function_name : string;
  inv_idempotency_key : string;
}.

Record JobStatusResponse : Type := mkJobStatusResponse {
  js_job_id : string;
  js_status : JobStatus;
  js_result_bytes : bytes;
  js_error : string;
  js_cold_start_ms : Z;
  js_total_duration_ms : Z;
  js_retry_count : Z;
  js_worker_id : string;
}.

Record RegisterWorkerRequest : Type := mkRegister {
  reg_worker_id : string;
  reg_address : string;
  reg_capacity : Z;
}.

Record RegisterWorkerResponse : Type := mkRegisterResponse {
  regr_worker_id : string;
  regr_heartbeat_interval_ms : Z;
}.

Record HeartbeatRequest : Type := mkHeartbeat {
  hb_worker_id : string;
  hb_active_tasks : Z;
}.

Record ReportTaskResultRequest : Type := mkReport {
  rep_job_id : string;
  rep_worker_id : string;
  rep_success : bool;
  rep_result_bytes : bytes;
  rep_error : string;
  rep_cold_start_ms : Z;
  rep_execution_ms : Z;
  rep_tail_lines : list LogLine;
}.

Record TaskLogChunk : Type := mkChunk {
  chunk_job_id : string;
  chunk_worker_id : string;
  chunk_lines : list LogLine;
}.

Record ExecuteTaskRequest : Type := mkExecute {
  ex_job_id : string;
  ex_function_bytes : bytes;
  ex_args_bytes : bytes;
  ex_function_name : string;
}.

Record ExecuteTaskResponse : Type := mkExecuteResponse {
  accepted : bool;
  rejection_reason : string;
}.

End pb.

(** ** Facts *)

Lemma append_assoc (s1 s2 s3 : string) : (s1 +:+ s2) +:+ s3 = s1 +:+ (s2 +:+ s3).
Proof. induction s1 as [|c s1 IH]; [done|]. exact (f_equal (String c) IH). Qed.

Lemma append_nil_r s : s +:+ "" = s.
Proof. induction s as [|c s IH]; [done|]. exact (f_equal (String c) IH). Qed.

Lemma length_append (s1 s2 : string) :
  String.length (s1 +:+ s2) = String.length s1 + String.length s2.
Proof. induction s1 as [|c s1 IH]; [done|]. exact (f_equal S IH). Qed.

Lemma terminal_status_spec st :
  terminal_status st = true ↔ st = StatusDone ∨ st = StatusFailed.
Proof. unfold terminal_status. by rewrite orb_true_iff, !String.eqb_eq. Qed.

Lemma errors_Is_refl e : errors_Is e e = true.
Proof. destruct e; cbn; by rewrite bool_decide_eq_true_2. Qed.

Lemma errors_Is_wrap pre e post t : errors_Is e t = true → errors_Is (wrapError pre e post) t = true.
Proof. cbn. intros ->. apply orb_true_r. Qed.

Lemma stamp_CreatedAt now r :
  CreatedAt (stamp now r) = if time_IsZero (CreatedAt r) then now else CreatedAt r.
Proof. unfold stamp. cbn. by destruct (time_IsZero (CreatedAt r)). Qed.

(** [stamp] only touches the two timestamps. *)
Lemma stamp_fields now r :
  UpdatedAt (stamp now r) = now ∧ ID (stamp now r) = ID r ∧ Status (stamp now r) = Status r ∧
  WorkerID (stamp now r) = WorkerID r ∧ FunctionBytes (stamp now r) = FunctionBytes r ∧
  ArgsBytes (stamp now r) = ArgsBytes r ∧ ResultBytes (stamp now r) = ResultBytes r ∧
  RetryCount (stamp now r) = RetryCount r ∧ JobError (stamp now r) = JobError r ∧
  IdempotencyKey (stamp now r) = IdempotencyKey r ∧ Version (stamp now r) = Version r ∧
  ColdStartMs (stamp now r) = ColdStartMs r ∧ ExecutionMs (stamp now r) = ExecutionMs r ∧
  FunctionName (stamp now r) = FunctionName r.
Proof. unfold stamp. cbn. by destruct (time_IsZero (CreatedAt r)). Qed.

Lemma stamp_terminal now r : terminal (stamp now r) = terminal r.
Proof. unfold terminal. destruct (stamp_fields now r) as (_ & _ & -> & _). done. Qed.
