(* ===== verification/Prog.v ===== *)
(** * Programs over shared state, interleavings, and rely-guarantee reasoning

    The handlers of the orchestrator run as goroutines that share the job store,
    the worker pool, the queue and so on, each protected by its own lock.  A
    handler is a [prog]: a tree of atomic steps on the shared state, one step
    per lock-protected or atomic operation of the code.  [run] executes a
    program alone; [cstep] interleaves any number of them, starts new ones,
    hands their replies out and crashes the process.  [spec] is a
    rely-guarantee judgement on programs and [adequacy] says what it means for
    every interleaving. *)

From stdpp Require Import strings gmap sorting prelude.
From S2P Require Import Prelude.

(** What one atomic step does: go on with a value, wait (a full or empty
    channel), or panic. *)
Inductive outcome (S B : Type) : Type :=
| Next (b : B) (s : S)
| Block
| Panic.

Arguments Next {S B} b s.
Arguments Block {S B}.
Arguments Panic {S B}.

(** [S] is the shared state, [O] what the environment decides for a step (clock,
    faults, map order, remote answers).  [Spin] ends the unrolling of a loop
    that has no bound of its own: theorems hold for every unrolling. *)
Inductive prog (S O A : Type) : Type :=
| Ret (a : A)
| Act (B : Type) (step : O → S → outcome S B) (k : B → prog S O A)
| Spin.

Arguments Ret {S O A} a.
Arguments Act {S O A} B step k.
Arguments Spin {S O A}.

#[export] Instance prog_ret {S O} : MRet (prog S O) := λ A a, Ret a.

#[export] Instance prog_bind {S O} : MBind (prog S O) := λ A B f,
  fix bind (p : prog S O A) : prog S O B :=
    match p with
    | Ret a => f a
    | Act C step k => Act C step (λ c, bind (k c))
    | Spin => Spin
    end.

Definition act {S O B} (step : O → S → outcome S B) : prog S O B := Act B step Ret.

(** ** One program alone *)

Inductive run_result (S A : Type) : Type :=
| Done (a : A) (s : S)
| Blocked (s : S)
| Panicked (s : S)
| Unfinished (s : S).

Arguments Done {S A} a s.
Arguments Blocked {S A} s.
Arguments Panicked {S A} s.
Arguments Unfinished {S A} s.

(** [os n] is the environment's decision for the [n]th step. *)
Fixpoint run {S O A} (os : nat → O) (p : prog S O A) (s : S) : run_result S A :=
  match p with
  | Ret a => Done a s
  | Act B step k =>
      match step (os 0) s with
      | Next b s => run (λ n, os (Datatypes.S n)) (k b) s
      | Block => Blocked s
      | Panic => Panicked s
      end
  | Spin => Unfinished s
  end.

(** Total correctness of a program that runs alone: whatever the environment
    decides within [ok], it neither waits nor panics nor outlasts its unrolling,
    and returns a value and a state that satisfy [Q]. *)
Fixpoint wp {S O A} (ok : O → S → Prop) (p : prog S O A) (s : S) (Q : A → S → Prop) : Prop :=
  match p with
  | Ret a => Q a s
  | Act B step k =>
      ∀ o, ok o s → match step o s with Next b s' => wp ok (k b) s' Q | _ => False end
  | Spin => False
  end.

Lemma run_bind_assoc {S O A B C} (p : prog S O A) (f : A → prog S O B) (g : B → prog S O C) os s :
  run os ((p ≫= f) ≫= g) s = run os (p ≫= λ a, f a ≫= g) s.
Proof.
  revert os s. induction p as [a|D step k IH|]; intros os s; cbn; [done| |done].
  by destruct (step (os 0) s).
Qed.

Section wp.
Context {S O : Type} (ok : O → S → Prop).

Lemma wp_mono {A} (p : prog S O A) s (Q Q' : A → S → Prop) :
  (∀ a s', Q a s' → Q' a s') → wp ok p s Q → wp ok p s Q'.
Proof.
  intros HQ. revert s. induction p as [a|B step k IH|]; intros s; cbn; [by auto| |done].
  intros H o Ho. specialize (H o Ho). destruct (step o s); auto.
Qed.

Lemma wp_bind {A B} (p : prog S O A) (f : A → prog S O B) s Q :
  wp ok p s (λ a s', wp ok (f a) s' Q) → wp ok (p ≫= f) s Q.
Proof.
  revert s. induction p as [a|C step k IH|]; intros s; cbn; [done| |done].
  intros H o Ho. specialize (H o Ho). destruct (step o s); auto.
Qed.

Lemma wp_ret {A} (a : A) s (Q : A → S → Prop) : Q a s → wp ok (mret a) s Q.
Proof. done. Qed.

Lemma wp_run {A} (p : prog S O A) s Q os :
  (∀ n s, ok (os n) s) → wp ok p s Q → ∃ a s', run os p s = Done a s' ∧ Q a s'.
Proof.
  revert s os. induction p as [a|B step k IH|]; intros s os Hos; cbn; [by eauto| |done].
  intros H. specialize (H (os 0) (Hos 0 s)). destruct (step (os 0) s); [|done..].
  apply IH; [|done]. intros n. apply (Hos (Datatypes.S n)).
Qed.

(** A program that starts with one whose outcome is known. *)
Lemma wp_run_bind {A B} (p : prog S O A) (f : A → prog S O B) s Q os :
  (∀ n s, ok (os n) s) → wp ok p s Q →
  ∃ k a s', Q a s' ∧ run os (p ≫= f) s = run (λ n, os (k + n)) (f a) s'.
Proof.
  revert s os. induction p as [a|C step k IH|]; intros s os Hos; cbn; [by exists 0, a, s| |done].
  intros H. specialize (H (os 0) (Hos 0 s)). destruct (step (os 0) s) as [c s'| |]; [|done..].
  destruct (IH c s' (λ n, os (Datatypes.S n))) as (m & a & s'' & HQ & ->); [intros; apply Hos|done|].
  by exists (Datatypes.S m), a, s''.
Qed.

End wp.

Lemma wp_env {S O A} (ok ok' : O → S → Prop) (p : prog S O A) s Q :
  (∀ o s, ok' o s → ok o s) → wp ok p s Q → wp ok' p s Q.
Proof.
  intros Hok. revert s. induction p as [a|B step k IH|]; intros s; cbn; [done| |done].
  intros H o Ho. specialize (H o (Hok o s Ho)). destruct (step o s); auto.
Qed.

(** The environment stays within [ok] in the steps of a run. *)
Fixpoint within {S O A} (ok : O → S → Prop) (os : nat → O) (p : prog S O A) (s : S) : Prop :=
  match p with
  | Act B step k =>
      ok (os 0) s ∧
      match step (os 0) s with
      | Next b s => within ok (λ n, os (Datatypes.S n)) (k b) s
      | _ => True
      end
  | _ => True
  end.

Lemma wp_within {S O A} (ok : O → S → Prop) (p : prog S O A) s Q os :
  within ok os p s → wp ok p s Q → ∃ a s', run os p s = Done a s' ∧ Q a s'.
Proof.
  revert s os. induction p as [a|B step k IH|]; intros s os; cbn; [by eauto| |done].
  intros [Hok Hin] H. specialize (H (os 0) Hok). destruct (step (os 0) s); [|done..]. by apply IH.
Qed.

(** ** What a program may return

    Whatever the state is at each of its steps, so also whatever other programs do in
    between: the program does not panic and returns only values that satisfy [Q]. *)

Fixpoint yields {S O A} (ok : O → S → Prop) (p : prog S O A) (Q : A → Prop) : Prop :=
  match p with
  | Ret a => Q a
  | Act B step k =>
      ∀ o s, ok o s →
        match step o s with Next b _ => yields ok (k b) Q | Block => True | Panic => False end
  | Spin => True
  end.

Section yields.
Context {S O : Type} (ok : O → S → Prop).

Lemma yields_mono {A} (p : prog S O A) (Q Q' : A → Prop) :
  (∀ a, Q a → Q' a) → yields ok p Q → yields ok p Q'.
Proof.
  intros HQ. induction p as [a|B step k IH|]; cbn; [by auto| |done].
  intros H o s Ho. specialize (H o s Ho). destruct (step o s); auto.
Qed.

Lemma yields_bind {A B} (p : prog S O A) (f : A → prog S O B) Q :
  yields ok p (λ a, yields ok (f a) Q) → yields ok (p ≫= f) Q.
Proof.
  induction p as [a|C step k IH|]; cbn; [done| |done].
  intros H o s Ho. specialize (H o s Ho). destruct (step o s); auto.
Qed.

End yields.

(** ** What holds all along

    [P] in every state that the program passes through when it runs alone, also if it
    waits, panics or does not end; [Q] if it returns. *)

Fixpoint along {S O A} (ok : O → S → Prop) (P : S → Prop) (p : prog S O A) (s : S) (Q : A → S → Prop) : Prop :=
  match p with
  | Ret a => P s ∧ Q a s
  | Act B step k =>
      P s ∧ ∀ o, ok o s →
        match step o s with Next b s' => along ok P (k b) s' Q | _ => True end
  | Spin => P s
  end.

Section along.
Context {S O : Type} (ok : O → S → Prop) (P : S → Prop).

Lemma along_mono {A} (p : prog S O A) s (Q Q' : A → S → Prop) :
  (∀ a s', P s' → Q a s' → Q' a s') → along ok P p s Q → along ok P p s Q'.
Proof.
  intros HQ. revert s. induction p as [a|B step k IH|]; intros s; cbn; [by intros [? ?]; auto| |done].
  intros [HP H]. split; [done|]. intros o Ho. specialize (H o Ho). destruct (step o s); auto.
Qed.

Lemma along_bind {A B} (p : prog S O A) (f : A → prog S O B) s Q :
  along ok P p s (λ a s', along ok P (f a) s' Q) → along ok P (p ≫= f) s Q.
Proof.
  revert s. induction p as [a|C step k IH|]; intros s; cbn; [by intros [_ ?]| |done].
  intros [HP H]. split; [done|]. intros o Ho. specialize (H o Ho). destruct (step o s); auto.
Qed.

(** The state at the end of a run, however it ends. *)
Definition last_state {A} (r : run_result S A) : S :=
  match r with Done _ s | Blocked s | Panicked s | Unfinished s => s end.

Lemma along_run {A} (p : prog S O A) s Q os :
  (∀ n s, ok (os n) s) → along ok P p s Q →
  P (last_state (run os p s)) ∧
  match run os p s with Done a s' => Q a s' | _ => True end.
Proof.
  revert s os. induction p as [a|B step k IH|]; intros s os Hos; cbn; [done| |done].
  intros [HP H]. specialize (H (os 0) (Hos 0 s)). destruct (step (os 0) s); [|done..].
  apply IH; [|done]. intros n. apply (Hos (Datatypes.S n)).
Qed.

End along.

(** ** A program on a part of the state *)

Section zoom.
Context {S O S' O' : Type}.
Variables (get : S' → S) (set : S → S' → S') (proj : O' → O).

Fixpoint zoom {A} (p : prog S O A) : prog S' O' A :=
  match p with
  | Ret a => Ret a
  | Act B step k =>
      Act B (λ o s, match step (proj o) (get s) with
                    | Next b x => Next b (set x s)
                    | Block => Block
                    | Panic => Panic
                    end) (λ b, zoom (k b))
  | Spin => Spin
  end.

Hypothesis get_set : ∀ x s, get (set x s) = x.
Hypothesis set_set : ∀ x y s, set x (set y s) = set x s.
Hypothesis set_get : ∀ s, set (get s) s = s.

Lemma wp_zoom {A} (ok : O → S → Prop) (p : prog S O A) s (Q : A → S' → Prop) :
  wp ok p (get s) (λ a x, Q a (set x s)) →
  wp (λ o s, ok (proj o) (get s)) (zoom p) s Q.
Proof using get_set set_set set_get.
  revert s. induction p as [a|B step k IH|]; intros s; cbn; [by rewrite set_get| |done].
  intros H o Ho. specialize (H (proj o) Ho). destruct (step (proj o) (get s)) as [b x| |]; [|done..].
  apply IH. rewrite get_set. eapply wp_mono; [|exact H]. intros a y. by rewrite set_set.
Qed.

Lemma yields_zoom {A} (ok : O → S → Prop) (p : prog S O A) Q :
  yields ok p Q → yields (λ o s, ok (proj o) (get s)) (zoom p) Q.
Proof using.
  induction p as [a|B step k IH|]; cbn; [done| |done].
  intros H o s Ho. specialize (H _ _ Ho). destruct (step (proj o) (get s)); auto.
Qed.

End zoom.

(** What holds along a program on a part of the state. *)
Lemma along_zoom {S O S' O' A} (get : S' → S) (set : S → S' → S') (proj : O' → O)
    (ok : O' → S' → Prop) (P : S' → Prop) (P' : S → Prop) (p : prog S O A) s Q :
  (∀ x s, get (set x s) = x) → (∀ x y s, set x (set y s) = set x s) → (∀ s, set (get s) s = s) →
  (∀ x, P' x → P (set x s)) → along (λ _ _, True) P' p (get s) Q →
  along ok P (zoom get set proj p) s (λ a s', ∃ x, s' = set x s ∧ P' x ∧ Q a x).
Proof.
  intros Hgs Hss Hsg HP Hp.
  assert (∀ x, along (λ _ _, True) P' p x Q →
    along ok P (zoom get set proj p) (set x s) (λ a s', ∃ y, s' = set y s ∧ P' y ∧ Q a y)) as H;
    [|rewrite <- (Hsg s) at 1; by apply H].
  clear Hp. induction p as [a|B step k IH|]; intros x; cbn; [intros [? ?]; by eauto 6| |by apply HP].
  intros [HPx Hp]. split; [by apply HP|]. intros o _. specialize (Hp (proj o) I). rewrite Hgs.
  destruct (step (proj o) x) as [b y| |]; [|done..]. rewrite Hss. by apply IH.
Qed.

Lemma along_any {S O A} (ok : O → S → Prop) (p : prog S O A) s : along ok (λ _, True) p s (λ _ _, True).
Proof.
  revert s. induction p as [a|B step k IH|]; intros s; cbn; [done| |done].
  split; [done|]. intros o _. by destruct (step o s).
Qed.

(** [within] for an environment whose choices can be checked. *)
Fixpoint checked {S O A} (ok : O → S → Prop) `{!∀ o s, Decision (ok o s)} (os : nat → O)
    (p : prog S O A) (s : S) : bool :=
  match p with
  | Act B step k =>
      bool_decide (ok (os 0) s) &&
      match step (os 0) s with
      | Next b s => checked ok (λ n, os (Datatypes.S n)) (k b) s
      | _ => true
      end
  | _ => true
  end.

Lemma checked_within {S O A} (ok ok' : O → S → Prop) `{!∀ o s, Decision (ok o s)} os (p : prog S O A) s :
  (∀ o s, ok o s → ok' o s) → checked ok os p s = true → within ok' os p s.
Proof.
  intros Hok. revert os s. induction p as [a|B step k IH|]; intros os s; cbn; [done| |done].
  intros [Ho Hk]%andb_true_iff. apply bool_decide_eq_true in Ho. split; [by apply Hok|].
  destruct (step (os 0) s); [by apply IH|done|done].
Qed.

(** An environment that does the same at every step. *)
Lemma within_const {S O A} (ok : O → S → Prop) (P : S → Prop) o (p : prog S O A) s :
  (∀ s, P s → ok o s) → within (λ _, P) (λ _, o) p s → within ok (λ _, o) p s.
Proof.
  intros HP. revert s. induction p as [a|B step k IH|]; intros s; cbn; [done| |done].
  intros [Ho Hk]. split; [by apply HP|]. destruct (step o s); [by apply IH|done|done].
Qed.

(** ** Interleavings *)

(** One step of a program. *)
Definition advance {S O A} (o : O) (p : prog S O A) (s : S) : option (prog S O A * S) :=
  match p with
  | Act B step k => match step o s with Next b s => Some (k b, s) | _ => None end
  | _ => None
  end.

Definition panics {S O A} (o : O) (p : prog S O A) (s : S) : Prop :=
  match p with
  | Act B step k => match step o s with Panic => True | _ => False end
  | _ => False
  end.

(** A server: requests, the handler of each, what the environment may decide in a
    state, and what a crash with restart leaves of the state. *)
Record server (S O Req Reply : Type) : Type := mkServer {
  handler : Req → prog S O Reply;
  allowed : O → S → Prop;
  restart : O → S → S;
}.

Arguments handler {S O Req Reply} _ _.
Arguments allowed {S O Req Reply} _ _ _.
Arguments restart {S O Req Reply} _ _ _.

(** The shared state, the running handlers, and the replies given so far. *)
Record config (S O Req Reply : Type) : Type := mkConfig {
  c_state : S;
  c_threads : list (Req * prog S O Reply);
  c_replies : list (Req * Reply);
}.

Arguments mkConfig {S O Req Reply} _ _ _.
Arguments c_state {S O Req Reply} _.
Arguments c_threads {S O Req Reply} _.
Arguments c_replies {S O Req Reply} _.

Inductive cstep {S O Req Reply} (srv : server S O Req Reply) :
    config S O Req Reply → config S O Req Reply → Prop :=
| step_start req s ts rs :
    cstep srv (mkConfig s ts rs) (mkConfig s (ts ++ [(req, handler srv req)]) rs)
| step_act i req p p' o s s' ts rs :
    ts !! i = Some (req, p) → allowed srv o s → advance o p s = Some (p', s') →
    cstep srv (mkConfig s ts rs) (mkConfig s' (<[i := (req, p')]> ts) rs)
| step_reply i req r s ts rs :
    ts !! i = Some (req, Ret r) →
    cstep srv (mkConfig s ts rs) (mkConfig s (delete i ts) (rs ++ [(req, r)]))
| step_crash o s ts rs :
    cstep srv (mkConfig s ts rs) (mkConfig (restart srv o s) [] rs).

(** ** Executing an interleaving *)

Inductive move (O Req : Type) : Type :=
| Start (req : Req)
| Go (i : nat) (o : O)
| Answer (i : nat)
| Crash (o : O).

Arguments Start {O Req} req.
Arguments Go {O Req} i o.
Arguments Answer {O Req} i.
Arguments Crash {O Req} o.

Section play.
Context {S O Req Reply : Type} (srv : server S O Req Reply).
Context `{!∀ o s, Decision (allowed srv o s)}.

Definition play_move (m : move O Req) (c : config S O Req Reply) : option (config S O Req Reply) :=
  let '(mkConfig s ts rs) := c in
  match m with
  | Start req => Some (mkConfig s (ts ++ [(req, handler srv req)]) rs)
  | Go i o =>
      '(req, p) ← ts !! i;
      if bool_decide (allowed srv o s)
      then '(p, s) ← advance o p s; Some (mkConfig s (<[i := (req, p)]> ts) rs)
      else None
  | Answer i =>
      '(req, p) ← ts !! i;
      match p with
      | Ret r => Some (mkConfig s (delete i ts) (rs ++ [(req, r)]))
      | _ => None
      end
  | Crash o => Some (mkConfig (restart srv o s) [] rs)
  end.

Fixpoint play (ms : list (move O Req)) (c : config S O Req Reply) : option (config S O Req Reply) :=
  match ms with
  | [] => Some c
  | m :: ms => c ← play_move m c; play ms c
  end.

Lemma play_move_step m c c' : play_move m c = Some c' → cstep srv c c'.
Proof.
  destruct c as [s ts rs], m as [req|i o|i|o]; cbn; intros Hm.
  - injection Hm as <-. constructor.
  - apply bind_Some in Hm as ([req p] & Hi & Hm). case_bool_decide; [|done].
    apply bind_Some in Hm as ([p' s'] & Ha & Hm). injection Hm as <-. by eapply step_act.
  - apply bind_Some in Hm as ([req p] & Hi & Hm). destruct p as [r| |]; [|done..].
    injection Hm as <-. by eapply step_reply.
  - injection Hm as <-. constructor.
Qed.

Lemma play_reach ms c c' : play ms c = Some c' → rtc (cstep srv) c c'.
Proof.
  revert c. induction ms as [|m ms IH]; intros c; cbn; [by intros [= ->]|].
  intros (c1 & Hm%play_move_step & Hp)%bind_Some. eapply rtc_l; [exact Hm|by apply IH].
Qed.

End play.

(** ** Rely-guarantee

    [I] is the invariant of the shared state and [G] what every step guarantees
    (and so what every program may rely on). *)

Section logic.
Context {S O : Type}.
Variable I : S → Prop.
Variable G : S → S → Prop.
Variable ok : O → S → Prop.

(** What a program knows must survive the steps of the others. *)
Definition stable (P : S → Prop) : Prop := ∀ s s', I s → I s' → G s s' → P s → P s'.

(** A step keeps the invariant and the guarantee and establishes [R]; it does not
    panic. *)
Definition step_spec {B} (P : S → Prop) (step : O → S → outcome S B) (R : B → S → Prop) : Prop :=
  ∀ o s, ok o s → I s → P s →
    match step o s with
    | Next b s' => I s' ∧ G s s' ∧ R b s'
    | Block => True
    | Panic => False
    end.

(** From a state where [P] holds, the program, interleaved with others, keeps [I]
    and [G] at each of its steps, never panics, and returns only values for which
    [Q] holds. *)
Fixpoint spec {A} (P : S → Prop) (p : prog S O A) (Q : A → S → Prop) : Prop :=
  match p with
  | Ret a => ∀ s, I s → P s → Q a s
  | Act B step k =>
      ∃ R : B → S → Prop,
        (∀ b, stable (R b)) ∧ step_spec P step R ∧ ∀ b, spec (R b) (k b) Q
  | Spin => True
  end.

Lemma spec_weaken {A} (p : prog S O A) (P P' : S → Prop) (Q Q' : A → S → Prop) :
  (∀ s, I s → P' s → P s) → (∀ a s, I s → Q a s → Q' a s) → spec P p Q → spec P' p Q'.
Proof.
  revert P P'. induction p as [a|B step k IH|]; intros P P' HP HQ; cbn; [by eauto| |done].
  intros (R & Hst & Hstep & Hk). exists R. split; [done|]. split; [|eauto].
  intros o s Ho HI HP'. specialize (Hstep o s Ho HI (HP s HI HP')). done.
Qed.

Lemma spec_pre {A} (p : prog S O A) (P P' : S → Prop) (Q : A → S → Prop) :
  (∀ s, I s → P' s → P s) → spec P p Q → spec P' p Q.
Proof. intros HP. by apply spec_weaken. Qed.

Lemma spec_post {A} (p : prog S O A) (P : S → Prop) (Q Q' : A → S → Prop) :
  (∀ a s, I s → Q a s → Q' a s) → spec P p Q → spec P p Q'.
Proof. intros HQ. by apply spec_weaken. Qed.

Lemma spec_ret {A} (a : A) (P : S → Prop) (Q : A → S → Prop) :
  (∀ s, I s → P s → Q a s) → spec P (mret a) Q.
Proof. done. Qed.

Lemma spec_bind {A B} (p : prog S O A) (f : A → prog S O B) P Q Q' :
  spec P p Q → (∀ a, spec (Q a) (f a) Q') → spec P (p ≫= f) Q'.
Proof.
  intros Hp Hf. revert P Hp. induction p as [a|C step k IH|]; intros P; cbn.
  - intros HQ. apply (spec_weaken _ (Q a) P Q' Q'); auto.
  - intros (R & Hst & Hstep & Hk). exists R. split; [done|]. split; [done|].
    intros b. by apply IH.
  - done.
Qed.

Lemma spec_act {B} (step : O → S → outcome S B) (P : S → Prop) (R : B → S → Prop) :
  (∀ b, stable (R b)) → step_spec P step R → spec P (act step) R.
Proof. intros Hst Hstep. exists R. split; [done|]. split; [done|]. cbn. eauto. Qed.

(** Knowledge the step does not disturb, because nobody does, is kept. *)
Lemma step_spec_frame {B} (P F : S → Prop) (step : O → S → outcome S B) (R : B → S → Prop) :
  stable F → step_spec P step R →
  step_spec (λ s, P s ∧ F s) step (λ b s, R b s ∧ F s).
Proof.
  intros HF Hstep o s Ho HI [HP HFs]. specialize (Hstep o s Ho HI HP).
  destruct (step o s); [|done|done]. destruct Hstep as (? & ? & ?). eauto 6.
Qed.

Lemma stable_and P Q : stable P → stable Q → stable (λ s, P s ∧ Q s).
Proof. intros HP HQ s s' ??? [??]. eauto. Qed.

Lemma stable_pure (φ : Prop) : stable (λ _, φ).
Proof. by intros s s'. Qed.

Lemma stable_impl (φ : Prop) P : stable P → stable (λ s, φ → P s).
Proof. intros HP s s' ??? H ?. eauto. Qed.

Lemma stable_exists {X} (P : X → S → Prop) : (∀ x, stable (P x)) → stable (λ s, ∃ x, P x s).
Proof. intros HP s s' HI HI' HG [x Hx]. exists x. exact (HP x s s' HI HI' HG Hx). Qed.

Lemma stable_forall {X} (P : X → S → Prop) : (∀ x, stable (P x)) → stable (λ s, ∀ x, P x s).
Proof. intros HP s s' HI HI' HG H x. exact (HP x s s' HI HI' HG (H x)). Qed.

Lemma spec_frame {A} (p : prog S O A) (P F : S → Prop) (Q : A → S → Prop) :
  stable F → spec P p Q → spec (λ s, P s ∧ F s) p (λ a s, Q a s ∧ F s).
Proof.
  intros HF. revert P. induction p as [a|B step k IH|]; intros P; cbn; [|intros (R & Hst & Hstep & Hk)|done].
  - intros HQ s HI [??]. eauto.
  - exists (λ b s, R b s ∧ F s). split; [by intros; apply stable_and|].
    split; [by apply step_spec_frame|]. eauto.
Qed.

(** A fact about values, known before the program starts. *)
Lemma spec_pure {A} (φ : Prop) `{!Decision φ} (p : prog S O A) (P : S → Prop) (Q : A → S → Prop) :
  (φ → spec P p Q) → spec (λ s, φ ∧ P s) p Q.
Proof.
  intros Hp. destruct (decide φ) as [Hφ|Hn].
  - eapply spec_weaken; [| |by apply Hp]; [by intros s _ [_ ?]|done].
  - eapply spec_weaken with (P := λ _, False); [by intros s _ [? _]|done|]. clear.
    induction p as [a|B step k IHp|]; cbn; [done| |done].
    exists (λ _ _, False). split; [intros; apply stable_pure|]. split; [by intros o s _ _ []|auto].
Qed.

(** A program run alone keeps the invariant, the guarantee and its
    postcondition. *)
Lemma run_spec {A} (p : prog S O A) P Q os s :
  (∀ s, G s s) → (∀ s1 s2 s3, G s1 s2 → G s2 s3 → G s1 s3) →
  spec P p Q → (∀ n s, ok (os n) s) → I s → P s →
  match run os p s with
  | Done a s' => I s' ∧ G s s' ∧ Q a s'
  | Panicked _ => False
  | _ => True
  end.
Proof.
  intros Hrefl Htrans. revert P os s.
  induction p as [a|B step k IH|]; intros P os s; cbn [spec run]; [by eauto 6| |done].
  intros (R & Hst & Hstep & Hk) Hos HI HP.
  specialize (Hstep (os 0) s (Hos 0 s) HI HP). destruct (step (os 0) s) as [b s1| |]; [|done|done].
  destruct Hstep as (HI1 & HG1 & HR).
  specialize (IH b (R b) (λ n, os (Datatypes.S n)) s1 (Hk b) (λ n, Hos (Datatypes.S n)) HI1 HR).
  destruct (run _ (k b) s1); [|done..]. destruct IH as (? & ? & ?). eauto.
Qed.

End logic.

#[export] Hint Resolve stable_and stable_pure stable_impl stable_exists : stable.

(** ** Adequacy *)

Section adequacy.
Context {S O Req Reply : Type} (srv : server S O Req Reply).
Variable I : S → Prop.
Variable G : S → S → Prop.
Variable H : S → S → Prop.       (* what also survives a crash *)
Variable post : Req → Reply → S → Prop.
Hypothesis G_H : ∀ s s', G s s' → H s s'.
Hypothesis H_refl : ∀ s, H s s.
Hypothesis H_trans : ∀ s1 s2 s3, H s1 s2 → H s2 s3 → H s1 s3.
Hypothesis post_stable : ∀ req r, stable I H (post req r).
Hypothesis handlers_ok : ∀ req, spec I G (allowed srv) (λ _, True) (handler srv req) (post req).
Hypothesis restart_ok : ∀ o s, I s → I (restart srv o s) ∧ H s (restart srv o s).

(** A running handler knows something stable from which the rest of it works. *)
Definition thread_ok (s : S) (t : Req * prog S O Reply) : Prop :=
  ∃ P, stable I G P ∧ P s ∧ spec I G (allowed srv) P t.2 (post t.1).

Record config_ok (c : config S O Req Reply) : Prop := {
  ok_state : I (c_state c);
  ok_threads : Forall (thread_ok (c_state c)) (c_threads c);
  ok_replies : Forall (λ p, post p.1 p.2 (c_state c)) (c_replies c);
}.

Lemma threads_stable s s' ts :
  I s → I s' → G s s' → Forall (thread_ok s) ts → Forall (thread_ok s') ts.
Proof.
  intros HI HI' HG Hts. eapply Forall_impl; [exact Hts|]. intros t (P & HP & HPs & Hspec).
  exists P. split; [done|]. split; [exact (HP s s' HI HI' HG HPs)|done].
Qed.

Lemma replies_stable s s' (rs : list (Req * Reply)) :
  I s → I s' → H s s' → Forall (λ p, post p.1 p.2 s) rs → Forall (λ p, post p.1 p.2 s') rs.
Proof.
  intros HI HI' HH Hrs. eapply Forall_impl; [exact Hrs|]. intros p Hp.
  exact (post_stable p.1 p.2 s s' HI HI' HH Hp).
Qed.

Lemma cstep_ok c c' : config_ok c → cstep srv c c' → config_ok c' ∧ H (c_state c) (c_state c').
Proof.
  intros [HI Hts Hrs] Hstep.
  destruct Hstep as [req s ts rs|i req p p' o s s' ts rs Hi Ho Hadv|i req r s ts rs Hi|o s ts rs];
    cbn in *.
  - split; [|done]. split; cbn; [done| |done]. apply Forall_app. split; [done|].
    apply Forall_singleton. exists (λ _, True). split; [apply stable_pure|]. split; [done|apply handlers_ok].
  - pose proof Hts as Ht. rewrite Forall_lookup in Ht.
    destruct (Ht _ _ Hi) as (P & HP & HPs & Hspec). cbn in Hspec.
    destruct p as [|B step k|]; cbn in Hadv; [done| |done].
    destruct Hspec as (R & HR & Hst & Hk). specialize (Hst o s Ho HI HPs).
    destruct (step o s) as [b s1| |]; [|done..]. simplify_eq.
    destruct Hst as (HI' & HG & HRb). split; [|by apply G_H].
    split; cbn; [done| |by apply (replies_stable s); auto].
    apply Forall_insert; [by apply (threads_stable s)|].
    exists (R b). split; [done|]. split; [done|]. apply Hk.
  - split; [|done]. split; cbn; [done|by apply Forall_delete|].
    apply Forall_app. split; [done|]. apply Forall_singleton. cbn.
    rewrite Forall_lookup in Hts. destruct (Hts _ _ Hi) as (P & HP & HPs & Hspec).
    cbn in Hspec. eauto.
  - destruct (restart_ok o s HI) as [HI' HH]. split; [|done].
    split; cbn; [done|constructor|by apply (replies_stable s)].
Qed.

Lemma csteps_ok c c' :
  config_ok c → rtc (cstep srv) c c' → config_ok c' ∧ H (c_state c) (c_state c').
Proof.
  intros Hc Hsteps. induction Hsteps as [c|c1 c2 c3 H1 H2 IH]; [done|].
  destruct (cstep_ok _ _ Hc H1) as [Hc2 HG]. destruct (IH Hc2). eauto.
Qed.

(** Every reachable configuration satisfies the invariant; every reply given meets
    its postcondition; no handler can panic. *)
Lemma adequacy s c :
  I s → rtc (cstep srv) (mkConfig s [] []) c →
  I (c_state c) ∧ H s (c_state c) ∧
  (∀ req r, (req, r) ∈ c_replies c → post req r (c_state c)) ∧
  (∀ req p o, (req, p) ∈ c_threads c → allowed srv o (c_state c) → ¬ panics o p (c_state c)).
Proof.
  intros HI Hsteps. destruct (csteps_ok (mkConfig s [] []) c) as [[HI' Hts Hrs] HH]; [|done|].
  { by split; cbn. }
  split; [done|]. split; [done|]. split.
  - intros req r Hin. rewrite Forall_forall in Hrs. by apply (Hrs (req, r)).
  - intros req p o Hin Ho Hp. rewrite Forall_forall in Hts.
    destruct (Hts _ Hin) as (P & _ & HPs & Hspec). destruct p as [|B step k|]; cbn in *; [done| |done].
    destruct Hspec as (R & _ & Hst & _). specialize (Hst o (c_state c) Ho HI' HPs).
    by destruct (step o (c_state c)).
Qed.

End adequacy.
