(* ===== verification/Json.v ===== *)
(** * The JSON form of a job record

    [json.Marshal] and [json.Unmarshal] on the structs the store persists, at
    the level of JSON values: which members the struct tags of
    src/orchestrator/job_store.go produce (names, order, [omitempty]) and how
    they are read back (absent members keep the zero value, [null] is ignored,
    unknown members are skipped, the last of two equal names wins).

    The lexical forms of a [[]byte] (base64) and of a [time.Time] (RFC 3339)
    are leaves of their own that keep the value they denote. *)

From stdpp Require Import base gmap strings list numbers.
From S2P Require Import Prelude Types.

Unset Elimination Schemes.

Inductive json : Type :=
| JNull
| JBool (b : bool)
| JNum (z : Z)                      (* an integer literal that fits an int64 *)
| JStr (s : string)
| JBytes (b : bytes)                (* a string literal holding base64 *)
| JTime (t : Z)                     (* a string literal holding RFC 3339 *)
| JArr (l : list json)
| JObj (members : list (string * json))
| JOther.                           (* any other literal, e.g. a float *)

Set Elimination Schemes.

(** ** Encoding *)

(** The value of a struct field tagged [omitempty]: [None] when it is dropped. *)
Definition omitStr (s : string) : option json :=
  if String.eqb s "" then None else Some (JStr s).

Definition omitBytes (b : bytes) : option json :=
  match b with [] => None | _ => Some (JBytes b) end.

Definition omitNum (z : Z) : option json :=
  if (z =? 0)%Z then None else Some (JNum z).

(** The members of an object, from its fields in the order of the struct. *)
Definition members (fs : list (string * option json)) : list (string * json) :=
  omap (λ f, (λ v, (f.1, v)) <$> f.2) fs.

(** [Time.MarshalJSON] fails for a year outside [0,9999]. *)
Definition time_marshals (t : Z) : bool :=
  ((- 366 * 86400 * second <=? t) && (t <? 3652059 * 86400 * second))%Z.

Definition JobRecord_fields (r : JobRecord) : list (string * option json) :=
  [ ("id", Some (JStr (ID r)));
    ("status", Some (JStr (Status r)));
    ("worker_id", omitStr (WorkerID r));
    ("function_name", Some (JStr (FunctionName r)));
    ("function_bytes", omitBytes (FunctionBytes r));
    ("args_bytes", omitBytes (ArgsBytes r));
    ("result_bytes", omitBytes (ResultBytes r));
    ("cold_start_ms", omitNum (ColdStartMs r));
    ("execution_ms", omitNum (ExecutionMs r));
    ("idempotency_key", omitStr (IdempotencyKey r));
    ("created_at", Some (JTime (CreatedAt r)));
    ("updated_at", Some (JTime (UpdatedAt r)));
    ("retry_count", Some (JNum (RetryCount r)));
    ("error", omitStr (JobError r));
    ("version", omitNum (Version r)) ].

Definition errTimeMarshal : error :=
  errorString "Time.MarshalJSON: year outside of range [0,9999]".

Definition Marshal (r : JobRecord) : result error json :=
  if time_marshals (CreatedAt r) && time_marshals (UpdatedAt r)
  then Ok (JObj (members (JobRecord_fields r)))
  else Err errTimeMarshal.

(** ** Decoding *)

(** The last member named [k]. *)
Fixpoint jget (k : string) (ms : list (string * json)) : option json :=
  match ms with
  | [] => None
  | (k', v) :: ms =>
      match jget k ms with
      | Some v' => Some v'
      | None => if String.eqb k k' then Some v else None
      end
  end.

(** A struct field of type string, []byte, int, time.Time: an absent member
    and [null] leave the zero value; another literal is a type error. *)
Definition dStr (o : option json) : option string :=
  match o with
  | None | Some JNull => Some ""
  | Some (JStr s) => Some s
  | _ => None
  end.

Definition dBytes (o : option json) : option bytes :=
  match o with
  | None | Some JNull => Some []
  | Some (JBytes b) => Some b
  | _ => None
  end.

Definition dNum (o : option json) : option Z :=
  match o with
  | None | Some JNull => Some 0%Z
  | Some (JNum z) => Some z
  | _ => None
  end.

Definition dTime (o : option json) : option Z :=
  match o with
  | None | Some JNull => Some zeroTime
  | Some (JTime t) => Some t
  | _ => None
  end.

Definition errUnmarshal : error := errorString "json: cannot unmarshal value into Go struct".

Definition JobRecord_decode (ms : list (string * json)) : option JobRecord :=
  id ← dStr (jget "id" ms);
  st ← dStr (jget "status" ms);
  wid ← dStr (jget "worker_id" ms);
  fn ← dStr (jget "function_name" ms);
  fb ← dBytes (jget "function_bytes" ms);
  ab ← dBytes (jget "args_bytes" ms);
  rb ← dBytes (jget "result_bytes" ms);
  cs ← dNum (jget "cold_start_ms" ms);
  ex ← dNum (jget "execution_ms" ms);
  ik ← dStr (jget "idempotency_key" ms);
  ca ← dTime (jget "created_at" ms);
  ua ← dTime (jget "updated_at" ms);
  rc ← dNum (jget "retry_count" ms);
  er ← dStr (jget "error" ms);
  ve ← dNum (jget "version" ms);
  Some (mkJob id st wid fn fb ab rb cs ex ik ca ua rc er ve).

Definition Unmarshal (j : json) : result error JobRecord :=
  match j with
  | JNull => Ok zeroJob
  | JObj ms => match JobRecord_decode ms with Some r => Ok r | None => Err errUnmarshal end
  | _ => Err errUnmarshal
  end.

(** ** The round trip *)

(** [jget] on the list of fields, before the dropped ones are removed. *)
Fixpoint fget (k : string) (fs : list (string * option json)) : option json :=
  match fs with
  | [] => None
  | (k', o) :: fs =>
      if String.eqb k k'
      then match fget k fs with Some v => Some v | None => o end
      else fget k fs
  end.

Lemma jget_members k fs : jget k (members fs) = fget k fs.
Proof.
  induction fs as [|[k' [v|]] fs IH]; cbn; [done|..]; fold (members fs); rewrite IH;
    destruct (fget k fs), (String.eqb k k'); done.
Qed.

Lemma dStr_omitStr s : dStr (omitStr s) = Some s.
Proof. unfold omitStr. by destruct (String.eqb_spec s "") as [->|]. Qed.

Lemma dBytes_omitBytes b : dBytes (omitBytes b) = Some b.
Proof. by destruct b. Qed.

Lemma dNum_omitNum z : dNum (omitNum z) = Some z.
Proof. unfold omitNum. by destruct (Z.eqb_spec z 0) as [->|]. Qed.

Create Rewrite HintDb jfields.
#[export] Hint Rewrite jget_members dStr_omitStr dBytes_omitBytes dNum_omitNum : jfields.

Lemma JobRecord_decode_members r : JobRecord_decode (members (JobRecord_fields r)) = Some r.
Proof.
  unfold JobRecord_decode. rewrite !jget_members. cbn [fget JobRecord_fields String.eqb
    Ascii.eqb Bool.eqb].
  rewrite !dStr_omitStr, !dBytes_omitBytes, !dNum_omitNum. by destruct r.
Qed.

Lemma Marshal_Unmarshal r j : Marshal r = Ok j → Unmarshal j = Ok r.
Proof.
  unfold Marshal. intros E.
  assert (j = JObj (members (JobRecord_fields r))) as -> by (destruct (_ && _); congruence).
  unfold Unmarshal. by rewrite JobRecord_decode_members.
Qed.

