(* ===== verification/Bolt.v ===== *)
(** * The BoltDB interface the store is written against

    go.etcd.io/bbolt is a third-party package: [BoltAPI] names the operations
    on a bucket that src/orchestrator/job_store.go calls, [BoltLaws] the
    documented behaviour the proofs rely on, and [Faults] what the environment
    decides for one transaction.  [gmap_bolt] is an instance that satisfies the
    laws; the concrete examples run on it. *)

From stdpp Require Import base gmap strings list numbers sorting.
From S2P Require Import Prelude Types.

Class BoltAPI : Type := {
  bucket : Type → Type;
  newBucket : ∀ {V}, bucket V;                        (* CreateBucket *)
  bGet : ∀ {V}, bucket V → string → option V;         (* Bucket.Get *)
  bPut : ∀ {V}, bucket V → string → V → result error (bucket V);   (* Bucket.Put *)
  bForEach : ∀ {V}, bucket V → list (string * V);     (* the pairs ForEach visits *)
  bFits : ∀ {V}, string → V → bool;                   (* within the key and value limits *)
}.

Class BoltLaws (B : BoltAPI) : Prop := {
  get_new V k : bGet (newBucket (V := V)) k = None;
  get_put V (b b' : bucket V) k v k' :
    bPut b k v = Ok b' → bGet b' k' = if decide (k = k') then Some v else bGet b k';
  put_fits V (b : bucket V) k v : is_Ok (bPut b k v) = bFits k v;
  fits_key V k (v : V) : bFits k v = true → k ≠ "";
  foreach_get V (b : bucket V) k v : (k, v) ∈ bForEach b ↔ bGet b k = Some v;
  foreach_NoDup V (b : bucket V) : NoDup (bForEach b).*1;
  foreach_sorted V (b : bucket V) : StronglySorted String.le (bForEach b).*1;
}.

(** What happens to one transaction outside the code: it may fail to begin
    (closed database) and, when it is a read-write one, fail to commit. *)
Record Faults : Type := mkFaults {
  begin_err : option error;
  commit_err : option error;
}.

Definition no_faults : Faults := mkFaults None None.

(** ** An instance *)

Definition entry_le {V} (p q : string * V) : Prop := String.le p.1 q.1.

#[export] Instance entry_le_dec {V} (p q : string * V) : Decision (entry_le p q).
Proof. unfold entry_le. apply _. Defined.

#[export] Instance entry_le_trans {V} : Transitive (@entry_le V).
Proof. intros p q r. unfold entry_le. apply transitivity. Qed.

#[export] Instance entry_le_total {V} : Total (@entry_le V).
Proof. intros p q. unfold entry_le. apply (total String.le). Qed.

Definition gmap_fits {V : Type} (k : string) (_ : V) : bool :=
  negb (String.eqb k "") && (Z.of_nat (String.length k) <=? 32768)%Z.

#[export] Instance gmap_bolt : BoltAPI := {
  bucket := gmap string;
  newBucket V := ∅;
  bGet V b k := b !! k;
  bPut V b k v :=
    if gmap_fits k v then Ok (<[k := v]> b) else Err (errorString "key required or too large");
  bForEach V b := merge_sort entry_le (map_to_list b);
  bFits V k v := gmap_fits k v;
}.

Lemma fmap_StronglySorted {V} (l : list (string * V)) :
  StronglySorted entry_le l → StronglySorted String.le l.*1.
Proof.
  induction 1 as [|p l Hs IH Hall]; [constructor|]. cbn. constructor; [done|].
  apply Forall_fmap. eapply Forall_impl; [done|]. done.
Qed.

#[export] Instance gmap_bolt_laws : BoltLaws gmap_bolt.
Proof.
  split; cbn.
  - intros. apply lookup_empty.
  - intros V b b' k v k'. destruct (gmap_fits k v); [|done]. intros [= <-].
    apply lookup_insert.
  - intros. by destruct (gmap_fits k v).
  - unfold gmap_fits. intros V k v Hk ->. done.
  - intros V b k v. rewrite merge_sort_Permutation. apply elem_of_map_to_list.
  - intros V b. rewrite merge_sort_Permutation. apply NoDup_fst_map_to_list.
  - intros V b. apply fmap_StronglySorted, (StronglySorted_merge_sort entry_le).
Qed.

(** ** Derived laws *)

Section laws.
Context {B : BoltAPI} {BL : BoltLaws B}.

Lemma put_cases {V} (b : bucket V) k v :
  (∃ b', bPut b k v = Ok b' ∧ bFits k v = true) ∨
  (∃ e, bPut b k v = Err e ∧ bFits k v = false).
Proof.
  pose proof (put_fits V b k v) as H. destruct (bPut b k v) as [b'|e]; cbn in H; eauto.
Qed.

(** A bucket's enumeration is determined by its contents. *)
Lemma foreach_ext {V} (b1 b2 : bucket V) :
  (∀ k, bGet b1 k = bGet b2 k) → bForEach b1 = bForEach b2.
Proof.
  intros Heq.
  assert (bForEach b1 ≡ₚ bForEach b2) as Hp.
  { apply NoDup_Permutation; [eapply NoDup_fmap_1, foreach_NoDup..|].
    intros [k v]. by rewrite !foreach_get, Heq. }
  assert ((bForEach b1).*1 = (bForEach b2).*1) as Hk.
  { eapply (StronglySorted_unique String.le); [apply foreach_sorted..|by rewrite Hp]. }
  assert (∀ l1 l2 : list (string * V), l1.*1 = l2.*1 → NoDup l1.*1 → l1 ≡ₚ l2 → l1 = l2) as Hall.
  { clear. intros l1. induction l1 as [|[k v] l1 IH]; intros [|[k2 v2] l2]; try done.
    cbn. intros [= <- E] Hnd Hp. apply NoDup_cons in Hnd as [Hni Hnd].
    assert ((k, v) ∈ (k, v2) :: l2) as Hin by (rewrite <- Hp; by left).
    apply elem_of_cons in Hin as [[= <-]|Hin].
    - f_equal. apply IH; [done|done|]. eapply (inj (_ ::.)), Hp.
    - destruct Hni. rewrite E. by apply (list_elem_of_fmap_2 fst) in Hin. }
  apply Hall; [done|apply foreach_NoDup|done].
Qed.

End laws.
