(* ===== verification/StoreSpec.v ===== *)
(** * What a job store promises

    The [Store] interface of src/orchestrator/job_store.go as a record of
    operations ([StoreAPI]) and, against an abstract state of two finite maps
    ([astore]), the contract of each operation as an inductive specification
    ([StoreOk]).  The scheduler and the server are verified against this
    contract; BoltStore (JobStore.v) discharges it. *)

From stdpp Require Import strings gmap prelude.
From S2P Require Import Prelude Types.

(** ** Mutators

    [mutate func( *JobRecord) error] with the variables its closure captures:
    [mutate c r] runs it on [r] when the captured variables hold [c].  The
    record is only used when no error is returned. *)

Abbreviation mutator C := (C → JobRecord → C * result error JobRecord).

(** The mutator leaves the identity of the record alone. *)
Definition keeps_ID {C} (mutate : mutator C) : Prop :=
  ∀ c r c' r', mutate c r = (c', Ok r') → ID r' = ID r.

(** ** The abstract state *)

Record astore : Type := mkA {
  a_jobs : gmap string JobRecord;
  a_idem : gmap string string;
}.

Definition a_empty : astore := mkA ∅ ∅.

Definition a_put (id : string) (r : JobRecord) (a : astore) : astore :=
  mkA (<[id := r]> (a_jobs a)) (a_idem a).

Definition a_index (key id : string) (a : astore) : astore :=
  if String.eqb key "" then a else mkA (a_jobs a) (<[key := id]> (a_idem a)).

(** Every job is filed under its own ID and every idempotency key is not empty and
    names a filed job. *)
Definition a_wf (a : astore) : Prop :=
  (∀ id r, a_jobs a !! id = Some r → ID r = id) ∧
  (∀ key id, a_idem a !! key = Some id → key ≠ "" ∧ is_Some (a_jobs a !! id)).

(** ** The operations *)

Class StoreAPI : Type := {
  store : Type;
  senv : Type;    (* what the environment decides for one call: clock, faults *)
  PutJob : senv → JobRecord → store → option error * store;
  GetJob : senv → string → store → result error (option JobRecord);
  Transition : ∀ {C}, senv → string → mutator C → C → store →
    (bool * option error) * C * store;
  SubmitWithIdempotency : senv → JobRecord → string → store →
    (string * bool * option error) * store;
  ListUnfinished : senv → store → list JobRecord * option error;
  ListRunningOnWorker : senv → string → store → list JobRecord * option error;
  Ping : senv → store → option error;
}.

(** ** The contract

    [faulty] holds of the calls the environment makes fail; [ambiguous] of those
    among them whose write may have happened all the same; [unwritable r] of the
    calls where the record [r] cannot be encoded or stored; [written r r'] says
    that storing [r] may leave [r'] (the stamped record) in the store. *)

Record Contract (store senv : Type) : Type := mkContract {
  view : store → astore;
  good : store → Prop;
  faulty : senv → Prop;
  ambiguous : senv → Prop;
  unwritable : senv → string → JobRecord → Prop;
  written : senv → JobRecord → JobRecord → Prop;
}.

Arguments view {_ _} _ _.
Arguments good {_ _} _ _.
Arguments faulty {_ _} _ _.
Arguments ambiguous {_ _} _ _.
Arguments unwritable {_ _} _ _ _ _.
Arguments written {_ _} _ _ _ _.

Section specs.
Context {store senv : Type} (K : Contract store senv).

Inductive get_spec (o : senv) (id : string) (s : store) :
    result error (option JobRecord) → Prop :=
| get_ok : get_spec o id s (Ok (a_jobs (view K s) !! id))
| get_fault e : faulty K o → get_spec o id s (Err e).

Inductive transition_spec {C} (o : senv) (id : string) (mutate : mutator C) (c : C)
    (s : store) : (bool * option error) * C * store → Prop :=
| transition_ok r c' r' r'' s' :
    a_jobs (view K s) !! id = Some r →
    mutate c r = (c', Ok r') →
    written K o r' r'' →
    good K s' →
    view K s' = a_put id r'' (view K s) →
    transition_spec o id mutate c s ((true, None), c', s')
| transition_skip r c' :
    a_jobs (view K s) !! id = Some r →
    mutate c r = (c', Err ErrSkipTransition) →
    transition_spec o id mutate c s ((false, None), c', s)
| transition_mutator r c' e :
    a_jobs (view K s) !! id = Some r →
    mutate c r = (c', Err e) →
    e ≠ ErrSkipTransition →
    transition_spec o id mutate c s ((false, Some e), c', s)
| transition_missing e :
    a_jobs (view K s) !! id = None →
    transition_spec o id mutate c s ((false, Some e), c, s)
| transition_fault b c' e :
    faulty K o ∨ (∃ r r', a_jobs (view K s) !! id = Some r ∧
                  mutate c r = (c', Ok r') ∧ unwritable K o id r') →
    transition_spec o id mutate c s ((b, Some e), c', s)
| transition_ambiguous b r c' r' r'' e s' :
    faulty K o → ambiguous K o →
    a_jobs (view K s) !! id = Some r →
    mutate c r = (c', Ok r') →
    written K o r' r'' →
    good K s' →
    view K s' = a_put id r'' (view K s) →
    transition_spec o id mutate c s ((b, Some e), c', s').

Inductive submit_spec (o : senv) (rec : JobRecord) (key : string) (s : store) :
    (string * bool * option error) * store → Prop :=
| submit_existing id :
    key ≠ "" →
    a_idem (view K s) !! key = Some id →
    submit_spec o rec key s ((id, false, None), s)
| submit_created r s' :
    (key = "" ∨ a_idem (view K s) !! key = None) →
    written K o (set_IdempotencyKey key rec) r →
    good K s' →
    view K s' = a_index key (ID rec) (a_put (ID rec) r (view K s)) →
    submit_spec o rec key s ((ID rec, true, None), s')
| submit_fault id b e :
    faulty K o ∨ unwritable K o (ID rec) (set_IdempotencyKey key rec) →
    submit_spec o rec key s ((id, b, Some e), s)
| submit_ambiguous id b e r s' :
    faulty K o → ambiguous K o →
    (key = "" ∨ a_idem (view K s) !! key = None) →
    written K o (set_IdempotencyKey key rec) r →
    good K s' →
    view K s' = a_index key (ID rec) (a_put (ID rec) r (view K s)) →
    submit_spec o rec key s ((id, b, Some e), s').

Inductive put_spec (o : senv) (rec : JobRecord) (s : store) : option error * store → Prop :=
| put_ok r s' :
    written K o rec r → good K s' → view K s' = a_put (ID rec) r (view K s) →
    put_spec o rec s (None, s')
| put_fault e :
    faulty K o ∨ unwritable K o (ID rec) rec → put_spec o rec s (Some e, s)
| put_ambiguous r e s' :
    faulty K o → ambiguous K o → written K o rec r → good K s' →
    view K s' = a_put (ID rec) r (view K s) →
    put_spec o rec s (Some e, s').

(** A listing returns exactly the jobs that satisfy [keep], each once. *)
Inductive list_spec (o : senv) (keep : JobRecord → bool) (s : store) :
    list JobRecord * option error → Prop :=
| list_ok out :
    (∀ r, r ∈ out ↔ keep r = true ∧ a_jobs (view K s) !! ID r = Some r) →
    NoDup (ID <$> out) →
    list_spec o keep s (out, None)
| list_fault out e : faulty K o → list_spec o keep s (out, Some e).

End specs.

Definition unfinished (r : JobRecord) : bool :=
  String.eqb (Status r) StatusPending || String.eqb (Status r) StatusRunning.

Definition running_on (workerID : string) (r : JobRecord) : bool :=
  String.eqb (Status r) StatusRunning && String.eqb (WorkerID r) workerID.

(** The contract of a store, over well-formed states. *)
Class StoreOk (A : StoreAPI) : Type := {
  contract : Contract store senv;
  good_wf s : good contract s → a_wf (view contract s);
  written_stamp o r r' :
    written contract o r r' → ∃ now v, r' = set_Version v (stamp now r);
  GetJob_ok o id s : good contract s → get_spec contract o id s (GetJob o id s);
  Transition_ok C o id (mutate : mutator C) c s :
    good contract s → keeps_ID mutate →
    transition_spec contract o id mutate c s (Transition o id mutate c s);
  Submit_ok o rec key s :
    good contract s → submit_spec contract o rec key s (SubmitWithIdempotency o rec key s);
  PutJob_ok o rec s : good contract s → put_spec contract o rec s (PutJob o rec s);
  ListUnfinished_ok o s :
    good contract s → list_spec contract o unfinished s (ListUnfinished o s);
  ListRunningOnWorker_ok o w s :
    good contract s → list_spec contract o (running_on w) s (ListRunningOnWorker o w s);
}.

(** ** Facts about the abstract state *)

Lemma a_put_wf id r a : a_wf a → ID r = id → a_wf (a_put id r a).
Proof.
  intros [Hj Hi] <-. split; cbn.
  - intros id' r'. rewrite lookup_insert. case_decide; [by intros [= <-]|by apply Hj].
  - intros key id' [? ?]%Hi. split; [done|]. rewrite lookup_insert. by case_decide.
Qed.

Lemma a_index_wf key id a : a_wf a → is_Some (a_jobs a !! id) → a_wf (a_index key id a).
Proof.
  intros [Hj Hi] Hid. unfold a_index. destruct (String.eqb_spec key ""); [done|].
  split; cbn; [done|]. intros key' id'. rewrite lookup_insert. case_decide; [|by apply Hi].
  intros [= <-]. by subst.
Qed.

Lemma a_wf_empty : a_wf a_empty.
Proof. split; intros ??; cbn; by rewrite lookup_empty. Qed.

(** ** Histories of calls *)

Section histories.
Context {A : StoreAPI} {OK : StoreOk A}.
Implicit Types (s : store).

(** One call that may change the store, by any client. *)
Inductive call_step : store → store → Prop :=
| call_put o rec s : call_step s (PutJob o rec s).2
| call_transition C o id (mutate : mutator C) c s :
    keeps_ID mutate → call_step s (Transition o id mutate c s).2
| call_submit o rec key s : call_step s (SubmitWithIdempotency o rec key s).2.

Lemma call_step_good s s' : good contract s → call_step s s' → good contract s'.
Proof.
  intros Hg Hstep. destruct Hstep.
  - by destruct (PutJob_ok o rec s Hg).
  - by destruct (Transition_ok C o id mutate c s Hg H).
  - by destruct (Submit_ok o rec key s Hg).
Qed.

Lemma call_steps_good s s' : good contract s → rtc call_step s s' → good contract s'.
Proof. intros Hg. induction 1; eauto using call_step_good. Qed.

(** An index entry is never removed or redirected. *)
Lemma call_step_idem s s' key id :
  good contract s → call_step s s' →
  a_idem (view contract s) !! key = Some id → a_idem (view contract s') !! key = Some id.
Proof.
  intros Hg Hstep Hkey. destruct Hstep.
  - destruct (PutJob_ok o rec s Hg) as [? ? ? ? Hv| |? ? ? ? ? ? ? Hv]; cbn; rewrite ?Hv; done.
  - destruct (Transition_ok C o id0 mutate c s Hg H)
      as [????? ???? Hv| | | | |????????????? Hv]; cbn; rewrite ?Hv; done.
  - assert (∀ r s', (key0 = "" ∨ a_idem (view contract s) !! key0 = None) →
      view contract s' = a_index key0 (ID rec) (a_put (ID rec) r (view contract s)) →
      a_idem (view contract s') !! key = Some id) as Hnew.
    { intros r s' Hn ->. unfold a_index. destruct (String.eqb_spec key0 ""); [done|]. cbn.
      rewrite lookup_insert_ne; [done|]. intros <-. destruct Hn; [done|congruence]. }
    destruct (Submit_ok o rec key0 s Hg); cbn; eauto.
Qed.

Lemma call_steps_idem s s' key id :
  good contract s → rtc call_step s s' →
  a_idem (view contract s) !! key = Some id → a_idem (view contract s') !! key = Some id.
Proof.
  intros Hg Hsteps. revert Hg. induction Hsteps; eauto using call_step_good, call_step_idem.
Qed.

End histories.
