(* ===== verification/JobStore.v ===== *)
(** * BoltStore: the write-ahead log of job records

    src/orchestrator/job_store.go.  [BoltStore] holds the three buckets of the
    database file; every method is one function from the state before to the
    results and the state after, with the clock reading and the transaction
    faults of the call as arguments.  The second half proves that the methods
    meet the contract of StoreSpec.v ([boltstore_ok]). *)

From stdpp Require Import strings gmap sorting prelude.
From S2P Require Import Prelude Types Json Bolt StoreSpec.

Module BoltStore.

Section operations.
Context {B : BoltAPI}.

Record t : Type := mkBoltStore {
  jobs : bucket json;
  workers : bucket json;
  idempotency : bucket string;
}.

(** The database file before [NewBoltStore]: a bucket may not exist yet. *)
Record DBFile : Type := mkDBFile {
  f_jobs : option (bucket json);
  f_workers : option (bucket json);
  f_idempotency : option (bucket string);
}.

Definition set_jobs (b : bucket json) (s : t) : t :=
  mkBoltStore b (workers s) (idempotency s).

Definition set_idempotency (b : bucket string) (s : t) : t :=
  mkBoltStore (jobs s) (workers s) b.

(** [db.View(fn)] and [db.Update(fn)].  [a0] is what the variables captured by
    [fn] hold when [fn] never runs.  An error of [fn] rolls back and is
    returned; otherwise the transaction commits, unless the commit fails. *)
Definition View {A} (ft : Faults) (a0 : A) (fn : A * option error) : A * option error :=
  match begin_err ft with Some e => (a0, Some e) | None => fn end.

Definition Update {A} (ft : Faults) (s : t) (a0 : A) (fn : t → A * result error t) :
    A * option error * t :=
  match begin_err ft with
  | Some e => (a0, Some e, s)
  | None =>
      match fn s with
      | (a, Err e) => (a, Some e, s)
      | (a, Ok s') =>
          match commit_err ft with
          | Some e => (a, Some e, s)
          | None => (a, None, s')
          end
      end
  end.

Definition CreateBucketIfNotExists {V} (o : option (bucket V)) : bucket V :=
  default newBucket o.

(** [opened] is the outcome of [bolt.Open]. *)
Definition NewBoltStore (path : string) (opened : result error DBFile) (ft : Faults) :
    result error t :=
  match opened with
  | Err e => Err (wrapError ("open boltdb at " +:+ path +:+ ": ") e "")
  | Ok f =>
      let created := mkBoltStore (CreateBucketIfNotExists (f_jobs f))
        (CreateBucketIfNotExists (f_workers f)) (CreateBucketIfNotExists (f_idempotency f)) in
      match Update ft created tt (λ tx, (tt, Ok tx)) with
      | (_, Some e, _) => Err e
      | (_, None, s) => Ok s
      end
  end.

Definition Ping (ft : Faults) (s : t) : option error :=
  snd (View ft tt (tt, None)).

Definition PutJob (ft : Faults) (now : Z) (rec : JobRecord) (s : t) : option error * t :=
  let rec := stamp now rec in
  match Marshal rec with
  | Err e => (Some e, s)
  | Ok buf =>
      let '(_, err, s') := Update ft s tt (λ tx,
        match bPut (jobs tx) (ID rec) buf with
        | Err e => (tt, Err e)
        | Ok b => (tt, Ok (set_jobs b tx))
        end) in
      (err, s')
  end.

(** On a decoding error the code also returns the partly filled record, which
    no caller looks at. *)
Definition GetJob (ft : Faults) (id : string) (s : t) : result error (option JobRecord) :=
  match View ft None
    match bGet (jobs s) id with
    | None => (None, None)
    | Some raw =>
        match Unmarshal raw with
        | Err e => (None, Some e)
        | Ok rec => (Some rec, None)
        end
    end
  with
  | (_, Some e) => Err e
  | (rec, None) => Ok rec
  end.

Definition errNotFound (jobID : string) : error :=
  errorString ("job " +:+ jobID +:+ " not found").

Definition Transition {C} (ft : Faults) (now : Z) (jobID : string) (mutate : mutator C)
    (c : C) (s : t) : (bool * option error) * C * t :=
  let '((committed, c'), err, s') := Update ft s (false, c) (λ tx,
    match bGet (jobs tx) jobID with
    | None => ((false, c), Err (errNotFound jobID))
    | Some raw =>
        match Unmarshal raw with
        | Err e => ((false, c), Err e)
        | Ok rec =>
            match mutate c rec with
            | (c', Err e) =>
                if bool_decide (e = ErrSkipTransition) then ((false, c'), Ok tx)
                else ((false, c'), Err e)
            | (c', Ok rec) =>
                match Marshal (stamp now rec) with
                | Err e => ((false, c'), Err e)
                | Ok buf =>
                    match bPut (jobs tx) jobID buf with
                    | Err e => ((false, c'), Err e)
                    | Ok b => ((true, c'), Ok (set_jobs b tx))
                    end
                end
            end
        end
    end) in
  ((committed, err), c', s').

(** [Bucket(bucketJobs).ForEach] with the closures of [ListUnfinished] and
    [ListRunningOnWorker]: records are appended to [out] until the first one
    that does not decode. *)
Fixpoint scan (keep : JobRecord → bool) (kvs : list (string * json)) :
    list JobRecord * option error :=
  match kvs with
  | [] => ([], None)
  | (_, v) :: kvs =>
      match Unmarshal v with
      | Err e => ([], Some e)
      | Ok rec =>
          let '(out, err) := scan keep kvs in
          (if keep rec then rec :: out else out, err)
      end
  end.

Definition ListUnfinished (ft : Faults) (s : t) : list JobRecord * option error :=
  View ft [] (scan unfinished (bForEach (jobs s))).

Definition ListRunningOnWorker (ft : Faults) (workerID : string) (s : t) :
    list JobRecord * option error :=
  View ft [] (scan (running_on workerID) (bForEach (jobs s))).

(** The key lookup of both submit transactions. *)
Definition existing_job (idempotencyKey : string) (tx : t) : option string :=
  if String.eqb idempotencyKey "" then None else bGet (idempotency tx) idempotencyKey.

(** The writes of both submit transactions: the record, then the index. *)
Definition insert_job (rec : JobRecord) (idempotencyKey : string) (tx : t) : result error t :=
  match Marshal rec with
  | Err e => Err e
  | Ok buf =>
      match bPut (jobs tx) (ID rec) buf with
      | Err e => Err e
      | Ok b =>
          let tx := set_jobs b tx in
          if String.eqb idempotencyKey "" then Ok tx
          else match bPut (idempotency tx) idempotencyKey (ID rec) with
               | Err e => Err e
               | Ok b => Ok (set_idempotency b tx)
               end
      end
  end.

Definition SubmitWithIdempotency (ft : Faults) (now : Z) (rec : JobRecord)
    (idempotencyKey : string) (s : t) : (string * bool * option error) * t :=
  let '((jobID, created), err, s') := Update ft s ("", false) (λ tx,
    match existing_job idempotencyKey tx with
    | Some existing => ((existing, false), Ok tx)
    | None =>
        let rec := stamp now (set_IdempotencyKey idempotencyKey rec) in
        match insert_job rec idempotencyKey tx with
        | Err e => (("", false), Err e)
        | Ok tx => ((ID rec, true), Ok tx)
        end
    end) in
  ((jobID, created, err), s').

(** ** Raw variants for the Raft FSM: no clock, the record is written as given *)

Definition putJobRaw (ft : Faults) (rec : JobRecord) (s : t) : option error * t :=
  match Marshal rec with
  | Err e => (Some e, s)
  | Ok buf =>
      let '(_, err, s') := Update ft s tt (λ tx,
        match bPut (jobs tx) (ID rec) buf with
        | Err e => (tt, Err e)
        | Ok b => (tt, Ok (set_jobs b tx))
        end) in
      (err, s')
  end.

Definition casPut (ft : Faults) (jobID : string) (expectedVersion : Z) (rec : JobRecord)
    (s : t) : (bool * option error) * t :=
  let '(conflict, err, s') := Update ft s false (λ tx,
    match bGet (jobs tx) jobID with
    | None => (false, Err (errNotFound jobID))
    | Some raw =>
        match Unmarshal raw with
        | Err e => (false, Err e)
        | Ok cur =>
            if negb (Version cur =? expectedVersion)%Z then (true, Ok tx)
            else match Marshal rec with
                 | Err e => (false, Err e)
                 | Ok buf =>
                     match bPut (jobs tx) jobID buf with
                     | Err e => (false, Err e)
                     | Ok b => (false, Ok (set_jobs b tx))
                     end
                 end
        end
    end) in
  ((conflict, err), s').

Definition submitRaw (ft : Faults) (rec : JobRecord) (idempotencyKey : string) (s : t) :
    (string * bool * option error) * t :=
  let '((jobID, created), err, s') := Update ft s ("", false) (λ tx,
    match existing_job idempotencyKey tx with
    | Some existing => ((existing, false), Ok tx)
    | None =>
        match insert_job rec idempotencyKey tx with
        | Err e => (("", false), Err e)
        | Ok tx => ((ID rec, true), Ok tx)
        end
    end) in
  ((jobID, created, err), s').

(** The pairs of the index as a Go map. *)
Definition exportState (ft : Faults) (s : t) :
    (list JobRecord * gmap string string) * option error :=
  View ft ([], ∅)
    match scan (λ _, true) (bForEach (jobs s)) with
    | (jobs, Some e) => ((jobs, ∅), Some e)
    | (jobs, None) => ((jobs, list_to_map (bForEach (idempotency s))), None)
    end.

Fixpoint import_jobs (recs : list JobRecord) (tx : t) : result error t :=
  match recs with
  | [] => Ok tx
  | rec :: recs =>
      match Marshal rec with
      | Err e => Err e
      | Ok buf =>
          match bPut (jobs tx) (ID rec) buf with
          | Err e => Err e
          | Ok b => import_jobs recs (set_jobs b tx)
          end
      end
  end.

Fixpoint import_idem (kvs : list (string * string)) (tx : t) : result error t :=
  match kvs with
  | [] => Ok tx
  | (k, v) :: kvs =>
      match bPut (idempotency tx) k v with
      | Err e => Err e
      | Ok b => import_idem kvs (set_idempotency b tx)
      end
  end.

(** [ord] is the order in which Go ranges over the map [idem]. *)
Definition importState (ft : Faults) (ord : list string) (recs : list JobRecord)
    (idem : gmap string string) (s : t) : option error * t :=
  let '(_, err, s') := Update ft s tt (λ tx,
    let tx := set_idempotency newBucket (set_jobs newBucket tx) in
    match import_jobs recs tx with
    | Err e => (tt, Err e)
    | Ok tx =>
        match import_idem (range_map ord idem) tx with
        | Err e => (tt, Err e)
        | Ok tx => (tt, Ok tx)
        end
    end) in
  (err, s').

(** ** The abstract view of a store *)

Definition decode (raw : json) : option JobRecord :=
  match Unmarshal raw with Ok r => Some r | Err _ => None end.

Definition view_jobs (b : bucket json) : gmap string JobRecord :=
  list_to_map (omap (λ kv, (λ r, (kv.1, r)) <$> decode kv.2) (bForEach b)).

Definition view_idem (b : bucket string) : gmap string string :=
  list_to_map (bForEach b).

Definition view (s : t) : astore := mkA (view_jobs (jobs s)) (view_idem (idempotency s)).

(** The record encodes, and BoltDB accepts the encoding under the key [id]. *)
Definition storable (id : string) (r : JobRecord) : Prop :=
  ∃ buf, Marshal r = Ok buf ∧ bFits id buf = true.

(** Every stored record decodes and can be stored again, so does every index
    entry, and the abstract state is well formed. *)
Definition good (s : t) : Prop :=
  (∀ id raw, bGet (jobs s) id = Some raw → ∃ r, Unmarshal raw = Ok r ∧ storable id r) ∧
  (∀ key id, bGet (idempotency s) key = Some id → bFits key id = true) ∧
  a_wf (view s).

Definition env : Type := Faults * Z.

Definition faulty (o : env) : Prop := begin_err o.1 ≠ None ∨ commit_err o.1 ≠ None.

(** The stamped record does not encode, or a pair exceeds BoltDB's limits. *)
Definition unwritable (o : env) (id : string) (r : JobRecord) : Prop :=
  match Marshal (stamp o.2 r) with
  | Err _ => True
  | Ok buf => bFits id buf = false ∨
              (IdempotencyKey r ≠ "" ∧ bFits (IdempotencyKey r) (ID r) = false)
  end.

Definition boltContract : Contract t env :=
  mkContract _ _ view good faulty (λ _, False) unwritable (λ o r r', r' = stamp o.2 r).

#[export] Instance api : StoreAPI := {
  store := t;
  senv := env;
  StoreSpec.PutJob o := PutJob o.1 o.2;
  StoreSpec.GetJob o := GetJob o.1;
  StoreSpec.Transition C o := Transition o.1 o.2;
  StoreSpec.SubmitWithIdempotency o := SubmitWithIdempotency o.1 o.2;
  StoreSpec.ListUnfinished o := ListUnfinished o.1;
  StoreSpec.ListRunningOnWorker o := ListRunningOnWorker o.1;
  StoreSpec.Ping o := Ping o.1;
}.

End operations.

(** ** Lemmas *)

Section lemmas.
Context {B : BoltAPI} {BL : BoltLaws B}.
Implicit Types (s tx : t) (b : bucket json).

Lemma lookup_view_jobs b id : view_jobs b !! id = bGet b id ≫= decode.
Proof.
  unfold view_jobs.
  assert (∀ r, (id, r) ∈ omap (λ kv, (λ r, (kv.1, r)) <$> decode kv.2) (bForEach b) ↔
    ∃ raw, bGet b id = Some raw ∧ decode raw = Some r) as Hin.
  { intros r. rewrite list_elem_of_omap. split.
    - intros ([k raw] & Hk & E). cbn in E. destruct (decode raw) eqn:Hd; [|done].
      simplify_eq/=. apply foreach_get in Hk. eauto.
    - intros (raw & Hg & Hd). exists (id, raw). cbn. rewrite Hd. by rewrite foreach_get. }
  assert (NoDup (omap (λ kv, (λ r, (kv.1, r)) <$> decode kv.2) (bForEach b)).*1) as Hnd.
  { pose proof (foreach_NoDup _ b) as Hnd. revert Hnd. generalize (bForEach b). clear.
    intros l. induction l as [|[k v] l IH]; cbn; [done|]. intros [Hni Hnd]%NoDup_cons.
    destruct (decode v); cbn; [|auto]. constructor; [|auto].
    intros ([k' r'] & E & Hin)%list_elem_of_fmap. cbn in E. subst k'.
    apply list_elem_of_omap in Hin as ([k2 v2] & Hin & E). cbn in E.
    destruct (decode v2); simplify_eq/=. destruct Hni.
    by apply (list_elem_of_fmap_2 fst) in Hin. }
  destruct (bGet b id) as [raw|] eqn:Hg; cbn; [destruct (decode raw) as [r|] eqn:Hd|].
  - apply elem_of_list_to_map_1; [done|]. apply Hin. eauto.
  - apply not_elem_of_list_to_map_1.
    intros ([k r] & -> & Hr)%list_elem_of_fmap. apply Hin in Hr as (? & ? & ?). congruence.
  - apply not_elem_of_list_to_map_1.
    intros ([k r] & -> & Hr)%list_elem_of_fmap. apply Hin in Hr as (? & ? & ?). congruence.
Qed.

Lemma lookup_view_idem (b : bucket string) key : view_idem b !! key = bGet b key.
Proof.
  unfold view_idem. apply option_eq. intros id. rewrite <- foreach_get. split.
  - apply elem_of_list_to_map_2.
  - apply elem_of_list_to_map_1, foreach_NoDup.
Qed.

Lemma view_jobs_put b b' id buf r :
  bPut b id buf = Ok b' → decode buf = Some r → view_jobs b' = <[id := r]> (view_jobs b).
Proof.
  intros Hp Hd. apply map_eq. intros k. rewrite lookup_view_jobs, (get_put _ _ _ _ _ _ Hp).
  rewrite lookup_insert. case_decide; cbn; [done|]. by rewrite lookup_view_jobs.
Qed.

Lemma view_idem_put (b b' : bucket string) key id :
  bPut b key id = Ok b' → view_idem b' = <[key := id]> (view_idem b).
Proof.
  intros Hp. apply map_eq. intros k. rewrite lookup_view_idem, (get_put _ _ _ _ _ _ Hp).
  rewrite lookup_insert. case_decide; cbn; [done|]. by rewrite lookup_view_idem.
Qed.

Lemma decode_Marshal r buf : Marshal r = Ok buf → decode buf = Some r.
Proof. intros H%Marshal_Unmarshal. unfold decode. by rewrite H. Qed.

Lemma put_Ok_fits {V} (b b' : bucket V) k v : bPut b k v = Ok b' → bFits k v = true.
Proof. intros H. by rewrite <- (put_fits _ b k v), H. Qed.

(** Storing the encoding of [r] under its ID. *)
Lemma put_good s b r buf :
  good s → Marshal r = Ok buf → bPut (jobs s) (ID r) buf = Ok b →
  good (set_jobs b s) ∧ view (set_jobs b s) = a_put (ID r) r (view s).
Proof.
  intros (Hdec & Hfit & Hwf) Hm Hp. pose proof (decode_Marshal _ _ Hm) as Hd.
  assert (view (set_jobs b s) = a_put (ID r) r (view s)) as Hv.
  { unfold view, a_put. cbn. by rewrite (view_jobs_put _ _ _ _ _ Hp Hd). }
  split; [split; [|split]|done].
  - intros id raw. cbn. rewrite (get_put _ _ _ _ _ _ Hp). case_decide; [|by apply Hdec].
    intros [= <-]. exists r. split; [by apply Marshal_Unmarshal|]. exists buf.
    split; [done|]. subst id. by eapply put_Ok_fits.
  - done.
  - rewrite Hv. by apply a_put_wf.
Qed.

Lemma lookup_good s id :
  good s →
  (bGet (jobs s) id = None ∧ a_jobs (view s) !! id = None) ∨
  (∃ raw r, bGet (jobs s) id = Some raw ∧ Unmarshal raw = Ok r ∧
            a_jobs (view s) !! id = Some r ∧ ID r = id).
Proof.
  intros (Hdec & _ & Hwf & _). specialize (Hwf id). unfold view in *. cbn in *.
  rewrite lookup_view_jobs in Hwf |- *.
  destruct (bGet (jobs s) id) as [raw|] eqn:Hg; cbn in *; [right|by left].
  destruct (Hdec _ _ Hg) as (r & Hr & _). exists raw, r.
  unfold decode in *. rewrite Hr in *. eauto.
Qed.

(** The transaction [Update] either faults and leaves the store alone, or
    returns what the closure computed. *)
Lemma Update_cases {A} ft s (a0 : A) fn o :
  o.1 = ft →
  (∃ a e, Update ft s a0 fn = (a, Some e, s) ∧ faulty o) ∨
  (∃ a e, fn s = (a, Err e) ∧ Update ft s a0 fn = (a, Some e, s)) ∨
  (∃ a s', fn s = (a, Ok s') ∧ Update ft s a0 fn = (a, None, s')).
Proof.
  intros <-. unfold Update, faulty.
  destruct (begin_err o.1) as [e|]; [left; eauto 10|].
  destruct (fn s) as [a [s'|e]] eqn:Hf; [|right; left; eauto].
  destruct (commit_err o.1) as [e|]; [left; eauto 10|right; right; eauto].
Qed.

Lemma GetJob_meets o id s : good s → get_spec boltContract o id s (GetJob o.1 id s).
Proof.
  intros Hg. unfold GetJob, View.
  destruct (begin_err o.1) eqn:Hb; [constructor; left; cbn; congruence|].
  destruct (lookup_good s id Hg) as [[-> Hv]|(raw & r & -> & -> & Hv & _)];
    rewrite <- Hv; constructor.
Qed.

Lemma PutJob_meets o rec s : good s → put_spec boltContract o rec s (PutJob o.1 o.2 rec s).
Proof.
  intros Hg. unfold PutJob.
  destruct (stamp_fields o.2 rec) as (_ & HID & _).
  destruct (Marshal (stamp o.2 rec)) as [buf|e] eqn:Hm;
    [|constructor; right; cbn; unfold unwritable; by rewrite Hm].
  destruct (Update_cases o.1 s tt (λ tx, match bPut (jobs tx) (ID (stamp o.2 rec)) buf with
      | Ok b => (tt, Ok (set_jobs b tx)) | Err e => (tt, Err e) end) o eq_refl)
    as [(a & e & -> & Hf)|[(a & e & Hfn & ->)|(a & s' & Hfn & ->)]].
  - apply put_fault. by left.
  - apply put_fault. right. cbn. unfold unwritable. rewrite Hm. left.
    destruct (put_cases (jobs s) (ID (stamp o.2 rec)) buf) as [(b & E & _)|(? & E & ?)];
      rewrite E in Hfn; [done|]. by rewrite HID in *.
  - destruct (bPut (jobs s) (ID (stamp o.2 rec)) buf) as [b|] eqn:Hp; simplify_eq.
    destruct (put_good _ _ _ _ Hg Hm Hp) as [Hg' Hv]. rewrite HID in Hv.
    by eapply put_ok.
Qed.

Lemma Transition_meets C o id (mutate : mutator C) c s :
  good s → keeps_ID mutate →
  transition_spec boltContract o id mutate c s (Transition o.1 o.2 id mutate c s).
Proof.
  intros Hg Hkeep. unfold Transition.
  match goal with |- context [Update _ _ ?a0 ?f] =>
    destruct (Update_cases o.1 s a0 f o eq_refl)
      as [([a c'] & e & -> & Hf)|[([a c'] & e & Hfn & ->)|([a c'] & s' & Hfn & ->)]] end;
    [by eapply transition_fault; left|..];
    destruct (lookup_good s id Hg) as [[Hb Hv]|(raw & r & Hb & Hu & Hv & HID)];
    rewrite Hb, ?Hu in Hfn; simplify_eq.
  - by apply transition_missing.
  - destruct (mutate c r) as [c1 [r'|e1]] eqn:Hmut.
    + eapply transition_fault. right. exists r, r'.
      assert (c' = c1) as -> by (repeat case_match; congruence).
      split; [done|]. split; [done|]. cbn. unfold unwritable.
      destruct (Marshal (stamp o.2 r')) as [buf|]; [|done]. left.
      destruct (put_cases (jobs s) (ID r) buf) as [(b & E & _)|(? & E & ?)];
        rewrite E in Hfn; done.
    + case_bool_decide; simplify_eq. by eapply transition_mutator.
  - destruct (mutate c r) as [c1 [r'|e1]] eqn:Hmut.
    + destruct (Marshal (stamp o.2 r')) as [buf|] eqn:Hm; [|done].
      destruct (bPut (jobs s) (ID r) buf) as [b|] eqn:Hp; simplify_eq.
      assert (ID (stamp o.2 r') = ID r) as HID2.
      { destruct (stamp_fields o.2 r') as (_ & -> & _). by eapply Hkeep. }
      rewrite <- HID2 in Hp. destruct (put_good _ _ _ _ Hg Hm Hp) as [Hg' Hv'].
      rewrite HID2 in Hv'. by eapply transition_ok.
    + case_bool_decide; simplify_eq. by eapply transition_skip.
Qed.

Lemma existing_job_view key s :
  existing_job key s = if String.eqb key "" then None else a_idem (view s) !! key.
Proof.
  unfold existing_job, view. cbn. destruct (String.eqb key ""); [done|].
  by rewrite lookup_view_idem.
Qed.

Lemma existing_job_Some key s id :
  key ≠ "" → existing_job key s = Some id ↔ a_idem (view s) !! key = Some id.
Proof. intros Hk. rewrite existing_job_view. by rewrite (proj2 (String.eqb_neq _ _)). Qed.

Lemma insert_job_good rec key s s' :
  good s → insert_job rec key s = Ok s' →
  good s' ∧ view s' = a_index key (ID rec) (a_put (ID rec) rec (view s)).
Proof.
  intros Hg. unfold insert_job.
  destruct (Marshal rec) as [buf|] eqn:Hm; [|done].
  destruct (bPut (jobs s) (ID rec) buf) as [b|] eqn:Hp; [|done].
  destruct (put_good _ _ _ _ Hg Hm Hp) as [(Hdec & Hfit & Hwf) Hv].
  unfold a_index. destruct (String.eqb_spec key "") as [|Hne]; [by intros [= <-]|].
  destruct (bPut (idempotency (set_jobs b s)) key (ID rec)) as [bi|] eqn:Hpi; [|done].
  intros [= <-].
  assert (view (set_idempotency bi (set_jobs b s)) =
    mkA (a_jobs (a_put (ID rec) rec (view s)))
        (<[key := ID rec]> (a_idem (a_put (ID rec) rec (view s))))) as Hv'.
  { rewrite <- Hv. unfold view. cbn. by rewrite (view_idem_put _ _ _ _ Hpi). }
  split; [split; [done|split]|done].
  { intros k id. cbn. rewrite (get_put _ _ _ _ _ _ Hpi). case_decide; [|by apply Hfit].
    intros [= <-]. subst k. by eapply put_Ok_fits. }
  rewrite Hv'.
  pose proof (a_index_wf key (ID rec) _ Hwf) as Hi. rewrite Hv in Hi. unfold a_index in Hi.
  rewrite (proj2 (String.eqb_neq key "")) in Hi by done.
  apply Hi. cbn. rewrite lookup_insert_eq. eauto.
Qed.

Lemma insert_job_fails rec key s e :
  insert_job rec key s = Err e →
  match Marshal rec with
  | Err _ => True
  | Ok buf => bFits (ID rec) buf = false ∨ (key ≠ "" ∧ bFits key (ID rec) = false)
  end.
Proof.
  unfold insert_job. destruct (Marshal rec) as [buf|]; [|done].
  destruct (put_cases (jobs s) (ID rec) buf) as [(b & -> & _)|(? & -> & ?)]; [|eauto].
  destruct (String.eqb_spec key ""); [done|].
  destruct (put_cases (idempotency (set_jobs b s)) key (ID rec)) as [(bi & -> & _)|(? & -> & ?)];
    [done|eauto].
Qed.

Lemma Submit_meets o rec key s :
  good s →
  submit_spec boltContract o rec key s (SubmitWithIdempotency o.1 o.2 rec key s).
Proof.
  intros Hg. unfold SubmitWithIdempotency.
  match goal with |- context [Update _ _ ?a0 ?f] =>
    destruct (Update_cases o.1 s a0 f o eq_refl)
      as [([a c'] & e & -> & Hf)|[([a c'] & e & Hfn & ->)|([a c'] & s' & Hfn & ->)]] end;
    [by eapply submit_fault; left|..];
    destruct (existing_job key s) as [id|] eqn:Hex; simplify_eq.
  - set (rec' := stamp o.2 (set_IdempotencyKey key rec)) in *.
    destruct (stamp_fields o.2 (set_IdempotencyKey key rec)) as (_ & HID & _).
    destruct (insert_job rec' key s) eqn:Hi; [done|].
    apply insert_job_fails in Hi. eapply submit_fault. right. cbn. unfold unwritable.
    fold rec'. destruct (Marshal rec'); [|done]. subst rec'. by rewrite HID in Hi.
  - rewrite existing_job_view in Hex. destruct (String.eqb_spec key ""); [done|].
    by eapply submit_existing.
  - set (rec' := stamp o.2 (set_IdempotencyKey key rec)) in *.
    destruct (stamp_fields o.2 (set_IdempotencyKey key rec)) as (_ & HID & _).
    fold rec' in HID. change (ID rec' = ID rec) in HID.
    destruct (insert_job rec' key s) as [s1|] eqn:Hi; simplify_eq.
    destruct (insert_job_good _ _ _ _ Hg Hi) as [Hg' Hv]. rewrite HID in Hv |- *.
    eapply submit_created; [|done..]. rewrite existing_job_view in Hex.
    destruct (String.eqb_spec key ""); eauto.
Qed.

Lemma scan_spec keep (kvs : list (string * json)) :
  (∀ k v, (k, v) ∈ kvs → is_Some (decode v)) →
  scan keep kvs = (filter (λ r, keep r = true) (omap (λ kv, decode kv.2) kvs), None).
Proof.
  induction kvs as [|[k v] kvs IH]; intros Hdec; [done|]. cbn [scan omap list_omap].
  destruct (Hdec k v) as [r Hr]; [by left|]. cbn [snd]. rewrite Hr.
  unfold decode in Hr. destruct (Unmarshal v); simplify_eq.
  rewrite IH by (intros; eapply Hdec; by right).
  rewrite filter_cons. destruct (keep r); case_decide; done.
Qed.

(** A listing over the jobs bucket meets its specification. *)
Lemma scan_meets o keep s :
  good s →
  list_spec boltContract o keep s (View o.1 [] (scan keep (bForEach (jobs s)))).
Proof.
  intros Hg. unfold View.
  destruct (begin_err o.1) eqn:Hb; [constructor; left; cbn; congruence|].
  assert (∀ k v, (k, v) ∈ bForEach (jobs s) → ∃ r, decode v = Some r ∧ ID r = k ∧
    a_jobs (view s) !! k = Some r) as Hall.
  { intros k v Hin%foreach_get.
    destruct (lookup_good s k Hg) as [[? ?]|(raw & r & ? & Hu & ? & ?)]; simplify_eq.
    exists r. unfold decode. rewrite Hu. done. }
  rewrite scan_spec by (intros k v (? & ? & _)%Hall; eauto). constructor.
  - intros r. rewrite list_elem_of_filter, list_elem_of_omap. cbn [view boltContract]. split.
    + intros [Hk ([k v] & Hin & Hd)]. destruct (Hall _ _ Hin) as (r' & ? & ? & ?).
      cbn in *. by simplify_eq.
    + intros [Hk Hl]. split; [done|].
      destruct (lookup_good s (ID r) Hg) as [[? ?]|(raw & r' & Hb' & Hu & ? & ?)];
        simplify_eq/=.
      exists (ID r, raw). rewrite foreach_get. split; [done|]. unfold decode. cbn.
      rewrite Hu. congruence.
  - eapply sublist_NoDup; [|apply fmap_sublist, sublist_filter].
    replace (ID <$> omap (λ kv, decode kv.2) (bForEach (jobs s))) with (bForEach (jobs s)).*1;
      [apply foreach_NoDup|].
    revert Hall. generalize (bForEach (jobs s)). clear. intros l Hall.
    induction l as [|[k v] l IH]; [done|]. cbn.
    destruct (Hall k v) as (r & -> & HID & _); [by left|]. cbn. f_equal; [done|].
    apply IH. intros. apply Hall. by right.
Qed.

End lemmas.

#[export] Instance boltstore_ok {B : BoltAPI} {BL : BoltLaws B} : StoreOk api.
Proof.
  refine {| contract := boltContract |}.
  - by intros s (_ & _ & ?).
  - intros o r r' ->. exists o.2, (Version r). unfold stamp. cbn.
    by destruct (time_IsZero (CreatedAt r)).
  - intros. by apply GetJob_meets.
  - intros. by apply Transition_meets.
  - intros. by apply Submit_meets.
  - intros. by apply PutJob_meets.
  - intros. by apply scan_meets.
  - intros. by apply scan_meets.
Defined.

(** The store [NewBoltStore] makes of a new file. *)
Definition empty_store {B : BoltAPI} : t := mkBoltStore newBucket newBucket newBucket.

Lemma empty_store_good {B : BoltAPI} {BL : BoltLaws B} : good empty_store.
Proof.
  split; [|split; [|split]]; cbn.
  - intros id raw. by rewrite get_new.
  - intros key id. by rewrite get_new.
  - intros id r. rewrite lookup_view_jobs, get_new. done.
  - intros key id. rewrite lookup_view_idem, get_new. done.
Qed.

(** ** Properties *)

(** C20: every method of BoltStore meets the contract of the [Store] interface:
    [GetJob] returns the filed record, [Transition] is an atomic
    read-mutate-write that stamps the record and leaves the store alone when
    the mutator skips or fails or the job is missing,
    [SubmitWithIdempotency] files at most one job per key, [PutJob] files the
    stamped record, and the two listings return exactly the matching jobs;
    errors that are not of these kinds only come from transaction faults or
    from records that cannot be encoded or stored. *)
Theorem boltstore_refinement {B : BoltAPI} {BL : BoltLaws B} (s : t) (ft : Faults) (now : Z) :
  good s →
  (∀ id, get_spec boltContract (ft, now) id s (GetJob ft id s)) ∧
  (∀ C id (mutate : mutator C) c, keeps_ID mutate →
     transition_spec boltContract (ft, now) id mutate c s (Transition ft now id mutate c s)) ∧
  (∀ rec key,
     submit_spec boltContract (ft, now) rec key s (SubmitWithIdempotency ft now rec key s)) ∧
  (∀ rec, put_spec boltContract (ft, now) rec s (PutJob ft now rec s)) ∧
  list_spec boltContract (ft, now) unfinished s (ListUnfinished ft s) ∧
  (∀ w, list_spec boltContract (ft, now) (running_on w) s (ListRunningOnWorker ft w s)).
Proof.
  intros Hg. repeat split; intros.
  - by apply (GetJob_meets (ft, now)).
  - by apply (Transition_meets _ (ft, now)).
  - by apply (Submit_meets (ft, now)).
  - by apply (PutJob_meets (ft, now)).
  - by apply (scan_meets (ft, now)).
  - by apply (scan_meets (ft, now)).
Qed.

(** Once a submit with a non-empty key has created a job, every later
    submit with that key, whatever record it carries and whatever calls of any
    clients happened in between, returns the same job ID, creates nothing and
    leaves the store unchanged, unless the transaction itself faults. *)
Theorem submit_idempotent {B : BoltAPI} {BL : BoltLaws B} (s s1 s2 : t) ft now rec key id
    ft' now' rec' :
  good s → key ≠ "" →
  SubmitWithIdempotency ft now rec key s = ((id, true, None), s1) →
  rtc call_step s1 s2 →
  ¬ faulty (ft', now') →
  SubmitWithIdempotency ft' now' rec' key s2 = ((id, false, None), s2).
Proof.
  intros Hg Hkey Hsub Hsteps Hnf.
  pose proof (Submit_meets (ft, now) rec key s Hg) as Hs. cbn in Hs. rewrite Hsub in Hs.
  inversion Hs as [|r ? Hnew Hw Hg1 Hv| |]; subst.
  assert (a_idem (view s1) !! key = Some (ID rec)) as Hk1.
  { cbn in Hv. rewrite Hv. unfold a_index. rewrite (proj2 (String.eqb_neq _ _)) by done.
    apply lookup_insert_eq. }
  assert (good s2) as Hg2 by exact (call_steps_good (OK := boltstore_ok) s1 s2 Hg1 Hsteps).
  assert (a_idem (view s2) !! key = Some (ID rec)) as Hk2
    by exact (call_steps_idem (OK := boltstore_ok) s1 s2 key (ID rec) Hg1 Hsteps Hk1).
  unfold SubmitWithIdempotency. apply (existing_job_Some key s2) in Hk2; [|done].
  unfold Update. rewrite Hk2.
  unfold faulty in Hnf. cbn in Hnf.
  destruct (begin_err ft') eqn:?; [destruct Hnf; left; congruence|].
  destruct (commit_err ft') eqn:?; [destruct Hnf; right; congruence|]. done.
Qed.

(** When the commit of a transition fails, the flag it returns is still
    [true] although the store is rolled back to its old contents: the flag alone
    does not say that the write committed, the error has to be looked at. *)
Theorem Transition_commit_failure {B : BoltAPI} {BL : BoltLaws B} (s : t) C (mutate : mutator C)
    now id r c c' r' e :
  good s → a_jobs (view s) !! id = Some r → mutate c r = (c', Ok r') →
  ¬ unwritable (no_faults, now) id r' →
  Transition (mkFaults None (Some e)) now id mutate c s = ((true, Some e), c', s).
Proof.
  intros Hg Hl Hmut Hw. unfold Transition, Update. cbn [begin_err commit_err].
  destruct (lookup_good s id Hg) as [[? ?]|(raw & r0 & -> & -> & Hl' & HID)]; [congruence|].
  assert (r0 = r) as -> by congruence. rewrite Hmut.
  unfold unwritable in Hw. cbn in Hw.
  destruct (Marshal (stamp now r')) as [buf|]; [|by destruct Hw].
  destruct (put_cases (jobs s) id buf) as [(b & -> & _)|(? & ? & ?)]; [done|].
  destruct Hw. by left.
Qed.

(** ** Concrete runs *)

Module Examples.

Definition job1 : JobRecord := set_FunctionBytes [Byte.x80] (set_Status StatusPending
  (mkJob "job-1" "" "" "f" [] [] [] 0 0 "" zeroTime zeroTime 0 "" 0)).

Definition s1 : t := (SubmitWithIdempotency no_faults 1000 job1 "k" empty_store).2.

Definition to_running : mutator unit :=
  λ c r, (c, Ok (set_WorkerID "w" (set_Status StatusRunning r))).

Lemma s1_good : good s1.
Proof. apply (call_step_good (OK := boltstore_ok) empty_store);
  [apply empty_store_good|apply (call_submit (A := api) (no_faults, 1000%Z))]. Qed.

Lemma boltstore_refinement_witness :
  get_spec boltContract (no_faults, 2000%Z) "job-1" s1 (GetJob no_faults "job-1" s1).
Proof. apply (boltstore_refinement s1 no_faults 2000), s1_good. Defined.

Lemma submit_idempotent_witness :
  SubmitWithIdempotency no_faults 3000 zeroJob "k"
    (Transition no_faults 2000 "job-1" to_running tt s1).2 =
  (("job-1", false, None), (Transition no_faults 2000 "job-1" to_running tt s1).2).
Proof.
  apply (submit_idempotent empty_store s1 _ no_faults 1000 job1 "k" "job-1").
  - apply empty_store_good.
  - done.
  - apply (pair_eq_fst (SubmitWithIdempotency no_faults 1000 job1 "k" empty_store)).
    vm_compute. reflexivity.
  - apply rtc_once, (call_transition (A := api) unit (no_faults, 2000%Z)).
    intros c r c' r' [= <- <-]. done.
  - intros [H|H]; by apply H.
Defined.

Lemma Transition_commit_failure_witness :
  Transition (mkFaults None (Some (errorString "disk full"))) 2000 "job-1" to_running tt s1 =
  ((true, Some (errorString "disk full")), tt, s1).
Proof.
  apply (Transition_commit_failure s1 unit to_running 2000 "job-1"
    (default zeroJob (a_jobs (view s1) !! "job-1")) tt tt
    (set_WorkerID "w" (set_Status StatusRunning
       (default zeroJob (a_jobs (view s1) !! "job-1"))))).
  - apply s1_good.
  - vm_compute. reflexivity.
  - reflexivity.
  - vm_compute. intros [H|[_ H]]; done.
Defined.

End Examples.

End BoltStore.
