(* ===== verification/RaftFsm.v ===== *)
(** * jobFSM: the replicated state machine

    src/orchestrator/raft_fsm.go.  A Raft log entry carries the JSON of an
    [fsmCommand]; [Apply] runs it on the replica's BoltStore; [Snapshot],
    [Persist] and [Restore] move a whole store between replicas.  The abstract
    machine [a_apply] acts on the two maps of StoreSpec.v; [Apply] refines it. *)

From stdpp Require Import strings gmap sorting prelude.
From S2P Require Import Prelude Types Json Bolt StoreSpec JobStore.

Module Fsm.

(** ** Commands *)

Definition cmdPut : string := "put".

Definition cmdCAS : string := "cas".

Definition cmdSubmit : string := "submit".

Record fsmCommand : Type := mkCommand {
  Op : string;
  Record_ : JobRecord;
  ExpectedVersion : Z;
  CmdIdempotencyKey : string;
}.

Record fsmResponse : Type := mkResponse {
  Conflict : bool;
  JobID : string;
  Created : bool;
  Err_ : option error;
}.

(** The wire format of a command. *)
Definition command_fields (cmd : fsmCommand) (record : json) : list (string * option json) :=
  [ ("op", Some (JStr (Op cmd)));
    ("record", Some record);
    ("expected_version", omitNum (ExpectedVersion cmd));
    ("idempotency_key", omitStr (CmdIdempotencyKey cmd)) ].

Definition command_Marshal (cmd : fsmCommand) : result error json :=
  match Marshal (Record_ cmd) with
  | Ok record => Ok (JObj (members (command_fields cmd record)))
  | Err e => Err e
  end.

Definition command_Unmarshal (j : json) : result error fsmCommand :=
  match j with
  | JNull => Ok (mkCommand "" zeroJob 0 "")
  | JObj ms =>
      match dStr (jget "op" ms), Unmarshal (default JNull (jget "record" ms)),
        dNum (jget "expected_version" ms), dStr (jget "idempotency_key" ms) with
      | Some op, Ok record, Some ev, Some ik => Ok (mkCommand op record ev ik)
      | _, _, _, _ => Err errUnmarshal
      end
  | _ => Err errUnmarshal
  end.

(** ** Snapshots *)

Record fsmSnapshot : Type := mkSnapshot {
  Jobs : list JobRecord;
  Idem : gmap string string;
}.

Fixpoint Marshal_list (recs : list JobRecord) : result error (list json) :=
  match recs with
  | [] => Ok []
  | r :: recs =>
      match Marshal r with
      | Err e => Err e
      | Ok j => result_map (cons j) (Marshal_list recs)
      end
  end.

Fixpoint Unmarshal_list (js : list json) : result error (list JobRecord) :=
  match js with
  | [] => Ok []
  | j :: js =>
      match Unmarshal j with
      | Err e => Err e
      | Ok r => result_map (cons r) (Unmarshal_list js)
      end
  end.

(** A Go map is encoded with its keys in order. *)
Definition map_Marshal (m : gmap string string) : list (string * json) :=
  (λ kv, (kv.1, JStr kv.2)) <$> merge_sort entry_le (map_to_list m).

Fixpoint map_Unmarshal (ms : list (string * json)) (m : gmap string string) :
    option (gmap string string) :=
  match ms with
  | [] => Some m
  | (k, j) :: ms =>
      match dStr (Some j) with Some s => map_Unmarshal ms (<[k := s]> m) | None => None end
  end.

(** A nil slice is encoded as [null]. *)
Definition snapshot_Marshal (s : fsmSnapshot) : result error json :=
  match Marshal_list (Jobs s) with
  | Err e => Err e
  | Ok js =>
      Ok (JObj [("jobs", match js with [] => JNull | _ => JArr js end);
                ("idempotency", JObj (map_Marshal (Idem s)))])
  end.

Definition snapshot_Unmarshal (j : json) : result error fsmSnapshot :=
  match j with
  | JNull => Ok (mkSnapshot [] ∅)
  | JObj ms =>
      match
        match jget "jobs" ms with
        | None | Some JNull => Ok []
        | Some (JArr js) => Unmarshal_list js
        | Some _ => Err errUnmarshal
        end,
        match jget "idempotency" ms with
        | None | Some JNull => Some ∅
        | Some (JObj kvs) => map_Unmarshal kvs ∅
        | Some _ => None
        end
      with
      | Ok recs, Some m => Ok (mkSnapshot recs m)
      | _, _ => Err errUnmarshal
      end
  | _ => Err errUnmarshal
  end.

Section operations.
Context {B : BoltAPI}.

(** [ft] are the faults of the one BoltDB transaction the command runs. *)
Definition Apply (ft : Faults) (data : json) (s : BoltStore.t) : fsmResponse * BoltStore.t :=
  match command_Unmarshal data with
  | Err e => (mkResponse false "" false (Some (wrapError "decode command: " e "")), s)
  | Ok cmd =>
      if String.eqb (Op cmd) cmdPut then
        let '(err, s') := BoltStore.putJobRaw ft (Record_ cmd) s in
        (mkResponse false "" false err, s')
      else if String.eqb (Op cmd) cmdCAS then
        let '((conflict, err), s') :=
          BoltStore.casPut ft (ID (Record_ cmd)) (ExpectedVersion cmd) (Record_ cmd) s in
        (mkResponse conflict "" false err, s')
      else if String.eqb (Op cmd) cmdSubmit then
        let '((jobID, created, err), s') :=
          BoltStore.submitRaw ft (Record_ cmd) (CmdIdempotencyKey cmd) s in
        (mkResponse false jobID created err, s')
      else
        (mkResponse false "" false
           (Some (errorString ("unknown fsm op " +:+ quoted (Op cmd)))), s)
  end.

Definition Snapshot (ft : Faults) (s : BoltStore.t) : result error fsmSnapshot :=
  match BoltStore.exportState ft s with
  | (_, Some e) => Err e
  | ((recs, idem), None) => Ok (mkSnapshot recs idem)
  end.

(** [sink] and [close] are the errors of the writes to the snapshot sink and
    of its [Close]. *)
Definition Persist (sink close : option error) (s : fsmSnapshot) : result error json :=
  match snapshot_Marshal s with
  | Err e => Err e
  | Ok j =>
      match sink, close with
      | Some e, _ => Err e
      | None, Some e => Err e
      | None, None => Ok j
      end
  end.

Definition Restore (ft : Faults) (ord : list string) (j : json) (s : BoltStore.t) :
    option error * BoltStore.t :=
  match snapshot_Unmarshal j with
  | Err e => (Some e, s)
  | Ok snap => BoltStore.importState ft ord (Jobs snap) (Idem snap) s
  end.

(** Replaying a log on a replica whose transactions do not fault. *)
Fixpoint replay (log : list json) (s : BoltStore.t) : BoltStore.t :=
  match log with
  | [] => s
  | data :: log => replay log (Apply no_faults data s).2
  end.

End operations.

(** ** The abstract machine *)

Definition a_apply (cmd : fsmCommand) (a : astore) : fsmResponse * astore :=
  let rec := Record_ cmd in
  if String.eqb (Op cmd) cmdPut then
    (mkResponse false "" false None, a_put (ID rec) rec a)
  else if String.eqb (Op cmd) cmdCAS then
    match a_jobs a !! ID rec with
    | None => (mkResponse false "" false (Some (BoltStore.errNotFound (ID rec))), a)
    | Some cur =>
        if (Version cur =? ExpectedVersion cmd)%Z
        then (mkResponse false "" false None, a_put (ID rec) rec a)
        else (mkResponse true "" false None, a)
    end
  else if String.eqb (Op cmd) cmdSubmit then
    match (if String.eqb (CmdIdempotencyKey cmd) "" then None
           else a_idem a !! CmdIdempotencyKey cmd) with
    | Some id => (mkResponse false id false None, a)
    | None =>
        (mkResponse false (ID rec) true None,
         a_index (CmdIdempotencyKey cmd) (ID rec) (a_put (ID rec) rec a))
    end
  else (mkResponse false "" false (Some (errorString ("unknown fsm op " +:+ quoted (Op cmd)))), a).

Fixpoint a_replay (log : list fsmCommand) (a : astore) : astore :=
  match log with
  | [] => a
  | cmd :: log => a_replay log (a_apply cmd a).2
  end.

(** ** Lemmas *)

Lemma command_roundtrip cmd data :
  command_Marshal cmd = Ok data → command_Unmarshal data = Ok cmd.
Proof.
  unfold command_Marshal. destruct (Marshal (Record_ cmd)) as [record|] eqn:Hm; [|done].
  intros E. assert (data = JObj (members (command_fields cmd record))) as -> by congruence.
  unfold command_Unmarshal. rewrite !jget_members.
  cbn [fget command_fields String.eqb Ascii.eqb Bool.eqb from_option id].
  rewrite (Marshal_Unmarshal _ _ Hm), dStr_omitStr, dNum_omitNum. by destruct cmd.
Qed.

Lemma Marshal_list_roundtrip recs js :
  Marshal_list recs = Ok js → Unmarshal_list js = Ok recs.
Proof.
  revert js. induction recs as [|r recs IH]; cbn; intros js; [by intros [= <-]|].
  destruct (Marshal r) as [j|] eqn:Hm; [|done].
  destruct (Marshal_list recs) as [js'|]; [|done]. cbn. intros [= <-]. cbn.
  by rewrite (Marshal_Unmarshal _ _ Hm), (IH js').
Qed.

Lemma map_Unmarshal_insert_all (kvs : list (string * string)) m :
  map_Unmarshal ((λ kv, (kv.1, JStr kv.2)) <$> kvs) m = Some (insert_all kvs m).
Proof. revert m. induction kvs as [|[k v] kvs IH]; intros m; cbn; [done|]. apply IH. Qed.

Lemma snapshot_roundtrip snap j :
  snapshot_Marshal snap = Ok j → snapshot_Unmarshal j = Ok snap.
Proof.
  unfold snapshot_Marshal. destruct (Marshal_list (Jobs snap)) as [js|] eqn:Hm; [|done].
  intros [= <-]. unfold snapshot_Unmarshal.
  cbn [jget String.eqb Ascii.eqb Bool.eqb]. unfold map_Marshal.
  rewrite map_Unmarshal_insert_all, (insert_all_perm _ (Idem snap))
    by apply merge_sort_Permutation.
  apply Marshal_list_roundtrip in Hm.
  destruct js; [cbn in Hm; injection Hm as E; rewrite E|rewrite Hm]; by destruct snap.
Qed.

#[local] Arguments BoltStore.view : simpl never.

Section lemmas.
Context {B : BoltAPI} {BL : BoltLaws B}.
Implicit Types (s : BoltStore.t) (cmd : fsmCommand).

(** The record of the command, and its index entry, are accepted by BoltDB. *)
Definition cmd_fits cmd : Prop :=
  BoltStore.storable (ID (Record_ cmd)) (Record_ cmd) ∧
  (CmdIdempotencyKey cmd ≠ "" → bFits (CmdIdempotencyKey cmd) (ID (Record_ cmd)) = true).

Lemma cmd_fits_Marshal cmd : cmd_fits cmd → ∃ data, command_Marshal cmd = Ok data.
Proof. intros [(buf & Hm & _) _]. unfold command_Marshal. rewrite Hm. eauto. Qed.

Lemma storable_put (b : bucket json) r :
  BoltStore.storable (ID r) r →
  ∃ buf b', Marshal r = Ok buf ∧ bPut b (ID r) buf = Ok b'.
Proof.
  intros (buf & Hm & Hf). exists buf.
  destruct (put_cases b (ID r) buf) as [(b' & ? & _)|(? & ? & ?)]; [eauto|congruence].
Qed.

Lemma putJobRaw_refines rec s :
  BoltStore.good s → BoltStore.storable (ID rec) rec →
  ∃ s', BoltStore.putJobRaw no_faults rec s = (None, s') ∧ BoltStore.good s' ∧
        BoltStore.view s' = a_put (ID rec) rec (BoltStore.view s).
Proof.
  intros Hg Hs. destruct (storable_put (BoltStore.jobs s) rec Hs) as (buf & b & Hm & Hp).
  unfold BoltStore.putJobRaw. rewrite Hm. cbn. rewrite Hp.
  destruct (BoltStore.put_good _ _ _ _ Hg Hm Hp). eauto.
Qed.

Lemma casPut_refines expected rec s :
  BoltStore.good s → BoltStore.storable (ID rec) rec →
  ∃ s' conflict err,
    BoltStore.casPut no_faults (ID rec) expected rec s = ((conflict, err), s') ∧
    BoltStore.good s' ∧
    match a_jobs (BoltStore.view s) !! ID rec with
    | None => conflict = false ∧ err = Some (BoltStore.errNotFound (ID rec)) ∧ s' = s
    | Some cur =>
        err = None ∧
        if (Version cur =? expected)%Z
        then conflict = false ∧ BoltStore.view s' = a_put (ID rec) rec (BoltStore.view s)
        else conflict = true ∧ s' = s
    end.
Proof.
  intros Hg Hs. unfold BoltStore.casPut, BoltStore.Update. cbn [begin_err commit_err no_faults].
  destruct (BoltStore.lookup_good s (ID rec) Hg) as [[-> Hv]|(raw & r & -> & -> & Hv & _)];
    rewrite Hv; [eauto 10|].
  destruct (Version r =? expected)%Z; cbn; [|eauto 10].
  destruct (storable_put (BoltStore.jobs s) rec Hs) as (buf & b & Hm & Hp).
  rewrite Hm, Hp. destruct (BoltStore.put_good _ _ _ _ Hg Hm Hp). eauto 10.
Qed.

Lemma insert_job_fits rec key s :
  BoltStore.storable (ID rec) rec → (key ≠ "" → bFits key (ID rec) = true) →
  ∃ s', BoltStore.insert_job rec key s = Ok s'.
Proof.
  intros Hs Hf. destruct (BoltStore.insert_job rec key s) as [s'|e] eqn:E; [eauto|].
  apply BoltStore.insert_job_fails in E. destruct Hs as (buf & Hm & Hfit).
  rewrite Hm in E. destruct E as [|[? ?]]; [congruence|]. naive_solver congruence.
Qed.

Lemma submitRaw_refines rec key s :
  BoltStore.good s → BoltStore.storable (ID rec) rec →
  (key ≠ "" → bFits key (ID rec) = true) →
  ∃ s' id created,
    BoltStore.submitRaw no_faults rec key s = ((id, created, None), s') ∧
    BoltStore.good s' ∧
    match (if String.eqb key "" then None else a_idem (BoltStore.view s) !! key) with
    | Some id' => id = id' ∧ created = false ∧ s' = s
    | None => id = ID rec ∧ created = true ∧
        BoltStore.view s' = a_index key (ID rec) (a_put (ID rec) rec (BoltStore.view s))
    end.
Proof.
  intros Hg Hs Hf. rewrite <- BoltStore.existing_job_view.
  unfold BoltStore.submitRaw, BoltStore.Update. cbn [begin_err commit_err no_faults].
  destruct (BoltStore.existing_job key s) as [id|]; [eauto 10|].
  destruct (insert_job_fits rec key s Hs Hf) as [s' Hi]. rewrite Hi.
  destruct (BoltStore.insert_job_good _ _ _ _ Hg Hi). eauto 10.
Qed.

(** One entry of the log: the replica steps as the abstract machine does. *)
Lemma Apply_refines cmd data s :
  BoltStore.good s → cmd_fits cmd → command_Marshal cmd = Ok data →
  BoltStore.good (Apply no_faults data s).2 ∧
  ((Apply no_faults data s).1, BoltStore.view (Apply no_faults data s).2) =
    a_apply cmd (BoltStore.view s).
Proof.
  intros Hg [Hs Hf] Hm. unfold Apply. rewrite (command_roundtrip _ _ Hm).
  unfold a_apply. destruct (String.eqb (Op cmd) cmdPut); [|destruct (String.eqb (Op cmd) cmdCAS);
    [|destruct (String.eqb (Op cmd) cmdSubmit); [|done]]].
  - destruct (putJobRaw_refines _ s Hg Hs) as (s' & -> & ? & <-). done.
  - destruct (casPut_refines (ExpectedVersion cmd) _ s Hg Hs) as (s' & cf & err & -> & ? & H).
    destruct (a_jobs _ !! _); [|by destruct H as (-> & -> & ->)].
    destruct H as [-> H]. destruct (_ =? _)%Z; destruct H as [-> H]; cbn; subst; by rewrite ?H.
  - destruct (submitRaw_refines _ _ s Hg Hs Hf) as (s' & id & cr & -> & ? & H).
    destruct (if String.eqb _ _ then _ else _); destruct H as (-> & -> & H); cbn;
      subst; by rewrite ?H.
Qed.

(** [log] is the wire form of [cmds]. *)
Definition encodes (cmds : list fsmCommand) (log : list json) : Prop :=
  Forall2 (λ cmd data, cmd_fits cmd ∧ command_Marshal cmd = Ok data) cmds log.

Lemma replay_refines cmds log s :
  BoltStore.good s → encodes cmds log →
  BoltStore.good (replay log s) ∧
  BoltStore.view (replay log s) = a_replay cmds (BoltStore.view s).
Proof.
  intros Hg Henc. revert s Hg. induction Henc as [|cmd data cmds log [Hf Hm] _ IH];
    intros s Hg; [done|]. cbn.
  destruct (Apply_refines cmd data s Hg Hf Hm) as [Hg' E].
  destruct (IH _ Hg') as [? ->]. split; [done|]. by rewrite <- E.
Qed.

Lemma a_replay_app l1 l2 a : a_replay (l1 ++ l2) a = a_replay l2 (a_replay l1 a).
Proof. revert a. induction l1; cbn; auto. Qed.

(** ** Snapshots *)

(** The records of a good store, as [exportState] lists them. *)
Lemma exportState_spec s :
  BoltStore.good s →
  ∃ recs,
    BoltStore.exportState no_faults s = ((recs, a_idem (BoltStore.view s)), None) ∧
    NoDup (ID <$> recs) ∧
    (∀ r, r ∈ recs ↔ a_jobs (BoltStore.view s) !! ID r = Some r) ∧
    Forall (λ r, BoltStore.storable (ID r) r) recs.
Proof.
  intros Hg. pose proof (BoltStore.scan_meets (no_faults, 0%Z) (λ _, true) s Hg) as Hl.
  unfold BoltStore.exportState, BoltStore.View in *. cbn [begin_err no_faults fst] in *.
  inversion Hl as [out Hin Hnd E|? ? [Hf|Hf]]; [|done..]. exists out.
  split; [done|]. split; [done|]. cbn [StoreSpec.view BoltStore.boltContract] in Hin.
  split; [intros r; rewrite Hin; tauto|].
  apply Forall_forall. intros r [_ Hr]%Hin.
  destruct (BoltStore.lookup_good s (ID r) Hg) as [[? ?]|(raw & r' & Hb & Hu & Hv & _)];
    [congruence|].
  assert (r' = r) as -> by congruence.
  destruct Hg as (Hdec & _). destruct (Hdec _ _ Hb) as (r' & ? & ?).
  by assert (r' = r) as -> by congruence.
Qed.

Lemma import_jobs_spec recs s :
  BoltStore.good s → Forall (λ r, BoltStore.storable (ID r) r) recs →
  ∃ s', BoltStore.import_jobs recs s = Ok s' ∧ BoltStore.good s' ∧
    a_jobs (BoltStore.view s') =
      insert_all ((λ r, (ID r, r)) <$> recs) (a_jobs (BoltStore.view s)) ∧
    a_idem (BoltStore.view s') = a_idem (BoltStore.view s).
Proof.
  intros Hg Hall. revert s Hg. induction Hall as [|r recs Hr _ IH]; intros s Hg; [eauto|].
  destruct (storable_put (BoltStore.jobs s) r Hr) as (buf & b & Hm & Hp). cbn.
  rewrite Hm, Hp. destruct (BoltStore.put_good _ _ _ _ Hg Hm Hp) as [Hg' Hv].
  destruct (IH _ Hg') as (s' & -> & ? & Hj & Hi). exists s'. rewrite Hj, Hi, Hv. done.
Qed.

Lemma import_idem_spec kvs s :
  BoltStore.good s →
  (∀ k v, (k, v) ∈ kvs → bFits k v = true ∧ is_Some (a_jobs (BoltStore.view s) !! v)) →
  ∃ s', BoltStore.import_idem kvs s = Ok s' ∧ BoltStore.good s' ∧
    a_jobs (BoltStore.view s') = a_jobs (BoltStore.view s) ∧
    a_idem (BoltStore.view s') = insert_all kvs (a_idem (BoltStore.view s)).
Proof.
  revert s. induction kvs as [|[k v] kvs IH]; intros s Hg Hall; [eauto|].
  destruct (Hall k v) as [Hf Hj]; [by left|]. cbn.
  destruct (put_cases (BoltStore.idempotency s) k v) as [(b & Hp & _)|(? & ? & ?)];
    [|congruence].
  rewrite Hp. pose proof (BoltStore.view_idem_put _ _ _ _ Hp) as Hvi.
  destruct (IH (BoltStore.set_idempotency b s)) as (s' & -> & ? & Hj' & Hi').
  - destruct Hg as (Hdec & Hfits & Hwf). split; [done|]. split.
    + intros k' v'. cbn. rewrite (get_put _ _ _ _ _ _ Hp). case_decide; [|by apply Hfits].
      intros [= <-]. by subst k'.
    + pose proof (a_index_wf k v _ Hwf Hj) as Hwf'. unfold a_index in Hwf'.
      destruct (String.eqb_spec k ""); [by apply fits_key in Hf|].
      unfold BoltStore.view in *. cbn in *. by rewrite Hvi.
  - intros k' v' Hin. apply (Hall k' v'). by right.
  - exists s'. split; [done|]. split; [done|]. rewrite Hj', Hi'.
    unfold BoltStore.view. cbn. by rewrite Hvi.
Qed.

Lemma cleared_good s :
  BoltStore.good (BoltStore.set_idempotency newBucket (BoltStore.set_jobs newBucket s)) ∧
  BoltStore.view (BoltStore.set_idempotency newBucket (BoltStore.set_jobs newBucket s)) = a_empty.
Proof.
  split; [apply BoltStore.empty_store_good|].
  unfold BoltStore.view, a_empty. cbn. f_equal; apply map_eq; intros k.
  - by rewrite BoltStore.lookup_view_jobs, get_new, lookup_empty.
  - by rewrite BoltStore.lookup_view_idem, get_new, lookup_empty.
Qed.

(** Exporting one replica and importing into another copies the state. *)
Lemma export_import s s0 ord recs idem :
  BoltStore.good s → BoltStore.exportState no_faults s = ((recs, idem), None) →
  ∃ s', BoltStore.importState no_faults ord recs idem s0 = (None, s') ∧
    BoltStore.good s' ∧ BoltStore.view s' = BoltStore.view s.
Proof.
  intros Hg Hex. destruct (exportState_spec s Hg) as (recs' & Hex' & Hnd & Hin & Hst).
  rewrite Hex in Hex'. simplify_eq.
  destruct (cleared_good s0) as [Hg0 Hv0].
  destruct (import_jobs_spec recs' _ Hg0 Hst) as (s1 & Hi1 & Hg1 & Hj1 & Hx1).
  rewrite Hv0 in Hj1, Hx1. cbn in Hj1, Hx1.
  assert (NoDup ((λ r, (ID r, r)) <$> recs').*1) as Hnd' by by rewrite <- list_fmap_compose.
  assert (a_jobs (BoltStore.view s1) = a_jobs (BoltStore.view s)) as Hjobs.
  { rewrite Hj1, insert_all_union by done. rewrite map_union_empty. apply map_eq. intros k.
    apply option_eq. intros r. rewrite <- elem_of_list_to_map by done.
    rewrite list_elem_of_fmap. split.
    - intros (r' & [= -> ->] & Hr). by apply Hin.
    - intros Hl. destruct Hg as (_ & _ & Hwf & _). pose proof (Hwf _ _ Hl) as <-.
      exists r. split; [done|]. by apply Hin. }
  destruct (import_idem_spec (range_map ord (a_idem (BoltStore.view s))) s1 Hg1)
    as (s2 & Hi2 & Hg2 & Hj2 & Hx2).
  { intros k v Hkv%elem_of_range_map. destruct Hg as (_ & Hf & _ & Hwf).
    destruct (Hwf _ _ Hkv) as [_ Hjob]. rewrite Hjobs. split; [|done]. apply Hf.
    by rewrite <- BoltStore.lookup_view_idem. }
  exists s2. unfold BoltStore.importState, BoltStore.Update. cbn [begin_err commit_err no_faults].
  rewrite Hi1, Hi2. split; [done|]. split; [done|].
  rewrite Hx1, (insert_all_perm _ (a_idem (BoltStore.view s))) in Hx2
    by apply range_map_perm.
  destruct (BoltStore.view s2), (BoltStore.view s); cbn in *. by rewrite Hx2, Hj2, Hjobs.
Qed.

Lemma Marshal_list_storable recs :
  Forall (λ r, BoltStore.storable (ID r) r) recs → ∃ js, Marshal_list recs = Ok js.
Proof.
  induction 1 as [|r recs (buf & Hm & _) _ [js IH]]; cbn; [eauto|].
  rewrite Hm, IH. cbn. eauto.
Qed.

(** The whole way of a snapshot from one replica to another. *)
Lemma snapshot_transfer s s0 ord :
  BoltStore.good s →
  ∃ snap j s', Snapshot no_faults s = Ok snap ∧ Persist None None snap = Ok j ∧
    Restore no_faults ord j s0 = (None, s') ∧
    BoltStore.good s' ∧ BoltStore.view s' = BoltStore.view s.
Proof.
  intros Hg. destruct (exportState_spec s Hg) as (recs & Hex & _ & _ & Hst).
  destruct (Marshal_list_storable _ Hst) as [js Hm].
  destruct (export_import s s0 ord _ _ Hg Hex) as (s' & Himp & Hg' & Hv).
  exists (mkSnapshot recs (a_idem (BoltStore.view s))). unfold Snapshot. rewrite Hex.
  unfold Persist. destruct (snapshot_Marshal _) as [j|e] eqn:Hj;
    [|unfold snapshot_Marshal in Hj; cbn in Hj; by rewrite Hm in Hj].
  exists j, s'. unfold Restore. rewrite (snapshot_roundtrip _ _ Hj). done.
Qed.

(** ** Properties *)

(** applying a log entry is a deterministic function of the command and of
    the abstract state: the replica's response and its new state are those of
    the abstract machine [a_apply] (unconditional put, versioned
    compare-and-swap, idempotency-checked insert), whatever the representation
    of its buckets. *)
Theorem fsm_refinement cmd data s :
  BoltStore.good s → cmd_fits cmd → command_Marshal cmd = Ok data →
  BoltStore.good (Apply no_faults data s).2 ∧
  ((Apply no_faults data s).1, BoltStore.view (Apply no_faults data s).2) =
    a_apply cmd (BoltStore.view s).
Proof. apply Apply_refines. Qed.

(** Replicas converge: two replicas that hold the same jobs and the same
    idempotency index hold the same jobs and index again after replaying the
    same log. *)
Theorem replicas_converge cmds log s1 s2 :
  BoltStore.good s1 → BoltStore.good s2 → BoltStore.view s1 = BoltStore.view s2 →
  encodes cmds log →
  BoltStore.view (replay log s1) = BoltStore.view (replay log s2).
Proof.
  intros Hg1 Hg2 Hv Henc.
  destruct (replay_refines _ _ _ Hg1 Henc) as [_ ->].
  destruct (replay_refines _ _ _ Hg2 Henc) as [_ ->]. by rewrite Hv.
Qed.

(** C22: a node that joins late and restores a snapshot taken after a prefix of
    the log, over whatever it held before, and then replays the rest of the log
    ends in the state of a node that replayed the whole log; taking, encoding
    and restoring the snapshot all succeed. *)
Theorem snapshot_catch_up cmds1 log1 cmds2 log2 s0 s_old ord :
  BoltStore.good s0 → encodes cmds1 log1 → encodes cmds2 log2 →
  ∃ snap j s', Snapshot no_faults (replay log1 s0) = Ok snap ∧
    Persist None None snap = Ok j ∧ Restore no_faults ord j s_old = (None, s') ∧
    BoltStore.view (replay log2 s') = BoltStore.view (replay (log1 ++ log2) s0).
Proof.
  intros Hg H1 H2. destruct (replay_refines _ _ _ Hg H1) as [Hg1 Hv1].
  destruct (snapshot_transfer _ s_old ord Hg1) as (snap & j & s' & ? & ? & ? & Hg' & Hv').
  exists snap, j, s'. do 3 (split; [done|]).
  destruct (replay_refines _ _ _ Hg' H2) as [_ ->].
  destruct (replay_refines (cmds1 ++ cmds2) (log1 ++ log2) s0 Hg) as [_ ->];
    [by apply Forall2_app|].
  by rewrite Hv', Hv1, a_replay_app.
Qed.

End lemmas.

(** ** Concrete runs *)

Module Examples.

Definition job1 : JobRecord :=
  mkJob "job-1" StatusPending "" "f" [Byte.x80] [] [] 0 0 "k" 1000 1000 0 "" 1.

Definition submit1 : fsmCommand := mkCommand cmdSubmit job1 0 "k".

Definition cas1 : fsmCommand :=
  mkCommand cmdCAS (set_Version 2 (set_Status StatusRunning job1)) 1 "".

Definition data (cmd : fsmCommand) : json :=
  match command_Marshal cmd with Ok j => j | Err _ => JNull end.

Lemma submit1_fits : cmd_fits submit1.
Proof. split; [eexists; split; [vm_compute; reflexivity|reflexivity]|reflexivity]. Qed.

Lemma cas1_fits : cmd_fits cas1.
Proof. split; [eexists; split; [vm_compute; reflexivity|reflexivity]|by intros []]. Qed.

Lemma encodes_submit1 cmds log : encodes cmds log → encodes (submit1 :: cmds) (data submit1 :: log).
Proof. intros. constructor; [|done]. split; [apply submit1_fits|reflexivity]. Qed.

Lemma encodes_cas1 cmds log : encodes cmds log → encodes (cas1 :: cmds) (data cas1 :: log).
Proof. intros. constructor; [|done]. split; [apply cas1_fits|reflexivity]. Qed.

Lemma fsm_refinement_witness :
  (Apply no_faults (data submit1) BoltStore.empty_store).1 = mkResponse false "job-1" true None.
Proof.
  pose proof (fsm_refinement submit1 (data submit1) BoltStore.empty_store
    BoltStore.empty_store_good submit1_fits eq_refl) as [_ E].
  apply (f_equal fst) in E. cbn [fst] in E. rewrite E. vm_compute. reflexivity.
Defined.

Lemma replicas_converge_witness :
  BoltStore.view (replay [data submit1; data cas1] BoltStore.empty_store) =
  BoltStore.view (replay [data submit1; data cas1]
    (BoltStore.mkBoltStore newBucket {[ "w" := JNull ]} newBucket)).
Proof.
  apply (replicas_converge [submit1; cas1]); [apply BoltStore.empty_store_good..|done|].
  apply encodes_submit1, encodes_cas1, Forall2_nil; done.
Defined.

Lemma snapshot_catch_up_witness :
  ∃ snap j s', Snapshot no_faults (replay [data submit1] BoltStore.empty_store) = Ok snap ∧
    Persist None None snap = Ok j ∧ Restore no_faults [] j BoltStore.empty_store = (None, s') ∧
    BoltStore.view (replay [data cas1] s') =
      BoltStore.view (replay ([data submit1] ++ [data cas1]) BoltStore.empty_store).
Proof.
  apply (snapshot_catch_up [submit1] _ [cas1]); [apply BoltStore.empty_store_good|..].
  - apply encodes_submit1, Forall2_nil; done.
  - apply encodes_cas1, Forall2_nil; done.
Defined.

End Examples.

End Fsm.
