(* ===== verification/RaftStore.v ===== *)
(** * RaftStore: the replicated store

    src/orchestrator/raft_store.go.  hashicorp/raft is a third-party package:
    what one call to it answers (the node's role, the leader's address, the
    outcome of [Apply]) is an argument, and so are the log entries of other
    callers that the local FSM applies while the call is under way.

    [Transition] is the optimistic read-mutate-CAS loop.  The proofs show that a
    successful run is one atomic transition at the moment its CAS is applied,
    whatever other commands were applied in between, and that on a leader whose
    calls are not interleaved RaftStore meets the same contract as BoltStore. *)

From stdpp Require Import strings gmap sorting prelude.
From S2P Require Import Prelude Types Json Bolt StoreSpec JobStore RaftFsm.

Module RaftStore.

Import Fsm.

Definition maxCASRetries : nat := 16.

Inductive RaftState : Type := Follower | Candidate | Leader | Shutdown.

#[export] Instance RaftState_eq_dec : EqDecision RaftState.
Proof. solve_decision. Defined.

(** The outcome of [raft.Apply]: the entry was committed and applied by the
    local FSM, or the future failed with [e]; in the second case the entry may
    have been applied nevertheless (lost leadership, timeout). *)
Inductive Outcome : Type :=
| Committed
| Failed (e : error) (applied : bool).

(** The environment of one write to the log. *)
Record RaftEnv : Type := mkEnv {
  State : RaftState;
  leaderAddr : string;
  leaderID : string;
  before : list json;        (* entries of other callers applied before ours *)
  outcome : Outcome;
  apply_ft : Faults;         (* faults of the transaction that applies ours *)
}.

Section operations.
Context {B : BoltAPI}.

Definition notLeaderErr (ev : RaftEnv) : error :=
  wrapError "" ErrNotLeader (" (leader: " +:+ leaderID ev +:+ " at " +:+ leaderAddr ev +:+ ")").

Definition noResponse : fsmResponse := mkResponse false "" false None.

Definition apply (ev : RaftEnv) (cmd : fsmCommand) (s : BoltStore.t) :
    (fsmResponse * option error) * BoltStore.t :=
  let s := replay (before ev) s in
  if negb (bool_decide (State ev = Leader)) then ((noResponse, Some (notLeaderErr ev)), s)
  else match command_Marshal cmd with
  | Err e => ((noResponse, Some e), s)
  | Ok buf =>
      match outcome ev with
      | Failed e applied =>
          let s := if applied then (Apply (apply_ft ev) buf s).2 else s in
          if errors_Is e raft_ErrNotLeader || errors_Is e raft_ErrLeadershipLost
          then ((noResponse, Some (notLeaderErr ev)), s)
          else ((noResponse, Some (wrapError "raft apply: " e "")), s)
      | Committed =>
          let '(resp, s) := Apply (apply_ft ev) buf s in
          ((resp, Err_ resp), s)
      end
  end.

(** [ft] are the faults of the local read. *)
Definition PutJob (ev : RaftEnv) (ft : Faults) (now : Z) (rec : JobRecord)
    (s : BoltStore.t) : option error * BoltStore.t :=
  let rec := stamp now rec in
  let version := match BoltStore.GetJob ft (ID rec) s with
                 | Ok (Some cur) => int64 (Version cur + 1)
                 | _ => 1%Z
                 end in
  let '((_, err), s) := apply ev (mkCommand cmdPut (set_Version version rec) 0 "") s in
  (err, s).

Definition SubmitWithIdempotency (ev : RaftEnv) (now : Z) (rec : JobRecord)
    (idempotencyKey : string) (s : BoltStore.t) :
    (string * bool * option error) * BoltStore.t :=
  let rec := set_Version 1 (stamp now (set_IdempotencyKey idempotencyKey rec)) in
  let '((resp, err), s) := apply ev (mkCommand cmdSubmit rec 0 idempotencyKey) s in
  match err with
  | Some e => (("", false, Some e), s)
  | None => ((JobID resp, Created resp, None), s)
  end.

(** One iteration of the CAS loop: the entries applied before the local read,
    the faults of the read, the clock, and the write. *)
Record Round : Type := mkRound {
  before_read : list json;
  read_ft : Faults;
  round_now : Z;
  round_env : RaftEnv;
}.

Definition gaveUp (jobID : string) : error :=
  errorString ("transition " +:+ jobID +:+ ": gave up after 16 CAS conflicts").

(** [for attempt := 0; attempt < maxCASRetries; attempt++], from [attempt] with
    [fuel] iterations left. *)
Fixpoint cas_loop {C} (fuel attempt : nat) (rounds : nat → Round) (jobID : string)
    (mutate : mutator C) (c : C) (s : BoltStore.t) :
    (bool * option error) * C * BoltStore.t :=
  match fuel with
  | O => ((false, Some (gaveUp jobID)), c, s)
  | S fuel =>
      let rd := rounds attempt in
      let s := replay (before_read rd) s in
      match BoltStore.GetJob (read_ft rd) jobID s with
      | Err e => ((false, Some e), c, s)
      | Ok None => ((false, Some (BoltStore.errNotFound jobID)), c, s)
      | Ok (Some rec) =>
          match mutate c rec with
          | (c', Err e) =>
              if bool_decide (e = ErrSkipTransition) then ((false, None), c', s)
              else ((false, Some e), c', s)
          | (c', Ok cur) =>
              let expected := Version rec in
              let cur := set_Version (int64 (expected + 1)) (stamp (round_now rd) cur) in
              match apply (round_env rd) (mkCommand cmdCAS cur expected "") s with
              | ((_, Some e), s') => ((false, Some e), c', s')
              | ((resp, None), s') =>
                  if Conflict resp
                  then cas_loop fuel (S attempt) rounds jobID mutate c' s'
                  else ((true, None), c', s')
              end
          end
      end
  end.

Definition Transition {C} (rounds : nat → Round) (jobID : string) (mutate : mutator C)
    (c : C) (s : BoltStore.t) : (bool * option error) * C * BoltStore.t :=
  cas_loop maxCASRetries 0 rounds jobID mutate c s.

(** The read path is the local store's. *)
Definition GetJob (ft : Faults) (id : string) (s : BoltStore.t) : result error (option JobRecord) :=
  BoltStore.GetJob ft id s.

Definition ListUnfinished (ft : Faults) (s : BoltStore.t) : list JobRecord * option error :=
  BoltStore.ListUnfinished ft s.

Definition ListRunningOnWorker (ft : Faults) (workerID : string) (s : BoltStore.t) :
    list JobRecord * option error :=
  BoltStore.ListRunningOnWorker ft workerID s.

Definition Ping (st : RaftState) (ft : Faults) (s : BoltStore.t) : option error :=
  if bool_decide (st = Shutdown) then Some (errorString "raft node is shut down")
  else BoltStore.Ping ft s.

(** [shutdownErr] and [closeErr] are what [raft.Shutdown] and [db.Close] return. *)
Definition Close (shutdownErr closeErr : option error) : option error :=
  match shutdownErr with Some e => Some e | None => closeErr end.

Definition IsLeader (st : RaftState) : bool := bool_decide (st = Leader).

(** [addVoter] is the outcome of [raft.AddVoter]. *)
Definition Join (ev : RaftEnv) (addVoter : option error) : option error :=
  if negb (IsLeader (State ev)) then Some (notLeaderErr ev) else addVoter.

End operations.

(** ** The rely condition on interleaved commands

    What RaftStore itself writes to the log for other calls: compare-and-swaps
    that increment the version they expect, and inserts of other jobs. *)

Definition protocol (jobID : string) (cmd : fsmCommand) : Prop :=
  (Op cmd = cmdCAS ∧ Version (Record_ cmd) = (ExpectedVersion cmd + 1)%Z) ∨
  (Op cmd = cmdSubmit ∧ ID (Record_ cmd) ≠ jobID).

Section proofs.
Context {B : BoltAPI} {BL : BoltLaws B}.
Implicit Types (s : BoltStore.t).

(** [s'] is [s] after some entries of other callers. *)
Definition interleaved (jobID : string) s s' : Prop :=
  ∃ cmds log, encodes cmds log ∧ Forall (protocol jobID) cmds ∧ s' = replay log s.

(** The entries a round names are such entries. *)
Definition round_ok (jobID : string) (rd : Round) : Prop :=
  (∀ s, interleaved jobID s (replay (before_read rd) s)) ∧
  (∀ s, interleaved jobID s (replay (before (round_env rd)) s)).

Lemma replay_app (l1 l2 : list json) s : replay (l1 ++ l2) s = replay l2 (replay l1 s).
Proof. revert s. induction l1; cbn; auto. Qed.

Lemma interleaved_refl id s : interleaved id s s.
Proof. exists [], []. repeat split; constructor. Qed.

Lemma interleaved_trans id s1 s2 s3 :
  interleaved id s1 s2 → interleaved id s2 s3 → interleaved id s1 s3.
Proof.
  intros (c1 & l1 & ? & ? & ->) (c2 & l2 & ? & ? & ->). exists (c1 ++ c2), (l1 ++ l2).
  split; [by apply Forall2_app|]. split; [by apply Forall_app|]. by rewrite replay_app.
Qed.

Lemma interleaved_good id s s' :
  interleaved id s s' → BoltStore.good s → BoltStore.good s'.
Proof. intros (c & l & He & _ & ->) Hg. by destruct (replay_refines _ _ _ Hg He). Qed.

(** Versions only grow, and a version determines the record. *)
Lemma a_apply_version id cmd a r :
  protocol id cmd → a_jobs a !! id = Some r →
  ∃ r2, a_jobs (a_apply cmd a).2 !! id = Some r2 ∧ (Version r ≤ Version r2)%Z ∧
        (Version r2 = Version r → r2 = r).
Proof.
  intros Hp Hl. unfold a_apply. destruct Hp as [[-> Hv]|[-> Hid]]; cbn -[a_put a_index].
  - destruct (a_jobs a !! ID (Record_ cmd)) as [cur|] eqn:Hc; cbn -[a_put]; [|by exists r].
    destruct (Z.eqb_spec (Version cur) (ExpectedVersion cmd)) as [He|]; [|by exists r].
    cbn. rewrite lookup_insert. case_decide as Hd; [|by exists r].
    exists (Record_ cmd). assert (cur = r) as -> by (rewrite Hd in Hc; congruence).
    split; [done|]. split; [lia|]. intros. exfalso. lia.
  - exists r. destruct (if String.eqb _ _ then _ else _); cbn -[a_put a_index]; [done|].
    unfold a_index. destruct (String.eqb _ _); cbn; by rewrite lookup_insert_ne.
Qed.

Lemma a_replay_version id cmds a r :
  Forall (protocol id) cmds → a_jobs a !! id = Some r →
  ∃ r2, a_jobs (a_replay cmds a) !! id = Some r2 ∧ (Version r ≤ Version r2)%Z ∧
        (Version r2 = Version r → r2 = r).
Proof.
  intros Hp. revert a r. induction Hp as [|cmd cmds Hc _ IH]; intros a r Hl; [by exists r|].
  destruct (a_apply_version _ _ _ _ Hc Hl) as (r1 & Hl1 & ? & H1).
  destruct (IH _ _ Hl1) as (r2 & Hl2 & ? & H2). exists r2. repeat split; [done|lia|].
  intros ?. rewrite <- H1 by lia. apply H2. lia.
Qed.

Lemma interleaved_version id s s' r :
  BoltStore.good s → interleaved id s s' → a_jobs (BoltStore.view s) !! id = Some r →
  ∃ r2, a_jobs (BoltStore.view s') !! id = Some r2 ∧ (Version r ≤ Version r2)%Z ∧
        (Version r2 = Version r → r2 = r).
Proof.
  intros Hg (cmds & log & He & Hp & ->) Hl. destruct (replay_refines _ _ _ Hg He) as [_ ->].
  by apply a_replay_version.
Qed.

(** A record found again with the same version is the same record. *)
Lemma interleaved_same id s s' r r2 :
  BoltStore.good s → interleaved id s s' → a_jobs (BoltStore.view s) !! id = Some r →
  a_jobs (BoltStore.view s') !! id = Some r2 → Version r2 = Version r → r2 = r.
Proof.
  intros Hg Hi Hl Hl2. destruct (interleaved_version _ _ _ _ Hg Hi Hl) as (r3 & Hl3 & _ & E).
  rewrite Hl2 in Hl3. simplify_eq. exact E.
Qed.

Lemma mutated_ID {C} (mutate : mutator C) c c' r r' now v :
  keeps_ID mutate → mutate c r = (c', Ok r') → ID (set_Version v (stamp now r')) = ID r.
Proof.
  intros Hk Hm. cbn. destruct (stamp_fields now r') as (_ & -> & _). by eapply Hk.
Qed.

Definition ft_faulty (ft : Faults) : Prop := begin_err ft ≠ None ∨ commit_err ft ≠ None.

(** The record does not encode, or its encoding does not fit under its ID. *)
Definition oversized (r : JobRecord) : Prop :=
  match Marshal r with Err _ => True | Ok buf => bFits (ID r) buf = false end.

(** Applying a CAS entry under any faults: it writes, or it leaves the store
    alone and reports a conflict or, for a reason, an error. *)
Lemma Apply_cas ft rec expected buf s :
  BoltStore.good s → command_Marshal (mkCommand cmdCAS rec expected "") = Ok buf →
  BoltStore.good (Apply ft buf s).2 ∧
  ((∃ cur, a_jobs (BoltStore.view s) !! ID rec = Some cur ∧ Version cur = expected ∧
      (Apply ft buf s).1 = noResponse ∧
      BoltStore.view (Apply ft buf s).2 = a_put (ID rec) rec (BoltStore.view s)) ∨
   (∃ cur, a_jobs (BoltStore.view s) !! ID rec = Some cur ∧ Version cur ≠ expected ∧
      Apply ft buf s = (mkResponse true "" false None, s)) ∨
   ((Apply ft buf s).2 = s ∧ is_Some (Err_ (Apply ft buf s).1) ∧
      (ft_faulty ft ∨ a_jobs (BoltStore.view s) !! ID rec = None ∨ oversized rec))).
Proof.
  intros Hg Hm. unfold Apply, ft_faulty, oversized. rewrite (command_roundtrip _ _ Hm).
  cbn -[BoltStore.casPut BoltStore.view a_put]. unfold BoltStore.casPut, BoltStore.Update.
  destruct (begin_err ft) as [e|].
  { split; [done|]. right; right. split; [done|]. split; [by eexists|]. by left; left. }
  destruct (BoltStore.lookup_good s (ID rec) Hg) as [[-> Hv]|(raw & r & -> & -> & Hv & _)].
  { split; [done|]. right; right. split; [done|]. split; [by eexists|]. by right; left. }
  destruct (Z.eqb_spec (Version r) expected); cbn -[BoltStore.view a_put].
  2:{ destruct (commit_err ft) as [e|]; (split; [done|]); right; [right|left; by exists r].
      split; [done|]. split; [by eexists|]. by left; right. }
  destruct (Marshal rec) as [b|] eqn:Hr.
  2:{ split; [done|]. right; right. split; [done|]. split; [by eexists|]. by right; right. }
  destruct (put_cases (BoltStore.jobs s) (ID rec) b) as [(b' & Hp & _)|(? & -> & ?)].
  2:{ split; [done|]. right; right. split; [done|]. split; [by eexists|]. by right; right. }
  rewrite Hp. destruct (commit_err ft) as [ec|].
  { split; [done|]. right; right. split; [done|]. split; [by eexists|]. by left; right. }
  destruct (BoltStore.put_good _ _ _ _ Hg Hr Hp). split; [done|]. left. by exists r.
Qed.

(** Earlier runs of the mutator, whose writes lost the race. *)
Definition reruns {C} (mutate : mutator C) (c c' : C) : Prop :=
  ∃ r r', mutate c r = (c', Ok r').

(** What a call of [Transition] amounts to: one atomic step at some moment
    between other callers' entries. *)
Inductive linearized {C} (rounds : nat → Round) (id : string) (mutate : mutator C) (c : C) s :
    (bool * option error) * C * BoltStore.t → Prop :=
| lin_write s_at c_at r c' r' now s' b err :
    interleaved id s s_at → rtc (reruns mutate) c c_at →
    a_jobs (BoltStore.view s_at) !! id = Some r →
    mutate c_at r = (c', Ok r') →
    BoltStore.view s' =
      a_put id (set_Version (int64 (Version r + 1)) (stamp now r')) (BoltStore.view s_at) →
    (b = true ∧ err = None) ∨
    (b = false ∧ is_Some err ∧ ∃ i e, outcome (round_env (rounds i)) = Failed e true) →
    linearized rounds id mutate c s ((b, err), c', s')
| lin_skip c_at r c' s' :
    interleaved id s s' → rtc (reruns mutate) c c_at →
    a_jobs (BoltStore.view s') !! id = Some r →
    mutate c_at r = (c', Err ErrSkipTransition) →
    linearized rounds id mutate c s ((false, None), c', s')
| lin_error e c' s' :
    interleaved id s s' → linearized rounds id mutate c s ((false, Some e), c', s').

Lemma linearized_later {C} rounds id (mutate : mutator C) c c1 s s1 res :
  interleaved id s s1 → reruns mutate c c1 →
  linearized rounds id mutate c1 s1 res → linearized rounds id mutate c s res.
Proof.
  intros Hi Hr. destruct 1.
  - eapply lin_write; [by eapply interleaved_trans|by eapply rtc_l|done..].
  - eapply lin_skip; [by eapply interleaved_trans|by eapply rtc_l|done..].
  - eapply lin_error. by eapply interleaved_trans.
Qed.

Lemma cas_loop_linearized {C} fuel attempt rounds id (mutate : mutator C) c s :
  BoltStore.good s → keeps_ID mutate → (∀ i, round_ok id (rounds i)) →
  linearized rounds id mutate c s (cas_loop fuel attempt rounds id mutate c s) ∧
  BoltStore.good (cas_loop fuel attempt rounds id mutate c s).2.
Proof.
  intros Hg Hk Hrd. revert attempt c s Hg.
  induction fuel as [|fuel IH]; intros attempt c s Hg.
  { split; [|done]. apply lin_error, interleaved_refl. }
  cbn [cas_loop]. destruct (Hrd attempt) as [Hr1 Hr2].
  specialize (Hr1 s). set (s1 := replay (before_read (rounds attempt)) s) in *.
  assert (BoltStore.good s1) as Hg1 by eauto using interleaved_good.
  pose proof (BoltStore.GetJob_meets (read_ft (rounds attempt), 0%Z) id s1 Hg1) as Hget.
  cbn [fst] in Hget. destruct Hget as [|e Hf]; [|split; [by apply lin_error|done]].
  cbn [StoreSpec.view BoltStore.boltContract].
  destruct (a_jobs (BoltStore.view s1) !! id) as [r|] eqn:Hl;
    [|split; [by apply lin_error|done]].
  assert (ID r = id) as HID by (destruct Hg1 as (_ & _ & Hwf & _); by apply Hwf).
  destruct (mutate c r) as [c1 [r'|e]] eqn:Hmut.
  2:{ case_bool_decide; [subst e|]; (split; [|done]);
      [by eapply lin_skip; [..|done]|by apply lin_error]. }
  set (cur := set_Version (int64 (Version r + 1)) (stamp (round_now (rounds attempt)) r')).
  assert (ID cur = id) as HIDc by (rewrite <- HID; by eapply mutated_ID).
  specialize (Hr2 s1). unfold apply.
  set (s2 := replay (before (round_env (rounds attempt))) s1) in *.
  assert (BoltStore.good s2) as Hg2 by eauto using interleaved_good.
  pose proof (interleaved_trans _ _ _ _ Hr1 Hr2) as Hr12.
  destruct (negb _); [split; [by apply lin_error|done]|].
  destruct (command_Marshal _) as [buf|e] eqn:Hm; [|split; [by apply lin_error|done]].
  destruct (Apply_cas (apply_ft (round_env (rounds attempt))) cur (Version r) buf s2 Hg2 Hm)
    as [Hg3 Hcas].
  rewrite HIDc in Hcas.
  pose proof (λ r2, interleaved_same id s1 s2 r r2 Hg1 Hr2 Hl) as Huniq.
  destruct (outcome (round_env (rounds attempt))) as [|e [|]] eqn:Hout.
  - destruct (Apply _ buf s2) as [resp s3]. cbn [fst snd] in *.
    destruct Hcas as [(r2 & Hl2 & Hv2 & -> & Hv3)|[(r2 & _ & _ & [= -> ->])|(-> & [e ->] & _)]].
    + cbn. split; [|done]. rewrite (Huniq _ Hl2 Hv2) in Hl2.
      eapply lin_write; [done|done|done|done|done|by left].
    + destruct (IH (S attempt) c1 s2 Hg2) as [Hlin ?]. split; [|done].
      eapply linearized_later; [done| |done]. by exists r, r'.
    + split; [by apply lin_error|done].
  - assert (linearized rounds id mutate c s
      ((false, Some (wrapError "raft apply: " e "")), c1, (Apply (apply_ft (round_env (rounds attempt))) buf s2).2) ∧
      linearized rounds id mutate c s
      ((false, Some (notLeaderErr (round_env (rounds attempt)))), c1, (Apply (apply_ft (round_env (rounds attempt))) buf s2).2)) as [? ?].
    { destruct Hcas as [(r2 & Hl2 & Hv2 & _ & Hv3)|[(r2 & _ & _ & ->)|(-> & _)]];
        [|by split; apply lin_error..].
      rewrite (Huniq _ Hl2 Hv2) in Hl2.
      split; (eapply lin_write; [done|done|done|done|done|right; eauto 10]). }
    by destruct (_ || _).
  - destruct (_ || _); (split; [by apply lin_error|done]).
Qed.

(** ** A leader whose calls are not interleaved *)

(** The environment of one call when nothing else reaches the log meanwhile. *)
Record Calm : Type := mkCalm {
  calm_state : RaftState;
  calm_addr : string;
  calm_leader : string;
  calm_outcome : Outcome;
  calm_apply : Faults;
  calm_read : Faults;
  calm_now : Z;
}.

Definition calm_env (o : Calm) : RaftEnv :=
  mkEnv (calm_state o) (calm_addr o) (calm_leader o) [] (calm_outcome o) (calm_apply o).

Definition calm_round (o : Calm) : Round :=
  mkRound [] (calm_read o) (calm_now o) (calm_env o).

Definition calm_faulty (o : Calm) : Prop :=
  calm_state o ≠ Leader ∨ calm_outcome o ≠ Committed ∨
  ft_faulty (calm_apply o) ∨ ft_faulty (calm_read o).

(** The stamped record, at some version, does not encode or does not fit. *)
Definition calm_unwritable (o : Calm) (id : string) (r : JobRecord) : Prop :=
  ∃ v, match Marshal (set_Version v (stamp (calm_now o) r)) with
       | Err _ => True
       | Ok buf => bFits id buf = false ∨
                   (IdempotencyKey r ≠ "" ∧ bFits (IdempotencyKey r) (ID r) = false)
       end.

Definition raftContract : Contract BoltStore.t Calm :=
  mkContract _ _ BoltStore.view BoltStore.good calm_faulty
    (λ o, ∃ e, calm_outcome o = Failed e true) calm_unwritable
    (λ o r r', ∃ v, r' = set_Version v (stamp (calm_now o) r)).

#[export] Instance raft_api : StoreAPI := {
  store := BoltStore.t;
  senv := Calm;
  StoreSpec.PutJob o := PutJob (calm_env o) (calm_read o) (calm_now o);
  StoreSpec.GetJob o := GetJob (calm_read o);
  StoreSpec.Transition C o := Transition (λ _, calm_round o);
  StoreSpec.SubmitWithIdempotency o := SubmitWithIdempotency (calm_env o) (calm_now o);
  StoreSpec.ListUnfinished o := ListUnfinished (calm_read o);
  StoreSpec.ListRunningOnWorker o := ListRunningOnWorker (calm_read o);
  StoreSpec.Ping o := Ping (calm_state o) (calm_read o);
}.

Lemma ft_cases ft : ft = no_faults ∨ ft_faulty ft.
Proof.
  destruct ft as [[e|] [e'|]]; [right; by left..|right; by right|by left].
Qed.

Lemma Update_faulty {A} ft s (a0 : A) fn :
  ft_faulty ft → ∃ a e, BoltStore.Update ft s a0 fn = (a, Some e, s).
Proof.
  intros Hf. unfold BoltStore.Update.
  destruct (begin_err ft) eqn:Hb; [eauto|]. destruct (fn s) as [a [s'|e]]; [|eauto].
  destruct (commit_err ft) eqn:Hc; [eauto|]. by destruct Hf.
Qed.

(** A faulty transaction leaves the store alone and reports an error. *)
Lemma Apply_faulty ft buf s :
  ft_faulty ft → (Apply ft buf s).2 = s ∧ is_Some (Err_ (Apply ft buf s).1).
Proof.
  intros Hf. unfold Apply. destruct (command_Unmarshal buf) as [cmd|]; [|by eauto].
  destruct (String.eqb _ cmdPut); [|destruct (String.eqb _ cmdCAS);
    [|destruct (String.eqb _ cmdSubmit); [|by eauto]]].
  - unfold BoltStore.putJobRaw. destruct (Marshal _); [|by eauto].
    match goal with |- context [BoltStore.Update ft s ?a ?f] =>
      destruct (Update_faulty ft s a f Hf) as (? & ? & ->) end. by eauto.
  - unfold BoltStore.casPut.
    match goal with |- context [BoltStore.Update ft s ?a ?f] =>
      destruct (Update_faulty ft s a f Hf) as (? & ? & ->) end. by eauto.
  - unfold BoltStore.submitRaw.
    match goal with |- context [BoltStore.Update ft s ?a ?f] =>
      destruct (Update_faulty ft s a f Hf) as ([? ?] & ? & ->) end. by eauto.
Qed.

(** [apply] without interleaved entries: refused, or failed with or without the
    entry applied, or applied. *)
Lemma apply_calm o cmd s :
  (∃ resp e, apply (calm_env o) cmd s = ((resp, Some e), s) ∧
     (calm_faulty o ∨ is_Ok (command_Marshal cmd) = false)) ∨
  (∃ buf, command_Marshal cmd = Ok buf ∧
     ((∃ e, apply (calm_env o) cmd s = ((noResponse, Some e), (Apply (calm_apply o) buf s).2) ∧
        calm_faulty o ∧ ∃ e', calm_outcome o = Failed e' true) ∨
      apply (calm_env o) cmd s =
        (((Apply (calm_apply o) buf s).1, Err_ (Apply (calm_apply o) buf s).1),
         (Apply (calm_apply o) buf s).2))).
Proof.
  unfold apply, calm_env, calm_faulty. cbn -[command_Marshal Apply].
  case_bool_decide as Hst; cbn -[command_Marshal Apply];
    [|left; do 2 eexists; split; [done|]; by left; left].
  destruct (command_Marshal cmd) as [buf|e] eqn:Hm;
    [|left; do 2 eexists; split; [done|]; by right].
  destruct (calm_outcome o) as [|e [|]] eqn:Ho.
  - right. exists buf. split; [done|]. right. by destruct (Apply _ buf s).
  - right. exists buf. split; [done|]. left.
    destruct (_ || _); eexists; (split; [done|]); (split; [by right; left|eauto]).
  - left. destruct (_ || _); do 2 eexists; (split; [done|]); left; right; by left.
Qed.

Lemma command_Marshal_rec cmd :
  is_Ok (command_Marshal cmd) = is_Ok (Marshal (Record_ cmd)).
Proof. unfold command_Marshal. by destruct (Marshal _). Qed.

Lemma Transition_meets_raft C o id (mutate : mutator C) c s :
  BoltStore.good s → keeps_ID mutate →
  transition_spec raftContract o id mutate c s (Transition (λ _, calm_round o) id mutate c s).
Proof.
  intros Hg Hk. unfold Transition. change maxCASRetries with (S 15). cbn [cas_loop].
  cbn [before_read calm_round replay read_ft round_now round_env].
  pose proof (BoltStore.GetJob_meets (calm_read o, 0%Z) id s Hg) as Hget.
  cbn [fst] in Hget. destruct Hget as [|e Hf];
    [|eapply transition_fault; left; by right; right; right].
  cbn [StoreSpec.view BoltStore.boltContract].
  destruct (a_jobs (BoltStore.view s) !! id) as [r|] eqn:Hl; [|by eapply transition_missing].
  assert (ID r = id) as HID by (destruct Hg as (_ & _ & Hwf & _); by apply Hwf).
  destruct (mutate c r) as [c1 [r'|e]] eqn:Hmut.
  2:{ case_bool_decide; [subst e; by eapply transition_skip|by eapply transition_mutator]. }
  set (cur := set_Version (int64 (Version r + 1)) (stamp (calm_now o) r')).
  assert (ID cur = id) as HIDc.
  { subst cur. cbn. destruct (stamp_fields (calm_now o) r') as (_ & -> & _).
    rewrite <- HID. by eapply Hk. }
  destruct (apply_calm o (mkCommand cmdCAS cur (Version r) "") s)
    as [(resp & e & -> & Hwhy)|(buf & Hm & Hwhy)].
  { eapply transition_fault. destruct Hwhy as [|Hwhy]; [by left|right].
    exists r, r'. split; [done|]. split; [done|]. exists (int64 (Version r + 1)).
    rewrite command_Marshal_rec in Hwhy. cbn in Hwhy. fold cur. by destruct (Marshal cur). }
  destruct (Apply_cas (calm_apply o) cur (Version r) buf s Hg Hm) as [Hg' Hcas].
  rewrite HIDc in Hcas.
  destruct Hwhy as [(e & -> & Hf & Ha)| ->].
  { destruct Hcas as [(r2 & _ & _ & _ & Hv)|[(r2 & _ & _ & ->)|(-> & _)]];
      [|eapply transition_fault; by left..].
    eapply transition_ambiguous; [done|done|done|done| |done|done]. by eexists. }
  destruct Hcas as [(r2 & _ & _ & -> & Hv)|[(r2 & Hl2 & Hne & _)|(Hs & [e He] & Hwhy)]].
  - cbn. eapply transition_ok; [done|done| |done|done]. by eexists.
  - congruence.
  - rewrite Hs, He. eapply transition_fault. destruct Hwhy as [Hf|[?|Hw]]; [|congruence|right].
    { left. by right; right; left. }
    exists r, r'. split; [done|]. split; [done|]. exists (int64 (Version r + 1)). fold cur.
    unfold oversized in Hw. rewrite HIDc in Hw. destruct (Marshal cur); [by left|done].
Qed.

(** Applying a submit entry under any faults. *)
Lemma Apply_submit ft rec key buf s :
  BoltStore.good s → command_Marshal (mkCommand cmdSubmit rec 0 key) = Ok buf →
  BoltStore.good (Apply ft buf s).2 ∧
  ((∃ id, key ≠ "" ∧ a_idem (BoltStore.view s) !! key = Some id ∧
      Apply ft buf s = (mkResponse false id false None, s)) ∨
   ((key = "" ∨ a_idem (BoltStore.view s) !! key = None) ∧
      (Apply ft buf s).1 = mkResponse false (ID rec) true None ∧
      BoltStore.view (Apply ft buf s).2 =
        a_index key (ID rec) (a_put (ID rec) rec (BoltStore.view s))) ∨
   ((Apply ft buf s).2 = s ∧ is_Some (Err_ (Apply ft buf s).1) ∧
      (ft_faulty ft ∨ match Marshal rec with
        | Err _ => True
        | Ok b => bFits (ID rec) b = false ∨ (key ≠ "" ∧ bFits key (ID rec) = false)
        end))).
Proof.
  intros Hg Hm. destruct (ft_cases ft) as [->|Hf].
  2:{ destruct (Apply_faulty ft buf s Hf) as [E He]. rewrite E. split; [done|]. right; right.
      split; [done|]. split; [done|]. by left. }
  unfold Apply. rewrite (command_roundtrip _ _ Hm).
  cbn -[BoltStore.submitRaw BoltStore.view a_put a_index].
  unfold BoltStore.submitRaw, BoltStore.Update. cbn [begin_err commit_err no_faults].
  destruct (BoltStore.existing_job key s) as [id|] eqn:Hex;
    rewrite BoltStore.existing_job_view in Hex.
  { split; [done|]. left. exists id. destruct (String.eqb_spec key ""); [done|]. by repeat split. }
  assert (key = "" ∨ a_idem (BoltStore.view s) !! key = None) as Hnew
    by (destruct (String.eqb_spec key ""); auto).
  destruct (BoltStore.insert_job rec key s) as [s'|e] eqn:Hi.
  - destruct (BoltStore.insert_job_good _ _ _ _ Hg Hi). split; [done|]. right; left. done.
  - apply BoltStore.insert_job_fails in Hi. split; [done|]. right; right.
    split; [done|]. split; [by eexists|]. by right.
Qed.

Lemma Submit_meets_raft o rec key s :
  BoltStore.good s →
  submit_spec raftContract o rec key s (SubmitWithIdempotency (calm_env o) (calm_now o) rec key s).
Proof.
  intros Hg. unfold SubmitWithIdempotency.
  set (rec' := set_Version 1 (stamp (calm_now o) (set_IdempotencyKey key rec))).
  assert (ID rec' = ID rec) as HID.
  { destruct (stamp_fields (calm_now o) (set_IdempotencyKey key rec)) as (_ & H & _). exact H. }
  destruct (apply_calm o (mkCommand cmdSubmit rec' 0 key) s)
    as [(resp & e & -> & Hwhy)|(buf & Hm & Hwhy)].
  { eapply submit_fault. destruct Hwhy as [|Hwhy]; [by left|right].
    exists 1%Z. rewrite command_Marshal_rec in Hwhy. cbn in Hwhy. fold rec'.
    by destruct (Marshal rec'). }
  destruct (Apply_submit (calm_apply o) rec' key buf s Hg Hm) as [Hg' Hsub].
  rewrite HID in Hsub. destruct Hwhy as [(e & -> & Hf & Ha)| ->].
  { destruct Hsub as [(id & _ & _ & ->)|[(Hnew & _ & Hv)|(-> & _)]];
      [eapply submit_fault; by left| |eapply submit_fault; by left].
    eapply submit_ambiguous; [done|done|done| |done|done]. by eexists. }
  destruct Hsub as [(id & Hk & Hi & ->)|[(Hnew & -> & Hv)|(-> & [e ->] & Hwhy)]].
  - by eapply submit_existing.
  - cbn. eapply submit_created; [done| |done|done]. by eexists.
  - eapply submit_fault. destruct Hwhy as [Hf|Hw]; [left; by right; right; left|right].
    exists 1%Z. fold rec'. destruct (Marshal rec'); done.
Qed.

(** Applying a put entry under any faults. *)
Lemma Apply_put ft rec buf s :
  BoltStore.good s → command_Marshal (mkCommand cmdPut rec 0 "") = Ok buf →
  BoltStore.good (Apply ft buf s).2 ∧
  (((Apply ft buf s).1 = noResponse ∧
      BoltStore.view (Apply ft buf s).2 = a_put (ID rec) rec (BoltStore.view s)) ∨
   ((Apply ft buf s).2 = s ∧ is_Some (Err_ (Apply ft buf s).1) ∧
      (ft_faulty ft ∨ oversized rec))).
Proof.
  intros Hg Hm. destruct (ft_cases ft) as [->|Hf].
  2:{ destruct (Apply_faulty ft buf s Hf) as [E He]. rewrite E. split; [done|]. right.
      split; [done|]. split; [done|]. by left. }
  unfold Apply, oversized. rewrite (command_roundtrip _ _ Hm).
  cbn -[BoltStore.putJobRaw BoltStore.view a_put].
  unfold BoltStore.putJobRaw, BoltStore.Update. cbn [begin_err commit_err no_faults].
  destruct (Marshal rec) as [b|] eqn:Hr.
  2:{ split; [done|]. right. split; [done|]. split; [by eexists|]. by right. }
  destruct (put_cases (BoltStore.jobs s) (ID rec) b) as [(b' & Hp & _)|(? & -> & ?)].
  2:{ split; [done|]. right. split; [done|]. split; [by eexists|]. by right. }
  rewrite Hp. destruct (BoltStore.put_good _ _ _ _ Hg Hr Hp). split; [done|]. by left.
Qed.

Lemma PutJob_meets_raft o rec s :
  BoltStore.good s →
  put_spec raftContract o rec s (PutJob (calm_env o) (calm_read o) (calm_now o) rec s).
Proof.
  intros Hg. unfold PutJob.
  match goal with |- context [set_Version ?x _] => generalize x end. intros v.
  set (rec' := set_Version v (stamp (calm_now o) rec)).
  assert (ID rec' = ID rec) as HID.
  { destruct (stamp_fields (calm_now o) rec) as (_ & H & _). exact H. }
  destruct (apply_calm o (mkCommand cmdPut rec' 0 "") s)
    as [(resp & e & -> & Hwhy)|(buf & Hm & Hwhy)].
  { eapply put_fault. destruct Hwhy as [|Hwhy]; [by left|right].
    exists v. rewrite command_Marshal_rec in Hwhy. cbn in Hwhy. fold rec'.
    by destruct (Marshal rec'). }
  destruct (Apply_put (calm_apply o) rec' buf s Hg Hm) as [Hg' Hput].
  rewrite HID in Hput. destruct Hwhy as [(e & -> & Hf & Ha)| ->].
  { destruct Hput as [(_ & Hv)|(-> & _)]; [|eapply put_fault; by left].
    eapply put_ambiguous; [done|done| |done|done]. by eexists. }
  destruct Hput as [(-> & Hv)|(-> & [e ->] & Hwhy)].
  - cbn. eapply put_ok; [|done|done]. by eexists.
  - eapply put_fault. destruct Hwhy as [Hf|Hw]; [left; by right; right; left|right].
    exists v. fold rec'. unfold oversized in Hw. rewrite HID in Hw.
    destruct (Marshal rec'); [by left|done].
Qed.

Lemma scan_meets_raft o keep s :
  BoltStore.good s →
  list_spec raftContract o keep s
    (BoltStore.View (calm_read o) [] (BoltStore.scan keep (bForEach (BoltStore.jobs s)))).
Proof.
  intros Hg. pose proof (BoltStore.scan_meets (calm_read o, 0%Z) keep s Hg) as Hl.
  cbn [fst] in Hl. destruct Hl as [out Hin Hnd|out e Hf]; [by apply list_ok|].
  apply list_fault. by right; right; right.
Qed.

#[export] Instance raftstore_ok : StoreOk raft_api.
Proof using BL.
  refine {| contract := raftContract |}.
  - by intros s (_ & _ & ?).
  - intros o r r' [v ->]. by eexists _, _.
  - intros o id s Hg. cbn. unfold GetJob.
    pose proof (BoltStore.GetJob_meets (calm_read o, 0%Z) id s Hg) as Hget. cbn [fst] in Hget.
    destruct Hget as [|e Hf]; [exact (get_ok raftContract o id s)|].
    apply (get_fault raftContract o id s). by right; right; right.
  - intros. by apply Transition_meets_raft.
  - intros. by apply Submit_meets_raft.
  - intros. by apply PutJob_meets_raft.
  - intros. by apply scan_meets_raft.
  - intros. by apply scan_meets_raft.
Defined.

(** ** Properties *)

(** C21: [RaftStore.Transition] is linearizable.  Whatever compare-and-swaps and
    inserts of other callers are applied while it reads, runs the mutator and
    waits for its own entry, and however often its entry conflicts, the call
    amounts to a single atomic step at one moment of that history: success means
    that the mutator's result on the record stored at that very moment was
    written there, with the next version and a fresh stamp (no update of anyone
    is lost); a skip means that the mutator declined on the stored record; an
    error means that nothing was written by this call, unless the outcome of the
    Raft entry itself was reported as a failure although it was applied. *)
Theorem raft_Transition_linearizable C rounds id (mutate : mutator C) c s :
  BoltStore.good s → keeps_ID mutate → (∀ i, round_ok id (rounds i)) →
  linearized rounds id mutate c s (Transition rounds id mutate c s) ∧
  BoltStore.good (Transition rounds id mutate c s).2.
Proof. apply cas_loop_linearized. Qed.

(** C23: on a node whose calls are not interleaved with entries of others,
    RaftStore meets the same contract of the [Store] interface as BoltStore:
    atomic transitions, one job per idempotency key, exact listings; calls only
    fail when the node is not the leader, the Raft entry fails, a BoltDB
    transaction faults, or the record cannot be stored. *)
Theorem raftstore_refinement o s :
  BoltStore.good s →
  (∀ id, get_spec raftContract o id s (GetJob (calm_read o) id s)) ∧
  (∀ C id (mutate : mutator C) c, keeps_ID mutate →
     transition_spec raftContract o id mutate c s
       (Transition (λ _, calm_round o) id mutate c s)) ∧
  (∀ rec key, submit_spec raftContract o rec key s
     (SubmitWithIdempotency (calm_env o) (calm_now o) rec key s)) ∧
  (∀ rec, put_spec raftContract o rec s
     (PutJob (calm_env o) (calm_read o) (calm_now o) rec s)) ∧
  list_spec raftContract o unfinished s (ListUnfinished (calm_read o) s) ∧
  (∀ w, list_spec raftContract o (running_on w) s (ListRunningOnWorker (calm_read o) w s)).
Proof.
  intros Hg. repeat split; intros.
  - exact (GetJob_ok (StoreOk := raftstore_ok) o id s Hg).
  - by apply Transition_meets_raft.
  - by apply Submit_meets_raft.
  - by apply PutJob_meets_raft.
  - by apply scan_meets_raft.
  - by apply scan_meets_raft.
Qed.

End proofs.

(** ** Concrete runs *)

Module Examples.

Definition s1 : BoltStore.t := replay [Fsm.Examples.data Fsm.Examples.submit1] BoltStore.empty_store.

Definition leader_env (l : list json) : RaftEnv :=
  mkEnv Leader "10.0.0.1:7000" "node-a" l Committed no_faults.

(** Another caller's CAS is applied between the first read and the first write. *)
Definition rounds (i : nat) : Round :=
  mkRound [] no_faults 5000
    (leader_env (match i with O => [Fsm.Examples.data Fsm.Examples.cas1] | _ => [] end)).

Definition count_retry : mutator nat :=
  λ c r, (S c, Ok (set_RetryCount (int64 (RetryCount r + 1)) r)).

Lemma r1_good : BoltStore.good s1.
Proof.
  apply (replay_refines [Fsm.Examples.submit1]); [apply BoltStore.empty_store_good|].
  apply Fsm.Examples.encodes_submit1, Forall2_nil; done.
Qed.

Lemma count_retry_keeps_ID : keeps_ID count_retry.
Proof. intros c r c' r' [= <- <-]. done. Qed.

Lemma interleaved_cas1 s : interleaved "job-1" s (replay [Fsm.Examples.data Fsm.Examples.cas1] s).
Proof.
  exists [Fsm.Examples.cas1], [Fsm.Examples.data Fsm.Examples.cas1].
  split; [apply Fsm.Examples.encodes_cas1, Forall2_nil; done|].
  split; [|done]. constructor; [|constructor]. by left.
Qed.

(** The first CAS conflicts, the mutator runs again and the second one wins. *)
Lemma rounds_conflict_then_win :
  (Transition rounds "job-1" count_retry 0 s1).1 = ((true, None), 2).
Proof. vm_compute. reflexivity. Qed.

Lemma raft_Transition_linearizable_witness :
  linearized rounds "job-1" count_retry 0 s1 (Transition rounds "job-1" count_retry 0 s1).
Proof.
  apply (raft_Transition_linearizable nat rounds "job-1" count_retry 0 s1).
  - apply r1_good.
  - apply count_retry_keeps_ID.
  - intros [|i]; split; intros s; try apply interleaved_refl. apply interleaved_cas1.
Defined.

Definition calm : Calm :=
  mkCalm Leader "10.0.0.1:7000" "node-a" Committed no_faults no_faults 5000.

Lemma raftstore_refinement_witness :
  transition_spec raftContract calm "job-1" count_retry 0 s1
    (Transition (λ _, calm_round calm) "job-1" count_retry 0 s1).
Proof. apply (raftstore_refinement calm s1 r1_good), count_retry_keeps_ID. Defined.

End Examples.

End RaftStore.
