(* ===== verification/WorkerPool.v ===== *)
(** * WorkerPool: registered workers and their liveness

    src/orchestrator/worker_pool.go.  The pool is a map from worker IDs to
    states; each method that holds the pool's mutex is one function.  Clock
    readings and the order in which Go ranges over the map are arguments. *)

From stdpp Require Import strings gmap sorting prelude.
From Stdlib Require Import SpecFloat.
From S2P Require Import Prelude Types.

Module WorkerPool.

Record workerState : Type := mkWorker {
  id : string;
  address : string;
  capacity : Z;
  activeTasks : Z;
  registeredAt : Z;
  lastHeartbeat : Z;
  alive : bool;
}.

#[export] Instance workerState_eq_dec : EqDecision workerState.
Proof. solve_decision. Defined.

Record t : Type := mkPool {
  timeout : Z;
  workers : gmap string workerState;
}.

Definition NewWorkerPool (timeout : Z) : t := mkPool timeout ∅.

Definition set_alive (b : bool) (w : workerState) : workerState :=
  mkWorker (id w) (address w) (capacity w) (activeTasks w) (registeredAt w) (lastHeartbeat w) b.

(** [now] and [now'] are the two clock readings of the composite literal. *)
Definition Register (now now' : Z) (wid addr : string) (cap : Z) (p : t) : t :=
  mkPool (timeout p) (<[wid := mkWorker wid addr cap 0 now now' true]> (workers p)).

Definition RecordHeartbeat (now : Z) (wid : string) (active : Z) (p : t) : bool * t :=
  match workers p !! wid with
  | None => (false, p)
  | Some w =>
      let w := if negb (alive w) then set_alive true w else w in
      let w := mkWorker (id w) (address w) (capacity w) active (registeredAt w) now (alive w) in
      (true, mkPool (timeout p) (<[wid := w]> (workers p)))
  end.

(** One iteration of the selection loop. *)
Definition better (exclude : gset string) (best : option workerState) (w : workerState) :
    option workerState :=
  if negb (alive w) then best
  else if bool_decide (id w ∈ exclude) then best
  else match best with
       | None => Some w
       | Some b => if (activeTasks w <? activeTasks b)%Z then Some w else best
       end.

Definition LeastLoadedAliveExcluding (ord : list string) (exclude : gset string) (p : t) :
    string * string * bool :=
  match foldl (λ best kv, better exclude best kv.2) None (range_map ord (workers p)) with
  | None => ("", "", false)
  | Some best => (id best, address best, true)
  end.

Definition LeastLoadedAlive (ord : list string) (p : t) : string * string * bool :=
  LeastLoadedAliveExcluding ord ∅ p.

(** The test of the loop of [sweep]. *)
Definition expired (now timeout : Z) (w : workerState) : bool :=
  alive w && (timeout <? time_Sub now (lastHeartbeat w))%Z.

Fixpoint sweep_loop (now : Z) (timeout : Z) (kvs : list (string * workerState))
    (dead : list string) (ws : gmap string workerState) : list string * gmap string workerState :=
  match kvs with
  | [] => (dead, ws)
  | (wid, w) :: kvs =>
      if negb (alive w) then sweep_loop now timeout kvs dead ws
      else if (timeout <? time_Sub now (lastHeartbeat w))%Z
      then sweep_loop now timeout kvs (dead ++ [wid]) (<[wid := set_alive false w]> ws)
      else sweep_loop now timeout kvs dead ws
  end.

Definition sweep (now : Z) (ord : list string) (p : t) : list string * t :=
  let '(dead, ws) := sweep_loop now (timeout p) (range_map ord (workers p)) [] (workers p) in
  (dead, mkPool (timeout p) ws).

Definition AliveCount (ord : list string) (p : t) : Z :=
  foldl (λ n kv, if alive kv.2 then (n + 1)%Z else n) 0%Z (range_map ord (workers p)).

(** ** Snapshot *)

Record WorkerMetrics : Type := mkMetrics {
  m_ID : string;
  m_Address : string;
  m_Alive : bool;
  m_ActiveTasks : Z;
  m_Capacity : Z;
  m_Utilization : spec_float;     (* a float64 *)
  m_LastHeartbeatS : Z;
  m_RegisteredAt : Z;             (* the instant the RFC 3339 text denotes *)
}.

Definition float64 (z : Z) : spec_float := binary_normalize 53 1024 z 0 false.

Definition worker_metrics (now : Z) (w : workerState) : WorkerMetrics :=
  mkMetrics (id w) (address w) (alive w) (activeTasks w) (capacity w)
    (if (0 <? capacity w)%Z
     then SFdiv 53 1024 (float64 (activeTasks w)) (float64 (capacity w))
     else S754_zero false)
    (Z.quot (time_Sub now (lastHeartbeat w)) second)
    (registeredAt w).

Definition Snapshot (now : Z) (ord : list string) (p : t) : list WorkerMetrics :=
  (λ kv, worker_metrics now kv.2) <$> range_map ord (workers p).

(** ** Invariant *)

(** A worker is filed under its own ID. *)
Definition wf (p : t) : Prop := ∀ k w, workers p !! k = Some w → id w = k.

(** The workers a dispatch may choose. *)
Definition eligible (exclude : gset string) (w : workerState) : Prop :=
  alive w = true ∧ id w ∉ exclude.

(** ** Lemmas *)

Lemma NewWorkerPool_wf timeout : wf (NewWorkerPool timeout).
Proof. intros k w. cbn. by rewrite lookup_empty. Qed.

Lemma Register_wf now now' wid addr cap p : wf p → wf (Register now now' wid addr cap p).
Proof.
  intros Hwf k w. cbn. rewrite lookup_insert. case_decide; [by intros [= <-]|apply Hwf].
Qed.

Lemma RecordHeartbeat_wf now wid active p : wf p → wf (RecordHeartbeat now wid active p).2.
Proof.
  intros Hwf. unfold RecordHeartbeat. destruct (workers p !! wid) as [w|] eqn:Hw; [|done].
  intros k w'. cbn. rewrite lookup_insert. case_decide; [|apply Hwf]. intros [= <-]. cbn.
  subst k. apply Hwf in Hw. by destruct (negb (alive w)).
Qed.

(** The loop of [sweep] visits each worker once. *)
Lemma sweep_loop_spec now to kvs dead ws :
  NoDup kvs.*1 → (∀ k w, (k, w) ∈ kvs → ws !! k = Some w) →
  (sweep_loop now to kvs dead ws).1 =
    dead ++ (filter (λ kv, expired now to kv.2 = true) kvs).*1 ∧
  (∀ k, (sweep_loop now to kvs dead ws).2 !! k =
    match ws !! k with
    | None => None
    | Some w => if bool_decide ((k, w) ∈ kvs) && expired now to w
                then Some (set_alive false w) else Some w
    end).
Proof.
  revert dead ws. induction kvs as [|[k w] kvs IH]; intros dead ws Hnd Hin.
  { cbn. rewrite app_nil_r. split; [done|]. intros k. destruct (ws !! k); done. }
  cbn in Hnd. apply NoDup_cons in Hnd as [Hni Hnd].
  assert (∀ w', (k, w') ∉ kvs) as Hk.
  { intros w' Hw'. apply Hni. by apply (list_elem_of_fmap_2 fst) in Hw'. }
  assert (ws !! k = Some w) as Hw by (apply Hin; by left).
  assert (∀ k' w', (k', w') ∈ kvs → ws !! k' = Some w') as Hin' by (intros; apply Hin; by right).
  assert (∀ k' w', k' ≠ k →
    bool_decide ((k', w') ∈ (k, w) :: kvs) = bool_decide ((k', w') ∈ kvs)) as Hbd.
  { intros k' w' Hne. apply bool_decide_ext. rewrite elem_of_cons. split; [|by right].
    intros [[= -> ->]|?]; done. }
  rewrite filter_cons. cbn [sweep_loop snd].
  destruct (expired now to w) eqn:Hex.
  - pose proof Hex as Hex'. unfold expired in Hex. apply andb_true_iff in Hex as [-> ->]. cbn [negb].
    case_decide; [|done]. destruct (IH (dead ++ [k]) (<[k := set_alive false w]> ws) Hnd) as [E1 E2].
    { intros k' w' H'. rewrite lookup_insert_ne; [by apply Hin'|]. intros ->. by eapply Hk. }
    rewrite E1. split; [by rewrite <- app_assoc|]. intros k'. rewrite E2.
    rewrite lookup_insert. case_decide as Hd.
    + subst k'. rewrite Hw, Hex'. rewrite bool_decide_eq_false_2 by apply Hk. cbn.
      by rewrite bool_decide_eq_true_2 by (by left).
    + destruct (ws !! k'); [|done]. by rewrite Hbd.
  - case_decide; [done|].
    assert (sweep_loop now to kvs dead ws = (if negb (alive w) then sweep_loop now to kvs dead ws
      else if (to <? time_Sub now (lastHeartbeat w))%Z
      then sweep_loop now to kvs (dead ++ [k]) (<[k := set_alive false w]> ws)
      else sweep_loop now to kvs dead ws)) as <-.
    { unfold expired in Hex. destruct (alive w); [|done]. cbn in *. by rewrite Hex. }
    destruct (IH dead ws Hnd Hin') as [E1 E2]. split; [done|]. intros k'. rewrite E2.
    destruct (decide (k' = k)) as [->|Hne].
    + rewrite Hw, Hex, !andb_false_r. done.
    + destruct (ws !! k'); [|done]. by rewrite Hbd.
Qed.

Lemma sweep_spec now ord p :
  (∀ k, k ∈ (sweep now ord p).1 ↔
     ∃ w, workers p !! k = Some w ∧ expired now (timeout p) w = true) ∧
  NoDup (sweep now ord p).1 ∧
  timeout (sweep now ord p).2 = timeout p ∧
  (∀ k, workers (sweep now ord p).2 !! k =
    (λ w, if expired now (timeout p) w then set_alive false w else w) <$> workers p !! k).
Proof.
  unfold sweep.
  destruct (sweep_loop_spec now (timeout p) (range_map ord (workers p)) [] (workers p))
    as [E1 E2]; [apply range_map_keys_NoDup|intros k w; apply elem_of_range_map|].
  destruct (sweep_loop _ _ _ _ _) as [dead ws]. cbn [fst snd app] in *. subst dead.
  split; [|split; [|split; [done|]]].
  - intros k. rewrite list_elem_of_fmap. split.
    + intros ([k' w] & -> & [? ?%elem_of_range_map]%list_elem_of_filter). eauto.
    + intros (w & ? & ?). exists (k, w). rewrite list_elem_of_filter, elem_of_range_map. done.
  - eapply sublist_NoDup; [apply (range_map_keys_NoDup ord (workers p))|].
    apply fmap_sublist, sublist_filter.
  - intros k. cbn. rewrite E2. destruct (workers p !! k) as [w|] eqn:Hw; [|done]. cbn.
    rewrite bool_decide_eq_true_2 by (by apply elem_of_range_map). cbn.
    by destruct (expired now (timeout p) w).
Qed.

Lemma sweep_wf now ord p : wf p → wf (sweep now ord p).2.
Proof.
  intros Hwf k w'. destruct (sweep_spec now ord p) as (_ & _ & _ & ->).
  destruct (workers p !! k) as [w|] eqn:Hw; [|done]. cbn. intros [= <-].
  apply Hwf in Hw. by destruct (expired _ _ _).
Qed.

(** [best] is an eligible worker of least load among those in [seen]. *)
Definition best_among (exclude : gset string) (best : option workerState)
    (seen : workerState → Prop) : Prop :=
  match best with
  | None => ∀ w, seen w → ¬ eligible exclude w
  | Some b => seen b ∧ eligible exclude b ∧
      ∀ w, seen w → eligible exclude w → (activeTasks b ≤ activeTasks w)%Z
  end.

Lemma better_step exclude best seen w :
  best_among exclude best seen →
  best_among exclude (better exclude best w) (λ x, x = w ∨ seen x).
Proof.
  intros Hb. unfold better.
  assert (¬ eligible exclude w → best_among exclude best (λ x, x = w ∨ seen x)) as Hno.
  { intros Hne. destruct best as [b|]; cbn in *.
    - destruct Hb as (? & ? & Hall). split; [by right|]. split; [done|].
      intros x [->|Hx] Hel; [done|by apply Hall].
    - intros x [->|Hx]; [done|by apply Hb]. }
  destruct (alive w) eqn:Ha; cbn; [|apply Hno; unfold eligible; rewrite Ha; by intros []].
  case_bool_decide as Hex; [apply Hno; by intros []|].
  assert (eligible exclude w) as Hel by done. destruct best as [b|]; cbn in *.
  - destruct Hb as (? & ? & Hall).
    destruct (Z.ltb_spec (activeTasks w) (activeTasks b)); cbn.
    + split; [by left|]. split; [done|]. intros x [->|Hx] Hx'; [lia|].
      specialize (Hall x Hx Hx'). lia.
    + split; [by right|]. split; [done|]. intros x [->|Hx] Hx'; [lia|by apply Hall].
  - split; [by left|]. split; [done|]. intros x [->|Hx] Hx'; [lia|by destruct (Hb x)].
Qed.

Lemma better_fold exclude (kvs : list (string * workerState)) best seen :
  best_among exclude best seen →
  best_among exclude (foldl (λ best kv, better exclude best kv.2) best kvs)
    (λ x, (∃ k, (k, x) ∈ kvs) ∨ seen x).
Proof.
  revert best seen. induction kvs as [|[k w] kvs IH]; intros best seen Hb; cbn [foldl snd].
  - destruct best as [b|]; cbn in *.
    + destruct Hb as (? & ? & Hall). split; [by right|]. split; [done|].
      intros x [[k Hk%elem_of_nil]|Hx]; [done|by apply Hall].
    + intros x [[k Hk%elem_of_nil]|Hx]; [done|by apply Hb].
  - pose proof (IH _ _ (better_step exclude best seen w Hb)) as H.
    assert (∀ x, ((∃ k', (k', x) ∈ (k, w) :: kvs) ∨ seen x) ↔
      ((∃ k', (k', x) ∈ kvs) ∨ x = w ∨ seen x)) as Heq.
    { intros x. setoid_rewrite elem_of_cons. split.
      - intros [[k' [[= -> ->]|?]]|?]; eauto.
      - intros [[k' ?]|[->|?]]; eauto. }
    destruct (foldl _ _ kvs) as [b|]; cbn in *.
    + destruct H as (? & ? & Hall). split; [by apply Heq|]. split; [done|].
      intros x Hx. by apply Hall, Heq.
    + intros x Hx. by apply H, Heq.
Qed.

Lemma LeastLoaded_spec ord exclude p :
  wf p →
  match LeastLoadedAliveExcluding ord exclude p with
  | (wid, addr, true) =>
      ∃ w, workers p !! wid = Some w ∧ addr = address w ∧ eligible exclude w ∧
        ∀ k w', workers p !! k = Some w' → eligible exclude w' →
          (activeTasks w ≤ activeTasks w')%Z
  | (_, _, false) => ∀ k w, workers p !! k = Some w → ¬ eligible exclude w
  end.
Proof.
  intros Hwf. unfold LeastLoadedAliveExcluding.
  pose proof (better_fold exclude (range_map ord (workers p)) None (λ _, False)) as H.
  destruct (foldl _ _ _) as [b|]; cbn in H.
  - destruct H as ([[k Hk]|[]] & Hel & Hall); [by intros ? []|].
    apply elem_of_range_map in Hk. rewrite (Hwf _ _ Hk). exists b.
    split; [done|]. split; [done|]. split; [done|].
    intros k' w' Hk'. apply Hall. left. exists k'. by apply elem_of_range_map.
  - intros k w Hk. apply H; [by intros ? []|]. left. exists k. by apply elem_of_range_map.
Qed.

(** ** Properties *)

(** C27: in whatever order the map is ranged over, the scheduler's choice is an
    alive worker that is not excluded and has the least reported load of all
    such workers; it reports none only when there is no such worker. *)
Theorem least_loaded_correct ord exclude p :
  wf p →
  match LeastLoadedAliveExcluding ord exclude p with
  | (wid, addr, true) =>
      ∃ w, workers p !! wid = Some w ∧ addr = address w ∧ eligible exclude w ∧
        ∀ k w', workers p !! k = Some w' → eligible exclude w' →
          (activeTasks w ≤ activeTasks w')%Z
  | (_, _, false) => ∀ k w, workers p !! k = Some w → ¬ eligible exclude w
  end.
Proof. apply LeastLoaded_spec. Qed.

(** one sweep of the fault detector declares dead exactly the alive workers
    that have been silent for longer than the timeout, lists each once, changes
    nothing else, and a later sweep does not list them again unless they
    heartbeat or register first, so each death is handed to the reaper once. *)
Theorem sweep_correct now ord now2 ord2 p :
  (∀ k, k ∈ (sweep now ord p).1 ↔
     ∃ w, workers p !! k = Some w ∧ alive w = true ∧
          (timeout p < time_Sub now (lastHeartbeat w))%Z) ∧
  NoDup (sweep now ord p).1 ∧
  (∀ k, workers (sweep now ord p).2 !! k =
     if bool_decide (k ∈ (sweep now ord p).1)
     then set_alive false <$> workers p !! k else workers p !! k) ∧
  (∀ k, k ∈ (sweep now ord p).1 → k ∉ (sweep now2 ord2 (sweep now ord p).2).1).
Proof.
  destruct (sweep_spec now ord p) as (Hin & Hnd & Hto & Hl).
  assert (∀ w, expired now (timeout p) w = true ↔ alive w = true ∧
    (timeout p < time_Sub now (lastHeartbeat w))%Z) as Hex.
  { intros w. unfold expired. by rewrite andb_true_iff, Z.ltb_lt. }
  split; [intros k; rewrite Hin; by setoid_rewrite Hex|]. split; [done|]. split.
  - intros k. rewrite Hl. case_bool_decide as Hk; rewrite Hin in Hk.
    + destruct Hk as (w & -> & Hw). cbn. by rewrite Hw.
    + destruct (workers p !! k) as [w|] eqn:Hw; [|done]. cbn.
      destruct (expired now (timeout p) w) eqn:E; [|done]. destruct Hk. eauto.
  - intros k Hk Hk2. apply Hin in Hk as (w & Hw & Hexp).
    apply sweep_spec in Hk2 as (w2 & Hw2 & Hexp2). rewrite Hl, Hw in Hw2. cbn in Hw2.
    rewrite Hexp in Hw2. injection Hw2 as <-. done.
Qed.

(** A worker whose last heartbeat is at most the timeout ago is never
    declared dead, and a heartbeat from a worker that had been declared dead
    makes it available again with the load it reports; a heartbeat from an
    unknown worker is refused and changes nothing. *)
Theorem heartbeat_correct now wid active p now2 ord2 :
  (time_Sub now2 now ≤ timeout p)%Z →
  match RecordHeartbeat now wid active p with
  | (true, p') =>
      (∃ w w', workers p !! wid = Some w ∧ workers p' !! wid = Some w' ∧
         alive w' = true ∧ activeTasks w' = active ∧ lastHeartbeat w' = now ∧
         address w' = address w ∧ capacity w' = capacity w) ∧
      (wid ∉ (sweep now2 ord2 p').1) ∧
      (∀ k, k ≠ wid → workers p' !! k = workers p !! k)
  | (false, p') => workers p !! wid = None ∧ p' = p
  end.
Proof.
  intros Hle. unfold RecordHeartbeat. destruct (workers p !! wid) as [w|] eqn:Hw; [|done].
  split; [|split].
  - eexists w, _. split; [done|]. split; [apply lookup_insert_eq|]. cbn.
    by destruct (alive w) eqn:Ha.
  - intros (w' & Hw' & Hexp)%sweep_spec. cbn in Hw'. rewrite lookup_insert_eq in Hw'.
    injection Hw' as <-. unfold expired in Hexp. cbn in Hexp.
    apply andb_true_iff in Hexp as [_ ?%Z.ltb_lt]. lia.
  - intros k Hk. cbn. by rewrite lookup_insert_ne.
Qed.

(** ** Concrete runs *)

Module Examples.

Definition pool0 : t :=
  Register 10 10 "w2" "b:2" 4 (Register 0 0 "w1" "a:1" 4 (NewWorkerPool (6 * second))).

Lemma pool0_wf : wf pool0.
Proof. apply Register_wf, Register_wf, NewWorkerPool_wf. Qed.

Lemma least_loaded_correct_witness :
  ∃ w, workers pool0 !! "w2" = Some w ∧ "b:2" = address w ∧ eligible {["w1"]} w ∧
    ∀ k w', workers pool0 !! k = Some w' → eligible {["w1"]} w' →
      (activeTasks w ≤ activeTasks w')%Z.
Proof.
  pose proof (least_loaded_correct [] {["w1"]} pool0 pool0_wf) as H.
  assert (LeastLoadedAliveExcluding [] {["w1"]} pool0 = ("w2", "b:2", true)) as E
    by (vm_compute; reflexivity).
  rewrite E in H. exact H.
Defined.

Lemma heartbeat_correct_witness :
  "w1" ∉ (sweep (12 * second) [] (RecordHeartbeat (7 * second) "w1" 3 pool0).2).1.
Proof.
  assert (time_Sub (12 * second) (7 * second) ≤ timeout pool0)%Z as H by (vm_compute; discriminate).
  apply (heartbeat_correct (7 * second) "w1" 3 pool0 (12 * second) [] H).
Defined.

End Examples.

End WorkerPool.
