(* ===== verification/Lru.v ===== *)
(** * lruResults: the bounded cache of completed results

    src/orchestrator/lru.go.  The cache is a map from keys to list elements and
    a doubly linked list of entries, front first.  An element is a handle (the
    Go pointer); the list holds each element with the entry it carries.  The
    abstract cache is the list of key-value pairs, most recently used first. *)

From stdpp Require Import strings gmap sorting prelude.
From S2P Require Import Prelude Types.

Module Lru.

(** [resultEntry] of server.go. *)
Record resultEntry : Type := mkResult {
  resultBytes : bytes;
  errorMsg : string;
  coldStartMs : Z;
  executionMs : Z;
}.

#[export] Instance resultEntry_eq_dec : EqDecision resultEntry.
Proof. solve_decision. Defined.

Definition zeroResult : resultEntry := mkResult [] "" 0 0.

Record lruEntry : Type := mkEntry { key : string; value : resultEntry }.

Record t : Type := mkLru {
  cap : Z;
  items : gmap string nat;
  order : list (nat * lruEntry);
  fresh : nat;                        (* the next element to allocate *)
}.

Definition newLRUResults (capacity : Z) : t :=
  let capacity := if (capacity <? 1)%Z then 1%Z else capacity in
  mkLru capacity ∅ [] 0.

(** container/list: the entry of an element, removal, and moving to the front. *)
Fixpoint elem (el : nat) (l : list (nat * lruEntry)) : option lruEntry :=
  match l with
  | [] => None
  | (el', e) :: l => if bool_decide (el' = el) then Some e else elem el l
  end.

Definition Remove (el : nat) (l : list (nat * lruEntry)) : list (nat * lruEntry) :=
  filter (λ p, p.1 ≠ el) l.

Definition MoveToFront (el : nat) (l : list (nat * lruEntry)) : list (nat * lruEntry) :=
  filter (λ p, p.1 = el) l ++ Remove el l.

(** [el.Value.( *lruEntry).value = v], in place. *)
Definition set_value (el : nat) (v : resultEntry) (l : list (nat * lruEntry)) :
    list (nat * lruEntry) :=
  (λ p, if bool_decide (p.1 = el) then (p.1, mkEntry (key p.2) v) else p) <$> l.

Definition Put (k : string) (v : resultEntry) (l : t) : t :=
  match items l !! k with
  | Some el =>
      mkLru (cap l) (items l) (MoveToFront el (set_value el v (order l))) (fresh l)
  | None =>
      let el := fresh l in
      let order := (el, mkEntry k v) :: order l in
      let items := <[k := el]> (items l) in
      if (cap l <? Z.of_nat (length order))%Z
      then match last order with
           | Some (oldest, e) => mkLru (cap l) (delete (key e) items) (Remove oldest order) (S el)
           | None => mkLru (cap l) items order (S el)
           end
      else mkLru (cap l) items order (S el)
  end.

Definition Get (k : string) (l : t) : (resultEntry * bool) * t :=
  match items l !! k with
  | None => ((zeroResult, false), l)
  | Some el =>
      let order := MoveToFront el (order l) in
      let v := match elem el order with Some e => value e | None => zeroResult end in
      ((v, true), mkLru (cap l) (items l) order (fresh l))
  end.

Definition Len (l : t) : Z := Z.of_nat (length (order l)).

(** ** The abstract cache *)

Abbreviation pairs := (list (string * resultEntry)).

Definition abs (l : t) : pairs := (λ p, (key p.2, value p.2)) <$> order l.

Definition a_remove (k : string) (al : pairs) : pairs := filter (λ kv, kv.1 ≠ k) al.

Fixpoint a_lookup (k : string) (al : pairs) : option resultEntry :=
  match al with
  | [] => None
  | (k', v) :: al => if bool_decide (k' = k) then Some v else a_lookup k al
  end.

(** The pair moves to the front, and the list is cut to the capacity. *)
Definition a_Put (cap : Z) (k : string) (v : resultEntry) (al : pairs) : pairs :=
  take (Z.to_nat cap) ((k, v) :: a_remove k al).

Definition a_Get (k : string) (al : pairs) : (resultEntry * bool) * pairs :=
  match a_lookup k al with
  | None => ((zeroResult, false), al)
  | Some v => ((v, true), (k, v) :: a_remove k al)
  end.

(** ** Invariant: the map and the list agree, and the list is bounded *)

Record wf (l : t) : Prop := {
  wf_cap : (1 ≤ cap l)%Z;
  wf_len : (Z.of_nat (length (order l)) ≤ cap l)%Z;
  wf_nodup : NoDup (order l).*1;
  wf_fresh : Forall (λ p, p.1 < fresh l) (order l);
  wf_items k el : items l !! k = Some el ↔ ∃ v, (el, mkEntry k v) ∈ order l;
}.

(** ** Lemmas *)

Lemma newLRUResults_wf capacity : wf (newLRUResults capacity).
Proof.
  split; cbn.
  - by destruct (Z.ltb_spec capacity 1).
  - destruct (Z.ltb_spec capacity 1); lia.
  - constructor.
  - constructor.
  - intros k el. rewrite lookup_empty. split; [done|]. by intros [v ?%elem_of_nil].
Qed.

Section wf_facts.
Context (l : t) (Hwf : wf l).

(** Elements and keys determine each other. *)
Lemma wf_same_elem el e1 e2 : (el, e1) ∈ order l → (el, e2) ∈ order l → e1 = e2.
Proof using Hwf.
  intros H1 H2. pose proof (wf_nodup l Hwf) as Hnd. revert Hnd H1 H2.
  induction (order l) as [|[x e] o IH]; cbn; [by intros _ ?%elem_of_nil|].
  intros [Hni Hnd]%NoDup_cons [E1|H1]%elem_of_cons [E2|H2]%elem_of_cons; simplify_eq; auto.
  - destruct Hni. by apply (list_elem_of_fmap_2 fst) in H2.
  - destruct Hni. by apply (list_elem_of_fmap_2 fst) in H1.
Qed.

Lemma wf_same_key el1 el2 e1 e2 :
  (el1, e1) ∈ order l → (el2, e2) ∈ order l → key e1 = key e2 → el1 = el2.
Proof using Hwf.
  destruct e1 as [k1 v1], e2 as [k2 v2]. cbn. intros H1 H2 <-.
  assert (items l !! k1 = Some el1) by (apply (wf_items l Hwf); eauto).
  assert (items l !! k1 = Some el2) by (apply (wf_items l Hwf); eauto). congruence.
Qed.

Lemma wf_keys_nodup : NoDup (abs l).*1.
Proof using Hwf.
  assert (∀ o, (∀ p, p ∈ o → p ∈ order l) → NoDup o.*1 →
    NoDup (((λ p : nat * lruEntry, (key p.2, value p.2)) <$> o).*1)) as H.
  { induction o as [|[x e] o IH]; cbn; [constructor|]. intros Hin [Hni Hnd]%NoDup_cons.
    constructor; [|apply IH; [|done]; intros; apply Hin; by right].
    intros ([k v] & E & ([x2 e2] & E2 & Hin2)%list_elem_of_fmap)%list_elem_of_fmap.
    cbn in *. simplify_eq. destruct Hni.
    rewrite (wf_same_key x x2 e e2); [by apply (list_elem_of_fmap_2 fst) in Hin2|..|done].
    - apply Hin. by left.
    - apply Hin. by right. }
  apply H; [done|apply wf_nodup, Hwf].
Qed.

End wf_facts.

Lemma abs_Remove (o : list (nat * lruEntry)) el k :
  (∀ p, p ∈ o → key p.2 = k ↔ p.1 = el) →
  (λ p, (key p.2, value p.2)) <$> Remove el o =
  a_remove k ((λ p, (key p.2, value p.2)) <$> o).
Proof.
  unfold Remove, a_remove. induction o as [|[x e] o IH]; [done|]. intros Hk.
  cbn [fmap list_fmap]. rewrite !filter_cons. cbn [fst snd].
  assert (key e = k ↔ x = el) as Hx by (apply (Hk (x, e)); by left).
  rewrite <- IH by (intros; apply Hk; by right).
  destruct (decide (x ≠ el)), (decide (key e ≠ k)); cbn; tauto.
Qed.

Lemma filter_elem (o : list (nat * lruEntry)) el e :
  NoDup o.*1 → (el, e) ∈ o → filter (λ p, p.1 = el) o = [(el, e)].
Proof.
  induction o as [|[x e'] o IH]; [by intros _ ?%elem_of_nil|].
  rewrite filter_cons. cbn [fmap list_fmap fst]. intros [Hni Hnd]%NoDup_cons Hin.
  destruct (decide (x = el)) as [->|Hne].
  - apply elem_of_cons in Hin as [[= ->]|Hin];
      [|destruct Hni; by apply (list_elem_of_fmap_2 fst) in Hin].
    f_equal. apply filter_none. intros [y e2] Hy. cbn. intros ->.
    destruct Hni. by apply (list_elem_of_fmap_2 fst) in Hy.
  - apply IH; [done|]. apply elem_of_cons in Hin as [[= -> ->]|?]; done.
Qed.

Lemma set_value_fst el v o : (set_value el v o).*1 = o.*1.
Proof.
  unfold set_value. induction o as [|[x e] o IH]; [done|]. cbn. rewrite IH.
  by destruct (bool_decide (x = el)).
Qed.

Lemma elem_of_set_value el v o x e :
  (x, e) ∈ set_value el v o ↔
  ∃ e0, (x, e0) ∈ o ∧ e = if bool_decide (x = el) then mkEntry (key e0) v else e0.
Proof.
  unfold set_value. rewrite list_elem_of_fmap. split.
  - intros ([y e0] & E & Hin). cbn in *. exists e0.
    destruct (bool_decide (y = el)) eqn:Hb; simplify_eq; by rewrite Hb.
  - intros (e0 & Hin & ->). exists (x, e0). cbn. by destruct (bool_decide (x = el)).
Qed.

Lemma Remove_set_value el v o : Remove el (set_value el v o) = Remove el o.
Proof.
  unfold Remove, set_value. induction o as [|[x e] o IH]; [done|].
  cbn [fmap list_fmap]. rewrite !filter_cons, IH. cbn [fst].
  case_bool_decide; cbn [fst]; by repeat case_decide.
Qed.

Lemma MoveToFront_perm el (o : list (nat * lruEntry)) : MoveToFront el o ≡ₚ o.
Proof.
  apply filter_app_complement.
Qed.

(** Moving a known element to the front moves its pair to the front. *)
Lemma abs_MoveToFront l el k v :
  wf l → (el, mkEntry k v) ∈ order l →
  (λ p, (key p.2, value p.2)) <$> MoveToFront el (order l) = (k, v) :: a_remove k (abs l).
Proof.
  intros Hwf Hin. unfold MoveToFront.
  rewrite (filter_elem _ _ _ (wf_nodup l Hwf) Hin). cbn. f_equal. apply abs_Remove.
  intros [x e] Hx. cbn. split.
  - intros Hk. by eapply wf_same_key.
  - intros ->. by rewrite (wf_same_elem l Hwf el e (mkEntry k v)).
Qed.

Lemma a_lookup_elem_of l k v :
  wf l → a_lookup k (abs l) = Some v ↔ ∃ el, (el, mkEntry k v) ∈ order l.
Proof.
  intros Hwf. assert (∀ al : pairs, NoDup al.*1 → a_lookup k al = Some v ↔ (k, v) ∈ al) as H.
  { induction al as [|[k' v'] al IH]; cbn; [by rewrite elem_of_nil|].
    intros [Hni Hnd]%NoDup_cons. rewrite elem_of_cons. case_bool_decide; subst.
    - split; [intros [= ->]; by left|]. intros [[= ->]|Hin]; [done|].
      destruct Hni. by apply (list_elem_of_fmap_2 fst) in Hin.
    - rewrite IH by done. split; [by right|]. intros [[= -> ->]|?]; done. }
  rewrite H by by apply wf_keys_nodup. unfold abs. rewrite list_elem_of_fmap. split.
  - intros ([el [k' v']] & [= -> ->] & Hin). eauto.
  - intros [el Hin]. by exists (el, mkEntry k v).
Qed.

Lemma wf_perm l o : wf l → o ≡ₚ order l → wf (mkLru (cap l) (items l) o (fresh l)).
Proof.
  intros [] Hp. split; cbn; [done|by rewrite Hp..|].
  intros k el. rewrite wf_items0. by setoid_rewrite Hp.
Qed.

Lemma wf_set_value l el v :
  wf l → wf (mkLru (cap l) (items l) (set_value el v (order l)) (fresh l)).
Proof.
  intros []. split; cbn; [done| |by rewrite set_value_fst| |].
  - unfold set_value. by rewrite length_fmap.
  - apply Forall_forall. intros [x e] (e0 & Hin & _)%elem_of_set_value.
    by apply (proj1 (Forall_forall _ _) wf_fresh0 (x, e0)).
  - intros k x. rewrite wf_items0. setoid_rewrite elem_of_set_value. split.
    + intros [w Hin]. destruct (bool_decide (x = el)); eauto.
    + intros (w & e0 & Hin & E). exists (value e0). destruct e0 as [k0 v0].
      destruct (bool_decide (x = el)); simplify_eq/=; done.
Qed.

(** Adding an entry for a key that is not cached, before the eviction. *)
Lemma wf_push l k v :
  wf l → items l !! k = None →
  wf (mkLru (cap l + 1) (<[k := fresh l]> (items l))
        ((fresh l, mkEntry k v) :: order l) (S (fresh l))).
Proof.
  intros [] Hk.
  assert (∀ e, (fresh l, e) ∉ order l) as Hfr.
  { intros e Hin. apply (proj1 (Forall_forall _ _) wf_fresh0) in Hin. cbn in Hin. lia. }
  split; cbn; [lia|lia| | |].
  - constructor; [|done]. intros ([x e] & E & Hin)%list_elem_of_fmap. cbn in E. subst x.
    by eapply Hfr.
  - constructor; [cbn; lia|]. eapply Forall_impl; [done|]. cbn. lia.
  - intros k' el. rewrite lookup_insert. setoid_rewrite elem_of_cons. case_decide as Hd.
    + subst k'. split; [intros [= <-]; eauto|]. intros [w [[= -> ->]|Hin]]; [done|].
      rewrite (proj2 (wf_items0 k el)) in Hk by eauto. done.
    + rewrite wf_items0. split; [intros [w ?]; eauto|].
      intros [w [[= -> ->]|Hin]]; [done|eauto].
Qed.

(** Evicting the entry at the back. *)
Lemma evict_back l o x e :
  wf l → (2 ≤ cap l)%Z → order l = o ++ [(x, e)] →
  Remove x (order l) = o ∧
  wf (mkLru (cap l - 1) (delete (key e) (items l)) o (fresh l)).
Proof.
  intros Hwf Hcap Ho. pose proof Hwf as [].
  rewrite Ho, fmap_app in wf_nodup0. apply NoDup_app in wf_nodup0 as (Hnd & Hdis & _).
  assert (∀ e', (x, e') ∉ o) as Hx.
  { intros e' Hin. apply (Hdis x); [by apply (list_elem_of_fmap_2 fst) in Hin|by left]. }
  split.
  - rewrite Ho. unfold Remove. rewrite filter_app, filter_all, filter_none, app_nil_r; [done|..].
    + intros y ->%list_elem_of_singleton. cbn. tauto.
    + intros [y e'] Hy. cbn. intros ->. by eapply Hx.
  - rewrite Ho in *. split; cbn.
    + lia.
    + rewrite length_app in wf_len0. cbn in wf_len0. lia.
    + done.
    + by apply Forall_app in wf_fresh0 as [? _].
    + intros k el. rewrite lookup_delete. case_decide as Hd.
      * split; [done|]. intros [w Hin]. exfalso. subst k.
        assert (el = x) as ->.
        { apply (wf_same_key l Hwf el x (mkEntry (key e) w) e); [..|done]; rewrite Ho;
            apply elem_of_app; [by left|right; by left]. }
        by eapply Hx.
      * rewrite wf_items0. setoid_rewrite elem_of_app. split.
        -- intros [w [Hin|[= -> <-]%list_elem_of_singleton]]; [eauto|done].
        -- intros [w Hin]. eauto.
Qed.

Lemma a_remove_absent l k : wf l → items l !! k = None → a_remove k (abs l) = abs l.
Proof.
  intros Hwf Hk. apply filter_all. intros [k' v] Hin. cbn. intros ->.
  unfold abs in Hin. apply list_elem_of_fmap in Hin as ([el [k' v']] & [= -> ->] & Hin).
  rewrite (proj2 (wf_items l Hwf k' el)) in Hk by eauto. done.
Qed.

Lemma abs_Remove_wf l el k v :
  wf l → (el, mkEntry k v) ∈ order l →
  (λ p, (key p.2, value p.2)) <$> Remove el (order l) = a_remove k (abs l).
Proof.
  intros Hwf Hin. apply abs_Remove. intros [x e] Hx. cbn. split.
  - intros He. by eapply (wf_same_key l Hwf x el e (mkEntry k v)).
  - intros ->. by rewrite (wf_same_elem l Hwf el e (mkEntry k v)).
Qed.

Lemma Put_refines_hit k v l el :
  wf l → items l !! k = Some el →
  wf (Put k v l) ∧ cap (Put k v l) = cap l ∧ abs (Put k v l) = a_Put (cap l) k v (abs l).
Proof.
  intros Hwf Hk. unfold Put, a_Put. rewrite Hk. apply (wf_items l Hwf) in Hk as [v0 Hin].
  pose proof (wf_set_value l el v Hwf) as Hwf'. set (l' := mkLru _ _ _ _) in Hwf'.
  assert ((el, mkEntry k v) ∈ order l') as Hin'.
  { apply elem_of_set_value. exists (mkEntry k v0). by rewrite bool_decide_eq_true_2. }
  assert (a_remove k (abs l') = a_remove k (abs l)) as Hrem.
  { rewrite <- (abs_Remove_wf l el k v0 Hwf Hin), <- (abs_Remove_wf l' el k v Hwf' Hin').
    cbn [order l']. by rewrite Remove_set_value. }
  split; [exact (wf_perm _ _ Hwf' (MoveToFront_perm _ _))|]. split; [done|].
  pose proof (abs_MoveToFront l' el k v Hwf' Hin') as E. rewrite Hrem in E.
  unfold abs at 1. cbn [order]. change (set_value el v (order l)) with (order l'). rewrite E.
  rewrite take_ge; [done|]. apply (f_equal length) in E.
  rewrite length_fmap, (MoveToFront_perm el (order l')) in E. rewrite <- E.
  pose proof (wf_len l' Hwf') as Hlen. cbn [cap l'] in Hlen. lia.
Qed.

Lemma Put_refines_miss k v l :
  wf l → items l !! k = None →
  wf (Put k v l) ∧ cap (Put k v l) = cap l ∧ abs (Put k v l) = a_Put (cap l) k v (abs l).
Proof.
  intros Hwf Hk. unfold Put, a_Put. rewrite Hk, (a_remove_absent l k Hwf Hk).
  pose proof (wf_push l k v Hwf Hk) as Hwf1.
  set (o1 := (fresh l, mkEntry k v) :: order l) in *.
  change ((k, v) :: abs l) with ((λ p, (key p.2, value p.2)) <$> o1).
  pose proof (wf_cap l Hwf). pose proof (wf_len l Hwf).
  assert (length o1 = S (length (order l))) as Hl1 by done.
  destruct (Z.ltb_spec (cap l) (Z.of_nat (length o1))) as [Hlt|Hge].
  - destruct (last o1) as [[x e]|] eqn:Hlast; [|by apply last_None in Hlast].
    apply last_Some in Hlast as [o Ho].
    destruct (evict_back _ o x e Hwf1) as [Hr Hwf2]; [cbn; lia|done|]. cbn [order] in Hr.
    rewrite Hr. cbn in Hwf2. rewrite Z.add_simpl_r in Hwf2. split; [done|]. split; [done|].
    assert (length o = Z.to_nat (cap l)) as Hlo.
    { rewrite Ho, length_app in Hl1, Hlt. cbn in Hl1, Hlt. lia. }
    rewrite Ho, fmap_app. unfold abs. cbn [order].
    by rewrite take_app_le, take_ge by (rewrite length_fmap; lia).
  - split; [destruct Hwf1; split; cbn in *; [lia|lia|done|done|done]|]. split; [done|].
    by rewrite take_ge by (rewrite length_fmap; lia).
Qed.

Lemma Put_refines k v l :
  wf l → wf (Put k v l) ∧ cap (Put k v l) = cap l ∧
         abs (Put k v l) = a_Put (cap l) k v (abs l).
Proof.
  intros Hwf. destruct (items l !! k) as [el|] eqn:Hk;
    [by eapply Put_refines_hit|by apply Put_refines_miss].
Qed.

Lemma Get_refines k l :
  wf l → wf (Get k l).2 ∧ cap (Get k l).2 = cap l ∧
         ((Get k l).1, abs (Get k l).2) = a_Get k (abs l).
Proof.
  intros Hwf. unfold Get, a_Get. destruct (items l !! k) as [el|] eqn:Hk.
  - apply (wf_items l Hwf) in Hk as [v Hin].
    rewrite (proj2 (a_lookup_elem_of l k v Hwf)) by eauto.
    split; [apply (wf_perm _ _ Hwf), MoveToFront_perm|]. split; [done|].
    cbn [fst snd]. unfold abs at 1. cbn [order].
    rewrite (abs_MoveToFront l el k v Hwf Hin).
    unfold MoveToFront. rewrite (filter_elem _ _ _ (wf_nodup l Hwf) Hin). cbn.
    by rewrite bool_decide_eq_true_2.
  - destruct (a_lookup k (abs l)) as [v|] eqn:Ha; [|done].
    apply (a_lookup_elem_of l k v Hwf) in Ha as [el Hin].
    rewrite (proj2 (wf_items l Hwf k el)) in Hk by eauto. done.
Qed.

(** ** Runs of calls *)

Inductive op : Type :=
| OPut (k : string) (v : resultEntry)
| OGet (k : string).

(** The answers of the [Get] calls, in order, and the final cache. *)
Fixpoint run (ops : list op) (l : t) : list (resultEntry * bool) * t :=
  match ops with
  | [] => ([], l)
  | OPut k v :: ops => run ops (Put k v l)
  | OGet k :: ops => let '(r, l) := Get k l in let '(rs, l) := run ops l in (r :: rs, l)
  end.

Fixpoint a_run (cap : Z) (ops : list op) (al : pairs) : list (resultEntry * bool) * pairs :=
  match ops with
  | [] => ([], al)
  | OPut k v :: ops => a_run cap ops (a_Put cap k v al)
  | OGet k :: ops => let '(r, al) := a_Get k al in let '(rs, al) := a_run cap ops al in (r :: rs, al)
  end.

Lemma run_refines ops l :
  wf l → wf (run ops l).2 ∧ cap (run ops l).2 = cap l ∧
         ((run ops l).1, abs (run ops l).2) = a_run (cap l) ops (abs l).
Proof.
  revert l. induction ops as [|[k v|k] ops IH]; intros l Hwf; [done|..]; cbn [run a_run].
  - destruct (Put_refines k v l Hwf) as (Hwf' & Hc & <-). rewrite <- Hc. by apply IH.
  - destruct (Get_refines k l Hwf) as (Hwf' & Hc & <-).
    destruct (Get k l) as [r l']. cbn [fst snd] in *. rewrite <- Hc.
    destruct (IH l' Hwf') as (? & ? & <-). by destruct (run ops l').
Qed.

(** ** Properties *)

(** C28: the map-and-linked-list cache refines the list of key-value pairs in
    order of last use: over any sequence of calls it answers every [Get] as the
    abstract cache does, never holds more entries than its capacity (at least
    one), and evicts exactly the least recently used ones. *)
Theorem lru_refinement capacity ops :
  let l := (run ops (newLRUResults capacity)).2 in
  ((run ops (newLRUResults capacity)).1, abs l) = a_run (Z.max 1 capacity) ops [] ∧
  (Len l ≤ Z.max 1 capacity)%Z.
Proof.
  destruct (run_refines ops _ (newLRUResults_wf capacity)) as (Hwf & Hc & Hr).
  assert (cap (newLRUResults capacity) = Z.max 1 capacity) as E.
  { cbn. destruct (Z.ltb_spec capacity 1); lia. }
  rewrite E in *. split; [done|]. unfold Len. rewrite <- Hc. apply wf_len, Hwf.
Qed.

End Lru.
