(* ===== verification/LogHub.v ===== *)
(** * LogHub: live output from workers to watchers

    src/orchestrator/loghub.go.  The hub holds one [jobLogState] per tracked job.
    A subscription is a handle (the Go pointer) into the store [mail] of
    mailboxes, which the hub and the watcher share: the hub pushes events into a
    mailbox, [recv] is the watcher taking the oldest event out. *)

From stdpp Require Import strings gmap sorting prelude.
From S2P Require Import Prelude Types.

Module LogHub.

(** A mailbox: the contents of the buffered channel, and the count of events
    that did not fit. *)
Record logSub : Type := mkSub {
  ch : list pb.JobEvent;
  sub_dropped : Z;
}.

Record jobLogState : Type := mkState {
  lines : list pb.LogLine;
  dropped : Z;
  subs : gset nat;
  terminal : option pb.JobEvent;
}.

Record t : Type := mkHub {
  jobs : gmap string jobLogState;
  maxLines : Z;
  mail : gmap nat logSub;
  next : nat;                      (* the next subscription to allocate *)
}.

Definition defaultMaxBufferedLines : Z := 10000.

Definition subChannelBuffer : Z := 1024.

Definition maxLineBytes : Z := 8192.

Definition NewLogHub : t := mkHub ∅ defaultMaxBufferedLines ∅ 0.

Definition newState : jobLogState := mkState [] 0 ∅ None.

Definition set_job (jobID : string) (st : jobLogState) (h : t) : t :=
  mkHub (<[jobID := st]> (jobs h)) (maxLines h) (mail h) (next h).

Definition delete_job (jobID : string) (h : t) : t :=
  mkHub (delete jobID (jobs h)) (maxLines h) (mail h) (next h).

Definition set_mail (m : gmap nat logSub) (h : t) : t :=
  mkHub (jobs h) (maxLines h) m (next h).

(** [get]: the entry of a job, created when there is none. *)
Definition get (jobID : string) (h : t) : jobLogState * t :=
  match jobs h !! jobID with
  | Some st => (st, h)
  | None => (newState, set_job jobID newState h)
  end.

Definition truncate (l : pb.LogLine) : pb.LogLine :=
  if (maxLineBytes <? Z.of_nat (String.length (pb.line l)))%Z
  then pb.mkLogLine (String.substring 0 (Z.to_nat maxLineBytes) (pb.line l) +:+ "…[truncated]")
         (pb.is_stderr l) (pb.ts_unix_ms l)
  else l.

Definition log_event (jobID : string) (l : pb.LogLine) : pb.JobEvent :=
  pb.mkJobEvent jobID (pb.JobEvent_Log l).

(** [select { case sub.ch <- ev: default: sub.dropped++ }]. *)
Definition push (ev : pb.JobEvent) (sub : logSub) : logSub :=
  if (Z.of_nat (length (ch sub)) <? subChannelBuffer)%Z
  then mkSub (ch sub ++ [ev]) (sub_dropped sub)
  else mkSub (ch sub) (sub_dropped sub + 1).

(** [for sub := range subs]: every mailbox of the set gets the event once. *)
Definition fan_out (ev : pb.JobEvent) (ss : gset nat) (m : gmap nat logSub) : gmap nat logSub :=
  set_fold (λ i m, alter (push ev) i m) m ss.

(** One iteration of the loop of [Append]. *)
Definition append_line (jobID : string) (l : pb.LogLine) (max : Z)
    (stm : jobLogState * gmap nat logSub) : jobLogState * gmap nat logSub :=
  let '(st, m) := stm in
  let l := truncate l in
  let st := if (max <=? Z.of_nat (length (lines st)))%Z
            then mkState (lines st) (dropped st + 1) (subs st) (terminal st)
            else mkState (lines st ++ [l]) (dropped st) (subs st) (terminal st) in
  (st, fan_out (log_event jobID l) (subs st) m).

Definition Append (jobID : string) (ls : list pb.LogLine) (h : t) : t :=
  match ls with
  | [] => h
  | _ =>
      let '(st, h) := get jobID h in
      match terminal st with
      | Some _ => h
      | None =>
          let '(st, m) := foldl (λ stm l, append_line jobID l (maxLines h) stm) (st, mail h) ls in
          set_mail m (set_job jobID st h)
      end
  end.

Definition Subscribe (jobID : string) (h : t) :
    (nat * list pb.JobEvent * option pb.JobEvent) * t :=
  let '(st, h) := get jobID h in
  let sub := next h in
  let st := mkState (lines st) (dropped st) ({[sub]} ∪ subs st) (terminal st) in
  ((sub, log_event jobID <$> lines st, terminal st),
   mkHub (<[jobID := st]> (jobs h)) (maxLines h) (<[sub := mkSub [] 0]> (mail h)) (S sub)).

Definition Unsubscribe (jobID : string) (sub : nat) (h : t) : t :=
  match jobs h !! jobID with
  | None => h
  | Some st =>
      let st := mkState (lines st) (dropped st) (subs st ∖ {[sub]}) (terminal st) in
      match terminal st with
      | Some _ => if bool_decide (subs st = ∅) then delete_job jobID h else set_job jobID st h
      | None => set_job jobID st h
      end
  end.

Definition Finish (jobID : string) (result : pb.JobEvent) (h : t) : t :=
  match jobs h !! jobID with
  | None => h
  | Some st =>
      match terminal st with
      | Some _ => h
      | None =>
          let st := mkState (lines st) (dropped st) (subs st) (Some result) in
          let h := set_mail (fan_out result (subs st) (mail h)) (set_job jobID st h) in
          if bool_decide (subs st = ∅) then delete_job jobID h else h
      end
  end.

Definition JobCount (h : t) : Z := Z.of_nat (size (jobs h)).

(** The watcher's side: [<-sub.ch]. *)
Definition recv (sub : nat) (h : t) : option pb.JobEvent * t :=
  match mail h !! sub with
  | Some (mkSub (ev :: evs) d) => (Some ev, set_mail (<[sub := mkSub evs d]> (mail h)) h)
  | _ => (None, h)
  end.

(** ** Invariant

    Entries of finished jobs have a subscriber, buffers are bounded, and every
    subscriber of an entry has a mailbox of its own. *)

Record wf_entry (h : t) (st : jobLogState) : Prop := {
  entry_lines : (Z.of_nat (length (lines st)) ≤ maxLines h)%Z;
  entry_terminal : is_Some (terminal st) → subs st ≠ ∅;
  entry_mail : ∀ i, i ∈ subs st → is_Some (mail h !! i);
}.

Record wf (h : t) : Prop := {
  wf_max : (0 ≤ maxLines h)%Z;
  wf_jobs : ∀ id st, jobs h !! id = Some st → wf_entry h st;
  wf_mail : ∀ i s, mail h !! i = Some s →
    i < next h ∧ (Z.of_nat (length (ch s)) ≤ subChannelBuffer)%Z;
}.

(** ** Lemmas on mailboxes *)

Lemma lookup_fan_out ev (ss : gset nat) m i :
  fan_out ev ss m !! i = (if decide (i ∈ ss) then push ev <$> m !! i else m !! i).
Proof.
  unfold fan_out. pose (P := λ (m' : gmap nat logSub) (X : gset nat),
    m' !! i = if decide (i ∈ X) then push ev <$> m !! i else m !! i).
  apply (set_fold_ind_L P); unfold P.
  - by rewrite decide_False by set_solver.
  - intros x X r Hx IH. destruct (decide (i = x)) as [->|Hne].
    + rewrite lookup_alter_eq, IH. rewrite decide_False, decide_True by set_solver. done.
    + rewrite lookup_alter_ne, IH by done.
      assert (i ∈ {[x]} ∪ X ↔ i ∈ X) as Hi by (clear IH; set_solver).
      destruct (decide (i ∈ X)), (decide (i ∈ {[x]} ∪ X)); tauto.
Qed.

(** Pushing a list of events one by one: a prefix fits, the rest is counted. *)
Definition push_all (evs : list pb.JobEvent) (s : logSub) : logSub :=
  foldl (λ s ev, push ev s) s evs.

Definition room (s : logSub) : nat := Z.to_nat subChannelBuffer - length (ch s).

Lemma push_all_spec evs s :
  (Z.of_nat (length (ch s)) ≤ subChannelBuffer)%Z →
  push_all evs s =
    mkSub (ch s ++ take (room s) evs) (sub_dropped s + Z.of_nat (length evs - room s)).
Proof.
  unfold push_all, room. revert s. induction evs as [|ev evs IH]; intros s Hs.
  { destruct s. cbn. rewrite take_nil, app_nil_r. f_equal. lia. }
  cbn [foldl]. rewrite IH; unfold push.
  - destruct (Z.ltb_spec (Z.of_nat (length (ch s))) subChannelBuffer) as [Hlt|Hge]; cbn [ch sub_dropped].
    + rewrite length_app. cbn [length].
      replace (Z.to_nat subChannelBuffer - length (ch s)) with
        (S (Z.to_nat subChannelBuffer - (length (ch s) + 1))) by lia.
      cbn [take]. rewrite <- app_assoc. cbn. f_equal.
    + replace (Z.to_nat subChannelBuffer - length (ch s)) with 0 by lia.
      cbn [take length]. f_equal. lia.
  - destruct (Z.ltb_spec (Z.of_nat (length (ch s))) subChannelBuffer) as [Hlt|Hge]; cbn; [|done].
    rewrite length_app. cbn. lia.
Qed.

(** What the loop of [Append] does to the entry and to each mailbox. *)
Lemma append_fold jobID max ls st m :
  (Z.of_nat (length (lines st)) ≤ max)%Z →
  let r := foldl (λ stm l, append_line jobID l max stm) (st, m) ls in
  r.1 = mkState (lines st ++ take (Z.to_nat max - length (lines st)) (truncate <$> ls))
          (dropped st + Z.of_nat (length ls - (Z.to_nat max - length (lines st))))
          (subs st) (terminal st) ∧
  (∀ i, r.2 !! i = if decide (i ∈ subs st)
                   then push_all (log_event jobID <$> (truncate <$> ls)) <$> m !! i
                   else m !! i).
Proof.
  revert st m. induction ls as [|l ls IH]; intros st m Hmax.
  { cbn. rewrite take_nil, app_nil_r. split; [destruct st; cbn; f_equal; lia|].
    intros i. destruct (decide _); [|done]. by destruct (m !! i). }
  cbn [foldl append_line].
  destruct (Z.leb_spec max (Z.of_nat (length (lines st)))) as [Hle|Hlt].
  - destruct (IH (mkState (lines st) (dropped st + 1) (subs st) (terminal st))
      (fan_out (log_event jobID (truncate l)) (subs st) m)) as [E1 E2]; [done|].
    cbn [lines dropped subs terminal] in *. rewrite E1. split.
    + replace (Z.to_nat max - length (lines st)) with 0 by lia. cbn. f_equal. lia.
    + intros i. rewrite E2, lookup_fan_out. destruct (decide _); [|done]. by destruct (m !! i).
  - destruct (IH (mkState (lines st ++ [truncate l]) (dropped st) (subs st) (terminal st))
      (fan_out (log_event jobID (truncate l)) (subs st) m)) as [E1 E2].
    { cbn. rewrite length_app. cbn. lia. }
    cbn [lines dropped subs terminal] in *. rewrite E1. split.
    + rewrite length_app. cbn [length].
      replace (Z.to_nat max - length (lines st)) with
        (S (Z.to_nat max - (length (lines st) + 1))) by lia.
      cbn [fmap list_fmap take]. rewrite <- app_assoc. cbn. f_equal.
    + intros i. rewrite E2, lookup_fan_out. destruct (decide _); [|done]. by destruct (m !! i).
Qed.

(** ** Histories *)

Inductive hop : Type :=
| HAppend (id : string) (ls : list pb.LogLine)
| HFinish (id : string) (r : pb.JobEvent)
| HSubscribe (id : string)
| HUnsubscribe (id : string) (i : nat)
| HRecv (i : nat).

(** One call; [HRecv] also says which watcher took which event. *)
Definition hstep (o : hop) (h : t) : list (nat * pb.JobEvent) * t :=
  match o with
  | HAppend id ls => ([], Append id ls h)
  | HFinish id r => ([], Finish id r h)
  | HSubscribe id => ([], (Subscribe id h).2)
  | HUnsubscribe id i => ([], Unsubscribe id i h)
  | HRecv i =>
      match recv i h with
      | (Some ev, h) => ([(i, ev)], h)
      | (None, h) => ([], h)
      end
  end.

Fixpoint hrun (ops : list hop) (h : t) : list (nat * pb.JobEvent) * t :=
  match ops with
  | [] => ([], h)
  | o :: ops => let '(r, h) := hstep o h in let '(rs, h) := hrun ops h in (r ++ rs, h)
  end.

(** The events the watchers of [id] should see: log lines until the job is
    finished, the first terminal event, nothing after it. *)
Fixpoint emitted (id : string) (fin : bool) (ops : list hop) : list pb.JobEvent :=
  match ops with
  | [] => []
  | HAppend id' ls :: ops =>
      (if bool_decide (id' = id) && negb fin then log_event id <$> (truncate <$> ls) else [])
        ++ emitted id fin ops
  | HFinish id' r :: ops =>
      if bool_decide (id' = id) && negb fin then r :: emitted id true ops
      else emitted id fin ops
  | _ :: ops => emitted id fin ops
  end.

(** What watcher [i] took. *)
Definition taken (i : nat) (rs : list (nat * pb.JobEvent)) : list pb.JobEvent :=
  (filter (λ p, p.1 = i) rs).*2.

(** Watcher [i] is subscribed to [id] and to nothing else; [s] is its mailbox. *)
Record watching (i : nat) (id : string) (fin : bool) (s : logSub) (h : t) : Prop := {
  w_mail : mail h !! i = Some s;
  w_entry : ∃ st, jobs h !! id = Some st ∧ i ∈ subs st ∧
    (if fin then is_Some (terminal st) else terminal st = None);
  w_other : ∀ id' st', id' ≠ id → jobs h !! id' = Some st' → i ∉ subs st';
}.

(** [s'] holds what [s] held and then the events [evs], as far as there was
    room; when nothing was dropped it holds all of them. *)
Definition received_from (s s' : logSub) (got evs : list pb.JobEvent) : Prop :=
  (sub_dropped s ≤ sub_dropped s')%Z ∧
  sublist (got ++ ch s') (ch s ++ evs) ∧
  (sub_dropped s' = sub_dropped s → got ++ ch s' = ch s ++ evs).

Lemma received_refl s : received_from s s [] [].
Proof. split; [lia|]. rewrite app_nil_r. done. Qed.

Lemma received_trans s1 s2 s3 g1 g2 e1 e2 :
  received_from s1 s2 g1 e1 → received_from s2 s3 g2 e2 →
  received_from s1 s3 (g1 ++ g2) (e1 ++ e2).
Proof.
  intros (? & Hs1 & He1) (? & Hs2 & He2). split; [lia|]. split.
  - rewrite <- app_assoc, (app_assoc (ch s1)). etransitivity.
    + apply sublist_app; [reflexivity|apply Hs2].
    + rewrite app_assoc. by apply sublist_app.
  - intros Heq. rewrite <- app_assoc, He2, app_assoc, He1, app_assoc by lia. done.
Qed.

Lemma received_push evs s :
  (Z.of_nat (length (ch s)) ≤ subChannelBuffer)%Z →
  received_from s (push_all evs s) [] evs ∧
  (Z.of_nat (length (ch (push_all evs s))) ≤ subChannelBuffer)%Z.
Proof.
  intros Hs. rewrite push_all_spec by done. split.
  - split; [cbn; lia|]. cbn [ch sub_dropped app]. split.
    + apply sublist_app; [reflexivity|]. apply sublist_take.
    + intros Heq. rewrite take_ge by lia. done.
  - cbn [ch]. rewrite length_app, length_take. unfold room. lia.
Qed.

(** ** Equations of the operations *)

Lemma get_lookup id h : jobs (get id h).2 !! id = Some (get id h).1.
Proof.
  unfold get. destruct (jobs h !! id) eqn:E; [done|]. cbn. by rewrite lookup_insert_eq.
Qed.

Lemma get_other id id' h : id' ≠ id → jobs (get id h).2 !! id' = jobs h !! id'.
Proof.
  intros. unfold get. destruct (jobs h !! id); [done|]. cbn. by rewrite lookup_insert_ne.
Qed.

Lemma get_rest id h :
  maxLines (get id h).2 = maxLines h ∧ mail (get id h).2 = mail h ∧ next (get id h).2 = next h.
Proof. unfold get. by destruct (jobs h !! id). Qed.

Lemma get_Some id h st : jobs h !! id = Some st → get id h = (st, h).
Proof. unfold get. by intros ->. Qed.

(** [Append] on an entry that is not finished. *)
Lemma Append_open id ls h st :
  jobs h !! id = Some st → terminal st = None →
  (Z.of_nat (length (lines st)) ≤ maxLines h)%Z → ls ≠ [] →
  let k := Z.to_nat (maxLines h) - length (lines st) in
  jobs (Append id ls h) =
    <[id := mkState (lines st ++ take k (truncate <$> ls))
              (dropped st + Z.of_nat (length ls - k)) (subs st) None]> (jobs h) ∧
  maxLines (Append id ls h) = maxLines h ∧ next (Append id ls h) = next h ∧
  (∀ i, mail (Append id ls h) !! i =
     if decide (i ∈ subs st)
     then push_all (log_event id <$> (truncate <$> ls)) <$> mail h !! i
     else mail h !! i).
Proof.
  intros Hst Ht Hmax Hls k. unfold Append. destruct ls as [|l ls]; [done|].
  rewrite (get_Some _ _ _ Hst), Ht.
  pose proof (append_fold id (maxLines h) (l :: ls) st (mail h) Hmax) as [E1 E2].
  destruct (foldl _ _ _) as [st' m]. cbn [fst snd] in E1, E2. subst st'.
  cbn [jobs set_mail set_job maxLines next mail]. rewrite Ht. eauto.
Qed.

(** [Append] with no entry makes one first. *)
Lemma Append_get id ls h : ls ≠ [] → Append id ls h = Append id ls (get id h).2.
Proof.
  intros Hls. unfold Append. destruct ls as [|l ls]; [done|].
  rewrite (get_Some _ _ _ (get_lookup id h)). by destruct (get id h).
Qed.

Lemma Append_closed id ls h st :
  jobs h !! id = Some st → is_Some (terminal st) → Append id ls h = h.
Proof.
  intros Hst [r Hr]. unfold Append. destruct ls; [done|]. by rewrite (get_Some _ _ _ Hst), Hr.
Qed.

(** [Finish] on an entry that is not finished. *)
Lemma Finish_open id r h st :
  jobs h !! id = Some st → terminal st = None →
  jobs (Finish id r h) =
    (if bool_decide (subs st = ∅) then delete id (jobs h)
     else <[id := mkState (lines st) (dropped st) (subs st) (Some r)]> (jobs h)) ∧
  maxLines (Finish id r h) = maxLines h ∧ next (Finish id r h) = next h ∧
  mail (Finish id r h) = fan_out r (subs st) (mail h).
Proof.
  intros Hst Ht. unfold Finish. rewrite Hst, Ht. cbn [subs].
  destruct (bool_decide _); cbn; [|done]. by rewrite delete_insert_eq.
Qed.

(** [wf] of an entry that is put in place of another one. *)
Lemma wf_update h h' id st :
  wf h → maxLines h' = maxLines h → next h ≤ next h' →
  (jobs h' = <[id := st]> (jobs h) ∧ wf_entry h' st ∨ jobs h' = delete id (jobs h)) →
  (∀ i, is_Some (mail h !! i) → is_Some (mail h' !! i)) →
  (∀ i s, mail h' !! i = Some s →
     i < next h' ∧ (Z.of_nat (length (ch s)) ≤ subChannelBuffer)%Z) →
  wf h'.
Proof.
  intros Hwf Hm Hn Hj Hsome Hmail. split; [rewrite Hm; apply Hwf| |done].
  assert (∀ id' st', jobs h !! id' = Some st' → wf_entry h' st') as Hold.
  { intros id' st' H'. destruct (wf_jobs _ Hwf _ _ H') as [H1 H2 H3].
    split; [by rewrite Hm|done|]. intros i Hi. by apply Hsome, H3. }
  intros id' st' H'. destruct Hj as [[Hj Hst]|Hj]; rewrite Hj in H'.
  - apply lookup_insert_Some in H' as [[_ <-]|[_ H']]; eauto.
  - apply lookup_delete_Some in H' as [_ H']. eauto.
Qed.

Lemma get_wf id h : wf h → wf (get id h).2.
Proof.
  intros Hwf. unfold get. destruct (jobs h !! id) eqn:E; [done|].
  apply (wf_update h _ id newState); try done.
  - left. split; [done|]. split; cbn; [apply Hwf|by intros []|set_solver].
  - apply Hwf.
Qed.

Lemma push_room ev s :
  (Z.of_nat (length (ch s)) ≤ subChannelBuffer)%Z →
  (Z.of_nat (length (ch (push ev s))) ≤ subChannelBuffer)%Z.
Proof.
  unfold push. destruct (Z.ltb_spec (Z.of_nat (length (ch s))) subChannelBuffer); cbn; [|done].
  rewrite length_app. cbn. lia.
Qed.

Lemma Append_wf id ls h : wf h → wf (Append id ls h).
Proof.
  intros Hwf. destruct (decide (ls = [])) as [->|Hls]; [done|].
  rewrite Append_get by done. pose proof (get_lookup id h) as Hst.
  apply (get_wf id) in Hwf. destruct (get id h) as [st h0]. cbn [fst snd] in *.
  destruct (wf_jobs _ Hwf _ _ Hst) as [Hl Ht Hm].
  destruct (terminal st) eqn:Et; [erewrite Append_closed; eauto|].
  destruct (Append_open id ls h0 st Hst Et Hl Hls) as (Ej & Em & En & Ei).
  eapply (wf_update h0); [done|done|lia|left; split; [exact Ej|]| |].
  - split; cbn.
    + rewrite Em, length_app, length_take. lia.
    + by intros [].
    + intros i Hi. rewrite Ei, decide_True by done. apply fmap_is_Some. eauto.
  - intros i Hi. rewrite Ei. destruct (decide _); [by apply fmap_is_Some|done].
  - intros i s. rewrite Ei, En. destruct (decide _); [|apply Hwf].
    intros (s0 & H0 & ->)%fmap_Some. destruct (wf_mail _ Hwf _ _ H0). split; [done|].
    by apply received_push.
Qed.

Lemma Subscribe_wf id h : wf h → wf (Subscribe id h).2.
Proof.
  intros Hwf. unfold Subscribe. pose proof (get_lookup id h) as Hst. apply (get_wf id) in Hwf.
  destruct (get id h) as [st h0]. cbn [fst snd] in *.
  destruct (wf_jobs _ Hwf _ _ Hst) as [Hl Ht Hm].
  eapply (wf_update h0); [done|done|cbn; lia|left; split; [reflexivity|]| |]; cbn.
  - split; cbn; [done|set_solver|]. intros i Hi.
    destruct (decide (i = next h0)) as [->|]; [by rewrite lookup_insert_eq|].
    rewrite lookup_insert_ne by done. apply Hm. set_solver.
  - intros i Hi. destruct (decide (i = next h0)) as [->|]; [by rewrite lookup_insert_eq|].
    by rewrite lookup_insert_ne.
  - intros i s [[<- <-]|[_ H]]%lookup_insert_Some; [by split; [lia|vm_compute]|].
    destruct (wf_mail _ Hwf _ _ H). lia.
Qed.

Lemma Unsubscribe_wf id i h : wf h → wf (Unsubscribe id i h).
Proof.
  intros Hwf. unfold Unsubscribe. destruct (jobs h !! id) as [st|] eqn:Hst; [|done].
  destruct (wf_jobs _ Hwf _ _ Hst) as [Hl Ht Hm]. cbn [terminal subs].
  assert (wf (delete_job id h)) as Hdel.
  { apply (wf_update h _ id newState); [done|done|done|by right|done|apply Hwf]. }
  assert ((is_Some (terminal st) → subs st ∖ {[i]} ≠ ∅) → wf
    (set_job id (mkState (lines st) (dropped st) (subs st ∖ {[i]}) (terminal st)) h)) as Hset.
  { intros Hne. eapply (wf_update h); [done|done|done|left; split; [reflexivity|]|done|apply Hwf].
    split; cbn; [done|done|]. intros. apply Hm. set_solver. }
  destruct (terminal st) eqn:Et.
  - case_bool_decide; [done|]. by apply Hset.
  - apply Hset. by intros [].
Qed.

Lemma Finish_wf id r h : wf h → wf (Finish id r h).
Proof.
  intros Hwf. destruct (jobs h !! id) as [st|] eqn:Hst; [|by unfold Finish; rewrite Hst].
  destruct (terminal st) eqn:Et; [unfold Finish; by rewrite Hst, Et|].
  destruct (wf_jobs _ Hwf _ _ Hst) as [Hl Ht Hm].
  destruct (Finish_open id r h st Hst Et) as (Ej & Em & En & Ei).
  assert (∀ i, is_Some (mail h !! i) → is_Some (mail (Finish id r h) !! i)) as Hsome.
  { intros i Hi. rewrite Ei, lookup_fan_out. destruct (decide _); [by apply fmap_is_Some|done]. }
  eapply (wf_update h); [done|done|lia| |exact Hsome|].
  - case_bool_decide; [by right|left]. split; [exact Ej|].
    split; cbn; [by rewrite Em|done|]. intros. by apply Hsome, Hm.
  - intros i s. rewrite Ei, En, lookup_fan_out. destruct (decide _); [|apply Hwf].
    intros (s0 & H0 & ->)%fmap_Some. destruct (wf_mail _ Hwf _ _ H0). split; [done|].
    by apply push_room.
Qed.

Lemma recv_wf i h : wf h → wf (recv i h).2.
Proof.
  intros Hwf. unfold recv. destruct (mail h !! i) as [[[|ev evs] d]|] eqn:E; [done| |done].
  destruct (wf_mail _ Hwf _ _ E) as [Hi Hroom]. cbn in Hroom.
  assert (∀ i', is_Some (mail h !! i') → is_Some (<[i:=mkSub evs d]> (mail h) !! i')) as Hsome.
  { intros i' Hi'. rewrite lookup_insert. by destruct (decide _). }
  split; cbn; [apply Hwf| |].
  - intros id st H. destruct (wf_jobs _ Hwf _ _ H). split; cbn; auto.
  - intros i' s [[<- <-]|[_ H]]%lookup_insert_Some; [cbn; lia|]. by apply Hwf.
Qed.

Lemma NewLogHub_wf : wf NewLogHub.
Proof. split; [by vm_compute| |]; intros ? ? H; cbn in H; by rewrite lookup_empty in H. Qed.

Lemma hstep_wf o h : wf h → wf (hstep o h).2.
Proof.
  destruct o; cbn; auto using Append_wf, Finish_wf, Subscribe_wf, Unsubscribe_wf.
  intros Hwf. apply (recv_wf i) in Hwf. by destruct (recv i h) as [[]].
Qed.

Lemma hrun_wf ops h : wf h → wf (hrun ops h).2.
Proof.
  revert h. induction ops as [|o ops IH]; intros h Hwf; [done|].
  cbn. apply (hstep_wf o) in Hwf. destruct (hstep o h) as [r h1].
  specialize (IH h1 Hwf). by destruct (hrun ops h1).
Qed.

(** ** The stream of one watcher *)

Definition finishes (id : string) (o : hop) : bool :=
  match o with HFinish id' _ => bool_decide (id' = id) | _ => false end.

Lemma emitted_cons id fin o ops :
  emitted id fin (o :: ops) = emitted id fin [o] ++ emitted id (fin || finishes id o) ops.
Proof.
  destruct o; cbn; rewrite ?orb_false_r, ?app_nil_r; try done.
  case_bool_decide; destruct fin; done.
Qed.

Lemma taken_app i r1 r2 : taken i (r1 ++ r2) = taken i r1 ++ taken i r2.
Proof. unfold taken. by rewrite filter_app, fmap_app. Qed.

Lemma watching_frame i id fin s h h' :
  watching i id fin s h →
  jobs h' !! id = jobs h !! id → mail h' !! i = mail h !! i →
  (∀ id' st', id' ≠ id → jobs h' !! id' = Some st' → i ∉ subs st') →
  watching i id fin s h'.
Proof. intros [H1 H2 H3] Ej Em Ho. split; [by rewrite Em|by rewrite Ej|done]. Qed.

(** Replacing the entry of another job, without the watcher among its subscribers. *)
Lemma watching_insert i id fin s h h' id' st :
  watching i id fin s h → id' ≠ id → i ∉ subs st →
  jobs h' = <[id' := st]> (jobs h) → mail h' !! i = mail h !! i →
  watching i id fin s h'.
Proof.
  intros Hw Hne Hi Ej Em. apply (watching_frame _ _ _ _ h); [done| |done|].
  - by rewrite Ej, lookup_insert_ne.
  - intros id'' st'' Hne'. rewrite Ej. intros [[_ <-]|[_ H]]%lookup_insert_Some; [done|].
    by eapply Hw.
Qed.

Lemma watching_delete i id fin s h h' id' :
  watching i id fin s h → id' ≠ id →
  jobs h' = delete id' (jobs h) → mail h' !! i = mail h !! i →
  watching i id fin s h'.
Proof.
  intros Hw Hne Ej Em. apply (watching_frame _ _ _ _ h); [done| |done|].
  - by rewrite Ej, lookup_delete_ne.
  - intros id'' st'' Hne'. rewrite Ej. intros [_ H]%lookup_delete_Some. by eapply Hw.
Qed.

Lemma watching_get i id fin s h id' : watching i id fin s h → watching i id fin s (get id' h).2.
Proof.
  intros Hw. unfold get. destruct (jobs h !! id') eqn:E; [done|].
  apply (watching_insert _ _ _ _ h _ id' newState); [done| |set_solver|done|done].
  intros ->. destruct (w_entry _ _ _ _ _ Hw) as (st & ? & _). congruence.
Qed.

(** Replacing the watcher's own entry. *)
Lemma watching_own i id fin (fin' : bool) s s' h h' st :
  watching i id fin s h →
  jobs h' = <[id := st]> (jobs h) → i ∈ subs st →
  (if fin' then is_Some (terminal st) else terminal st = None) →
  mail h' !! i = Some s' → watching i id fin' s' h'.
Proof.
  intros Hw Ej Hi Ht Em. split; [done| |].
  - exists st. by rewrite Ej, lookup_insert_eq.
  - intros id' st' Hne. rewrite Ej, lookup_insert_ne by done. by apply Hw.
Qed.

Lemma watch_Append_other i id fin s h id' ls :
  wf h → watching i id fin s h → id' ≠ id → watching i id fin s (Append id' ls h).
Proof.
  intros Hwf Hw Hne. destruct (decide (ls = [])) as [->|Hls]; [done|].
  rewrite Append_get by done. pose proof (get_lookup id' h) as Hst.
  apply (get_wf id') in Hwf. apply (watching_get _ _ _ _ _ id') in Hw.
  destruct (get id' h) as [st h0]. cbn [fst snd] in *.
  destruct (terminal st) eqn:Et; [erewrite Append_closed; eauto|].
  destruct (Append_open id' ls h0 st Hst Et (entry_lines _ _ (wf_jobs _ Hwf _ _ Hst)) Hls)
    as (Ej & _ & _ & Ei).
  assert (i ∉ subs st) as Hi by by eapply Hw.
  eapply watching_insert; [done|done| |exact Ej|]; [done|].
  by rewrite Ei, decide_False.
Qed.

Lemma watch_Append_own i id fin s h ls :
  wf h → watching i id fin s h →
  ∃ s', watching i id fin s' (Append id ls h) ∧
        received_from s s' [] (emitted id fin [HAppend id ls]).
Proof.
  intros Hwf Hw. cbn. rewrite bool_decide_true, app_nil_r by done. cbn.
  destruct (w_entry _ _ _ _ _ Hw) as (st & Hst & Hi & Ht).
  destruct fin; cbn.
  { exists s. erewrite Append_closed by eauto. auto using received_refl. }
  destruct (decide (ls = [])) as [->|Hls]; [exists s; auto using received_refl|].
  destruct (Append_open id ls h st Hst Ht (entry_lines _ _ (wf_jobs _ Hwf _ _ Hst)) Hls)
    as (Ej & _ & _ & Ei).
  specialize (Ei i). rewrite decide_True, (w_mail _ _ _ _ _ Hw) in Ei by done.
  eexists. split; [eapply watching_own; [done|exact Ej|done|done|exact Ei]|].
  apply received_push. by eapply Hwf, Hw.
Qed.

Lemma watch_Finish_other i id fin s h id' r :
  watching i id fin s h → id' ≠ id → watching i id fin s (Finish id' r h).
Proof.
  intros Hw Hne. destruct (jobs h !! id') as [st|] eqn:Hst; [|by unfold Finish; rewrite Hst].
  destruct (terminal st) eqn:Et; [unfold Finish; by rewrite Hst, Et|].
  destruct (Finish_open id' r h st Hst Et) as (Ej & _ & _ & Em).
  assert (i ∉ subs st) as Hi by by eapply Hw.
  assert (mail (Finish id' r h) !! i = mail h !! i) as Ei
    by by rewrite Em, lookup_fan_out, decide_False.
  case_bool_decide; [by eapply watching_delete|].
  eapply watching_insert; [done|done| |exact Ej|]; done.
Qed.

Lemma watch_Finish_own i id fin s h r :
  wf h → watching i id fin s h →
  ∃ s', watching i id true s' (Finish id r h) ∧
        received_from s s' [] (emitted id fin [HFinish id r]).
Proof.
  intros Hwf Hw. cbn. rewrite bool_decide_true by done. cbn.
  destruct (w_entry _ _ _ _ _ Hw) as (st & Hst & Hi & Ht).
  destruct fin; cbn.
  { exists s. destruct Ht as [r' Ht]. unfold Finish. rewrite Hst, Ht. auto using received_refl. }
  destruct (Finish_open id r h st Hst Ht) as (Ej & _ & _ & Em).
  rewrite bool_decide_false in Ej by set_solver.
  assert (mail (Finish id r h) !! i = Some (push r s)) as Ei.
  { by rewrite Em, lookup_fan_out, decide_True, (w_mail _ _ _ _ _ Hw). }
  eexists. split; [eapply watching_own; [done|exact Ej|done|cbn; eauto|exact Ei]|].
  apply (received_push [r]). by eapply Hwf, Hw.
Qed.

Lemma watch_Subscribe i id fin s h id' :
  wf h → watching i id fin s h → watching i id fin s (Subscribe id' h).2.
Proof.
  intros Hwf Hw. unfold Subscribe. pose proof (get_lookup id' h) as Hst.
  apply (get_wf id') in Hwf. apply (watching_get _ _ _ _ _ id') in Hw.
  destruct (get id' h) as [st h0]. cbn [fst snd] in *.
  assert (i < next h0) as Hlt by by eapply Hwf, Hw.
  assert (<[next h0:=mkSub [] 0]> (mail h0) !! i = Some s) as Ei
    by (rewrite lookup_insert_ne by lia; apply Hw).
  destruct (decide (id' = id)) as [->|Hne].
  - destruct (w_entry _ _ _ _ _ Hw) as (st' & Hst' & Hi & Ht). simplify_eq.
    eapply watching_own; [done|reflexivity|cbn; set_solver|done|done].
  - eapply watching_insert; [done|done| |reflexivity|]; cbn.
    + assert (i ∉ subs st) by by eapply Hw. apply not_elem_of_union. split; [|done].
      apply not_elem_of_singleton. lia.
    + rewrite Ei. symmetry. apply Hw.
Qed.

Lemma watch_Unsubscribe i id fin s h id' i' :
  watching i id fin s h → (id' = id → i' ≠ i) → watching i id fin s (Unsubscribe id' i' h).
Proof.
  intros Hw Hne. unfold Unsubscribe. destruct (jobs h !! id') as [st|] eqn:Hst; [|done].
  cbn [terminal subs]. destruct (decide (id' = id)) as [->|Hid].
  - destruct (w_entry _ _ _ _ _ Hw) as (st' & Hst' & Hi & Ht). simplify_eq.
    assert (i ∈ subs st ∖ {[i']}) as Hi'.
    { apply elem_of_difference. split; [done|]. apply not_elem_of_singleton.
      intros ->. by apply Hne. }
    rewrite bool_decide_false by set_solver.
    destruct (terminal st) eqn:E; (eapply watching_own;
      [done|reflexivity|done|cbn; done|apply Hw]).
  - assert (i ∉ subs st) as Hi by by eapply Hw.
    assert (i ∉ subs st ∖ {[i']}) as Hi' by set_solver.
    destruct (terminal st); [case_bool_decide; [by eapply watching_delete|]|];
      (eapply watching_insert; [done|done| |reflexivity|done]; done).
Qed.

Lemma watch_recv i id fin s h i' :
  watching i id fin s h →
  ∃ s', watching i id fin s' (hstep (HRecv i') h).2 ∧
        received_from s s' (taken i (hstep (HRecv i') h).1) [].
Proof.
  intros Hw. cbn [hstep]. unfold recv.
  destruct (mail h !! i') as [[[|ev evs] d]|] eqn:E; cbn [fst snd];
    [exists s; auto using received_refl| |exists s; auto using received_refl].
  unfold taken. rewrite filter_cons. cbn [fst]. destruct (decide (i' = i)) as [->|Hne]; cbn.
  - rewrite (w_mail _ _ _ _ _ Hw) in E. simplify_eq. exists (mkSub evs d). split.
    + split; cbn; [by rewrite lookup_insert_eq|apply Hw|apply Hw].
    + split; [cbn; lia|]. cbn. by rewrite app_nil_r.
  - exists s. split; [|apply received_refl].
    split; cbn; [rewrite lookup_insert_ne by done; apply Hw|apply Hw|apply Hw].
Qed.

Lemma watch_step i id fin s h o :
  wf h → watching i id fin s h → o ≠ HUnsubscribe id i →
  ∃ s', watching i id (fin || finishes id o) s' (hstep o h).2 ∧
        received_from s s' (taken i (hstep o h).1) (emitted id fin [o]).
Proof.
  intros Hwf Hw Ho.
  destruct o as [id' ls|id' r|id'|id' i'|i']; cbn [finishes]; rewrite ?orb_false_r.
  - destruct (decide (id' = id)) as [->|Hne]; [by apply watch_Append_own|].
    exists s. split; [by apply watch_Append_other|]. cbn.
    rewrite bool_decide_false by done. apply received_refl.
  - destruct (decide (id' = id)) as [->|Hne].
    + rewrite bool_decide_true, orb_true_r by done. by apply watch_Finish_own.
    + exists s. rewrite bool_decide_false, orb_false_r by done.
      split; [by apply watch_Finish_other|]. cbn.
      rewrite bool_decide_false by done. apply received_refl.
  - exists s. split; [by apply watch_Subscribe|apply received_refl].
  - exists s. split; [|apply received_refl]. apply watch_Unsubscribe; [done|]. by intros -> ->.
  - by apply watch_recv.
Qed.

Lemma watch_run i id ops fin s h :
  wf h → watching i id fin s h → HUnsubscribe id i ∉ ops →
  ∃ s', mail (hrun ops h).2 !! i = Some s' ∧
        received_from s s' (taken i (hrun ops h).1) (emitted id fin ops).
Proof.
  revert fin s h. induction ops as [|o ops IH]; intros fin s h Hwf Hw Ho.
  { exists s. split; [apply Hw|apply received_refl]. }
  apply not_elem_of_cons in Ho as [Ho Hops]. rewrite emitted_cons. cbn [hrun].
  destruct (watch_step i id fin s h o) as (s1 & Hw1 & Hr1); [done|done|congruence|].
  apply (hstep_wf o) in Hwf. destruct (hstep o h) as [r h1]. cbn [fst snd] in *.
  destruct (IH _ _ _ Hwf Hw1 Hops) as (s2 & Hm & Hr2).
  destruct (hrun ops h1) as [rs h2]. cbn [fst snd] in *.
  exists s2. split; [done|]. rewrite taken_app. by eapply received_trans.
Qed.

(** A new subscription watches its job. *)
Lemma Subscribe_watching id h :
  wf h → watching (Subscribe id h).1.1.1 id (bool_decide (is_Some (Subscribe id h).1.2))
           (mkSub [] 0) (Subscribe id h).2.
Proof.
  intros Hwf. unfold Subscribe. pose proof (get_lookup id h) as Hst.
  apply (get_wf id) in Hwf. destruct (get id h) as [st h0]. cbn [fst snd] in *.
  split; cbn; [by rewrite lookup_insert_eq| |].
  - eexists. split; [by rewrite lookup_insert_eq|]. cbn. split; [set_solver|].
    case_bool_decide as E; [done|]. by apply eq_None_not_Some.
  - intros id' st' Hne. rewrite lookup_insert_ne by done. intros H Hi.
    apply (wf_jobs _ Hwf) in H. apply H in Hi as [s Hs].
    apply Hwf in Hs as [Hlt _]. lia.
Qed.

Lemma Unsubscribe_closed id i h st :
  jobs h !! id = Some st → is_Some (terminal st) →
  jobs (Unsubscribe id i h) !! id =
    (if bool_decide (subs st ∖ {[i]} = ∅) then None
     else Some (mkState (lines st) (dropped st) (subs st ∖ {[i]}) (terminal st))).
Proof.
  intros Hst [r Hr]. unfold Unsubscribe. rewrite Hst. cbn [terminal subs]. rewrite Hr.
  case_bool_decide; cbn; [by rewrite lookup_delete_eq|by rewrite lookup_insert_eq].
Qed.

Lemma Unsubscribe_all id l h :
  (∀ st, jobs h !! id = Some st →
     is_Some (terminal st) ∧ subs st ≠ ∅ ∧ ∀ i, i ∈ subs st → i ∈ l) →
  jobs (foldl (λ h i, Unsubscribe id i h) h l) !! id = None.
Proof.
  revert h. induction l as [|i l IH]; intros h H.
  - cbn. destruct (jobs h !! id) as [st|] eqn:E; [|done].
    destruct (H st eq_refl) as (_ & Hne & Hl). destruct Hne. apply set_eq. set_solver.
  - cbn. apply IH. intros st' Hst'.
    destruct (jobs h !! id) as [st|] eqn:E.
    + destruct (H st eq_refl) as (Ht & Hne & Hl).
      rewrite (Unsubscribe_closed _ _ _ _ E Ht) in Hst'.
      case_bool_decide as Hs; [done|]. simplify_eq. cbn. split; [done|]. split; [done|].
      intros i' [Hi' Hne']%elem_of_difference. apply Hl in Hi'. set_solver.
    + unfold Unsubscribe in Hst'. rewrite E in Hst'. congruence.
Qed.

(** ** Predicates on the contents of a hub

    [Θ id i]: watcher [i] may be subscribed to [id]; [Φ i ev]: [ev] may be in the
    mailbox of [i]; [Ψ id ev]: [ev] may be the terminal event of [id]. *)

Record hub_all (Θ : string → nat → Prop) (Φ : nat → pb.JobEvent → Prop)
    (Ψ : string → pb.JobEvent → Prop) (h : t) : Prop := {
  all_subs : ∀ id st i, jobs h !! id = Some st → i ∈ subs st → Θ id i;
  all_mail : ∀ i s ev, mail h !! i = Some s → ev ∈ ch s → Φ i ev;
  all_terminal : ∀ id st ev, jobs h !! id = Some st → terminal st = Some ev → Ψ id ev;
}.

Section hub_all.
Context (Θ : string → nat → Prop) (Φ : nat → pb.JobEvent → Prop) (Ψ : string → pb.JobEvent → Prop).
Implicit Types (h : t).

Lemma hub_all_new : hub_all Θ Φ Ψ NewLogHub.
Proof. split; intros ??? H; cbn in H; by rewrite lookup_empty in H. Qed.

Lemma hub_all_get id h : hub_all Θ Φ Ψ h → hub_all Θ Φ Ψ (get id h).2.
Proof.
  intros [H1 H2 H3]. unfold get. destruct (jobs h !! id) eqn:E; [done|]. split; cbn; [|done|].
  - intros id' st i [[_ <-]|[_ H]]%lookup_insert_Some; [set_solver|eauto].
  - intros id' st ev [[_ <-]|[_ H]]%lookup_insert_Some; [done|eauto].
Qed.

Lemma push_all_elem evs s ev : ev ∈ ch (push_all evs s) → ev ∈ ch s ∨ ev ∈ evs.
Proof.
  unfold push_all. revert s. induction evs as [|e evs IH]; intros s; cbn; [by left|].
  intros [H|H]%IH; [|by right; right]. unfold push in H. destruct (_ <? _)%Z; cbn in H; [|by left].
  apply elem_of_app in H as [H|H]; [by left|]. apply list_elem_of_singleton in H. subst. right. left.
Qed.

Lemma hub_all_Append id ls h :
  wf h → (∀ i l, l ∈ ls → Θ id i → Φ i (log_event id (truncate l))) →
  hub_all Θ Φ Ψ h → hub_all Θ Φ Ψ (Append id ls h).
Proof.
  intros Hwf HΦ Hall. destruct (decide (ls = [])) as [->|Hls]; [done|].
  rewrite Append_get by done. pose proof (get_lookup id h) as Hst.
  apply (get_wf id) in Hwf. apply (hub_all_get id) in Hall.
  destruct (get id h) as [st h0]. cbn [fst snd] in *.
  destruct (terminal st) eqn:Et; [erewrite Append_closed; eauto|].
  destruct (Append_open id ls h0 st Hst Et (entry_lines _ _ (wf_jobs _ Hwf _ _ Hst)) Hls)
    as (Ej & _ & _ & Ei). destruct Hall as [H1 H2 H3]. split.
  - intros id' st' i. rewrite Ej. intros [[<- <-]|[_ H]]%lookup_insert_Some; eauto.
  - intros i s ev. rewrite Ei. destruct (decide (i ∈ subs st)) as [Hi|]; [|eauto].
    intros (s0 & Hs0 & ->)%fmap_Some [H|H]%push_all_elem; [eauto|].
    apply list_elem_of_fmap in H as (l & -> & (l0 & -> & Hl0)%list_elem_of_fmap). eauto.
  - intros id' st' ev. rewrite Ej. intros [[<- <-]|[_ H]]%lookup_insert_Some; [done|eauto].
Qed.

Lemma hub_all_Finish id r h :
  Ψ id r → (∀ i, Θ id i → Φ i r) →
  hub_all Θ Φ Ψ h → hub_all Θ Φ Ψ (Finish id r h).
Proof.
  intros HΨ HΦ Hall. destruct (jobs h !! id) as [st|] eqn:Hst; [|by unfold Finish; rewrite Hst].
  destruct (terminal st) eqn:Et; [unfold Finish; by rewrite Hst, Et|].
  destruct (Finish_open id r h st Hst Et) as (Ej & _ & _ & Em).
  destruct Hall as [H1 H2 H3]. split.
  - intros id' st' i. rewrite Ej. case_bool_decide.
    + intros [_ H']%lookup_delete_Some. eauto.
    + intros [[<- <-]|[_ H']]%lookup_insert_Some; eauto.
  - intros i s ev. rewrite Em, lookup_fan_out. destruct (decide (i ∈ subs st)) as [Hi|]; [|eauto].
    intros (s0 & Hs0 & ->)%fmap_Some. intros H. apply (push_all_elem [r]) in H as [H|H]; [eauto|].
    apply list_elem_of_singleton in H. subst ev. eauto.
  - intros id' st' ev. rewrite Ej. case_bool_decide.
    + intros [_ H']%lookup_delete_Some. eauto.
    + intros [[<- <-]|[_ H']]%lookup_insert_Some; [|eauto]. by intros [= <-].
Qed.

Lemma hub_all_Subscribe id h :
  Θ id (next h) → hub_all Θ Φ Ψ h → hub_all Θ Φ Ψ (Subscribe id h).2.
Proof.
  intros HΘ Hall. unfold Subscribe. pose proof (get_lookup id h) as Hst.
  destruct (get_rest id h) as (_ & _ & En). apply (hub_all_get id) in Hall.
  destruct (get id h) as [st h0]. cbn [fst snd] in *. rewrite <- En in HΘ.
  destruct Hall as [H1 H2 H3]. split; cbn.
  - intros id' st' i [[<- <-]|[_ H]]%lookup_insert_Some; [|eauto]. cbn.
    intros [->%elem_of_singleton|Hi]%elem_of_union; eauto.
  - intros i s ev [[<- <-]|[_ H]]%lookup_insert_Some; [|eauto]. cbn. by intros ?%not_elem_of_nil.
  - intros id' st' ev [[<- <-]|[_ H]]%lookup_insert_Some; [|eauto]. cbn. eauto.
Qed.

Lemma hub_all_Unsubscribe id i h : hub_all Θ Φ Ψ h → hub_all Θ Φ Ψ (Unsubscribe id i h).
Proof.
  intros Hall. unfold Unsubscribe. destruct (jobs h !! id) as [st|] eqn:Hst; [|done].
  cbn [terminal subs]. destruct Hall as [H1 H2 H3].
  assert (hub_all Θ Φ Ψ (delete_job id h)).
  { split; cbn; [|done|]; intros id' st' x [_ H]%lookup_delete_Some; eauto. }
  assert (hub_all Θ Φ Ψ
    (set_job id (mkState (lines st) (dropped st) (subs st ∖ {[i]}) (terminal st)) h)).
  { split; cbn; [|done|]; intros id' st' x [[<- <-]|[_ H']]%lookup_insert_Some; eauto.
    cbn. intros [Hx _]%elem_of_difference. eauto. }
  destruct (terminal st); [|done]. by case_bool_decide.
Qed.

Lemma hub_all_recv i h :
  hub_all Θ Φ Ψ h →
  hub_all Θ Φ Ψ (recv i h).2 ∧ (∀ ev, (recv i h).1 = Some ev → Φ i ev).
Proof.
  intros Hall. unfold recv. destruct (mail h !! i) as [[[|ev evs] d]|] eqn:E; [done| |done].
  destruct Hall as [H1 H2 H3]. split.
  - split; cbn; [done| |done]. intros i' s ev' [[<- <-]|[_ H]]%lookup_insert_Some; [|eauto].
    cbn. intros. eapply H2; [done|]. by right.
  - cbn. intros ev' [= <-]. eapply H2; [done|]. by left.
Qed.

End hub_all.

Lemma hub_all_mono (Θ Θ' : string → nat → Prop) (Φ Φ' : nat → pb.JobEvent → Prop)
    (Ψ Ψ' : string → pb.JobEvent → Prop) h :
  (∀ id i, Θ id i → Θ' id i) → (∀ i ev, Φ i ev → Φ' i ev) → (∀ id ev, Ψ id ev → Ψ' id ev) →
  hub_all Θ Φ Ψ h → hub_all Θ' Φ' Ψ' h.
Proof. intros ??? []. split; eauto. Qed.

(** [Λ id l]: [l] may be in the backlog of [id]. *)
Definition hub_lines (Λ : string → pb.LogLine → Prop) (h : t) : Prop :=
  ∀ id st l, jobs h !! id = Some st → l ∈ lines st → Λ id l.

Section hub_lines.
Context (Λ : string → pb.LogLine → Prop).
Implicit Types (h : t).

Lemma hub_lines_get id h : hub_lines Λ h → hub_lines Λ (get id h).2.
Proof.
  intros H. unfold get. destruct (jobs h !! id) eqn:E; [done|].
  intros id' st l. cbn. intros [[_ <-]|[_ H']]%lookup_insert_Some; [by intros ?%not_elem_of_nil|by eapply H].
Qed.

Lemma hub_lines_Append id ls h :
  wf h → (∀ l, l ∈ ls → Λ id (truncate l)) → hub_lines Λ h → hub_lines Λ (Append id ls h).
Proof.
  intros Hwf HΛ Hall. destruct (decide (ls = [])) as [->|Hls]; [done|].
  rewrite Append_get by done. pose proof (get_lookup id h) as Hst.
  apply (get_wf id) in Hwf. apply (hub_lines_get id) in Hall.
  destruct (get id h) as [st h0]. cbn [fst snd] in *.
  destruct (terminal st) eqn:Et; [erewrite Append_closed; eauto|].
  destruct (Append_open id ls h0 st Hst Et (entry_lines _ _ (wf_jobs _ Hwf _ _ Hst)) Hls) as (Ej & _).
  intros id' st' l. rewrite Ej. intros [[<- <-]|[_ H]]%lookup_insert_Some; [|by eapply Hall]. cbn.
  intros [Hl|Hl]%elem_of_app; [by eapply Hall|].
  apply elem_of_take in Hl as (n & Hl%list_elem_of_lookup_2 & _).
  apply list_elem_of_fmap in Hl as (l0 & -> & Hl0). by apply HΛ.
Qed.

Lemma hub_lines_Finish id r h : hub_lines Λ h → hub_lines Λ (Finish id r h).
Proof.
  intros Hall. destruct (jobs h !! id) as [st|] eqn:Hst; [|by unfold Finish; rewrite Hst].
  destruct (terminal st) eqn:Et; [unfold Finish; by rewrite Hst, Et|].
  destruct (Finish_open id r h st Hst Et) as (Ej & _). intros id' st' l. rewrite Ej. case_bool_decide.
  - intros [_ H']%lookup_delete_Some. by eapply Hall.
  - intros [[<- <-]|[_ H']]%lookup_insert_Some; [cbn; by apply Hall|by eapply Hall].
Qed.

Lemma hub_lines_Subscribe id h :
  hub_lines Λ h →
  hub_lines Λ (Subscribe id h).2 ∧ ∀ ev, ev ∈ (Subscribe id h).1.1.2 → ∃ l, ev = log_event id l ∧ Λ id l.
Proof.
  intros Hall. unfold Subscribe. pose proof (get_lookup id h) as Hst. apply (hub_lines_get id) in Hall.
  destruct (get id h) as [st h0]. cbn [fst snd] in *. split.
  - intros id' st' l. cbn. intros [[<- <-]|[_ H]]%lookup_insert_Some; [|by eapply Hall]. cbn. by apply Hall.
  - intros ev (l & -> & Hl)%list_elem_of_fmap. exists l. split; [done|]. by eapply Hall.
Qed.

Lemma hub_lines_Unsubscribe id i h : hub_lines Λ h → hub_lines Λ (Unsubscribe id i h).
Proof.
  intros Hall. unfold Unsubscribe. destruct (jobs h !! id) as [st|] eqn:Hst; [|done]. cbn [terminal subs].
  assert (hub_lines Λ (delete_job id h)).
  { intros id' st' l. cbn. intros [_ H]%lookup_delete_Some. by eapply Hall. }
  assert (hub_lines Λ (set_job id (mkState (lines st) (dropped st) (subs st ∖ {[i]}) (terminal st)) h)).
  { intros id' st' l. cbn. intros [[<- <-]|[_ H']]%lookup_insert_Some; [cbn; by apply Hall|by eapply Hall]. }
  destruct (terminal st); [|done]. by case_bool_decide.
Qed.

Lemma hub_lines_recv i h : hub_lines Λ h → hub_lines Λ (recv i h).2.
Proof. intros Hall. unfold recv. by destruct (mail h !! i) as [[[|ev evs] d]|]. Qed.

End hub_lines.

(** Subscription [i] belongs to job [id0]: nothing else reaches its mailbox. *)
Definition owns (i : nat) (id0 : string) (h : t) : Prop :=
  i < next h ∧
  hub_all (λ id i', i' = i → id = id0) (λ i' ev, i' = i → pb.ev_job_id ev = id0) (λ _ _, True) h.

Lemma owns_Append i id0 id ls h : wf h → owns i id0 h → owns i id0 (Append id ls h).
Proof.
  intros Hwf [Hn Hall]. split; [|by apply hub_all_Append].
  unfold Append. destruct ls; [done|]. destruct (get_rest id h) as (_ & _ & En).
  destruct (get id h) as [st h0]. cbn [snd] in En. rewrite <- En in Hn.
  destruct (terminal st); [done|]. by destruct (foldl _ _ _).
Qed.

Lemma owns_Finish i id0 id r h : pb.ev_job_id r = id → owns i id0 h → owns i id0 (Finish id r h).
Proof.
  intros Hr [Hn Hall]. split; [|apply hub_all_Finish; [done| |done]; intros; subst; auto].
  unfold Finish. destruct (jobs h !! id) as [st|]; [|done]. destruct (terminal st); [done|].
  by case_bool_decide.
Qed.

Lemma owns_Subscribe i id0 id h : owns i id0 h → owns i id0 (Subscribe id h).2.
Proof.
  intros [Hn Hall]. split; [|apply hub_all_Subscribe; [|done]; intros; lia].
  unfold Subscribe. destruct (get_rest id h) as (_ & _ & En). destruct (get id h) as [st h0].
  cbn in *. lia.
Qed.

Lemma Subscribe_owns id h : wf h → owns (Subscribe id h).1.1.1 id (Subscribe id h).2.
Proof.
  intros Hwf. destruct (Subscribe_watching id h Hwf) as [Hm (st & Hst & Hi & _) Ho].
  split.
  - by apply (Subscribe_wf id) in Hwf; eapply Hwf.
  - split; [| |done].
    + intros id' st' i' Hst' Hi' ->. destruct (decide (id' = id)); [done|]. by destruct (Ho id' st').
    + intros i' s ev Hs Hev ->. rewrite Hm in Hs. injection Hs as <-. by apply not_elem_of_nil in Hev.
Qed.

Lemma owns_Unsubscribe i id0 id i' h : owns i id0 h → owns i id0 (Unsubscribe id i' h).
Proof.
  intros [Hn Hall]. split; [|by apply hub_all_Unsubscribe].
  unfold Unsubscribe. destruct (jobs h !! id) as [st|]; [|done]. cbn [terminal subs].
  destruct (terminal st); [|done]. by case_bool_decide.
Qed.

Lemma owns_recv i id0 i' h :
  owns i id0 h →
  owns i id0 (recv i' h).2 ∧ (∀ ev, i' = i → (recv i' h).1 = Some ev → pb.ev_job_id ev = id0).
Proof.
  intros [Hn Hall]. destruct (hub_all_recv _ _ _ i' h Hall) as [H1 H2]. split.
  - split; [|done]. unfold recv. by destruct (mail h !! i') as [[[|??] ?]|].
  - intros ev -> H. by apply H2.
Qed.

(** ** Properties *)

(** After any sequence of calls on a new hub, line buffers hold at most
    [maxLines] lines, mailboxes at most [subChannelBuffer] events, every
    subscriber of an entry has a mailbox, and the entry of a finished job exists
    only while somebody watches it. *)
Theorem hub_invariant ops : wf (hrun ops NewLogHub).2.
Proof. apply hrun_wf, NewLogHub_wf. Qed.

(** C26: What a watcher sees.  Subscribing replays exactly the buffered lines.
    From then on, through any interleaving of calls for this and other jobs and
    other watchers (and until it unsubscribes), what the watcher has taken,
    followed by what is in its mailbox, is in order a subsequence of: the lines
    appended to its job before the job finished, then the first terminal event;
    and it is all of that when its drop counter is still zero. *)
Theorem watcher_stream id ops h :
  wf h →
  let '((i, replay, term), h1) := Subscribe id h in
  replay = (log_event id <$> lines (get id h).1) ∧
  (HUnsubscribe id i ∉ ops →
   ∃ s, mail (hrun ops h1).2 !! i = Some s ∧
     let seen := taken i (hrun ops h1).1 ++ ch s in
     let all := emitted id (bool_decide (is_Some term)) ops in
     sublist seen all ∧ (sub_dropped s = 0%Z → seen = all)).
Proof.
  intros Hwf. pose proof (Subscribe_watching id h Hwf) as Hw.
  pose proof (Subscribe_wf id h Hwf) as Hwf1.
  assert ((Subscribe id h).1.1.2 = (log_event id <$> lines (get id h).1)) as Hr.
  { unfold Subscribe. by destruct (get id h). }
  destruct (Subscribe id h) as [[[i replay] term] h1]. cbn [fst snd] in *.
  split; [done|]. intros Hops.
  destruct (watch_run i id ops _ _ _ Hwf1 Hw Hops) as (s & Hs & _ & H1 & H2).
  exists s. split; [done|]. cbn [ch app] in *. auto.
Qed.

(** Only the first terminal event of a job counts: finishing a job again,
    with the same or another event, changes nothing. *)
Theorem Finish_first_wins id r1 r2 h : Finish id r2 (Finish id r1 h) = Finish id r1 h.
Proof.
  destruct (jobs h !! id) as [st|] eqn:Hst.
  - destruct (terminal st) eqn:Et.
    + assert (∀ r, Finish id r h = h) as E by (intros; unfold Finish; by rewrite Hst, Et).
      by rewrite !E.
    + destruct (Finish_open id r1 h st Hst Et) as (Ej & _).
      unfold Finish at 1. rewrite Ej. case_bool_decide.
      * by rewrite lookup_delete_eq.
      * by rewrite lookup_insert_eq.
  - unfold Finish at 2 3. rewrite Hst. unfold Finish. by rewrite Hst.
Qed.

(** The entry of a tracked job is reclaimed: after [Finish] and once every
    subscriber has unsubscribed, in any order, the hub holds nothing for it. *)
Theorem entry_reclaimed id r h st l :
  jobs h !! id = Some st → terminal st = None → (∀ i, i ∈ subs st → i ∈ l) →
  jobs (foldl (λ h i, Unsubscribe id i h) (Finish id r h) l) !! id = None.
Proof.
  intros Hst Et Hl. destruct (Finish_open id r h st Hst Et) as (Ej & _).
  apply Unsubscribe_all. intros st'. rewrite Ej. case_bool_decide as Hs.
  - by rewrite lookup_delete_eq.
  - rewrite lookup_insert_eq. intros [= <-]. cbn. eauto.
Qed.

(** A watcher of a job the hub does not track (an already finished one, for
    instance) leaves an entry behind that [Unsubscribe] does not remove. *)
Theorem watch_untracked_leaks id h :
  jobs h !! id = None →
  let '((i, _, _), h1) := Subscribe id h in
  jobs (Unsubscribe id i h1) !! id = Some newState.
Proof.
  intros H. unfold Subscribe, get. rewrite H. cbn. unfold Unsubscribe. cbn.
  rewrite lookup_insert_eq. cbn. rewrite lookup_insert_eq. unfold newState.
  by replace (({[next h]} ∪ ∅) ∖ {[next h]}) with (∅ : gset nat) by set_solver.
Qed.

End LogHub.

Module Examples.
Import LogHub.

Definition l1 : pb.LogLine := pb.mkLogLine "one" false 1.

Definition l2 : pb.LogLine := pb.mkLogLine "two" true 2.

Definition done_event : pb.JobEvent := pb.mkJobEvent "j" (pb.JobEvent_Status pb.JOB_STATUS_DONE).

Definition calls : list hop :=
  [HAppend "k" [l2]; HAppend "j" [l1]; HRecv 0; HFinish "j" done_event; HAppend "j" [l2]].

Definition h1 : t := (Subscribe "j" NewLogHub).2.

Lemma watcher_stream_witness :
  wf NewLogHub ∧ HUnsubscribe "j" 0 ∉ calls ∧
  ∃ s, mail (hrun calls h1).2 !! 0 = Some s ∧
    (sub_dropped s = 0%Z →
     taken 0 (hrun calls h1).1 ++ ch s = [log_event "j" l1; done_event]).
Proof.
  split; [exact NewLogHub_wf|].
  assert (HUnsubscribe "j" 0 ∉ calls) as Hno.
  { unfold calls. rewrite !elem_of_cons, elem_of_nil. intuition discriminate. }
  split; [exact Hno|].
  destruct (proj2 (watcher_stream "j" calls NewLogHub NewLogHub_wf) Hno) as (s & Hm & _ & H).
  exists s. split; [exact Hm|exact H].
Defined.

Lemma entry_reclaimed_witness :
  jobs h1 !! "j" = Some (mkState [] 0 {[0]} None) ∧
  jobs (foldl (λ h i, Unsubscribe "j" i h) (Finish "j" done_event h1) [0]) !! "j" = None.
Proof.
  assert (jobs h1 !! "j" = Some (mkState [] 0 {[0]} None)) as H by (vm_compute; reflexivity).
  split; [exact H|]. apply (entry_reclaimed _ _ _ _ _ H); [reflexivity|].
  cbn. intros i Hi%elem_of_singleton. subst i. apply list_elem_of_here.
Defined.

Lemma watch_untracked_leaks_witness :
  jobs NewLogHub !! "j" = None ∧ jobs (Unsubscribe "j" 0 h1) !! "j" = Some newState.
Proof.
  split; [vm_compute; reflexivity|]. apply (watch_untracked_leaks "j" NewLogHub).
  vm_compute. reflexivity.
Defined.

End Examples.
