(* ===== verification/Metrics.v ===== *)
(** * Metrics: counters and cold-start percentiles

    src/orchestrator/metrics.go.  The counters are 64-bit atomics; the last
    [coldStartRingSize] cold-start samples are kept in a ring buffer.  An index
    out of range is a panic, the value [None]. *)

From stdpp Require Import strings gmap sorting prelude.
From Stdlib Require Import SpecFloat.
From S2P Require Import Prelude Types WorkerPool.

Module Metrics.

Record t : Type := mkMetrics {
  totalInvocations : Z;
  totalCompleted : Z;
  totalFailed : Z;
  coldStarts : list Z;
  coldHead : Z;
  coldSize : Z;
  startedAt : Z;
}.

Definition coldStartRingSize : Z := 1024.

Definition NewMetrics (now : Z) : t :=
  mkMetrics 0 0 0 (replicate (Z.to_nat coldStartRingSize) 0%Z) 0 0 now.

Definition RecordInvocation (m : t) : t :=
  mkMetrics (int64 (totalInvocations m + 1)) (totalCompleted m) (totalFailed m)
    (coldStarts m) (coldHead m) (coldSize m) (startedAt m).

Definition RecordCompleted (m : t) : t :=
  mkMetrics (totalInvocations m) (int64 (totalCompleted m + 1)) (totalFailed m)
    (coldStarts m) (coldHead m) (coldSize m) (startedAt m).

Definition RecordFailed (m : t) : t :=
  mkMetrics (totalInvocations m) (totalCompleted m) (int64 (totalFailed m + 1))
    (coldStarts m) (coldHead m) (coldSize m) (startedAt m).

(** [l[i] = v]. *)
Definition store_at (l : list Z) (i v : Z) : option (list Z) :=
  if ((0 <=? i) && (i <? Z.of_nat (length l)))%Z then Some (<[Z.to_nat i := v]> l) else None.

Definition RecordColdStart (ms : Z) (m : t) : option t :=
  if (ms <? 0)%Z then Some m
  else
    buf ← store_at (coldStarts m) (coldHead m) ms;
    let n := Z.of_nat (length buf) in
    let head := Z.rem (coldHead m + 1) n in
    let size := if (coldSize m <? n)%Z then (coldSize m + 1)%Z else coldSize m in
    Some (mkMetrics (totalInvocations m) (totalCompleted m) (totalFailed m) buf head size (startedAt m)).

(** [l[i]]. *)
Definition load_at (l : list Z) (i : Z) : option Z :=
  if (0 <=? i)%Z then l !! Z.to_nat i else None.

(** The constants [0.50], [0.95] and [0.99] as float64: the nearest double. *)
Definition percent (k : Z) : spec_float :=
  SFdiv 53 1024 (WorkerPool.float64 k) (WorkerPool.float64 100).

(** [int(f)] truncates towards zero (the values here are far from the limits). *)
Definition float_to_int (f : spec_float) : Z :=
  match f with
  | S754_finite s m e =>
      let a := if (0 <=? e)%Z then Z.shiftl (Zpos m) e else Z.shiftr (Zpos m) (- e) in
      if s then (- a)%Z else a
  | _ => 0%Z
  end.

(** [Duration.Seconds]. *)
Definition duration_Seconds (d : Z) : spec_float :=
  SFadd 53 1024 (WorkerPool.float64 (Z.quot d second))
    (SFdiv 53 1024 (WorkerPool.float64 (Z.rem d second)) (WorkerPool.float64 second)).

(** [int(float64(len(sorted)-1) * p)]. *)
Definition pick_index (n : Z) (p : spec_float) : Z :=
  float_to_int (SFmul 53 1024 (WorkerPool.float64 (n - 1)) p).

(** [sort.Slice(sorted, <)] on integers. *)
Definition sort_slice (l : list Z) : list Z := merge_sort Z.le l.

Record percentiles : Type := mkPercentiles {
  p50 : Z;
  p95 : Z;
  p99 : Z;
  mean : spec_float;
  samples : Z;
}.

Definition snapshotPercentiles (m : t) : option percentiles :=
  if (coldSize m =? 0)%Z then Some (mkPercentiles 0 0 0 (S754_zero false) 0)
  else
    let sorted := sort_slice (take (Z.to_nat (coldSize m)) (coldStarts m)) in
    let n := Z.of_nat (length sorted) in
    let sum := foldl (λ sum v, int64 (sum + v)) 0%Z sorted in
    let pick p := load_at sorted (pick_index n p) in
    a ← pick (percent 50);
    b ← pick (percent 95);
    c ← pick (percent 99);
    Some (mkPercentiles a b c
      (SFdiv 53 1024 (WorkerPool.float64 sum) (WorkerPool.float64 n)) n).

(** ** Invariant *)

Record wf (m : t) : Prop := {
  wf_length : length (coldStarts m) = Z.to_nat coldStartRingSize;
  wf_head : (0 ≤ coldHead m < coldStartRingSize)%Z;
  wf_size : (0 ≤ coldSize m ≤ coldStartRingSize)%Z;
}.

(** The ring read from its oldest slot. *)
Definition unrolled (m : t) : list Z :=
  drop (Z.to_nat (coldHead m)) (coldStarts m) ++ take (Z.to_nat (coldHead m)) (coldStarts m).

(** The samples recorded, oldest first: negative ones are ignored. *)
Definition accepted (l : list Z) : list Z := filter (λ ms, (0 ≤ ms)%Z) l.

(** The last [n] elements. *)
Definition last_n {A} (n : nat) (l : list A) : list A := drop (length l - n) l.

Definition record_all (l : list Z) (m : t) : option t :=
  foldl (λ m ms, m ← m; RecordColdStart ms m) (Some m) l.

(** ** Lemmas *)

Lemma NewMetrics_wf now : wf (NewMetrics now).
Proof. split; [by vm_compute| |]; unfold coldStartRingSize; cbn; lia. Qed.

Lemma store_at_Some l i v :
  (0 ≤ i < Z.of_nat (length l))%Z → store_at l i v = Some (<[Z.to_nat i := v]> l).
Proof.
  intros Hi. unfold store_at. destruct (Z.leb_spec 0 i), (Z.ltb_spec i (Z.of_nat (length l))); try lia.
  done.
Qed.

(** One accepted sample: the ring, read from its oldest slot, drops that slot
    and gains the sample. *)
Lemma RecordColdStart_step ms m :
  wf m → (0 ≤ ms)%Z →
  ∃ m', RecordColdStart ms m = Some m' ∧ wf m' ∧
    unrolled m' = drop 1 (unrolled m) ++ [ms] ∧
    coldHead m' = ((coldHead m + 1) mod coldStartRingSize)%Z ∧
    coldSize m' = Z.min coldStartRingSize (coldSize m + 1).
Proof.
  intros [Hl Hh Hs] Hms. unfold RecordColdStart.
  destruct (Z.ltb_spec ms 0); [lia|].
  rewrite store_at_Some by lia. cbn [mbind option_bind]. rewrite length_insert, Hl.
  eexists. split; [done|].
  set (N := coldStartRingSize) in *. assert (N = 1024%Z) as EN by done.
  assert (Z.rem (coldHead m + 1) (Z.of_nat (Z.to_nat N)) = ((coldHead m + 1) mod N)%Z) as Ehd.
  { rewrite Z2Nat.id by lia. apply Z.rem_mod_nonneg; lia. }
  assert ((if (coldSize m <? Z.of_nat (Z.to_nat N))%Z then (coldSize m + 1)%Z else coldSize m)
          = Z.min N (coldSize m + 1)) as Esz.
  { rewrite Z2Nat.id by lia. destruct (Z.ltb_spec (coldSize m) N); lia. }
  rewrite Ehd, Esz. split; [|split; [|split; [done|done]]].
  - split; cbn [coldStarts coldHead coldSize]; fold N.
    + by rewrite length_insert.
    + apply Z.mod_pos_bound. lia.
    + lia.
  - unfold unrolled. cbn [coldStarts coldHead]. set (h := Z.to_nat (coldHead m)).
    assert (h < length (coldStarts m)) as Hlt by lia.
    assert (drop 1 (drop h (coldStarts m) ++ take h (coldStarts m)) =
      drop (S h) (coldStarts m) ++ take h (coldStarts m)) as ->.
    { rewrite drop_app_le by (rewrite length_drop; lia). rewrite drop_drop. do 2 f_equal. lia. }
    destruct (decide (coldHead m + 1 = N)%Z) as [E|E].
    + rewrite E, Z_mod_same_full. cbn [Z.to_nat]. rewrite drop_0, take_0, app_nil_r.
      rewrite (drop_ge _ (S h)) by lia. cbn [app].
      rewrite insert_take_drop by lia. rewrite (drop_ge _ (S h)) by lia. done.
    + rewrite Z.mod_small by lia. replace (Z.to_nat (coldHead m + 1)) with (S h) by lia.
      rewrite drop_insert_lt by lia. rewrite <- app_assoc. f_equal.
      rewrite (take_S_r _ _ ms) by (rewrite list_lookup_insert_eq by lia; done).
      rewrite take_insert_ge by lia. done.
Qed.

Lemma last_n_snoc {A} n (l : list A) x :
  0 < n → n ≤ length l → last_n n (l ++ [x]) = drop 1 (last_n n l) ++ [x].
Proof.
  intros Hn Hl. unfold last_n. rewrite length_app. cbn [length]. rewrite drop_drop.
  rewrite drop_app_le by lia. do 2 f_equal. lia.
Qed.

(** Where a sequence of samples leaves the ring. *)
Lemma record_all_spec now l :
  let N := Z.to_nat coldStartRingSize in
  ∃ m, record_all l (NewMetrics now) = Some m ∧ wf m ∧
    unrolled m = last_n N (replicate N 0%Z ++ accepted l) ∧
    coldHead m = (Z.of_nat (length (accepted l)) mod coldStartRingSize)%Z ∧
    coldSize m = Z.min coldStartRingSize (Z.of_nat (length (accepted l))).
Proof.
  intros N. induction l as [|ms l IH] using rev_ind.
  { exists (NewMetrics now). split; [done|]. split; [apply NewMetrics_wf|].
    split; [by vm_compute|]. by vm_compute. }
  destruct IH as (m & Hm & Hwf & Hu & Hh & Hs).
  unfold record_all in *. rewrite foldl_app, Hm. cbn [foldl mbind option_bind].
  unfold accepted in *. rewrite filter_app, filter_cons, filter_nil.
  destruct (decide (0 ≤ ms)%Z) as [Hms|Hms].
  - destruct (RecordColdStart_step ms m Hwf Hms) as (m' & E & Hwf' & Hu' & Hh' & Hs').
    exists m'. rewrite E. split; [done|]. split; [done|].
    rewrite Hu', Hh', Hs', Hh, Hs, Hu, length_app. cbn [length].
    split; [|split].
    + rewrite app_assoc, last_n_snoc; [done|by unfold N; vm_compute; lia|].
      rewrite length_app, length_replicate. lia.
    + rewrite Zplus_mod_idemp_l. f_equal. lia.
    + lia.
  - exists m. unfold RecordColdStart. destruct (Z.ltb_spec ms 0); [|lia].
    rewrite app_nil_r. done.
Qed.

(** The valid part of the ring holds the last samples. *)
Lemma samples_perm now l m :
  record_all l (NewMetrics now) = Some m →
  take (Z.to_nat (coldSize m)) (coldStarts m)
    ≡ₚ last_n (Z.to_nat coldStartRingSize) (accepted l).
Proof.
  intros Hm. destruct (record_all_spec now l) as (m' & Hm' & Hwf & Hu & Hh & Hs).
  rewrite Hm in Hm'. injection Hm' as <-. destruct Hwf as [Hl _ _].
  set (N := Z.to_nat coldStartRingSize) in *. unfold unrolled in Hu.
  set (a := accepted l) in *. assert (Z.of_nat N = coldStartRingSize) as EN by done.
  rewrite <- EN in Hh, Hs. assert (0 < N) by (unfold N; vm_compute; lia).
  destruct (decide (length a < N)) as [Hlt|Hge].
  - rewrite Z.mod_small in Hh by lia. replace (Z.to_nat (coldSize m)) with (length a) by lia.
    rewrite Hh, Nat2Z.id in Hu. unfold last_n in *.
    rewrite length_app, length_replicate in Hu.
    replace (N + length a - N) with (length a) in Hu by lia.
    rewrite drop_app_le in Hu by (rewrite length_replicate; lia).
    apply app_inj_1 in Hu as [_ ->]; [|rewrite !length_drop, length_replicate; lia].
    by replace (length a - N) with 0 by lia.
  - replace (Z.to_nat (coldSize m)) with N by lia. rewrite take_ge by lia.
    transitivity (unrolled m).
    { unfold unrolled. rewrite Permutation_app_comm, take_drop. done. }
    unfold unrolled. rewrite Hu. unfold last_n. rewrite length_app, length_replicate.
    rewrite drop_app_ge by (rewrite length_replicate; lia). rewrite length_replicate.
    by replace (N + length a - N - N) with (length a - N) by lia.
Qed.

(** The float64 computation of the index is exact for every ring size. *)
Definition index_exact (k : Z) : bool :=
  forallb (λ n, pick_index (Z.of_nat n) (percent k) =? (Z.of_nat n - 1) * k / 100)%Z
    (seq 1 (Z.to_nat coldStartRingSize)).

Lemma pick_index_exact k n :
  index_exact k = true → (1 ≤ n ≤ coldStartRingSize)%Z →
  pick_index n (percent k) = ((n - 1) * k / 100)%Z.
Proof.
  intros Hk Hn. unfold index_exact in Hk. rewrite forallb_forall in Hk.
  specialize (Hk (Z.to_nat n)). rewrite Z2Nat.id in Hk by lia.
  apply Z.eqb_eq, Hk, in_seq. lia.
Qed.

Lemma index_exact_used : index_exact 50 = true ∧ index_exact 95 = true ∧ index_exact 99 = true.
Proof. vm_compute. done. Qed.

(** [v] is the element at rank [j] of [w]. *)
Definition order_statistic (w : list Z) (j : Z) (v : Z) : Prop :=
  ∃ sorted, sorted ≡ₚ w ∧ Sorted Z.le sorted ∧ sorted !! Z.to_nat j = Some v.

Lemma pick_statistic l k :
  index_exact k = true → (0 ≤ k ≤ 100)%Z →
  (1 ≤ Z.of_nat (length l) ≤ coldStartRingSize)%Z →
  ∃ v, load_at (sort_slice l) (pick_index (Z.of_nat (length (sort_slice l))) (percent k)) = Some v ∧
       order_statistic l ((Z.of_nat (length l) - 1) * k / 100) v.
Proof.
  intros Hk Hk100 Hl. unfold sort_slice.
  assert (length (merge_sort Z.le l) = length l) as El
    by (by rewrite merge_sort_Permutation).
  rewrite El, pick_index_exact by done.
  set (j := ((Z.of_nat (length l) - 1) * k / 100)%Z).
  assert (0 ≤ j)%Z by (apply Z.div_pos; [apply Z.mul_nonneg_nonneg|]; lia).
  assert (j < Z.of_nat (length l))%Z.
  { apply Z.div_lt_upper_bound; [lia|].
    pose proof (Z.mul_le_mono_nonneg_l k 100 (Z.of_nat (length l) - 1)). lia. }
  destruct (lookup_lt_is_Some_2 (merge_sort Z.le l) (Z.to_nat j)) as [v Hv]; [lia|].
  exists v. unfold load_at. destruct (Z.leb_spec 0 j); [|lia]. split; [done|].
  exists (merge_sort Z.le l). split; [apply merge_sort_Permutation|]. split; [|done].
  apply Sorted_merge_sort. intros x y. lia.
Qed.

(** A well-formed ring never makes an operation panic. *)
Lemma RecordColdStart_total ms m :
  wf m → ∃ m', RecordColdStart ms m = Some m' ∧ wf m'.
Proof.
  intros Hwf. destruct (Z.ltb_spec ms 0) as [Hlt|Hge].
  - exists m. unfold RecordColdStart. destruct (Z.ltb_spec ms 0); [done|lia].
  - destruct (RecordColdStart_step ms m Hwf Hge) as (m' & ? & ? & _). eauto.
Qed.

Lemma snapshot_total m : wf m → is_Some (snapshotPercentiles m).
Proof.
  intros [Hl _ Hs]. unfold snapshotPercentiles. destruct (Z.eqb_spec (coldSize m) 0); [done|].
  set (l' := take (Z.to_nat (coldSize m)) (coldStarts m)).
  assert (1 ≤ Z.of_nat (length l') ≤ coldStartRingSize)%Z.
  { unfold l'. rewrite length_take, Hl. lia. }
  destruct index_exact_used as (H50 & H95 & H99).
  destruct (pick_statistic l' 50 H50) as (a & -> & _); [lia..|].
  destruct (pick_statistic l' 95 H95) as (b & -> & _); [lia..|].
  destruct (pick_statistic l' 99 H99) as (c & -> & _); [lia..|]. done.
Qed.

(** ** Properties *)

(** The cold-start statistics: whatever samples are recorded, no index is out
    of range, the snapshot counts the last (at most 1024) non-negative samples,
    and its percentiles are the order statistics of exactly those samples at
    ranks [(n-1)*50/100], [(n-1)*95/100] and [(n-1)*99/100] (rounded down, the
    float64 arithmetic included). *)
Theorem percentiles_correct now l :
  let w := last_n (Z.to_nat coldStartRingSize) (accepted l) in
  let n := Z.of_nat (length w) in
  ∃ m p, record_all l (NewMetrics now) = Some m ∧ snapshotPercentiles m = Some p ∧
    samples p = n ∧
    (w ≠ [] → order_statistic w ((n - 1) * 50 / 100) (p50 p) ∧
              order_statistic w ((n - 1) * 95 / 100) (p95 p) ∧
              order_statistic w ((n - 1) * 99 / 100) (p99 p)).
Proof.
  intros w n. destruct (record_all_spec now l) as (m & Hm & Hwf & _ & _ & Hs).
  pose proof (samples_perm now l m Hm) as Hp. fold w in Hp.
  set (l' := take (Z.to_nat (coldSize m)) (coldStarts m)) in *.
  assert (n = Z.of_nat (length l')) as En by (unfold n; by rewrite Hp).
  assert (n = coldSize m) as En'.
  { unfold n, w, last_n. rewrite length_drop, Hs. unfold coldStartRingSize. lia. }
  assert (∀ j v, order_statistic l' j v → order_statistic w j v) as Hstat.
  { intros j v (so & Hso & ? & ?). exists so. split; [by transitivity l'|done]. }
  exists m. unfold snapshotPercentiles. fold l'.
  destruct (Z.eqb_spec (coldSize m) 0) as [E0|E0].
  { eexists. split; [done|]. split; [done|]. cbn [samples]. split; [lia|].
    intros Hw. destruct w; [done|]. cbn in n. lia. }
  pose proof (wf_size m Hwf). destruct index_exact_used as (H50 & H95 & H99).
  destruct (pick_statistic l' 50 H50) as (a & -> & Ha); [lia..|].
  destruct (pick_statistic l' 95 H95) as (b & -> & Hb); [lia..|].
  destruct (pick_statistic l' 99 H99) as (c & -> & Hc); [lia..|].
  eexists. split; [done|]. split; [done|]. cbn [samples p50 p95 p99]. rewrite <- En in *.
  split; [|intros _; split; [|split]; by apply Hstat].
  unfold sort_slice. rewrite merge_sort_Permutation. done.
Qed.

End Metrics.
