(* ===== verification/Config.v ===== *)
(** * Config: settings from the environment

    src/orchestrator/config.go.  Durations are nanoseconds. *)

From stdpp Require Import strings gmap sorting prelude.
From S2P Require Import Prelude Types.

Record Config : Type := mkCfg {
  GRPCPort : Z;
  HTTPPort : Z;
  DBPath : string;
  WorkerTimeout : Z;
  HeartbeatInterval : Z;
  MaxRetries : Z;
  MaxDispatchAttempts : Z;
  ExecuteTaskTimeout : Z;
  MaxPayloadBytes : Z;
  AutoscaleEnabled : bool;
  AutoscaleMin : Z;
  AutoscaleMax : Z;
  AutoscaleQueueThreshold : Z;
  AutoscaleIdleTimeout : Z;
  AutoscaleCooldown : Z;
  AutoscaleRegisterTimeout : Z;
  AutoscaleTick : Z;
  WorkerCmd : string;
  WorkerDir : string;
  WorkerBasePort : Z;
  RaftEnabled : bool;
  RaftID : string;
  RaftBind : string;
  RaftDir : string;
  RaftJoin : string;
}.
