(* ===== verification/State.v ===== *)
(** * The shared state of the orchestrator and its atomic steps

    The fields of [Server] (src/orchestrator/server.go) and [Scheduler]
    (scheduler.go), and one step per operation that the code performs under a
    lock, on an atomic variable or on a channel.  The handlers (Scheduler.v,
    Watch.v, Server.v) are programs over these steps. *)

From stdpp Require Import strings gmap sorting prelude.
From S2P Require Import Prelude Types Prog Config StoreSpec WorkerPool Lru LogHub Metrics.

(** What workers tell the orchestrator about their tasks: reports, and chunks of output on
    a StreamTaskLogs stream. *)
Inductive message : Type :=
| ReportMsg (req : pb.ReportTaskResultRequest)
| ChunkMsg (chunk : pb.TaskLogChunk).

Section state.
Context {A : StoreAPI}.

(** The job store is any [Store].  [channels] are the cached worker connections
    by worker ID, each with the address it was dialled to; [None] is the nil map
    that [Close] leaves.  The last three fields are history: [sentTasks] are the
    ExecuteTask requests put on the wire so far, with the address of the
    connection used, [payloads] the function and arguments of every job that an
    invocation created, [received] the reports and log chunks that arrived. *)
Record sys : Type := mkSys {
  jobStore : store;
  workerPool : WorkerPool.t;
  channels : option (gmap string string);
  metrics : Metrics.t;
  pendingQueue : list string;
  results : Lru.t;
  logHub : LogHub.t;
  shuttingDown : bool;
  stalledDispatches : Z;
  sentTasks : list (string * pb.ExecuteTaskRequest);
  payloads : gmap string (bytes * bytes);
  received : list message;
}.

Definition set_jobStore (x : store) (s : sys) : sys :=
  mkSys x (workerPool s) (channels s) (metrics s) (pendingQueue s) (results s) (logHub s)
    (shuttingDown s) (stalledDispatches s) (sentTasks s) (payloads s) (received s).

Definition set_workerPool (x : WorkerPool.t) (s : sys) : sys :=
  mkSys (jobStore s) x (channels s) (metrics s) (pendingQueue s) (results s) (logHub s)
    (shuttingDown s) (stalledDispatches s) (sentTasks s) (payloads s) (received s).

Definition set_channels (x : option (gmap string string)) (s : sys) : sys :=
  mkSys (jobStore s) (workerPool s) x (metrics s) (pendingQueue s) (results s) (logHub s)
    (shuttingDown s) (stalledDispatches s) (sentTasks s) (payloads s) (received s).

Definition set_metrics (x : Metrics.t) (s : sys) : sys :=
  mkSys (jobStore s) (workerPool s) (channels s) x (pendingQueue s) (results s) (logHub s)
    (shuttingDown s) (stalledDispatches s) (sentTasks s) (payloads s) (received s).

Definition set_pendingQueue (x : list string) (s : sys) : sys :=
  mkSys (jobStore s) (workerPool s) (channels s) (metrics s) x (results s) (logHub s)
    (shuttingDown s) (stalledDispatches s) (sentTasks s) (payloads s) (received s).

Definition set_results (x : Lru.t) (s : sys) : sys :=
  mkSys (jobStore s) (workerPool s) (channels s) (metrics s) (pendingQueue s) x (logHub s)
    (shuttingDown s) (stalledDispatches s) (sentTasks s) (payloads s) (received s).

Definition set_logHub (x : LogHub.t) (s : sys) : sys :=
  mkSys (jobStore s) (workerPool s) (channels s) (metrics s) (pendingQueue s) (results s) x
    (shuttingDown s) (stalledDispatches s) (sentTasks s) (payloads s) (received s).

Definition set_shuttingDown (x : bool) (s : sys) : sys :=
  mkSys (jobStore s) (workerPool s) (channels s) (metrics s) (pendingQueue s) (results s)
    (logHub s) x (stalledDispatches s) (sentTasks s) (payloads s) (received s).

Definition set_stalledDispatches (x : Z) (s : sys) : sys :=
  mkSys (jobStore s) (workerPool s) (channels s) (metrics s) (pendingQueue s) (results s)
    (logHub s) (shuttingDown s) x (sentTasks s) (payloads s) (received s).

Definition set_sentTasks (x : list (string * pb.ExecuteTaskRequest)) (s : sys) : sys :=
  mkSys (jobStore s) (workerPool s) (channels s) (metrics s) (pendingQueue s) (results s)
    (logHub s) (shuttingDown s) (stalledDispatches s) x (payloads s) (received s).

Definition set_payloads (x : gmap string (bytes * bytes)) (s : sys) : sys :=
  mkSys (jobStore s) (workerPool s) (channels s) (metrics s) (pendingQueue s) (results s)
    (logHub s) (shuttingDown s) (stalledDispatches s) (sentTasks s) x (received s).

Definition set_received (x : list message) (s : sys) : sys :=
  mkSys (jobStore s) (workerPool s) (channels s) (metrics s) (pendingQueue s) (results s)
    (logHub s) (shuttingDown s) (stalledDispatches s) (sentTasks s) (payloads s) x.

(** A new process has the history of the old one. *)
Definition with_history (old s : sys) : sys :=
  set_sentTasks (sentTasks old) (set_payloads (payloads old) (set_received (received old) s)).

Definition pendingQueueSize : Z := 10000.

Definition resultsCacheSize : Z := 10000.

(** [NewServerWithStore] (with [NewScheduler]): a server around a store. *)
Definition NewServerWithStore (now : Z) (cfg : Config) (st : store) : sys :=
  mkSys st (WorkerPool.NewWorkerPool (WorkerTimeout cfg)) (Some ∅) (Metrics.NewMetrics now) []
    (Lru.newLRUResults resultsCacheSize) LogHub.NewLogHub false 0 [] ∅ [].

(** What the environment decides for one step: two clock readings, the store's
    own environment, the order of a map range, a new UUID, whether grpc.NewClient
    fails, the outcome of ExecuteTask, whether the context is done, whether a
    stream send fails, and which case of a [select] fires (or, for the channel of
    raft's leadership changes, what it delivers). *)
Record oracle : Type := mkOracle {
  o_now : Z;
  o_now' : Z;
  o_store : senv;
  o_ord : list string;
  o_uuid : string;
  o_dial : option error;
  o_rpc : result error pb.ExecuteTaskResponse;
  o_done : bool;
  o_send : option error;
  o_select : nat;
}.

Abbreviation program := (prog sys oracle).

(** Steps that only read, and steps that replace one field. *)
Definition reads {B} (f : oracle → sys → B) : program B := act (λ o s, Next (f o s) s).

Definition writes {B} (f : oracle → sys → B * sys) : program B :=
  act (λ o s, let '(b, s) := f o s in Next b s).

(** ** Clock *)

Definition time_Now : program Z := reads (λ o _, o_now o).

(** ** Job store *)

Definition store_GetJob (id : string) : program (result error (option JobRecord)) :=
  reads (λ o s, GetJob (o_store o) id (jobStore s)).

(** The captured variables of the mutator start as [c]; the caller sees their
    final values. *)
Definition store_Transition {C} (id : string) (mutate : mutator C) (c : C) :
    program (bool * option error * C) :=
  writes (λ o s,
    let '(r, c, st) := Transition (o_store o) id mutate c (jobStore s) in
    ((r, c), set_jobStore st s)).

(** A submission that succeeded and created a job. *)
Definition note_payload (res : string * bool * option error) (rec : JobRecord) (s : sys) : sys :=
  match res with
  | (id, true, None) => set_payloads (<[id := (FunctionBytes rec, ArgsBytes rec)]> (payloads s)) s
  | _ => s
  end.

(** [rec] is given its ID, a new UUID, here. *)
Definition store_Submit (rec : string → JobRecord) (key : string) :
    program (string * bool * option error) :=
  writes (λ o s,
    let '(r, st) := SubmitWithIdempotency (o_store o) (rec (o_uuid o)) key (jobStore s) in
    (r, note_payload r (rec (o_uuid o)) (set_jobStore st s))).

Definition store_ListUnfinished : program (list JobRecord * option error) :=
  reads (λ o s, ListUnfinished (o_store o) (jobStore s)).

Definition store_ListRunningOnWorker (w : string) : program (list JobRecord * option error) :=
  reads (λ o s, ListRunningOnWorker (o_store o) w (jobStore s)).

Definition store_Ping : program (option error) := reads (λ o s, Ping (o_store o) (jobStore s)).

(** ** Worker pool *)

Definition pool_Register (wid addr : string) (cap : Z) : program unit :=
  writes (λ o s, (tt, set_workerPool
    (WorkerPool.Register (o_now o) (o_now' o) wid addr cap (workerPool s)) s)).

Definition pool_RecordHeartbeat (wid : string) (active : Z) : program bool :=
  writes (λ o s,
    let '(b, p) := WorkerPool.RecordHeartbeat (o_now o) wid active (workerPool s) in
    (b, set_workerPool p s)).

Definition pool_LeastLoadedAliveExcluding (exclude : gset string) :
    program (string * string * bool) :=
  reads (λ o s, WorkerPool.LeastLoadedAliveExcluding (o_ord o) exclude (workerPool s)).

Definition pool_sweep : program (list string) :=
  writes (λ o s,
    let '(dead, p) := WorkerPool.sweep (o_now o) (o_ord o) (workerPool s) in
    (dead, set_workerPool p s)).

Definition pool_Snapshot : program (list WorkerPool.WorkerMetrics) :=
  reads (λ o s, WorkerPool.Snapshot (o_now o) (o_ord o) (workerPool s)).

(** ** Result cache, log hub, metrics *)

Definition results_Put (k : string) (v : Lru.resultEntry) : program unit :=
  writes (λ _ s, (tt, set_results (Lru.Put k v (results s)) s)).

Definition results_Get (k : string) : program (Lru.resultEntry * bool) :=
  writes (λ _ s, let '(r, l) := Lru.Get k (results s) in (r, set_results l s)).

Definition hub_Append (id : string) (ls : list pb.LogLine) : program unit :=
  writes (λ _ s, (tt, set_logHub (LogHub.Append id ls (logHub s)) s)).

Definition hub_Subscribe (id : string) : program (nat * list pb.JobEvent * option pb.JobEvent) :=
  writes (λ _ s, let '(r, h) := LogHub.Subscribe id (logHub s) in (r, set_logHub h s)).

Definition hub_Unsubscribe (id : string) (sub : nat) : program unit :=
  writes (λ _ s, (tt, set_logHub (LogHub.Unsubscribe id sub (logHub s)) s)).

Definition hub_Finish (id : string) (ev : pb.JobEvent) : program unit :=
  writes (λ _ s, (tt, set_logHub (LogHub.Finish id ev (logHub s)) s)).

(** [select { case ev := <-sub.ch: ... default: ... }]. *)
Definition hub_try_recv (sub : nat) : program (option pb.JobEvent) :=
  writes (λ _ s, let '(ev, h) := LogHub.recv sub (logHub s) in (ev, set_logHub h s)).

Definition metrics_update (f : Metrics.t → Metrics.t) : program unit :=
  writes (λ _ s, (tt, set_metrics (f (metrics s)) s)).

Definition metrics_RecordColdStart (ms : Z) : program unit :=
  act (λ _ s, match Metrics.RecordColdStart ms (metrics s) with
              | Some m => Next tt (set_metrics m s)
              | None => Panic
              end).

Definition metrics_snapshotPercentiles : program Metrics.percentiles :=
  act (λ _ s, match Metrics.snapshotPercentiles (metrics s) with
              | Some p => Next p s
              | None => Panic
              end).

(** ** Connections to workers *)

(** [getOrDial]: the connection is its target address. *)
Definition getOrDial (workerID address : string) : program (result error string) :=
  writes (λ o s,
    match channels s with
    | None => (Err (errorString "scheduler is closed"), s)
    | Some m =>
        match m !! workerID with
        | Some conn => (Ok conn, s)
        | None =>
            match o_dial o with
            | Some e => (Err e, s)
            | None => (Ok address, set_channels (Some (<[workerID := address]> m)) s)
            end
        end
    end).

Definition dropChannel (workerID : string) : program unit :=
  writes (λ _ s, (tt, match channels s with
                      | Some m => set_channels (Some (delete workerID m)) s
                      | None => s
                      end)).

Definition Scheduler_Close : program unit := writes (λ _ s, (tt, set_channels None s)).

(** [client.ExecuteTask]: the request goes out; the worker's answer, or the failure
    of the call, is the environment's. *)
Definition rpc_ExecuteTask (conn : string) (req : pb.ExecuteTaskRequest) :
    program (result error pb.ExecuteTaskResponse) :=
  writes (λ o s, (o_rpc o, set_sentTasks (sentTasks s ++ [(conn, req)]) s)).

(** A ReportTaskResult request, or what [stream.Recv] returns, arrives. *)
Definition rpc_Received (m : message) : program unit :=
  writes (λ _ s, (tt, set_received (received s ++ [m]) s)).

(** ** Queue and flags *)

(** [s.pendingQueue <- jobID] waits while the channel is full. *)
Definition queue_send (jobID : string) : program unit :=
  act (λ _ s, if (Z.of_nat (length (pendingQueue s)) <? pendingQueueSize)%Z
              then Next tt (set_pendingQueue (pendingQueue s ++ [jobID]) s)
              else Block).

(** [select { case <-ctx.Done(): case jobID := <-s.pendingQueue: }]. *)
Definition queue_recv : program (option string) :=
  act (λ o s, if o_done o then Next None s
              else match pendingQueue s with
                   | [] => Block
                   | jobID :: q => Next (Some jobID) (set_pendingQueue q s)
                   end).

Definition queue_len : program Z := reads (λ _ s, Z.of_nat (length (pendingQueue s))).

Definition shuttingDown_Load : program bool := reads (λ _ s, shuttingDown s).

Definition shuttingDown_Store (b : bool) : program unit :=
  writes (λ _ s, (tt, set_shuttingDown b s)).

Definition stalledDispatches_Add (d : Z) : program unit :=
  writes (λ _ s, (tt, set_stalledDispatches (int64 (stalledDispatches s + d)) s)).

Definition stalledDispatches_Load : program Z := reads (λ _ s, stalledDispatches s).

(** [select { case <-ctx.Done(): case <-time.After(d): }]: did the context end
    first? *)
Definition sleep (d : Z) : program bool := reads (λ o _, o_done o).

(** [stream.Send(ev)]. *)
Definition stream_Send (ev : pb.JobEvent) : program (option error) := reads (λ o _, o_send o).

Definition stream_SendAndClose : program (option error) := reads (λ o _, o_send o).

End state.

Arguments sys _ : clear implicits.
Arguments oracle _ : clear implicits.
