(* ===== verification/AnyStore.v ===== *)
(** * The job store of a server: one of two

    [Server.jobStore] has the interface type [Store]; [NewServer] puts a BoltStore
    or a RaftStore into it and [RaftStore()] asks which it is
    (src/orchestrator/server.go).  A store that is one of two stores has the
    operations of the one it is, and meets a contract if both do, so the theorems
    about the server hold for a server built by [NewServer]. *)

From stdpp Require Import strings gmap sorting prelude.
From S2P Require Import Prelude Types Prog Json Bolt StoreSpec JobStore RaftFsm RaftStore Config State.

(** ** Contracts carried over

    [K'] promises no more than [K] of the states [inj s] when the environment
    [proj o] of [K] is part of its own. *)

Section transport.
Context {S E S' E' : Type} (K : Contract S E) (K' : Contract S' E').
Variables (inj : S → S') (proj : E' → E).

Record carries : Prop := {
  carry_view : ∀ s, view K' (inj s) = view K s;
  carry_good : ∀ s, good K s → good K' (inj s);
  carry_faulty : ∀ o, faulty K (proj o) → faulty K' o;
  carry_ambiguous : ∀ o, ambiguous K (proj o) → ambiguous K' o;
  carry_unwritable : ∀ o id r, unwritable K (proj o) id r → unwritable K' o id r;
  carry_written : ∀ o r r', written K (proj o) r r' → written K' o r r';
}.

Hypothesis Hc : carries.

Lemma carry_get o id s res : get_spec K (proj o) id s res → get_spec K' o id (inj s) res.
Proof.
  destruct Hc as [Kv Kg Kf Ka Ku Kw]. intros [|e Hf]; [rewrite <- Kv; constructor|apply get_fault; auto].
Qed.

Lemma carry_transition {C} o id (m : mutator C) c s r s' :
  transition_spec K (proj o) id m c s (r, s') → transition_spec K' o id m c (inj s) (r, inj s').
Proof.
  destruct Hc as [Kv Kg Kf Ka Ku Kw]. intros H. inversion H as [r0 c0 r1 r2 s0 Hr Hm Hw Hg Hv|r0 c0 Hr Hm|r0 c0 e0 Hr Hm He|e0 Hr|
    b0 c0 e0 Hbad|b0 r0 c0 r1 r2 e0 s0 Hf Ha Hr Hm Hw Hg Hv]; subst; rewrite <- ?Kv in *.
  - eapply transition_ok; rewrite ?Kv in *; eauto.
  - by eapply transition_skip.
  - by eapply transition_mutator.
  - by eapply transition_missing.
  - apply transition_fault. rewrite Kv in *.
    destruct Hbad as [?|(r & r' & ? & ? & ?)]; [left; auto|right; eauto 6].
  - eapply transition_ambiguous; rewrite ?Kv in *; eauto.
Qed.

Lemma carry_submit o rec key s r s' :
  submit_spec K (proj o) rec key s (r, s') → submit_spec K' o rec key (inj s) (r, inj s').
Proof.
  destruct Hc as [Kv Kg Kf Ka Ku Kw]. intros H. inversion H as [id' Hk Hid|r0 s0 Hkey Hw Hg Hv|id' b' e' Hf|id' b' e' r0 s0 Hf Ha Hkey Hw Hg Hv];
    subst.
  - apply submit_existing; [done|]. by rewrite Kv.
  - eapply submit_created; rewrite ?Kv; eauto.
  - apply submit_fault. destruct Hf; [left|right]; auto.
  - eapply submit_ambiguous; rewrite ?Kv; eauto.
Qed.

Lemma carry_put o rec s r s' :
  put_spec K (proj o) rec s (r, s') → put_spec K' o rec (inj s) (r, inj s').
Proof.
  destruct Hc as [Kv Kg Kf Ka Ku Kw]. intros H. inversion H as [r0 s0 Hw Hg Hv|e Hf|r0 e s0 Hf Ha Hw Hg Hv]; subst.
  - eapply put_ok; rewrite ?Kv; eauto.
  - apply put_fault. destruct Hf; [left|right]; auto.
  - eapply put_ambiguous; rewrite ?Kv; eauto.
Qed.

Lemma carry_list o keep s res :
  list_spec K (proj o) keep s res → list_spec K' o keep (inj s) res.
Proof.
  destruct Hc as [Kv Kg Kf Ka Ku Kw]. intros [out Hin Hnd|out e Hf]; [|apply list_fault; auto].
  apply list_ok; [|done]. intros r. by rewrite Kv.
Qed.

End transport.

(** ** One of two stores *)

Section sum.
Context (A1 A2 : StoreAPI).

(** The result of an operation that changes a store of one kind. *)
Definition on1 {R} (x : R * @store A1) : R * (@store A1 + @store A2) := (x.1, inl x.2).

Definition on2 {R} (x : R * @store A2) : R * (@store A1 + @store A2) := (x.1, inr x.2).

Definition either : StoreAPI := {|
  store := @store A1 + @store A2;
  senv := @senv A1 * @senv A2;
  PutJob o rec s := match s with inl s => on1 (PutJob o.1 rec s) | inr s => on2 (PutJob o.2 rec s) end;
  GetJob o id s := match s with inl s => GetJob o.1 id s | inr s => GetJob o.2 id s end;
  Transition C o id m c s :=
    match s with
    | inl s => on1 (Transition o.1 id m c s)
    | inr s => on2 (Transition o.2 id m c s)
    end;
  SubmitWithIdempotency o rec key s :=
    match s with
    | inl s => on1 (SubmitWithIdempotency o.1 rec key s)
    | inr s => on2 (SubmitWithIdempotency o.2 rec key s)
    end;
  ListUnfinished o s := match s with inl s => ListUnfinished o.1 s | inr s => ListUnfinished o.2 s end;
  ListRunningOnWorker o w s :=
    match s with inl s => ListRunningOnWorker o.1 w s | inr s => ListRunningOnWorker o.2 w s end;
  Ping o s := match s with inl s => Ping o.1 s | inr s => Ping o.2 s end;
|}.

Context {OK1 : StoreOk A1} {OK2 : StoreOk A2}.

Abbreviation K1 := (contract (StoreOk := OK1)).
Abbreviation K2 := (contract (StoreOk := OK2)).

Definition either_contract : Contract (@store either) (@senv either) :=
  mkContract _ _
    (λ s, match s with inl s => view K1 s | inr s => view K2 s end)
    (λ s, match s with inl s => good K1 s | inr s => good K2 s end)
    (λ o, faulty K1 o.1 ∨ faulty K2 o.2)
    (λ o, ambiguous K1 o.1 ∨ ambiguous K2 o.2)
    (λ o id r, unwritable K1 o.1 id r ∨ unwritable K2 o.2 id r)
    (λ o r r', written K1 o.1 r r' ∨ written K2 o.2 r r').

Lemma carries1 : carries K1 either_contract inl fst.
Proof. split; cbn; auto. Qed.

Lemma carries2 : carries K2 either_contract inr snd.
Proof. split; cbn; auto. Qed.

#[export] Instance either_ok : StoreOk either.
Proof.
  refine {| contract := either_contract |}.
  - intros [s|s]; apply good_wf.
  - intros o r r' [H|H]; by apply written_stamp in H.
  - intros o id [s|s] Hg.
    + exact (carry_get _ _ _ _ carries1 o id s _ (GetJob_ok o.1 id s Hg)).
    + exact (carry_get _ _ _ _ carries2 o id s _ (GetJob_ok o.2 id s Hg)).
  - intros C o id m c [s|s] Hg Hm; cbn; unfold on1, on2;
      [apply (carry_transition _ _ _ _ carries1)|apply (carry_transition _ _ _ _ carries2)];
      rewrite <- surjective_pairing; by apply Transition_ok.
  - intros o rec key [s|s] Hg; cbn; unfold on1, on2;
      [apply (carry_submit _ _ _ _ carries1)|apply (carry_submit _ _ _ _ carries2)];
      rewrite <- surjective_pairing; by apply Submit_ok.
  - intros o rec [s|s] Hg; cbn; unfold on1, on2;
      [apply (carry_put _ _ _ _ carries1)|apply (carry_put _ _ _ _ carries2)];
      rewrite <- surjective_pairing; by apply PutJob_ok.
  - intros o [s|s] Hg.
    + exact (carry_list _ _ _ _ carries1 o _ s _ (ListUnfinished_ok o.1 s Hg)).
    + exact (carry_list _ _ _ _ carries2 o _ s _ (ListUnfinished_ok o.2 s Hg)).
  - intros o w [s|s] Hg.
    + exact (carry_list _ _ _ _ carries1 o _ s _ (ListRunningOnWorker_ok o.1 w s Hg)).
    + exact (carry_list _ _ _ _ carries2 o _ s _ (ListRunningOnWorker_ok o.2 w s Hg)).
Defined.

End sum.
