(* ===== verification/Scheduler.v ===== *)
(** * Scheduler: sending jobs to workers

    [Dispatch] and its helpers, src/orchestrator/scheduler.go. *)

From stdpp Require Import strings gmap sorting prelude.
From S2P Require Import Prelude Types Prog Config StoreSpec WorkerPool State.

Section scheduler.
Context {A : StoreAPI}.

Abbreviation program := (prog (sys A) (oracle A)).

(** ** The mutators of [Dispatch] *)

Definition missing_payload : mutator unit := λ c r,
  (c, Ok (set_JobError "missing payload (pre-Phase-4 WAL entry)" (set_Status StatusFailed r))).

Definition mark_running (workerID : string) : mutator unit := λ c r,
  if terminal r then (c, Err ErrSkipTransition)
  else (c, Ok (set_WorkerID workerID (set_Status StatusRunning r))).

Definition revert_pending : mutator unit := λ c r,
  if terminal r then (c, Err ErrSkipTransition)
  else (c, Ok (set_RetryCount (int64 (RetryCount r + 1))
                 (set_WorkerID "" (set_Status StatusPending r)))).

(** ** Operations *)

Definition task_of (rec : JobRecord) : pb.ExecuteTaskRequest :=
  pb.mkExecute (ID rec) (FunctionBytes rec) (ArgsBytes rec) (FunctionName rec).

Definition sendExecuteTask (workerID address : string) (rec : JobRecord) :
    program (option error) :=
  conn ← getOrDial workerID address;
  match conn with
  | Err e => mret (Some (wrapError ("dial " +:+ address +:+ ": ") e ""))
  | Ok conn =>
      resp ← rpc_ExecuteTask conn (task_of rec);
      match resp with
      | Err e => _ ← dropChannel workerID; mret (Some e)
      | Ok resp =>
          if negb (pb.accepted resp)
          then mret (Some (errorString ("worker rejected: " +:+ pb.rejection_reason resp)))
          else mret None
      end
  end.

(** The loop over workers; [tried] are those of earlier iterations. *)
Fixpoint dispatch_loop (fuel : nat) (jobID : string) (rec : JobRecord) (tried : gset string) :
    program (option error) :=
  match fuel with
  | O => Spin
  | S fuel =>
      pick ← pool_LeastLoadedAliveExcluding tried;
      let '(workerID, address, ok) := pick in
      if negb ok
      then mret (Some (if bool_decide (tried = ∅) then ErrNoWorkersAvailable
                       else ErrAllWorkersExhausted))
      else
        let tried := {[workerID]} ∪ tried in
        res ← store_Transition jobID (mark_running workerID) tt;
        let '(committed, err, _) := res in
        match err with
        | Some e => mret (Some (wrapError ("mark RUNNING for job " +:+ jobID +:+ ": ") e ""))
        | None =>
            if negb committed then mret (Some ErrJobAlreadyTerminal)
            else
              sent ← sendExecuteTask workerID address rec;
              match sent with
              | None => mret None
              | Some _ =>
                  _ ← store_Transition jobID revert_pending tt;
                  dispatch_loop fuel jobID rec tried
              end
        end
  end.

Definition Dispatch (fuel : nat) (jobID : string) : program (option error) :=
  got ← store_GetJob jobID;
  match got with
  | Err e => mret (Some (wrapError ("load job " +:+ jobID +:+ ": ") e ""))
  | Ok None => mret (Some (errorString ("job " +:+ jobID +:+ " not found")))
  | Ok (Some rec) =>
      if terminal rec then mret (Some ErrJobAlreadyTerminal)
      else if bool_decide (FunctionBytes rec = [])
      then
        _ ← store_Transition jobID missing_payload tt;
        mret (Some (errorString ("job " +:+ jobID +:+ " has no payload")))
      else dispatch_loop fuel jobID rec ∅
  end.

End scheduler.
