(* ===== verification/Watch.v ===== *)
(** * Watch: streaming a job's life to clients

    [WatchJob], [StreamTaskLogs] and the terminal notification,
    src/orchestrator/watch.go, with [mapStatus] of server.go. *)

From stdpp Require Import strings gmap sorting prelude.
From S2P Require Import Prelude Types Prog Config StoreSpec LogHub State.

Definition mapStatus (s : JobStatus) : pb.JobStatus :=
  if String.eqb s StatusPending then pb.JOB_STATUS_PENDING
  else if String.eqb s StatusRunning then pb.JOB_STATUS_RUNNING
  else if String.eqb s StatusDone then pb.JOB_STATUS_DONE
  else if String.eqb s StatusFailed then pb.JOB_STATUS_FAILED
  else pb.JOB_STATUS_UNKNOWN.

Definition statusEvent (jobID : string) (st : JobStatus) : pb.JobEvent :=
  pb.mkJobEvent jobID (pb.JobEvent_Status (mapStatus st)).

Definition jobResultEvent (rec : JobRecord) : pb.JobEvent :=
  pb.mkJobEvent (ID rec) (pb.JobEvent_Result
    (pb.mkJobResult (mapStatus (Status rec)) (ResultBytes rec) (JobError rec) (ColdStartMs rec)
       (int64 (ColdStartMs rec + ExecutionMs rec)) (int32 (RetryCount rec)) (WorkerID rec))).

(** How [WatchJob] ends.  [WatchResult] and [WatchCancelled] are both the Go value
    nil: after the terminal event was sent, and because the client went away. *)
Inductive watch_end : Type :=
| WatchResult
| WatchCancelled
| WatchSendError (e : error)
| WatchStatus (st : status).

Section watch.
Context {A : StoreAPI}.

Abbreviation program := (prog (sys A) (oracle A)).

Definition notifyTerminal (jobID : string) : program unit :=
  got ← store_GetJob jobID;
  match got with
  | Ok (Some rec) =>
      if negb (terminal rec) then mret tt else hub_Finish jobID (jobResultEvent rec)
  | _ => mret tt
  end.

(** Send the events in order; stop at the first failure.  [sent] are the events on
    the stream so far. *)
Fixpoint send_all (evs sent : list pb.JobEvent) : program (list pb.JobEvent * option error) :=
  match evs with
  | [] => mret (sent, None)
  | ev :: evs =>
      err ← stream_Send ev;
      match err with
      | Some e => mret (sent, Some e)
      | None => send_all evs (sent ++ [ev])
      end
  end.

(** [return stream.Send(ev)] with a terminal event. *)
Definition send_last (ev : pb.JobEvent) (sent : list pb.JobEvent) :
    program (list pb.JobEvent * watch_end) :=
  err ← stream_Send ev;
  match err with
  | Some e => mret (sent, WatchSendError e)
  | None => mret (sent ++ [ev], WatchResult)
  end.

(** The inner loop that empties the mailbox before the stored result is sent. *)
Fixpoint drain_mailbox (fuel : nat) (sub : nat) (rec : JobRecord) (sent : list pb.JobEvent) :
    program (list pb.JobEvent * watch_end) :=
  match fuel with
  | O => Spin
  | S fuel =>
      ev ← hub_try_recv sub;
      match ev with
      | None => send_last (jobResultEvent rec) sent
      | Some ev =>
          err ← stream_Send ev;
          match err with
          | Some e => mret (sent, WatchSendError e)
          | None =>
              let sent := sent ++ [ev] in
              if pb.isResult ev then mret (sent, WatchResult)
              else drain_mailbox fuel sub rec sent
          end
      end
  end.

(** [select] of the event loop: the context is done, an event arrives, or the
    ticker fires. *)
Inductive wakeup : Type := CtxDone | Mail (ev : pb.JobEvent) | Tick.

Definition watch_select (sub : nat) : program wakeup :=
  act (λ o s,
    match o_select o with
    | 0 => Next CtxDone s
    | 1 => match LogHub.recv sub (logHub s) with
           | (Some ev, h) => Next (Mail ev) (set_logHub h s)
           | (None, _) => Block
           end
    | _ => Next Tick s
    end).

Fixpoint watch_loop (fuel : nat) (jobID : string) (sub : nat) (lastStatus : JobStatus)
    (sent : list pb.JobEvent) : program (list pb.JobEvent * watch_end) :=
  match fuel with
  | O => Spin
  | S fuel =>
      let wait (lastStatus : JobStatus) (sent : list pb.JobEvent) :=
        w ← watch_select sub;
        match w with
        | CtxDone => mret (sent, WatchCancelled)
        | Mail ev =>
            err ← stream_Send ev;
            match err with
            | Some e => mret (sent, WatchSendError e)
            | None =>
                let sent := sent ++ [ev] in
                if pb.isResult ev then mret (sent, WatchResult)
                else watch_loop fuel jobID sub lastStatus sent
            end
        | Tick => watch_loop fuel jobID sub lastStatus sent
        end in
      got ← store_GetJob jobID;
      match got with
      | Ok (Some rec) =>
          if terminal rec then drain_mailbox fuel sub rec sent
          else if negb (String.eqb (Status rec) lastStatus)
          then
            err ← stream_Send (statusEvent jobID (Status rec));
            match err with
            | Some e => mret (sent, WatchSendError e)
            | None => wait (Status rec) (sent ++ [statusEvent jobID (Status rec)])
            end
          else wait lastStatus sent
      | _ => wait lastStatus sent
      end
  end.

(** The body of [WatchJob] after [Subscribe], before the deferred [Unsubscribe]. *)
Definition watch_body (fuel : nat) (jobID : string) (rec : JobRecord) (sub : nat)
    (replay : list pb.JobEvent) (term : option pb.JobEvent) :
    program (list pb.JobEvent * watch_end) :=
  pre ← send_all (statusEvent jobID (Status rec) :: replay) [];
  let '(sent, err) := pre in
  match err with
  | Some e => mret (sent, WatchSendError e)
  | None =>
      match term with
      | Some ev => send_last ev sent
      | None => watch_loop fuel jobID sub (Status rec) sent
      end
  end.

(** Returns the events sent on the stream and how it ended. *)
Definition WatchJob (fuel : nat) (jobID : string) : program (list pb.JobEvent * watch_end) :=
  if String.eqb jobID "" then mret ([], WatchStatus (mkStatus InvalidArgument "job_id required"))
  else
    got ← store_GetJob jobID;
    match got with
    | Err e => mret ([], WatchStatus (mkStatus Internal ("load job: " +:+ Error e)))
    | Ok None => mret ([], WatchStatus (mkStatus NotFound ("job " +:+ jobID +:+ " not found")))
    | Ok (Some rec) =>
        subscription ← hub_Subscribe jobID;
        let '(sub, replay, term) := subscription in
        r ← watch_body fuel jobID rec sub replay term;
        _ ← hub_Unsubscribe jobID sub;
        mret r
    end.

(** [chunks] are what [stream.Recv] yields; then the stream ends with EOF ([None])
    or an error.  [Ok true] is the acknowledgement. *)
Fixpoint StreamTaskLogs (chunks : list pb.TaskLogChunk) (last : option error) :
    program (result error bool) :=
  match chunks with
  | [] =>
      match last with
      | None =>
          err ← stream_SendAndClose;
          mret (match err with None => Ok true | Some e => Err e end)
      | Some e => mret (Err e)
      end
  | chunk :: chunks =>
      _ ← rpc_Received (ChunkMsg chunk);
      if String.eqb (pb.chunk_job_id chunk) "" || bool_decide (pb.chunk_lines chunk = [])
      then StreamTaskLogs chunks last
      else
        got ← store_GetJob (pb.chunk_job_id chunk);
        match got with
        | Ok (Some rec) =>
            if terminal rec then StreamTaskLogs chunks last
            else
              _ ← hub_Append (pb.chunk_job_id chunk) (pb.chunk_lines chunk);
              StreamTaskLogs chunks last
        | _ => StreamTaskLogs chunks last
        end
  end.

End watch.
