(* ===== verification/Server.v ===== *)
(** * Server: the RPC handlers, the queue drainer, the reaper and recovery

    src/orchestrator/server.go, and the loop of the fault detector
    (worker_pool.go). *)

From stdpp Require Import strings gmap sorting prelude pretty.
From Stdlib Require Import SpecFloat.
From S2P Require Import Prelude Types Prog Config StoreSpec WorkerPool Lru LogHub Metrics.
From S2P Require Import State Scheduler Watch.

(** ** Mutators *)

(** [RecoverUnfinishedJobs]: demote RUNNING; everything else is written back as it
    is. *)
Definition demote : mutator unit := λ c r,
  if String.eqb (Status r) StatusRunning
  then (c, Ok (set_WorkerID "" (set_Status StatusPending r)))
  else (c, Ok r).

(** The two [attemptDispatch] closures. *)
Definition mark_failed (msg : string) : mutator unit := λ c r,
  if terminal r then (c, Err ErrSkipTransition)
  else (c, Ok (set_JobError msg (set_Status StatusFailed r))).

(** [ReassignJobsOf]; the captured variables are [markedPending] and
    [markedFailed]. *)
Definition reassign (maxRetries : Z) : mutator (bool * bool) := λ c r,
  if negb (String.eqb (Status r) StatusRunning) then (c, Err ErrSkipTransition)
  else
    let r := set_RetryCount (int64 (RetryCount r + 1)) r in
    if (maxRetries <? RetryCount r)%Z
    then ((c.1, true),
          Ok (set_JobError "exceeded max retries after worker death(s)" (set_Status StatusFailed r)))
    else ((true, c.2), Ok (set_WorkerID "" (set_Status StatusPending r))).

Definition report (req : pb.ReportTaskResultRequest) : mutator unit := λ c r,
  if terminal r then (c, Err ErrSkipTransition)
  else
    let r := if pb.rep_success req
             then set_JobError "" (set_Status StatusDone r)
             else set_JobError (pb.rep_error req) (set_Status StatusFailed r) in
    let r := set_ArgsBytes [] (set_FunctionBytes [] r) in
    let r := set_ResultBytes (pb.rep_result_bytes req) r in
    let r := set_ColdStartMs (pb.rep_cold_start_ms req) r in
    (c, Ok (set_ExecutionMs (pb.rep_execution_ms req) r)).

(** ** Errors for clients *)

Definition storeErrToStatus (err : error) (context : string) : status :=
  if errors_Is err ErrNotLeader
  then mkStatus FailedPrecondition (context +:+ ": " +:+ Error err)
  else mkStatus Internal (context +:+ ": " +:+ Error err).

(** ** Backoff of the drainer *)

Definition firstBackoff : Z := (100 * millisecond)%Z.

Definition maxBackoff : Z := (2 * second)%Z.

Definition next_backoff (backoff : Z) : Z :=
  if (backoff <? maxBackoff)%Z then int64 (backoff * 2) else backoff.

Definition max_attempts (cfg : Config) : Z :=
  if (MaxDispatchAttempts cfg <? 1)%Z then 30%Z else MaxDispatchAttempts cfg.

(** ** Snapshot of /metrics *)

Record MetricsSnapshot : Type := mkSnapshot {
  UptimeS : Z;
  ActiveWorkers : Z;
  TotalWorkers : Z;
  QueuedJobs : Z;
  TotalInvocations : Z;
  TotalCompleted : Z;
  TotalFailed : Z;
  InFlightJobs : Z;
  ErrorRate : spec_float;
  ColdStartSamples : Z;
  P50ColdStartMs : Z;
  P95ColdStartMs : Z;
  P99ColdStartMs : Z;
  MeanColdStartMs : spec_float;
  Workers : list WorkerPool.WorkerMetrics;
}.

Section server.
Context {A : StoreAPI}.
Variable cfg : Config.

Abbreviation program := (prog (sys A) (oracle A)).

(** ** Queue *)

Definition enqueue (jobID : string) : program unit :=
  down ← shuttingDown_Load;
  if (down : bool) then mret tt else queue_send jobID.

Definition QueueDepth : program Z :=
  n ← queue_len;
  m ← stalledDispatches_Load;
  mret (int64 (n + m)).

Definition BeginShutdown : program unit := shuttingDown_Store true.

(** ** Startup recovery *)

Fixpoint recover_loop (jobs : list JobRecord) : program unit :=
  match jobs with
  | [] => mret tt
  | j :: jobs =>
      res ← store_Transition (ID j) demote tt;
      let '(_, err, _) := res in
      match err with
      | Some _ => recover_loop jobs
      | None => _ ← enqueue (ID j); recover_loop jobs
      end
  end.

Definition RecoverUnfinishedJobs : program (option error) :=
  res ← store_ListUnfinished;
  let '(jobs, err) := res in
  match err with
  | Some e => mret (Some e)
  | None => _ ← recover_loop jobs; mret None
  end.

(** ** Queue drainer *)

Definition fail_job (jobID msg : string) : program unit :=
  _ ← store_Transition jobID (mark_failed msg) tt;
  notifyTerminal jobID.

Definition exhausted_message (attempts : Z) : string :=
  "dispatch failed: no worker accepted after " +:+ pretty attempts +:+ " attempts".

(** After the last attempt. *)
Definition exhaust_dispatch (jobID : string) : program unit :=
  _ ← fail_job jobID (exhausted_message (max_attempts cfg));
  metrics_update Metrics.RecordFailed.

(** The attempts of [attemptDispatch], [remaining] of them; the result is the local
    variable [stalled] when the function returns. *)
Fixpoint attempt_loop (fuel : nat) (jobID : string) (remaining : nat) (backoff : Z)
    (stalled : bool) : program bool :=
  match remaining with
  | O => _ ← exhaust_dispatch jobID; mret stalled
  | S remaining =>
      err ← Dispatch fuel jobID;
      match err with
      | None => mret stalled
      | Some e =>
          if errors_Is e ErrJobAlreadyTerminal then mret stalled
          else if errors_Is e ErrNoWorkersAvailable || errors_Is e ErrAllWorkersExhausted
          then
            _ ← (if negb stalled then stalledDispatches_Add 1 else mret tt);
            match remaining with
            | O => _ ← exhaust_dispatch jobID; mret true
            | S _ =>
                done ← sleep backoff;
                if (done : bool) then mret true
                else attempt_loop fuel jobID remaining (next_backoff backoff) true
            end
          else
            _ ← fail_job jobID ("dispatch failed: " +:+ Error e);
            mret stalled
      end
  end.

Definition attemptDispatch (fuel : nat) (jobID : string) : program unit :=
  stalled ← attempt_loop fuel jobID (Z.to_nat (max_attempts cfg)) firstBackoff false;
  if (stalled : bool) then stalledDispatches_Add (-1) else mret tt.

(** [fuel] bounds the number of jobs taken and the loop of each [Dispatch]. *)
Fixpoint drain_queue (fuel n : nat) : program unit :=
  match n with
  | O => Spin
  | S n =>
      next ← queue_recv;
      match next with
      | None => mret tt
      | Some jobID => _ ← attemptDispatch fuel jobID; drain_queue fuel n
      end
  end.

Definition RunPendingQueueLoop (fuel : nat) : program unit := drain_queue fuel fuel.

(** ** Reaper *)

Fixpoint reassign_loop (jobs : list JobRecord) : program unit :=
  match jobs with
  | [] => mret tt
  | j :: jobs =>
      res ← store_Transition (ID j) (reassign (MaxRetries cfg)) (false, false);
      let '(committed, err, marked) := res in
      match err with
      | Some _ => reassign_loop jobs
      | None =>
          if negb committed then reassign_loop jobs
          else
            _ ← match marked with
                | (true, _) => enqueue (ID j)
                | (false, true) => notifyTerminal (ID j)
                | (false, false) => mret tt
                end;
            reassign_loop jobs
      end
  end.

Definition ReassignJobsOf (workerID : string) : program unit :=
  res ← store_ListRunningOnWorker workerID;
  let '(jobs, err) := res in
  match err with
  | Some _ => mret tt
  | None => reassign_loop jobs
  end.

Fixpoint reap_all (dead : list string) : program unit :=
  match dead with
  | [] => mret tt
  | id :: dead => _ ← ReassignJobsOf id; reap_all dead
  end.

(** [select { case <-ctx.Done(): return; case <-ticker.C: ... }]. *)
Fixpoint RunFaultDetector (fuel : nat) : program unit :=
  match fuel with
  | O => Spin
  | S fuel =>
      done ← sleep second;
      if (done : bool) then mret tt
      else dead ← pool_sweep; _ ← reap_all dead; RunFaultDetector fuel
  end.

(** ** Worker-facing RPCs *)

Definition RegisterWorker (req : pb.RegisterWorkerRequest) :
    program (result status pb.RegisterWorkerResponse) :=
  if String.eqb (pb.reg_worker_id req) "" || String.eqb (pb.reg_address req) ""
  then mret (Err (mkStatus InvalidArgument "worker_id and address required"))
  else
    let capacity := if (pb.reg_capacity req <=? 0)%Z then 1%Z else pb.reg_capacity req in
    _ ← pool_Register (pb.reg_worker_id req) (pb.reg_address req) capacity;
    mret (Ok (pb.mkRegisterResponse (pb.reg_worker_id req)
                (int32 (Z.quot (HeartbeatInterval cfg) millisecond)))).

(** The response is [ShouldDrain]. *)
Definition Heartbeat (req : pb.HeartbeatRequest) : program (result status bool) :=
  if String.eqb (pb.hb_worker_id req) ""
  then mret (Err (mkStatus InvalidArgument "worker_id required"))
  else
    known ← pool_RecordHeartbeat (pb.hb_worker_id req) (pb.hb_active_tasks req);
    mret (Ok (negb known)).

(** The response is [Acknowledged]. *)
Definition ReportTaskResult (req : pb.ReportTaskResultRequest) : program (result status bool) :=
  let id := pb.rep_job_id req in
  if String.eqb id "" then mret (Err (mkStatus InvalidArgument "job_id required"))
  else
    _ ← results_Put id (Lru.mkResult (pb.rep_result_bytes req) (pb.rep_error req)
                          (pb.rep_cold_start_ms req) (pb.rep_execution_ms req));
    _ ← hub_Append id (pb.rep_tail_lines req);
    res ← store_Transition id (report req) tt;
    let '(_, err, _) := res in
    match err with
    | Some e => mret (Err (storeErrToStatus e "transition job"))
    | None =>
        _ ← notifyTerminal id;
        _ ← metrics_RecordColdStart (pb.rep_cold_start_ms req);
        _ ← metrics_update (if pb.rep_success req then Metrics.RecordCompleted
                            else Metrics.RecordFailed);
        mret (Ok true)
    end.

(** ** SDK-facing RPCs *)

Definition payload_size (req : pb.InvokeFunctionRequest) : Z :=
  (Z.of_nat (length (pb.inv_function_bytes req)) + Z.of_nat (length (pb.inv_args_bytes req)))%Z.

Definition new_job (req : pb.InvokeFunctionRequest) (now : Z) (uuid : string) : JobRecord :=
  mkJob uuid StatusPending "" (pb.inv_function_name req) (pb.inv_function_bytes req)
    (pb.inv_args_bytes req) [] 0 0 "" now zeroTime 0 "" 0.

Definition InvokeFunction (req : pb.InvokeFunctionRequest) : program (result status string) :=
  if bool_decide (pb.inv_function_bytes req = [])
  then mret (Err (mkStatus InvalidArgument "function_bytes required"))
  else if ((0 <? MaxPayloadBytes cfg) && (MaxPayloadBytes cfg <? payload_size req))%Z
  then mret (Err (mkStatus InvalidArgument
    ("payload too large: " +:+ pretty (payload_size req) +:+ " bytes (max "
       +:+ pretty (MaxPayloadBytes cfg) +:+ ")")))
  else
    now ← time_Now;
    res ← store_Submit (new_job req now) (pb.inv_idempotency_key req);
    let '(jobID, created, err) := res in
    match err with
    | Some e => mret (Err (storeErrToStatus e "persist job"))
    | None =>
        _ ← (if (created : bool)
             then _ ← enqueue jobID; metrics_update Metrics.RecordInvocation
             else mret tt);
        mret (Ok jobID)
    end.

(** The response before the cached or stored result is filled in. *)
Definition status_response (rec : JobRecord) (now : Z) : pb.JobStatusResponse :=
  pb.mkJobStatusResponse (ID rec) (mapStatus (Status rec)) [] (JobError rec) 0
    (Z.quot (time_Sub now (CreatedAt rec)) millisecond) (int32 (RetryCount rec)) (WorkerID rec).

Definition fill_cached (entry : Lru.resultEntry) (resp : pb.JobStatusResponse) :
    pb.JobStatusResponse :=
  pb.mkJobStatusResponse (pb.js_job_id resp) (pb.js_status resp) (Lru.resultBytes entry)
    (if negb (String.eqb (Lru.errorMsg entry) "") && String.eqb (pb.js_error resp) ""
     then Lru.errorMsg entry else pb.js_error resp)
    (Lru.coldStartMs entry) (int64 (Lru.executionMs entry + Lru.coldStartMs entry))
    (pb.js_retry_count resp) (pb.js_worker_id resp).

Definition fill_stored (rec : JobRecord) (resp : pb.JobStatusResponse) : pb.JobStatusResponse :=
  if negb (bool_decide (ResultBytes rec = [])) || (0 <? ColdStartMs rec)%Z || (0 <? ExecutionMs rec)%Z
  then pb.mkJobStatusResponse (pb.js_job_id resp) (pb.js_status resp) (ResultBytes rec)
         (pb.js_error resp) (ColdStartMs rec) (int64 (ColdStartMs rec + ExecutionMs rec))
         (pb.js_retry_count resp) (pb.js_worker_id resp)
  else resp.

Definition GetJobStatus (jobID : string) : program (result status pb.JobStatusResponse) :=
  if String.eqb jobID "" then mret (Err (mkStatus InvalidArgument "job_id required"))
  else
    got ← store_GetJob jobID;
    match got with
    | Err e => mret (Err (mkStatus Internal ("load job: " +:+ Error e)))
    | Ok None => mret (Err (mkStatus NotFound ("job " +:+ jobID +:+ " not found")))
    | Ok (Some rec) =>
        now ← time_Now;
        let resp := status_response rec now in
        if terminal rec
        then
          cached ← results_Get (ID rec);
          let '(entry, hit) := cached in
          mret (Ok (if (hit : bool) then fill_cached entry resp else fill_stored rec resp))
        else mret (Ok resp)
    end.

(** ** Telemetry *)

Definition error_rate (completed failed : Z) : spec_float :=
  if (0 <? int64 (completed + failed))%Z
  then SFdiv 53 1024 (WorkerPool.float64 failed) (WorkerPool.float64 (int64 (completed + failed)))
  else S754_zero false.

Definition MetricsSnapshot_ : program MetricsSnapshot :=
  p ← metrics_snapshotPercentiles;
  workers ← pool_Snapshot;
  total ← reads (λ _ s, Metrics.totalInvocations (metrics s));
  failed ← reads (λ _ s, Metrics.totalFailed (metrics s));
  completed ← reads (λ _ s, Metrics.totalCompleted (metrics s));
  started ← reads (λ _ s, Metrics.startedAt (metrics s));
  now ← time_Now;
  queued ← queue_len;
  mret (mkSnapshot
    (Metrics.float_to_int (Metrics.duration_Seconds (time_Sub now started)))
    (Z.of_nat (length (filter (λ w, WorkerPool.m_Alive w = true) workers)))
    (Z.of_nat (length workers)) queued total completed failed
    (int64 (int64 (total - completed) - failed)) (error_rate completed failed)
    (Metrics.samples p) (Metrics.p50 p) (Metrics.p95 p) (Metrics.p99 p) (Metrics.mean p) workers).

(** ** Shutdown

    [Close] of the store ends the process's use of it; a call that races with it
    fails, which the store's environment covers. *)

Definition Close : program unit := Scheduler_Close.

End server.
