(* ===== verification/Cluster.v ===== *)
(** * Cluster: building the store, joining a raft cluster, following the leader

    [NewServer] and [RaftStore()] (src/orchestrator/server.go), [NewRaftStore] and
    [Status] (raft_store.go), [joinRaftCluster] and [watchRaftLeadership]
    (main.go).  What the operating system and hashicorp/raft answer are arguments. *)

From stdpp Require Import strings gmap sorting prelude.
From S2P Require Import Prelude Paths Types Prog Json Bolt Config StoreSpec JobStore RaftFsm RaftStore.
From S2P Require Import State AnyStore Scheduler Watch Server.

(** ** Building the store *)

Section build.
Context {B : BoltAPI}.

(** The answers to the calls of [NewRaftStore], in order.  [fsm_open] and [fsm_ft] are
    those of the embedded BoltStore. *)
Record RaftBoot : Type := mkBoot {
  mkdirErr : option error;
  fsm_open : result error BoltStore.DBFile;
  fsm_ft : Faults;
  logsErr : option error;
  snapsErr : option error;
  resolveErr : option error;
  transErr : option error;
  newRaftErr : option error;
  bootstrapErr : option error;
}.

(** The servers a node is told to start a cluster with: ID and address. *)
Abbreviation Configuration := (list (string * string)).

Definition newRaftStoreWithDeps (err : option error) (fsmStore : BoltStore.t) :
    result error BoltStore.t :=
  match err with
  | Some e => Err (wrapError "start raft: " e "")
  | None => Ok fsmStore
  end.

(** The second component is the argument of [BootstrapCluster], if it is called. *)
Definition NewRaftStore (bt : RaftBoot) (cfg : Config) :
    result error BoltStore.t * option Configuration :=
  match mkdirErr bt with
  | Some e => (Err e, None)
  | None =>
  match BoltStore.NewBoltStore (Join [RaftDir cfg; "fsm.db"]) (fsm_open bt) (fsm_ft bt) with
  | Err e => (Err e, None)
  | Ok fsmStore =>
  match logsErr bt, snapsErr bt, resolveErr bt, transErr bt with
  | Some e, _, _, _ => (Err e, None)
  | _, Some e, _, _ => (Err e, None)
  | _, _, Some e, _ => (Err (wrapError ("resolve raft bind " +:+ RaftBind cfg +:+ ": ") e ""), None)
  | _, _, _, Some e => (Err (wrapError ("raft transport on " +:+ RaftBind cfg +:+ ": ") e ""), None)
  | None, None, None, None =>
  match newRaftStoreWithDeps (newRaftErr bt) fsmStore with
  | Err e => (Err e, None)
  | Ok store =>
      if String.eqb (RaftJoin cfg) ""
      then
        let servers := Some [(RaftID cfg, RaftBind cfg)] in
        match bootstrapErr bt with
        | Some e =>
            if errors_Is e raft_ErrCantBootstrap then (Ok store, servers)
            else (Err (wrapError "bootstrap: " e ""), servers)
        | None => (Ok store, servers)
        end
      else (Ok store, None)
  end
  end
  end
  end.

(** The two stores a server may have. *)
#[export] Instance Store : StoreAPI := either BoltStore.api RaftStore.raft_api.

#[export] Instance Store_ok {BL : BoltLaws B} : StoreOk Store :=
  either_ok _ _ (OK1 := BoltStore.boltstore_ok) (OK2 := RaftStore.raftstore_ok).

(** [db] and [ft] are the answers to opening the single-node database. *)
Definition NewServer (now : Z) (bt : RaftBoot) (db : result error BoltStore.DBFile) (ft : Faults)
    (cfg : Config) : result error (sys Store) :=
  let opened : result error (@store Store) :=
    if RaftEnabled cfg
    then match (NewRaftStore bt cfg).1 with Ok s => Ok (inr s) | Err e => Err e end
    else match BoltStore.NewBoltStore (DBPath cfg) db ft with Ok s => Ok (inl s) | Err e => Err e end in
  match opened with
  | Err e => Err e
  | Ok store => Ok (NewServerWithStore now cfg store)
  end.

(** [rs, _ := s.jobStore.( *RaftStore)]. *)
Definition RaftStore_ (s : sys Store) : option BoltStore.t :=
  match jobStore s with inr rs => Some rs | inl _ => None end.

(** A server that was built is in raft mode exactly if the settings ask for it.  A raft
    node forms a cluster only if it is not told to join one, and then of itself
    alone; that it did so before is no error. *)
Lemma NewServer_mode now bt db ft cfg s :
  NewServer now bt db ft cfg = Ok s →
  s = NewServerWithStore now cfg (jobStore s) ∧
  (is_Some (RaftStore_ s) ↔ RaftEnabled cfg = true) ∧
  (RaftEnabled cfg = true →
   (NewRaftStore bt cfg).2 =
     if String.eqb (RaftJoin cfg) "" then Some [(RaftID cfg, RaftBind cfg)] else None).
Proof.
  unfold NewServer. destruct (RaftEnabled cfg).
  - destruct (NewRaftStore bt cfg) as [[st|e] conf] eqn:Eraft; cbn [fst snd]; [|done]. intros [= <-].
    split; [done|]. split; [by split|]. intros _. revert Eraft. unfold NewRaftStore.
    destruct (mkdirErr bt); [done|].
    destruct (BoltStore.NewBoltStore _ _ _); [|done].
    destruct (logsErr bt), (snapsErr bt), (resolveErr bt), (transErr bt); try done.
    destruct (newRaftStoreWithDeps _ _); [|done]. destruct (String.eqb _ _); [|by intros [= _ <-]].
    destruct (bootstrapErr bt) as [e|]; [destruct (errors_Is e _)|]; by intros [= _ <-].
  - destruct (BoltStore.NewBoltStore _ _ _); [|done]. intros [= <-]. split; [done|].
    split; [|done]. split; [by intros [? ?]|done].
Qed.

End build.

(** ** The cluster surface of the store *)

Record RaftServerInfo : Type := mkServerInfo {
  si_ID : string;
  si_Address : string;
  si_Suffrage : string;
}.

Record RaftStatus : Type := mkRaftStatus {
  rs_ID : string;
  rs_State : string;
  rs_LeaderID : string;
  rs_LeaderAddr : string;
  rs_Servers : list RaftServerInfo;
  rs_LastIndex : Z;
  rs_AppliedIdx : Z;
}.

Inductive Suffrage : Type := Voter | Nonvoter | Staging.

(** The answers of the raft node to the calls of [Status]. *)
Record RaftView : Type := mkView {
  v_leaderAddr : string;
  v_leaderID : string;
  v_state : RaftStore.RaftState;
  v_lastIndex : Z;
  v_appliedIndex : Z;
  v_configuration : result error (list (string * string * Suffrage));
}.

Definition RaftState_String (st : RaftStore.RaftState) : string :=
  match st with
  | RaftStore.Follower => "Follower"
  | RaftStore.Candidate => "Candidate"
  | RaftStore.Leader => "Leader"
  | RaftStore.Shutdown => "Shutdown"
  end.

Definition Suffrage_String (s : Suffrage) : string :=
  match s with Voter => "Voter" | Nonvoter => "Nonvoter" | Staging => "Staging" end.

Definition Status_ (v : RaftView) (localID : string) : RaftStatus :=
  mkRaftStatus localID (RaftState_String (v_state v)) (v_leaderID v) (v_leaderAddr v)
    (match v_configuration v with
     | Ok servers =>
         (λ srv : string * string * Suffrage, mkServerInfo srv.1.1 srv.1.2 (Suffrage_String srv.2)) <$> servers
     | Err _ => []
     end)
    (v_lastIndex v) (v_appliedIndex v).

(** ** Joining *)

Definition join_url (cfg : Config) : string := TrimRightSlash (RaftJoin cfg) +:+ "/raft/join".

(** [json.Marshal] of a map sorts the keys. *)
Definition join_body (cfg : Config) : json :=
  JObj [("addr", JStr (RaftBind cfg)); ("id", JStr (RaftID cfg))].

Definition StatusNoContent : Z := 204.

Definition join_attempts : nat := 30.

Definition next_join_backoff (backoff : Z) : Z :=
  if (backoff <? 5 * second)%Z then int64 (backoff * 2) else backoff.

(** What [joinRaftCluster] does: a POST, or a sleep. *)
Inductive join_event : Type :=
| Post (url contentType : string) (body : json)
| Sleep (d : Z).

(** [answers n] is the outcome of the [n]th POST: the status code, or an error.  The
    result says whether the node joined. *)
Fixpoint join_loop (fuel attempt : nat) (answers : nat → result error Z) (cfg : Config) (backoff : Z) :
    list join_event * bool :=
  match fuel with
  | O => ([], false)
  | S fuel =>
      let post := Post (join_url cfg) "application/json" (join_body cfg) in
      let retry :=
        let '(evs, joined) := join_loop fuel (S attempt) answers cfg (next_join_backoff backoff) in
        (post :: Sleep backoff :: evs, joined) in
      match answers attempt with
      | Ok code => if (code =? StatusNoContent)%Z then ([post], true) else retry
      | Err _ => retry
      end
  end.

Definition joinRaftCluster (answers : nat → result error Z) (cfg : Config) : list join_event * bool :=
  join_loop join_attempts 1 answers cfg second.

(** ** Following the leader *)

Section leadership.
Context {A : StoreAPI}.

(** [select { case <-ctx.Done(): case isLeader := <-rs.LeaderCh(): }]. *)
Definition leader_select : prog (sys A) (oracle A) (option bool) :=
  reads (λ o _, if o_done o then None
                else Some (match o_select o with O => false | S _ => true end)).

Fixpoint watchRaftLeadership (fuel : nat) : prog (sys A) (oracle A) unit :=
  match fuel with
  | O => Spin
  | S fuel =>
      ev ← leader_select;
      match ev with
      | None => mret tt
      | Some false => watchRaftLeadership fuel
      | Some true => _ ← RecoverUnfinishedJobs; watchRaftLeadership fuel
      end
  end.

End leadership.

(** ** The join loop *)

(** The node was accepted at this attempt. *)
Definition accepted_at (answers : nat → result error Z) (n : nat) : Prop :=
  answers n = Ok StatusNoContent.

#[export] Instance accepted_at_dec answers n : Decision (accepted_at answers n).
Proof.
  unfold accepted_at. destruct (answers n) as [code|e]; [|by right].
  destruct (decide (code = StatusNoContent)); [left; congruence|right; congruence].
Defined.

Definition is_post (e : join_event) : bool := match e with Post _ _ _ => true | Sleep _ => false end.

Definition sleep_of (e : join_event) : option Z := match e with Sleep d => Some d | Post _ _ _ => None end.

(** One attempt. *)
Lemma join_loop_step fuel attempt answers cfg backoff :
  join_loop (S fuel) attempt answers cfg backoff =
    if decide (accepted_at answers attempt)
    then ([Post (join_url cfg) "application/json" (join_body cfg)], true)
    else
      let r := join_loop fuel (S attempt) answers cfg (next_join_backoff backoff) in
      (Post (join_url cfg) "application/json" (join_body cfg) :: Sleep backoff :: r.1, r.2).
Proof.
  cbn [join_loop]. destruct (join_loop fuel _ _ _ _) as [evs joined]. cbn [fst snd].
  unfold accepted_at. case_decide as Ha; [by rewrite Ha|].
  destruct (answers attempt) as [code|e]; [|done].
  destruct (Z.eqb_spec code StatusNoContent) as [->|]; done.
Qed.

Lemma join_loop_joined fuel attempt answers cfg backoff :
  (join_loop fuel attempt answers cfg backoff).2 = true ↔
    ∃ n, attempt ≤ n < attempt + fuel ∧ accepted_at answers n.
Proof.
  revert attempt backoff. induction fuel as [|fuel IH]; intros attempt backoff.
  { cbn. split; [done|]. intros (n & ? & _). lia. }
  rewrite join_loop_step. case_decide as Ha; cbn [fst snd].
  - split; [|done]. intros _. exists attempt. split; [lia|done].
  - rewrite IH. split; intros (n & Hn & Hacc).
    + exists n. split; [lia|done].
    + exists n. split; [|done]. destruct (decide (n = attempt)) as [->|]; [done|lia].
Qed.

(** The waits double from one second up to eight. *)
Definition join_wait (d : Z) : Prop :=
  d = second ∨ d = (2 * second)%Z ∨ d = (4 * second)%Z ∨ d = (8 * second)%Z.

Lemma next_join_wait d : join_wait d → join_wait (next_join_backoff d).
Proof. intros [->|[->|[->| ->]]]; [right; left|do 2 right; left|do 3 right|do 3 right]; by vm_compute. Qed.

Lemma join_loop_events fuel attempt answers cfg backoff :
  join_wait backoff →
  let evs := (join_loop fuel attempt answers cfg backoff).1 in
  Forall join_wait (omap sleep_of evs) ∧
  length (filter (λ e, is_post e = true) evs) ≤ fuel ∧
  (∀ e, e ∈ evs → is_post e = true → e = Post (join_url cfg) "application/json" (join_body cfg)).
Proof.
  revert attempt backoff. induction fuel as [|fuel IH]; intros attempt backoff Hb.
  { cbn. split; [constructor|]. split; [lia|]. by intros e ?%not_elem_of_nil. }
  rewrite join_loop_step. case_decide as Ha; cbn [fst snd].
  { split; [constructor|]. split; [rewrite filter_cons_True by done; cbn; lia|].
    by intros e ->%list_elem_of_singleton. }
  destruct (IH (S attempt) (next_join_backoff backoff)) as (H1 & H2 & H3); [by apply next_join_wait|].
  split; [by constructor|].
  split; [rewrite filter_cons_True by done; rewrite filter_cons_False by done; cbn; lia|].
  intros e [->|[->|?]%elem_of_cons]%elem_of_cons He; [done|done|auto].
Qed.

Lemma joinRaftCluster_spec answers cfg :
  let r := joinRaftCluster answers cfg in
  (r.2 = true ↔ ∃ n, 1 ≤ n < 1 + join_attempts ∧ accepted_at answers n) ∧
  length (filter (λ e, is_post e = true) r.1) ≤ join_attempts ∧
  (∀ e, e ∈ r.1 → is_post e = true → e = Post (join_url cfg) "application/json" (join_body cfg)) ∧
  Forall join_wait (omap sleep_of r.1).
Proof.
  unfold joinRaftCluster. generalize join_attempts. intros fuel.
  destruct (join_loop_events fuel 1 answers cfg second) as (H1 & H2 & H3); [by left|].
  split; [apply join_loop_joined|]. auto.
Qed.

(** ** A new leader's first look at the store *)

Module Failover.

#[local] Existing Instance RaftStore.raft_api.

(** A leader whose calls succeed; the channel delivers [true] first and then the
    context ends. *)
Definition follower_env : RaftStore.Calm :=
  RaftStore.mkCalm RaftStore.Leader "10.0.0.1:7000" "node-a" RaftStore.Committed no_faults no_faults 3000.

Definition became_leader (n : nat) : oracle RaftStore.raft_api :=
  mkOracle 3000 3000 follower_env [] "u" None (Ok (pb.mkExecuteResponse true ""))
    (match n with O => false | _ => true end) None 1.

Definition defaults : Config :=
  mkCfg 50051 8080 "minimodal.db" (6 * second) (2 * second) 3 30 (5 * second) 16777216
    false 0 4 1 (30 * second) (3 * second) (15 * second) (500 * millisecond)
    ".venv/bin/python -m worker.worker" "." 50100 true "node-1" "127.0.0.1:7000" "raft-data" "".

(** The node before and after its FSM applies the last committed entry, the
    submission of a job. *)
Definition behind : sys RaftStore.raft_api :=
  NewServerWithStore 0 defaults (BoltStore.empty_store : store).

Definition tail : list json := [Fsm.Examples.data Fsm.Examples.submit1].

Definition caught_up (s : sys RaftStore.raft_api) : sys RaftStore.raft_api :=
  set_jobStore (Fsm.replay tail (jobStore s) : store) s.

Definition replay_end : option (option JobRecord * list string) :=
  match run became_leader (watchRaftLeadership 2) behind with
  | Done _ s => Some (a_jobs (BoltStore.view (jobStore (caught_up s))) !! "job-1", pendingQueue (caught_up s))
  | _ => None
  end.

Lemma replay_end_eq : replay_end = Some (Some Fsm.Examples.job1, []).
Proof. vm_compute. reflexivity. Qed.


End Failover.
