(* ===== verification/Invariant.v ===== *)
(** * The invariant of the shared state

    What every step of the orchestrator preserves ([Inv]) and what it promises to
    the other goroutines ([Guar]), for any job store that meets the contract of
    StoreSpec.v, with one lemma per atomic step of State.v. *)

From stdpp Require Import strings gmap sorting prelude.
From S2P Require Import Prelude Types Prog Config StoreSpec WorkerPool Lru LogHub Metrics.
From S2P Require Import State Scheduler Watch Server.

(** ** Job records *)

(** A stored job is in one of the four states; until it is finished it has a
    payload; it names a worker when it runs and none when it waits. *)
Record job_ok (r : JobRecord) : Prop := {
  ok_status : Status r = StatusPending ∨ Status r = StatusRunning ∨ terminal r = true;
  ok_payload : terminal r = false → FunctionBytes r ≠ [];
  ok_pending : Status r = StatusPending → WorkerID r = "";
  ok_running : Status r = StatusRunning → WorkerID r ≠ "";
}.

(** All of a record but the bookkeeping that every write touches. *)
Definition outcome_of (r : JobRecord) : JobRecord :=
  set_Version 0 (set_UpdatedAt 0 (set_CreatedAt 0 r)).

(** How a record may change: what identifies the job never; the outcome of a
    finished job never; the payload not before it is finished. *)
Record evolves (r r' : JobRecord) : Prop := {
  ev_name : ID r' = ID r ∧ FunctionName r' = FunctionName r ∧ IdempotencyKey r' = IdempotencyKey r;
  ev_final : terminal r = true → outcome_of r' = outcome_of r;
  ev_payload : terminal r' = false →
    FunctionBytes r' = FunctionBytes r ∧ ArgsBytes r' = ArgsBytes r;
}.

(** ** The store *)

Record store_ok (a : astore) : Prop := {
  jobs_ok : ∀ id r, a_jobs a !! id = Some r → job_ok r;
  index_ok : ∀ key id, a_idem a !! key = Some id →
    ∃ r, a_jobs a !! id = Some r ∧ IdempotencyKey r = key;
}.

Record store_evolves (a a' : astore) : Prop := {
  jobs_evolve : ∀ id r, a_jobs a !! id = Some r → ∃ r', a_jobs a' !! id = Some r' ∧ evolves r r';
  index_kept : ∀ key id, a_idem a !! key = Some id → a_idem a' !! key = Some id;
}.

(** A terminal event tells the stored outcome. *)
Definition event_ok (a : astore) (ev : pb.JobEvent) : Prop :=
  pb.isResult ev = true →
  ∃ r, a_jobs a !! pb.ev_job_id ev = Some r ∧ terminal r = true ∧ ev = jobResultEvent r.

Definition terminal_event_ok (a : astore) (id : string) (ev : pb.JobEvent) : Prop :=
  pb.isResult ev = true ∧ pb.ev_job_id ev = id ∧ event_ok a ev.

(** The task carries the payload of its job. *)
Definition task_ok (a : astore) (req : pb.ExecuteTaskRequest) : Prop :=
  pb.ex_function_bytes req ≠ [] ∧
  ∃ r, a_jobs a !! pb.ex_job_id req = Some r ∧ pb.ex_function_name req = FunctionName r ∧
    (terminal r = false →
     pb.ex_function_bytes req = FunctionBytes r ∧ pb.ex_args_bytes req = ArgsBytes r).

(** If the job is DONE, one of the messages [ms] is a report that gave its result. *)
Definition answered (ms : list message) (id : string) (r : JobRecord) : Prop :=
  Status r = StatusDone →
  ∃ req, ReportMsg req ∈ ms ∧ pb.rep_job_id req = id ∧ pb.rep_success req = true ∧
    pb.rep_result_bytes req = ResultBytes r.

(** The line was sent for the job, in a chunk or at the end of a report. *)
Definition sent_line (ms : list message) (id : string) (l : pb.LogLine) : Prop :=
  ∃ m, m ∈ ms ∧
    match m with
    | ReportMsg req => pb.rep_job_id req = id ∧ l ∈ pb.rep_tail_lines req
    | ChunkMsg chunk => pb.chunk_job_id chunk = id ∧ l ∈ pb.chunk_lines chunk
    end.

Definition logged (ms : list message) (id : string) (l : pb.LogLine) : Prop :=
  ∃ l0, l = LogHub.truncate l0 ∧ sent_line ms id l0.

(** A log event tells a line that was sent for its job. *)
Definition log_ok (ms : list message) (ev : pb.JobEvent) : Prop :=
  match pb.ev_event ev with pb.JobEvent_Log l => logged ms (pb.ev_job_id ev) l | _ => True end.

Definition payload (r : JobRecord) : bytes * bytes := (FunctionBytes r, ArgsBytes r).

(** A property of the record of a job. *)
Definition job_at (id : string) (D : JobRecord → Prop) (a : astore) : Prop :=
  ∃ r, a_jobs a !! id = Some r ∧ D r.

Lemma logged_mono ms ms' id l : ms ⊆ ms' → logged ms id l → logged ms' id l.
Proof. intros Hms (l0 & -> & m & Hm & H). exists l0. split; [done|]. exists m. auto. Qed.

Lemma log_ok_mono ms ms' ev : ms ⊆ ms' → log_ok ms ev → log_ok ms' ev.
Proof. intros Hms. unfold log_ok. destruct (pb.ev_event ev); try done. by apply logged_mono. Qed.

Section invariant.
Context {A : StoreAPI} {OK : StoreOk A}.

Definition astate (s : sys A) : astore := view contract (jobStore s).

Record Inv (s : sys A) : Prop := {
  inv_good : good contract (jobStore s);
  inv_store : store_ok (astate s);
  inv_pool : WorkerPool.wf (workerPool s) ∧ WorkerPool.workers (workerPool s) !! "" = None;
  inv_metrics : Metrics.wf (metrics s);
  inv_queue : ∀ id, id ∈ pendingQueue s → is_Some (a_jobs (astate s) !! id);
  inv_room : (Z.of_nat (length (pendingQueue s)) ≤ pendingQueueSize)%Z;
  inv_results : Lru.wf (results s);
  inv_hub : LogHub.wf (logHub s);
  inv_events : LogHub.hub_all (λ _ _, True) (λ _ ev, event_ok (astate s) ev)
                 (terminal_event_ok (astate s)) (logHub s);
  inv_logs : LogHub.hub_all (λ _ _, True) (λ _ ev, log_ok (received s) ev) (λ _ _, True) (logHub s) ∧
    LogHub.hub_lines (logged (received s)) (logHub s);
  inv_tasks : ∀ addr req, (addr, req) ∈ sentTasks s → task_ok (astate s) req;
  inv_payloads : ∀ id P, payloads s !! id = Some P →
    job_at id (λ r, (terminal r = false → payload r = P) ∧ answered (received s) id r) (astate s);
  inv_sent : ∀ addr req P, (addr, req) ∈ sentTasks s → payloads s !! pb.ex_job_id req = Some P →
    (pb.ex_function_bytes req, pb.ex_args_bytes req) = P;
}.

(** What survives a crash, and what the running goroutines also promise.  A job that
    exists was created by an invocation then or never. *)
Record Hist (s s' : sys A) : Prop := {
  hist_store : store_evolves (astate s) (astate s');
  hist_payloads : ∀ id, is_Some (a_jobs (astate s) !! id) → payloads s' !! id = payloads s !! id;
  hist_received : received s ⊆ received s';
  hist_sent : sentTasks s ⊆ sentTasks s';
}.

Record Guar (s s' : sys A) : Prop := {
  guar_hist : Hist s s';
  guar_hub : ∀ i id, LogHub.owns i id (logHub s) → LogHub.owns i id (logHub s');
}.

(** UUIDs are new. *)
Definition fresh_uuid (o : oracle A) (s : sys A) : Prop :=
  o_uuid o ≠ "" ∧ a_jobs (astate s) !! o_uuid o = None.

(** ** Evolution *)

Lemma outcome_fields r r' :
  outcome_of r' = outcome_of r →
  ID r' = ID r ∧ Status r' = Status r ∧ WorkerID r' = WorkerID r ∧ RetryCount r' = RetryCount r ∧
  JobError r' = JobError r ∧ ResultBytes r' = ResultBytes r ∧ ColdStartMs r' = ColdStartMs r ∧
  ExecutionMs r' = ExecutionMs r.
Proof. destruct r, r'. unfold outcome_of. cbn. intros H. by simplify_eq. Qed.

Lemma outcome_of_terminal r r' : outcome_of r' = outcome_of r → terminal r' = terminal r.
Proof. intros (_ & E & _)%outcome_fields. unfold terminal. by rewrite E. Qed.

Lemma evolves_refl r : evolves r r.
Proof. by split. Qed.

Lemma evolves_terminal r r' : evolves r r' → terminal r = true → terminal r' = true.
Proof. intros He Ht. rewrite (outcome_of_terminal _ _ (ev_final _ _ He Ht)). done. Qed.

Lemma evolves_trans r1 r2 r3 : evolves r1 r2 → evolves r2 r3 → evolves r1 r3.
Proof.
  intros H12 H23. destruct (ev_name _ _ H12) as (?&?&?), (ev_name _ _ H23) as (?&?&?). split.
  - split; [congruence|]. split; congruence.
  - intros Ht. rewrite (ev_final _ _ H23) by (by eapply evolves_terminal). by apply H12.
  - intros Ht. destruct (ev_payload _ _ H23 Ht) as [-> ->]. apply H12.
    destruct (terminal r2) eqn:E; [|done]. by rewrite (evolves_terminal _ _ H23 E) in Ht.
Qed.

Lemma store_evolves_refl a : store_evolves a a.
Proof. split; [|done]. intros id r Hr. exists r. split; [done|apply evolves_refl]. Qed.

Lemma store_evolves_trans a1 a2 a3 : store_evolves a1 a2 → store_evolves a2 a3 → store_evolves a1 a3.
Proof.
  intros [J1 K1] [J2 K2]. split; [|auto]. intros id r1 H1.
  destruct (J1 _ _ H1) as (r2 & H2 & E12). destruct (J2 _ _ H2) as (r3 & H3 & E23).
  exists r3. split; [done|by eapply evolves_trans].
Qed.

(** The events and tasks of a finished or unfinished job stay right. *)
Lemma jobResultEvent_outcome r r' : outcome_of r' = outcome_of r → jobResultEvent r' = jobResultEvent r.
Proof.
  intros (E1 & E2 & E3 & E4 & E5 & E6 & E7 & E8)%outcome_fields. unfold jobResultEvent.
  by rewrite E1, E2, E3, E4, E5, E6, E7, E8.
Qed.

Lemma event_ok_evolves a a' ev : store_evolves a a' → event_ok a ev → event_ok a' ev.
Proof.
  intros He Hev Hres. destruct (Hev Hres) as (r & Hr & Ht & Eev).
  destruct (jobs_evolve _ _ He _ _ Hr) as (r' & Hr' & Err).
  exists r'. split; [done|]. split; [by eapply evolves_terminal|].
  by rewrite (jobResultEvent_outcome _ _ (ev_final _ _ Err Ht)).
Qed.

Lemma task_ok_evolves a a' req : store_evolves a a' → task_ok a req → task_ok a' req.
Proof.
  intros He (Hne & r & Hr & Hn & Hp). split; [done|].
  destruct (jobs_evolve _ _ He _ _ Hr) as (r' & Hr' & Err).
  exists r'. split; [done|]. destruct (ev_name _ _ Err) as (_ & -> & _). split; [done|].
  intros Ht. destruct (ev_payload _ _ Err Ht) as [-> ->]. apply Hp.
  destruct (terminal r) eqn:E; [|done]. by rewrite (evolves_terminal _ _ Err E) in Ht.
Qed.

Lemma job_at_evolves id D a a' :
  (∀ r r', evolves r r' → D r → D r') → store_evolves a a' → job_at id D a → job_at id D a'.
Proof.
  intros HD He (r & Hr & Hd). destruct (jobs_evolve _ _ He _ _ Hr) as (r' & Hr' & Err).
  exists r'. eauto.
Qed.

Lemma Hist_refl s : Hist s s.
Proof. split; [apply store_evolves_refl|done..]. Qed.

Lemma Hist_trans s1 s2 s3 : Hist s1 s2 → Hist s2 s3 → Hist s1 s3.
Proof.
  intros [H1 H2 H3 H3'] [H4 H5 H6 H6']. split; [by eapply store_evolves_trans| |by etrans..].
  intros id [r Hr]. rewrite H5; [by apply H2|]. destruct (jobs_evolve _ _ H1 _ _ Hr) as (r' & ? & _). by exists r'.
Qed.

Lemma Guar_refl s : Guar s s.
Proof. split; [apply Hist_refl|done]. Qed.

Lemma Guar_trans s1 s2 s3 : Guar s1 s2 → Guar s2 s3 → Guar s1 s3.
Proof. intros [H1 H2] [H3 H4]. split; [by eapply Hist_trans|auto]. Qed.

(** The payload that is known of an existing job. *)
Lemma stable_payload id Q : stable Inv Guar (λ s, job_at id (λ _, True) (astate s) ∧ Q (payloads s !! id)).
Proof.
  intros s s' _ _ HG [(r & Hr & _) HQ]. destruct (jobs_evolve _ _ (hist_store _ _ (guar_hist _ _ HG)) _ _ Hr) as (r' & Hr' & _).
  split; [by exists r'|]. rewrite (hist_payloads _ _ (guar_hist _ _ HG)); [done|by exists r].
Qed.

Lemma stable_received m : stable Inv Guar (λ s, m ∈ received s).
Proof. intros s s' _ _ HG. apply (hist_received _ _ (guar_hist _ _ HG)). Qed.

Lemma stable_log_ok ev : stable Inv Guar (λ s, log_ok (received s) ev).
Proof. intros s s' _ _ HG. apply log_ok_mono, (hist_received _ _ (guar_hist _ _ HG)). Qed.

(** The events tell only lines that were sent for their jobs. *)
Definition told (evs : list pb.JobEvent) (s : sys A) : Prop := Forall (log_ok (received s)) evs.

Lemma told_Hist evs s s' : Hist s s' → told evs s → told evs s'.
Proof. intros HH Hs. eapply Forall_impl; [exact Hs|]. intros ev. apply log_ok_mono, HH. Qed.

Lemma stable_told evs : stable Inv Guar (told evs).
Proof. intros s s' _ _ HG. apply told_Hist, HG. Qed.

(** Knowledge about the store survives. *)
Lemma stable_job id D :
  (∀ r r', evolves r r' → D r → D r') → stable Inv Guar (λ s, job_at id D (astate s)).
Proof. intros HD s s' _ _ HG. apply job_at_evolves; [done|apply HG]. Qed.

Lemma stable_index key id : stable Inv Guar (λ s, a_idem (astate s) !! key = Some id).
Proof. intros s s' _ _ HG. apply HG. Qed.

Lemma stable_owns i id : stable Inv Guar (λ s, LogHub.owns i id (logHub s)).
Proof. intros s s' _ _ HG. apply HG. Qed.

Lemma stable_event ev : stable Inv Guar (λ s, event_ok (astate s) ev).
Proof. intros s s' _ _ HG. apply event_ok_evolves, HG. Qed.

#[local] Hint Resolve stable_index stable_owns stable_event stable_log_ok stable_told : stable.

(** ** Steps that leave the store and the hub alone *)

Lemma Guar_same s s' :
  jobStore s' = jobStore s → logHub s' = logHub s → payloads s' = payloads s → received s' = received s →
  sentTasks s' = sentTasks s → Guar s s'.
Proof.
  intros E1 E2 E3 E4 E5. split; [split|]; unfold astate; rewrite ?E1, ?E2, ?E3, ?E4, ?E5; [apply store_evolves_refl|done..].
Qed.

Lemma Inv_set_workerPool p s :
  Inv s → WorkerPool.wf p ∧ WorkerPool.workers p !! "" = None → Inv (set_workerPool p s).
Proof. intros [] Hp. by split. Qed.

Lemma Inv_set_metrics m s : Inv s → Metrics.wf m → Inv (set_metrics m s).
Proof. intros [] Hm. by split. Qed.

Lemma Inv_set_results l s : Inv s → Lru.wf l → Inv (set_results l s).
Proof. intros [] Hl. by split. Qed.

Lemma Inv_set_channels m s : Inv s → Inv (set_channels m s).
Proof. intros []. by split. Qed.

Lemma Inv_set_flags b z s : Inv s → Inv (set_shuttingDown b s) ∧ Inv (set_stalledDispatches z s).
Proof. intros []. split; by split. Qed.

(** ** Steps on the store *)

Lemma answered_evolves rs id r r' :
  evolves r r' → (terminal r = false → answered rs id r') → answered rs id r → answered rs id r'.
Proof.
  intros He Hnew Hr. destruct (terminal r) eqn:Et; [|by apply Hnew].
  destruct (outcome_fields _ _ (ev_final _ _ He Et)) as (_ & E1 & _ & _ & _ & E2 & _).
  unfold answered. by rewrite E1, E2.
Qed.

Lemma payload_evolves P r r' :
  evolves r r' → (terminal r = false → payload r = P) → terminal r' = false → payload r' = P.
Proof.
  intros He Hr Ht. unfold payload. destruct (ev_payload _ _ He Ht) as [-> ->]. apply Hr.
  destruct (terminal r) eqn:E; [|done]. by rewrite (evolves_terminal _ _ He E) in Ht.
Qed.

(** [Hnew]: a job is DONE only after a report. *)
Lemma Inv_set_jobStore st s :
  Inv s → good contract st → store_ok (view contract st) →
  store_evolves (astate s) (view contract st) →
  (∀ id r r', a_jobs (astate s) !! id = Some r → a_jobs (view contract st) !! id = Some r' →
     terminal r = false → answered (received s) id r') →
  Inv (set_jobStore st s) ∧ Guar s (set_jobStore st s).
Proof.
  intros [] Hg Hok He Hnew. split; [|by split; [split|]].
  split; cbn [jobStore workerPool metrics pendingQueue results logHub sentTasks payloads received set_jobStore];
    try done; unfold astate; cbn [jobStore set_jobStore].
  - intros id Hid. destruct (inv_queue0 id Hid) as [r Hr].
    destruct (jobs_evolve _ _ He _ _ Hr) as (r' & -> & _). done.
  - eapply LogHub.hub_all_mono; [| | |exact inv_events0]; [done| |].
    + intros i ev. by apply event_ok_evolves.
    + intros id ev (? & ? & ?). split; [done|]. split; [done|]. by eapply event_ok_evolves.
  - intros addr req Hin. eapply task_ok_evolves; eauto.
  - intros id P HP. destruct (inv_payloads0 id P HP) as (r & Hr & Hp & Ha).
    destruct (jobs_evolve _ _ He _ _ Hr) as (r' & Hr' & Hev). exists r'. split; [done|].
    split; [by eapply payload_evolves|]. eapply answered_evolves; eauto.
Qed.

(** Writing a record stamps it. *)
Lemma written_fields o r r' :
  written contract o r r' →
  outcome_of r' = outcome_of r ∧ ID r' = ID r ∧ FunctionName r' = FunctionName r ∧
  IdempotencyKey r' = IdempotencyKey r ∧ terminal r' = terminal r ∧
  FunctionBytes r' = FunctionBytes r ∧ ArgsBytes r' = ArgsBytes r.
Proof.
  intros (now & v & ->)%written_stamp. unfold outcome_of, terminal, stamp. cbn.
  by destruct (time_IsZero (CreatedAt r)).
Qed.

Lemma written_evolves o r r1 r2 : evolves r r1 → written contract o r1 r2 → evolves r r2.
Proof.
  intros He (E1 & E2 & E3 & E4 & E5 & E6 & E7)%written_fields.
  destruct He as [(?&?&?) Hf Hp]. split.
  - by rewrite E2, E3, E4.
  - intros Ht. rewrite E1. by apply Hf.
  - rewrite E5, E6, E7. done.
Qed.

Lemma written_ok o r1 r2 : job_ok r1 → written contract o r1 r2 → job_ok r2.
Proof.
  intros [H1 H2 H3 H4] (E & _ & _ & _ & E5 & E6 & _)%written_fields.
  apply outcome_fields in E as (_ & Es & Ew & _).
  split; by rewrite ?E5, ?E6, ?Es, ?Ew.
Qed.

(** A mutator of the orchestrator: it keeps records well formed and lets them
    evolve. *)
Definition mutator_ok {C} (m : mutator C) : Prop :=
  keeps_ID m ∧
  ∀ c r c' r', job_ok r → m c r = (c', Ok r') → job_ok r' ∧ evolves r r'.

Lemma a_put_ok id r r' a :
  store_ok a → a_jobs a !! id = Some r → job_ok r' → evolves r r' →
  store_ok (a_put id r' a) ∧ store_evolves a (a_put id r' a).
Proof.
  intros [Hj Hi] Hr Hok He. split; split; cbn.
  - intros id' r0 [[_ <-]|[_ H]]%lookup_insert_Some; eauto.
  - intros key id' (r0 & Hr0 & Hk)%Hi. destruct (decide (id' = id)) as [->|Hne].
    + exists r'. rewrite lookup_insert_eq. split; [done|]. simplify_eq.
      by destruct (ev_name _ _ He) as (_ & _ & ->).
    + exists r0. by rewrite lookup_insert_ne.
  - intros id' r0 Hr0. destruct (decide (id' = id)) as [->|Hne].
    + exists r'. rewrite lookup_insert_eq. by simplify_eq.
    + exists r0. rewrite lookup_insert_ne by done. split; [done|apply evolves_refl].
  - done.
Qed.

(** ** Specifications of the steps *)

Abbreviation Spec := (spec Inv Guar fresh_uuid).

Lemma spec_bind_keep {X Y} (p : prog (sys A) (oracle A) X) (f : X → prog (sys A) (oracle A) Y) F Q Q' :
  stable Inv Guar F → Spec (λ _, True) p Q →
  (∀ x, Spec (λ s, Q x s ∧ F s) (f x) Q') → Spec F (p ≫= f) Q'.
Proof.
  intros HF Hp Hf. eapply spec_bind; [|exact Hf].
  eapply spec_weaken; [| |by apply spec_frame]; cbn; auto.
Qed.

(** When the result of the step does not matter. *)
Lemma spec_bind_skip {X Y} (p : prog (sys A) (oracle A) X) (f : X → prog (sys A) (oracle A) Y) F Q' :
  stable Inv Guar F → Spec (λ _, True) p (λ _ _, True) →
  (∀ x, Spec F (f x) Q') → Spec F (p ≫= f) Q'.
Proof.
  intros HF Hp Hf. eapply spec_bind_keep; [done|done|]. intros x.
  eapply spec_weaken; [| |apply Hf]; cbn; [|done]. by intros s _ [_ ?].
Qed.

Lemma reads_spec {B} (f : oracle A → sys A → B) (P : sys A → Prop) (R : B → sys A → Prop) :
  (∀ b, stable Inv Guar (R b)) → (∀ o s, Inv s → P s → R (f o s) s) → Spec P (reads f) R.
Proof.
  intros Hst HR. apply spec_act; [done|]. intros o s _ HI HP.
  split; [done|]. split; [apply Guar_refl|eauto].
Qed.

Lemma reads_any {B} (f : oracle A → sys A → B) : Spec (λ _, True) (reads f) (λ _ _, True).
Proof. apply reads_spec; [|done]. intros. apply stable_pure. Qed.

Lemma writes_spec {B} (f : oracle A → sys A → B * sys A) (P : sys A → Prop) (R : B → sys A → Prop) :
  (∀ b, stable Inv Guar (R b)) →
  (∀ o s, fresh_uuid o s → Inv s → P s →
     Inv (f o s).2 ∧ Guar s (f o s).2 ∧ R (f o s).1 (f o s).2) →
  Spec P (writes f) R.
Proof.
  intros Hst HR. apply spec_act; [done|]. intros o s Ho HI HP.
  specialize (HR o s Ho HI HP). by destruct (f o s).
Qed.

Lemma writes_any {B} (f : oracle A → sys A → B * sys A) :
  (∀ o s, Inv s → Inv (f o s).2 ∧ Guar s (f o s).2) →
  Spec (λ _, True) (writes f) (λ _ _, True).
Proof.
  intros Hf. apply writes_spec; [auto with stable|].
  intros o s _ HI _. destruct (Hf o s HI). done.
Qed.

(** The record [r] of job [id] was read from the store. *)
Definition seen (id : string) (r : JobRecord) (s : sys A) : Prop :=
  ID r = id ∧ job_ok r ∧
  (terminal r = false → ∀ P, payloads s !! id = Some P → payload r = P) ∧
  job_at id (evolves r) (astate s).

Lemma stable_seen id r : stable Inv Guar (seen id r).
Proof.
  intros s s' HI HI' HG (Hid & Hok & Hp & Hj). split; [done|]. split; [done|]. split.
  - destruct Hj as (r' & Hr' & _). by rewrite (hist_payloads _ _ (guar_hist _ _ HG)).
  - revert Hj. apply job_at_evolves; [|apply HG]. intros ? ? ? ?. by eapply evolves_trans.
Qed.

Lemma seen_now id r s : Inv s → a_jobs (astate s) !! id = Some r → seen id r s.
Proof.
  intros HI Hr. split; [by apply (good_wf _ (inv_good _ HI))|]. split; [by eapply (inv_store _ HI)|].
  split; [|exists r; split; [done|apply evolves_refl]]. intros Ht P HP.
  destruct (inv_payloads _ HI id P HP) as (r0 & Hr0 & Hp & _). simplify_eq. by apply Hp.
Qed.

Lemma store_GetJob_spec id :
  Spec (λ _, True) (store_GetJob id)
    (λ res s, match res with Ok (Some r) => seen id r s | _ => True end).
Proof.
  apply reads_spec.
  - intros [[r|]|e]; [apply stable_seen|apply stable_pure..].
  - intros o s HI _. destruct (GetJob_ok (o_store o) id _ (inv_good _ HI)); [|done].
    fold (astate s). destruct (a_jobs (astate s) !! id) as [r|] eqn:E; [|done]. by apply seen_now.
Qed.

Lemma listed_seen o keep s out :
  Inv s → list_spec contract o keep (jobStore s) (out, None) →
  Forall (λ r, seen (ID r) r s) out.
Proof.
  intros HI Hl. inversion Hl as [out' Hin Hnd|]; subst. apply Forall_forall. intros r Hr.
  apply seen_now; [done|]. by apply Hin.
Qed.

Lemma stable_listed jobs : stable Inv Guar (λ s, Forall (λ r, seen (ID r) r s) jobs).
Proof.
  intros s s' HI HI' HG Hall. eapply Forall_impl; [exact Hall|]. intros r Hr.
  exact (stable_seen _ _ s s' HI HI' HG Hr).
Qed.

Lemma store_ListUnfinished_spec :
  Spec (λ _, True) store_ListUnfinished
    (λ res s, res.2 = None → Forall (λ r, seen (ID r) r s) res.1).
Proof.
  apply reads_spec; [intros; apply stable_impl, stable_listed|]. intros o s HI _ Herr.
  pose proof (ListUnfinished_ok (o_store o) _ (inv_good _ HI)) as H.
  destruct (ListUnfinished _ _) as [out err]. cbn in *. subst err. by eapply listed_seen.
Qed.

Lemma store_ListRunningOnWorker_spec w :
  Spec (λ _, True) (store_ListRunningOnWorker w)
    (λ res s, res.2 = None → Forall (λ r, seen (ID r) r s) res.1).
Proof.
  apply reads_spec; [intros; apply stable_impl, stable_listed|]. intros o s HI _ Herr.
  pose proof (ListRunningOnWorker_ok (o_store o) w _ (inv_good _ HI)) as H.
  destruct (ListRunningOnWorker _ _ _) as [out err]. cbn in *. subst err. by eapply listed_seen.
Qed.

(** What a mutator establishes, whether it writes or skips. *)
Definition establishes {C} (m : mutator C) (D : JobRecord → Prop) : Prop :=
  (∀ r r', evolves r r' → D r → D r') ∧
  (∀ c r c' r', job_ok r → m c r = (c', Ok r') → D r') ∧
  (∀ c r c', job_ok r → m c r = (c', Err ErrSkipTransition) → D r).

Lemma unfinished_answered rs id r : terminal r = false → answered rs id r.
Proof. intros Ht Hd. unfold terminal in Ht. by rewrite Hd in Ht. Qed.

Lemma transition_put o id s st r r1 r2 :
  Inv s → good contract st → a_jobs (astate s) !! id = Some r →
  job_ok r1 → evolves r r1 → written contract o r1 r2 →
  view contract st = a_put id r2 (view contract (jobStore s)) →
  (terminal r = false → answered (received s) id r1) →
  Inv (set_jobStore st s) ∧ Guar s (set_jobStore st s).
Proof.
  intros HI Hg Hr Hok He Hw Hv Hans.
  destruct (a_put_ok id r r2 (astate s)) as [H1 H2];
    [apply HI|done|by eapply written_ok|by eapply written_evolves|].
  apply Inv_set_jobStore; [done|done|by rewrite Hv..|]. rewrite Hv. fold (astate s). cbn [a_jobs a_put]. intros id' r0 r0' Hr0 Hr0' Ht.
  apply lookup_insert_Some in Hr0' as [[<- <-]|[_ Hr0']]; [|by eapply unfinished_answered; simplify_eq].
  simplify_eq. destruct (written_fields _ _ _ Hw) as [Eo _].
  destruct (outcome_fields _ _ Eo) as (_ & E1 & _ & _ & _ & E2 & _). unfold answered. rewrite E1, E2. by apply Hans.
Qed.

(** A mutator that does not finish a job with a result, or one that has a report for
    it. *)
Definition no_done {C} (m : mutator C) : Prop :=
  ∀ c r c' r', terminal r = false → m c r = (c', Ok r') → Status r' ≠ StatusDone.

Definition done_reported {C} (m : mutator C) (id : string) (s : sys A) : Prop :=
  ∀ c r c' r', terminal r = false → m c r = (c', Ok r') → answered (received s) id r'.

Lemma no_done_reported {C} (m : mutator C) id s : no_done m → done_reported m id s.
Proof. intros H c r c' r' Ht Hm Hd. by destruct (H c r c' r' Ht Hm). Qed.

Lemma store_Transition_spec {C} id (m : mutator C) c D :
  mutator_ok m → establishes m D →
  Spec (done_reported m id) (store_Transition id m c)
    (λ res s, res.1.2 = None → job_at id D (astate s)).
Proof.
  intros [HID Hm] (HD & Hput & Hskip). apply writes_spec.
  { intros. by apply stable_impl, stable_job. }
  intros o s _ HI Hrep. pose proof (Transition_ok C (o_store o) id m c _ (inv_good _ HI) HID) as Hspec.
  destruct (Transition (o_store o) id m c (jobStore s)) as [[[b e] c'] st]. cbn [fst snd].
  assert (∀ r r' r'', a_jobs (astate s) !! id = Some r → m c r = (c', Ok r') →
    written contract (o_store o) r' r'' → good contract st →
    view contract st = a_put id r'' (view contract (jobStore s)) →
    Inv (set_jobStore st s) ∧ Guar s (set_jobStore st s) ∧ job_at id D (astate (set_jobStore st s)))
    as Hwrite.
  { intros r r' r'' Hr Hmut Hw Hg Hv. pose proof (jobs_ok _ (inv_store _ HI) _ _ Hr) as Hok.
    destruct (Hm _ _ _ _ Hok Hmut) as [Hok' He].
    destruct (transition_put _ id s st r r' r'' HI Hg Hr Hok' He Hw Hv (λ Ht, Hrep _ _ _ _ Ht Hmut)) as [H1 H2].
    split; [done|]. split; [done|]. exists r''. unfold astate. cbn [jobStore set_jobStore].
    rewrite Hv. cbn. rewrite lookup_insert_eq. split; [done|].
    apply (HD r'); [|exact (Hput _ _ _ _ Hok Hmut)].
    eapply written_evolves; [apply evolves_refl|exact Hw]. }
  assert (set_jobStore (jobStore s) s = s) as Eself by by destruct s.
  inversion Hspec; subst; rewrite ?Eself; try (split; [done|]; split; [apply Guar_refl|]; done).
  - destruct (Hwrite r r' r'') as (? & ? & ?); auto.
  - split; [done|]. split; [apply Guar_refl|]. intros _. exists r. split; [done|].
    eapply Hskip; [|done]. by eapply (jobs_ok _ (inv_store _ HI)).
  - destruct (Hwrite r r' r'') as (? & ? & ?); auto.
Qed.

(** A new record under a new ID, indexed under its key. *)
Lemma a_submit_jobs id key r a : a_jobs (a_index key id (a_put id r a)) = <[id := r]> (a_jobs a).
Proof. unfold a_index. by destruct (String.eqb key ""). Qed.

Lemma a_submit_ok id key r a :
  store_ok a → a_jobs a !! id = None → (key = "" ∨ a_idem a !! key = None) →
  job_ok r → IdempotencyKey r = key →
  store_ok (a_index key id (a_put id r a)) ∧ store_evolves a (a_index key id (a_put id r a)).
Proof.
  intros [Hj Hi] Hfresh Hkey Hok Hk.
  pose proof (a_submit_jobs id key r a) as Ej.
  split; split; rewrite ?Ej.
  - intros id' r0 [[_ <-]|[_ H]]%lookup_insert_Some; eauto.
  - intros key' id' Hk'. assert (key' = key ∧ id' = id ∨ a_idem a !! key' = Some id') as [[-> ->]|H'].
    { unfold a_index in Hk'. destruct (String.eqb key ""); [by right|]. cbn in Hk'.
      apply lookup_insert_Some in Hk' as [[<- <-]|[_ ?]]; auto. }
    + exists r. by rewrite lookup_insert_eq.
    + destruct (Hi _ _ H') as (r0 & Hr0 & ?). exists r0. split; [|done].
      rewrite lookup_insert_ne; [done|]. by intros <-; rewrite Hfresh in Hr0.
  - intros id' r0 Hr0. exists r0. split; [|apply evolves_refl].
    rewrite lookup_insert_ne; [done|]. by intros <-; rewrite Hfresh in Hr0.
  - intros key' id' Hk'. unfold a_index. destruct (String.eqb_spec key ""); [done|]. cbn.
    rewrite lookup_insert_ne; [done|]. intros <-. destruct Hkey; [done|]. congruence.
Qed.

(** The job a submission returns is in the store; a job of its own with this payload
    when there is no key, the indexed one otherwise. *)
Definition submitted (rec : string → JobRecord) (key id : string) (s : sys A) : Prop :=
  job_at id (λ r, key = "" → ∃ uuid, evolves (set_IdempotencyKey key (rec uuid)) r) (astate s) ∧
  (key ≠ "" → a_idem (astate s) !! key = Some id) ∧
  (key = "" → ∃ uuid, payloads s !! id = Some (payload (rec uuid))).

Lemma submitted_Hist rec key id s s' : Hist s s' → submitted rec key id s → submitted rec key id s'.
Proof.
  intros [He Hp _] (Hj & Hk & Hpay). split; [|split].
  - revert Hj. apply job_at_evolves; [|done].
    intros r r' Hev H Hkey. destruct (H Hkey) as [uuid ?]. exists uuid. by eapply evolves_trans.
  - intros Hkey. by apply He, Hk.
  - intros Hkey. destruct (Hpay Hkey) as [uuid Hu]. exists uuid. rewrite Hp; [done|].
    destruct Hj as (r & Hr & _). by exists r.
Qed.

Lemma stable_submitted rec key id : stable Inv Guar (submitted rec key id).
Proof. intros s s' _ _ HG. apply submitted_Hist, HG. Qed.

Lemma submit_put o rec key s st r :
  Inv s → good contract st → a_jobs (astate s) !! ID rec = None →
  (key = "" ∨ a_idem (astate s) !! key = None) →
  job_ok (set_IdempotencyKey key rec) → written contract o (set_IdempotencyKey key rec) r →
  view contract st = a_index key (ID rec) (a_put (ID rec) r (view contract (jobStore s))) →
  Inv (set_jobStore st s) ∧ Guar s (set_jobStore st s).
Proof.
  intros HI Hg Hfresh Hkey Hok Hw Hv. pose proof (written_fields _ _ _ Hw) as (_ & _ & _ & Ek & _).
  destruct (a_submit_ok (ID rec) key r (astate s)) as [H1 H2];
    [apply HI|done|done|by eapply written_ok|done|].
  apply Inv_set_jobStore; [done|done|by rewrite Hv..|]. rewrite Hv. fold (astate s).
  intros id' r0 r0' Hr0 Hr0' Ht. rewrite a_submit_jobs, lookup_insert_ne in Hr0' by (intros <-; congruence).
  simplify_eq. by apply unfinished_answered.
Qed.

(** The payload of the job that was created. *)
Lemma note_payload_ok id rec r s s' :
  Inv s' → a_jobs (astate s) !! id = None → a_jobs (astate s') !! id = Some r →
  terminal r = false → payload r = payload rec →
  Guar s s' → payloads s' = payloads s →
  let s'' := note_payload (id, true, None) rec s' in
  Inv s'' ∧ Guar s s'' ∧ payloads s'' !! id = Some (payload rec).
Proof.
  intros HI Hnone Hr Ht Hpay HG Epay s''. cbn [note_payload] in s''. fold (payload rec) in s''.
  split; [|split; [|by apply lookup_insert_eq]].
  - destruct HI. split; try done; subst s''; cbn [payloads received sentTasks set_payloads].
    + intros id' P [[<- <-]|[_ HP]]%lookup_insert_Some; [|by apply inv_payloads0].
      exists r. split; [done|]. split; [done|by apply unfinished_answered].
    + intros addr req P Hin [[E <-]|[_ HP]]%lookup_insert_Some; [|by eapply inv_sent0].
      destruct (inv_tasks0 addr req Hin) as (_ & r0 & Hr0 & _ & Hp). rewrite <- E in Hr0.
      assert (r0 = r) as -> by congruence. etrans; [|exact Hpay]. unfold payload. by destruct (Hp Ht) as [-> ->].
  - destruct HG as [[H1 H2 H3 H3'] H4]. split; [split|]; [done| |done..].
    subst s''. cbn [payloads set_payloads]. intros id' Hid'. rewrite lookup_insert_ne by (intros <-; rewrite Hnone in Hid'; by destruct Hid').
    by apply H2.
Qed.

Lemma note_payload_err id b e rec s : note_payload (A := A) (id, b, Some e) rec s = s.
Proof. by destruct b. Qed.

Lemma store_Submit_spec rec key :
  (∀ u, ID (rec u) = u ∧ job_ok (set_IdempotencyKey key (rec u)) ∧ terminal (rec u) = false) →
  Spec (λ _, True) (store_Submit rec key)
    (λ res s, res.2 = None → submitted rec key res.1.1 s).
Proof.
  intros Hrec. apply writes_spec; [intros; apply stable_impl, stable_submitted|].
  intros o s [Hne Hfresh] HI _. destruct (Hrec (o_uuid o)) as (EID & Hok & Hnew). rewrite <- EID in Hfresh.
  pose proof (Submit_ok (o_store o) (rec (o_uuid o)) key _ (inv_good _ HI)) as Hspec.
  destruct (SubmitWithIdempotency _ _ _ _) as [[[id b] e] st]. cbn [fst snd].
  assert (set_jobStore (jobStore s) s = s) as Eself by by destruct s.
  inversion Hspec as [id' Hk Hid|r s' Hkey Hw Hg Hv|id' b' e' Hf|id' b' e' r s' Hf Ha Hkey Hw Hg Hv];
    subst; rewrite ?Eself.
  - split; [done|]. split; [apply Guar_refl|]. intros _.
    destruct (index_ok _ (inv_store _ HI) _ _ Hid) as (r & Hr & _).
    split; [|by split]. exists r. by split.
  - destruct (submit_put _ _ _ _ _ _ HI Hg Hfresh Hkey Hok Hw Hv) as [H1 H2].
    assert (a_jobs (astate (set_jobStore st s)) !! ID (rec (o_uuid o)) = Some r) as Hr.
    { unfold astate. cbn [jobStore set_jobStore]. rewrite Hv, a_submit_jobs. apply lookup_insert_eq. }
    destruct (written_fields _ _ _ Hw) as (_ & _ & _ & _ & Et & Ef & Ea).
    destruct (note_payload_ok (ID (rec (o_uuid o))) (rec (o_uuid o)) r s (set_jobStore st s)) as (N1 & N2 & N3);
      [done|done|exact Hr|rewrite Et; exact Hnew|unfold payload; by rewrite Ef, Ea|done|done|].
    split; [exact N1|]. split; [exact N2|]. intros _. split; [|split].
    + exists r. split; [exact Hr|]. intros _. exists (o_uuid o). eapply written_evolves; [apply evolves_refl|done].
    + intros Hk. unfold astate. cbn [note_payload jobStore set_jobStore set_payloads].
      rewrite Hv. unfold a_index. apply String.eqb_neq in Hk as ->. cbn. by rewrite lookup_insert_eq.
    + intros _. exists (o_uuid o). exact N3.
  - rewrite note_payload_err. split; [done|]. split; [apply Guar_refl|done].
  - rewrite note_payload_err. destruct (submit_put _ _ _ _ _ _ HI Hg Hfresh Hkey Hok Hw Hv) as [H1 H2].
    split; [done|]. split; [done|done].
Qed.

(** ** Pool, cache, metrics, connections, queue *)

Lemma pool_Register_spec wid addr cap :
  wid ≠ "" → Spec (λ _, True) (pool_Register wid addr cap) (λ _ _, True).
Proof.
  intros Hne. apply writes_any. intros o s HI. split; [|by apply Guar_same].
  destruct (inv_pool _ HI) as [Hwf Hno]. apply Inv_set_workerPool; [done|].
  split; [by apply WorkerPool.Register_wf|]. cbn. by rewrite lookup_insert_ne.
Qed.

Lemma pool_RecordHeartbeat_spec wid active :
  Spec (λ _, True) (pool_RecordHeartbeat wid active) (λ _ _, True).
Proof.
  apply writes_any. intros o s HI. destruct (inv_pool _ HI) as [Hwf Hno].
  assert (WorkerPool.wf (WorkerPool.RecordHeartbeat (o_now o) wid active (workerPool s)).2 ∧
    WorkerPool.workers (WorkerPool.RecordHeartbeat (o_now o) wid active (workerPool s)).2 !! "" = None)
    as Hp.
  { split; [by apply WorkerPool.RecordHeartbeat_wf|]. unfold WorkerPool.RecordHeartbeat.
    destruct (WorkerPool.workers (workerPool s) !! wid) as [w|] eqn:Hw; [|done]. cbn.
    rewrite lookup_insert_ne; [done|]. intros ->. congruence. }
  destruct (WorkerPool.RecordHeartbeat _ _ _ _) as [b p]. cbn in *.
  split; [by apply Inv_set_workerPool|by apply Guar_same].
Qed.

Lemma pool_sweep_spec : Spec (λ _, True) pool_sweep (λ _ _, True).
Proof.
  apply writes_any. intros o s HI. destruct (inv_pool _ HI) as [Hwf Hno].
  pose proof (WorkerPool.sweep_wf (o_now o) (o_ord o) _ Hwf) as Hwf'.
  destruct (WorkerPool.sweep_spec (o_now o) (o_ord o) (workerPool s)) as (_ & _ & _ & Hk).
  specialize (Hk ""). rewrite Hno in Hk. cbn in Hk.
  destruct (WorkerPool.sweep _ _ _) as [dead p]. cbn in *.
  split; [by apply Inv_set_workerPool|by apply Guar_same].
Qed.

(** The worker picked has a name. *)
Lemma pool_pick_spec exclude :
  Spec (λ _, True) (pool_LeastLoadedAliveExcluding exclude)
    (λ res _, res.2 = true → res.1.1 ≠ "").
Proof.
  apply reads_spec; [auto with stable|]. intros o s HI _.
  destruct (inv_pool _ HI) as [Hwf Hno].
  pose proof (WorkerPool.LeastLoaded_spec (o_ord o) exclude _ Hwf) as H.
  destruct (WorkerPool.LeastLoadedAliveExcluding _ _ _) as [[wid addr] ok]. cbn. intros ->.
  destruct H as (w & Hw & _). intros ->. congruence.
Qed.

Lemma results_Put_spec k v : Spec (λ _, True) (results_Put k v) (λ _ _, True).
Proof.
  apply writes_any. intros o s HI. split; [|by apply Guar_same].
  apply Inv_set_results; [done|]. apply Lru.Put_refines, HI.
Qed.

Lemma results_Get_spec k : Spec (λ _, True) (results_Get k) (λ _ _, True).
Proof.
  apply writes_any. intros o s HI. destruct (Lru.Get_refines k _ (inv_results _ HI)) as (Hwf & _).
  destruct (Lru.Get k (results s)) as [r l]. cbn in *.
  split; [by apply Inv_set_results|by apply Guar_same].
Qed.

Lemma metrics_update_spec f :
  (∀ m, Metrics.wf m → Metrics.wf (f m)) → Spec (λ _, True) (metrics_update f) (λ _ _, True).
Proof.
  intros Hf. apply writes_any. intros o s HI. split; [|by apply Guar_same].
  apply Inv_set_metrics; [done|]. apply Hf, HI.
Qed.

Lemma metrics_RecordColdStart_spec ms :
  Spec (λ _, True) (metrics_RecordColdStart ms) (λ _ _, True).
Proof.
  apply spec_act; [auto with stable|]. intros o s _ HI _.
  destruct (Metrics.RecordColdStart_total ms _ (inv_metrics _ HI)) as (m & -> & Hm).
  split; [by apply Inv_set_metrics|]. split; [by apply Guar_same|done].
Qed.

Lemma metrics_snapshot_spec : Spec (λ _, True) metrics_snapshotPercentiles (λ _ _, True).
Proof.
  apply spec_act; [auto with stable|]. intros o s _ HI _.
  destruct (Metrics.snapshot_total _ (inv_metrics _ HI)) as [p ->].
  split; [done|]. split; [apply Guar_refl|done].
Qed.

Lemma getOrDial_spec wid addr : Spec (λ _, True) (getOrDial wid addr) (λ _ _, True).
Proof.
  apply writes_any. intros o s HI.
  destruct (channels s) as [m|]; [|by split; [|apply Guar_refl]].
  destruct (m !! wid); [by split; [|apply Guar_refl]|].
  destruct (o_dial o); [by split; [|apply Guar_refl]|]. cbn.
  split; [by apply Inv_set_channels|by apply Guar_same].
Qed.

Lemma dropChannel_spec wid : Spec (λ _, True) (dropChannel wid) (λ _ _, True).
Proof.
  apply writes_any. intros o s HI. cbn.
  destruct (channels s) as [m|]; [|by split; [|apply Guar_refl]].
  split; [by apply Inv_set_channels|by apply Guar_same].
Qed.

Lemma Scheduler_Close_spec : Spec (λ _, True) Scheduler_Close (λ _ _, True).
Proof.
  apply writes_any. intros o s HI. split; [by apply Inv_set_channels|by apply Guar_same].
Qed.

Lemma rpc_ExecuteTask_spec conn req :
  Spec (λ s, task_ok (astate s) req ∧
          ∀ P, payloads s !! pb.ex_job_id req = Some P → (pb.ex_function_bytes req, pb.ex_args_bytes req) = P)
    (rpc_ExecuteTask conn req) (λ _ _, True).
Proof.
  apply writes_spec; [auto with stable|]. intros o s _ HI [Hreq Hpay]. cbn.
  split; [|split; [|done]].
  2: { split; [split|]; cbn; [apply store_evolves_refl|done|done|set_solver|done]. }
  destruct HI. split; try done; cbn.
  - intros addr req' [?|E%list_elem_of_singleton]%elem_of_app; [by eauto|]. by simplify_eq.
  - intros addr req' P [?|E%list_elem_of_singleton]%elem_of_app; [by eauto|]. simplify_eq. apply Hpay.
Qed.

Lemma rpc_Received_spec m : Spec (λ _, True) (rpc_Received m) (λ _ s, m ∈ received s).
Proof.
  apply writes_spec; [intros; apply stable_received|]. intros o s _ HI _. cbn. split; [|split].
  - assert (received s ⊆ received s ++ [m]) as Hsub by set_solver. destruct HI. split; try done; cbn.
    { destruct inv_logs0 as [H1 H2]. split.
      - eapply LogHub.hub_all_mono; [| | |exact H1]; [done| |done]. intros i ev. by apply log_ok_mono.
      - intros id st l Hst Hl. eapply logged_mono; [exact Hsub|by eapply H2]. }
    intros id P HP. destruct (inv_payloads0 id P HP) as (r & Hr & Hp & Ha).
    exists r. split; [done|]. split; [done|]. intros Hd. destruct (Ha Hd) as (req' & Hin & ?).
    exists req'. split; [|done]. apply elem_of_app. by left.
  - split; [split|]; cbn; [apply store_evolves_refl|done| |done|done]. set_solver.
  - set_solver.
Qed.

Lemma queue_send_spec id :
  Spec (λ s, job_at id (λ _, True) (astate s)) (queue_send id) (λ _ _, True).
Proof.
  apply spec_act; [auto with stable|]. intros o s _ HI (r & Hr & _).
  destruct (Z.ltb_spec (Z.of_nat (length (pendingQueue s))) pendingQueueSize); [|done].
  split; [|split; [by apply Guar_same|done]]. destruct HI. split; try done; cbn.
  - intros id' [?|E%list_elem_of_singleton]%elem_of_app; [by apply inv_queue0|]. subst id'.
    unfold astate in *. cbn. by rewrite Hr.
  - rewrite length_app. cbn. lia.
Qed.

Lemma queue_recv_spec :
  Spec (λ _, True) queue_recv
    (λ res s, match res with Some id => job_at id (λ _, True) (astate s) | None => True end).
Proof.
  apply spec_act; [intros [id|]; [by apply stable_job|apply stable_pure]|]. intros o s _ HI _.
  destruct (o_done o); [split; [done|split; [apply Guar_refl|done]]|].
  destruct (pendingQueue s) as [|id q] eqn:Eq; [done|].
  destruct (inv_queue _ HI id) as [r Hr]; [rewrite Eq; by left|].
  split; [|split; [by apply Guar_same|]].
  - destruct HI. split; try done; cbn.
    + intros id' Hid'. apply inv_queue0. rewrite Eq. by right.
    + rewrite Eq in inv_room0. cbn in inv_room0. lia.
  - exists r. done.
Qed.

Lemma flag_spec b z :
  Spec (λ _, True) (shuttingDown_Store b) (λ _ _, True) ∧
  Spec (λ _, True) (stalledDispatches_Add z) (λ _ _, True).
Proof.
  split; apply writes_any; intros o s HI; (split; [by apply Inv_set_flags|by apply Guar_same]).
Qed.

(** ** Log hub *)

Lemma Inv_set_logHub h s :
  Inv s → LogHub.wf h →
  LogHub.hub_all (λ _ _, True) (λ _ ev, event_ok (astate s) ev) (terminal_event_ok (astate s)) h →
  LogHub.hub_all (λ _ _, True) (λ _ ev, log_ok (received s) ev) (λ _ _, True) h →
  LogHub.hub_lines (logged (received s)) h →
  (∀ i id, LogHub.owns i id (logHub s) → LogHub.owns i id h) →
  Inv (set_logHub h s) ∧ Guar s (set_logHub h s).
Proof.
  intros [] Hwf Hall Hlogs Hlines Howns. split; [by split|]. split; [split; [apply store_evolves_refl|done..]|done].
Qed.

Lemma hub_Append_spec id ls :
  Spec (λ s, ∀ l, l ∈ ls → sent_line (received s) id l) (hub_Append id ls) (λ _ _, True).
Proof.
  apply writes_spec; [auto with stable|]. intros o s _ HI Hls. pose proof (inv_hub _ HI) as Hwf. cbn [fst snd].
  assert (∀ l, l ∈ ls → logged (received s) id (LogHub.truncate l)) as Hlog by (intros l Hl; exists l; auto).
  destruct (Inv_set_logHub (LogHub.Append id ls (logHub s)) s) as [H1 H2]; [done|by apply LogHub.Append_wf|..].
  - apply LogHub.hub_all_Append; [done| |apply HI]. intros _ l _ _. by intros ?.
  - apply LogHub.hub_all_Append; [done| |apply HI]. intros _ l Hl _. by apply Hlog.
  - apply LogHub.hub_lines_Append; [done|done|apply HI].
  - intros. by apply LogHub.owns_Append.
  - done.
Qed.

Lemma hub_Finish_spec id r :
  Spec (λ s, ID r = id ∧ terminal r = true ∧ job_at id (evolves r) (astate s))
    (hub_Finish id (jobResultEvent r)) (λ _ _, True).
Proof.
  apply writes_spec; [auto with stable|]. intros o s _ HI (Hid & Ht & r' & Hr' & He).
  pose proof (inv_hub _ HI) as Hwf. cbn [fst snd].
  assert (event_ok (astate s) (jobResultEvent r)) as Hev.
  { intros _. exists r'. cbn. rewrite Hid. split; [done|]. split; [by eapply evolves_terminal|].
    symmetry. apply jobResultEvent_outcome. by apply He. }
  destruct (Inv_set_logHub (LogHub.Finish id (jobResultEvent r) (logHub s)) s) as [H1 H2]; try done.
  - by apply LogHub.Finish_wf.
  - apply LogHub.hub_all_Finish; [by split; [|split]|done|apply HI].
  - apply LogHub.hub_all_Finish; [done|done|apply HI].
  - apply LogHub.hub_lines_Finish, HI.
  - intros. by apply LogHub.owns_Finish.
Qed.

Lemma stable_terminal id ev : stable Inv Guar (λ s, terminal_event_ok (astate s) id ev).
Proof. unfold terminal_event_ok. auto 10 with stable. Qed.

#[local] Hint Resolve stable_terminal : stable.

Lemma hub_Subscribe_spec id :
  Spec (λ _, True) (hub_Subscribe id)
    (λ res s, LogHub.owns res.1.1 id (logHub s) ∧
       (∀ ev, ev ∈ res.1.2 → pb.isResult ev = false ∧ pb.ev_job_id ev = id) ∧ told res.1.2 s ∧
       match res.2 with Some ev => terminal_event_ok (astate s) id ev | None => True end).
Proof.
  apply writes_spec.
  { intros [[sub replay] term]. destruct term; cbn [snd]; auto with stable. }
  intros o s _ HI _. pose proof (inv_hub _ HI) as Hwf.
  pose proof (LogHub.Subscribe_owns id _ Hwf) as Hown.
  pose proof (LogHub.Subscribe_wf id _ Hwf) as Hwf'.
  pose proof (LogHub.hub_all_Subscribe _ _ _ id _ Logic.I (inv_events _ HI)) as Hall.
  pose proof (LogHub.hub_all_Subscribe _ _ _ id _ Logic.I (proj1 (inv_logs _ HI))) as Hlogs.
  pose proof (LogHub.hub_lines_Subscribe _ id _ (proj2 (inv_logs _ HI))) as Hlines.
  assert (∀ i id', LogHub.owns i id' (logHub s) → LogHub.owns i id' (LogHub.Subscribe id (logHub s)).2)
    as Hkeep by (intros; by apply LogHub.owns_Subscribe).
  assert (∀ ev, ev ∈ (LogHub.Subscribe id (logHub s)).1.1.2 →
    pb.isResult ev = false ∧ pb.ev_job_id ev = id) as Hreplay.
  { intros ev Hev. by destruct (proj2 Hlines ev Hev) as (l & -> & Hl). }
  assert (told (LogHub.Subscribe id (logHub s)).1.1.2 s) as Htold.
  { apply Forall_forall. intros ev Hev. by destruct (proj2 Hlines ev Hev) as (l & -> & Hl). }
  assert (match (LogHub.Subscribe id (logHub s)).1.2 with
          | Some ev => terminal_event_ok (astate s) id ev | None => True end) as Hterm.
  { pose proof (LogHub.hub_all_get _ _ _ id _ (inv_events _ HI)) as [_ _ Hget].
    pose proof (LogHub.get_lookup id (logHub s)) as Hl. unfold LogHub.Subscribe.
    destruct (LogHub.get id (logHub s)) as [st h]. cbn in *.
    destruct (LogHub.terminal st) eqn:Et; [|done]. by eapply Hget. }
  destruct (LogHub.Subscribe id (logHub s)) as [[[sub replay] term] h]. cbn [fst snd] in *.
  destruct (Inv_set_logHub h s) as [H1 H2]; [done..|apply Hlines|done|done].
Qed.

Lemma hub_Unsubscribe_spec id sub : Spec (λ _, True) (hub_Unsubscribe id sub) (λ _ _, True).
Proof.
  apply writes_any. intros o s HI. pose proof (inv_hub _ HI) as Hwf.
  apply Inv_set_logHub; [done|by apply LogHub.Unsubscribe_wf|..].
  - apply LogHub.hub_all_Unsubscribe, HI.
  - apply LogHub.hub_all_Unsubscribe, HI.
  - apply LogHub.hub_lines_Unsubscribe, HI.
  - intros. by apply LogHub.owns_Unsubscribe.
Qed.

(** What a watcher of [id] takes out of its mailbox. *)
Lemma recv_ok sub id s :
  Inv s → LogHub.owns sub id (logHub s) →
  Inv (set_logHub (LogHub.recv sub (logHub s)).2 s) ∧
  Guar s (set_logHub (LogHub.recv sub (logHub s)).2 s) ∧
  (∀ ev, (LogHub.recv sub (logHub s)).1 = Some ev →
     pb.ev_job_id ev = id ∧ event_ok (astate s) ev ∧ log_ok (received s) ev).
Proof.
  intros HI Hown. pose proof (inv_hub _ HI) as Hwf.
  destruct (LogHub.hub_all_recv _ _ _ sub _ (inv_events _ HI)) as [Hall Hev].
  destruct (LogHub.hub_all_recv _ _ _ sub _ (proj1 (inv_logs _ HI))) as [Hlogs Hlog].
  destruct (Inv_set_logHub (LogHub.recv sub (logHub s)).2 s) as [H1 H2]; try done.
  - by apply LogHub.recv_wf.
  - apply LogHub.hub_lines_recv, HI.
  - intros i id' Ho. by apply (LogHub.owns_recv i id' sub) in Ho as [? _].
  - split; [done|]. split; [done|]. intros ev E. split; [|by split; [apply Hev|apply Hlog]].
    by apply (LogHub.owns_recv sub id sub) in Hown as [_ Hj]; eapply Hj.
Qed.

Lemma hub_try_recv_spec sub id :
  Spec (λ s, LogHub.owns sub id (logHub s)) (hub_try_recv sub)
    (λ res s, match res with
              | Some ev => pb.ev_job_id ev = id ∧ event_ok (astate s) ev ∧ log_ok (received s) ev
              | None => True
              end).
Proof.
  apply writes_spec.
  { intros [ev|]; [|apply stable_pure]. auto with stable. }
  intros o s _ HI Hown. destruct (recv_ok sub id s HI Hown) as (H1 & H2 & H3).
  destruct (LogHub.recv sub (logHub s)) as [[ev|] h]; cbn [fst snd] in *; auto.
Qed.

Lemma watch_select_spec sub id :
  Spec (λ s, LogHub.owns sub id (logHub s)) (watch_select sub)
    (λ w s, match w with
            | Mail ev => pb.ev_job_id ev = id ∧ event_ok (astate s) ev ∧ log_ok (received s) ev
            | _ => True
            end).
Proof.
  apply spec_act.
  { intros [|ev|]; try apply stable_pure. auto with stable. }
  intros o s _ HI Hown. destruct (recv_ok sub id s HI Hown) as (H1 & H2 & H3).
  destruct (o_select o) as [|[|n]]; try (split; [done|split; [apply Guar_refl|done]]).
  destruct (LogHub.recv sub (logHub s)) as [[ev|] h]; cbn [fst snd] in *; auto.
Qed.

End invariant.

#[export] Hint Resolve stable_index stable_owns stable_event stable_seen stable_listed stable_submitted
  stable_terminal stable_received stable_log_ok stable_told : stable.
