(* ===== verification/Safety.v ===== *)
(** * Safety of the orchestrator under every interleaving

    Each handler meets a rely-guarantee specification (Prog.v) over the invariant
    of Invariant.v; so whatever requests arrive, however the goroutines
    interleave, whatever the store, the clock, the network and the workers do,
    and wherever the process crashes and restarts, the theorems at the end hold. *)

From stdpp Require Import strings gmap sorting prelude.
From S2P Require Import Prelude Types Prog Config StoreSpec WorkerPool Lru LogHub Metrics.
From S2P Require Import State Scheduler Watch Server Cluster Invariant.

(** ** Requests and replies *)

Inductive Req : Type :=
| RInvoke (req : pb.InvokeFunctionRequest)
| RStatus (jobID : string)
| RReport (req : pb.ReportTaskResultRequest)
| RRegister (req : pb.RegisterWorkerRequest)
| RHeartbeat (req : pb.HeartbeatRequest)
| RWatch (fuel : nat) (jobID : string)
| RLogs (chunks : list pb.TaskLogChunk) (last : option error)
| RMetrics
| RQueueDepth
| RDrainer (fuel : nat)
| RFaultDetector (fuel : nat)
| RLeadership (fuel : nat)
| RPing
| RRecover
| RShutdown
| RClose.

Inductive Reply : Type :=
| YInvoke (r : result status string)
| YStatus (r : result status pb.JobStatusResponse)
| YReport (r : result status bool)
| YRegister (r : result status pb.RegisterWorkerResponse)
| YHeartbeat (r : result status bool)
| YWatch (sent : list pb.JobEvent) (ending : watch_end)
| YLogs (r : result error bool)
| YMetrics (m : MetricsSnapshot)
| YDepth (n : Z)
| YDone (err : option error).

Definition handle {A : StoreAPI} (cfg : Config) (req : Req) : prog (sys A) (oracle A) Reply :=
  match req with
  | RInvoke req => r ← InvokeFunction cfg req; mret (YInvoke r)
  | RStatus id => r ← GetJobStatus id; mret (YStatus r)
  | RReport req => _ ← rpc_Received (ReportMsg req); r ← ReportTaskResult req; mret (YReport r)
  | RRegister req => r ← RegisterWorker cfg req; mret (YRegister r)
  | RHeartbeat req => r ← Heartbeat req; mret (YHeartbeat r)
  | RWatch fuel id => r ← WatchJob fuel id; mret (YWatch r.1 r.2)
  | RLogs chunks last => r ← StreamTaskLogs chunks last; mret (YLogs r)
  | RMetrics => m ← MetricsSnapshot_; mret (YMetrics m)
  | RQueueDepth => n ← QueueDepth; mret (YDepth n)
  | RDrainer fuel => _ ← RunPendingQueueLoop cfg fuel; mret (YDone None)
  | RFaultDetector fuel => _ ← RunFaultDetector cfg fuel; mret (YDone None)
  | RLeadership fuel => _ ← watchRaftLeadership fuel; mret (YDone None)
  | RPing => err ← store_Ping; mret (YDone err)
  | RRecover => err ← RecoverUnfinishedJobs; mret (YDone err)
  | RShutdown => _ ← BeginShutdown; mret (YDone None)
  | RClose => _ ← Close; mret (YDone None)
  end.

(** ** The mutators *)

Lemma unfinished_change r r' :
  terminal r = false →
  ID r' = ID r ∧ FunctionName r' = FunctionName r ∧ IdempotencyKey r' = IdempotencyKey r →
  (terminal r' = false → FunctionBytes r' = FunctionBytes r ∧ ArgsBytes r' = ArgsBytes r) →
  evolves r r'.
Proof. intros Ht Hn Hp. split; [done|congruence|done]. Qed.

Lemma establishes_True {C} (m : mutator C) : establishes m (λ _, True).
Proof. by split; [|split]. Qed.

Lemma mark_running_ok w : w ≠ "" → mutator_ok (mark_running w).
Proof.
  intros Hw. split.
  - intros c r c' r'. unfold mark_running. destruct (terminal r); [done|]. by intros [= <- <-].
  - intros c r c' r' Hok. unfold mark_running. destruct (terminal r) eqn:Et; [done|].
    intros [= <- <-]. split; [|by apply unfinished_change].
    split; cbn; [by right; left|intros _; by apply Hok|done|done].
Qed.

Lemma revert_pending_ok : mutator_ok revert_pending.
Proof.
  split.
  - intros c r c' r'. unfold revert_pending. destruct (terminal r); [done|]. by intros [= <- <-].
  - intros c r c' r' Hok. unfold revert_pending. destruct (terminal r) eqn:Et; [done|].
    intros [= <- <-]. split; [|by apply unfinished_change].
    split; cbn; [by left|intros _; by apply Hok|done|done].
Qed.

Lemma demote_ok : mutator_ok demote.
Proof.
  split.
  - intros c r c' r'. unfold demote. destruct (String.eqb _ _); by intros [= <- <-].
  - intros c r c' r' Hok. unfold demote. destruct (String.eqb_spec (Status r) StatusRunning) as [E|E].
    + assert (terminal r = false) as Et by (unfold terminal; by rewrite E).
      intros [= <- <-]. split; [|by apply unfinished_change].
      split; cbn; [by left|intros _; by apply Hok|done|done].
    + intros [= <- <-]. split; [done|apply evolves_refl].
Qed.

Lemma failed_ok msg r : terminal r = false → job_ok r →
  job_ok (set_JobError msg (set_Status StatusFailed r)) ∧
  evolves r (set_JobError msg (set_Status StatusFailed r)).
Proof.
  intros Et Hok. split; [|by apply unfinished_change].
  split; cbn; [by right; right|done|done|done].
Qed.

Lemma mark_failed_ok msg : mutator_ok (mark_failed msg).
Proof.
  split.
  - intros c r c' r'. unfold mark_failed. destruct (terminal r); [done|]. by intros [= <- <-].
  - intros c r c' r' Hok. unfold mark_failed. destruct (terminal r) eqn:Et; [done|].
    intros [= <- <-]. by apply failed_ok.
Qed.

Lemma reassign_ok n : mutator_ok (reassign n).
Proof.
  split.
  - intros c r c' r'. unfold reassign. destruct (negb _); [done|]. cbn.
    destruct (_ <? _)%Z; by intros [= <- <-].
  - intros c r c' r' Hok. unfold reassign.
    destruct (String.eqb_spec (Status r) StatusRunning) as [E|E]; [|done]. cbn [negb].
    assert (terminal r = false) as Et by (unfold terminal; by rewrite E).
    destruct (_ <? _)%Z; intros [= <- <-]; (split; [|by apply unfinished_change]).
    + split; cbn; [by right; right|done|done|done].
    + split; cbn; [by left|intros _; by apply Hok|done|done].
Qed.

Lemma report_ok req : mutator_ok (report req).
Proof.
  split.
  - intros c r c' r'. unfold report. destruct (terminal r); [done|].
    destruct (pb.rep_success req); by intros [= <- <-].
  - intros c r c' r' Hok. unfold report. destruct (terminal r) eqn:Et; [done|].
    destruct (pb.rep_success req); intros [= <- <-]; (split; [|by apply unfinished_change]);
      (split; cbn; [by right; right|done|done|done]).
Qed.

(** A report leaves the job finished. *)
Lemma report_establishes req : establishes (report req) (λ r, terminal r = true).
Proof.
  split; [apply evolves_terminal|]. split.
  - intros c r c' r' _. unfold report. destruct (terminal r); [done|].
    destruct (pb.rep_success req); by intros [= <- <-].
  - intros c r c' _. unfold report. by destruct (terminal r).
Qed.

(** Only a report makes a job DONE. *)
Lemma no_done_mutators :
  (∀ w, no_done (mark_running w)) ∧ no_done revert_pending ∧ no_done demote ∧
  (∀ msg, no_done (mark_failed msg)) ∧ ∀ n, no_done (reassign n).
Proof.
  split; [|split; [|split; [|split]]].
  - intros w c r c' r' Ht. unfold mark_running. rewrite Ht. by intros [= <- <-].
  - intros c r c' r' Ht. unfold revert_pending. rewrite Ht. by intros [= <- <-].
  - intros c r c' r' Ht. unfold demote. destruct (String.eqb _ _); intros [= <- <-]; [done|].
    intros Hd. unfold terminal in Ht. by rewrite Hd in Ht.
  - intros msg c r c' r' Ht. unfold mark_failed. rewrite Ht. by intros [= <- <-].
  - intros n c r c' r' Ht. unfold reassign. destruct (negb _); [done|]. cbn.
    by destruct (_ <? _)%Z; intros [= <- <-].
Qed.

Section safety.
Context {A : StoreAPI} {OK : StoreOk A}.
Variable cfg : Config.

Abbreviation Spec := (spec Inv Guar fresh_uuid).
Abbreviation Tt := (λ _, True).
Abbreviation known id := (λ s : sys A, job_at id (λ _, True) (astate s)).

Lemma known_stable id : stable Inv Guar (known id).
Proof. by apply stable_job. Qed.

#[local] Hint Resolve known_stable : stable.

Lemma seen_known id r (s : sys A) : seen id r s → known id s.
Proof. intros (_ & _ & _ & r' & ? & _). by exists r'. Qed.

Lemma true_stable : stable (S := sys A) Inv Guar Tt.
Proof. apply stable_pure. Qed.

(** A step whose result and effect the rest does not depend on. *)
Ltac skip lem := apply spec_bind_skip; [auto with stable|apply lem|intros ?].

Lemma Transition_any {C} id (m : mutator C) c :
  mutator_ok m → no_done m → Spec Tt (store_Transition id m c) (λ res s, res.1.2 = None → known id s).
Proof.
  intros Hm Hd. eapply spec_pre; [|apply store_Transition_spec; [done|apply establishes_True]].
  intros s _ _. by apply no_done_reported.
Qed.

Lemma Transition_skip {C} id (m : mutator C) c :
  mutator_ok m → no_done m → Spec Tt (store_Transition id m c) (λ _ _, True).
Proof. intros Hm Hd. eapply spec_weaken; [| |by apply Transition_any]; done. Qed.

Lemma notifyTerminal_spec id : Spec Tt (notifyTerminal id) (λ _ _, True).
Proof.
  eapply spec_bind; [apply store_GetJob_spec|]. intros [[r|]|e]; [|done|done].
  destruct (terminal r) eqn:Et; cbn [negb]; [|done].
  eapply spec_weaken; [| |apply hub_Finish_spec]; [|done]. by intros s _ (? & _ & _ & ?).
Qed.

Lemma enqueue_spec id : Spec (known id) (enqueue id) (λ _ _, True).
Proof. skip @reads_any. destruct x; [done|apply queue_send_spec]. Qed.

Lemma fail_job_spec id msg : Spec Tt (fail_job id msg) (λ _ _, True).
Proof. skip @Transition_skip; [apply mark_failed_ok|apply no_done_mutators|]. apply notifyTerminal_spec. Qed.

(** ** Dispatch *)

Lemma seen_task id r (s : sys A) :
  seen id r s → terminal r = false →
  task_ok (astate s) (task_of r) ∧
  ∀ P, payloads s !! pb.ex_job_id (task_of r) = Some P →
    (pb.ex_function_bytes (task_of r), pb.ex_args_bytes (task_of r)) = P.
Proof.
  intros (<- & Hok & Hp & r' & Hr' & He) Ht. split; [|by apply Hp].
  split; [by apply Hok|]. exists r'. cbn. split; [done|].
  split; [by destruct (ev_name _ _ He) as (_ & -> & _)|].
  intros Ht'. by destruct (ev_payload _ _ He Ht') as [-> ->].
Qed.

Lemma sendExecuteTask_spec wid addr id r :
  terminal r = false → Spec (seen id r) (sendExecuteTask wid addr r) (λ _ _, True).
Proof.
  intros Ht. skip getOrDial_spec. destruct x as [conn|e]; [|done].
  eapply spec_bind with (Q := λ _ _, True).
  { eapply spec_weaken; [| |apply rpc_ExecuteTask_spec]; [|done]. intros s _ Hs. by eapply seen_task. }
  intros [resp|e].
  - by destruct (negb _).
  - skip dropChannel_spec. done.
Qed.

Lemma dispatch_loop_spec fuel id r tried :
  terminal r = false → Spec (seen id r) (dispatch_loop fuel id r tried) (λ _ _, True).
Proof.
  intros Ht. revert tried. induction fuel as [|fuel IH]; intros tried; [done|]. cbn [dispatch_loop].
  eapply spec_bind_keep; [apply stable_seen|apply pool_pick_spec|]. intros [[wid addr] ok]. cbn [fst snd].
  destruct ok; cbn [negb]; [|done].
  eapply spec_pre with (P := λ s, wid ≠ "" ∧ seen id r s); [by intros s _ [? ?]; auto|].
  apply spec_pure; [apply _|]. intros Hne. skip @Transition_skip; [by apply mark_running_ok|apply no_done_mutators|].
  destruct x as [[committed err] []]. destruct err; [done|]. destruct committed; cbn [negb]; [|done].
  eapply spec_bind with (Q := λ _ s, seen id r s).
  { eapply spec_weaken; [| |apply spec_frame; [apply (stable_seen id r)|by apply (sendExecuteTask_spec wid addr id r)]].
    - by intros s _ Hs.
    - by intros x s _ [_ ?]. }
  intros [e|]; [|done]. skip @Transition_skip; [apply revert_pending_ok|apply no_done_mutators|]. apply IH.
Qed.

Lemma Dispatch_spec fuel id : Spec Tt (Dispatch fuel id) (λ _ _, True).
Proof.
  eapply spec_bind; [apply store_GetJob_spec|]. intros [[r|]|e]; [|done|done].
  destruct (terminal r) eqn:Et; [done|]. case_bool_decide as Hp; [|by apply dispatch_loop_spec].
  eapply spec_pre with (P := λ s, FunctionBytes r ≠ [] ∧ seen id r s).
  { intros s _ Hs. split; [|done]. destruct Hs as (_ & Hok & _). by apply Hok. }
  by apply spec_pure; [apply _|].
Qed.

(** ** The drainer *)

Lemma metrics_counters_wf m :
  Metrics.wf m → Metrics.wf (Metrics.RecordInvocation m) ∧ Metrics.wf (Metrics.RecordCompleted m) ∧
    Metrics.wf (Metrics.RecordFailed m).
Proof. intros []. split; [by split|]. split; by split. Qed.

Lemma exhaust_dispatch_spec id : Spec Tt (exhaust_dispatch cfg id) (λ _ _, True).
Proof.
  skip fail_job_spec. apply metrics_update_spec. intros m Hm. by apply metrics_counters_wf.
Qed.

Lemma attempt_loop_spec fuel id n backoff stalled :
  Spec Tt (attempt_loop cfg fuel id n backoff stalled) (λ _ _, True).
Proof.
  revert backoff stalled. induction n as [|n IH]; intros backoff stalled; cbn [attempt_loop].
  { skip exhaust_dispatch_spec. done. }
  skip Dispatch_spec. destruct x as [e|]; [|done].
  destruct (errors_Is e ErrJobAlreadyTerminal); [done|].
  destruct (errors_Is e ErrNoWorkersAvailable || errors_Is e ErrAllWorkersExhausted).
  - apply spec_bind_skip; [apply true_stable|destruct stalled; [done|by apply (flag_spec true)]|intros _].
    destruct n as [|n]; [skip exhaust_dispatch_spec; done|].
    skip @reads_any. destruct x; [done|apply IH].
  - skip fail_job_spec. done.
Qed.

Lemma attemptDispatch_spec fuel id : Spec Tt (attemptDispatch cfg fuel id) (λ _ _, True).
Proof. skip attempt_loop_spec. destruct x; [by apply (flag_spec true)|done]. Qed.

Lemma drain_queue_spec fuel n : Spec Tt (drain_queue cfg fuel n) (λ _ _, True).
Proof.
  induction n as [|n IH]; [done|]. cbn [drain_queue].
  eapply spec_bind; [apply queue_recv_spec|]. intros [id|]; [|done].
  eapply spec_pre with (P := Tt); [done|]. skip attemptDispatch_spec. apply IH.
Qed.

(** ** Recovery and the reaper *)

Lemma recover_loop_spec jobs : Spec Tt (recover_loop jobs) (λ _ _, True).
Proof.
  induction jobs as [|j jobs IH]; [done|]. cbn [recover_loop].
  eapply spec_bind; [apply Transition_any; [apply demote_ok|apply no_done_mutators]|]. intros [[b err] c]. cbn [fst snd].
  destruct err; [by eapply spec_pre; [|exact IH]|].
  eapply spec_bind with (Q := λ _ _, True); [|intros; exact IH].
  eapply spec_pre; [|apply enqueue_spec]. intros s _ Hs. by apply Hs.
Qed.

Lemma RecoverUnfinishedJobs_spec : Spec Tt RecoverUnfinishedJobs (λ _ _, True).
Proof.
  skip @reads_any. destruct x as [jobs [e|]]; [done|]. skip recover_loop_spec. done.
Qed.

Lemma watchRaftLeadership_spec fuel : Spec Tt (watchRaftLeadership fuel) (λ _ _, True).
Proof.
  induction fuel as [|fuel IH]; [done|]. cbn [watchRaftLeadership]. skip @reads_any.
  destruct x as [[|]|]; [|exact IH|done]. skip RecoverUnfinishedJobs_spec. exact IH.
Qed.

Lemma reassign_loop_spec jobs : Spec Tt (reassign_loop cfg jobs) (λ _ _, True).
Proof.
  induction jobs as [|j jobs IH]; [done|]. cbn [reassign_loop].
  eapply spec_bind; [apply Transition_any; [apply reassign_ok|apply no_done_mutators]|]. intros [[b err] [mp mf]]. cbn [fst snd].
  destruct err; [by eapply spec_pre; [|exact IH]|].
  destruct b; cbn [negb]; [|by eapply spec_pre; [|exact IH]].
  eapply spec_bind with (Q := λ _ _, True); [|intros; exact IH].
  destruct mp; [eapply spec_pre; [|apply enqueue_spec]; intros s _ Hs; by apply Hs|].
  destruct mf; [|done]. eapply spec_pre; [|apply notifyTerminal_spec]. done.
Qed.

Lemma ReassignJobsOf_spec w : Spec Tt (ReassignJobsOf cfg w) (λ _ _, True).
Proof. skip @reads_any. destruct x as [jobs [e|]]; [done|]. apply reassign_loop_spec. Qed.

Lemma RunFaultDetector_spec fuel : Spec Tt (RunFaultDetector cfg fuel) (λ _ _, True).
Proof.
  induction fuel as [|fuel IH]; [done|]. cbn [RunFaultDetector].
  skip @reads_any. destruct x; [done|]. skip pool_sweep_spec.
  apply spec_bind_skip; [apply true_stable| |intros _; apply IH].
  induction x as [|w dead IHd]; [done|]. cbn [reap_all]. skip ReassignJobsOf_spec. apply IHd.
Qed.

(** ** RPCs *)

Lemma RegisterWorker_spec req : Spec Tt (RegisterWorker cfg req) (λ _ _, True).
Proof.
  unfold RegisterWorker. destruct (String.eqb_spec (pb.reg_worker_id req) ""); [done|].
  destruct (String.eqb (pb.reg_address req) ""); [done|]. cbn [orb].
  skip pool_Register_spec; done.
Qed.

Lemma Heartbeat_spec req : Spec Tt (Heartbeat req) (λ _ _, True).
Proof.
  unfold Heartbeat. destruct (String.eqb _ _); [done|]. skip pool_RecordHeartbeat_spec. done.
Qed.

(** The job is in the store, and finished. *)
Abbreviation finished id := (λ s : sys A, job_at id (λ r, terminal r = true) (astate s)).

Lemma finished_stable id : stable Inv Guar (finished id).
Proof. apply stable_job, evolves_terminal. Qed.

Definition report_post (req : pb.ReportTaskResultRequest) (r : result status bool) (s : sys A) : Prop :=
  match r with Ok b => b = true ∧ finished (pb.rep_job_id req) s | Err _ => True end.

Lemma report_done_reported req (s : sys A) :
  ReportMsg req ∈ received s → done_reported (report req) (pb.rep_job_id req) s.
Proof.
  intros Hin c r c' r' Ht. unfold report. rewrite Ht. destruct (pb.rep_success req) eqn:Hs; intros [= <- <-]; [|done].
  intros _. by exists req.
Qed.

Lemma ReportTaskResult_spec req : Spec (λ s, ReportMsg req ∈ received s) (ReportTaskResult req) (report_post req).
Proof.
  unfold ReportTaskResult. destruct (String.eqb _ _); [done|].
  skip results_Put_spec.
  eapply spec_bind with (Q := λ _ s, ReportMsg req ∈ received s).
  { eapply spec_weaken; [| |apply spec_frame; [apply (stable_received (ReportMsg req))|
      apply (hub_Append_spec (pb.rep_job_id req) (pb.rep_tail_lines req))]].
    - intros s _ Hin. split; [|exact Hin]. intros l Hl. by exists (ReportMsg req).
    - by intros [] s _ [_ ?]. }
  intros _.
  eapply spec_bind; [eapply spec_pre; [|apply store_Transition_spec; [apply report_ok|apply report_establishes]]|].
  { intros s _. apply report_done_reported. }
  intros [[b err] c]. cbn [fst snd]. destruct err; [done|].
  eapply spec_pre with (P := finished (pb.rep_job_id req)); [intros s _ Hs; by apply Hs|].
  pose proof (finished_stable (pb.rep_job_id req)) as Hst.
  skip notifyTerminal_spec. skip metrics_RecordColdStart_spec. skip metrics_update_spec.
  - intros m Hm. destruct (pb.rep_success req); by apply metrics_counters_wf.
  - by intros s _ ?.
Qed.

Definition invoke_post (req : pb.InvokeFunctionRequest) (r : result status string) (s : sys A) : Prop :=
  match r with
  | Ok id => ∃ now, submitted (new_job req now) (pb.inv_idempotency_key req) id s
  | Err _ => True
  end.

Lemma new_job_ok req now key u :
  pb.inv_function_bytes req ≠ [] →
  ID (new_job req now u) = u ∧ job_ok (set_IdempotencyKey key (new_job req now u)) ∧
  terminal (new_job req now u) = false.
Proof. intros Hne. split; [done|]. split; [|done]. split; cbn; [by left|done|done|done]. Qed.

Lemma InvokeFunction_spec req : Spec Tt (InvokeFunction cfg req) (invoke_post req).
Proof.
  unfold InvokeFunction. case_bool_decide as Hne; [done|]. destruct (_ && _); [done|].
  skip @reads_any. rename x into now.
  eapply spec_bind; [apply store_Submit_spec; intros u; by apply new_job_ok|].
  intros [[id created] err]. cbn [fst snd]. destruct err; [done|].
  eapply spec_pre with (P := submitted (new_job req now) (pb.inv_idempotency_key req) id);
    [intros s _ Hs; by apply Hs|].
  eapply spec_bind with (Q := λ _ s, submitted (new_job req now) (pb.inv_idempotency_key req) id s).
  - destruct created; [|by intros s _ ?].
    eapply spec_bind with (Q := λ _ s, submitted (new_job req now) (pb.inv_idempotency_key req) id s).
    + eapply spec_weaken; [| |apply spec_frame; [apply stable_submitted|apply enqueue_spec]].
      * intros s _ Hs. split; [|exact Hs]. destruct Hs as [(r & ? & _) _]. by exists r.
      * by intros _ s _ [_ ?].
    + intros _. eapply spec_weaken;
        [| |apply spec_frame; [apply (stable_submitted (new_job req now) (pb.inv_idempotency_key req) id)|
            apply metrics_update_spec]].
      * by intros s _ Hs.
      * by intros _ s _ [_ ?].
      * intros m Hm. by apply metrics_counters_wf.
  - intros _ s _ Hs. by exists now.
Qed.

(** A reply that calls the job finished agrees with the stored record. *)
Definition is_finished (st : pb.JobStatus) : bool :=
  match st with pb.JOB_STATUS_DONE | pb.JOB_STATUS_FAILED => true | _ => false end.

Definition agrees (resp : pb.JobStatusResponse) (r : JobRecord) : Prop :=
  is_finished (pb.js_status resp) = true →
  terminal r = true ∧ pb.js_status resp = mapStatus (Status r) ∧
  pb.js_retry_count resp = int32 (RetryCount r) ∧ pb.js_worker_id resp = WorkerID r ∧
  (JobError r ≠ "" → pb.js_error resp = JobError r).

Definition status_post (id : string) (r : result status pb.JobStatusResponse) (s : sys A) : Prop :=
  match r with
  | Ok resp => pb.js_job_id resp = id ∧ job_at id (agrees resp) (astate s)
  | Err _ => True
  end.

Lemma agrees_evolves resp r r' : evolves r r' → agrees resp r → agrees resp r'.
Proof.
  intros He Ha Hf. destruct (Ha Hf) as (Ht & ? & ? & ? & ?).
  destruct (outcome_fields _ _ (ev_final _ _ He Ht)) as (_ & E1 & E2 & E3 & E4 & _).
  split; [by eapply evolves_terminal|]. by rewrite E1, E2, E3, E4.
Qed.

Lemma mapStatus_finished r : is_finished (mapStatus (Status r)) = terminal r.
Proof.
  unfold mapStatus, terminal, terminal_status.
  destruct (String.eqb_spec (Status r) StatusPending) as [->|]; [done|].
  destruct (String.eqb_spec (Status r) StatusRunning) as [->|]; [done|].
  destruct (String.eqb (Status r) StatusDone); [done|].
  by destruct (String.eqb (Status r) StatusFailed).
Qed.

(** What all three ways to fill in the response have in common. *)
Lemma response_agrees r now entry (hit : bool) :
  let resp := status_response r now in
  let resp' := if terminal r then if hit then fill_cached entry resp else fill_stored r resp else resp in
  pb.js_job_id resp' = ID r ∧ agrees resp' r.
Proof.
  cbn zeta. set (resp := status_response r now).
  assert (∀ resp', pb.js_status resp' = mapStatus (Status r) →
    pb.js_retry_count resp' = int32 (RetryCount r) → pb.js_worker_id resp' = WorkerID r →
    (JobError r ≠ "" → pb.js_error resp' = JobError r) → agrees resp' r) as Hag.
  { intros resp' E1 E2 E3 E4. intros Hf. rewrite E1, mapStatus_finished in Hf. done. }
  destruct (terminal r); [|by split; [|apply Hag]].
  destruct hit; [|unfold fill_stored; destruct (_ || _); by split; [|apply Hag]].
  split; [done|]. apply Hag; [done..|]. cbn. intros Hne%String.eqb_neq. by rewrite Hne, andb_false_r.
Qed.

Lemma GetJobStatus_spec id : Spec Tt (GetJobStatus id) (status_post id).
Proof.
  unfold GetJobStatus. destruct (String.eqb _ _); [done|].
  eapply spec_bind; [apply store_GetJob_spec|]. intros [[r|]|e]; [|done|done].
  skip @reads_any. rename x into now.
  assert (∀ resp, pb.js_job_id resp = ID r ∧ agrees resp r →
    Spec (seen id r) (mret (Ok resp)) (status_post id)) as Hret.
  { intros resp [Hid Ha] s _ (<- & _ & _ & r' & Hr' & He). split; [done|].
    exists r'. split; [done|by eapply agrees_evolves]. }
  destruct (terminal r) eqn:Et.
  - skip results_Get_spec. destruct x as [entry hit]. apply Hret.
    pose proof (response_agrees r now entry hit) as H. cbn zeta in H. by rewrite Et in H.
  - apply Hret. pose proof (response_agrees r now Lru.zeroResult false) as H.
    cbn zeta in H. by rewrite Et in H.
Qed.

Lemma MetricsSnapshot_spec : Spec Tt MetricsSnapshot_ (λ _ _, True).
Proof. skip metrics_snapshot_spec. do 7 skip @reads_any. done. Qed.

Lemma QueueDepth_spec : Spec Tt QueueDepth (λ _ _, True).
Proof. do 2 skip @reads_any. done. Qed.

(** ** Watching *)

(** Events of job [id] none of which ends the stream. *)
Definition ongoing (id : string) (evs : list pb.JobEvent) : Prop :=
  Forall (λ ev, pb.isResult ev = false ∧ pb.ev_job_id ev = id) evs.

Definition watch_post (id : string) (res : list pb.JobEvent * watch_end) (s : sys A) : Prop :=
  told res.1 s ∧
  match res.2 with
  | WatchResult => ∃ pre ev, res.1 = pre ++ [ev] ∧ ongoing id pre ∧ terminal_event_ok (astate s) id ev
  | _ => ongoing id res.1
  end.

Lemma ongoing_snoc id evs ev :
  ongoing id evs → pb.isResult ev = false → pb.ev_job_id ev = id → ongoing id (evs ++ [ev]).
Proof. intros. apply Forall_app. split; [done|]. by apply Forall_singleton. Qed.

Lemma watch_lines id res (s : sys A) :
  watch_post id res s → told res.1 s ∧ Forall (λ ev, pb.ev_job_id ev = id) res.1.
Proof.
  intros [Ht Hr]. split; [done|].
  assert (∀ evs, ongoing id evs → Forall (λ ev, pb.ev_job_id ev = id) evs) as Hon.
  { intros evs H. eapply Forall_impl; [exact H|]. by intros ev [_ ?]. }
  destruct (res.2); [|by apply Hon..]. destruct Hr as (pre & ev & -> & Hpre & _ & Hid & _).
  apply Forall_app. split; [by apply Hon|by apply Forall_singleton].
Qed.

Lemma told_snoc evs ev (s : sys A) : told evs s → log_ok (received s) ev → told (evs ++ [ev]) s.
Proof. intros. apply Forall_app. split; [done|]. by apply Forall_singleton. Qed.

Lemma log_ok_result ms ev : pb.isResult ev = true → log_ok ms ev.
Proof. unfold pb.isResult, log_ok. by destruct (pb.ev_event ev). Qed.

Lemma stable_watch_post id res : stable Inv Guar (watch_post id res).
Proof.
  apply stable_and; [auto with stable|]. destruct res.2; try apply stable_pure.
  apply stable_exists. intros pre. apply stable_exists. intros ev.
  auto 10 with stable.
Qed.

Lemma send_all_spec id evs sent :
  ongoing id sent → ongoing id evs →
  Spec (told (sent ++ evs)) (send_all evs sent) (λ res s, ongoing id res.1 ∧ told res.1 s).
Proof.
  revert sent. induction evs as [|ev evs IH]; intros sent Hs He; cbn [send_all].
  { rewrite app_nil_r. by intros s _ Ht. }
  apply Forall_cons in He as [[? ?] He]. pose proof (stable_told (sent ++ ev :: evs)) as Hst.
  skip @reads_any. destruct x.
  - intros s _ [Ht _]%Forall_app. done.
  - replace (sent ++ ev :: evs) with ((sent ++ [ev]) ++ evs) by (by rewrite <- app_assoc).
    apply IH; [by apply ongoing_snoc|done].
Qed.

Lemma send_last_spec id ev sent :
  ongoing id sent →
  Spec (λ s, terminal_event_ok (astate s) id ev ∧ told sent s) (send_last ev sent) (watch_post id).
Proof.
  intros Hs. assert (stable Inv Guar (λ s : sys A, terminal_event_ok (astate s) id ev ∧ told sent s)) as Hst.
  { auto with stable. }
  skip @reads_any. destruct x; [by intros s _ [_ Ht]|]. intros s _ [He Ht]. split; [|by exists sent, ev].
  apply told_snoc; [done|]. apply log_ok_result, He.
Qed.

Lemma seen_terminal_event id r (s : sys A) :
  seen id r s → terminal r = true → terminal_event_ok (astate s) id (jobResultEvent r).
Proof.
  intros (Hid & _ & _ & r' & Hr' & He) Ht. split; [done|]. split; [done|].
  intros _. exists r'. cbn. rewrite Hid. split; [done|]. split; [by eapply evolves_terminal|].
  symmetry. apply jobResultEvent_outcome. by apply He.
Qed.

(** Sending an event that was taken from the mailbox, then going on. *)
Lemma forward_spec id ev sent (F : sys A → Prop) (next : list pb.JobEvent → prog (sys A) (oracle A) _) :
  stable Inv Guar F → ongoing id sent →
  (∀ sent', ongoing id sent' → Spec (λ s, F s ∧ told sent' s) (next sent') (watch_post id)) →
  Spec (λ s, (pb.ev_job_id ev = id ∧ event_ok (astate s) ev ∧ log_ok (received s) ev) ∧ F s ∧ told sent s)
    (err ← stream_Send ev;
     match err with
     | Some e => mret (sent, WatchSendError e)
     | None => if pb.isResult ev then mret (sent ++ [ev], WatchResult) else next (sent ++ [ev])
     end) (watch_post id).
Proof.
  intros HF Hs Hnext.
  assert (stable Inv Guar (λ s : sys A, (pb.ev_job_id ev = id ∧ event_ok (astate s) ev ∧ log_ok (received s) ev) ∧
    F s ∧ told sent s)) as Hst by auto 10 with stable.
  skip @reads_any. destruct x; [by intros s _ (_ & _ & Ht)|]. destruct (pb.isResult ev) eqn:Er.
  - intros s _ [(Hid & He & Hl) [_ Ht]]. split; [by apply told_snoc|]. by exists sent, ev.
  - eapply spec_pre with (P := λ s, pb.ev_job_id ev = id ∧ F s ∧ told (sent ++ [ev]) s).
    { intros s _ [(? & _ & Hl) [? Ht]]. split; [done|]. split; [done|]. by apply told_snoc. }
    apply spec_pure; [apply _|]. intros Hid. apply Hnext. by apply ongoing_snoc.
Qed.

Lemma drain_mailbox_spec fuel sub id r sent :
  ongoing id sent → terminal r = true →
  Spec (λ s, (LogHub.owns sub id (logHub s) ∧ seen id r s) ∧ told sent s)
    (drain_mailbox fuel sub r sent) (watch_post id).
Proof.
  intros Hs Ht. revert sent Hs. induction fuel as [|fuel IH]; intros sent Hs; [done|].
  cbn [drain_mailbox].
  assert (stable Inv Guar (λ s, (LogHub.owns sub id (logHub s) ∧ seen id r s) ∧ told sent s)) as Hst
    by auto with stable.
  eapply spec_bind with (Q := λ ev s, match ev with
      | Some ev => pb.ev_job_id ev = id ∧ event_ok (astate s) ev ∧ log_ok (received s) ev | None => True end ∧
      (LogHub.owns sub id (logHub s) ∧ seen id r s) ∧ told sent s).
  { eapply spec_pre; [|apply spec_frame; [exact Hst|apply (hub_try_recv_spec sub id)]].
    intros s _ H. split; [by apply H|exact H]. }
  intros [ev|].
  - apply (forward_spec id ev sent (λ s, LogHub.owns sub id (logHub s) ∧ seen id r s)); [auto with stable|done|]. apply IH.
  - eapply spec_pre; [|by apply send_last_spec]. intros s _ [_ [[_ ?] ?]]. split; [by apply seen_terminal_event|done].
Qed.

Lemma watch_loop_spec fuel id sub last sent :
  ongoing id sent →
  Spec (λ s, LogHub.owns sub id (logHub s) ∧ told sent s) (watch_loop fuel id sub last sent) (watch_post id).
Proof.
  revert last sent. induction fuel as [|fuel IH]; intros last sent Hs; [done|]. cbn [watch_loop].
  assert (∀ sent, stable Inv Guar (λ s, LogHub.owns sub id (logHub s) ∧ told sent s)) as Hst by auto with stable.
  assert (∀ last' sent', ongoing id sent' →
    Spec (λ s, LogHub.owns sub id (logHub s) ∧ told sent' s)
      (w ← watch_select sub;
       match w with
       | CtxDone => mret (sent', WatchCancelled)
       | Mail ev =>
           err ← stream_Send ev;
           match err with
           | Some e => mret (sent', WatchSendError e)
           | None => if pb.isResult ev then mret (sent' ++ [ev], WatchResult)
                     else watch_loop fuel id sub last' (sent' ++ [ev])
           end
       | Tick => watch_loop fuel id sub last' sent'
       end) (watch_post id)) as Hwait.
  { intros last' sent' Hs'. eapply spec_bind.
    { eapply spec_pre; [|apply spec_frame; [exact (Hst sent')|apply (watch_select_spec sub id)]].
      intros s _ H. split; [apply H|exact H]. }
    intros [|ev|].
    - by intros s _ (_ & _ & Ht).
    - apply (forward_spec id ev sent' (λ s, LogHub.owns sub id (logHub s))); [auto with stable|done|].
      intros sent'' Hs''. by apply IH.
    - eapply spec_pre; [|by apply IH]. by intros s _ [_ ?]. }
  eapply spec_bind_keep; [done|apply store_GetJob_spec|].
  assert (∀ (R : sys A → Prop) last' sent', ongoing id sent' →
    Spec (λ s, R s ∧ LogHub.owns sub id (logHub s) ∧ told sent' s) _ _)
    as Hwait' by (intros R last' sent' Hs'; eapply spec_pre; [|by apply (Hwait last' sent')]; by intros s _ [_ ?]).
  intros [[r|]|e]; [|by apply Hwait'..].
  destruct (terminal r) eqn:Et.
  - eapply spec_pre; [|by apply drain_mailbox_spec]. by intros s _ (? & ? & ?).
  - destruct (negb _); [|by apply Hwait'].
    eapply spec_pre with (P := λ s, LogHub.owns sub id (logHub s) ∧ told sent s); [by intros s _ [_ ?]|].
    skip @reads_any. destruct x; [by intros s _ [_ Ht]|].
    eapply spec_pre; [|apply Hwait; by apply ongoing_snoc]. intros s _ [? Ht]. split; [done|]. by apply told_snoc.
Qed.

Lemma watch_body_spec fuel id r sub replay term :
  (∀ ev, ev ∈ replay → pb.isResult ev = false ∧ pb.ev_job_id ev = id) →
  Spec (λ s, told replay s ∧ LogHub.owns sub id (logHub s) ∧
          match term with Some ev => terminal_event_ok (astate s) id ev | None => True end)
    (watch_body fuel id r sub replay term) (watch_post id).
Proof.
  intros Hreplay.
  assert (stable Inv Guar (λ s : sys A, LogHub.owns sub id (logHub s) ∧
    match term with Some ev => terminal_event_ok (astate s) id ev | None => True end)) as Hst
    by (destruct term; auto with stable).
  eapply spec_bind; [eapply spec_pre; [|apply spec_frame; [exact Hst|apply (send_all_spec id)]]|].
  - intros s _ [Ht H]. split; [|exact H]. by apply Forall_cons.
  - constructor.
  - apply Forall_cons. split; [done|]. by apply Forall_forall.
  - intros [sent err]. cbn [fst].
    eapply spec_pre with (P := λ s, ongoing id sent ∧ told sent s ∧ LogHub.owns sub id (logHub s) ∧
      match term with Some ev => terminal_event_ok (astate s) id ev | None => True end); [by intros s _ [[? ?] ?]|].
    apply spec_pure; [apply Forall_dec; intros; apply _|]. intros Hs.
    destruct err; [by intros s _ [Ht _]|]. destruct term as [ev|].
    + eapply spec_pre; [|by apply send_last_spec]. by intros s _ (? & _ & ?).
    + eapply spec_pre; [|by apply watch_loop_spec]. by intros s _ (? & ? & _).
Qed.

Lemma WatchJob_spec fuel id : Spec Tt (WatchJob fuel id) (watch_post id).
Proof.
  assert (∀ e (s : sys A), watch_post id ([], WatchStatus e) s) as Hnone
    by (intros; split; apply Forall_nil_2).
  unfold WatchJob. destruct (String.eqb _ _); [intros s _ _; apply Hnone|].
  eapply spec_bind; [apply store_GetJob_spec|].
  intros [[r|]|e]; [|intros s _ _; apply Hnone..].
  eapply spec_pre with (P := Tt); [done|].
  eapply spec_bind; [apply hub_Subscribe_spec|]. intros [[sub replay] term]. cbn [fst snd].
  eapply spec_pre with (P := λ s, Forall (λ ev, pb.isResult ev = false ∧ pb.ev_job_id ev = id) replay ∧
    (told replay s ∧ LogHub.owns sub id (logHub s) ∧
     match term with Some ev => terminal_event_ok (astate s) id ev | None => True end)).
  { intros s _ (? & ? & ? & ?). split; [by apply Forall_forall|done]. }
  apply spec_pure; [apply Forall_dec; intros; apply _|]. intros Hreplay.
  eapply spec_bind; [apply watch_body_spec; by apply Forall_forall|]. intros res.
  pose proof (stable_watch_post id res) as Hst. skip hub_Unsubscribe_spec. by intros s _ ?.
Qed.

Lemma StreamTaskLogs_spec chunks last : Spec Tt (StreamTaskLogs chunks last) (λ _ _, True).
Proof.
  induction chunks as [|c chunks IH]; cbn [StreamTaskLogs].
  { destruct last; [done|]. skip @reads_any. done. }
  eapply spec_bind; [apply rpc_Received_spec|]. intros [].
  destruct (_ || _); [by eapply spec_pre; [|exact IH]|].
  eapply spec_bind_keep; [apply stable_received|apply store_GetJob_spec|].
  intros [[r|]|e]; [|by eapply spec_pre; [|exact IH]..].
  destruct (terminal r); [by eapply spec_pre; [|exact IH]|].
  eapply spec_bind; [eapply spec_pre; [|apply hub_Append_spec]|].
  - intros s _ [_ Hc] l Hl. by exists (ChunkMsg c).
  - intros []. exact IH.
Qed.

(** ** The server *)

Definition post (req : Req) (y : Reply) (s : sys A) : Prop :=
  match req, y with
  | RInvoke req, YInvoke r => invoke_post req r s
  | RStatus id, YStatus r => status_post id r s
  | RReport req, YReport r => report_post req r s
  | RWatch _ id, YWatch sent ending => watch_post id (sent, ending) s
  | _, _ => True
  end.

(** After a crash a new process starts on the store the old one left. *)
Definition orchestrator : server (sys A) (oracle A) Req Reply :=
  mkServer _ _ _ _ (handle cfg) fresh_uuid
    (λ o s, with_history s (NewServerWithStore (o_now o) cfg (jobStore s))).

Lemma handle_spec req : Spec Tt (handle cfg req) (post req).
Proof.
  destruct req; cbn [handle].
  - eapply spec_bind; [apply InvokeFunction_spec|]. by intros r s _ ?.
  - eapply spec_bind; [apply GetJobStatus_spec|]. by intros r s _ ?.
  - eapply spec_bind; [apply rpc_Received_spec|]. intros ?.
    eapply spec_bind; [apply ReportTaskResult_spec|]. by intros r s _ ?.
  - skip RegisterWorker_spec. done.
  - skip Heartbeat_spec. done.
  - eapply spec_bind; [apply WatchJob_spec|]. by intros [sent ending] s _ ?.
  - skip StreamTaskLogs_spec. done.
  - skip MetricsSnapshot_spec. done.
  - skip QueueDepth_spec. done.
  - skip drain_queue_spec. done.
  - skip RunFaultDetector_spec. done.
  - skip watchRaftLeadership_spec. done.
  - skip @reads_any. done.
  - skip RecoverUnfinishedJobs_spec. done.
  - skip flag_spec; [exact 0%Z|]. done.
  - skip Scheduler_Close_spec. done.
Qed.

Lemma start_Inv now st :
  good contract st → store_ok (view contract st) → Inv (NewServerWithStore now cfg st).
Proof.
  intros Hg Hok. split; cbn [NewServerWithStore workerPool metrics pendingQueue results logHub sentTasks].
  - exact Hg.
  - exact Hok.
  - split; [apply WorkerPool.NewWorkerPool_wf|]. apply lookup_empty.
  - apply Metrics.NewMetrics_wf.
  - by intros id ?%not_elem_of_nil.
  - by vm_compute.
  - apply Lru.newLRUResults_wf.
  - apply LogHub.NewLogHub_wf.
  - apply LogHub.hub_all_new.
  - split; [apply LogHub.hub_all_new|]. intros id st' l. cbn. by rewrite lookup_empty.
  - by intros addr req ?%not_elem_of_nil.
  - intros id P. cbn. by rewrite lookup_empty.
  - by intros addr req P ?%not_elem_of_nil.
Qed.

(** Postconditions survive crashes as well. *)
Lemma post_stable req y : stable Inv Hist (post req y).
Proof.
  intros s s' HI HI' HH.
  assert (∀ id D, (∀ r r', evolves r r' → D r → D r') → job_at id D (astate s) → job_at id D (astate s'))
    as Hjob by (intros id D HD; apply job_at_evolves; [done|apply HH]).
  destruct req, y; cbn; try done.
  - destruct r as [id|]; [|done]. intros (now & Hsub). exists now. by eapply submitted_Hist.
  - destruct r as [resp|]; [|done]. intros [? ?]. split; [done|]. eapply Hjob; [|done].
    intros. by eapply agrees_evolves.
  - destruct r as [b|]; [|done]. intros [? ?]. split; [done|]. eapply Hjob; [|done]. apply evolves_terminal.
  - intros [Ht Hw]. split; [by eapply told_Hist|]. revert Hw. cbn [fst snd]. destruct ending; try done.
    intros (pre & ev & ? & ? & ? & ? & ?). exists pre, ev. split; [done|]. split; [done|].
    split; [done|]. split; [done|]. eapply event_ok_evolves; [apply HH|done].
Qed.

Lemma restart_ok o s :
  Inv s → Inv (restart orchestrator o s) ∧ Hist s (restart orchestrator o s).
Proof.
  intros HI. destruct (start_Inv (o_now o) (jobStore s)) as []; [apply HI|apply (inv_store _ HI)|].
  split; [|split; [apply store_evolves_refl|done..]]. destruct HI. by split.
Qed.

Lemma reachable_config s c :
  Inv s → rtc (cstep orchestrator) (mkConfig s [] []) c →
  config_ok orchestrator Inv Guar post c.
Proof.
  intros HI Hreach. eapply (csteps_ok orchestrator Inv Guar Hist post) in Hreach; [apply Hreach|..].
  - intros s1 s2 HG. apply HG.
  - apply Hist_refl.
  - apply Hist_trans.
  - apply post_stable.
  - apply handle_spec.
  - apply restart_ok.
  - by split; cbn.
Qed.

(** History goes on through any steps, crashes included. *)
Lemma steps_Hist c c' :
  config_ok orchestrator Inv Guar post c → rtc (cstep orchestrator) c c' → Hist (c_state c) (c_state c').
Proof.
  intros Hc Hsteps. eapply (csteps_ok orchestrator Inv Guar Hist post) in Hsteps; [apply Hsteps|..].
  - intros s1 s2 HG. apply HG.
  - apply Hist_refl.
  - apply Hist_trans.
  - apply post_stable.
  - apply handle_spec.
  - apply restart_ok.
  - done.
Qed.

Lemma steps_evolve c c' :
  config_ok orchestrator Inv Guar post c → rtc (cstep orchestrator) c c' →
  store_evolves (astate (c_state c)) (astate (c_state c')).
Proof. intros Hc Hsteps. apply (hist_store _ _ (steps_Hist _ _ Hc Hsteps)). Qed.

(** The replies given, and the handlers still running, in a reachable
    configuration. *)
Lemma reachable_ok s c :
  Inv s → rtc (cstep orchestrator) (mkConfig s [] []) c →
  Inv (c_state c) ∧
  (∀ req y, (req, y) ∈ c_replies c → post req y (c_state c)) ∧
  (∀ req p o, (req, p) ∈ c_threads c → fresh_uuid o (c_state c) → ¬ panics o p (c_state c)).
Proof.
  intros HI Hreach. eapply (adequacy orchestrator Inv Guar Hist post) in Hreach;
    [destruct Hreach as (? & _ & ? & ?); done|..].
  - intros s1 s2 HG. apply HG.
  - apply Hist_refl.
  - apply Hist_trans.
  - apply post_stable.
  - apply handle_spec.
  - apply restart_ok.
  - done.
Qed.

End safety.
