(* ===== verification/Sequential.v ===== *)
(** * Handlers that run to the end

    What [Dispatch], [ReassignJobsOf] and [RecoverUnfinishedJobs] achieve when
    they run without interference: they terminate, and the reaper and the startup
    recovery leave no job behind. *)

From stdpp Require Import strings gmap sorting prelude.
From S2P Require Import Prelude Types Prog Config StoreSpec WorkerPool.
From S2P Require Import State Scheduler Watch Server Invariant Safety.

#[local] Arguments wp : simpl never.

Lemma wp_reads {A : StoreAPI} (ok : oracle A → sys A → Prop) {B} (f : oracle A → sys A → B) s
    (Q : B → sys A → Prop) :
  (∀ o, ok o s → Q (f o s) s) → wp ok (reads f) s Q.
Proof. done. Qed.

Lemma wp_writes {A : StoreAPI} (ok : oracle A → sys A → Prop) {B} (f : oracle A → sys A → B * sys A) s
    (Q : B → sys A → Prop) :
  (∀ o, ok o s → Q (f o s).1 (f o s).2) → wp ok (writes f) s Q.
Proof. intros H o Ho. specialize (H o Ho). by destruct (f o s). Qed.

(** ** Dispatch *)

Section dispatch.
Context {A : StoreAPI}.

Abbreviation anything := (λ (_ : oracle A) (_ : sys A), True).

(** The workers not tried yet. *)
Definition untried (tried : gset string) (p : WorkerPool.t) : nat :=
  size (dom (WorkerPool.workers p) ∖ tried).

(** What one dispatch may change besides the job's record: it sends at most [n]
    tasks and leaves the pool alone. *)
Definition sent_at_most (n : nat) (s s' : sys A) : Prop :=
  workerPool s' = workerPool s ∧
  ∃ ts, sentTasks s' = sentTasks s ++ ts ∧ length ts ≤ n.

Lemma sent_refl n s : sent_at_most n s s.
Proof. split; [done|]. exists []. rewrite app_nil_r. cbn. split; [done|lia]. Qed.

Lemma sent_trans n1 n2 s1 s2 s3 :
  sent_at_most n1 s1 s2 → sent_at_most n2 s2 s3 → sent_at_most (n1 + n2) s1 s3.
Proof.
  intros [E1 (ts1 & T1 & L1)] [E2 (ts2 & T2 & L2)]. split; [congruence|].
  exists (ts1 ++ ts2). rewrite T2, T1, app_assoc, length_app. split; [done|lia].
Qed.

Lemma Transition_quiet {C} id (m : mutator C) c s (Q : _ → sys A → Prop) :
  (∀ res s', sent_at_most 0 s s' → Q res s') → wp anything (store_Transition id m c) s Q.
Proof.
  intros HQ. apply wp_writes. intros o _. destruct (Transition _ _ _ _ _) as [[r c'] st]. cbn.
  apply HQ. split; [done|]. exists []. rewrite app_nil_r. done.
Qed.

Lemma sendExecuteTask_quiet wid addr rec s :
  wp anything (sendExecuteTask wid addr rec) s (λ _ s', sent_at_most 1 s s').
Proof.
  apply wp_bind, wp_writes. intros o _.
  assert (∀ s1, sent_at_most 0 s s1 → ∀ conn, wp anything
    (resp ← rpc_ExecuteTask conn (task_of rec);
     match resp with
     | Err e => _ ← dropChannel wid; mret (Some e)
     | Ok resp => if negb (pb.accepted resp)
                  then mret (Some (errorString ("worker rejected: " +:+ pb.rejection_reason resp)))
                  else mret None
     end) s1 (λ _ s', sent_at_most 1 s s')) as Hrpc.
  { intros s1 [Ep (ts & Et & Hl)] conn. apply wp_bind, wp_writes. intros o1 _. cbn [fst snd].
    assert (∀ s2, workerPool s2 = workerPool s1 → sentTasks s2 = sentTasks s1 ++ [(conn, task_of rec)] →
      sent_at_most 1 s s2) as Hone.
    { intros s2 E1 E2. split; [congruence|]. exists (ts ++ [(conn, task_of rec)]).
      rewrite E2, Et, app_assoc, length_app. cbn. split; [done|lia]. }
    destruct (o_rpc o1) as [resp|e].
    - destruct (negb _); by apply wp_ret, Hone.
    - apply wp_bind, wp_writes. intros o2 _. cbn. apply wp_ret. destruct (channels s1); by apply Hone. }
  destruct (channels s) as [m|]; [|apply wp_ret, sent_refl].
  destruct (m !! wid); [apply Hrpc, sent_refl|].
  destruct (o_dial o); [apply wp_ret, sent_refl|]. apply Hrpc. split; [done|]. exists [].
  by rewrite app_nil_r.
Qed.

Lemma untried_pick wid tried p :
  is_Some (WorkerPool.workers p !! wid) → wid ∉ tried →
  untried tried p = S (untried ({[wid]} ∪ tried) p).
Proof.
  intros Hw Hn. unfold untried.
  assert (dom (WorkerPool.workers p) ∖ tried =
    {[wid]} ∪ dom (WorkerPool.workers p) ∖ ({[wid]} ∪ tried)) as ->.
  { apply set_eq. intros x. apply elem_of_dom in Hw. destruct (decide (x = wid)); set_solver. }
  rewrite size_union by set_solver. rewrite size_singleton. done.
Qed.

(** The loop makes at most one attempt per untried worker. *)
Lemma dispatch_loop_total fuel id rec tried s :
  WorkerPool.wf (workerPool s) → untried tried (workerPool s) < fuel →
  wp anything (dispatch_loop fuel id rec tried) s (λ e s',
    sent_at_most (untried tried (workerPool s)) s s' ∧
    (e = Some ErrNoWorkersAvailable → tried = ∅ ∧
       ∀ k w, WorkerPool.workers (workerPool s) !! k = Some w → WorkerPool.alive w = false)).
Proof.
  revert tried s. induction fuel as [|fuel IH]; intros tried s Hwf Hlt; [lia|]. cbn [dispatch_loop].
  apply wp_bind, wp_reads. intros o _.
  pose proof (WorkerPool.LeastLoaded_spec (o_ord o) tried _ Hwf) as Hpick.
  destruct (WorkerPool.LeastLoadedAliveExcluding _ _ _) as [[wid addr] ok]. destruct ok; cbn [negb].
  - destruct Hpick as (w & Hw & _ & [_ Hnt] & _). rewrite (Hwf _ _ Hw) in Hnt.
    rewrite (untried_pick wid) in Hlt |- * by eauto. set (n := untried _ _) in *.
    apply wp_bind, Transition_quiet. intros [[committed err] []] s1 H1.
    assert (sent_at_most (S n) s s1) as Hs1 by (apply (sent_trans 0 (S n) _ s1); [done|apply sent_refl]).
    destruct err; [by split|]. destruct committed; cbn [negb]; [|by split].
    apply wp_bind. eapply wp_mono; [|apply sendExecuteTask_quiet]. intros sent s2 H2.
    assert (sent_at_most (S n) s s2) as Hs2.
    { apply (sent_trans 0 (S n) _ s1); [done|]. apply (sent_trans 1 n _ s2); [done|apply sent_refl]. }
    destruct sent; [|by split].
    apply wp_bind, Transition_quiet. intros _ s3 H3.
    assert (workerPool s3 = workerPool s) as Ep.
    { destruct H1, H2, H3. congruence. }
    eapply wp_mono; [|apply IH; rewrite Ep; [done|lia]]. intros e4 s4 [H4 He]. rewrite Ep in *. split.
    + apply (sent_trans 0 (S n) _ s1); [done|]. apply (sent_trans 1 n _ s2); [done|].
      by apply (sent_trans 0 n _ s3).
    + intros E. destruct (He E) as [Hempty _]. set_solver.
  - split; [apply sent_refl|]. case_bool_decide as Ht; [|done]. intros _. split; [done|].
    intros k w Hk. destruct (WorkerPool.alive w) eqn:Ea; [|done].
    destruct (Hpick k w Hk). split; [done|]. subst tried. set_solver.
Qed.

(** [Dispatch] terminates and tries each worker at most once: run alone, with any
    store and any environment, it returns after at most one ExecuteTask request per
    registered worker and leaves the pool alone; and it answers that there are no
    workers only when no worker is alive. *)
Theorem Dispatch_terminates os fuel id (s : sys A) :
  WorkerPool.wf (workerPool s) → size (WorkerPool.workers (workerPool s)) < fuel →
  ∃ e s', run os (Dispatch fuel id) s = Done e s' ∧
    sent_at_most (size (WorkerPool.workers (workerPool s))) s s' ∧
    (e = Some ErrNoWorkersAvailable →
     ∀ k w, WorkerPool.workers (workerPool s) !! k = Some w → WorkerPool.alive w = false).
Proof.
  intros Hwf Hlt. set (n := size _).
  assert (untried ∅ (workerPool s) = n) as En.
  { unfold untried. rewrite difference_empty_L. apply size_dom. }
  eapply (wp_run anything); [done|]. apply wp_bind, wp_reads. intros o _.
  assert (∀ e s', sent_at_most 0 s s' → e ≠ ErrNoWorkersAvailable →
    sent_at_most n s s' ∧
    (Some e = Some ErrNoWorkersAvailable →
     ∀ k w, WorkerPool.workers (workerPool s) !! k = Some w → WorkerPool.alive w = false)) as Hquick.
  { intros e s' [Ep (ts & Ets & Hts)] Hne. split; [|congruence]. split; [done|].
    exists ts. split; [done|lia]. }
  destruct (GetJob _ _ _) as [[rec|]|e]; [|by apply Hquick; [apply sent_refl|]..].
  destruct (terminal rec); [by apply Hquick; [apply sent_refl|]|]. case_bool_decide.
  - apply wp_bind, Transition_quiet. intros res s1 H1. by apply Hquick.
  - eapply wp_mono; [|apply dispatch_loop_total; [done|]; rewrite En; lia].
    rewrite En. intros e s' [Hsent He]. split; [exact Hsent|]. intros E. by apply He.
Qed.

End dispatch.

(** ** Reaper and recovery *)

Section calm.
Context {A : StoreAPI} {OK : StoreOk A}.
Implicit Types (s : sys A).

(** The store works: no fault, and the records that [m] makes of stored ones can be
    written. *)
Definition calm {C} (m : mutator C) (o : oracle A) s : Prop :=
  ¬ faulty contract (o_store o) ∧
  ∀ id r c c' r', a_jobs (astate s) !! id = Some r → m c r = (c', Ok r') →
    ¬ unwritable contract (o_store o) id r'.

(** A transition of a stored job writes the mutated record. *)
Lemma Transition_wp {C} id (m : mutator C) c s r c' r' (Q : _ → sys A → Prop) :
  keeps_ID m → good contract (jobStore s) → a_jobs (astate s) !! id = Some r →
  m c r = (c', Ok r') →
  (∀ r'' st, good contract st → outcome_of r'' = outcome_of r' →
     view contract st = a_put id r'' (astate s) → Q (true, None, c') (set_jobStore st s)) →
  wp (calm m) (store_Transition id m c) s Q.
Proof.
  intros Hm Hg Hr Hmut HQ. apply wp_writes. intros o [Hnf Hw].
  pose proof (Transition_ok C (o_store o) id m c _ Hg Hm) as Hspec.
  destruct (Transition (o_store o) id m c (jobStore s)) as [[[b e] c1] st]. cbn [fst snd].
  unfold astate in *.
  inversion Hspec as [r0 c0 r1 r2 s0 Hr0 Hm0 Hw0 Hg0 Hv0|r0 c0 Hr0 Hm0|r0 c0 e0 Hr0 Hm0 He0|e0 Hr0|
    b0 c0 e0 Hbad|b0 r0 c0 r1 r2 e0 s0 Hf0]; subst.
  - assert (r0 = r) as -> by congruence. assert (r1 = r' ∧ c1 = c') as [-> ->] by (split; congruence).
    eapply HQ; [done|by eapply written_fields|done].
  - assert (r0 = r) as -> by congruence. congruence.
  - assert (r0 = r) as -> by congruence. congruence.
  - congruence.
  - destruct Hbad as [?|(r0 & r1 & Hr0 & Hm0 & Hu)]; [done|].
    destruct (Hw _ _ _ _ _ Hr0 Hm0 Hu).
  - done.
Qed.

Lemma GetJob_wp {C} (m : mutator C) id s (Q : _ → sys A → Prop) :
  good contract (jobStore s) → Q (Ok (a_jobs (astate s) !! id)) s →
  wp (calm m) (store_GetJob id) s Q.
Proof.
  intros Hg HQ. apply wp_reads. intros o [Hnf _].
  by destruct (GetJob_ok (o_store o) id _ Hg).
Qed.

(** Putting a job on a queue with room. *)
Lemma enqueue_wp ok id s (Q : unit → sys A → Prop) :
  shuttingDown s = false → (Z.of_nat (length (pendingQueue s)) < pendingQueueSize)%Z →
  Q tt (set_pendingQueue (pendingQueue s ++ [id]) s) → wp ok (enqueue id) s Q.
Proof.
  intros Hd Hroom HQ. apply wp_bind, wp_reads. intros o _. rewrite Hd. intros o' _.
  by destruct (Z.ltb_spec (Z.of_nat (length (pendingQueue s))) pendingQueueSize); [|lia].
Qed.

(** The notification touches the log hub only. *)
Lemma notifyTerminal_wp {C} (m : mutator C) id s (Q : unit → sys A → Prop) :
  good contract (jobStore s) →
  (∀ h, Q tt (set_logHub h s)) → wp (calm m) (notifyTerminal id) s Q.
Proof.
  intros Hg HQ. assert (Q tt s) as HQs by (specialize (HQ (logHub s)); by destruct s).
  apply wp_bind, GetJob_wp; [done|]. destruct (a_jobs (astate s) !! id) as [r|]; [|done].
  destruct (negb (terminal r)); [done|]. apply wp_writes. intros o _. apply HQ.
Qed.

(** One pass over jobs that rewrites each record by [f], in order, and puts those
    selected by [keep] on the queue. *)
Record pass (f : JobRecord → JobRecord) (keep : JobRecord → bool) (jobs : list JobRecord)
    s s' : Prop := {
  pass_good : good contract (jobStore s');
  pass_down : shuttingDown s' = shuttingDown s;
  pass_others : ∀ id, id ∉ ID <$> jobs → a_jobs (astate s') !! id = a_jobs (astate s) !! id;
  pass_jobs : ∀ j, j ∈ jobs → ∃ r', a_jobs (astate s') !! ID j = Some r' ∧
                                    outcome_of r' = outcome_of (f j);
  pass_queue : pendingQueue s' = pendingQueue s ++ (ID <$> filter (λ j, keep j = true) jobs);
}.

Lemma pass_nil f keep s : good contract (jobStore s) → pass f keep [] s s.
Proof. intros Hg. split; try done; [by intros j ?%not_elem_of_nil|]. cbn. by rewrite app_nil_r. Qed.

(** The first job is done, then the others. *)
Lemma pass_cons f (keep : JobRecord → bool) j jobs s s1 s' r' :
  ID j ∉ ID <$> jobs → outcome_of r' = outcome_of (f j) →
  astate s1 = a_put (ID j) r' (astate s) → shuttingDown s1 = shuttingDown s →
  pendingQueue s1 = pendingQueue s ++ (if keep j then [ID j] else []) →
  pass f keep jobs s1 s' → pass f keep (j :: jobs) s s'.
Proof.
  intros Hni Hout Ha Hd Hq [Hg Hd' Ho Hj Hq']. split; [done|congruence| | |].
  - intros id Hid. cbn in Hid. apply not_elem_of_cons in Hid as [Hne Hid].
    rewrite Ho by done. rewrite Ha. cbn. by rewrite lookup_insert_ne.
  - intros j' [->|Hin]%elem_of_cons; [|by apply Hj]. exists r'. split; [|done].
    rewrite Ho by done. rewrite Ha. cbn. by rewrite lookup_insert_eq.
  - rewrite Hq', Hq, filter_cons, <- app_assoc. f_equal.
    destruct (keep j) eqn:E; [rewrite decide_True by done|rewrite decide_False by done]; done.
Qed.

(** The jobs of a pass are as listed when their turn comes. *)
Definition pending_pass (jobs : list JobRecord) s : Prop :=
  NoDup (ID <$> jobs) ∧ ∀ j, j ∈ jobs → a_jobs (astate s) !! ID j = Some j.

Lemma pending_pass_cons j jobs s s1 r' :
  pending_pass (j :: jobs) s → astate s1 = a_put (ID j) r' (astate s) →
  ID j ∉ ID <$> jobs ∧ pending_pass jobs s1.
Proof.
  intros [Hnd Hl] Ha. cbn in Hnd. apply NoDup_cons in Hnd as [Hni Hnd].
  split; [done|]. split; [done|]. intros j' Hj'. rewrite Ha. cbn.
  rewrite lookup_insert_ne; [apply Hl; by right|].
  intros E. destruct Hni. rewrite E. by apply list_elem_of_fmap_2.
Qed.

(** A listing holds no more jobs than the store has of the kind listed. *)
Lemma listing_pass o keep s out :
  list_spec contract o keep (jobStore s) (out, None) →
  pending_pass out s ∧ (∀ j, j ∈ out → keep j = true) ∧
  length out ≤ size (filter (λ p : string * JobRecord, keep p.2 = true) (a_jobs (astate s))) ∧
  (∀ id r, good contract (jobStore s) → a_jobs (astate s) !! id = Some r → keep r = true → r ∈ out ∧ ID r = id).
Proof.
  intros Hl. inversion Hl as [out' Hin Hnd|]; subst. split; [|split; [|split]].
  - split; [done|]. intros j Hj. by apply Hin.
  - intros j Hj. by apply Hin.
  - rewrite <- (length_fmap (λ j, (ID j, j)) out). rewrite <- length_map_to_list.
    apply submseteq_length, NoDup_submseteq.
    + apply NoDup_fmap_2_strong; [|by eapply NoDup_fmap_1]. by intros x y _ _ [= ? ?].
    + intros x (j & -> & Hj)%list_elem_of_fmap. apply elem_of_map_to_list, map_lookup_filter_Some.
      by apply Hin in Hj as [? ?].
  - intros id r Hg Hr Hk. pose proof (proj1 (good_wf _ Hg) _ _ Hr) as E. split; [|done].
    apply Hin. split; [done|]. by rewrite E.
Qed.

(** What a pass over all the jobs selected by [sel] does to the store and the
    queue. *)
Definition swept (f : JobRecord → JobRecord) (keep sel : JobRecord → bool) s s' : Prop :=
  ∀ id, match a_jobs (astate s) !! id with
        | Some r =>
            if sel r
            then ∃ r', a_jobs (astate s') !! id = Some r' ∧ outcome_of r' = outcome_of (f r) ∧
                   (keep r = true → id ∈ pendingQueue s')
            else a_jobs (astate s') !! id = Some r
        | None => a_jobs (astate s') !! id = None
        end.

Lemma pass_swept o f keep sel jobs s s' :
  good contract (jobStore s) → list_spec contract o sel (jobStore s) (jobs, None) →
  pass f keep jobs s s' → swept f keep sel s s'.
Proof.
  intros Hg Hl Hpass id. destruct (listing_pass _ _ _ _ Hl) as ([_ Hpp] & Hk & _ & Hall).
  assert (id ∉ ID <$> jobs → a_jobs (astate s') !! id = a_jobs (astate s) !! id) as Hother
    by apply Hpass.
  destruct (a_jobs (astate s) !! id) as [r|] eqn:Hr.
  - destruct (sel r) eqn:Es.
    + destruct (Hall id r Hg Hr Es) as [Hj <-].
      destruct (pass_jobs _ _ _ _ _ Hpass r Hj) as (r' & Hr' & E). exists r'. split; [done|].
      split; [done|]. intros Hkeep. rewrite (pass_queue _ _ _ _ _ Hpass). apply elem_of_app. right.
      by apply list_elem_of_fmap_2, list_elem_of_filter.
    + apply Hother. intros (j & -> & Hj)%list_elem_of_fmap.
      assert (j = r) as -> by (apply Hpp in Hj; congruence). apply Hk in Hj. congruence.
  - apply Hother. intros (j & -> & Hj)%list_elem_of_fmap. apply Hpp in Hj. congruence.
Qed.

(** ** The reaper *)

Variable cfg : Config.

(** The record after a worker death, and whether the job is tried again. *)
Definition reassigned (j : JobRecord) : JobRecord :=
  match (reassign (MaxRetries cfg) (false, false) j).2 with Ok r => r | Err _ => j end.

Definition tried_again (j : JobRecord) : bool :=
  (int64 (RetryCount j + 1) <=? MaxRetries cfg)%Z.

Lemma reassign_loop_wp jobs s :
  good contract (jobStore s) → pending_pass jobs s → (∀ j, j ∈ jobs → Status j = StatusRunning) →
  shuttingDown s = false →
  (Z.of_nat (length (pendingQueue s) + length jobs) ≤ pendingQueueSize)%Z →
  wp (calm (reassign (MaxRetries cfg))) (reassign_loop cfg jobs) s
    (λ _ s', pass reassigned tried_again jobs s s').
Proof.
  revert s. induction jobs as [|j jobs IH]; intros s Hg Hpp Hrun Hd Hroom; cbn [reassign_loop].
  { by apply wp_ret, pass_nil. }
  assert (Status j = StatusRunning) as Hst by (apply Hrun; by left).
  assert (a_jobs (astate s) !! ID j = Some j) as Hj by (apply Hpp; by left).
  assert (reassign (MaxRetries cfg) (false, false) j =
    ((tried_again j, negb (tried_again j)), Ok (reassigned j))) as Hm.
  { unfold reassigned, reassign, tried_again. rewrite Hst. cbn.
    rewrite Z.leb_antisym. by destruct (_ <? _)%Z. }
  apply wp_bind. eapply Transition_wp; [|done|done|exact Hm|].
  { apply reassign_ok. }
  intros r'' st Hgst Hout Hv. cbn [negb].
  destruct (pending_pass_cons j jobs s (set_jobStore st s) r'' Hpp Hv) as [Hni Hpp1].
  assert (∀ s1, jobStore s1 = st → shuttingDown s1 = shuttingDown s →
    pendingQueue s1 = pendingQueue s ++ (if tried_again j then [ID j] else []) →
    wp (calm (reassign (MaxRetries cfg))) (reassign_loop cfg jobs) s1
      (λ _ s', pass reassigned tried_again (j :: jobs) s s')) as Hgo.
  { intros s1 E1 E2 E3. assert (astate s1 = a_put (ID j) r'' (astate s)) as Ea by (unfold astate; by rewrite E1).
    eapply wp_mono; [|apply IH].
    - intros [] s' Hp. by eapply pass_cons.
    - by rewrite E1.
    - by apply (pending_pass_cons j jobs s s1 r'' Hpp Ea).
    - intros j' Hj'. apply Hrun. by right.
    - congruence.
    - rewrite E3, length_app. cbn in Hroom. destruct (tried_again j); cbn; lia. }
  destruct (tried_again j) eqn:Et; cbn [negb] in *; apply wp_bind.
  - apply enqueue_wp; [done|cbn in *; lia|]. by apply Hgo.
  - apply notifyTerminal_wp; [done|]. intros h. apply Hgo; [done|done|]. by rewrite app_nil_r.
Qed.

Lemma reassigned_fields w r :
  running_on w r = true →
  Status (reassigned r) = (if tried_again r then StatusPending else StatusFailed) ∧
  RetryCount (reassigned r) = int64 (RetryCount r + 1) ∧
  (tried_again r = true → WorkerID (reassigned r) = "").
Proof.
  intros Hr. unfold running_on in Hr. bool_hyps. unfold reassigned, reassign, tried_again.
  rewrite H. cbn. rewrite Z.leb_antisym. by destruct (_ <? _)%Z.
Qed.

Lemma ReassignJobsOf_wp w s :
  good contract (jobStore s) → shuttingDown s = false →
  (Z.of_nat (length (pendingQueue s) +
     size (filter (λ p : string * JobRecord, running_on w p.2 = true) (a_jobs (astate s))))
   ≤ pendingQueueSize)%Z →
  wp (calm (reassign (MaxRetries cfg))) (ReassignJobsOf cfg w) s
    (λ _ s', swept reassigned tried_again (running_on w) s s').
Proof.
  intros Hg Hd Hroom. apply wp_bind, wp_reads. intros o [Hnf _].
  pose proof (ListRunningOnWorker_ok (o_store o) w _ Hg) as Hl.
  destruct (ListRunningOnWorker _ _ _) as [out [e|]]; [by inversion Hl|].
  destruct (listing_pass _ _ _ _ Hl) as (Hpp & Hk & Hlen & _).
  eapply wp_mono; [|apply reassign_loop_wp; try done]; [|intros j Hj|lia].
  - intros [] s' Hp. by eapply pass_swept.
  - apply Hk in Hj. unfold running_on in Hj. by bool_hyps.
Qed.

(** C14: The reaper leaves nothing on a dead worker: run alone with a working store
    and room in the queue, it terminates; every job that was running on the worker
    has its retry count increased and is either PENDING and back on the queue or, when
    its retries are used up, FAILED; no other record changes; and no job is left
    running on the worker. *)
Theorem reaper_complete os w s :
  good contract (jobStore s) → shuttingDown s = false →
  (Z.of_nat (length (pendingQueue s) +
     size (filter (λ p : string * JobRecord, running_on w p.2 = true) (a_jobs (astate s))))
   ≤ pendingQueueSize)%Z →
  within (calm (reassign (MaxRetries cfg))) os (ReassignJobsOf cfg w) s →
  ∃ s', run os (ReassignJobsOf cfg w) s = Done tt s' ∧
    (∀ id r, a_jobs (astate s) !! id = Some r →
       if running_on w r
       then ∃ r', a_jobs (astate s') !! id = Some r' ∧ RetryCount r' = int64 (RetryCount r + 1) ∧
              (if tried_again r then Status r' = StatusPending ∧ WorkerID r' = "" ∧ id ∈ pendingQueue s'
               else Status r' = StatusFailed)
       else a_jobs (astate s') !! id = Some r) ∧
    (∀ id r', a_jobs (astate s') !! id = Some r' → running_on w r' = false).
Proof.
  intros Hg Hd Hroom Hin.
  destruct (wp_within _ _ _ _ os Hin (ReassignJobsOf_wp w s Hg Hd Hroom)) as ([] & s' & Hrun & Hsw).
  exists s'. split; [done|]. split.
  - intros id r Hr. specialize (Hsw id). rewrite Hr in Hsw. destruct (running_on w r) eqn:Ew; [|done].
    destruct Hsw as (r' & Hr' & E & Hq). apply outcome_fields in E as (_ & Es & Ew' & Er & _).
    destruct (reassigned_fields w r Ew) as (E1 & E2 & E3). exists r'. split; [done|].
    rewrite Er, Es, Ew', E1, E2. split; [done|]. destruct (tried_again r); [|done]. auto.
  - intros id r' Hr'. specialize (Hsw id). destruct (a_jobs (astate s) !! id) as [r|]; [|congruence].
    destruct (running_on w r) eqn:Ew; [|congruence]. destruct Hsw as (r0 & Hr0 & E & _).
    assert (r0 = r') as -> by congruence. apply outcome_fields in E as (_ & Es & _).
    unfold running_on. rewrite Es. destruct (reassigned_fields w r Ew) as (-> & _).
    by destruct (tried_again r).
Qed.

(** ** Recovery *)

Definition demoted (j : JobRecord) : JobRecord :=
  if String.eqb (Status j) StatusRunning then set_WorkerID "" (set_Status StatusPending j) else j.

Lemma demoted_pending r : unfinished r = true → Status (demoted r) = StatusPending.
Proof.
  intros Hr. unfold unfinished in Hr. unfold demoted.
  destruct (String.eqb_spec (Status r) StatusRunning); [done|].
  rewrite orb_false_r in Hr. by apply String.eqb_eq in Hr.
Qed.

Lemma recover_loop_wp jobs s :
  good contract (jobStore s) → pending_pass jobs s → shuttingDown s = false →
  (Z.of_nat (length (pendingQueue s) + length jobs) ≤ pendingQueueSize)%Z →
  wp (calm demote) (recover_loop jobs) s (λ _ s', pass demoted (λ _, true) jobs s s').
Proof.
  revert s. induction jobs as [|j jobs IH]; intros s Hg Hpp Hd Hroom; cbn [recover_loop].
  { by apply wp_ret, pass_nil. }
  assert (a_jobs (astate s) !! ID j = Some j) as Hj by (apply Hpp; by left).
  assert (demote tt j = (tt, Ok (demoted j))) as Hm.
  { unfold demote, demoted. by destruct (String.eqb _ _). }
  apply wp_bind. eapply Transition_wp; [apply demote_ok|done|done|exact Hm|].
  intros r'' st Hgst Hout Hv.
  destruct (pending_pass_cons j jobs s (set_jobStore st s) r'' Hpp Hv) as [Hni _].
  apply wp_bind, enqueue_wp; [done|cbn in *; lia|].
  set (s1 := set_pendingQueue _ _).
  assert (astate s1 = a_put (ID j) r'' (astate s)) as Ea by exact Hv.
  eapply wp_mono; [|apply (IH s1)].
  - intros [] s' Hp. by eapply pass_cons.
  - done.
  - by apply (pending_pass_cons j jobs s s1 r'' Hpp Ea).
  - done.
  - cbn. rewrite length_app. cbn in *. lia.
Qed.

Lemma RecoverUnfinishedJobs_wp s :
  good contract (jobStore s) → shuttingDown s = false →
  (Z.of_nat (length (pendingQueue s) +
     size (filter (λ p : string * JobRecord, unfinished p.2 = true) (a_jobs (astate s))))
   ≤ pendingQueueSize)%Z →
  wp (calm demote) RecoverUnfinishedJobs s
    (λ e s', e = None ∧ swept demoted (λ _, true) unfinished s s').
Proof.
  intros Hg Hd Hroom. apply wp_bind, wp_reads. intros o [Hnf _].
  pose proof (ListUnfinished_ok (o_store o) _ Hg) as Hl.
  destruct (ListUnfinished _ _) as [out [e|]]; [by inversion Hl|].
  destruct (listing_pass _ _ _ _ Hl) as (Hpp & Hk & Hlen & _).
  apply wp_bind. eapply wp_mono; [|apply recover_loop_wp; try done; lia].
  intros [] s' Hp. apply wp_ret. split; [done|]. by eapply pass_swept.
Qed.

(** Startup recovery loses nothing: run alone with a working store and room in
    the queue, it terminates without error; every PENDING or RUNNING job is on the
    queue and PENDING; nothing is RUNNING any more; the other records are as they
    were. *)
Theorem recovery_complete os s :
  good contract (jobStore s) → shuttingDown s = false →
  (Z.of_nat (length (pendingQueue s) +
     size (filter (λ p : string * JobRecord, unfinished p.2 = true) (a_jobs (astate s))))
   ≤ pendingQueueSize)%Z →
  within (calm demote) os RecoverUnfinishedJobs s →
  ∃ s', run os RecoverUnfinishedJobs s = Done None s' ∧
    (∀ id r, a_jobs (astate s) !! id = Some r →
       if unfinished r
       then ∃ r', a_jobs (astate s') !! id = Some r' ∧ Status r' = StatusPending ∧
              RetryCount r' = RetryCount r ∧ id ∈ pendingQueue s'
       else a_jobs (astate s') !! id = Some r) ∧
    (∀ id r', a_jobs (astate s') !! id = Some r' → Status r' ≠ StatusRunning).
Proof.
  intros Hg Hd Hroom Hin.
  destruct (wp_within _ _ _ _ os Hin (RecoverUnfinishedJobs_wp s Hg Hd Hroom))
    as (e & s' & Hrun & -> & Hsw).
  assert (∀ r, unfinished r = true → Status (demoted r) = StatusPending ∧ RetryCount (demoted r) = RetryCount r)
    as Hdem.
  { intros r Hr. split; [by apply demoted_pending|]. unfold demoted. by destruct (String.eqb _ _). }
  exists s'. split; [done|]. split.
  - intros id r Hr. specialize (Hsw id). rewrite Hr in Hsw. destruct (unfinished r) eqn:Eu; [|done].
    destruct Hsw as (r' & Hr' & E & Hq). apply outcome_fields in E as (_ & Es & _ & Er & _).
    destruct (Hdem r Eu) as [E1 E2]. exists r'. rewrite Es, Er. auto.
  - intros id r' Hr'. specialize (Hsw id). destruct (a_jobs (astate s) !! id) as [r|]; [|congruence].
    destruct (unfinished r) eqn:Eu.
    + destruct Hsw as (r0 & Hr0 & E & _). assert (r0 = r') as -> by congruence.
      apply outcome_fields in E as (_ & Es & _). destruct (Hdem r Eu) as [E1 _]. by rewrite Es, E1.
    + assert (r' = r) as -> by congruence. unfold unfinished in Eu. bool_hyps. done.
Qed.

End calm.
