(* ===== verification/Duty.v ===== *)
(** * Duties: what a program must not leave behind

    A liveness argument that is independent of the scheduler.  Some keys of the
    shared state are [loose]: a job that waits and is on no queue.  A program has
    a set of duties, the loose keys it answers for: it must take up every key that
    its own steps make loose and may drop a key only when the key is not loose any
    more; it ends without duties.  So in every interleaving each loose key is some
    running program's duty ([attended_step]), and such a program, however it is
    interleaved, settles the key within finitely many of its own steps: it does not
    end, panic or wait for anything but room ([full]) before ([owes]). *)

From stdpp Require Import strings gmap sorting prelude.
From S2P Require Import Prelude Prog.

Section duty.
Context {S O K : Type}.
Variable I : S → Prop.              (* the invariant of the state, known to hold *)
Variable J : S → Prop.              (* what the programs considered keep on top of it *)
Variable ok : O → S → Prop.         (* what the environment may decide *)
Variable full : S → Prop.           (* where a program with duties may wait *)
Variable loose : S → K → Prop.

Abbreviation duties := (K → Prop).

(** [D] are the duties when [p] starts; when it returns [a], [P a] holds and it has at
    most the duties [E a]. *)
Fixpoint duty {A} (D : duties) (p : prog S O A) (P : A → Prop) (E : A → duties) : Prop :=
  match p with
  | Ret a => P a ∧ ∀ x, D x → E a x
  | Act B step k =>
      ∀ o s, ok o s → I s → J s →
        match step o s with
        | Next b s' =>
            J s' ∧ ∃ D' : duties,
              (∀ x, loose s' x → D x ∨ ¬ loose s x → D' x) ∧ duty D' (k b) P E
        | Block => full s ∨ ∀ x, ¬ D x
        | Panic => False
        end
  | Spin => ∀ x, ¬ D x
  end.

(** On every path of its own steps the program comes to a state where [x] is
    settled, before it returns, panics or gives up unrolling a loop; on the way it
    waits only where [full] holds. *)
Fixpoint owes {A} (x : K) (p : prog S O A) : Prop :=
  match p with
  | Ret _ => False
  | Act B step k =>
      ∀ o s, ok o s → I s → J s →
        match step o s with
        | Next b s' => loose s' x → owes x (k b)
        | Block => full s
        | Panic => False
        end
  | Spin => False
  end.

Abbreviation none := (λ _ : K, False).

(** The program ends without duties. *)
Definition dutiful {A} (D : duties) (p : prog S O A) : Prop := duty D p (λ _, True) (λ _, none).

(** The program leaves the duties as they are. *)
Definition quiet {A} (D : duties) (p : prog S O A) : Prop := duty D p (λ _, True) (λ _, D).

Lemma duty_owes {A} (p : prog S O A) D x : dutiful D p → D x → owes x p.
Proof.
  unfold dutiful. revert D. induction p as [a|B step k IH|]; intros D; cbn;
    [intros [_ Hf] Hx; exact (Hf x Hx)| |intros Hf Hx; exact (Hf x Hx)].
  intros H Hx o s Ho HI HJ. specialize (H o s Ho HI HJ).
  destruct (step o s) as [b s'| |]; [|by destruct H as [?|Hn]; [|destruct (Hn x)]|done].
  destruct H as (_ & D' & Hkeep & Hk).
  intros Hl. eapply IH; [exact Hk|]. apply Hkeep; [done|by left].
Qed.

(** Fewer duties are easier, and so is a weaker conclusion. *)
Lemma duty_weaken {A} (p : prog S O A) D D0 (P P0 : A → Prop) (E E0 : A → duties) :
  (∀ x, D x → D0 x) → (∀ a, P0 a → P a) → (∀ a x, P0 a → E0 a x → E a x) →
  duty D0 p P0 E0 → duty D p P E.
Proof.
  intros HD HP HE. revert D D0 HD. induction p as [a|B step k IH|]; intros D D0 HD; cbn.
  - intros [HP0 HE0]. split; [auto|]. intros x Hx. by apply HE, HE0, HD.
  - intros H o s Ho HI HJ. specialize (H o s Ho HI HJ).
    destruct (step o s); [| |done].
    + destruct H as (? & D' & Hk & ?). split; [done|]. exists D'. split; [|by eapply IH].
      intros x Hx [?|?]; apply Hk; auto.
    + destruct H as [?|Hn]; [by left|]. right. intros x Hx. by apply (Hn x), HD.
  - intros Hn x Hx. by apply (Hn x), HD.
Qed.

Lemma duty_sub {A} (p : prog S O A) D D0 P E :
  (∀ x, D x → D0 x) → duty D0 p P E → duty D p P E.
Proof. intros HD. by apply duty_weaken. Qed.

Lemma duty_ret {A} (a : A) D (P : A → Prop) (E : A → duties) :
  P a → (∀ x, D x → E a x) → duty D (mret a) P E.
Proof. done. Qed.

Lemma duty_bind {A B} (p : prog S O A) (f : A → prog S O B) D P E P' E' :
  duty D p P E → (∀ a, P a → duty (E a) (f a) P' E') → duty D (p ≫= f) P' E'.
Proof.
  intros Hp Hf. revert D Hp. induction p as [a|C step k IH|]; intros D; cbn; [| |done].
  - intros [HP HD]. eapply duty_sub; [exact HD|by apply Hf].
  - intros H o s Ho HI HJ. specialize (H o s Ho HI HJ).
    destruct (step o s); [|done|done]. destruct H as (? & D' & ? & ?). eauto 6.
Qed.

Lemma quiet_bind {A B} (p : prog S O A) (f : A → prog S O B) D P E :
  quiet D p → (∀ a, duty D (f a) P E) → duty D (p ≫= f) P E.
Proof. intros Hp Hf. eapply duty_bind; [exact Hp|]. intros a _. apply Hf. Qed.

Lemma quiet_ret {A} (a : A) D : quiet D (mret a).
Proof. by apply duty_ret. Qed.

(** One step: [D'] are the duties after it. *)
Lemma duty_act {B} (step : O → S → outcome S B) D (P : B → Prop) (E : B → duties) :
  (∀ o s, ok o s → I s → J s →
     match step o s with
     | Next b s' => J s' ∧ P b ∧ ∀ x, loose s' x → D x ∨ ¬ loose s x → E b x
     | Block => full s ∨ ∀ x, ¬ D x
     | Panic => False
     end) →
  duty D (act step) P E.
Proof.
  intros H o s Ho HI HJ. specialize (H o s Ho HI HJ).
  destruct (step o s) as [b s'| |]; [|done|done]. destruct H as (? & ? & ?).
  split; [done|]. by exists (E b).
Qed.

(** A step that makes nothing loose. *)
Lemma quiet_act {B} (step : O → S → outcome S B) D :
  (∀ o s, ok o s → I s → J s →
     match step o s with
     | Next b s' => J s' ∧ ∀ x, loose s' x → loose s x
     | Block => full s ∨ ∀ x, ¬ D x
     | Panic => False
     end) →
  quiet D (act step).
Proof.
  intros H. apply duty_act. intros o s Ho HI HJ. specialize (H o s Ho HI HJ).
  destruct (step o s) as [b s'| |]; [|done|done]. destruct H as (? & Hl).
  split; [done|]. split; [done|]. intros x Hx [?|Hn]; [done|]. destruct Hn. auto.
Qed.

(** ** Every loose key is attended *)

Section attended.
Context `{!∀ s x, Decision (loose s x)}.
Context {Req Reply : Type} (srv : server S O Req Reply).
Variable serves : Req → Prop.       (* the requests considered *)
Variable boot : Req.                (* what a process runs when it starts *)

(** The life of a service: requests arrive, programs step and reply, and a process
    that dies is replaced by one that boots. *)
Inductive life : config S O Req Reply → config S O Req Reply → Prop :=
| life_start req s ts rs :
    serves req → life (mkConfig s ts rs) (mkConfig s (ts ++ [(req, handler srv req)]) rs)
| life_act i req p p' o s s' ts rs :
    ts !! i = Some (req, p) → ok o s → advance o p s = Some (p', s') →
    life (mkConfig s ts rs) (mkConfig s' (<[i := (req, p')]> ts) rs)
| life_reply i req r s ts rs :
    ts !! i = Some (req, Ret r) →
    life (mkConfig s ts rs) (mkConfig s (delete i ts) (rs ++ [(req, r)]))
| life_reboot o s ts rs :
    life (mkConfig s ts rs) (mkConfig (restart srv o s) [(boot, handler srv boot)] rs).

(** An execution without crashes of a server with the same handlers. *)
Lemma play_life (srv' : server S O Req Reply) `{!∀ o s, Decision (allowed srv' o s)} ms c c' :
  (∀ req, handler srv' req = handler srv req) → (∀ o s, allowed srv' o s → ok o s) →
  Forall (λ m, match m with Start req => serves req | Crash _ => False | _ => True end) ms →
  play srv' ms c = Some c' → rtc life c c'.
Proof.
  intros Hh Hok Hms. revert c. induction Hms as [|m ms Hm _ IH]; intros c; cbn; [by intros [= ->]|].
  intros (c1 & Hmove & Hp)%bind_Some. eapply rtc_l; [|by apply IH]. clear IH Hp.
  destruct c as [s ts rs], m as [req|i o|i|o]; cbn in Hmove; [| | |done].
  - injection Hmove as <-. rewrite Hh. by constructor.
  - apply bind_Some in Hmove as ([req p] & Hi & Hmove). case_bool_decide; [|done].
    apply bind_Some in Hmove as ([p' s'] & Ha & Hmove). injection Hmove as <-.
    eapply life_act; eauto.
  - apply bind_Some in Hmove as ([req p] & Hi & Hmove). destruct p as [r| |]; [|done..].
    injection Hmove as <-. by eapply life_reply.
Qed.

Definition booted (s : S) : config S O Req Reply := mkConfig s [(boot, handler srv boot)] [].

Hypothesis serves_duty : ∀ req, serves req → dutiful none (handler srv req).
Hypothesis boot_duty : dutiful (λ _, True) (handler srv boot).
Hypothesis restart_J : ∀ o s, J (restart srv o s).

Record attended (c : config S O Req Reply) : Prop := {
  att_J : J (c_state c);
  att_threads : ∃ Ds : list duties,
    Forall2 (λ (D : duties) t, dutiful D t.2) Ds (c_threads c) ∧
    ∀ x, loose (c_state c) x → ∃ i (D : duties), Ds !! i = Some D ∧ D x;
}.

Lemma attended_boot s rs : J s → attended (mkConfig s [(boot, handler srv boot)] rs).
Proof.
  intros HJ. split; [done|]. exists [λ _, True]. split; [by repeat constructor|].
  intros x _. by exists 0, (λ _, True).
Qed.

(** Deleting a program without duties leaves the others their duties. *)
Lemma duties_delete (Ds : list duties) i D x :
  Ds !! i = Some D → (∀ x, ¬ D x) → (∃ j (D' : duties), Ds !! j = Some D' ∧ D' x) →
  ∃ j (D' : duties), delete i Ds !! j = Some D' ∧ D' x.
Proof.
  intros Hi Hf (j & D' & Hj & Hx).
  destruct (decide (j < i)); [exists j, D'; by rewrite list_lookup_delete_lt|].
  destruct (decide (j = i)) as [->|]; [assert (D' = D) as -> by congruence; by destruct (Hf x)|].
  exists (j - 1), D'. split; [|done]. rewrite list_lookup_delete_ge by lia.
  by replace (Datatypes.S (j - 1)) with j by lia.
Qed.

Lemma attended_act i req p p' o s s' ts rs :
  I s → attended (mkConfig s ts rs) → ts !! i = Some (req, p) → ok o s →
  advance o p s = Some (p', s') → attended (mkConfig s' (<[i := (req, p')]> ts) rs).
Proof.
  intros HI [HJ (Ds & Hall & Hatt)] Hi Ho Hadv. cbn [c_state c_threads] in *.
  destruct (Forall2_lookup_r _ _ _ _ _ Hall Hi) as (D & HD & Hduty). cbn in Hduty.
  destruct p as [|B step k|]; cbn in Hadv; [done| |done].
  specialize (Hduty o s Ho HI HJ). destruct (step o s) as [b s1| |]; [|done|done]. simplify_eq.
  destruct Hduty as (HJ' & D' & Hkeep & Hk). split; [done|]. cbn.
  exists (<[i := D']> Ds). split; [by apply Forall2_insert|].
  assert (i < length Ds) as Hlen by (by eapply lookup_lt_Some).
  intros x Hx. destruct (decide (loose s x)) as [Hl|Hl].
  - destruct (Hatt x Hl) as (j & Dj & Hj & Hxj). destruct (decide (j = i)) as [->|Hne].
    + exists i, D'. rewrite list_lookup_insert_eq by done. split; [done|].
      assert (Dj = D) as -> by congruence. apply Hkeep; [done|by left].
    + exists j, Dj. by rewrite list_lookup_insert_ne.
  - exists i, D'. rewrite list_lookup_insert_eq by done. split; [done|]. apply Hkeep; [done|by right].
Qed.

Lemma attended_step c c' : I (c_state c) → attended c → life c c' → attended c'.
Proof.
  intros HI Hatt Hstep.
  destruct Hstep as [req s ts rs Hreq|i req p p' o s s' ts rs Hi Ho Hadv|i req r s ts rs Hi|o s ts rs].
  - destruct Hatt as [HJ (Ds & Hall & Hatt)]. split; [done|]. cbn in *.
    exists (Ds ++ [none]). split; [apply Forall2_app; [done|]; repeat constructor; by apply serves_duty|].
    intros x Hx. destruct (Hatt x Hx) as (j & D & Hj & HD). exists j, D. split; [|done].
    by apply lookup_app_l_Some.
  - by eapply attended_act.
  - destruct Hatt as [HJ (Ds & Hall & Hatt)]. split; [done|]. cbn in *.
    destruct (Forall2_lookup_r _ _ _ _ _ Hall Hi) as (D & HD & [_ Hf]).
    exists (delete i Ds). split; [by apply Forall2_delete|].
    intros x Hx. by eapply duties_delete; [..|apply Hatt].
  - apply attended_boot, restart_J.
Qed.

(** In an attended configuration a running program answers for every loose key. *)
Lemma attended_owes c x :
  attended c → loose (c_state c) x → ∃ req p, (req, p) ∈ c_threads c ∧ owes x p.
Proof.
  intros [_ (Ds & Hall & Hatt)] Hx. destruct (Hatt x Hx) as (i & D & HD & Hxd).
  destruct (Forall2_lookup_l _ _ _ _ _ Hall HD) as ([req p] & Hi & Hduty).
  exists req, p. split; [by eapply list_elem_of_lookup_2|]. by eapply duty_owes.
Qed.

End attended.

End duty.
