(* ===== verification/System.v ===== *)
(** * What clients of the orchestrator can rely on

    Theorems about every configuration that the orchestrator can reach from a
    sound job store: any requests, any interleaving of the goroutines, any
    faults, any number of crashes and restarts.  They hold for every store that
    meets the contract of StoreSpec.v.  The examples execute interleavings over
    BoltStore. *)

From stdpp Require Import strings gmap sorting prelude.
From S2P Require Import Prelude Types Prog Config Bolt StoreSpec JobStore WorkerPool Lru LogHub Metrics.
From S2P Require Import State Scheduler Watch Server Invariant Safety Sequential.

Section system.
Context {A : StoreAPI} {OK : StoreOk A}.
Variable cfg : Config.
Variable now : Z.
Variable st : store.
Hypothesis st_good : good contract st.
Hypothesis st_ok : store_ok (view contract st).

(** Configurations reached by a process that starts on the store [st]. *)
Definition reachable (c : config (sys A) (oracle A) Req Reply) : Prop :=
  rtc (cstep (orchestrator cfg)) (mkConfig (NewServerWithStore now cfg st) [] []) c.

(** The record of a job in a configuration. *)
Definition record_of (c : config (sys A) (oracle A) Req Reply) (id : string) : option JobRecord :=
  a_jobs (astate (c_state c)) !! id.

Lemma reach c :
  reachable c →
  config_ok (orchestrator cfg) Inv Guar post c ∧ Inv (c_state c) ∧
  (∀ req y, (req, y) ∈ c_replies c → post req y (c_state c)) ∧
  (∀ req p o, (req, p) ∈ c_threads c → fresh_uuid o (c_state c) → ¬ panics o p (c_state c)).
Proof.
  intros Hc. pose proof (start_Inv cfg now st st_good st_ok) as HI.
  split; [by eapply reachable_config|by eapply reachable_ok].
Qed.

(** C4: In every reachable configuration the store is well formed and indexed
    consistently, every unfinished job has its payload, waiting jobs have no
    worker and running ones have one; everything queued exists and the queue is
    within its bound; the worker pool, the result cache, the metrics ring and the
    log hub are well formed; every terminal event in the hub or in a mailbox tells
    the outcome stored for its job; every task sent to a worker is that of a stored
    job and carries the payload the job was invoked with; and the result of every
    invoked job that is DONE came in a report of success for that job. *)
Theorem system_invariant c : reachable c → Inv (c_state c).
Proof. intros Hc. apply (reach c Hc). Qed.



(** C8: Idempotency: two invocations with the same non-empty key that both
    succeed, at any time and across restarts, return the same job. *)
Theorem same_key_same_job c req1 req2 id1 id2 :
  reachable c →
  (RInvoke req1, YInvoke (Ok id1)) ∈ c_replies c → (RInvoke req2, YInvoke (Ok id2)) ∈ c_replies c →
  pb.inv_idempotency_key req1 = pb.inv_idempotency_key req2 → pb.inv_idempotency_key req1 ≠ "" →
  id1 = id2.
Proof.
  intros Hc H1 H2 Ekey Hne. destruct (reach c Hc) as (_ & _ & Hpost & _).
  apply Hpost in H1 as (? & _ & K1 & _). apply Hpost in H2 as (? & _ & K2 & _).
  rewrite <- Ekey in K2. specialize (K1 Hne). specialize (K2 Hne). congruence.
Qed.

(** An accepted job is kept: after a successful invocation without a key the
    store holds the job for ever, with the function's name and, until it is
    finished, exactly the payload that was submitted. *)
Theorem accepted_job_is_kept c req id :
  reachable c → (RInvoke req, YInvoke (Ok id)) ∈ c_replies c → pb.inv_idempotency_key req = "" →
  ∃ r, record_of c id = Some r ∧ FunctionName r = pb.inv_function_name req ∧
    (terminal r = false →
     FunctionBytes r = pb.inv_function_bytes req ∧ ArgsBytes r = pb.inv_args_bytes req).
Proof.
  intros Hc H1 Hkey. destruct (reach c Hc) as (_ & _ & Hpost & _).
  apply Hpost in H1 as (t & (r & Hr & Hnew) & _). destruct (Hnew Hkey) as [u He].
  exists r. split; [done|]. destruct (ev_name _ _ He) as (_ & En & _). split; [by rewrite En|].
  intros Ht. by destruct (ev_payload _ _ He Ht).
Qed.

(** C7: An acknowledged report is durable: the job it is about is in the store and
    finished, now and for ever. *)
Theorem acknowledged_report_is_durable c req b :
  reachable c → (RReport req, YReport (Ok b)) ∈ c_replies c →
  b = true ∧ ∃ r, record_of c (pb.rep_job_id req) = Some r ∧ terminal r = true.
Proof.
  intros Hc H1. destruct (reach c Hc) as (_ & _ & Hpost & _). apply Hpost in H1 as [Hb Hj].
  split; [done|exact Hj].
Qed.

(** C11: A watcher's stream that ends by itself ends with exactly one terminal event,
    which is the outcome in the store; everything before it belongs to the watched
    job and is not terminal.  A stream that ends otherwise has no terminal event.
    Every log line on a stream was sent to the orchestrator for the watched job. *)
Theorem watch_tells_the_outcome c fuel id sent ending :
  reachable c → (RWatch fuel id, YWatch sent ending) ∈ c_replies c →
  Forall (log_ok (received (c_state c))) sent ∧
  match ending with
  | WatchResult =>
      ∃ pre r, sent = pre ++ [jobResultEvent r] ∧ ongoing id pre ∧
        record_of c id = Some r ∧ terminal r = true
  | _ => ongoing id sent
  end.
Proof.
  intros Hc H1. destruct (reach c Hc) as (_ & _ & Hpost & _). apply Hpost in H1 as [Ht0 H1].
  split; [exact Ht0|]. cbn [fst snd] in H1. destruct ending; [|done..].
  destruct H1 as (pre & ev & -> & Hpre & Hres & Hid & Hev).
  destruct (Hev Hres) as (r & Hr & Ht & ->). exists pre, r. rewrite Hid in Hr. done.
Qed.


End system.

Module Examples.

(** The default settings. *)
Definition cfg0 : Config :=
  mkCfg 50051 8080 "minimodal.db" (6 * second) (2 * second) 3 30 (5 * second) 16777216
    false 0 4 1 (30 * second) (3 * second) (15 * second) (500 * millisecond)
    ".venv/bin/python -m worker.worker" "." 50100 false "node-1" "127.0.0.1:7000" "raft-data" "".

#[export] Instance bolt_api : StoreAPI := BoltStore.api.

#[export] Instance bolt_ok : StoreOk bolt_api := BoltStore.boltstore_ok.

#[export] Instance fresh_uuid_dec (o : oracle bolt_api) s : Decision (fresh_uuid o s).
Proof. unfold fresh_uuid. apply _. Defined.

#[export] Instance allowed_dec o s : Decision (allowed (orchestrator (A := bolt_api) cfg0) o s).
Proof. apply fresh_uuid_dec. Defined.

(** No faults, a worker that accepts, the clock at [t], the next UUID [u]; [sel]
    picks the case of a select. *)
Definition env (t : Z) (u : string) (sel : nat) : oracle bolt_api :=
  mkOracle t t (no_faults, t) [] u None (Ok (pb.mkExecuteResponse true "")) false None sel.

Definition steps (i n : nat) (o : oracle bolt_api) : list (move (oracle bolt_api) Req) :=
  replicate n (Go i o).

Abbreviation conf := (config (sys bolt_api) (oracle bolt_api) Req Reply).

Definition start : conf :=
  mkConfig (NewServerWithStore 0 cfg0 (BoltStore.empty_store : store)) [] [].

Definition invoke (key : string) : pb.InvokeFunctionRequest :=
  pb.mkInvoke [Byte.x80] [Byte.x01] "f" key.

Definition report_of (id : string) (res : bytes) : pb.ReportTaskResultRequest :=
  pb.mkReport id "w" true res "" 10 20 [].

Lemma start_good : good contract (BoltStore.empty_store : store).
Proof. exact BoltStore.empty_store_good. Qed.

Lemma start_ok : store_ok (view contract (BoltStore.empty_store : store)).
Proof. split; intros ??; vm_compute; discriminate. Qed.

Lemma played {X} (f : conf → X) ms x :
  f <$> play (orchestrator cfg0) ms start = Some x →
  ∃ c, reachable cfg0 0 (BoltStore.empty_store : store) c ∧ f c = x.
Proof. intros (c & Hc & ->)%fmap_Some. exists c. split; [by eapply play_reach|done]. Qed.

(** Two invocations with one key, interleaved. *)
Definition two_invocations : list (move (oracle bolt_api) Req) :=
  [Start (RInvoke (invoke "k")); Start (RInvoke (invoke "k"))]
    ++ [Go 0 (env 5 "u" 0); Go 1 (env 6 "u" 0); Go 1 (env 7 "job-1" 0)] ++ steps 1 3 (env 8 "u" 0)
    ++ steps 0 1 (env 9 "u" 0) ++ [Answer 1; Answer 0].

Lemma same_key_same_job_witness :
  ∃ c : conf, c_replies c = [(RInvoke (invoke "k"), YInvoke (Ok "job-1"));
                      (RInvoke (invoke "k"), YInvoke (Ok "job-1"))] ∧ "job-1" = "job-1".
Proof.
  destruct (played c_replies two_invocations
    [(RInvoke (invoke "k"), YInvoke (Ok "job-1")); (RInvoke (invoke "k"), YInvoke (Ok "job-1"))])
    as (c & Hc & E); [vm_compute; reflexivity|].
  exists c. split; [exact E|].
  apply (same_key_same_job cfg0 0 _ start_good start_ok c (invoke "k") (invoke "k")); try done;
    rewrite E; by left.
Defined.

(** The life of a job: a worker registers, the job is invoked, watched, dispatched
    and reported, the watcher gets the result, and a client asks twice. *)
Definition life : list (move (oracle bolt_api) Req) :=
  [Start (RRegister (pb.mkRegister "w" "host:1" 2)); Go 0 (env 1 "u" 0); Answer 0]
    ++ [Start (RInvoke (invoke "")); Go 0 (env 2 "u" 0); Go 0 (env 3 "job-1" 0)]
    ++ steps 0 3 (env 4 "u" 0) ++ [Answer 0]
    ++ [Start (RWatch 5 "job-1")] ++ steps 0 4 (env 5 "u" 2)
    ++ [Start (RDrainer 2)] ++ steps 1 6 (env 6 "u" 0)
    ++ [Start (RReport (report_of "job-1" [Byte.x2a]))] ++ steps 2 8 (env 7 "u" 0) ++ [Answer 2]
    ++ steps 0 3 (env 8 "u" 1) ++ [Answer 0]
    ++ [Start (RStatus "job-1")] ++ steps 1 3 (env 9 "u" 0) ++ [Answer 1]
    ++ [Start (RStatus "job-1")] ++ steps 1 3 (env 12 "u" 0) ++ [Answer 1].

Definition life_result : JobRecord :=
  mkJob "job-1" StatusDone "w" "f" [] [] [Byte.x2a] 10 20 "" 2 7 0 "" 0.

Definition life_status : pb.JobStatusResponse :=
  pb.mkJobStatusResponse "job-1" pb.JOB_STATUS_DONE [Byte.x2a] "" 10 30 0 "w".

Definition life_replies : list (Req * Reply) :=
  [(RRegister (pb.mkRegister "w" "host:1" 2), YRegister (Ok (pb.mkRegisterResponse "w" 2000)));
   (RInvoke (invoke ""), YInvoke (Ok "job-1"));
   (RReport (report_of "job-1" [Byte.x2a]), YReport (Ok true));
   (RWatch 5 "job-1", YWatch [statusEvent "job-1" StatusPending; jobResultEvent life_result] WatchResult);
   (RStatus "job-1", YStatus (Ok life_status));
   (RStatus "job-1", YStatus (Ok life_status))].

(** The end of [life]: the replies, the record of the job, and the drainer still
    waiting for work. *)
Definition life_end (c : conf) : list (Req * Reply) * option JobRecord * list Req :=
  (c_replies c, record_of c "job-1", (c_threads c).*1).

Lemma life_reached :
  ∃ c : conf, reachable cfg0 0 (BoltStore.empty_store : store) c ∧ c_replies c = life_replies ∧
    record_of c "job-1" = Some life_result ∧ (c_threads c).*1 = [RDrainer 2].
Proof.
  destruct (played life_end life (life_replies, Some life_result, [RDrainer 2])) as (c & Hc & E);
    [vm_compute; reflexivity|].
  exists c. unfold life_end in E. by simplify_eq.
Qed.

Lemma system_invariant_witness : ∃ c : conf, c_replies c = life_replies ∧ Inv (c_state c).
Proof.
  destruct life_reached as (c & Hc & E & _). exists c. split; [exact E|].
  exact (system_invariant cfg0 0 _ start_good start_ok c Hc).
Defined.



Lemma accepted_job_is_kept_witness :
  ∃ (c : conf) r, record_of c "job-1" = Some r ∧ FunctionName r = "f".
Proof.
  destruct life_reached as (c & Hc & E & _).
  destruct (accepted_job_is_kept cfg0 0 _ start_good start_ok c (invoke "") "job-1" Hc)
    as (r & Hr & Hn & _); [rewrite E; by right; left|done|].
  by exists c, r.
Defined.

Lemma acknowledged_report_is_durable_witness :
  ∃ (c : conf) r, record_of c "job-1" = Some r ∧ terminal r = true.
Proof.
  destruct life_reached as (c & Hc & E & _).
  destruct (acknowledged_report_is_durable cfg0 0 _ start_good start_ok c
    (report_of "job-1" [Byte.x2a]) true Hc) as (_ & r & Hr & Ht); [rewrite E; by do 2 right; left|].
  by exists c, r.
Defined.

Lemma watch_tells_the_outcome_witness :
  ∃ (c : conf) pre r, [statusEvent "job-1" StatusPending; jobResultEvent life_result] =
      pre ++ [jobResultEvent r] ∧ ongoing "job-1" pre ∧ record_of c "job-1" = Some r ∧
      terminal r = true.
Proof.
  destruct life_reached as (c & Hc & E & _).
  destruct (watch_tells_the_outcome cfg0 0 _ start_good start_ok c 5 "job-1"
    [statusEvent "job-1" StatusPending; jobResultEvent life_result] WatchResult Hc)
    as (_ & pre & r & H); [rewrite E; by do 3 right; left|].
  by exists c, pre, r.
Defined.


(** ** Single handlers *)

(** A store from a previous life: one job, running on "w". *)
Definition old_store : store (StoreAPI := bolt_api) :=
  (BoltStore.Transition no_faults 2000 "job-1" BoltStore.Examples.to_running tt
     BoltStore.Examples.s1).2.

Definition old_job (now : Z) : JobRecord :=
  mkJob "job-1" StatusRunning "w" "f" [Byte.x80] [] [] 0 0 "k" 1000 now 0 "" 0.

Definition restarted : sys bolt_api := NewServerWithStore 3000 cfg0 old_store.

Definition quiet : senv (StoreAPI := bolt_api) := (no_faults, 3000%Z).

Lemma old_good : good contract old_store.
Proof.
  apply (call_step_good (A := bolt_api) BoltStore.Examples.s1); [exact BoltStore.Examples.s1_good|].
  apply (call_transition (A := bolt_api) unit (no_faults, 2000%Z)).
  by intros c r c' r' [= <- <-].
Qed.

Lemma old_view : map_to_list (a_jobs (astate restarted)) = [("job-1", old_job 2000)].
Proof. vm_compute. reflexivity. Qed.

Lemma calm_one {C} (m : mutator C) (o : oracle bolt_api) s id rec :
  map_to_list (a_jobs (astate s)) = [(id, rec)] → ¬ faulty contract (o_store o) →
  (∀ c c' r', m c rec = (c', Ok r') → ¬ unwritable contract (o_store o) id r') → calm m o s.
Proof.
  intros Hv Hf Hm. split; [done|]. intros id' r c c' r' Hr. apply elem_of_map_to_list in Hr.
  rewrite Hv in Hr. apply list_elem_of_singleton in Hr. simplify_eq. apply Hm.
Qed.

Lemma old_calm {C} (m : mutator C) s now :
  map_to_list (a_jobs (astate s)) = [("job-1", old_job now)] →
  (∀ c c' r', m c (old_job now) = (c', Ok r') →
     ¬ unwritable contract quiet "job-1" r') →
  calm m (env 3000 "u" 0) s.
Proof.
  intros Hv Hm. apply (calm_one _ (env 3000 "u" 0) _ _ _ Hv); [|exact Hm]. intros [H|H]; by apply H.
Qed.

(** The job after recovery. *)
Definition recovered : store (StoreAPI := bolt_api) :=
  (Transition quiet "job-1" demote tt old_store).2.

Lemma recovered_calm (s : sys bolt_api) : jobStore s = recovered → calm demote (env 3000 "u" 0) s.
Proof.
  intros E. apply (calm_one _ _ _ "job-1"
    (mkJob "job-1" StatusPending "" "f" [Byte.x80] [] [] 0 0 "k" 1000 3000 0 "" 0)).
  - unfold astate. rewrite E. vm_compute. reflexivity.
  - intros [H|H]; by apply H.
  - intros c c' r' [= <- <-]. vm_compute. intuition discriminate.
Qed.

Lemma recovery_within : within (calm demote) (λ _, env 3000 "u" 0) RecoverUnfinishedJobs restarted.
Proof.
  assert (calm demote (env 3000 "u" 0) restarted) as Hcalm.
  { apply (old_calm _ _ 2000 old_view). intros c c' r' [= <- <-]. vm_compute. intuition discriminate. }
  unfold RecoverUnfinishedJobs, store_ListUnfinished, reads, act. cbn [mbind prog_bind within].
  split; [exact Hcalm|].
  replace (ListUnfinished (o_store (env 3000 "u" 0)) (jobStore restarted))
    with ([old_job 2000], None : option error) by (vm_compute; reflexivity).
  cbn [recover_loop]. unfold store_Transition, writes, act. cbn [mbind prog_bind within].
  split; [exact Hcalm|].
  change (o_store (env 3000 "u" 0)) with quiet.
  change (jobStore restarted) with old_store. change (ID (old_job 2000)) with "job-1".
  rewrite (pair_eq_fst (Transition quiet "job-1" demote tt old_store)
    (true, None, tt)) by (vm_compute; reflexivity).
  fold recovered. unfold enqueue, shuttingDown_Load, queue_send, reads, act.
  cbn [mbind prog_bind within]. split; [by apply recovered_calm|].
  cbn [shuttingDown restarted NewServerWithStore set_jobStore mbind prog_bind within].
  split; [by apply recovered_calm|]. done.
Qed.

Lemma recovery_complete_witness :
  ∃ s', run (λ _, env 3000 "u" 0) RecoverUnfinishedJobs restarted = Done None s' ∧
    ∃ r', a_jobs (astate s') !! "job-1" = Some r' ∧ Status r' = StatusPending ∧
      RetryCount r' = 0%Z ∧ "job-1" ∈ pendingQueue s'.
Proof.
  destruct (recovery_complete (λ _, env 3000 "u" 0) restarted old_good) as (s' & Hrun & Hjobs & _).
  - reflexivity.
  - vm_compute. discriminate.
  - exact recovery_within.
  - exists s'. split; [exact Hrun|]. apply (Hjobs "job-1" (old_job 2000)).
    apply elem_of_map_to_list. rewrite old_view. by left.
Defined.

(** The job after its worker died. *)
Definition reaped : store (StoreAPI := bolt_api) :=
  (Transition quiet "job-1" (reassign (MaxRetries cfg0)) (false, false) old_store).2.

Lemma reaped_calm (s : sys bolt_api) :
  jobStore s = reaped → calm (reassign (MaxRetries cfg0)) (env 3000 "u" 0) s.
Proof.
  intros E. apply (calm_one _ _ _ "job-1"
    (mkJob "job-1" StatusPending "" "f" [Byte.x80] [] [] 0 0 "k" 1000 3000 1 "" 0)).
  - unfold astate. rewrite E. vm_compute. reflexivity.
  - intros [H|H]; by apply H.
  - intros c c' r' H. vm_compute in H. discriminate.
Qed.

Lemma reaper_within :
  within (calm (reassign (MaxRetries cfg0))) (λ _, env 3000 "u" 0) (ReassignJobsOf cfg0 "w") restarted.
Proof.
  assert (calm (reassign (MaxRetries cfg0)) (env 3000 "u" 0) restarted) as Hcalm.
  { apply (old_calm _ _ 2000 old_view). intros c c' r' [= <- <-]. vm_compute. intuition discriminate. }
  unfold ReassignJobsOf, store_ListRunningOnWorker, reads, act. cbn [mbind prog_bind within].
  split; [exact Hcalm|].
  replace (ListRunningOnWorker (o_store (env 3000 "u" 0)) "w" (jobStore restarted))
    with ([old_job 2000], None : option error) by (vm_compute; reflexivity).
  cbn [reassign_loop]. unfold store_Transition, writes, act. cbn [mbind prog_bind within].
  split; [exact Hcalm|].
  change (o_store (env 3000 "u" 0)) with quiet.
  change (jobStore restarted) with old_store. change (ID (old_job 2000)) with "job-1".
  rewrite (pair_eq_fst (Transition quiet "job-1" (reassign (MaxRetries cfg0)) (false, false) old_store)
    (true, None, (true, false))) by (vm_compute; reflexivity).
  fold reaped. unfold enqueue, shuttingDown_Load, queue_send, reads, act.
  cbn [negb mbind prog_bind within]. split; [by apply reaped_calm|].
  cbn [shuttingDown restarted NewServerWithStore set_jobStore mbind prog_bind within].
  split; [by apply reaped_calm|]. done.
Qed.

Lemma reaper_complete_witness :
  ∃ s', run (λ _, env 3000 "u" 0) (ReassignJobsOf cfg0 "w") restarted = Done tt s' ∧
    ∃ r', a_jobs (astate s') !! "job-1" = Some r' ∧ RetryCount r' = 1%Z ∧
      Status r' = StatusPending ∧ WorkerID r' = "" ∧ "job-1" ∈ pendingQueue s'.
Proof.
  destruct (reaper_complete cfg0 (λ _, env 3000 "u" 0) "w" restarted old_good) as (s' & Hrun & Hjobs & _).
  - reflexivity.
  - vm_compute. discriminate.
  - exact reaper_within.
  - exists s'. split; [exact Hrun|]. apply (Hjobs "job-1" (old_job 2000)).
    apply elem_of_map_to_list. rewrite old_view. by left.
Defined.

Definition one_worker : sys bolt_api :=
  set_workerPool (WorkerPool.Register 1 1 "w" "host:1" 2 (WorkerPool.NewWorkerPool (6 * second))) restarted.

Lemma Dispatch_terminates_witness :
  ∃ e s', run (λ _, env 3000 "u" 0) (Dispatch 2 "job-1") one_worker = Done e s' ∧
    ∃ ts, sentTasks s' = [] ++ ts ∧ length ts ≤ 1.
Proof.
  destruct (Dispatch_terminates (λ _, env 3000 "u" 0) 2 "job-1" one_worker) as (e & s' & Hrun & [_ Hts] & _).
  - apply WorkerPool.Register_wf, WorkerPool.NewWorkerPool_wf.
  - vm_compute. lia.
  - exists e, s'. split; [exact Hrun|exact Hts].
Defined.

(** ** Limits *)

(** A worker reports the job a second time with another result, as one does that
    was cut off and whose job was run again. *)
Definition late_report : list (move (oracle bolt_api) Req) :=
  life ++ [Start (RReport (report_of "job-1" [Byte.x00]))] ++ steps 1 8 (env 13 "u" 0) ++ [Answer 1]
    ++ [Start (RStatus "job-1")] ++ steps 1 3 (env 14 "u" 0) ++ [Answer 1]
    ++ [Start RMetrics] ++ steps 1 8 (env 15 "u" 0) ++ [Answer 1].

Definition late_status : pb.JobStatusResponse :=
  pb.mkJobStatusResponse "job-1" pb.JOB_STATUS_DONE [Byte.x00] "" 10 30 0 "w".

Definition status_of (p : Req * Reply) : option pb.JobStatusResponse :=
  match p with (RStatus _, YStatus (Ok r)) => Some r | _ => None end.

Definition in_flight (p : Req * Reply) : option Z :=
  match p with (RMetrics, YMetrics m) => Some (InFlightJobs m) | _ => None end.

Definition late_end (c : conf) : list pb.JobStatusResponse * list Z * option JobRecord :=
  (omap status_of (c_replies c), omap in_flight (c_replies c), record_of c "job-1").

Lemma late_reached :
  ∃ c : conf, reachable cfg0 0 (BoltStore.empty_store : store) c ∧
    omap status_of (c_replies c) = [life_status; life_status; late_status] ∧
    omap in_flight (c_replies c) = [(-1)%Z] ∧ record_of c "job-1" = Some life_result.
Proof.
  destruct (played late_end late_report ([life_status; life_status; late_status], [(-1)%Z], Some life_result))
    as (c & Hc & E); [vm_compute; reflexivity|].
  exists c. unfold late_end in E. by simplify_eq.
Qed.

Lemma status_reply (c : conf) r : r ∈ omap status_of (c_replies c) → ∃ id, (RStatus id, YStatus (Ok r)) ∈ c_replies c.
Proof.
  intros ([req y] & Hin & E)%list_elem_of_omap. cbn in E.
  destruct req, y; try done. destruct r0; simplify_eq. eauto.
Qed.

(** A worker the fault detector gives up on between being picked for a job and
    accepting it. *)
Definition strand : list (move (oracle bolt_api) Req) :=
  [Start (RRegister (pb.mkRegister "w" "host:1" 2)); Go 0 (env 1 "u" 0); Answer 0]
    ++ [Start (RInvoke (invoke "")); Go 0 (env 2 "u" 0); Go 0 (env 3 "job-1" 0)]
    ++ steps 0 3 (env 4 "u" 0) ++ [Answer 0]
    ++ [Start (RDrainer 2)] ++ steps 0 3 (env 5 "u" 0)
    ++ [Start (RFaultDetector 2)] ++ steps 1 3 (env (10 * second) "u" 0)
    ++ steps 0 3 (env (10 * second) "u" 0).

Definition strand_end (c : conf) :=
  (map_to_list (WorkerPool.workers (workerPool (c_state c))), pendingQueue (c_state c),
   (c_threads c).*1, record_of c "job-1").

Definition dead_worker : WorkerPool.workerState :=
  WorkerPool.mkWorker "w" "host:1" 2 0 1 1 false.

Definition stranded : JobRecord :=
  mkJob "job-1" StatusRunning "w" "f" [Byte.x80] [Byte.x01] [] 0 0 "" 2 (10 * second) 0 "" 0.

Lemma strand_reached :
  ∃ c : conf, reachable cfg0 0 (BoltStore.empty_store : store) c ∧
    map_to_list (WorkerPool.workers (workerPool (c_state c))) = [("w", dead_worker)] ∧
    pendingQueue (c_state c) = [] ∧ (c_threads c).*1 = [RDrainer 2; RFaultDetector 2] ∧
    record_of c "job-1" = Some stranded.
Proof.
  destruct (played strand_end strand
    ([("w", dead_worker)], [], [RDrainer 2; RFaultDetector 2], Some stranded))
    as (c & Hc & E); [vm_compute; reflexivity|].
  exists c. unfold strand_end in E. by simplify_eq.
Qed.

End Examples.

(** Executions that show where the code stops short of what it means to do. *)
Module Limits.
Import Examples.

(** C37: The result cache is written before the store decides: a second report for a
    finished job changes the result that GetJobStatus returns, although the stored
    record, and the result that watchers get, keep the first one. *)
Theorem late_report_changes_reply :
  ∃ (c : conf) id1 id2 resp1 resp2,
    reachable cfg0 0 (BoltStore.empty_store : store) c ∧
    (RStatus id1, YStatus (Ok resp1)) ∈ c_replies c ∧ (RStatus id2, YStatus (Ok resp2)) ∈ c_replies c ∧
    pb.js_job_id resp1 = "job-1" ∧ pb.js_job_id resp2 = "job-1" ∧
    pb.js_status resp1 = pb.JOB_STATUS_DONE ∧ pb.js_status resp2 = pb.JOB_STATUS_DONE ∧
    record_of c "job-1" = Some life_result ∧
    pb.js_result_bytes resp1 = ResultBytes life_result ∧
    pb.js_result_bytes resp2 ≠ ResultBytes life_result.
Proof.
  destruct late_reached as (c & Hc & Es & _ & Er).
  destruct (status_reply c life_status) as [id1 H1]; [rewrite Es; by left|].
  destruct (status_reply c late_status) as [id2 H2]; [rewrite Es; by do 2 right; left|].
  by exists c, id1, id2, life_status, late_status.
Qed.

(** Metrics count reports, not jobs: after one invocation and a repeated report
    the snapshot shows minus one job in flight. *)
Theorem repeated_report_miscounts :
  ∃ (c : conf) m, reachable cfg0 0 (BoltStore.empty_store : store) c ∧
    (RMetrics, YMetrics m) ∈ c_replies c ∧ InFlightJobs m = (-1)%Z.
Proof.
  destruct late_reached as (c & Hc & _ & Em & _).
  assert ((-1)%Z ∈ omap in_flight (c_replies c)) as Hin by (rewrite Em; by left).
  apply list_elem_of_omap in Hin as ([req y] & Hin & E). cbn in E.
  destruct req, y; try done. injection E as E. by exists c, m.
Qed.

(** C38: A job can be stranded: when the fault detector declares a worker dead after
    the dispatcher has picked it and before it accepts, the job runs on a dead
    worker, is in no queue, and no later sweep reports that worker again. *)
Theorem stranded_job :
  ∃ (c : conf) r, reachable cfg0 0 (BoltStore.empty_store : store) c ∧
    record_of c "job-1" = Some r ∧ Status r = StatusRunning ∧ WorkerID r = "w" ∧
    pendingQueue (c_state c) = [] ∧
    ∀ t ord, (WorkerPool.sweep t ord (workerPool (c_state c))).1 = [].
Proof.
  destruct strand_reached as (c & Hc & Hw & Hq & _ & Hr). exists c, stranded.
  do 5 (split; [done|]). intros t ord.
  destruct (WorkerPool.sweep_spec t ord (workerPool (c_state c))) as (Hdead & _).
  destruct (WorkerPool.sweep t ord (workerPool (c_state c))).1 as [|k ks]; [done|].
  destruct (proj1 (Hdead k)) as (w & Hk & He); [by left|].
  apply elem_of_map_to_list in Hk. rewrite Hw in Hk. apply list_elem_of_singleton in Hk. by simplify_eq.
Qed.

End Limits.
