(* ===== verification/Liveness.v ===== *)
(** * No job is forgotten

    A job that waits is on the queue, or a running goroutine is about to put it
    there, to dispatch it or to finish it.  The duties of Duty.v for the
    orchestrator: the loose keys are the jobs that are PENDING in the store and not
    in [pendingQueue].  Every handler, and the queue drainer, the fault detector and
    the startup recovery, is dutiful, in every interleaving and across crashes,
    while the store works, no shutdown has begun and the workers come from a finite
    fleet. *)

From stdpp Require Import strings gmap sorting prelude.
From S2P Require Import Prelude Types Prog Json Bolt Config StoreSpec JobStore WorkerPool Lru LogHub Metrics.
From S2P Require Import State Scheduler Watch Server Cluster Invariant Safety Duty System.

(** ** Mutators that fail only by skipping *)

Record tame {C} (m : mutator C) : Prop := {
  tame_ok : mutator_ok m;
  tame_created : ∀ c r c' r', m c r = (c', Ok r') → CreatedAt r' = CreatedAt r;
  tame_skips : ∀ c r c' e, m c r = (c', Err e) → e = ErrSkipTransition;
}.

(** The mutator leaves no job PENDING. *)
Definition settles {C} (m : mutator C) : Prop :=
  (∀ c r c' r', m c r = (c', Ok r') → Status r' ≠ StatusPending) ∧
  (∀ c r c' e, m c r = (c', Err e) → Status r ≠ StatusPending).

Lemma terminal_not_pending r : terminal r = true → Status r ≠ StatusPending.
Proof. intros Ht E. unfold terminal in Ht. by rewrite E in Ht. Qed.

(** The branches of a mutator. *)
Ltac mutator_cases :=
  repeat match goal with
  | |- context [terminal ?r] => destruct (terminal r) eqn:?
  | |- context [pb.rep_success ?q] => destruct (pb.rep_success q)
  | |- context [negb (String.eqb ?a ?b)] => destruct (String.eqb a b)
  | |- context [if String.eqb ?a ?b then _ else _] => destruct (String.eqb a b)
  | |- context [if (?a <? ?b)%Z then _ else _] => destruct (a <? b)%Z
  | |- _ => progress cbn [negb]
  end;
  intros ?; simplify_eq; first [done | by apply terminal_not_pending].

Lemma mark_running_tame w : w ≠ "" → tame (mark_running w) ∧ settles (mark_running w).
Proof.
  intros Hw. split; [split; [by apply mark_running_ok|..]|split]; intros c r c' r'; unfold mark_running;
    mutator_cases.
Qed.

Lemma mark_failed_tame msg : tame (mark_failed msg) ∧ settles (mark_failed msg).
Proof.
  split; [split; [apply mark_failed_ok|..]|split]; intros c r c' r'; unfold mark_failed; mutator_cases.
Qed.

Lemma report_tame req : tame (report req) ∧ settles (report req).
Proof.
  split; [split; [apply report_ok|..]|split]; intros c r c' r'; unfold report; mutator_cases.
Qed.

Lemma revert_pending_tame : tame revert_pending.
Proof. split; [apply revert_pending_ok|..]; intros c r c' r'; unfold revert_pending; mutator_cases. Qed.

Lemma demote_tame : tame demote.
Proof. split; [apply demote_ok|..]; intros c r c' r'; unfold demote; mutator_cases. Qed.

Lemma reassign_tame n : tame (reassign n).
Proof. split; [apply reassign_ok|..]; intros c r c' r'; unfold reassign; mutator_cases. Qed.

(** ** The duties *)

Section liveness.
Context {A : StoreAPI} {OK : StoreOk A}.
Variable cfg : Config.
Variable fleet : gset string.

Implicit Types (s : sys A) (o : oracle A) (D : string → Prop).

(** The job is PENDING and on no queue. *)
Definition waiting s (id : string) : Prop :=
  match a_jobs (astate s) !! id with
  | Some r => Status r = StatusPending
  | None => False
  end ∧ id ∉ pendingQueue s.

#[export] Instance waiting_dec s id : Decision (waiting s id).
Proof. unfold waiting. destruct (a_jobs (astate s) !! id); apply _. Defined.

(** No shutdown has begun, and the workers are from the fleet. *)
Definition serving s : Prop :=
  shuttingDown s = false ∧ dom (WorkerPool.workers (workerPool s)) ⊆ fleet.

Definition queue_full s : Prop := (pendingQueueSize ≤ Z.of_nat (length (pendingQueue s)))%Z.

(** The environment works: UUIDs are new, the context of the process is not
    cancelled, no call of the store fails, and what the job records become can be
    written. *)
Record working o s : Prop := {
  work_uuid : fresh_uuid o s;
  work_ctx : o_done o = false;
  work_store : ¬ faulty contract (o_store o);
  work_writes : ∀ id r r', a_jobs (astate s) !! id = Some r → evolves r r' →
    CreatedAt r' = CreatedAt r → ¬ unwritable contract (o_store o) id r';
}.

Abbreviation Duty D p P E := (duty Inv serving working queue_full waiting D p P E).
Abbreviation Quiet D p := (quiet Inv serving working queue_full waiting D p).
Abbreviation Dutiful D p := (dutiful Inv serving working queue_full waiting D p).
Abbreviation none := (λ _ : string, False).

Definition also (id : string) D : string → Prop := λ x, x = id ∨ D x.

Definition but (id : string) D : string → Prop := λ x, x ≠ id ∧ D x.

(** ** Steps that do not touch the store and the queue *)

Lemma same_waiting s s' x :
  jobStore s' = jobStore s → pendingQueue s' = pendingQueue s → waiting s' x → waiting s x.
Proof. unfold waiting, astate. by intros -> ->. Qed.

Lemma reads_quiet {B} (f : oracle A → sys A → B) D : Quiet D (reads f).
Proof. by apply quiet_act. Qed.

Lemma writes_quiet {B} (f : oracle A → sys A → B * sys A) D :
  (∀ o s, serving s → jobStore (f o s).2 = jobStore s ∧ pendingQueue (f o s).2 = pendingQueue s ∧
     serving (f o s).2) →
  Quiet D (writes f).
Proof.
  intros Hf. apply quiet_act. intros o s _ _ HJ. specialize (Hf o s HJ).
  destruct (f o s) as [b s']. cbn in Hf. destruct Hf as (? & ? & ?). split; [done|].
  intros x. by apply same_waiting.
Qed.

Lemma metrics_RecordColdStart_quiet ms D : Quiet D (metrics_RecordColdStart ms).
Proof.
  apply quiet_act. intros o s _ HI HJ.
  destruct (Metrics.RecordColdStart_total ms _ (inv_metrics _ HI)) as (m & -> & _).
  split; [done|]. intros x. by apply same_waiting.
Qed.

Lemma metrics_snapshot_quiet D : Quiet D metrics_snapshotPercentiles.
Proof.
  apply quiet_act. intros o s _ HI HJ.
  by destruct (Metrics.snapshot_total _ (inv_metrics _ HI)) as [p ->].
Qed.

Lemma getOrDial_quiet wid addr D : Quiet D (getOrDial wid addr).
Proof.
  apply writes_quiet. intros o s HJ. destruct (channels s) as [m|]; [|done].
  destruct (m !! wid); [done|]. by destruct (o_dial o).
Qed.

Lemma dropChannel_quiet wid D : Quiet D (dropChannel wid).
Proof. apply writes_quiet. intros o s HJ. cbn. by destruct (channels s). Qed.

Lemma results_Get_quiet k D : Quiet D (results_Get k).
Proof. apply writes_quiet. intros o s HJ. by destruct (Lru.Get k (results s)). Qed.

Lemma hub_Subscribe_quiet id D : Quiet D (hub_Subscribe id).
Proof. apply writes_quiet. intros o s HJ. by destruct (LogHub.Subscribe id (logHub s)). Qed.

Lemma hub_try_recv_quiet sub D : Quiet D (hub_try_recv sub).
Proof. apply writes_quiet. intros o s HJ. by destruct (LogHub.recv sub (logHub s)). Qed.

Lemma pool_Register_quiet wid addr cap D : wid ∈ fleet → Quiet D (pool_Register wid addr cap).
Proof.
  intros Hw. apply writes_quiet. intros o s [Hd Hf]. cbn. split; [done|]. split; [done|].
  split; [done|]. cbn. set_solver.
Qed.

Lemma pool_RecordHeartbeat_quiet wid n D : Quiet D (pool_RecordHeartbeat wid n).
Proof.
  apply writes_quiet. intros o s [Hd Hf]. unfold WorkerPool.RecordHeartbeat.
  destruct (WorkerPool.workers (workerPool s) !! wid) as [w|] eqn:Hw; [|done]. cbn.
  split; [done|]. split; [done|]. split; [done|]. cbn.
  apply elem_of_dom_2 in Hw. set_solver.
Qed.

Lemma pool_sweep_quiet D : Quiet D pool_sweep.
Proof.
  apply writes_quiet. intros o s [Hd Hf].
  destruct (WorkerPool.sweep_spec (o_now o) (o_ord o) (workerPool s)) as (_ & _ & _ & Hk).
  destruct (WorkerPool.sweep _ _ _) as [dead p]. cbn in *. split; [done|]. split; [done|].
  split; [done|]. cbn. intros k Hin. apply Hf. apply elem_of_dom. apply elem_of_dom in Hin.
  specialize (Hk k). destruct (WorkerPool.workers (workerPool s) !! k); [done|].
  rewrite Hk in Hin. by destruct Hin.
Qed.

(** ** Steps on the store and the queue *)

Lemma a_put_waiting id r s st x :
  view contract st = a_put id r (astate s) → waiting (set_jobStore st s) x →
  x = id ∧ Status r = StatusPending ∨ x ≠ id ∧ waiting s x.
Proof.
  intros Hv. unfold waiting, astate. cbn [jobStore pendingQueue set_jobStore]. rewrite Hv. cbn.
  destruct (decide (x = id)) as [->|Hne]; [rewrite lookup_insert_eq|rewrite lookup_insert_ne by done];
    [left|right]; naive_solver.
Qed.

(** What a transition may leave waiting: the job, if the new record is PENDING or
    the record was left alone. *)
Lemma Transition_duty {C} id (m : mutator C) c D (P : _ → Prop) (E : _ → string → Prop) :
  tame m →
  (∀ r c' r', m c r = (c', Ok r') →
     P (true, None, c') ∧ (Status r' = StatusPending → E (true, None, c') id) ∧
     ∀ x, x ≠ id → D x → E (true, None, c') x) →
  (∀ r c', m c r = (c', Err ErrSkipTransition) →
     P (false, None, c') ∧ (Status r = StatusPending → D id → E (false, None, c') id) ∧
     ∀ x, x ≠ id → D x → E (false, None, c') x) →
  (∀ e, P (false, Some e, c) ∧ ∀ x, x ≠ id → D x → E (false, Some e, c) x) →
  Duty D (store_Transition id m c) P E.
Proof.
  intros [[HID Hm] Hcr Hsk] Hput Hskip Hmiss. apply duty_act. intros o s Ho HI HJ.
  pose proof (Transition_ok C (o_store o) id m c _ (inv_good _ HI) HID) as Hspec.
  destruct (Transition (o_store o) id m c (jobStore s)) as [[[b e] c'] st].
  assert (set_jobStore (jobStore s) s = s) as Eself by by destruct s.
  inversion Hspec as [r0 c0 r1 r2 s0 Hr0 Hm0 Hw0 Hg0 Hv0|r0 c0 Hr0 Hm0|r0 c0 e0 Hr0 Hm0 He0|e0 Hr0|
    b0 c0 e0 Hbad|b0 r0 c0 r1 r2 e0 s0 Hf0]; subst; rewrite ?Eself.
  - destruct (Hput _ _ _ Hm0) as (HP & Hid & Hrest). split; [done|]. split; [done|].
    intros x [[-> Hp]|[Hne Hx]]%(a_put_waiting id r2) H; [| |done].
    + apply Hid. apply written_fields in Hw0 as [(_ & <- & _)%outcome_fields _]. done.
    + apply Hrest; [done|]. by destruct H as [?|[]].
  - destruct (Hskip _ _ Hm0) as (HP & Hid & Hrest). split; [done|]. split; [done|].
    intros x Hx [Hd|[]]; [|done]. destruct (decide (x = id)) as [->|]; [|auto].
    apply Hid; [|done]. destruct Hx as [Hst _]. unfold astate in Hst. by rewrite Hr0 in Hst.
  - destruct He0. by eapply Hsk.
  - destruct (Hmiss e0) as [HP Hrest]. split; [done|]. split; [done|].
    intros x Hx [Hd|[]]; [|done]. apply Hrest; [|done]. intros ->.
    destruct Hx as [Hst _]. unfold astate in Hst. by rewrite Hr0 in Hst.
  - exfalso. destruct Hbad as [Hf|(r0 & r1 & Hr0 & Hm0 & Hu)]; [by destruct (work_store _ _ Ho)|].
    revert Hu. eapply (work_writes _ _ Ho); [done| |by eapply Hcr].
    eapply Hm; [|done]. by apply (jobs_ok _ (inv_store _ HI) id).
  - by destruct (work_store _ _ Ho).
Qed.

Lemma Transition_settles {C} id (m : mutator C) c D :
  tame m ∧ settles m → Duty D (store_Transition id m c) (λ _, True) (λ _, but id D).
Proof.
  intros [Ht [Hput Hskip]]. apply Transition_duty; [done|..].
  - intros r c' r' Hm. split; [done|]. split; [|done]. intros ?. by destruct (Hput _ _ _ _ Hm).
  - intros r c' Hm. split; [done|]. split; [|done]. intros ?. by destruct (Hskip _ _ _ _ Hm).
  - done.
Qed.

(** The job is somewhere else when it is not in the store, or is finished. *)
Lemma GetJob_duty id D :
  Duty D (store_GetJob id)
    (λ res, match res with Ok (Some r) => job_ok r ∧ ID r = id | Ok None => True | Err _ => False end)
    (λ res, match res with Ok (Some r) => if terminal r then but id D else D | _ => but id D end).
Proof.
  apply duty_act. intros o s Ho HI HJ. split; [done|].
  destruct (GetJob_ok (o_store o) id _ (inv_good _ HI)) as [|e Hf]; [|by destruct (work_store _ _ Ho)].
  fold (astate s). destruct (a_jobs (astate s) !! id) as [r|] eqn:Hr.
  - split; [split; [by apply (jobs_ok _ (inv_store _ HI) id)|by apply (good_wf _ (inv_good _ HI))]|].
    intros x Hx [Hd|[]]; [|done]. destruct (terminal r) eqn:Et; [|done]. split; [|done]. intros ->.
    destruct Hx as [Hst _]. rewrite Hr in Hst. by destruct (terminal_not_pending r).
  - split; [done|]. intros x Hx [Hd|[]]; [|done]. split; [|done]. intros ->.
    destruct Hx as [Hst _]. by rewrite Hr in Hst.
Qed.

(** A job on the queue does not wait elsewhere. *)
Lemma enqueue_duty id D : Duty D (enqueue id) (λ _, True) (λ _, but id D).
Proof.
  eapply (duty_bind _ _ _ _ _ _ _ _ (λ down, down = false) (λ _, D)).
  - apply duty_act. intros o s _ _ [Hd Hf]. split; [done|]. split; [done|]. by intros x Hx [?|[]].
  - intros down ->. apply duty_act. intros o s _ _ HJ.
    destruct (Z.ltb_spec (Z.of_nat (length (pendingQueue s))) pendingQueueSize); [|by left].
    split; [done|]. split; [done|]. intros x [Hst Hn] H'. cbn in Hn.
    apply not_elem_of_app in Hn as [Hn Hid]. split; [by intros ->; apply Hid; left|].
    destruct H' as [?|[]]; [done|]. by split.
Qed.

(** The drainer answers for the job it takes. *)
Lemma queue_recv_duty :
  Duty none queue_recv (λ res, is_Some res) (λ res x, res = Some x).
Proof.
  apply duty_act. intros o s Ho _ HJ. rewrite (work_ctx _ _ Ho).
  destruct (pendingQueue s) as [|id q] eqn:Eq; [by right; intros x Hx|].
  split; [done|]. split; [done|]. intros x [Hst Hn] [[]|Hw].
  destruct (decide (x = id)) as [->|Hne]; [done|]. destruct Hw. split; [done|].
  rewrite Eq. cbn in Hn. by apply not_elem_of_cons.
Qed.

(** A new job is the submitter's duty. *)
Lemma Submit_duty rec key D :
  (∀ u, ID (rec u) = u) →
  Duty D (store_Submit rec key) (λ _, True)
    (λ res, match res with (id, true, None) => also id D | _ => D end).
Proof.
  intros Hid. apply duty_act. intros o s Ho HI HJ.
  pose proof (Submit_ok (o_store o) (rec (o_uuid o)) key _ (inv_good _ HI)) as Hspec.
  destruct (SubmitWithIdempotency _ _ _ _) as [[[id b] e] st].
  assert (set_jobStore (jobStore s) s = s) as Eself by by destruct s.
  inversion Hspec as [id' Hk Hid'|r s' Hkey Hw Hg Hv|id' b' e' Hf|id' b' e' r s' Hf]; subst; rewrite ?Eself.
  - split; [done|]. split; [done|]. by intros x Hx [?|[]].
  - split; [done|]. split; [done|]. intros x Hx H'. destruct (decide (x = ID (rec (o_uuid o)))) as [->|Hne]; [by left|].
    right. destruct H' as [?|[]]; [done|]. revert Hx. unfold waiting, astate. cbn [note_payload jobStore pendingQueue set_jobStore set_payloads].
    rewrite Hv. unfold a_index. destruct (String.eqb key ""); cbn; by rewrite lookup_insert_ne.
  - rewrite note_payload_err. split; [done|]. split; [done|]. intros x Hx [?|[]]; [|done]. by destruct b.
  - by destruct (work_store _ _ Ho).
Qed.

(** The startup listing has every job that waits. *)
Lemma ListUnfinished_duty :
  Duty (λ _, True) store_ListUnfinished (λ res, res.2 = None) (λ res x, x ∈ ID <$> res.1).
Proof.
  apply duty_act. intros o s Ho HI HJ. split; [done|].
  pose proof (ListUnfinished_ok (o_store o) _ (inv_good _ HI)) as Hl.
  destruct (ListUnfinished _ _) as [out err]. cbn.
  inversion Hl as [out' Hin Hnd|? ? Hf]; subst; [|by destruct (work_store _ _ Ho)].
  split; [done|]. intros x [Hst _] _. fold (astate s) in Hin.
  destruct (a_jobs (astate s) !! x) as [r|] eqn:Hr; [|done].
  assert (ID r = x) as <- by by apply (good_wf _ (inv_good _ HI)).
  apply list_elem_of_fmap_2, Hin. unfold unfinished. by rewrite Hst.
Qed.

(** ** Dispatch *)

Ltac quietly lem := apply quiet_bind; [apply lem|intros ?].

(** The programs below have no result to speak of and end without duties. *)
Abbreviation Ends D p := (Duty D p (λ _, True) (λ _, none)).

Lemma notifyTerminal_quiet id D : Quiet D (notifyTerminal id).
Proof.
  quietly @reads_quiet. destruct a as [[r|]|e]; [|by apply quiet_ret..].
  destruct (negb _); [by apply quiet_ret|]. by apply writes_quiet.
Qed.

Lemma fail_job_duty id msg : Ends (eq id) (fail_job id msg).
Proof.
  eapply duty_bind; [apply Transition_settles, mark_failed_tame|]. intros res _.
  eapply duty_sub; [|apply notifyTerminal_quiet]. by intros x [Hne Hx].
Qed.

Lemma sendExecuteTask_still wid addr rec D : Quiet D (sendExecuteTask wid addr rec).
Proof.
  quietly getOrDial_quiet. destruct a as [conn|e]; [|by apply quiet_ret].
  apply quiet_bind; [by apply writes_quiet|]. intros [resp|e].
  - destruct (negb _); by apply quiet_ret.
  - quietly dropChannel_quiet. by apply quiet_ret.
Qed.

(** The job is still to be placed. *)
Definition unplaced (id : string) (err : option error) : string → Prop := λ x,
  x = id ∧ (err = Some ErrNoWorkersAvailable ∨ err = Some ErrAllWorkersExhausted).

(** A worker not tried before, from the fleet. *)
Lemma pick_duty tried D :
  Duty D (pool_LeastLoadedAliveExcluding tried)
    (λ res, res.2 = true → res.1.1 ≠ "" ∧ res.1.1 ∈ fleet ∧ res.1.1 ∉ tried) (λ _, D).
Proof.
  apply duty_act. intros o s _ HI [Hd Hf]. split; [done|].
  destruct (inv_pool _ HI) as [Hwf Hno].
  pose proof (WorkerPool.LeastLoaded_spec (o_ord o) tried _ Hwf) as H.
  destruct (WorkerPool.LeastLoadedAliveExcluding _ _ _) as [[wid addr] ok]. split; [|by intros x Hx [?|[]]].
  cbn. intros ->. destruct H as (w & Hw & _ & [_ Hnt] & _). rewrite (Hwf _ _ Hw) in Hnt.
  split; [intros ->; congruence|]. split; [|done]. apply Hf. by eapply elem_of_dom_2.
Qed.

Lemma dispatch_loop_duty fuel id rec tried :
  tried ⊆ fleet → size (fleet ∖ tried) < fuel →
  Duty (eq id) (dispatch_loop fuel id rec tried) (λ _, True) (unplaced id).
Proof.
  revert tried. induction fuel as [|fuel IH]; intros tried Hsub Hlt; [lia|]. cbn [dispatch_loop].
  eapply duty_bind; [apply pick_duty|]. intros [[wid addr] ok]. cbn [fst snd].
  destruct ok; cbn [negb]; intros Hpick.
  2:{ apply duty_ret; [done|]. intros x Hx. split; [done|]. case_bool_decide; auto. }
  destruct Hpick as (Hne & Hin & Hnt); [done|].
  eapply duty_bind; [by apply Transition_settles, mark_running_tame|]. intros [[committed err] []] _.
  eapply (duty_sub _ _ _ _ _ _ _ none); [by intros x [? ?]|].
  destruct err; [by apply duty_ret|]. destruct committed; cbn [negb]; [|by apply duty_ret].
  quietly sendExecuteTask_still. destruct a as [e|]; [|by apply duty_ret].
  eapply (duty_bind _ _ _ _ _ _ _ _ (λ _, True) (λ _, eq id)).
  - apply Transition_duty; [apply revert_pending_tame|done..].
  - intros _ _. apply IH; [set_solver|]. eapply Nat.lt_le_trans; [|apply Nat.lt_succ_r, Hlt].
    apply subset_size. set_solver.
Qed.

Lemma Dispatch_duty fuel id :
  size fleet < fuel → Duty (eq id) (Dispatch fuel id) (λ _, True) (unplaced id).
Proof.
  intros Hlt. eapply duty_bind; [apply GetJob_duty|]. intros [[r|]|e]; [|intros _|done].
  - intros [Hok _]. destruct (terminal r) eqn:Et.
    { apply duty_ret; [done|]. by intros x [? ?]. }
    case_bool_decide as Hp; [by destruct (ok_payload _ Hok Et)|].
    apply dispatch_loop_duty; [set_solver|]. by rewrite difference_empty_L.
  - apply duty_ret; [done|]. by intros x [? ?].
Qed.

(** ** The drainer *)

Lemma exhaust_dispatch_duty id : Ends (eq id) (exhaust_dispatch cfg id).
Proof. eapply duty_bind; [apply fail_job_duty|]. intros ? _. by apply writes_quiet. Qed.

Lemma sleep_duty d D : Duty D (sleep d) (λ done, done = false) (λ _, D).
Proof.
  apply duty_act. intros o s Ho _ HJ. split; [done|]. split; [by apply Ho|]. by intros x Hx [?|[]].
Qed.

Lemma attempt_loop_duty fuel id n backoff stalled :
  size fleet < fuel → Ends (eq id) (attempt_loop cfg fuel id n backoff stalled).
Proof.
  intros Hlt. revert backoff stalled. induction n as [|n IH]; intros backoff stalled; cbn [attempt_loop].
  { eapply duty_bind; [apply exhaust_dispatch_duty|]. intros ? _. by apply duty_ret. }
  eapply duty_bind; [by apply Dispatch_duty|]. intros [e|] _.
  2:{ apply duty_ret; [done|]. by intros x [_ [?|?]]. }
  destruct (errors_Is e ErrJobAlreadyTerminal) eqn:Et.
  { apply duty_ret; [done|]. by intros x [_ [?|?]]; simplify_eq. }
  eapply (duty_sub _ _ _ _ _ _ _ (eq id)); [by intros x [? _]|].
  destruct (errors_Is e ErrNoWorkersAvailable || errors_Is e ErrAllWorkersExhausted).
  - apply quiet_bind; [destruct stalled; [by apply quiet_ret|by apply writes_quiet]|intros _].
    destruct n as [|n].
    + eapply duty_bind; [apply exhaust_dispatch_duty|]. intros ? _. by apply duty_ret.
    + eapply duty_bind; [apply sleep_duty|]. by intros done ->.
  - eapply duty_bind; [apply fail_job_duty|]. intros ? _. by apply duty_ret.
Qed.

Lemma drain_queue_duty fuel n : size fleet < fuel → Ends none (drain_queue cfg fuel n).
Proof.
  intros Hlt. induction n as [|n IH]; [by intros x Hx|]. cbn [drain_queue].
  eapply duty_bind; [apply queue_recv_duty|]. intros [id|] Hid; [|by destruct Hid].
  eapply duty_bind with (P := λ _, True) (E := λ _, none); [|intros ? _; apply IH].
  eapply duty_bind; [eapply duty_sub; [|by apply attempt_loop_duty]; intros x [= ->]; done|].
  intros stalled _. destruct stalled; [by apply writes_quiet|by apply duty_ret].
Qed.

(** ** Recovery and the reaper *)

Lemma recover_loop_duty jobs : Ends (λ x, x ∈ ID <$> jobs) (recover_loop jobs).
Proof.
  induction jobs as [|j jobs IH]; cbn [recover_loop]; [apply duty_ret; [done|by intros x ?%not_elem_of_nil]|].
  eapply (duty_bind _ _ _ _ _ _ _ _ (λ _, True) (λ res x, x ∈ ID <$> jobs ∨ res.1.2 = None ∧ x = ID j)).
  - assert (∀ x, x ≠ ID j → x ∈ ID <$> j :: jobs → x ∈ ID <$> jobs) as Hrest.
    { cbn. intros x Hne [?|?]%elem_of_cons; done. }
    apply Transition_duty; [apply demote_tame|..]; naive_solver.
  - intros [[b err] c] _. cbn [fst snd]. destruct err as [e|].
    + eapply duty_sub; [|exact IH]. by intros x [?|[? ?]].
    + eapply duty_bind; [apply enqueue_duty|]. intros ? _. eapply duty_sub; [|exact IH].
      by intros x [Hne [?|[_ ?]]].
Qed.

Lemma RecoverUnfinishedJobs_duty : Ends (λ _, True) RecoverUnfinishedJobs.
Proof.
  eapply duty_bind; [apply ListUnfinished_duty|]. intros [jobs err]. cbn. intros ->.
  eapply duty_bind; [apply recover_loop_duty|]. intros ? _. by apply duty_ret.
Qed.

Lemma watchRaftLeadership_duty fuel : Ends none (watchRaftLeadership fuel).
Proof.
  induction fuel as [|fuel IH]; [by intros x Hx|]. cbn [watchRaftLeadership]. quietly @reads_quiet.
  destruct a as [[|]|]; [|exact IH|by apply duty_ret].
  eapply duty_bind; [eapply duty_sub; [|apply RecoverUnfinishedJobs_duty]; done|]. intros ? _. exact IH.
Qed.

Lemma reassign_loop_duty jobs : Ends none (reassign_loop cfg jobs).
Proof.
  induction jobs as [|j jobs IH]; cbn [reassign_loop]; [by apply duty_ret|].
  eapply (duty_bind _ _ _ _ _ _ _ _ (λ _, True)
    (λ res x, res.1 = (true, None) ∧ res.2.1 = true ∧ x = ID j)).
  - apply Transition_duty; [apply reassign_tame| |naive_solver..].
    intros r c' r'. unfold reassign. destruct (negb _); [done|]. destruct (_ <? _)%Z; intros [= <- <-]; naive_solver.
  - intros [[b err] [mp mf]] _. cbn [fst snd].
    destruct err; [by eapply duty_sub; [|exact IH]; intros x [? _]|].
    destruct b; cbn [negb]; [|by eapply duty_sub; [|exact IH]; intros x [? _]].
    eapply duty_bind with (P := λ _, True) (E := λ _, none); [|intros ? _; exact IH].
    destruct mp.
    + eapply duty_weaken; [| | |apply (enqueue_duty (ID j) (eq (ID j)))]; [|done|].
      * by intros x (_ & _ & ->).
      * by intros [] x _ [Hne <-].
    + eapply (duty_sub _ _ _ _ _ _ _ none); [by intros x (_ & ? & _)|].
      destruct mf; [apply notifyTerminal_quiet|by apply duty_ret].
Qed.

Lemma ReassignJobsOf_duty w : Ends none (ReassignJobsOf cfg w).
Proof. quietly @reads_quiet. destruct a as [jobs [e|]]; [by apply duty_ret|]. apply reassign_loop_duty. Qed.

Lemma RunFaultDetector_duty fuel : Ends none (RunFaultDetector cfg fuel).
Proof.
  induction fuel as [|fuel IH]; [by intros x Hx|]. cbn [RunFaultDetector].
  quietly @reads_quiet. destruct a; [by apply duty_ret|]. quietly pool_sweep_quiet.
  apply quiet_bind; [|intros _; apply IH].
  induction a as [|w dead IHd]; [by apply quiet_ret|]. cbn [reap_all].
  apply quiet_bind; [apply ReassignJobsOf_duty|]. intros _. apply IHd.
Qed.

(** ** RPCs *)

Lemma RegisterWorker_duty req : pb.reg_worker_id req ∈ fleet → Quiet none (RegisterWorker cfg req).
Proof.
  intros Hin. unfold RegisterWorker. destruct (_ || _); [by apply quiet_ret|].
  quietly pool_Register_quiet; [done|]. by apply quiet_ret.
Qed.

Lemma Heartbeat_duty req : Quiet none (Heartbeat req).
Proof.
  unfold Heartbeat. destruct (String.eqb _ _); [by apply quiet_ret|].
  quietly pool_RecordHeartbeat_quiet. by apply quiet_ret.
Qed.

Lemma ReportTaskResult_duty req : Ends none (ReportTaskResult req).
Proof.
  unfold ReportTaskResult. destruct (String.eqb _ _); [by apply duty_ret|].
  do 2 (apply quiet_bind; [by apply writes_quiet|intros _]).
  eapply duty_bind; [apply Transition_settles, report_tame|]. intros [[b err] c] _.
  eapply (duty_sub _ _ _ _ _ _ _ none); [by intros x [_ ?]|]. destruct err; [by apply duty_ret|].
  quietly notifyTerminal_quiet. quietly metrics_RecordColdStart_quiet.
  apply quiet_bind; [by apply writes_quiet|intros _]. by apply duty_ret.
Qed.

Lemma InvokeFunction_duty req : Ends none (InvokeFunction cfg req).
Proof.
  unfold InvokeFunction. case_bool_decide; [by apply duty_ret|]. destruct (_ && _); [by apply duty_ret|].
  quietly @reads_quiet. eapply duty_bind; [by apply Submit_duty|]. intros [[id created] err] _.
  destruct err as [e|]; [by destruct created; apply duty_ret|]. destruct created.
  - eapply duty_bind with (P := λ _, True) (E := λ _, none); [|intros ? _; by apply duty_ret].
    eapply duty_bind; [apply enqueue_duty|]. intros ? _.
    eapply (duty_sub _ _ _ _ _ _ _ none); [by intros x [Hne [?|?]]|]. by apply writes_quiet.
  - apply quiet_bind; [by apply quiet_ret|intros _]. by apply duty_ret.
Qed.

Lemma GetJobStatus_duty id : Quiet none (GetJobStatus id).
Proof.
  unfold GetJobStatus. destruct (String.eqb _ _); [by apply quiet_ret|]. quietly @reads_quiet.
  destruct a as [[r|]|e]; [|by apply quiet_ret..]. quietly @reads_quiet.
  destruct (terminal r); [|by apply quiet_ret]. quietly results_Get_quiet.
  destruct a0. by apply quiet_ret.
Qed.

Lemma MetricsSnapshot_duty : Quiet none MetricsSnapshot_.
Proof. quietly metrics_snapshot_quiet. do 7 quietly @reads_quiet. by apply quiet_ret. Qed.

Lemma QueueDepth_duty : Quiet none QueueDepth.
Proof. do 2 quietly @reads_quiet. by apply quiet_ret. Qed.

(** ** Watching *)

Lemma send_all_quiet evs sent : Quiet none (send_all evs sent).
Proof.
  revert sent. induction evs as [|ev evs IH]; intros sent; cbn [send_all]; [by apply quiet_ret|].
  quietly @reads_quiet. destruct a; [by apply quiet_ret|apply IH].
Qed.

Lemma send_last_quiet ev sent : Quiet none (send_last ev sent).
Proof. quietly @reads_quiet. destruct a; by apply quiet_ret. Qed.

Lemma forward_quiet ev sent (next : list pb.JobEvent → prog (sys A) (oracle A) _) :
  (∀ sent', Quiet none (next sent')) →
  Quiet none (err ← stream_Send ev;
    match err with
    | Some e => mret (sent, WatchSendError e)
    | None => if pb.isResult ev then mret (sent ++ [ev], WatchResult) else next (sent ++ [ev])
    end).
Proof.
  intros Hn. quietly @reads_quiet. destruct a; [by apply quiet_ret|].
  destruct (pb.isResult ev); [by apply quiet_ret|apply Hn].
Qed.

Lemma drain_mailbox_quiet fuel sub r sent : Quiet none (drain_mailbox fuel sub r sent).
Proof.
  revert sent. induction fuel as [|fuel IH]; intros sent; cbn [drain_mailbox]; [by intros x Hx|].
  quietly hub_try_recv_quiet. destruct a; [by apply forward_quiet|apply send_last_quiet].
Qed.

Lemma watch_select_quiet sub : Quiet none (watch_select sub).
Proof.
  apply quiet_act. intros o s _ _ HJ. destruct (o_select o) as [|[|n]]; [done| |done].
  destruct (LogHub.recv sub (logHub s)) as [[ev|] h]; [|by right; intros x Hx].
  split; [done|]. intros x. by apply same_waiting.
Qed.

Lemma watch_loop_quiet fuel id sub last sent : Quiet none (watch_loop fuel id sub last sent).
Proof.
  revert last sent. induction fuel as [|fuel IH]; intros last sent; cbn [watch_loop]; [by intros x Hx|].
  quietly @reads_quiet.
  destruct a as [[r|]|e]; [destruct (terminal r); [apply drain_mailbox_quiet|destruct (negb _);
    [quietly @reads_quiet; destruct a; [by apply quiet_ret|]|]]|..];
    (quietly watch_select_quiet; destruct a; [by apply quiet_ret|by apply forward_quiet|apply IH]).
Qed.

Lemma WatchJob_duty fuel id : Quiet none (WatchJob fuel id).
Proof.
  unfold WatchJob. destruct (String.eqb _ _); [by apply quiet_ret|]. quietly @reads_quiet.
  destruct a as [[r|]|e]; [|by apply quiet_ret..]. quietly hub_Subscribe_quiet.
  destruct a as [[sub replay] term]. apply quiet_bind.
  - quietly send_all_quiet. destruct a as [sent [e|]]; [by apply quiet_ret|].
    destruct term; [apply send_last_quiet|apply watch_loop_quiet].
  - intros res. apply quiet_bind; [by apply writes_quiet|intros _]. by apply quiet_ret.
Qed.

Lemma StreamTaskLogs_duty chunks last : Quiet none (StreamTaskLogs chunks last).
Proof.
  induction chunks as [|c chunks IH]; cbn [StreamTaskLogs].
  { destruct last; [by apply quiet_ret|]. quietly @reads_quiet. by apply quiet_ret. }
  apply quiet_bind; [by apply writes_quiet|intros []].
  destruct (_ || _); [done|]. quietly @reads_quiet. destruct a as [[r|]|e]; [|done..].
  destruct (terminal r); [done|]. apply quiet_bind; [by apply writes_quiet|]. done.
Qed.

(** ** The server *)

(** All requests but a shutdown; workers of the fleet, and drainers that can try
    them all. *)
Definition in_service (req : Req) : Prop :=
  match req with
  | RShutdown => False
  | RRegister r => pb.reg_worker_id r ∈ fleet
  | RDrainer fuel => size fleet < fuel
  | _ => True
  end.

Lemma handle_dutiful req : in_service req → Dutiful none (handle cfg req).
Proof.
  assert (∀ B (p : prog (sys A) (oracle A) B) (f : B → Reply),
    Ends none p → Dutiful none (r ← p; mret (f r))) as Hret.
  { intros B p f Hp. eapply duty_bind; [exact Hp|]. intros ? _. by apply duty_ret. }
  destruct req; cbn [handle in_service]; intros Hreq; try apply Hret.
  - apply InvokeFunction_duty.
  - apply GetJobStatus_duty.
  - apply quiet_bind; [by apply writes_quiet|intros ?]. apply Hret, ReportTaskResult_duty.
  - by apply RegisterWorker_duty.
  - apply Heartbeat_duty.
  - apply WatchJob_duty.
  - apply StreamTaskLogs_duty.
  - apply MetricsSnapshot_duty.
  - apply QueueDepth_duty.
  - by apply drain_queue_duty.
  - apply RunFaultDetector_duty.
  - apply watchRaftLeadership_duty.
  - apply reads_quiet.
  - eapply duty_sub; [|apply RecoverUnfinishedJobs_duty]. done.
  - done.
  - by apply writes_quiet.
Qed.

Lemma recover_dutiful : Dutiful (λ _, True) (handle cfg RRecover).
Proof. eapply duty_bind; [apply RecoverUnfinishedJobs_duty|]. intros ? _. by apply duty_ret. Qed.

(** A process that starts on the store [st] with the recovery and serves; when it
    crashes another one starts on the store it left. *)
Definition lives (now : Z) (st : store) (c : config (sys A) (oracle A) Req Reply) : Prop :=
  rtc (life working (orchestrator cfg) in_service RRecover)
    (booted (orchestrator cfg) RRecover (NewServerWithStore now cfg st)) c.

(** The thread settles the job: on every path of its own steps, whatever the others do
    in between, the job gets onto the queue or leaves PENDING before the thread ends. *)
Definition answers_for (id : string) (p : prog (sys A) (oracle A) Reply) : Prop :=
  owes Inv serving working queue_full waiting id p.

Lemma life_steps c c' :
  life working (orchestrator cfg) in_service RRecover c c' → rtc (cstep (orchestrator cfg)) c c'.
Proof.
  intros H. destruct H as [req s ts rs Hreq|i req p p' o s s' ts rs Hi Ho Hadv|i req r s ts rs Hi|o s ts rs].
  - apply rtc_once. constructor.
  - apply rtc_once. eapply step_act; [done|apply Ho|done].
  - apply rtc_once. by eapply step_reply.
  - eapply rtc_l; [apply (step_crash _ o)|]. apply rtc_once.
    apply (step_start (orchestrator cfg) RRecover _ []).
Qed.

Lemma lives_attended now st c :
  good contract st → store_ok (view contract st) → lives now st c →
  Inv (c_state c) ∧ attended Inv serving working queue_full waiting c.
Proof.
  intros Hg Hok Hlives. unfold lives in Hlives.
  set (s := NewServerWithStore now cfg st) in *.
  assert (Inv s) as HI by by apply start_Inv.
  assert (serving s) as HJ by (split; [done|]; set_solver).
  assert (∀ c', rtc (life working (orchestrator cfg) in_service RRecover)
    (booted (orchestrator cfg) RRecover s) c' → Inv (c_state c')) as Hinv.
  { intros c' Hc'. apply (reachable_ok cfg s); [done|]. eapply rtc_l; [apply (step_start _ RRecover)|].
    clear Hlives. revert Hc'. unfold booted. cbn [app]. generalize (mkConfig s [(RRecover, handler (orchestrator cfg) RRecover)] []).
    intros c0 Hc'. induction Hc'; [done|]. etrans; [by apply life_steps|done]. }
  split; [by apply Hinv|]. revert c Hlives. apply rtc_ind_r.
  - apply attended_boot; [|done]. apply recover_dutiful.
  - intros c c' Hc Hstep IH. eapply (attended_step _ _ _ _ _ (orchestrator cfg) in_service RRecover).
    + apply handle_dutiful.
    + apply recover_dutiful.
    + intros o s'. split; [done|]. set_solver.
    + by apply Hinv.
    + exact IH.
    + exact Hstep.
Qed.


End liveness.

(** ** An execution *)

Module Recovering.
Import Examples.

(** The store has room for the keys, and the times can be written. *)
Definition key_fits (k : string) : bool := gmap_fits k tt.

Definition writable (p : string * JobRecord) : bool :=
  key_fits p.1 && time_marshals (CreatedAt p.2)
    && (String.eqb (IdempotencyKey p.2) "" || key_fits (IdempotencyKey p.2)).

Definition workable (o : oracle bolt_api) (s : sys bolt_api) : Prop :=
  fresh_uuid o s ∧ o_done o = false ∧ begin_err (o_store o).1 = None ∧ commit_err (o_store o).1 = None ∧
  time_marshals (o_store o).2 = true ∧ forallb writable (map_to_list (a_jobs (astate s))) = true.

Lemma workable_writable o s id r r' :
  workable o s → a_jobs (astate s) !! id = Some r → CreatedAt r' = CreatedAt r →
  IdempotencyKey r' = IdempotencyKey r → ¬ unwritable contract (o_store o) id r'.
Proof.
  intros (_ & _ & _ & _ & Ht & Hall) Hr Hcr Ekey. rewrite forallb_forall in Hall.
  specialize (Hall (id, r)). apply elem_of_map_to_list, list_elem_of_In in Hr.
  specialize (Hall Hr). unfold writable in Hall. cbn [fst snd] in Hall.
  apply andb_true_iff in Hall as [[Hid Hcreated]%andb_true_iff Hkey].
  cbn. unfold BoltStore.unwritable, Marshal.
  assert (time_marshals (CreatedAt (stamp (o_store o).2 r')) && time_marshals (UpdatedAt (stamp (o_store o).2 r')) = true)
    as ->.
  { unfold stamp. cbn [set_UpdatedAt CreatedAt UpdatedAt]. rewrite Hcr.
    destruct (time_IsZero (CreatedAt r)); cbn; by rewrite Ht, ?Hcr, ?Hcreated. }
  assert (∀ V k (v : V), bFits k v = key_fits k) as Hfits by done. rewrite !Hfits, Ekey, Hid.
  intros [?|[Hne Hf]]; [done|]. apply orb_true_iff in Hkey as [Hk%String.eqb_eq|Hk]; [done|]. congruence.
Qed.

Lemma workable_working o s : workable o s → working o s.
Proof.
  intros Hw. pose proof Hw as (Hu & Hd & Hb & Hc & _). split; [done|done| |].
  - intros [?|?]; done.
  - intros id r r' Hr He Hcr. eapply workable_writable; [done..|]. by apply He.
Qed.

(** The orchestrator in an environment that is known to work. *)
Definition works : server (sys bolt_api) (oracle bolt_api) Req Reply :=
  mkServer _ _ _ _ (handle cfg0) workable (restart (orchestrator cfg0)).

#[export] Instance workable_dec o s : Decision (workable o s).
Proof. unfold workable, fresh_uuid. apply _. Defined.

#[export] Instance works_dec o s : Decision (allowed works o s).
Proof. apply workable_dec. Defined.

(** The process starts on a store with a job that was running when the last process
    died; the recovery has listed it and made it PENDING. *)
Definition demoting : list (move (oracle bolt_api) Req) := steps 0 2 (env 3000 "u" 0).

Definition boot_config : conf := booted (orchestrator cfg0) RRecover restarted.

Definition demoted_job : JobRecord :=
  mkJob "job-1" StatusPending "" "f" [Byte.x80] [] [] 0 0 "k" 1000 3000 0 "" 0.

Definition demoting_end (c : conf) : option JobRecord * list string * list Req :=
  (a_jobs (astate (c_state c)) !! "job-1", pendingQueue (c_state c), (c_threads c).*1).

Lemma demoting_reached :
  ∃ c : conf, lives cfg0 {["w"]} 3000 old_store c ∧
    demoting_end c = (Some demoted_job, [], [RRecover]).
Proof.
  assert (demoting_end <$> play works demoting boot_config = Some (Some demoted_job, [], [RRecover])) as H
    by (vm_compute; reflexivity).
  apply fmap_Some in H as (c & E & ->). exists c. split; [|done].
  eapply (play_life _ _ _ _ works); [done|apply workable_working| |exact E].
  by repeat constructor.
Qed.

Lemma old_store_ok : store_ok (view contract old_store).
Proof.
  split.
  - intros id r Hr%elem_of_map_to_list.
    change (view contract old_store) with (astate restarted) in Hr. rewrite old_view in Hr.
    apply list_elem_of_singleton in Hr as [= -> ->]. split; cbn; [by right; left|done..].
  - intros key id. change (a_idem (view contract old_store)) with (a_idem (astate restarted)).
    intros Hk%elem_of_map_to_list.
    replace (map_to_list (a_idem (astate restarted))) with [("k", "job-1")] in Hk by (vm_compute; reflexivity).
    apply list_elem_of_singleton in Hk as [= -> ->]. exists (old_job 2000). split; [|done].
    apply elem_of_map_to_list. change (view contract old_store) with (astate restarted). rewrite old_view. by left.
Qed.


(** A drainer that waits for work answers for nothing. *)
Lemma idle_drainer_owes_nothing fuel id :
  ¬ answers_for {["w"]} id (handle (A := bolt_api) cfg0 (RDrainer (S fuel))).
Proof.
  intros Howes. specialize (Howes (env 0 "u" 0) (NewServerWithStore 0 cfg0 (BoltStore.empty_store : store))).
  cbn in Howes. unfold queue_full in Howes. cbn in Howes. unfold pendingQueueSize in Howes.
  enough (10000 ≤ 0)%Z by lia. apply Howes.
  - apply workable_working. apply (bool_decide_eq_true_1 (workable _ _)). vm_compute. reflexivity.
  - apply start_Inv; [exact start_good|exact start_ok].
  - split; [done|]. vm_compute. set_solver.
Qed.

End Recovering.
