(* ===== verification/Progress.v ===== *)
(** * What the background loops achieve

    The queue drainer that runs alone with workers that accept places every job of
    the queue and then waits for more; the startup recovery of a store with more
    unfinished jobs than the queue holds never ends.  Both end in a wait, so the
    total correctness of Prog.v is extended with what holds where the program
    blocks. *)

From stdpp Require Import strings gmap sorting prelude.
From S2P Require Import Prelude Types Prog Json Bolt Config StoreSpec JobStore WorkerPool Lru LogHub Metrics.
From S2P Require Import State Scheduler Watch Server Invariant Safety Sequential Duty System Liveness.

#[local] Arguments wp : simpl never.

(** ** Programs that may end in a wait *)

(** As [wp], but the program may also come to wait, in a state that satisfies [W]. *)
Fixpoint wpw {S O A} (ok : O → S → Prop) (p : prog S O A) (s : S) (Q : A → S → Prop)
    (W : S → Prop) : Prop :=
  match p with
  | Ret a => Q a s
  | Act B step k =>
      ∀ o, ok o s →
        match step o s with Next b s' => wpw ok (k b) s' Q W | Block => W s | Panic => False end
  | Spin => False
  end.

Section wpw.
Context {S O : Type} (ok : O → S → Prop).

Lemma wpw_bind {A B} (p : prog S O A) (f : A → prog S O B) s Q W :
  wpw ok p s (λ a s', wpw ok (f a) s' Q W) W → wpw ok (p ≫= f) s Q W.
Proof.
  revert s. induction p as [a|C step k IH|]; intros s; cbn; [done| |done].
  intros H o Ho. specialize (H o Ho). destruct (step o s); auto.
Qed.

Lemma wpw_mono {A} (p : prog S O A) s (Q Q' : A → S → Prop) (W W' : S → Prop) :
  (∀ a s', Q a s' → Q' a s') → (∀ s', W s' → W' s') → wpw ok p s Q W → wpw ok p s Q' W'.
Proof.
  intros HQ HW. revert s. induction p as [a|B step k IH|]; intros s; cbn; [by auto| |done].
  intros H o Ho. specialize (H o Ho). destruct (step o s); auto.
Qed.

Lemma wp_wpw {A} (p : prog S O A) s (Q : A → S → Prop) W : wp ok p s Q → wpw ok p s Q W.
Proof.
  revert s. induction p as [a|B step k IH|]; intros s; cbn; [done| |done].
  intros H o Ho. specialize (H o Ho). destruct (step o s); [by apply IH|done|done].
Qed.

(** A program that cannot return ends in a wait. *)
Lemma wpw_blocks {A} (p : prog S O A) s W os :
  within ok os p s → wpw ok p s (λ _ _, False) W → ∃ s', run os p s = Blocked s' ∧ W s'.
Proof.
  revert s os. induction p as [a|B step k IH|]; intros s os; cbn; [done| |done].
  intros [Hok Hin] H. specialize (H (os 0) Hok). destruct (step (os 0) s); [by apply IH|by eauto|done].
Qed.

(** One step in a state where the environment is known to be within [ok']. *)
Lemma wp_act_ok {B} (step : O → S → outcome S B) (ok' : O → S → Prop) s Q :
  (∀ o, ok' o s → ok o s) → wp ok (act step) s Q → wp ok' (act step) s Q.
Proof. intros Hok H o Ho. by apply H, Hok. Qed.

(** What the rely-guarantee specification of a program says of the program alone. *)
Lemma spec_wp {A} (I : S → Prop) (G : S → S → Prop) ok' P (p : prog S O A) Q R s :
  (∀ o s, ok o s → ok' o s) → spec I G ok' P p R → I s → P s →
  wp ok p s Q → wp ok p s (λ a s', Q a s' ∧ I s' ∧ R a s').
Proof.
  intros Hok. revert s P. induction p as [a|B step k IH|]; intros s P; cbn [spec].
  - intros HR HI HP HQ. split; [done|]. split; [done|by apply HR].
  - intros (T & _ & Hstep & Hk) HI HP H o Ho. specialize (H o Ho).
    specialize (Hstep o s (Hok _ _ Ho) HI HP). destruct (step o s); [|done..].
    destruct Hstep as (? & _ & ?). by eapply IH.
  - done.
Qed.

End wpw.

Lemma wpw_zoom {S O S' O' A} (get : S' → S) (set : S → S' → S') (proj : O' → O)
    (ok : O → S → Prop) (p : prog S O A) s (Q : A → S' → Prop) (W : S' → Prop) :
  (∀ x s, get (set x s) = x) → (∀ x y s, set x (set y s) = set x s) → (∀ s, set (get s) s = s) →
  wpw ok p (get s) (λ a x, Q a (set x s)) (λ x, W (set x s)) →
  wpw (λ o s, ok (proj o) (get s)) (zoom get set proj p) s Q W.
Proof.
  intros Hgs Hss Hsg. revert s. induction p as [a|B step k IH|]; intros s; cbn; [by rewrite Hsg| |done].
  intros H o Ho. specialize (H (proj o) Ho). destruct (step (proj o) (get s)) as [b x| |]; [|by rewrite Hsg in H|done].
  apply IH. rewrite Hgs. eapply wpw_mono; [| |exact H]; intros; by rewrite Hss.
Qed.

Section progress.
Context {A : StoreAPI} {OK : StoreOk A}.
Variable cfg : Config.
Implicit Types (s : sys A) (o : oracle A).

(** ** The drainer *)

(** The environment works, connections can be made, and workers accept. *)
Record accepting o s : Prop := {
  acc_working : working o s;
  acc_dial : o_dial o = None;
  acc_rpc : ∃ reason, o_rpc o = Ok (pb.mkExecuteResponse true reason);
}.

Definition worker_alive (p : WorkerPool.t) (wid : string) : Prop :=
  ∃ w, WorkerPool.workers p !! wid = Some w ∧ WorkerPool.alive w = true.

(** The scheduler is open and there is somebody to work. *)
Record staffed s : Prop := {
  stf_inv : Inv s;
  stf_open : is_Some (channels s);
  stf_worker : ∃ wid, worker_alive (workerPool s) wid;
}.

(** The job is finished, or it is RUNNING on a live worker and its task was sent. *)
Definition placed s (id : string) : Prop :=
  ∃ r, a_jobs (astate s) !! id = Some r ∧
    (terminal r = true ∨
     Status r = StatusRunning ∧ worker_alive (workerPool s) (WorkerID r) ∧
     ∃ conn req, (conn, req) ∈ sentTasks s ∧ pb.ex_job_id req = id).

(** What the dispatch of [id] leaves alone. *)
Record others_kept (id : string) s s' : Prop := {
  kept_jobs : ∀ x, x ≠ id → a_jobs (astate s') !! x = a_jobs (astate s) !! x;
  kept_pool : workerPool s' = workerPool s;
  kept_queue : pendingQueue s' = pendingQueue s;
  kept_open : is_Some (channels s) → is_Some (channels s');
  kept_sent : ∃ ts, sentTasks s' = sentTasks s ++ ts;
}.

Lemma others_kept_refl id s : others_kept id s s.
Proof. split; try done. exists []. by rewrite app_nil_r. Qed.

Lemma placed_kept id s s' x : others_kept id s s' → x ≠ id → placed s x → placed s' x.
Proof.
  intros [Hj Hp _ _ (ts & Hs)] Hne (r & Hr & Hcase). exists r. split; [by rewrite Hj|].
  destruct Hcase as [?|(Hst & Hw & conn & req & Hin & Hid)]; [by left|]. right. rewrite Hp, Hs.
  split; [done|]. split; [done|]. exists conn, req. split; [|done]. apply elem_of_app. by left.
Qed.

Lemma working_calm {C} (m : mutator C) o s : tame m → Inv s → working o s → calm m o s.
Proof.
  intros [[_ Hm] Hcr _] HI Ho. split; [apply Ho|]. intros id r c c' r' Hr Hmut.
  eapply (work_writes _ _ Ho); [done| |by eapply Hcr]. eapply Hm; [|done].
  by apply (jobs_ok _ (inv_store _ HI) id).
Qed.

Lemma accepting_fresh o s : accepting o s → fresh_uuid o s.
Proof. intros Ho. apply Ho. Qed.

Lemma sendExecuteTask_accepted wid addr rec s :
  is_Some (channels s) →
  wp accepting (sendExecuteTask wid addr rec) s (λ e s',
    e = None ∧ jobStore s' = jobStore s ∧ workerPool s' = workerPool s ∧
    pendingQueue s' = pendingQueue s ∧ is_Some (channels s') ∧
    ∃ conn, sentTasks s' = sentTasks s ++ [(conn, task_of rec)]).
Proof.
  intros [m Hm]. apply wp_bind, wp_writes. intros o Ho. rewrite Hm.
  assert (∀ conn s1, jobStore s1 = jobStore s → workerPool s1 = workerPool s →
    pendingQueue s1 = pendingQueue s → is_Some (channels s1) → sentTasks s1 = sentTasks s →
    wp accepting (resp ← rpc_ExecuteTask conn (task_of rec);
      match resp with
      | Err e => _ ← dropChannel wid; mret (Some e)
      | Ok resp => if negb (pb.accepted resp)
                   then mret (Some (errorString ("worker rejected: " +:+ pb.rejection_reason resp)))
                   else mret None
      end) s1 (λ e s',
    e = None ∧ jobStore s' = jobStore s ∧ workerPool s' = workerPool s ∧
    pendingQueue s' = pendingQueue s ∧ is_Some (channels s') ∧
    ∃ conn, sentTasks s' = sentTasks s ++ [(conn, task_of rec)])) as Hrpc.
  { intros conn s1 E1 E2 E3 E4 E5. apply wp_bind, wp_writes. intros o1 Ho1. cbn [fst snd].
    destruct (acc_rpc _ _ Ho1) as [reason ->]. apply wp_ret. cbn. rewrite E5. eauto 10. }
  destruct (m !! wid); [by apply Hrpc|]. rewrite (acc_dial _ _ Ho). by apply Hrpc.
Qed.

Lemma Dispatch_accepted fuel id s :
  staffed s → is_Some (a_jobs (astate s) !! id) →
  wp accepting (Dispatch (S fuel) id) s (λ e s',
    (e = None ∨ e = Some ErrJobAlreadyTerminal) ∧ others_kept id s s' ∧ placed s' id).
Proof.
  intros [HI Hopen [k [w0 [Hw0 Ha0]]]] [r Hr]. destruct (inv_pool _ HI) as [Hwf Hno].
  pose proof (jobs_ok _ (inv_store _ HI) _ _ Hr) as Hok.
  apply wp_bind, wp_reads. intros o Ho.
  destruct (GetJob_ok (o_store o) id _ (inv_good _ HI)) as [|e Hf];
    [|by destruct (work_store _ _ (acc_working _ _ Ho))].
  fold (astate s). rewrite Hr. destruct (terminal r) eqn:Et.
  { apply wp_ret. split; [by right|]. split; [apply others_kept_refl|]. exists r. auto. }
  case_bool_decide as Hp; [by destruct (ok_payload _ Hok Et)|]. cbn [dispatch_loop].
  apply wp_bind, wp_reads. intros o1 _.
  pose proof (WorkerPool.LeastLoaded_spec (o_ord o1) ∅ _ Hwf) as Hpick.
  destruct (WorkerPool.LeastLoadedAliveExcluding _ _ _) as [[wid addr] [|]]; cbn [negb].
  2:{ destruct (Hpick k w0 Hw0). split; [done|set_solver]. }
  destruct Hpick as (w & Hw & _ & [Halive _] & _).
  assert (wid ≠ "") as Hne by (intros ->; congruence).
  apply wp_bind. unfold store_Transition, writes. eapply wp_act_ok.
  { intros o2 Ho2. eapply (working_calm (mark_running wid)); [by apply mark_running_tame|done|apply Ho2]. }
  eapply (Transition_wp id (mark_running wid) tt s r tt); [by apply mark_running_ok|apply HI|done| |].
  { unfold mark_running. by rewrite Et. }
  intros r'' st Hg Hout Hv. cbn [negb]. apply wp_bind.
  eapply wp_mono; [|apply sendExecuteTask_accepted; exact Hopen].
  intros e s' (-> & E1 & E2 & E3 & E4 & conn & E5). apply wp_ret. split; [by left|].
  assert (astate s' = a_put id r'' (astate s)) as Ea by (unfold astate; rewrite E1; exact Hv).
  split; [split|].
  - intros x Hx. rewrite Ea. cbn. by rewrite lookup_insert_ne.
  - done.
  - done.
  - done.
  - eauto.
  - apply outcome_fields in Hout as (_ & Est & Ewid & _). exists r''. rewrite Ea. cbn.
    rewrite lookup_insert_eq. split; [done|]. right. rewrite Est, Ewid, E2, E5. cbn.
    split; [done|]. split; [by exists w|]. exists conn, (task_of r).
    split; [apply elem_of_app; right; by left|]. cbn. by apply (good_wf _ (inv_good _ HI)).
Qed.

Lemma attempts_positive : ∃ n, Z.to_nat (max_attempts cfg) = S n.
Proof.
  unfold max_attempts. destruct (Z.ltb_spec (MaxDispatchAttempts cfg) 1); [by exists 29|].
  exists (Z.to_nat (MaxDispatchAttempts cfg - 1)). lia.
Qed.

Lemma attemptDispatch_accepted fuel id s :
  staffed s → is_Some (a_jobs (astate s) !! id) →
  wp accepting (attemptDispatch cfg (S fuel) id) s (λ _ s',
    staffed s' ∧ others_kept id s s' ∧ placed s' id).
Proof.
  intros Hst Hid.
  assert (wp accepting (attemptDispatch cfg (S fuel) id) s (λ _ s', others_kept id s s' ∧ placed s' id)) as Hwp.
  { apply wp_bind. destruct attempts_positive as [n ->]. cbn [attempt_loop]. apply wp_bind.
    eapply wp_mono; [|by apply Dispatch_accepted]. by intros e s' ([->| ->] & ? & ?). }
  eapply wp_mono; [|eapply (spec_wp accepting Inv Guar fresh_uuid (λ _, True));
    [apply accepting_fresh|apply attemptDispatch_spec|apply Hst|done|exact Hwp]].
  intros [] s' ([Hk Hp] & HI & _). split; [|done]. split; [done|by apply Hk, Hst|].
  destruct Hst as [_ _ (wid & Hw)]. exists wid. by rewrite (kept_pool _ _ _ Hk).
Qed.

(** What the drainer has done between two states. *)
Record drained s s' : Prop := {
  dr_pool : workerPool s' = workerPool s;
  dr_sent : ∃ ts, sentTasks s' = sentTasks s ++ ts;
  dr_others : ∀ x, x ∉ pendingQueue s → a_jobs (astate s') !! x = a_jobs (astate s) !! x;
  dr_placed : ∀ x, x ∈ pendingQueue s → placed s' x;
}.

Lemma drained_cons id q s s1 s' :
  pendingQueue s = id :: q → others_kept id (set_pendingQueue q s) s1 → placed s1 id →
  drained s1 s' → drained s s'.
Proof.
  intros Eq [Hj Hp Eq1 _ (ts & Ht)] Hid [Hp' (ts' & Ht') Ho Hpl].
  cbn in Hp, Eq1, Ht. split.
  - congruence.
  - exists (ts ++ ts'). by rewrite Ht', Ht, app_assoc.
  - intros x Hx. rewrite Eq in Hx. apply not_elem_of_cons in Hx as [Hne Hx].
    rewrite Ho by (by rewrite Eq1). by apply Hj.
  - intros x Hx. destruct (decide (x ∈ q)); [apply Hpl; by rewrite Eq1|].
    rewrite Eq in Hx. apply elem_of_cons in Hx as [->|?]; [|done].
    destruct Hid as (r & Hr & Hcase). exists r. rewrite Ho by (by rewrite Eq1). split; [done|].
    destruct Hcase as [?|(Hst & Hw & conn & req & Hin & E)]; [by left|]. right. rewrite Hp', Ht'.
    split; [done|]. split; [done|]. exists conn, req. split; [|done]. apply elem_of_app. by left.
Qed.

Lemma staffed_pop id q s : pendingQueue s = id :: q → staffed s → staffed (set_pendingQueue q s).
Proof.
  intros Eq [HI Hopen Hw]. split; [|done|done]. destruct HI. split; try done; cbn.
  - intros x Hx. apply inv_queue. rewrite Eq. by right.
  - rewrite Eq in inv_room. cbn in inv_room. lia.
Qed.

Lemma drain_queue_places fuel n s :
  staffed s → length (pendingQueue s) < n →
  wpw accepting (drain_queue cfg (S fuel) n) s (λ _ _, False)
    (λ s', pendingQueue s' = [] ∧ drained s s').
Proof.
  revert s. induction n as [|n IH]; intros s Hst Hlen; [lia|]. cbn [drain_queue].
  intros o Ho. rewrite (work_ctx _ _ (acc_working _ _ Ho)).
  destruct (pendingQueue s) as [|id q] eqn:Eq; cbn [mbind prog_bind].
  { split; [done|]. split; [done|by exists []; rewrite app_nil_r|done|].
    intros x Hx. rewrite Eq in Hx. by apply not_elem_of_nil in Hx. }
  set (s1 := set_pendingQueue q s). pose proof (staffed_pop _ _ _ Eq Hst) as Hst1. fold s1 in Hst1.
  assert (is_Some (a_jobs (astate s1) !! id)) as Hid.
  { apply (inv_queue _ (stf_inv _ Hst)). rewrite Eq. by left. }
  apply wpw_bind, wp_wpw. eapply wp_mono; [|by apply attemptDispatch_accepted].
  intros [] s2 (Hst2 & Hk & Hpl). pose proof (kept_queue _ _ _ Hk) as Eq2. cbn in Eq2.
  eapply wpw_mono; [| |apply IH]; [done| |done|rewrite Eq2; cbn in Hlen; lia].
  intros s' [Hempty Hdr]. split; [done|]. by eapply drained_cons.
Qed.


(** ** Recovery that does not fit *)

(** Putting a job on the queue waits when the queue is full. *)
Lemma enqueue_waits ok id s (Q : unit → sys A → Prop) (W : sys A → Prop) :
  shuttingDown s = false → (queue_full s → W s) →
  (¬ queue_full s → Q tt (set_pendingQueue (pendingQueue s ++ [id]) s)) →
  wpw ok (enqueue id) s Q W.
Proof.
  intros Hd HW HQ o _. cbn. rewrite Hd. intros o' _. cbn.
  destruct (Z.ltb_spec (Z.of_nat (length (pendingQueue s))) pendingQueueSize) as [Hlt|];
    [|by apply HW]. apply HQ. unfold queue_full. lia.
Qed.

Lemma recover_loop_overfull jobs s :
  good contract (jobStore s) → pending_pass jobs s → shuttingDown s = false →
  (pendingQueueSize < Z.of_nat (length (pendingQueue s) + length jobs))%Z →
  (Z.of_nat (length (pendingQueue s)) ≤ pendingQueueSize)%Z →
  wpw (calm demote) (recover_loop jobs) s (λ _ _, False) queue_full.
Proof.
  revert s. induction jobs as [|j jobs IH]; intros s Hg Hpp Hd Hover Hroom; cbn [recover_loop]; [cbn in *; lia|].
  assert (a_jobs (astate s) !! ID j = Some j) as Hj by (apply Hpp; by left).
  assert (demote tt j = (tt, Ok (demoted j))) as Hm.
  { unfold demote, demoted. by destruct (String.eqb _ _). }
  apply wpw_bind, wp_wpw. eapply Transition_wp; [apply demote_ok|done|done|exact Hm|].
  intros r'' st Hgst Hout Hv. apply wpw_bind.
  apply enqueue_waits; [done|done|]. unfold queue_full. cbn. intros Hnot. set (s1 := set_pendingQueue _ _).
  assert (astate s1 = a_put (ID j) r'' (astate s)) as Ea by exact Hv.
  apply (IH s1); [done|by apply (pending_pass_cons j jobs s s1 r'' Hpp Ea)|done|..];
    cbn; rewrite length_app; cbn in *; lia.
Qed.

(** A listing holds all the jobs of the kind listed. *)
Lemma listing_length (e : senv) keep s out :
  good contract (jobStore s) → list_spec contract e keep (jobStore s) (out, None) →
  size (filter (λ p : string * JobRecord, keep p.2 = true) (a_jobs (astate s))) ≤ length out.
Proof.
  intros Hg Hl. destruct (listing_pass _ _ _ _ Hl) as (_ & _ & _ & Hall).
  rewrite <- length_map_to_list, <- (length_fmap (λ j, (ID j, j)) out).
  apply submseteq_length, NoDup_submseteq; [apply NoDup_map_to_list|].
  intros [id r] [Hr Hk]%elem_of_map_to_list%map_lookup_filter_Some.
  destruct (Hall id r Hg Hr Hk) as [Hin <-]. by apply (list_elem_of_fmap_2 (λ j, (ID j, j))).
Qed.

Lemma RecoverUnfinishedJobs_overfull s :
  good contract (jobStore s) → shuttingDown s = false →
  (Z.of_nat (length (pendingQueue s)) ≤ pendingQueueSize <
   Z.of_nat (length (pendingQueue s) +
     size (filter (λ p : string * JobRecord, unfinished p.2 = true) (a_jobs (astate s)))))%Z →
  wpw (calm demote) RecoverUnfinishedJobs s (λ _ _, False) queue_full.
Proof.
  intros Hg Hd [Hroom Hover].
  apply wpw_bind. intros o [Hnf _]. cbn.
  pose proof (ListUnfinished_ok (o_store o) _ Hg) as Hl.
  destruct (ListUnfinished _ _) as [out [e|]]; [by inversion Hl|].
  destruct (listing_pass _ _ _ _ Hl) as (Hpp & _ & _ & _).
  apply wpw_bind. eapply wpw_mono; [| |apply recover_loop_overfull]; [done|done|done|done|done| |done].
  eapply Z.lt_le_trans; [exact Hover|]. apply Nat2Z.inj_le, Nat.add_le_mono_l.
  by eapply listing_length.
Qed.

End progress.

(** ** Examples *)

Module Loops.
Import Examples Recovering.

(** A worker that is alive, and the job of the old store on the queue. *)
Definition busy : sys bolt_api :=
  set_pendingQueue ["job-1"]
    (set_workerPool (WorkerPool.Register 3000 3000 "w" "host:1" 2 (workerPool restarted)) restarted).

Definition accepts (o : oracle bolt_api) (s : sys bolt_api) : Prop :=
  workable o s ∧ o_dial o = None ∧ match o_rpc o with Ok r => pb.accepted r = true | Err _ => False end.

#[export] Instance accepts_dec o s : Decision (accepts o s).
Proof. unfold accepts. destruct (o_rpc o); apply _. Defined.

Lemma accepts_accepting o s : accepts o s → accepting o s.
Proof.
  intros (Hw & Hd & Hr). split; [by apply workable_working|done|].
  destruct (o_rpc o) as [[ok reason]|]; [|done]. cbn in Hr. subst ok. by exists reason.
Qed.

Lemma restarted_Inv : Inv restarted.
Proof. apply start_Inv; [exact old_good|exact old_store_ok]. Qed.

Lemma old_lookup : a_jobs (view contract old_store) !! "job-1" = Some (old_job 2000).
Proof. vm_compute. reflexivity. Qed.

(** The old job is in the store whatever else changes. *)
Lemma queue_old_Inv (s : sys bolt_api) q :
  Inv s → jobStore s = old_store → (∀ id, id ∈ q → id = "job-1") →
  (Z.of_nat (length q) ≤ pendingQueueSize)%Z → Inv (set_pendingQueue q s).
Proof.
  intros [] Es Hq Hlen. split; try done. intros id ->%Hq. exists (old_job 2000).
  unfold astate. cbn [jobStore set_pendingQueue]. rewrite Es. exact old_lookup.
Qed.

Lemma busy_staffed : staffed busy.
Proof.
  split.
  - apply queue_old_Inv; [|done|by intros id ->%list_elem_of_singleton|by vm_compute].
    apply Inv_set_workerPool; [exact restarted_Inv|].
    split; [apply WorkerPool.Register_wf, WorkerPool.NewWorkerPool_wf|by vm_compute].
  - by eexists.
  - exists "w". eexists. split; [vm_compute; reflexivity|done].
Qed.


End Loops.
