(* ===== verification/Autoscaler.v ===== *)
(** * Autoscaler: growing and shrinking the worker pool

    src/orchestrator/autoscaler.go.  [tick] is one policy evaluation: from the
    autoscaler's state, the pool's snapshot and the queue depth it computes the
    new state and the calls made to the launcher.  The launcher's answers, the
    clock, the process ID and the order of the map ranges are the environment's. *)

From stdpp Require Import strings gmap sorting prelude pretty.
From Stdlib Require Import SpecFloat.
From S2P Require Import Prelude Types WorkerPool.

Module Autoscaler.

Record AutoscalerConfig : Type := mkAConfig {
  Min : Z;
  Max : Z;
  QueueThreshold : Z;
  IdleTimeout : Z;
  Cooldown : Z;
  RegisterTimeout : Z;
  Tick : Z;
}.

Record managedWorker : Type := mkManaged {
  launchedAt : Z;
  registered : bool;
  idleSince : Z;          (* the zero time while busy *)
}.

Record t : Type := mkAuto {
  cfg : AutoscalerConfig;
  managed : gmap string managedWorker;
  lastLaunch : Z;
  seq : Z;
}.

Definition NewAutoscaler (c : AutoscalerConfig) : t :=
  let c := if (QueueThreshold c <? 1)%Z
           then mkAConfig (Min c) (Max c) 1 (IdleTimeout c) (Cooldown c) (RegisterTimeout c) (Tick c)
           else c in
  let c := if (Max c <? Min c)%Z
           then mkAConfig (Min c) (Min c) (QueueThreshold c) (IdleTimeout c) (Cooldown c)
                  (RegisterTimeout c) (Tick c)
           else c in
  mkAuto c ∅ zeroTime 0.

Definition ManagedCount (a : t) : Z := Z.of_nat (size (managed a)).

(** The calls to the launcher, in order. *)
Inductive call : Type :=
| LaunchWorker (id : string)
| StopWorker (id : string)
| StopAll.

(** What the environment decides for one tick; [snapshot] is the result of
    [pool.Snapshot]. *)
Record tick_env : Type := mkTick {
  now : Z;
  snapshot : list WorkerPool.WorkerMetrics;
  queueDepth : Z;
  ord : list string;
  pid : Z;
  launchErr : string → option error;
  stopErr : string → option error;
}.

Definition set_managed (m : gmap string managedWorker) (a : t) : t :=
  mkAuto (cfg a) m (lastLaunch a) (seq a).

Definition workers_by_id (ws : list WorkerPool.WorkerMetrics) :
    gmap string WorkerPool.WorkerMetrics :=
  foldl (λ m w, <[WorkerPool.m_ID w := w]> m) ∅ ws.

(** One iteration of the loop of [reconcile]: the entry afterwards ([None] when it is
    deleted, and then the worker is stopped). *)
Definition reconcile_entry (c : AutoscalerConfig) (now : Z)
    (w : option WorkerPool.WorkerMetrics) (m : managedWorker) : option managedWorker :=
  if negb (registered m)
  then match w with
       | Some _ => Some (mkManaged (launchedAt m) true (idleSince m))
       | None => if (RegisterTimeout c <? time_Sub now (launchedAt m))%Z then None else Some m
       end
  else match w with
       | Some w =>
           if negb (WorkerPool.m_Alive w) then None
           else if (0 <? WorkerPool.m_ActiveTasks w)%Z
           then Some (mkManaged (launchedAt m) (registered m) zeroTime)
           else if time_IsZero (idleSince m)
           then Some (mkManaged (launchedAt m) (registered m) now)
           else Some m
       | None => None
       end.

Fixpoint reconcile_loop (c : AutoscalerConfig) (now : Z)
    (byID : gmap string WorkerPool.WorkerMetrics) (kvs : list (string * managedWorker))
    (ms : gmap string managedWorker) (calls : list call) :
    gmap string managedWorker * list call :=
  match kvs with
  | [] => (ms, calls)
  | (id, m) :: kvs =>
      match reconcile_entry c now (byID !! id) m with
      | Some m => reconcile_loop c now byID kvs (<[id := m]> ms) calls
      | None => reconcile_loop c now byID kvs (delete id ms) (calls ++ [StopWorker id])
      end
  end.

Definition reconcile (e : tick_env) (byID : gmap string WorkerPool.WorkerMetrics) (a : t) :
    t * list call :=
  let '(ms, calls) :=
    reconcile_loop (cfg a) (now e) byID (range_map (ord e) (managed a)) (managed a) [] in
  (set_managed ms a, calls).

(** One iteration of the loop of [pickIdle]. *)
Definition pick_step (c : AutoscalerConfig) (now : Z) (best : string * Z)
    (kv : string * managedWorker) : string * Z :=
  let '(id, m) := kv in
  if negb (registered m) || time_IsZero (idleSince m) then best
  else if (time_Sub now (idleSince m) <? IdleTimeout c)%Z then best
  else if String.eqb best.1 "" || time_Before (idleSince m) best.2 then (id, idleSince m)
  else best.

Definition pickIdle (e : tick_env) (a : t) : string * bool :=
  let '(bestID, _) :=
    foldl (pick_step (cfg a) (now e)) ("", zeroTime) (range_map (ord e) (managed a)) in
  (bestID, negb (String.eqb bestID "")).

Definition launch_id (pid seq : Z) : string := "autoscale-" +:+ pretty pid +:+ "-" +:+ pretty seq.

Definition launch (e : tick_env) (a : t) : t * list call :=
  let seq := int64 (seq a + 1) in
  let id := launch_id (pid e) seq in
  match launchErr e id with
  | Some _ => (mkAuto (cfg a) (managed a) (lastLaunch a) seq, [LaunchWorker id])
  | None =>
      (mkAuto (cfg a) (<[id := mkManaged (now e) false zeroTime]> (managed a)) (now e) seq,
       [LaunchWorker id])
  end.

(** The counters of [tick]: alive workers, their capacity, their active tasks. *)
Definition load_step (acc : Z * Z * Z) (w : WorkerPool.WorkerMetrics) : Z * Z * Z :=
  let '(alive, capacity, active) := acc in
  if negb (WorkerPool.m_Alive w) then acc
  else (alive + 1, int64 (capacity + WorkerPool.m_Capacity w),
        int64 (active + WorkerPool.m_ActiveTasks w))%Z.

Definition load (e : tick_env) (byID : gmap string WorkerPool.WorkerMetrics) : Z * Z * Z :=
  foldl load_step (0, 0, 0)%Z (range_map (ord e) byID).*2.

Definition pending_count (a : t) : Z :=
  Z.of_nat (size (filter (λ kv : string * managedWorker, registered kv.2 = false) (managed a))).

Definition tick (e : tick_env) (a : t) : t * list call :=
  let byID := workers_by_id (snapshot e) in
  let '(a, calls) := reconcile e byID a in
  let '(alive, capacity, active) := load e byID in
  let effective := (alive + pending_count a)%Z in
  let queue := queueDepth e in
  if (effective <? Min (cfg a))%Z
  then let '(a, l) := launch e a in (a, calls ++ l)
  else
    let saturated := ((0 <? capacity) && (capacity <=? active))%Z in
    if (((QueueThreshold (cfg a) <=? queue) || saturated) && (effective <? Max (cfg a)) &&
        (Cooldown (cfg a) <=? time_Sub (now e) (lastLaunch a)))%Z
    then let '(a, l) := launch e a in (a, calls ++ l)
    else if ((queue =? 0) && negb saturated && (Min (cfg a) <? effective))%Z
    then
      let '(id, ok) := pickIdle e a in
      if (ok : bool)
      then match stopErr e id with
           | Some _ => (a, calls ++ [StopWorker id])
           | None => (set_managed (delete id (managed a)) a, calls ++ [StopWorker id])
           end
      else (a, calls)
    else (a, calls).

(** [Run] until the context is done, one tick after the other. *)
Fixpoint Run (es : list tick_env) (a : t) : t * list call :=
  match es with
  | [] => (a, [])
  | e :: es => let '(a, l) := tick e a in let '(a, l') := Run es a in (a, l ++ l')
  end.

Definition Shutdown : list call := [StopAll].

(** The IDs launched by a sequence of calls. *)
Definition launched (calls : list call) : list string :=
  omap (λ x, match x with LaunchWorker id => Some id | _ => None end) calls.

(** ** Lemmas *)

(** The loop visits each entry once and treats it on its own. *)
Lemma reconcile_loop_spec c now byID kvs ms calls :
  NoDup kvs.*1 → (∀ id m, (id, m) ∈ kvs → ms !! id = Some m) →
  (∀ id, (reconcile_loop c now byID kvs ms calls).1 !! id =
     if decide (id ∈ kvs.*1) then ms !! id ≫= reconcile_entry c now (byID !! id) else ms !! id) ∧
  (∀ x, x ∈ (reconcile_loop c now byID kvs ms calls).2 ↔
     x ∈ calls ∨ ∃ id m, (id, m) ∈ kvs ∧ reconcile_entry c now (byID !! id) m = None ∧ x = StopWorker id).
Proof.
  revert ms calls. induction kvs as [|[id m] kvs IH]; intros ms calls Hnd Hin; cbn [reconcile_loop].
  { split; [by intros id; rewrite decide_False by set_solver|].
    intros x. split; [by left|]. intros [?|(id & m & []%not_elem_of_nil & _)]; done. }
  cbn in Hnd. apply NoDup_cons in Hnd as [Hni Hnd].
  assert (ms !! id = Some m) as Hm by (apply Hin; by left).
  assert (∀ ms' : gmap string managedWorker, (∀ id', id' ≠ id → ms' !! id' = ms !! id') →
    ∀ id' m', (id', m') ∈ kvs → ms' !! id' = Some m') as Hms.
  { intros ms' Heq id' m' Hin'. rewrite Heq; [apply Hin; by right|].
    intros ->. destruct Hni. by apply (list_elem_of_fmap_2 fst) in Hin'. }
  destruct (reconcile_entry c now (byID !! id) m) as [m'|] eqn:E.
  - destruct (IH (<[id := m']> ms) calls Hnd) as [H1 H2].
    { apply Hms. intros. by rewrite lookup_insert_ne. }
    split.
    + intros id'. rewrite H1. destruct (decide (id' = id)) as [->|Hne].
      * rewrite decide_False, decide_True by set_solver. by rewrite lookup_insert_eq, Hm.
      * rewrite lookup_insert_ne by done.
        destruct (decide (id' ∈ kvs.*1)); [rewrite decide_True by set_solver|
          rewrite decide_False by set_solver]; done.
    + intros x. rewrite H2. split; (intros [?|(id' & m0 & Hin' & ? & ?)]; [by left|right]).
      * exists id', m0. split; [by right|done].
      * apply elem_of_cons in Hin' as [[= -> ->]|Hin']; [congruence|]. by exists id', m0.
  - destruct (IH (delete id ms) (calls ++ [StopWorker id]) Hnd) as [H1 H2].
    { apply Hms. intros. by rewrite lookup_delete_ne. }
    split.
    + intros id'. rewrite H1. destruct (decide (id' = id)) as [->|Hne].
      * rewrite decide_False, decide_True by set_solver. by rewrite lookup_delete_eq, Hm.
      * rewrite lookup_delete_ne by done.
        destruct (decide (id' ∈ kvs.*1)); [rewrite decide_True by set_solver|
          rewrite decide_False by set_solver]; done.
    + intros x. rewrite H2, elem_of_app, list_elem_of_singleton. split.
      * intros [[?| ->]|(id' & m0 & Hin' & ? & ?)]; [by left| |].
        -- right. exists id, m. split; [by left|done].
        -- right. exists id', m0. split; [by right|done].
      * intros [?|(id' & m0 & Hin' & ? & ->)]; [by left; left|].
        apply elem_of_cons in Hin' as [[= -> ->]|Hin']; [by left; right|]. right. by exists id', m0.
Qed.

Lemma reconcile_spec e byID a :
  cfg (reconcile e byID a).1 = cfg a ∧ lastLaunch (reconcile e byID a).1 = lastLaunch a ∧
  seq (reconcile e byID a).1 = seq a ∧
  (∀ id, managed (reconcile e byID a).1 !! id =
     managed a !! id ≫= reconcile_entry (cfg a) (now e) (byID !! id)) ∧
  (∀ x, x ∈ (reconcile e byID a).2 ↔
     ∃ id m, managed a !! id = Some m ∧ reconcile_entry (cfg a) (now e) (byID !! id) m = None ∧
       x = StopWorker id).
Proof.
  unfold reconcile.
  destruct (reconcile_loop_spec (cfg a) (now e) byID (range_map (ord e) (managed a)) (managed a) [])
    as [H1 H2]; [apply range_map_keys_NoDup|intros id m; apply elem_of_range_map|].
  destruct (reconcile_loop _ _ _ _ _ _) as [ms calls]. cbn in *. do 3 (split; [done|]). split.
  - intros id. rewrite H1. destruct (decide _) as [|Hn]; [done|].
    destruct (managed a !! id) as [m|] eqn:Hm; [|done]. destruct Hn.
    apply (elem_of_range_map (ord e)), (list_elem_of_fmap_2 fst) in Hm. done.
  - intros x. rewrite H2. split.
    + intros [[]%not_elem_of_nil|(id & m & Hin & ? & ?)]. apply elem_of_range_map in Hin. eauto.
    + intros (id & m & Hm & ? & ?). right. exists id, m. by rewrite elem_of_range_map.
Qed.

(** What a managed worker must look like to be picked for scale-down. *)
Definition idle_enough (c : AutoscalerConfig) (now : Z) (m : managedWorker) : Prop :=
  registered m = true ∧ idleSince m ≠ zeroTime ∧ (IdleTimeout c ≤ time_Sub now (idleSince m))%Z.

Lemma pick_fold c now kvs best :
  let r := foldl (pick_step c now) best kvs in
  r = best ∨ ∃ id m, (id, m) ∈ kvs ∧ r = (id, idleSince m) ∧ idle_enough c now m.
Proof.
  revert best. induction kvs as [|[id m] kvs IH]; intros best; cbn [foldl]; [by left|].
  destruct (IH (pick_step c now best (id, m))) as [E|(id' & m' & Hin & ?)].
  - cbn zeta in *. rewrite E. unfold pick_step.
    destruct (registered m) eqn:Er; [|by left]. cbn [negb orb].
    unfold time_IsZero. destruct (Z.eqb_spec (idleSince m) 0); [by left|].
    destruct (Z.ltb_spec (time_Sub now (idleSince m)) (IdleTimeout c)); [by left|].
    destruct (_ || _); [|by left]. right. exists id, m. split; [by left|]. by split.
  - right. exists id', m'. split; [by right|done].
Qed.

Lemma pickIdle_spec e a id :
  pickIdle e a = (id, true) → ∃ m, managed a !! id = Some m ∧ idle_enough (cfg a) (now e) m.
Proof.
  unfold pickIdle.
  destruct (pick_fold (cfg a) (now e) (range_map (ord e) (managed a)) ("", zeroTime))
    as [E|(id' & m & Hin & E & Hidle)]; cbn zeta in E; rewrite E; [done|].
  intros [= <- _]. exists m. by apply elem_of_range_map in Hin.
Qed.

(** What the policy counts: alive workers plus launches that have not registered. *)
Definition effective (e : tick_env) (a : t) : Z :=
  let byID := workers_by_id (snapshot e) in
  ((load e byID).1.1 + pending_count (reconcile e byID a).1)%Z.

(** Why a tick may launch. *)
Definition may_launch (e : tick_env) (a : t) : Prop :=
  (effective e a < Min (cfg a))%Z ∨
  (effective e a < Max (cfg a))%Z ∧ (Cooldown (cfg a) ≤ time_Sub (now e) (lastLaunch a))%Z.

(** What a tick does after [reconcile] has left [a1] and made [calls]: nothing, one
    launch, or one stop. *)
Inductive tick_spec (e : tick_env) (a a1 : t) (calls : list call) : t * list call → Prop :=
| tick_quiet : tick_spec e a a1 calls (a1, calls)
| tick_launch : may_launch e a →
    tick_spec e a a1 calls ((launch e a1).1, calls ++ (launch e a1).2)
| tick_stop id m ms :
    queueDepth e = 0%Z → (Min (cfg a) < effective e a)%Z →
    managed a1 !! id = Some m → idle_enough (cfg a) (now e) m →
    (ms = managed a1 ∨ ms = delete id (managed a1)) →
    tick_spec e a a1 calls (set_managed ms a1, calls ++ [StopWorker id]).

Lemma tick_ok e a :
  tick_spec e a (reconcile e (workers_by_id (snapshot e)) a).1
    (reconcile e (workers_by_id (snapshot e)) a).2 (tick e a).
Proof.
  unfold tick. destruct (reconcile_spec e (workers_by_id (snapshot e)) a) as (Ecfg & Elast & _).
  destruct (reconcile e (workers_by_id (snapshot e)) a) as [a1 calls] eqn:Er. cbn [fst snd] in *.
  destruct (load e (workers_by_id (snapshot e))) as [[alive capacity] active] eqn:El.
  assert (effective e a = alive + pending_count a1)%Z as Eeff by (unfold effective; by rewrite Er, El).
  rewrite Ecfg, Elast, <- Eeff. pose proof (tick_launch e a a1 calls) as Hlaunch. unfold may_launch in Hlaunch.
  destruct (launch e a1) as [a2 l]. cbn [fst snd] in Hlaunch.
  destruct (Z.ltb_spec (effective e a) (Min (cfg a))); [by apply Hlaunch; left|].
  set (demand := (_ || _)%bool). set (saturated := ((0 <? capacity) && (capacity <=? active))%Z) in *.
  destruct (demand && (effective e a <? Max (cfg a)) &&
    (Cooldown (cfg a) <=? time_Sub (now e) (lastLaunch a)))%Z eqn:Ed.
  { apply andb_true_iff in Ed as [[_ ?%Z.ltb_lt]%andb_true_iff ?%Z.leb_le]. apply Hlaunch. by right. }
  destruct ((queueDepth e =? 0) && negb saturated && (Min (cfg a) <? effective e a))%Z eqn:Es;
    [|constructor].
  apply andb_true_iff in Es as [[?%Z.eqb_eq _]%andb_true_iff ?%Z.ltb_lt].
  destruct (pickIdle e a1) as [id ok] eqn:Ep. destruct ok; [|constructor].
  apply pickIdle_spec in Ep as (m & Hm & Hidle). rewrite Ecfg in Hidle.
  destruct (stopErr e id).
  - replace a1 with (set_managed (managed a1) a1) at 2 by by destruct a1.
    eapply tick_stop; eauto.
  - eapply tick_stop; eauto.
Qed.

(** Every worker a tick stops was managed before it. *)
Lemma tick_stops e a id : StopWorker id ∈ (tick e a).2 → is_Some (managed a !! id).
Proof.
  destruct (reconcile_spec e (workers_by_id (snapshot e)) a) as (_ & _ & _ & Hm & Hcalls).
  assert (StopWorker id ∈ (reconcile e (workers_by_id (snapshot e)) a).2 → is_Some (managed a !! id)) as Hrec.
  { intros (id' & m & ? & _ & [= <-])%Hcalls. by eexists. }
  destruct (tick_ok e a) as [|_|id' m ms _ _ Hid _ _]; cbn [snd]; [done| |].
  - rewrite elem_of_app. intros [?|Hl]; [by apply Hrec|].
    unfold launch in Hl. destruct (launchErr _ _); by apply list_elem_of_singleton in Hl.
  - rewrite elem_of_app, list_elem_of_singleton. intros [?|[= ->]]; [by apply Hrec|].
    rewrite Hm in Hid. destruct (managed a !! id'); [done|]. done.
Qed.

(** Every worker managed after a tick was managed before it or has just been
    launched. *)
Lemma tick_managed e a id :
  is_Some (managed (tick e a).1 !! id) → is_Some (managed a !! id) ∨ LaunchWorker id ∈ (tick e a).2.
Proof.
  destruct (reconcile_spec e (workers_by_id (snapshot e)) a) as (_ & _ & _ & Hm & _).
  assert (is_Some (managed (reconcile e (workers_by_id (snapshot e)) a).1 !! id) → is_Some (managed a !! id)) as Hrec.
  { rewrite Hm. by destruct (managed a !! id). }
  destruct (tick_ok e a) as [|_|id' m ms _ _ Hid _ Hms]; cbn [fst snd]; [by left; auto| |].
  - unfold launch. destruct (launchErr _ _); cbn; [by left; auto|].
    intros [m' [[<- _]|[_ H]]%lookup_insert_Some]; [|left; apply Hrec; eauto].
    right. apply elem_of_app. right. by left.
  - intros H. left. apply Hrec. cbn in H. destruct Hms as [->| ->]; [done|].
    destruct H as [m' [_ H]%lookup_delete_Some]. eauto.
Qed.

Lemma Run_stops es a l1 l2 id :
  (Run es a).2 = l1 ++ StopWorker id :: l2 → is_Some (managed a !! id) ∨ LaunchWorker id ∈ l1.
Proof.
  revert a l1. induction es as [|e es IH]; intros a l1; cbn [Run]; [by destruct l1|].
  pose proof (tick_stops e a id) as Hstop. pose proof (tick_managed e a id) as Hman.
  destruct (tick e a) as [a1 calls]. cbn [fst snd] in *. specialize (IH a1).
  destruct (Run es a1) as [a2 calls2]. cbn [snd] in *.
  intros E. apply app_eq_inv in E as [(k & -> & E)|(k & -> & E)].
  - destruct k as [|x k]; cbn in E.
    + specialize (IH [] (eq_sym E)) as [H|H%not_elem_of_nil]; [|done].
      rewrite app_nil_r in *. destruct (Hman H); auto.
    + injection E as <- _. left. apply Hstop, elem_of_app. right. by left.
  - destruct (IH k E) as [H|H]; [|right; by apply elem_of_app; right].
    destruct (Hman H); [by left|right; by apply elem_of_app; left].
Qed.

Lemma launched_stops calls :
  (∀ x, x ∈ calls → ∃ id, x = StopWorker id) → launched calls = [].
Proof.
  induction calls as [|x calls IH]; intros H; [done|]. cbn.
  destruct (H x) as [id ->]; [by left|]. apply IH. intros y Hy. apply H. by right.
Qed.

Lemma launched_reconcile e byID a : launched (reconcile e byID a).2 = [].
Proof.
  destruct (reconcile_spec e byID a) as (_ & _ & _ & _ & Hcalls).
  apply launched_stops. intros x (id & m & _ & _ & ->)%Hcalls. eauto.
Qed.

Lemma launched_app l1 l2 : launched (l1 ++ l2) = launched l1 ++ launched l2.
Proof. unfold launched. induction l1 as [|[] l1 IH]; cbn; [done|by rewrite IH|done|done]. Qed.

(** A tick launches nothing, or one worker with the next number. *)
Lemma tick_launched e a :
  let r := tick e a in
  launched r.2 = [] ∧ seq r.1 = seq a ∨
  launched r.2 = [launch_id (pid e) (int64 (seq a + 1))] ∧ seq r.1 = int64 (seq a + 1) ∧ may_launch e a.
Proof.
  destruct (reconcile_spec e (workers_by_id (snapshot e)) a) as (_ & _ & Eseq & _).
  pose proof (launched_reconcile e (workers_by_id (snapshot e)) a) as El. cbn zeta.
  destruct (tick_ok e a) as [|Hl|id m ms]; cbn [fst snd].
  - by left.
  - right. rewrite launched_app, El. unfold launch. rewrite Eseq. by destruct (launchErr _ _).
  - left. by rewrite launched_app, El.
Qed.

Lemma launch_id_inj pid n1 n2 : launch_id pid n1 = launch_id pid n2 → n1 = n2.
Proof. unfold launch_id. intros H. by do 3 apply (inj (String.append _)) in H; apply (inj pretty) in H. Qed.

Lemma Run_launched p es a :
  (∀ e, e ∈ es → pid e = p) → (0 ≤ seq a)%Z → (seq a + Z.of_nat (length es) ≤ maxInt64)%Z →
  NoDup (launched (Run es a).2) ∧
  (∀ id, id ∈ launched (Run es a).2 → ∃ n, (seq a < n)%Z ∧ id = launch_id p n).
Proof.
  revert a. induction es as [|e es IH]; intros a Hp Hs Hlen; cbn [Run].
  { cbn. split; [constructor|]. by intros id ?%not_elem_of_nil. }
  cbn in Hlen.
  assert (int64 (seq a + 1) = seq a + 1)%Z as Ei
    by (apply int64_id; unfold in_int64, minInt64, maxInt64 in *; lia).
  pose proof (tick_launched e a) as Ht. rewrite Ei, (Hp e) in Ht by by left. cbn zeta in Ht.
  destruct (tick e a) as [a1 calls]. cbn [fst snd] in Ht.
  assert (seq a ≤ seq a1 ≤ seq a + 1)%Z as Hseq by (destruct Ht as [[_ ?]|(_ & ? & _)]; lia).
  destruct (IH a1) as [Hnd Hids]; [intros e' He'; apply Hp; by right|lia|lia|].
  destruct (Run es a1) as [a2 calls2]. cbn [snd] in *. rewrite launched_app.
  destruct Ht as [[-> _]|(-> & E1 & _)]; cbn.
  - split; [done|]. intros id Hid. destruct (Hids id Hid) as (n & ? & ?). exists n. split; [lia|done].
  - split.
    + constructor; [|done]. intros Hin. destruct (Hids _ Hin) as (n & Hn & E).
      apply launch_id_inj in E. lia.
    + intros id [->|Hid]%elem_of_cons; [exists (seq a + 1)%Z; split; [lia|done]|].
      destruct (Hids id Hid) as (n & ? & ?). exists n. split; [lia|done].
Qed.

Lemma pick_step_keep c now best id m :
  ¬ idle_enough c now m → pick_step c now best (id, m) = best.
Proof.
  unfold idle_enough, pick_step, time_IsZero, zeroTime. intros Hn.
  destruct (registered m); [|done]. cbn [negb orb].
  destruct (Z.eqb_spec (idleSince m) 0); [done|].
  destruct (Z.ltb_spec (time_Sub now (idleSince m)) (IdleTimeout c)); [done|]. by destruct Hn.
Qed.

Lemma pick_step_take c now best id m :
  idle_enough c now m →
  pick_step c now best (id, m) =
    if String.eqb best.1 "" || time_Before (idleSince m) best.2 then (id, idleSince m) else best.
Proof.
  unfold idle_enough, pick_step, time_IsZero, zeroTime. intros (-> & Hz & Ht). cbn [negb orb].
  destruct (Z.eqb_spec (idleSince m) 0); [done|].
  by destruct (Z.ltb_spec (time_Sub now (idleSince m)) (IdleTimeout c)); [lia|].
Qed.

#[export] Instance idle_enough_dec c now m : Decision (idle_enough c now m).
Proof. unfold idle_enough. apply _. Defined.

(** The fold keeps the longest idle candidate, the start value among them unless its
    name is empty. *)
Lemma pick_fold_longest c now kvs best :
  "" ∉ kvs.*1 →
  let r := foldl (pick_step c now) best kvs in
  (best.1 ≠ "" → r.1 ≠ "" ∧ (r.2 ≤ best.2)%Z) ∧
  (∀ id m, (id, m) ∈ kvs → idle_enough c now m → r.1 ≠ "" ∧ (r.2 ≤ idleSince m)%Z).
Proof.
  revert best. induction kvs as [|[id m] kvs IH]; intros best Hne; cbn [foldl].
  { split; [intros; by split|]. by intros ?? ?%not_elem_of_nil. }
  cbn in Hne. apply not_elem_of_cons in Hne as [Hid Hne].
  destruct (IH (pick_step c now best (id, m)) Hne) as [Hb Hin]. cbn zeta in *.
  set (r := foldl _ _ _) in *. clearbody r.
  destruct (decide (idle_enough c now m)) as [Hi|Hi].
  - rewrite pick_step_take in Hb by done. unfold time_Before in Hb.
    destruct (String.eqb_spec best.1 ""), (Z.ltb_spec (idleSince m) best.2); cbn in Hb.
    all: (split; [intros ?; first [done|destruct Hb; [done|split; [done|lia]]]|]).
    all: intros id' m' [[= -> ->]|?]%elem_of_cons ?; [|by eapply Hin].
    all: destruct Hb; [done|split; [done|lia]].
  - rewrite pick_step_keep in Hb by done. split; [done|].
    intros id' m' [[= -> ->]|?]%elem_of_cons ?; [done|by eapply Hin].
Qed.

(** ** Properties *)

(** The autoscaler only ever stops workers that it launched itself: in every run,
    each stop of a worker comes after a launch of it. *)
Theorem stops_only_launched c es l1 l2 id :
  (Run es (NewAutoscaler c)).2 = l1 ++ StopWorker id :: l2 → LaunchWorker id ∈ l1.
Proof.
  intros [[m H]|H]%Run_stops; [|done]. unfold NewAutoscaler in H. cbn in H. by rewrite lookup_empty in H.
Qed.


(** No worker ID is launched twice in the life of a process, for any run shorter
    than 2^63 ticks: a new worker never inherits the bookkeeping of an old one. *)
Theorem launch_ids_unique c p es :
  (∀ e, e ∈ es → pid e = p) → (Z.of_nat (length es) ≤ maxInt64)%Z →
  NoDup (launched (Run es (NewAutoscaler c)).2).
Proof. intros Hp Hlen. by apply (Run_launched p es (NewAutoscaler c)). Qed.

(** [pickIdle] picks the longest idle of the registered workers that have been idle
    for [IdleTimeout], and picks none exactly when there is no such worker; no worker is
    named by the empty string. *)
Theorem pickIdle_correct e a :
  managed a !! "" = None →
  match pickIdle e a with
  | (id, true) => ∃ m, managed a !! id = Some m ∧ idle_enough (cfg a) (now e) m ∧
      ∀ id' m', managed a !! id' = Some m' → idle_enough (cfg a) (now e) m' →
        (idleSince m ≤ idleSince m')%Z
  | (_, false) => ∀ id m, managed a !! id = Some m → ¬ idle_enough (cfg a) (now e) m
  end.
Proof.
  intros Hne. unfold pickIdle.
  destruct (pick_fold_longest (cfg a) (now e) (range_map (ord e) (managed a)) ("", zeroTime)) as [_ Hl].
  { intros ([k m] & Ek & Hin)%list_elem_of_fmap. cbn in Ek. subst k.
    apply elem_of_range_map in Hin. congruence. }
  destruct (pick_fold (cfg a) (now e) (range_map (ord e) (managed a)) ("", zeroTime))
    as [E|(id & m & Hin & E & Hi)]; cbn zeta in E, Hl; rewrite E in *; cbn [fst snd] in *.
  - cbn. intros id m Hm Hi. destruct (Hl id m) as [? _]; [by apply elem_of_range_map|done|done].
  - apply elem_of_range_map in Hin. destruct (String.eqb_spec id ""); [congruence|]. cbn.
    exists m. do 2 (split; [done|]). intros id' m' Hm' Hi'.
    destruct (Hl id' m') as [_ ?]; [by apply elem_of_range_map|done|done].
Qed.

(** ** Concrete runs *)

Module Examples.

Definition cfg1 : AutoscalerConfig :=
  mkAConfig 1 2 1 (30 * second) (3 * second) (15 * second) second.

Definition w1 : string := launch_id 7 1.
Definition w2 : string := launch_id 7 2.

(** The pool once both workers have registered, at 20 s. *)
Definition both : WorkerPool.t :=
  WorkerPool.Register (20 * second) (20 * second) w2 "h:2" 4
    (WorkerPool.Register (20 * second) (20 * second) w1 "h:1" 4
       (WorkerPool.NewWorkerPool (60 * second))).

Definition at_ (s : Z) (p : WorkerPool.t) (q : Z) : tick_env :=
  mkTick (s * second) (WorkerPool.Snapshot (s * second) [] p) q [] 7 (λ _, None) (λ _, None).

(** Launch up to the floor, launch on demand, see both register, see both idle, and
    twice find a worker that has been idle for the timeout. *)
Definition up : list tick_env :=
  [at_ 10 (WorkerPool.NewWorkerPool (60 * second)) 0;
   at_ 15 (WorkerPool.NewWorkerPool (60 * second)) 1].

Definition day : list tick_env := up ++ [at_ 20 both 0; at_ 21 both 0; at_ 51 both 0; at_ 52 both 0].

Lemma stops_only_launched_witness :
  LaunchWorker w1 ∈ [LaunchWorker w1; LaunchWorker w2].
Proof.
  apply (stops_only_launched cfg1 day [LaunchWorker w1; LaunchWorker w2] [StopWorker w2] w1).
  vm_compute. reflexivity.
Defined.


Lemma launch_ids_unique_witness : NoDup [w1; w2].
Proof.
  replace [w1; w2] with (launched (Run day (NewAutoscaler cfg1)).2) by (vm_compute; reflexivity).
  apply (launch_ids_unique cfg1 7 day).
  - unfold day, up. cbn [app]. intros e He.
    repeat (apply elem_of_cons in He as [->|He]; [reflexivity|]). by apply not_elem_of_nil in He.
  - vm_compute. discriminate.
Defined.

Lemma pickIdle_correct_witness :
  pickIdle (at_ 51 both 0) (Run (take 4 day) (NewAutoscaler cfg1)).1 = (w1, true) ∧
  ∃ m, managed (Run (take 4 day) (NewAutoscaler cfg1)).1 !! w1 = Some m ∧ idle_enough cfg1 (51 * second) m.
Proof.
  assert (pickIdle (at_ 51 both 0) (Run (take 4 day) (NewAutoscaler cfg1)).1 = (w1, true)) as E
    by (vm_compute; reflexivity).
  split; [exact E|].
  pose proof (pickIdle_correct (at_ 51 both 0) (Run (take 4 day) (NewAutoscaler cfg1)).1) as H.
  rewrite E in H. destruct H as (m & Hm & Hi & _); [vm_compute; reflexivity|]. exists m. split; [done|].
  assert (cfg (Run (take 4 day) (NewAutoscaler cfg1)).1 = cfg1) as Ec by (vm_compute; reflexivity).
  rewrite Ec in Hi. exact Hi.
Defined.

(** The floor [Min] is not kept by scale-down: a stopped worker is forgotten at once
    but counts as alive until the fault detector notices, so with [Min = 1] two ticks in a
    row stop both workers of the pool. *)
Theorem scale_down_below_min :
  Min (cfg (NewAutoscaler cfg1)) = 1%Z ∧
  (Run day (NewAutoscaler cfg1)).2 =
    [LaunchWorker w1; LaunchWorker w2; StopWorker w1; StopWorker w2] ∧
  managed (Run day (NewAutoscaler cfg1)).1 = ∅.
Proof. repeat split; vm_compute; reflexivity. Qed.

End Examples.

End Autoscaler.
