(* ===== verification/Launcher.v ===== *)
(** * ProcessLauncher: worker processes and their ports

    src/orchestrator/launcher.go.  A process is known by the handle it gets when
    it is started (the identity of its [*workerProc]); whether a start fails and
    when a process exits are the environment's.  [world] adds the reaper
    goroutines, one per started process, that wait for it to exit. *)

From stdpp Require Import strings gmap sorting prelude.
From S2P Require Import Prelude Types.

Module Launcher.

Record workerProc : Type := mkProc {
  handle : nat;
  port : Z;
}.

#[export] Instance workerProc_eq_dec : EqDecision workerProc.
Proof. solve_decision. Defined.

Record t : Type := mkLauncher {
  basePort : Z;
  procs : gmap string workerProc;
  ports : gset Z;           (* the keys of the map, all of whose values are true *)
}.

Definition NewProcessLauncher (basePort : Z) : t := mkLauncher basePort ∅ ∅.

(** [for l.ports[port] { port++ }]; [None] when [fuel] iterations are not enough. *)
Fixpoint lease_loop (fuel : nat) (ports : gset Z) (port : Z) : option Z :=
  match fuel with
  | O => None
  | S fuel =>
      if bool_decide (port ∈ ports) then lease_loop fuel ports (int64 (port + 1)) else Some port
  end.

Definition leasePortLocked (l : t) : option (Z * t) :=
  port ← lease_loop (S (size (ports l))) (ports l) (basePort l);
  Some (port, mkLauncher (basePort l) (procs l) ({[port]} ∪ ports l)).

Definition alreadyRunning (id : string) : error := errorString ("worker " +:+ id +:+ " already running").

(** [start] is the error of [cmd.Start], [h] the new process; the result is the started
    process or the error. *)
Definition LaunchWorker (start : option error) (h : nat) (id : string) (l : t) :
    option (result error workerProc * t) :=
  match procs l !! id with
  | Some _ => Some (Err (alreadyRunning id), l)
  | None =>
      '(port, l) ← leasePortLocked l;
      match start with
      | Some e =>
          Some (Err (wrapError ("start worker " +:+ id +:+ ": ") e ""),
                mkLauncher (basePort l) (procs l) (ports l ∖ {[port]}))
      | None =>
          let p := mkProc h port in
          Some (Ok p, mkLauncher (basePort l) (<[id := p]> (procs l)) (ports l))
      end
  end.

(** The reaper goroutine of [p], started by [LaunchWorker id], after [Wait]. *)
Definition reap (id : string) (p : workerProc) (l : t) : t :=
  let procs :=
    match procs l !! id with
    | Some cur => if decide (cur = p) then delete id (procs l) else procs l
    | None => procs l
    end in
  mkLauncher (basePort l) procs (ports l ∖ {[port p]}).

Inductive signal : Type := SIGTERM (p : workerProc) | SIGKILL (p : workerProc).

(** [inGrace p] tells whether [p] exits within the grace period after SIGTERM. *)
Definition escalate (inGrace : workerProc → bool) (p : workerProc) : list signal :=
  if inGrace p then [] else [SIGKILL p].

(** The signals sent by [StopWorker] and by the goroutine it starts. *)
Definition StopWorker (inGrace : workerProc → bool) (id : string) (l : t) : list signal :=
  match procs l !! id with
  | None => []
  | Some p => SIGTERM p :: escalate inGrace p
  end.

(** The signals sent by [StopAll]; it returns when every process has exited. *)
Definition StopAll (inGrace : workerProc → bool) (ord : list string) (l : t) : list signal :=
  (range_map ord (procs l)).*2 ≫= λ p, SIGTERM p :: escalate inGrace p.

(** ** The launcher and its reapers *)

Record world : Type := mkWorld {
  launcher : t;
  reapers : list (string * workerProc);
  started : nat;            (* processes asked for so far *)
}.

Inductive event : Type :=
| Launch (id : string) (start : option error)
| Exit (i : nat).           (* the process of the [i]-th reaper exits *)

Definition wstep (ev : event) (w : world) : option world :=
  match ev with
  | Launch id start =>
      '(res, l) ← LaunchWorker start (started w) id (launcher w);
      let rs := match res with Ok p => (id, p) :: reapers w | Err _ => reapers w end in
      Some (mkWorld l rs (S (started w)))
  | Exit i =>
      match reapers w !! i with
      | Some (id, p) => Some (mkWorld (reap id p (launcher w)) (delete i (reapers w)) (started w))
      | None => Some w
      end
  end.

Fixpoint wrun (es : list event) (w : world) : option world :=
  match es with
  | [] => Some w
  | ev :: es => w ← wstep ev w; wrun es w
  end.

(** ** Port leases *)

(** The leased ports at or above [p]. *)
Definition above (p : Z) (ports : gset Z) : gset Z := filter (λ q, (p ≤ q)%Z) ports.

Lemma above_step p ports :
  p ∈ ports → size (above p ports) = S (size (above (p + 1) ports)).
Proof.
  intros Hp. replace (above p ports) with ({[p]} ∪ above (p + 1) ports).
  - rewrite size_union by set_solver by lia. by rewrite size_singleton.
  - apply set_eq. intros q. unfold above. rewrite elem_of_union, elem_of_singleton, !elem_of_filter.
    split; [intros [->|[? ?]]; split; (done || lia)|]. intros [? ?].
    destruct (decide (q = p)); [by left|right]. split; [lia|done].
Qed.

Lemma lease_loop_least fuel ports p :
  (- 2 ^ 63 ≤ p)%Z → (p + Z.of_nat (size (above p ports)) ≤ maxInt64)%Z → size (above p ports) < fuel →
  ∃ q, lease_loop fuel ports p = Some q ∧ (p ≤ q)%Z ∧ q ∉ ports ∧ ∀ x, (p ≤ x < q)%Z → x ∈ ports.
Proof.
  revert p. induction fuel as [|fuel IH]; intros p Hlo Hhi Hf; [lia|]. cbn [lease_loop].
  case_bool_decide as Hp.
  - rewrite above_step in Hhi, Hf by done.
    rewrite int64_id by (unfold in_int64, minInt64, maxInt64 in *; lia).
    destruct (IH (p + 1)%Z) as (q & -> & Hq & Hn & Hall); [lia|lia|lia|].
    exists q. split; [done|]. split; [lia|]. split; [done|]. intros x Hx.
    destruct (decide (x = p)) as [->|]; [done|]. apply Hall. lia.
  - exists p. split; [done|]. split; [lia|]. split; [done|]. lia.
Qed.

Lemma above_size p ports : size (above p ports) ≤ size ports.
Proof. apply subseteq_size. unfold above. set_solver. Qed.

Lemma lease_least l :
  (0 ≤ basePort l)%Z → (basePort l + Z.of_nat (size (ports l)) ≤ maxInt64)%Z →
  ∃ q, leasePortLocked l = Some (q, mkLauncher (basePort l) (procs l) ({[q]} ∪ ports l)) ∧
    (basePort l ≤ q)%Z ∧ q ∉ ports l ∧ ∀ x, (basePort l ≤ x < q)%Z → x ∈ ports l.
Proof.
  intros Hlo Hhi. pose proof (above_size (basePort l) (ports l)).
  destruct (lease_loop_least (S (size (ports l))) (ports l) (basePort l)) as (q & E & ?); [lia|lia|lia|].
  exists q. unfold leasePortLocked. by rewrite E.
Qed.

(** ** Invariant *)

(** Reapers and entries correspond, the leased ports are exactly those of the entries,
    and no two entries share a port. *)
Record winv (base : Z) (w : world) : Prop := mkWinv {
  w_base : basePort (launcher w) = base;
  w_reapers : ∀ id p, (id, p) ∈ reapers w ↔ procs (launcher w) !! id = Some p;
  w_once : NoDup (reapers w);
  w_ports : ∀ x, x ∈ ports (launcher w) ↔ ∃ id p, procs (launcher w) !! id = Some p ∧ port p = x;
  w_distinct : ∀ id1 id2 p1 p2, procs (launcher w) !! id1 = Some p1 →
    procs (launcher w) !! id2 = Some p2 → port p1 = port p2 → id1 = id2;
  w_above : ∀ id p, procs (launcher w) !! id = Some p → (base ≤ port p)%Z;
  w_size : size (ports (launcher w)) ≤ started w;
}.

Lemma init_winv base : winv base (mkWorld (NewProcessLauncher base) [] 0).
Proof.
  split; cbn.
  - done.
  - intros id p. rewrite lookup_empty. split; [by intros ?%not_elem_of_nil|done].
  - constructor.
  - intros x. split; [by intros ?%not_elem_of_empty|]. intros (? & ? & H & _). by rewrite lookup_empty in H.
  - intros ???? H. by rewrite lookup_empty in H.
  - intros ?? H. by rewrite lookup_empty in H.
  - by rewrite size_empty.
Qed.

Lemma launch_winv base w id p (q := port p) :
  winv base w → procs (launcher w) !! id = None → (base ≤ q)%Z → q ∉ ports (launcher w) →
  winv base (mkWorld (mkLauncher base (<[id := p]> (procs (launcher w))) ({[q]} ∪ ports (launcher w)))
    ((id, p) :: reapers w) (S (started w))).
Proof.
  intros [Hb Hr Hnd Hp Hd Ha Hs] Hid Hq Hfree.
  assert (∀ id' p', procs (launcher w) !! id' = Some p' → port p' ≠ q) as Hne.
  { intros id' p' H' E. apply Hfree, Hp. by exists id', p'. }
  split; cbn.
  - done.
  - intros id' p'. rewrite elem_of_cons, Hr, lookup_insert.
    destruct (decide (id = id')) as [<-|]; naive_solver.
  - constructor; [|done]. rewrite Hr. congruence.
  - intros x. rewrite elem_of_union, elem_of_singleton, Hp. split.
    + intros [->|(id' & p' & H' & E)]; [exists id, p; by rewrite lookup_insert_eq|].
      exists id', p'. rewrite lookup_insert_ne by congruence. done.
    + intros (id' & p' & H' & E). rewrite lookup_insert in H'.
      destruct (decide (id = id')); simplify_eq; [by left|right; eauto].
  - intros id1 id2 p1 p2. rewrite !lookup_insert.
    destruct (decide (id = id1)), (decide (id = id2)); intros; simplify_eq; try done.
    + by destruct (Hne id2 p2).
    + by destruct (Hne id1 p1).
    + by eapply Hd.
  - intros id' p'. rewrite lookup_insert. destruct (decide (id = id')); intros; simplify_eq; eauto.
  - rewrite size_union by set_solver. rewrite size_singleton. lia.
Qed.

Lemma reap_winv base w i id p :
  winv base w → reapers w !! i = Some (id, p) →
  winv base (mkWorld (reap id p (launcher w)) (delete i (reapers w)) (started w)).
Proof.
  intros [Hb Hr Hnd Hp Hd Ha Hs] Hi.
  assert (procs (launcher w) !! id = Some p) as Hid by (by eapply Hr, list_elem_of_lookup_2).
  unfold reap. rewrite Hid, decide_True by done.
  assert (∀ id' p', procs (launcher w) !! id' = Some p' → port p' = port p → id' = id) as Huniq
    by (intros id' p' H' E; by eapply Hd).
  split; cbn [launcher reapers started basePort procs ports].
  - done.
  - intros id' p'. rewrite lookup_delete_Some, <- Hr.
    rewrite (proj2 (NoDup_delete _ _ _ Hi Hnd)). split.
    + intros [Hin Hne]. split; [|done]. intros ->. apply Hne. apply Hr in Hin. congruence.
    + intros [Hne Hin]. split; [done|]. congruence.
  - by apply (NoDup_delete _ _ _ Hi Hnd).
  - intros x. rewrite elem_of_difference, elem_of_singleton, Hp. split.
    + intros [(id' & p' & H' & E) Hx]. exists id', p'. rewrite lookup_delete_ne by congruence. done.
    + intros (id' & p' & [Hne H']%lookup_delete_Some & E). split; [eauto|].
      intros ->. apply Hne. symmetry. by eapply Huniq.
  - intros id1 id2 p1 p2 [_ H1]%lookup_delete_Some [_ H2]%lookup_delete_Some. by eapply Hd.
  - intros id' p' [_ H']%lookup_delete_Some. eauto.
  - etrans; [apply subseteq_size|done]. set_solver.
Qed.

Lemma wstep_winv base ev w :
  winv base w → (0 ≤ base)%Z → (base + Z.of_nat (started w) ≤ maxInt64)%Z →
  ∃ w', wstep ev w = Some w' ∧ winv base w' ∧ started w' ≤ S (started w).
Proof.
  intros Hw Hlo Hhi. destruct ev as [id start|i]; cbn [wstep].
  - unfold LaunchWorker. destruct (procs (launcher w) !! id) as [p|] eqn:Hid.
    { eexists. split; [done|]. split; [|cbn; lia]. destruct Hw. split; cbn; (done || lia). }
    pose proof (w_base _ _ Hw) as Hb. pose proof (w_size _ _ Hw) as Hs.
    destruct (lease_least (launcher w)) as (q & -> & Hq & Hfree & _); [lia|lia|]. cbn.
    destruct start; cbn; (eexists; split; [done|]; split; [|cbn; lia]).
    + replace (({[q]} ∪ ports (launcher w)) ∖ {[q]}) with (ports (launcher w)) by set_solver.
      destruct Hw. split; cbn; (done || lia).
    + rewrite Hb in *. by apply (launch_winv base w id (mkProc (started w) q)).
  - destruct (reapers w !! i) as [[id p]|] eqn:Hi; [|by exists w; eauto].
    eexists. split; [done|]. split; [by apply reap_winv|cbn; lia].
Qed.

Lemma wrun_winv base es w :
  winv base w → (0 ≤ base)%Z → (base + Z.of_nat (started w + length es) ≤ maxInt64)%Z →
  ∃ w', wrun es w = Some w' ∧ winv base w' ∧ started w' ≤ started w + length es.
Proof.
  revert w. induction es as [|ev es IH]; intros w Hw Hlo Hhi; cbn [wrun].
  { exists w. split; [done|]. split; [done|]. lia. }
  cbn [length] in *. destruct (wstep_winv base ev w Hw Hlo) as (w1 & -> & Hw1 & Hs); [lia|]. cbn.
  destruct (IH w1 Hw1 Hlo) as (w' & -> & Hw' & Hs'); [lia|]. exists w'.
  split; [done|]. split; [done|]. lia.
Qed.

Lemma StopAll_signals inGrace ord l x :
  x ∈ StopAll inGrace ord l ↔
  ∃ id p, procs l !! id = Some p ∧ (x = SIGTERM p ∨ inGrace p = false ∧ x = SIGKILL p).
Proof.
  unfold StopAll. rewrite list_elem_of_bind. setoid_rewrite list_elem_of_fmap.
  unfold escalate. split.
  - intros (p & Hx & [id p'] & -> & Hin). apply elem_of_range_map in Hin. exists id, p'. split; [done|].
    apply elem_of_cons in Hx as [->|Hx]; [by left|right]. cbn in Hx.
    destruct (inGrace p'); [by apply not_elem_of_nil in Hx|]. apply list_elem_of_singleton in Hx. done.
  - intros (id & p & Hp & Hx). exists p. split; [|exists (id, p); by rewrite elem_of_range_map].
    destruct Hx as [->|[-> ->]]; [by left|by right; left].
Qed.

(** ** Properties *)

(** C31: Port leases: whatever workers are launched and exit, in any order, no launch
    hangs; live worker processes listen on different ports, all at or above the base
    port; a port is leased exactly while a live process holds it, so none leaks; and the
    next launch of a new ID gets the least free port. *)
Theorem ports_are_leased base es :
  (0 ≤ base)%Z → (base + Z.of_nat (length es) ≤ maxInt64)%Z →
  ∃ w, wrun es (mkWorld (NewProcessLauncher base) [] 0) = Some w ∧
    (∀ id1 id2 p1 p2, procs (launcher w) !! id1 = Some p1 → procs (launcher w) !! id2 = Some p2 →
       port p1 = port p2 → id1 = id2) ∧
    (∀ x, x ∈ ports (launcher w) ↔ ∃ id p, procs (launcher w) !! id = Some p ∧ port p = x) ∧
    (∀ id p, procs (launcher w) !! id = Some p → (base ≤ port p)%Z) ∧
    (∀ id h, procs (launcher w) !! id = None →
       ∃ p l, LaunchWorker None h id (launcher w) = Some (Ok p, l) ∧ procs l !! id = Some p ∧
         (base ≤ port p)%Z ∧ port p ∉ ports (launcher w) ∧
         ∀ x, (base ≤ x < port p)%Z → x ∈ ports (launcher w)).
Proof.
  intros Hlo Hhi.
  destruct (wrun_winv base es (mkWorld (NewProcessLauncher base) [] 0)) as (w & E & Hw & Hs);
    [apply init_winv|done|done|].
  exists w. split; [done|]. split; [apply Hw|]. split; [apply Hw|]. split; [apply Hw|].
  intros id h Hid. unfold LaunchWorker. rewrite Hid. cbn in Hs.
  pose proof (w_base _ _ Hw) as Hb. pose proof (w_size _ _ Hw) as Hsz.
  destruct (lease_least (launcher w)) as (q & -> & Hq & Hfree & Hall); [lia|lia|]. cbn.
  do 2 eexists. split; [done|]. cbn. rewrite lookup_insert_eq, Hb in *. done.
Qed.

(** A reaper only ever removes its own process: each started process that has not
    been reaped has exactly one reaper, the bookkeeping entry is there as long as the
    reaper waits and gone when the reaper is done, so the same ID can be launched
    again, and [StopWorker] of it is then a no-op. *)
Theorem reaper_owns_entry base es i :
  (0 ≤ base)%Z → (base + Z.of_nat (length es) ≤ maxInt64)%Z →
  ∃ w, wrun es (mkWorld (NewProcessLauncher base) [] 0) = Some w ∧
    NoDup (reapers w) ∧
    (∀ id p, (id, p) ∈ reapers w ↔ procs (launcher w) !! id = Some p) ∧
    (∀ id p, reapers w !! i = Some (id, p) →
       ∃ w', wstep (Exit i) w = Some w' ∧ procs (launcher w') = delete id (procs (launcher w)) ∧
         ∀ g, StopWorker g id (launcher w') = []).
Proof.
  intros Hlo Hhi.
  destruct (wrun_winv base es (mkWorld (NewProcessLauncher base) [] 0)) as (w & E & Hw & _);
    [apply init_winv|done|done|].
  exists w. split; [done|]. split; [apply Hw|]. split; [apply Hw|]. intros id p Hi.
  cbn [wstep]. rewrite Hi. eexists. split; [done|]. unfold StopWorker, reap. cbn [launcher procs].
  assert (procs (launcher w) !! id = Some p) as -> by (by eapply (w_reapers _ _ Hw), list_elem_of_lookup_2).
  rewrite decide_True by done. split; [done|]. intros g. by rewrite lookup_delete_eq.
Qed.

Module Examples.

(** Two launches, a failed one, the exit of the first, and a relaunch. *)
Definition history : list event :=
  [Launch "a" None; Launch "b" None; Launch "c" (Some (errorString "exec")); Exit 1; Launch "d" None].

Lemma ports_are_leased_witness :
  ∃ w, wrun history (mkWorld (NewProcessLauncher 50100) [] 0) = Some w ∧
    port <$> procs (launcher w) !! "b" = Some 50101%Z ∧ port <$> procs (launcher w) !! "d" = Some 50100%Z ∧
    (∀ id p, procs (launcher w) !! id = Some p → (50100 ≤ port p)%Z).
Proof.
  destruct (ports_are_leased 50100 history) as (w & E & _ & _ & H & _); [done|by vm_compute|].
  exists w. split; [exact E|].
  assert (w = default w (wrun history (mkWorld (NewProcessLauncher 50100) [] 0))) as Ew by by rewrite E.
  split; [rewrite Ew; vm_compute; reflexivity|]. split; [rewrite Ew; vm_compute; reflexivity|]. exact H.
Defined.

Lemma reaper_owns_entry_witness :
  ∃ w, wrun history (mkWorld (NewProcessLauncher 50100) [] 0) = Some w ∧ NoDup (reapers w) ∧
    length (reapers w) = 2.
Proof.
  destruct (reaper_owns_entry 50100 history 0) as (w & E & H & _); [done|by vm_compute|].
  exists w. split; [exact E|]. split; [exact H|].
  assert (w = default w (wrun history (mkWorld (NewProcessLauncher 50100) [] 0))) as Ew by by rewrite E.
  rewrite Ew. vm_compute. reflexivity.
Defined.

End Examples.

End Launcher.
