(* ===== verification/Env.v ===== *)
(** * Env: reading the settings from environment variables

    [LoadConfig] and the env* helpers of src/orchestrator/config.go, with the
    parsers of the Go standard library that they use: [strconv.Atoi],
    [strconv.ParseBool] and [time.ParseDuration].  [getenv] is the process
    environment; an unset variable reads as the empty string.  A parser returns
    [None] for every error, since the helpers only test for one. *)

From stdpp Require Import strings gmap sorting prelude pretty.
From Stdlib Require Import SpecFloat Ascii.
From S2P Require Import Prelude Types WorkerPool Metrics Config.

Module Env.

(** ** strconv *)

Definition digit (c : ascii) : option Z :=
  let n := Z.of_N (N_of_ascii c) in
  if ((48 <=? n) && (n <=? 57))%Z then Some (n - 48)%Z else None.

(** A string of digits, continuing from [acc]. *)
Fixpoint digits (s : string) (acc : Z) : option Z :=
  match s with
  | EmptyString => Some acc
  | String c s => d ← digit c; digits s (acc * 10 + d)%Z
  end.

(** An optional sign: whether it is a minus, and the rest. *)
Definition sign (s : string) : bool * string :=
  match s with
  | String "-" s => (true, s)
  | String "+" s => (false, s)
  | s => (false, s)
  end.

Definition Atoi (s : string) : option Z :=
  let '(neg, s) := sign s in
  if String.eqb s "" then None
  else
    n ← digits s 0;
    let n := if (neg : bool) then (- n)%Z else n in
    if ((minInt64 <=? n) && (n <=? maxInt64))%Z then Some n else None.

Definition ParseBool (s : string) : option bool :=
  if bool_decide (s ∈ ["1"; "t"; "T"; "true"; "TRUE"; "True"]) then Some true
  else if bool_decide (s ∈ ["0"; "f"; "F"; "false"; "FALSE"; "False"]) then Some false
  else None.

(** ** time.ParseDuration *)

Definition uint64 (z : Z) : Z := (z mod 2 ^ 64)%Z.

(** Digits at the front of [s], with the checks for 2^63. *)
Fixpoint leadingInt (s : string) (x : Z) : option (Z * string) :=
  match s with
  | EmptyString => Some (x, s)
  | String c s' =>
      match digit c with
      | None => Some (x, s)
      | Some d =>
          if (2 ^ 63 / 10 <? x)%Z then None
          else if (2 ^ 63 <? x * 10 + d)%Z then None
          else leadingInt s' (x * 10 + d)%Z
      end
  end.

(** Digits after the point: as an integer, with the power of ten they are over; digits
    that no longer fit are skipped. *)
Fixpoint leadingFraction (s : string) (x : Z) (scale : spec_float) (overflow : bool) :
    Z * spec_float * string :=
  match s with
  | EmptyString => (x, scale, s)
  | String c s' =>
      match digit c with
      | None => (x, scale, s)
      | Some d =>
          if overflow then leadingFraction s' x scale true
          else if ((2 ^ 63 - 1) / 10 <? x)%Z then leadingFraction s' x scale true
          else if (2 ^ 63 <? x * 10 + d)%Z then leadingFraction s' x scale true
          else leadingFraction s' (x * 10 + d)%Z (SFmul 53 1024 scale (WorkerPool.float64 10)) false
      end
  end.

Definition in_unit (c : ascii) : bool :=
  negb (Ascii.eqb c ".") && match digit c with Some _ => false | None => true end.

(** The characters before the next digit or point, and the rest. *)
Fixpoint leadingUnit (s : string) : string * string :=
  match s with
  | EmptyString => ("", "")
  | String c s' =>
      if in_unit c then let '(u, s') := leadingUnit s' in (String c u, s') else ("", s)
  end.

(** The micro sign is spelled U+00B5 or U+03BC, in UTF-8. *)
Definition unitMap (u : string) : option Z :=
  if String.eqb u "ns" then Some 1%Z
  else if String.eqb u "us" then Some 1000%Z
  else if String.eqb u (String "194" (String "181" "s")) then Some 1000%Z
  else if String.eqb u (String "206" (String "188" "s")) then Some 1000%Z
  else if String.eqb u "ms" then Some millisecond
  else if String.eqb u "s" then Some second
  else if String.eqb u "m" then Some (60 * second)%Z
  else if String.eqb u "h" then Some (3600 * second)%Z
  else None.

(** [v.f] units. *)
Definition quantity (v f : Z) (scale : spec_float) (unit : Z) : option Z :=
  if (2 ^ 63 / unit <? v)%Z then None
  else
    let v := (v * unit)%Z in
    if (0 <? f)%Z
    then
      let v := uint64 (v + Metrics.float_to_int
                 (SFmul 53 1024 (WorkerPool.float64 f) (SFdiv 53 1024 (WorkerPool.float64 unit) scale))) in
      if (2 ^ 63 <? v)%Z then None else Some v
    else Some v.

Definition after_point (s : string) : option string :=
  match s with String "." s => Some s | _ => None end.

(** One number with its unit: its value and the rest of the string. *)
Definition parse_element (s : string) : option (Z * string) :=
  '(v, s1) ← leadingInt s 0;
  let pre := negb (String.length s =? String.length s1)%nat in
  let '(f, scale, s2, post) :=
    match after_point s1 with
    | Some s1' =>
        let '(f, scale, s2) := leadingFraction s1' 0 (WorkerPool.float64 1) false in
        (f, scale, s2, negb (String.length s1' =? String.length s2)%nat)
    | None => (0%Z, WorkerPool.float64 1, s1, false)
    end in
  if negb pre && negb post then None
  else
    let '(u, s3) := leadingUnit s2 in
    if String.eqb u "" then None
    else
      unit ← unitMap u;
      v ← quantity v f scale unit;
      Some (v, s3).

(** The loop of [ParseDuration]; each iteration consumes a character. *)
Fixpoint parse_elements (fuel : nat) (s : string) (d : Z) : option Z :=
  match s with
  | EmptyString => Some d
  | String _ _ =>
      match fuel with
      | O => None
      | S fuel =>
          '(v, s) ← parse_element s;
          let d := uint64 (d + v) in
          if (2 ^ 63 <? d)%Z then None else parse_elements fuel s d
      end
  end.

Definition ParseDuration (s : string) : option Z :=
  let '(neg, s) := sign s in
  if String.eqb s "0" then Some 0%Z
  else if String.eqb s "" then None
  else
    d ← parse_elements (String.length s) s 0;
    if (neg : bool) then Some (int64 (- d))
    else if (maxInt64 <? d)%Z then None else Some d.

(** ** The settings *)

Section settings.
Variable getenv : string → string.

Definition envStr (key def : string) : string :=
  if negb (String.eqb (getenv key) "") then getenv key else def.

Definition envBool (key : string) (def : bool) : bool :=
  if negb (String.eqb (getenv key) "") then default def (ParseBool (getenv key)) else def.

Definition envInt (key : string) (def : Z) : Z :=
  if negb (String.eqb (getenv key) "") then default def (Atoi (getenv key)) else def.

Definition envDuration (key : string) (def : Z) : Z :=
  if negb (String.eqb (getenv key) "") then default def (ParseDuration (getenv key)) else def.

Definition LoadConfig : Config :=
  mkCfg
    (envInt "MINIMODAL_PORT" 50051)
    (envInt "MINIMODAL_HTTP_PORT" 8080)
    (envStr "MINIMODAL_DB_PATH" "minimodal.db")
    (envDuration "MINIMODAL_WORKER_TIMEOUT" (6 * second))
    (envDuration "MINIMODAL_HEARTBEAT_INTERVAL" (2 * second))
    (envInt "MINIMODAL_MAX_RETRIES" 3)
    (envInt "MINIMODAL_MAX_DISPATCH_ATTEMPTS" 30)
    (envDuration "MINIMODAL_EXECUTE_TASK_TIMEOUT" (5 * second))
    (envInt "MINIMODAL_MAX_PAYLOAD_BYTES" (16 * 1024 * 1024))
    (envBool "MINIMODAL_AUTOSCALE" false)
    (envInt "MINIMODAL_AUTOSCALE_MIN" 0)
    (envInt "MINIMODAL_AUTOSCALE_MAX" 4)
    (envInt "MINIMODAL_AUTOSCALE_QUEUE_THRESHOLD" 1)
    (envDuration "MINIMODAL_AUTOSCALE_IDLE_TIMEOUT" (30 * second))
    (envDuration "MINIMODAL_AUTOSCALE_COOLDOWN" (3 * second))
    (envDuration "MINIMODAL_AUTOSCALE_REGISTER_TIMEOUT" (15 * second))
    (envDuration "MINIMODAL_AUTOSCALE_TICK" (500 * millisecond))
    (envStr "MINIMODAL_WORKER_CMD" ".venv/bin/python -m worker.worker")
    (envStr "MINIMODAL_WORKER_DIR" ".")
    (envInt "MINIMODAL_WORKER_BASE_PORT" 50100)
    (envBool "MINIMODAL_RAFT" false)
    (envStr "MINIMODAL_RAFT_ID" "node-1")
    (envStr "MINIMODAL_RAFT_BIND" "127.0.0.1:7000")
    (envStr "MINIMODAL_RAFT_DIR" "raft-data")
    (envStr "MINIMODAL_RAFT_JOIN" "").

End settings.

(** ** Decimal numerals *)

Lemma digit_char n : (n < 10)%N → digit (pretty_N_char n) = Some (Z.of_N n).
Proof. intros Hn. assert (n ∈ [0;1;2;3;4;5;6;7;8;9]%N) as H by (rewrite !list_elem_of_In; cbn; lia).
  repeat (apply elem_of_cons in H as [->|H]; [done|]). by apply not_elem_of_nil in H. Qed.

Lemma pretty_go_app x s : pretty_N_go x s = pretty_N_go x "" +:+ s.
Proof.
  revert s. induction (N.lt_wf_0 x) as [x _ IH]; intros s.
  destruct (decide (x = 0)%N) as [->|]; [done|].
  assert (x / 10 < x)%N as Hlt by (apply N.div_lt; lia).
  rewrite !(pretty_N_go_step x) by lia. rewrite (IH _ Hlt), (IH _ Hlt (String _ "")).
  by rewrite append_assoc.
Qed.

(** Reading a numeral printed in front of [s] continues in [s] with its value. *)
Lemma digits_go x s : digits (pretty_N_go x s) 0 = digits s (Z.of_N x).
Proof.
  revert s. induction (N.lt_wf_0 x) as [x _ IH]; intros s.
  destruct (decide (x = 0)%N) as [->|]; [done|].
  rewrite pretty_N_go_step, IH by (try apply N.div_lt; lia). cbn [digits].
  rewrite digit_char by (apply N.mod_lt; lia). cbn. f_equal.
  rewrite (N.div_mod x 10) at 3 by lia. lia.
Qed.

Lemma leadingInt_go x s :
  (Z.of_N x ≤ 2 ^ 63)%Z → leadingInt (pretty_N_go x s) 0 = leadingInt s (Z.of_N x).
Proof.
  revert s. induction (N.lt_wf_0 x) as [x _ IH]; intros s Hx.
  destruct (decide (x = 0)%N) as [->|]; [done|].
  assert (x = 10 * (x / 10) + x mod 10)%N as E by (apply N.div_mod; lia).
  assert (x / 10 < x)%N as Hlt by (apply N.div_lt; lia).
  rewrite pretty_N_go_step by lia. rewrite IH by lia. cbn [leadingInt].
  rewrite digit_char by (apply N.mod_lt; lia).
  assert (Z.of_N (x / 10) * 10 + Z.of_N (x mod 10) = Z.of_N x)%Z as -> by lia.
  destruct (Z.ltb_spec (2 ^ 63 / 10) (Z.of_N (x / 10))) as [Hov|].
  { exfalso. clear -Hx E Hov. set (q := (x / 10)%N) in *. set (r := (x mod 10)%N) in *.
    clearbody q r. assert (922337203685477580 < Z.of_N q)%Z by exact Hov. clear Hov. lia. }
  by destruct (Z.ltb_spec (2 ^ 63) (Z.of_N x)); [lia|].
Qed.

(** A numeral starts with a digit. *)
Lemma pretty_go_digit x s :
  x ≠ 0%N → ∃ c s', pretty_N_go x s = String c s' ∧ is_Some (digit c).
Proof.
  revert s. induction (N.lt_wf_0 x) as [x _ IH]; intros s Hx. rewrite pretty_N_go_step by lia.
  destruct (decide (x / 10 = 0)%N) as [->|Hd]; [|apply IH; [apply N.div_lt; lia|done]].
  rewrite pretty_N_go_0. do 2 eexists. split; [done|].
  rewrite digit_char by (apply N.mod_lt; lia). by eexists.
Qed.

Lemma pretty_digit (x : N) s : ∃ c s', pretty x +:+ s = String c s' ∧ is_Some (digit c).
Proof.
  unfold pretty, pretty_N. case_decide; [by exists "0"%char, s; split; [|eexists]|].
  rewrite <- pretty_go_app. by apply pretty_go_digit.
Qed.

Lemma digits_pretty (x : N) : digits (pretty x) 0 = Some (Z.of_N x).
Proof. unfold pretty, pretty_N. case_decide as E; [by rewrite E|]. by rewrite digits_go. Qed.

Lemma leadingInt_pretty (x : N) s :
  (Z.of_N x ≤ 2 ^ 63)%Z → leadingInt (pretty x +:+ s) 0 = leadingInt s (Z.of_N x).
Proof.
  intros Hx. unfold pretty, pretty_N. case_decide as E; [by rewrite E|].
  rewrite <- pretty_go_app. by apply leadingInt_go.
Qed.

Lemma sign_digit c s : is_Some (digit c) → sign (String c s) = (false, String c s).
Proof.
  intros [d Hd]. unfold sign.
  destruct c as [[] [] [] [] [] [] [] []]; try done; by vm_compute in Hd.
Qed.

Lemma sign_pretty (x : N) s : sign (pretty x +:+ s) = (false, pretty x +:+ s).
Proof. destruct (pretty_digit x s) as (c & s' & -> & Hc). by apply sign_digit. Qed.

Lemma pretty_nonempty (x : N) s : (pretty x +:+ s =? "")%string = false.
Proof. by destruct (pretty_digit x s) as (c & s' & -> & _). Qed.

Lemma Atoi_pretty n : in_int64 n → Atoi (pretty n) = Some n.
Proof.
  intros [Hlo Hhi]. destruct n as [|p|p]; [done| |].
  - change (pretty (Zpos p)) with (pretty (Npos p)). unfold Atoi.
    pose proof (sign_pretty (Npos p) "") as E. pose proof (pretty_nonempty (Npos p) "") as En.
    rewrite append_nil_r in E, En. rewrite E, En, digits_pretty. cbn -[minInt64 maxInt64 Z.leb].
    by rewrite (proj2 (Z.leb_le _ _) Hlo), (proj2 (Z.leb_le _ _) Hhi).
  - change (pretty (Zneg p)) with (String "-" (pretty (Npos p))). unfold Atoi. cbn [sign].
    pose proof (pretty_nonempty (Npos p) "") as En. rewrite append_nil_r in En.
    rewrite En, digits_pretty. cbn [mbind option_bind].
    change (- Z.of_N (N.pos p))%Z with (Z.neg p).
    by rewrite (proj2 (Z.leb_le _ _) Hlo), (proj2 (Z.leb_le _ _) Hhi).
Qed.

(** ** Durations *)

Lemma leadingInt_length s x v s' :
  leadingInt s x = Some (v, s') → String.length s' ≤ String.length s.
Proof.
  revert x. induction s as [|c s IH]; intros x; cbn; [intros; by simplify_eq|].
  destruct (digit c); [|intros; by simplify_eq].
  repeat (destruct (_ <? _)%Z; [done|]). intros H%IH. lia.
Qed.

Lemma leadingFraction_length s x scale o :
  String.length (leadingFraction s x scale o).2 ≤ String.length s.
Proof.
  revert x scale o. induction s as [|c s IH]; intros x scale o; cbn; [done|].
  destruct (digit c); [|done].
  destruct o; [etrans; [apply IH|lia]|].
  repeat (destruct (_ <? _)%Z; [etrans; [apply IH|lia]|]). etrans; [apply IH|lia].
Qed.

Lemma leadingUnit_length s :
  String.length (leadingUnit s).1 + String.length (leadingUnit s).2 = String.length s.
Proof.
  induction s as [|c s IH]; cbn; [done|]. destruct (in_unit c); [|done].
  destruct (leadingUnit s). cbn in *. lia.
Qed.

Lemma after_point_length s s' : after_point s = Some s' → String.length s' < String.length s.
Proof.
  destruct s as [|[[] [] [] [] [] [] [] []] s]; try done. intros [= <-]. cbn. lia.
Qed.

Lemma parse_element_length s v s' :
  parse_element s = Some (v, s') → String.length s' < String.length s.
Proof.
  unfold parse_element. destruct (leadingInt s 0) as [[v1 s1]|] eqn:Ei; [|done].
  apply leadingInt_length in Ei. cbn [mbind option_bind].
  set (rest := match after_point s1 with Some _ => _ | None => _ end).
  assert (String.length rest.1.2 ≤ String.length s1) as Hr.
  { subst rest. destruct (after_point s1) as [s1'|] eqn:Ep; [|done].
    pose proof (leadingFraction_length s1' 0 (WorkerPool.float64 1) false) as Hf.
    destruct (leadingFraction s1' 0 (WorkerPool.float64 1) false) as [[f scale] s2].
    apply after_point_length in Ep. cbn in *. lia. }
  destruct rest as [[[f scale] s2] post]. cbn in Hr. destruct (_ && _); [done|].
  pose proof (leadingUnit_length s2) as Hu. destruct (leadingUnit s2) as [u s3]. cbn in Hu.
  destruct (String.eqb_spec u "") as [|Hne]; [done|].
  destruct (unitMap u) as [unit|]; [|done]. cbn. destruct (quantity v1 f scale unit); [|done].
  cbn. intros [= _ <-]. destruct u; [done|]. cbn in Hu. lia.
Qed.

(** The length of the string is fuel enough: more of it changes nothing. *)
Lemma parse_elements_fuel f1 f2 s d :
  String.length s ≤ f1 → String.length s ≤ f2 → parse_elements f1 s d = parse_elements f2 s d.
Proof.
  revert f2 s d. induction f1 as [|f1 IH]; intros f2 s d H1 H2.
  { by destruct s; [destruct f2|cbn in H1; lia]. }
  destruct s as [|c s]; [by destruct f2|]. destruct f2 as [|f2]; [cbn in H2; lia|].
  cbn [parse_elements]. destruct (parse_element (String c s)) as [[v s']|] eqn:E; [|done].
  apply parse_element_length in E. cbn [mbind option_bind].
  destruct (_ <? _)%Z; [done|]. apply IH; lia.
Qed.

(** A unit is read back whole. *)
Lemma unit_shape u unit :
  unitMap u = Some unit →
  (1 ≤ unit)%Z ∧ leadingUnit u = (u, "") ∧ u ≠ "" ∧ u ≠ "0" ∧
  (∀ x, leadingInt u x = Some (x, u)) ∧ after_point u = None.
Proof.
  unfold unitMap.
  repeat match goal with |- context [String.eqb u ?v] => destruct (String.eqb_spec u v) as [->|_] end;
    intros [= <-]; (split; [by vm_compute|]); (split; [vm_compute; reflexivity|]);
    do 2 (split; [discriminate|]); split; intros; reflexivity.
Qed.

Lemma parse_element_pretty (x : N) u unit :
  unitMap u = Some unit → (Z.of_N x * unit ≤ 2 ^ 63)%Z →
  parse_element (pretty x +:+ u) = Some (Z.of_N x * unit, "")%Z.
Proof.
  intros Hu Hx. pose proof (unit_shape u unit Hu) as (H1 & Hl & Hne & _ & Hi & Hdot).
  unfold parse_element. rewrite leadingInt_pretty, Hi by nia. cbn [mbind option_bind].
  assert (negb (String.length (pretty x +:+ u) =? String.length u)%nat = true) as ->.
  { apply negb_true_iff, Nat.eqb_neq. rewrite length_append.
    destruct (pretty_digit x "") as (c & s' & E & _). rewrite append_nil_r in E. rewrite E. cbn. lia. }
  rewrite Hdot, Hl. cbn [negb andb]. destruct (String.eqb_spec u ""); [done|]. rewrite Hu. cbn [mbind option_bind].
  unfold quantity. destruct (Z.ltb_spec (2 ^ 63 / unit) (Z.of_N x)) as [Hlt|]; [|done].
  exfalso. assert (Z.of_N x ≤ 2 ^ 63 / unit)%Z; [|lia]. apply Z.div_le_lower_bound; lia.
Qed.

Lemma ParseDuration_pretty (x : N) u unit :
  unitMap u = Some unit → (Z.of_N x * unit ≤ maxInt64)%Z →
  ParseDuration (pretty x +:+ u) = Some (Z.of_N x * unit)%Z.
Proof.
  intros Hu Hx. unfold maxInt64 in Hx. unfold ParseDuration. rewrite sign_pretty.
  destruct (unit_shape u unit Hu) as (H1 & _ & Hne & _).
  destruct (pretty_digit x u) as (c & s' & E & _).
  assert (String.length s' ≠ 0) as Hs'.
  { apply (f_equal String.length) in E. rewrite length_append in E. cbn in E.
    destruct (pretty_digit x "") as (c2 & s2 & E2 & _). rewrite append_nil_r in E2. rewrite E2 in E.
    cbn in E. destruct u; [done|]. cbn in E. lia. }
  destruct (String.eqb_spec (pretty x +:+ u) "0") as [E0|_].
  { rewrite E0 in E. injection E as _ <-. done. }
  rewrite pretty_nonempty. rewrite E. cbn [String.length parse_elements]. rewrite <- E.
  rewrite (parse_element_pretty x u unit) by (done || lia). cbn [mbind option_bind].
  unfold uint64. rewrite Z.mod_small by lia.
  destruct (Z.ltb_spec (2 ^ 63) (0 + Z.of_N x * unit)); [lia|].
  assert (∀ n d, parse_elements n "" d = Some d) as -> by (by intros []).
  cbn [mbind option_bind]. rewrite Z.add_0_l.
  by destruct (Z.ltb_spec maxInt64 (Z.of_N x * unit)); [unfold maxInt64 in *; lia|].
Qed.

(** ** Properties *)

(** Settings are read back as they are printed: a variable that holds a decimal
    numeral of an [int] gives that number, one that holds a numeral with a unit (any of
    the eight Go units) gives that many nanoseconds as long as they fit a [Duration],
    "true" and "false" give the boolean; and an unset variable, or one that does not
    parse, gives the default. *)
Theorem settings_are_read getenv key :
  (∀ n def, in_int64 n → getenv key = pretty n → envInt getenv key def = n) ∧
  (∀ (x : N) u unit def, unitMap u = Some unit → (Z.of_N x * unit ≤ maxInt64)%Z →
     getenv key = pretty x +:+ u → envDuration getenv key def = (Z.of_N x * unit)%Z) ∧
  (∀ (b : bool) def, getenv key = (if b then "true" else "false") → envBool getenv key def = b) ∧
  (∀ def, getenv key = "" ∨ Atoi (getenv key) = None → envInt getenv key def = def) ∧
  (∀ def, getenv key = "" ∨ ParseDuration (getenv key) = None → envDuration getenv key def = def) ∧
  (∀ def, getenv key = "" ∨ ParseBool (getenv key) = None → envBool getenv key def = def).
Proof.
  unfold envInt, envDuration, envBool. repeat split.
  - intros n def Hn ->. destruct (String.eqb_spec (pretty n) "") as [E|_].
    + apply Atoi_pretty in Hn. by rewrite E in Hn.
    + cbn [negb]. by rewrite Atoi_pretty.
  - intros x u unit def Hu Hx ->. rewrite pretty_nonempty. cbn [negb].
    by rewrite (ParseDuration_pretty x u unit).
  - intros [] def ->; done.
  - intros def [->| ->]; [done|]. by destruct (_ =? "")%string.
  - intros def [->| ->]; [done|]. by destruct (_ =? "")%string.
  - intros def [->| ->]; [done|]. by destruct (_ =? "")%string.
Qed.

Module Examples.

(** Every setting has a default. *)
Example defaults :
  LoadConfig (λ _, "") =
  mkCfg 50051 8080 "minimodal.db" 6000000000 2000000000 3 30 5000000000 16777216
    false 0 4 1 30000000000 3000000000 15000000000 500000000
    ".venv/bin/python -m worker.worker" "." 50100 false "node-1" "127.0.0.1:7000" "raft-data" "".
Proof. vm_compute. reflexivity. Qed.

(** Sums, fractions, signs and errors of durations. *)
Example durations :
  ParseDuration <$> ["1h15m30.918s"; "-1.5h"; "+5s"; ".5ms"; "0"; "3"; ""; "1.s"; "."; "9223372036854775808ns"] =
  [Some 4530918000000; Some (-5400000000000); Some 5000000000; Some 500000; Some 0; None; None;
   Some 1000000000; None; None]%Z.
Proof. vm_compute. reflexivity. Qed.

End Examples.

End Env.
