(* ===== verification/Http.v ===== *)
(** * The HTTP surface

    src/orchestrator/http.go: the routes that [NewHTTPServer] registers, the
    request multiplexer of net/http as far as these routes use it, and the
    handlers.  Request paths are without percent-escapes.  The file server behind
    the dashboard and the profiling handlers are packages of their own: their
    responses are arguments. *)

From stdpp Require Import strings gmap sorting prelude pretty.
From Stdlib Require Import SpecFloat.
From S2P Require Import Prelude Paths Types Prog Json Bolt Config StoreSpec JobStore RaftFsm RaftStore.
From S2P Require Import WorkerPool Lru LogHub Metrics State AnyStore Scheduler Watch Server Cluster.
From S2P Require Import Invariant Safety Sequential System.

(** ** Requests and responses *)

(** [Body] is the first JSON value of the body; [None] when there is none or it is
    malformed. *)
Record request : Type := mkRequest {
  Method : string;
  Path : string;
  Body : option json;
}.

Inductive payload : Type :=
| PText (text : string)
| PJson (j : json)
| PSnapshot (m : MetricsSnapshot)
| PStatus (st : RaftStatus)
| PNone.

Record response : Type := mkResponse {
  Code : Z;
  Header : gmap string string;
  Payload : payload;
}.

Definition StatusOK : Z := 200.
Definition StatusMovedPermanently : Z := 301.
Definition StatusBadRequest : Z := 400.
Definition StatusNotFound : Z := 404.
Definition StatusMethodNotAllowed : Z := 405.
Definition StatusConflict : Z := 409.
Definition StatusInternalServerError : Z := 500.
Definition StatusServiceUnavailable : Z := 503.

Definition newline : string := String (Ascii.ascii_of_nat 10) "".

(** [http.Error(w, msg, code)]; [hdr] are the headers set before. *)
Definition http_Error (hdr : gmap string string) (msg : string) (code : Z) : response :=
  mkResponse code
    (<["X-Content-Type-Options" := "nosniff"]> (<["Content-Type" := "text/plain; charset=utf-8"]> hdr))
    (PText (msg +:+ newline)).

Definition http_NotFound : response := http_Error ∅ "404 page not found" StatusNotFound.

(** ** Routes *)

Inductive handler_kind : Type :=
| HMetrics
| HHealthz
| HRaftJoin
| HRaftStatus
| HPprof (what : string)
| HDashboard (dir : string)
| HFallback.

Record HTTPServer : Type := mkHTTPServer {
  mux : list (string * handler_kind);
  Addr : string;
  ReadHeaderTimeout : Z;
}.

(** [os.Executable] and [os.Stat] are the arguments [exe] and [exists_]; [abs] is
    [filepath.Abs]. *)
Definition dashboard_candidates (env : string) (exe : option string) : list string :=
  (if String.eqb env "" then [] else [env])
    ++ match exe with
       | Some exe => [Join [Dir exe; ".."; "dashboard"]; Join [Dir exe; "dashboard"]]
       | None => []
       end
    ++ ["dashboard"; "./dashboard"].

Fixpoint first_dashboard (exists_ : string → bool) (abs : string → string) (candidates : list string) :
    string :=
  match candidates with
  | [] => ""
  | c :: cs =>
      if exists_ (Join [c; "index.html"]) then abs c else first_dashboard exists_ abs cs
  end.

Definition resolveDashboardPath (env : string) (exe : option string) (exists_ : string → bool)
    (abs : string → string) : string :=
  first_dashboard exists_ abs (dashboard_candidates env exe).

Definition pprof_routes : list (string * handler_kind) :=
  [ ("/debug/pprof/", HPprof "index");
    ("/debug/pprof/cmdline", HPprof "cmdline");
    ("/debug/pprof/profile", HPprof "profile");
    ("/debug/pprof/symbol", HPprof "symbol");
    ("/debug/pprof/trace", HPprof "trace") ].

(** [raft] is [app.RaftStore() != nil], [pprof] the value of MINIMODAL_PPROF, and
    [dashPath] what [resolveDashboardPath] found. *)
Definition NewHTTPServer (raft : bool) (pprof dashPath : string) (port : Z) : HTTPServer :=
  mkHTTPServer
    ([("/metrics", HMetrics); ("/healthz", HHealthz)]
       ++ (if raft then [("/raft/join", HRaftJoin); ("/raft/status", HRaftStatus)] else [])
       ++ (if String.eqb pprof "1" then pprof_routes else [])
       ++ [("/", if String.eqb dashPath "" then HFallback else HDashboard dashPath)])
    (":" +:+ pretty port) (5 * second).

(** ** The multiplexer *)

(** A pattern that ends in a slash matches what it is a prefix of. *)
Definition pattern_matches (pat path : string) : bool :=
  if ends_slash pat then String.prefix pat path else String.eqb pat path.

(** The longest pattern that matches. *)
Definition better (path : string) (best : option (string * handler_kind)) (r : string * handler_kind) :
    option (string * handler_kind) :=
  if pattern_matches r.1 path
  then match best with
       | Some b => if String.length b.1 <? String.length r.1 then Some r else best
       | None => Some r
       end
  else best.

Definition mux_match (routes : list (string * handler_kind)) (path : string) :
    option (string * handler_kind) :=
  foldl (better path) None routes.

Definition exactMatch (m : option (string * handler_kind)) (path : string) : bool :=
  match m with Some r => String.eqb r.1 path | None => false end.

(** [cleanPath] of net/http. *)
Definition cleanPath (p : string) : string :=
  if String.eqb p "" then "/"
  else
    let p := if rooted p then p else String slash p in
    let np := Clean p in
    if ends_slash p && negb (String.eqb np "/") then np +:+ "/" else np.

Inductive found : Type :=
| Handle (h : handler_kind)
| Redirect (target : string)
| Missing.

(** [findHandler]. *)
Definition findHandler (srv : HTTPServer) (req : request) : found :=
  let path := if String.eqb (Method req) "CONNECT" then Path req else cleanPath (Path req) in
  let n := mux_match (mux srv) path in
  let slashed := path +:+ "/" in
  if negb (exactMatch n path) && negb (ends_slash path) && negb (String.eqb path "")
     && exactMatch (mux_match (mux srv) slashed) slashed
  then Redirect (cleanPath (Path req) +:+ "/")
  else if negb (String.eqb path (Path req)) then Redirect path
  else match n with Some r => Handle r.2 | None => Missing end.

(** ** Handlers *)

Section handlers.
Context {B : BoltAPI}.
Variable cfg : Config.

(** The server's state, and the voters that raft was asked to add: ID and address. *)
Record web : Type := mkWeb {
  w_sys : sys Store;
  w_added : list (string * string);
}.

(** What the environment decides for one step of a handler. *)
Record henv : Type := mkHenv {
  h_oracle : oracle Store;
  h_raft : RaftStore.RaftEnv;
  h_addVoter : option error;
  h_view : RaftView;
}.

Abbreviation webprog := (prog web henv).

Definition set_sys (s : sys Store) (w : web) : web := mkWeb s (w_added w).

(** A step of the server as a step of a handler. *)
Definition app {X} (p : prog (sys Store) (oracle Store) X) : webprog X :=
  zoom w_sys set_sys h_oracle p.

Definition finite (f : spec_float) : bool :=
  match f with S754_zero _ | S754_finite _ _ _ => true | _ => false end.

(** [json.Encoder] refuses a float that is not a number. *)
Definition snapshot_encodes (m : MetricsSnapshot) : bool :=
  finite (ErrorRate m) && finite (MeanColdStartMs m)
    && forallb (λ w, finite (WorkerPool.m_Utilization w)) (Workers m).

Definition errUnsupportedValue : error := errorString "json: unsupported value: NaN".

Definition cors_json : gmap string string :=
  <["Content-Type" := "application/json"]> {["Access-Control-Allow-Origin" := "*"]}.

Definition handleMetrics : webprog response :=
  snap ← app MetricsSnapshot_;
  mret (if snapshot_encodes snap then mkResponse StatusOK cors_json (PSnapshot snap)
        else http_Error cors_json (Error errUnsupportedValue) StatusInternalServerError).

Definition handleHealthz : webprog response :=
  err ← app store_Ping;
  let hdr : gmap string string := {["Content-Type" := "text/plain"]} in
  mret (match err with
        | Some e => mkResponse StatusServiceUnavailable hdr
                      (PText ("unhealthy: " +:+ Error e +:+ newline))
        | None => mkResponse StatusOK hdr (PText ("ok" +:+ newline))
        end).

(** Member names of a struct are matched without regard to case. *)
Definition lower (c : Ascii.ascii) : Ascii.ascii :=
  let n := Ascii.nat_of_ascii c in
  if (65 <=? n) && (n <=? 90) then Ascii.ascii_of_nat (n + 32) else c.

Fixpoint fold_case (s : string) : string :=
  match s with "" => "" | String c s => String (lower c) (fold_case s) end.

(** A string field: [null] leaves it, another literal is an error that is
    remembered while decoding goes on. *)
Definition decode_string (old : string) (j : json) : string * bool :=
  match j with
  | JStr s => (s, true)
  | JNull => (old, true)
  | _ => (old, false)
  end.

Definition join_member (acc : (string * string) * bool) (m : string * json) :
    (string * string) * bool :=
  let '((id, addr), ok) := acc in
  if String.eqb (fold_case m.1) "id"
  then let '(id, good) := decode_string id m.2 in ((id, addr), ok && good)
  else if String.eqb (fold_case m.1) "addr"
  then let '(addr, good) := decode_string addr m.2 in ((id, addr), ok && good)
  else acc.

(** [json.NewDecoder(r.Body).Decode(&req)]: the ID and the address, unless there is an
    error. *)
Definition join_decode (body : option json) : option (string * string) :=
  match body with
  | None => None
  | Some JNull => Some ("", "")
  | Some (JObj ms) =>
      match foldl join_member (("", ""), true) ms with
      | (r, true) => Some r
      | (_, false) => None
      end
  | Some _ => None
  end.

Definition bad_join : response :=
  http_Error ∅ ("body must be {" +:+ quoted "id" +:+ ": ..., " +:+ quoted "addr" +:+ ": ...}")
    StatusBadRequest.

(** [rs.Join(req.ID, req.Addr)]; without a RaftStore the receiver is nil. *)
Definition raft_Join (id addr : string) : webprog (option error) :=
  act (λ h w,
    match RaftStore_ (w_sys w) with
    | None => Panic
    | Some _ =>
        Next (RaftStore.Join (h_raft h) (h_addVoter h))
          (if RaftStore.IsLeader (RaftStore.State (h_raft h))
           then mkWeb (w_sys w) (w_added w ++ [(id, addr)]) else w)
    end).

Definition handleRaftJoin (req : request) : webprog response :=
  if negb (String.eqb (Method req) "POST")
  then mret (http_Error ∅ "POST only" StatusMethodNotAllowed)
  else
    match join_decode (Body req) with
    | None => mret bad_join
    | Some (id, addr) =>
        if String.eqb id "" || String.eqb addr "" then mret bad_join
        else
          err ← raft_Join id addr;
          mret (match err with
                | Some e => mkResponse StatusConflict {["Content-Type" := "application/json"]}
                              (PJson (JObj [("error", JStr (Error e))]))
                | None => mkResponse StatusNoContent ∅ PNone
                end)
    end.

Definition handleRaftStatus : webprog response :=
  act (λ h w,
    match RaftStore_ (w_sys w) with
    | None => Panic
    | Some _ => Next (mkResponse StatusOK cors_json (PStatus (Status_ (h_view h) (RaftID cfg)))) w
    end).

(** The handler at "/" when there is no dashboard. *)
Definition handleRoot (req : request) : response :=
  if negb (String.eqb (Path req) "/") then http_NotFound
  else mkResponse StatusOK {["Content-Type" := "text/plain"]}
         (PText ("minimodal orchestrator — GET /metrics for JSON" +:+ newline)).

(** The responses of the file server on a directory and of the profiling handlers. *)
Variable fileServer : string → request → response.
Variable pprofHandler : string → request → response.

Definition serve_handler (h : handler_kind) (req : request) : webprog response :=
  match h with
  | HMetrics => handleMetrics
  | HHealthz => handleHealthz
  | HRaftJoin => handleRaftJoin req
  | HRaftStatus => handleRaftStatus
  | HPprof what => mret (pprofHandler what req)
  | HDashboard dir => mret (fileServer dir req)
  | HFallback => mret (handleRoot req)
  end.

(** [ServeMux.ServeHTTP]; of a redirect, the text of its body is left out. *)
Definition ServeHTTP (srv : HTTPServer) (req : request) : webprog response :=
  match findHandler srv req with
  | Handle h => serve_handler h req
  | Redirect target => mret (mkResponse StatusMovedPermanently {["Location" := target]} PNone)
  | Missing => mret http_NotFound
  end.

(** [HTTPServer.Run]: the listener's error or the result of the shutdown, whichever
    the select takes first. *)
Inductive run_select : Type :=
| CtxDoneFirst (shutdownErr : option error)
| ServeReturned (err : option error).

Definition Run (sel : run_select) : option error :=
  match sel with
  | CtxDoneFirst e => e
  | ServeReturned err =>
      match err with
      | Some e => if bool_decide (e = http_ErrServerClosed) then None else Some e
      | None => None
      end
  end.

End handlers.

(** ** Routing *)

(** The handler of a path, without a multiplexer. *)
Definition pprof_page (path : string) : string :=
  if String.eqb path "/debug/pprof/cmdline" then "cmdline"
  else if String.eqb path "/debug/pprof/profile" then "profile"
  else if String.eqb path "/debug/pprof/symbol" then "symbol"
  else if String.eqb path "/debug/pprof/trace" then "trace"
  else "index".

Definition handler_of (raft : bool) (pprof dashPath path : string) : handler_kind :=
  if String.eqb path "/metrics" then HMetrics
  else if String.eqb path "/healthz" then HHealthz
  else if raft && String.eqb path "/raft/join" then HRaftJoin
  else if raft && String.eqb path "/raft/status" then HRaftStatus
  else if String.eqb pprof "1" && String.prefix "/debug/pprof/" path then HPprof (pprof_page path)
  else if String.eqb dashPath "" then HFallback else HDashboard dashPath.

Lemma prefix_slash path : rooted path = true → String.prefix "/" path = true.
Proof.
  destruct path as [|c p]; [done|]. unfold rooted, is_slash. intros ->%Ascii.eqb_eq. by destruct p.
Qed.

(** A path that is not the pattern. *)
Lemma better_miss path best pat h :
  ends_slash pat = false → path ≠ pat → better path best (pat, h) = best.
Proof.
  unfold better, pattern_matches. cbn [fst]. intros -> Hne.
  by destruct (String.eqb_spec pat path) as [->|].
Qed.

Lemma mux_match_spec raft pprof dashPath port path :
  rooted path = true →
  snd <$> mux_match (mux (NewHTTPServer raft pprof dashPath port)) path =
    Some (handler_of raft pprof dashPath path).
Proof.
  intros Hr%prefix_slash. unfold mux_match, NewHTTPServer, handler_of, pprof_page, pprof_routes.
  destruct raft, (String.eqb pprof "1"); cbn [mux Datatypes.app foldl andb];
    repeat match goal with
    | |- context [String.eqb path ?p] => destruct (String.eqb_spec path p) as [->|]; [reflexivity|]
    end;
    repeat match goal with
    | |- context [better path ?b (?p, ?h)] => rewrite (better_miss path b p h); [|reflexivity|done]
    end;
    unfold better, pattern_matches; cbn [fst ends_slash is_slash];
    try destruct (String.prefix "/debug/pprof/" path); cbn - [String.prefix]; rewrite ?Hr; reflexivity.
Qed.

Lemma mux_match_in routes path r : mux_match routes path = Some r → r ∈ routes.
Proof.
  unfold mux_match.
  assert (∀ best, foldl (better path) best routes = Some r → best = Some r ∨ r ∈ routes) as H.
  { induction routes as [|r0 routes IH]; intros best; cbn; [by left|]. intros [Hb|?]%IH; [|by right; right].
    revert Hb. unfold better. destruct (pattern_matches _ _); [|by left].
    destruct best as [b|]; [destruct (_ <? _)|]; intros ?; simplify_eq; first [by left | right; by left]. }
  intros Hm. by destruct (H None Hm) as [?|?].
Qed.

Lemma ends_slash_app p : ends_slash (p +:+ "/") = true.
Proof.
  induction p as [|c p IH]; [done|]. change (ends_slash (String c (p +:+ "/")) = true).
  destruct (p +:+ "/") as [|c' q]; [done|exact IH].
Qed.

Lemma append_slash_inj p q : p +:+ "/" = q +:+ "/" → p = q.
Proof.
  revert q. induction p as [|c p IH]; intros [|c' q]; cbn; intros E; [done|..].
  - by destruct q.
  - by destruct p.
  - injection E as -> E. f_equal. by apply IH.
Qed.

(** The patterns that end in a slash. *)
Lemma slash_patterns raft pprof dashPath port pat h :
  (pat, h) ∈ mux (NewHTTPServer raft pprof dashPath port) → ends_slash pat = true →
  pat = "/" ∨ pprof = "1" ∧ pat = "/debug/pprof/".
Proof.
  unfold NewHTTPServer, pprof_routes. cbn [mux].
  destruct raft, (String.eqb_spec pprof "1"); cbn [Datatypes.app]; rewrite !elem_of_cons, elem_of_nil;
    intros H; repeat destruct H as [H|H]; simplify_eq; vm_compute; auto; done.
Qed.

(** A path whose slashed form is a pattern. *)
Lemma slash_redirect raft pprof dashPath port path :
  let srv := NewHTTPServer raft pprof dashPath port in
  rooted path = true →
  negb (exactMatch (mux_match (mux srv) path) path) && negb (ends_slash path) && negb (String.eqb path "")
    && exactMatch (mux_match (mux srv) (path +:+ "/")) (path +:+ "/") =
  String.eqb pprof "1" && String.eqb path "/debug/pprof".
Proof.
  intros srv Hr. apply Bool.eq_true_iff_eq. rewrite !andb_true_iff. split.
  - intros [_ Hex]. unfold exactMatch in Hex.
    destruct (mux_match (mux srv) (path +:+ "/")) as [[pat h]|] eqn:Em; [|done].
    apply String.eqb_eq in Hex. cbn in Hex. subst pat. apply mux_match_in in Em.
    destruct (slash_patterns _ _ _ _ _ _ Em (ends_slash_app path)) as [E|[-> E]].
    + change "/" with ("" +:+ "/") in E at 2. by apply append_slash_inj in E as ->.
    + change "/debug/pprof/" with ("/debug/pprof" +:+ "/") in E. by apply append_slash_inj in E as ->.
  - intros [->%String.eqb_eq ->%String.eqb_eq]. subst srv. destruct raft; by vm_compute.
Qed.

Lemma cleanPath_rooted p : rooted (cleanPath p) = true.
Proof.
  unfold cleanPath. destruct (String.eqb p ""); [done|].
  set (p' := if rooted p then p else String slash p).
  assert (rooted p' = true) as Hr by (subst p'; by destruct (rooted p) eqn:E).
  assert (rooted (Clean p') = true) as Hc.
  { unfold Clean. destruct (String.eqb_spec p' "") as [->|]; [done|]. by rewrite Hr. }
  destruct (_ && _); [|done]. by destruct (Clean p').
Qed.

(** Routing.  For every request but CONNECT, whatever its path: a path that is not
    clean is redirected to its clean form; "/debug/pprof" is redirected to the
    profiling index when profiling is on; any other path gets the handler that the
    table of routes names, where the raft endpoints exist only in raft mode, the
    profiling pages only when MINIMODAL_PPROF is "1", and everything else is the
    dashboard's.  So the longest-pattern multiplexer is this table. *)
Theorem routing_correct raft pprof dashPath port req :
  let path := cleanPath (Path req) in
  Method req ≠ "CONNECT" →
  findHandler (NewHTTPServer raft pprof dashPath port) req =
    if String.eqb pprof "1" && String.eqb path "/debug/pprof" then Redirect "/debug/pprof/"
    else if negb (String.eqb path (Path req)) then Redirect path
    else Handle (handler_of raft pprof dashPath path).
Proof.
  intros path Hm%String.eqb_neq. unfold findHandler. rewrite Hm. fold path.
  pose proof (cleanPath_rooted (Path req)) as Hr. fold path in Hr.
  rewrite slash_redirect by done. destruct (_ && _) eqn:E.
  - apply andb_true_iff in E as [_ ->%String.eqb_eq]. done.
  - destruct (negb _); [done|]. pose proof (mux_match_spec raft pprof dashPath port path Hr) as H.
    destruct (mux_match _ path) as [r|]; [|done]. injection H as ->. done.
Qed.

(** ** Every request is answered *)

Section answers.
Context {B : BoltAPI} {BL : BoltLaws B}.
Variable cfg : Config.
Variables (fileServer pprofHandler : string → request → response).

Abbreviation anything := (λ _ _, True).

Lemma app_wp {X} (p : prog (sys Store) (oracle Store) X) w (Q : X → web → Prop) :
  wp anything p (w_sys w) (λ x s, Q x (set_sys s w)) → wp anything (app p) w Q.
Proof.
  apply (wp_zoom w_sys set_sys h_oracle (λ _ _, eq_refl) (λ _ _ _, eq_refl) (λ w, match w with
    mkWeb _ _ => eq_refl end) anything).
Qed.

Lemma MetricsSnapshot_reads (s : sys Store) (Q : MetricsSnapshot → sys Store → Prop) :
  Inv s → (∀ m, Q m s) → wp anything MetricsSnapshot_ s Q.
Proof.
  intros HI HQ. apply wp_bind. intros o _.
  destruct (Metrics.snapshot_total _ (inv_metrics _ HI)) as [p ->].
  do 7 (apply wp_bind, wp_reads; intros ? _). by apply wp_ret.
Qed.

(** The voter the request asks for is added, or nothing happens. *)
Definition adds_voter (req : request) (w w' : web) : Prop :=
  Method req = "POST" ∧
  ∃ id addr, join_decode (Body req) = Some (id, addr) ∧ id ≠ "" ∧ addr ≠ "" ∧
    w_added w' = w_added w ++ [(id, addr)].

Definition raft_mode (w : web) : bool :=
  match RaftStore_ (w_sys w) with Some _ => true | None => false end.

Lemma handleRaftJoin_wp req w :
  raft_mode w = true →
  wp anything (handleRaftJoin req) w
    (λ _ w', w_sys w' = w_sys w ∧ (w_added w' = w_added w ∨ adds_voter req w w')).
Proof.
  intros Hraft. unfold handleRaftJoin. destruct (String.eqb_spec (Method req) "POST"); cbn [negb];
    [|apply wp_ret; auto].
  destruct (join_decode (Body req)) as [[id addr]|] eqn:Ed; [|apply wp_ret; auto].
  destruct (String.eqb_spec id ""); [apply wp_ret; auto|].
  destruct (String.eqb_spec addr ""); [apply wp_ret; auto|]. cbn [orb].
  apply wp_bind. intros h _. unfold raft_mode in Hraft. destruct (RaftStore_ (w_sys w)); [|done].
  apply wp_ret, wp_ret. destruct (RaftStore.IsLeader _); [|by auto]. split; [done|]. right. split; [done|]. eauto 8.
Qed.

(** The routes of the raft endpoints. *)
Lemma raft_routes raft pprof dashPath port pat h :
  (pat, h) ∈ mux (NewHTTPServer raft pprof dashPath port) →
  (h = HRaftJoin → pat = "/raft/join") ∧ (h = HRaftJoin ∨ h = HRaftStatus → raft = true).
Proof.
  unfold NewHTTPServer, pprof_routes. cbn [mux].
  destruct raft, (String.eqb pprof "1"), (String.eqb dashPath ""); cbn [Datatypes.app];
    rewrite !elem_of_cons, elem_of_nil; intros H; repeat destruct H as [H|H]; simplify_eq;
    (split; [done|]); intros [?|?]; done.
Qed.

Lemma mux_match_matches routes path r : mux_match routes path = Some r → pattern_matches r.1 path = true.
Proof.
  unfold mux_match.
  assert (∀ best, (∀ b, best = Some b → pattern_matches b.1 path = true) →
    foldl (better path) best routes = Some r → pattern_matches r.1 path = true) as H.
  { induction routes as [|r0 routes IH]; intros best Hb; cbn; [apply Hb|]. apply IH.
    intros b. unfold better. destruct (pattern_matches r0.1 path) eqn:E; [|apply Hb].
    destruct best as [b0|]; [destruct (_ <? _)|]; intros ?; simplify_eq; auto. }
  by apply H.
Qed.

Lemma found_route srv req h :
  findHandler srv req = Handle h → ∃ pat, (pat, h) ∈ mux srv ∧ pattern_matches pat (Path req) = true.
Proof.
  unfold findHandler. set (path := if String.eqb _ _ then _ else _).
  destruct (_ && _); [done|]. destruct (String.eqb_spec path (Path req)) as [E|]; cbn [negb]; [|done].
  destruct (mux_match (mux srv) path) as [[pat h']|] eqn:Em; [|done]. intros [= ->]. exists pat.
  split; [by eapply mux_match_in|]. rewrite <- E. by apply mux_match_matches in Em.
Qed.

(** C25: Every HTTP request is answered.  Whatever its method, path and body, and whatever
    the environment does, a server built by [NewHTTPServer] for this store answers
    the request: no handler panics, in particular none uses the raft store of a
    server that has none.  The state of the orchestrator does not change; the only
    effect there can be is that a POST of a complete body to /raft/join in raft mode
    asks raft for one voter. *)
Theorem http_answers_every_request os pprof dashPath port req w :
  Inv (w_sys w) →
  ∃ resp w',
    run os (ServeHTTP cfg fileServer pprofHandler (NewHTTPServer (raft_mode w) pprof dashPath port) req) w
      = Done resp w' ∧
    w_sys w' = w_sys w ∧
    (w_added w' = w_added w ∨ raft_mode w = true ∧ Path req = "/raft/join" ∧ adds_voter req w w').
Proof.
  intros HI. eapply (wp_run anything); [done|]. unfold ServeHTTP.
  destruct (findHandler _ req) as [h|target|] eqn:Ef; [|by apply wp_ret; auto..].
  apply found_route in Ef as (pat & Hin & Hm). destruct (raft_routes _ _ _ _ _ _ Hin) as [Hpat Hraft].
  destruct h; cbn [serve_handler]; try (apply wp_ret; auto; fail).
  - apply wp_bind, app_wp, MetricsSnapshot_reads; [done|]. intros m. apply wp_ret. by auto.
  - apply wp_bind, app_wp, wp_reads. intros o _. apply wp_ret. by auto.
  - rewrite Hpat in Hm by done. apply String.eqb_eq in Hm. specialize (Hraft (or_introl eq_refl)).
    eapply wp_mono; [|by apply handleRaftJoin_wp]. intros resp w' [? [?|?]]; split; auto.
  - specialize (Hraft (or_intror eq_refl)). intros o _. unfold raft_mode in Hraft.
    destruct (RaftStore_ (w_sys w)); [|done]. by apply wp_ret; auto.
Qed.

(** ** Joining a cluster *)

(** The request that [joinRaftCluster] sends. *)
Definition join_request (jcfg : Config) : request :=
  mkRequest "POST" "/raft/join" (Some (join_body jcfg)).

Lemma join_body_decodes jcfg : join_decode (Some (join_body jcfg)) = Some (RaftID jcfg, RaftBind jcfg).
Proof. done. Qed.

Lemma join_routed pprof dashPath port jcfg :
  findHandler (NewHTTPServer true pprof dashPath port) (join_request jcfg) = Handle HRaftJoin.
Proof. rewrite routing_correct by done. cbn [Path join_request]. by destruct (String.eqb pprof "1"). Qed.

(** How the node [w] answers the request when the environment is [h]. *)
Definition join_answer (h : henv) : response :=
  match RaftStore.Join (h_raft h) (h_addVoter h) with
  | Some e => mkResponse StatusConflict {["Content-Type" := "application/json"]}
                (PJson (JObj [("error", JStr (Error e))]))
  | None => mkResponse StatusNoContent ∅ PNone
  end.

Definition asked (jcfg : Config) (h : henv) (w : web) : web :=
  if RaftStore.IsLeader (RaftStore.State (h_raft h))
  then mkWeb (w_sys w) (w_added w ++ [(RaftID jcfg, RaftBind jcfg)]) else w.

Lemma join_served os pprof dashPath port jcfg w :
  raft_mode w = true → RaftID jcfg ≠ "" → RaftBind jcfg ≠ "" →
  run os (ServeHTTP cfg fileServer pprofHandler (NewHTTPServer true pprof dashPath port) (join_request jcfg)) w
    = Done (join_answer (os 0)) (asked jcfg (os 0) w).
Proof.
  intros Hraft Hid Haddr. unfold ServeHTTP. rewrite join_routed. cbn [serve_handler].
  unfold handleRaftJoin, join_request. cbn [Method Body].
  change (String.eqb "POST" "POST") with true. cbn [negb]. rewrite join_body_decodes.
  apply String.eqb_neq in Hid, Haddr. rewrite Hid, Haddr. cbn [orb].
  unfold raft_Join, act, asked, join_answer, raft_mode in *. cbn [mbind prog_bind run].
  destruct (RaftStore_ (w_sys w)); [reflexivity|done].
Qed.

Lemma join_answer_code h :
  Code (join_answer h) = StatusNoContent ↔
    RaftStore.State (h_raft h) = RaftStore.Leader ∧ h_addVoter h = None.
Proof.
  unfold join_answer, RaftStore.Join, RaftStore.IsLeader. case_bool_decide as Hl; cbn [negb].
  - destruct (h_addVoter h); cbn; split; [done|by intros [_ ?]|done|done].
  - cbn. split; [done|]. by intros [? _].
Qed.

(** The status code the joining node sees. *)
Definition join_code (os : nat → henv) (w : web) (pprof dashPath : string) (port : Z) (jcfg : Config) :
    result error Z :=
  match run os (ServeHTTP cfg fileServer pprofHandler (NewHTTPServer true pprof dashPath port)
                  (join_request jcfg)) w with
  | Done resp _ => Ok (Code resp)
  | _ => Err (errorString "no response")
  end.


End answers.

(** ** Examples *)

Module Requests.
Import Examples.

Definition get (path : string) : request := mkRequest "GET" path None.

Lemma routing_correct_witness :
  findHandler (NewHTTPServer false "" "" 8080) (get "/raft/../metrics") = Redirect "/metrics" ∧
  findHandler (NewHTTPServer false "" "" 8080) (get "/debug/pprof/heap") = Handle HFallback.
Proof.
  split.
  - rewrite (routing_correct false "" "" 8080 (get "/raft/../metrics")) by done. reflexivity.
  - rewrite (routing_correct false "" "" 8080 (get "/debug/pprof/heap")) by done. reflexivity.
Defined.

(** A node in raft mode and one without raft. *)
Definition node : web :=
  mkWeb (NewServerWithStore 0 cfg0 (inr BoltStore.empty_store : @store Store)) [].

Definition single : web :=
  mkWeb (NewServerWithStore 0 cfg0 (inl BoltStore.empty_store : @store Store)) [].

Definition plain (_ : string) (_ : request) : response := mkResponse StatusOK ∅ PNone.

Definition henv_of (st : RaftStore.RaftState) : henv :=
  mkHenv (mkOracle (A := Store) 0 0 ((no_faults, 0%Z), Failover.follower_env) [] "u" None
            (Ok (pb.mkExecuteResponse true "")) false None 0)
    (RaftStore.mkEnv st "10.0.0.1:7000" "node-a" [] RaftStore.Committed no_faults) None
    (mkView "10.0.0.1:7000" "node-a" st 0 0 (Ok [])).

Lemma single_Inv : Inv (w_sys single).
Proof.
  apply start_Inv; [exact BoltStore.empty_store_good|].
  split; intros ??; vm_compute; discriminate.
Qed.

Lemma http_answers_every_request_witness :
  ∃ resp w', run (λ _, henv_of RaftStore.Leader)
      (ServeHTTP cfg0 plain plain (NewHTTPServer (raft_mode single) "" "" 8080)
         (mkRequest "POST" "/raft/join" None)) single = Done resp w' ∧ w_sys w' = w_sys single.
Proof.
  destruct (http_answers_every_request cfg0 plain plain (λ _, henv_of RaftStore.Leader) "" "" 8080
    (mkRequest "POST" "/raft/join" None) single single_Inv) as (resp & w' & Hrun & Hsys & _).
  exists resp, w'. split; [exact Hrun|exact Hsys].
Defined.

(** The first node asked is a follower, the others lead. *)
Definition second_leads (n _ : nat) : henv :=
  henv_of (match n with 1 => RaftStore.Follower | _ => RaftStore.Leader end).

Definition joiner : Config :=
  mkCfg 50051 8080 "minimodal.db" (6 * second) (2 * second) 3 30 (5 * second) 16777216
    false 0 4 1 (30 * second) (3 * second) (15 * second) (500 * millisecond)
    ".venv/bin/python -m worker.worker" "." 50100 true "node-2" "10.0.0.2:7000" "raft-data"
    "http://10.0.0.1:8080/".


End Requests.
