(* ===== verification/Main.v ===== *)
(** * The process: start, serve, shut down

    [main] and the panic interceptor, src/orchestrator/main.go and recovery.go.  The
    main goroutine is a program over the server's state that leaves a trace of what
    it does to the outside: listeners, goroutines it starts, the order of the
    shutdown.  What the goroutines do is in the other files. *)

From stdpp Require Import strings gmap sorting prelude pretty.
From S2P Require Import Prelude Paths Types Prog Json Bolt Config StoreSpec JobStore RaftFsm RaftStore.
From S2P Require Import WorkerPool Lru LogHub Metrics State AnyStore Scheduler Watch Server Cluster.
From S2P Require Import Invariant Safety Sequential Duty System Liveness Progress Autoscaler Launcher Env Http.

(** ** The panic interceptor *)

Definition internal_panic : status := mkStatus Internal "internal server panic".

(** [recoveryUnaryInterceptor]: the handler runs; a panic becomes an error status. *)
Fixpoint recoveryUnaryInterceptor {S O X} (handler : prog S O (result status X)) :
    prog S O (result status X) :=
  match handler with
  | Ret r => Ret r
  | Act B step k =>
      Act (option B)
        (λ o s, match step o s with
                | Next b s => Next (Some b) s
                | Block => Block
                | Panic => Next None s
                end)
        (λ ob, match ob with
               | Some b => recoveryUnaryInterceptor (k b)
               | None => Ret (Err internal_panic)
               end)
  | Spin => Spin
  end.

(** ** Arguments *)

(** [strings.Fields] on ASCII text. *)
Definition is_space (c : Ascii.ascii) : bool :=
  let n := Ascii.nat_of_ascii c in
  bool_decide (n = 9 ∨ n = 10 ∨ n = 11 ∨ n = 12 ∨ n = 13 ∨ n = 32).

Fixpoint fields_from (s cur : string) : list string :=
  match s with
  | "" => if String.eqb cur "" then [] else [cur]
  | String c s =>
      if is_space c
      then if String.eqb cur "" then fields_from s "" else cur :: fields_from s ""
      else fields_from s (cur +:+ String c "")
  end.

Definition Fields (s : string) : list string := fields_from s "".

(** ** The trace *)

Inductive event : Type :=
| EListen (addr : string)                       (* net.Listen *)
| EReplayed                                     (* RecoverUnfinishedJobs returned *)
| ENewGRPC (maxRecvMsgSize : Z)
| EGo (req : Req)                               (* a loop of the server *)
| EGoJoin                                       (* joinRaftCluster *)
| EGoAutoscaler (argv : list string) (dir addr : string) (basePort : Z) (conf : Autoscaler.AutoscalerConfig)
| EGoHTTP (srv : HTTPServer)
| EGoServe                                      (* grpcServer.Serve(listener) *)
| EGracefulStop
| EStop
| ECancelBg
| EAutoscalerShutdown
| EExit (code : Z).

Section main.
Context {B : BoltAPI}.

Record process : Type := mkProcess {
  p_srv : sys Store;
  p_trace : list event;
}.

(** What the environment decides: at the start of the process ... *)
Record startup : Type := mkStartup {
  su_now : Z;
  su_listen : option error;
  su_raft : RaftBoot;
  su_db : result error BoltStore.DBFile;
  su_ft : Faults;
}.

(** ... and for a step of the main goroutine: the server's oracle, and whether the
    graceful stop ends in time. *)
Record penv : Type := mkPenv {
  pe_oracle : oracle Store;
  pe_graceful : bool;
}.

Abbreviation mainprog := (prog process penv).

Definition on_server {X} (p : prog (sys Store) (oracle Store) X) : mainprog X :=
  zoom p_srv (λ s p, mkProcess s (p_trace p)) pe_oracle p.

Definition emit (e : event) : mainprog unit :=
  act (λ _ p, Next tt (mkProcess (p_srv p) (p_trace p ++ [e]))).

(** [os.Exit(code)]: nothing else runs, no deferred call either. *)
Definition os_Exit {X} (code : Z) : mainprog (option X) := _ ← emit (EExit code); mret None.

Variable cfg : Config.

(** The settings of MINIMODAL_PPROF and the dashboard that was found. *)
Variables (pprof dashPath : string).

(** The loops run as long as the process does; [fuel] bounds what is looked at. *)
Variable fuel : nat.

Definition maxRecvMsgSize : Z := int64 (MaxPayloadBytes cfg + 1024 * 1024).

Definition autoscaler_config : Autoscaler.AutoscalerConfig :=
  Autoscaler.mkAConfig (AutoscaleMin cfg) (AutoscaleMax cfg) (AutoscaleQueueThreshold cfg)
    (AutoscaleIdleTimeout cfg) (AutoscaleCooldown cfg) (AutoscaleRegisterTimeout cfg)
    (AutoscaleTick cfg).

(** From [defer srv.Close()] to the [select] that waits: [Some b] when the process
    serves, [b] telling whether there is an autoscaler. *)
Definition boot : mainprog (option bool) :=
  raft ← on_server (reads (λ _ s, match RaftStore_ s with Some _ => true | None => false end));
  replay ← (if (raft : bool) then mret (Ok false)
            else err ← on_server RecoverUnfinishedJobs;
                 match err with Some e => mret (Err e) | None => mret (Ok true) end);
  match replay with
  | Err _ => os_Exit 1
  | Ok replayed =>
      _ ← (if (replayed : bool) then emit EReplayed else mret tt);
      _ ← emit (ENewGRPC maxRecvMsgSize);
      _ ← emit (EGo (RFaultDetector fuel));
      _ ← emit (EGo (RDrainer fuel));
      _ ← (if raft
           then _ ← emit (EGo (RLeadership fuel));
                if String.eqb (RaftJoin cfg) "" then mret tt else emit EGoJoin
           else mret tt);
      let argv := Fields (WorkerCmd cfg) in
      if AutoscaleEnabled cfg && bool_decide (argv = []) then os_Exit 1
      else
        _ ← (if AutoscaleEnabled cfg
             then emit (EGoAutoscaler argv (WorkerDir cfg) ("127.0.0.1:" +:+ pretty (GRPCPort cfg))
                          (WorkerBasePort cfg) autoscaler_config)
             else mret tt);
        _ ← emit (EGoHTTP (NewHTTPServer raft pprof dashPath (HTTPPort cfg)));
        _ ← emit EGoServe;
        mret (Some (AutoscaleEnabled cfg))
  end.

(** From the end of the wait (a signal, or the gRPC server's error) to the return of
    [main], deferred calls included. *)
Definition shutdown (autoscaler : bool) : mainprog unit :=
  _ ← on_server BeginShutdown;
  _ ← emit EGracefulStop;
  done ← act (λ e p, Next (pe_graceful e) p);
  _ ← (if (done : bool) then mret tt else emit EStop);
  _ ← emit ECancelBg;
  _ ← (if autoscaler then emit EAutoscalerShutdown else mret tt);
  on_server Close.

(** Up to [NewServer]: [Err code] when the process exits. *)
Definition start (su : startup) : result Z process :=
  match su_listen su with
  | Some _ => Err 1%Z
  | None =>
      match NewServer (su_now su) (su_raft su) (su_db su) (su_ft su) cfg with
      | Err _ => Err 1%Z
      | Ok srv => Ok (mkProcess srv [EListen (":" +:+ pretty (GRPCPort cfg))])
      end
  end.

End main.

(** ** Panics *)

(** A panic in a unary handler reaches the client as an Internal error and nothing
    else: with the interceptor, a handler behaves exactly as without, except that
    where it would panic it returns the error, in the state it had reached. *)
Theorem interceptor_contains_panics {S O X} os (p : prog S O (result status X)) s :
  run os (recoveryUnaryInterceptor p) s =
    match run os p s with
    | Panicked s' => Done (Err internal_panic) s'
    | r => r
    end.
Proof.
  revert os s. induction p as [r|C step k IH|]; intros os s; cbn; [done| |done].
  destruct (step (os 0) s); [|done|done]. by rewrite IH.
Qed.

(** ** The start *)

Section boot.
Context {B : BoltAPI} {BL : BoltLaws B}.
Variable cfg : Config.
Variables (pprof dashPath : string).
Variable fuel : nat.

Implicit Types (p : process) (s : sys Store).

Abbreviation boot := (boot cfg pprof dashPath fuel).

(** The environment of the main goroutine while the store works. *)
Definition steady (e : penv) p : Prop := calm demote (pe_oracle e) (p_srv p).

Definition traced (l : list event) p : process := mkProcess (p_srv p) (p_trace p ++ l).

Lemma emit_wp ok e p (Q : unit → process → Prop) : Q tt (traced [e] p) → wp ok (emit e) p Q.
Proof. intros H o _. exact H. Qed.

Lemma traced_traced l1 l2 p : traced l2 (traced l1 p) = traced (l1 ++ l2) p.
Proof. unfold traced. cbn. by rewrite app_assoc. Qed.

Lemma traced_nil p : traced [] p = p.
Proof. unfold traced. destruct p. cbn. by rewrite app_nil_r. Qed.

Lemma on_server_wp {X} (q : prog (sys Store) (oracle Store) X) (ok : oracle Store → sys Store → Prop) p
    (Q : X → process → Prop) :
  wp ok q (p_srv p) (λ x s, Q x (mkProcess s (p_trace p))) →
  wp (λ e p, ok (pe_oracle e) (p_srv p)) (on_server q) p Q.
Proof.
  apply (wp_zoom p_srv (λ s p, mkProcess s (p_trace p)) pe_oracle (λ _ _, eq_refl) (λ _ _ _, eq_refl)
    (λ p, match p with mkProcess _ _ => eq_refl end)).
Qed.

(** The autoscaler is off, or there is a command to start workers with. *)
Definition autoscaler_ok : Prop := AutoscaleEnabled cfg = true → Fields (WorkerCmd cfg) ≠ [].

Definition autoscaler_events : list event :=
  if AutoscaleEnabled cfg
  then [EGoAutoscaler (Fields (WorkerCmd cfg)) (WorkerDir cfg) ("127.0.0.1:" +:+ pretty (GRPCPort cfg))
          (WorkerBasePort cfg) (autoscaler_config cfg)]
  else [].

(** What the start of a single-node process does, in order. *)
Definition serving_events : list event :=
  [EReplayed; ENewGRPC (maxRecvMsgSize cfg); EGo (RFaultDetector fuel); EGo (RDrainer fuel)]
    ++ autoscaler_events
    ++ [EGoHTTP (NewHTTPServer false pprof dashPath (HTTPPort cfg)); EGoServe].

(** Every job that was not finished is PENDING and on the queue; the others are as
    they were. *)
Definition recovered s s' : Prop := swept demoted (λ _, true) unfinished s s'.

Definition unfinished_jobs s : nat :=
  size (filter (λ j : string * JobRecord, unfinished j.2 = true) (a_jobs (astate s))).

Lemma boot_wp p :
  RaftStore_ (p_srv p) = None → good contract (jobStore (p_srv p)) →
  shuttingDown (p_srv p) = false → autoscaler_ok →
  (Z.of_nat (length (pendingQueue (p_srv p)) + unfinished_jobs (p_srv p)) ≤ pendingQueueSize)%Z →
  wp steady boot p (λ r p',
    r = Some (AutoscaleEnabled cfg) ∧ p_trace p' = p_trace p ++ serving_events ∧
    recovered (p_srv p) (p_srv p')).
Proof.
  intros Hraft Hg Hd Hauto Hroom. apply wp_bind. apply on_server_wp, wp_reads. intros o _. rewrite Hraft.
  apply wp_bind, wp_bind, on_server_wp. eapply wp_mono; [|by apply RecoverUnfinishedJobs_wp].
  intros err s' [-> Hsw]. apply wp_ret.
  do 4 (apply wp_bind, emit_wp). apply wp_bind, wp_ret. cbv zeta.
  assert (AutoscaleEnabled cfg && bool_decide (Fields (WorkerCmd cfg) = []) = false) as ->.
  { destruct (AutoscaleEnabled cfg) eqn:E; [|done]. cbn. by apply bool_decide_eq_false, Hauto. }
  apply wp_bind. unfold serving_events, autoscaler_events.
  destruct (AutoscaleEnabled cfg); [apply emit_wp|apply wp_ret];
    do 2 (apply wp_bind, emit_wp); apply wp_ret; rewrite !traced_traced; (split; [done|]); by split.
Qed.

(** The files a single-node process finds: those of the store [st]. *)
Definition file_of (st : BoltStore.t) : BoltStore.DBFile :=
  BoltStore.mkDBFile (Some (BoltStore.jobs st)) (Some (BoltStore.workers st))
    (Some (BoltStore.idempotency st)).

Definition startup_on (now : Z) (bt : RaftBoot) (st : BoltStore.t) : startup :=
  mkStartup now None bt (Ok (file_of st)) no_faults.

Definition process_on (now : Z) (st : BoltStore.t) : process :=
  mkProcess (NewServerWithStore now cfg (inl st : store)) [EListen (":" +:+ pretty (GRPCPort cfg))].

Lemma start_on now bt st :
  RaftEnabled cfg = false → start cfg (startup_on now bt st) = Ok (process_on now st).
Proof. intros Hr. unfold start, NewServer. cbn. rewrite Hr. by destruct st. Qed.

(** [recovered], job by job. *)
Lemma recovered_jobs s s' id r :
  recovered s s' → a_jobs (astate s) !! id = Some r →
  if unfinished r
  then ∃ r', a_jobs (astate s') !! id = Some r' ∧ Status r' = StatusPending ∧ id ∈ pendingQueue s'
  else a_jobs (astate s') !! id = Some r.
Proof.
  intros Hrec Hr. specialize (Hrec id). rewrite Hr in Hrec. destruct (unfinished r) eqn:Eu; [|done].
  destruct Hrec as (r' & Hr' & (_ & Es & _)%outcome_fields & Hq). exists r'. split; [done|].
  split; [|by apply Hq]. rewrite Es. by apply demoted_pending.
Qed.

(** The process serves only what it has recovered.  Started without raft on the files
    of any well-formed store whose unfinished jobs fit the queue, with a store that
    works, [main] listens, replays, and only then starts the fault detector, the
    queue loop, the autoscaler if there is one, the HTTP server and, last, the gRPC
    server; at that point every job that was PENDING or RUNNING is PENDING and on the
    queue, and the finished ones are as they were. *)
Theorem boot_recovers_then_serves os now bt st :
  RaftEnabled cfg = false → BoltStore.good st → autoscaler_ok →
  (Z.of_nat (unfinished_jobs (p_srv (process_on now st))) ≤ pendingQueueSize)%Z →
  within steady os boot (process_on now st) →
  start cfg (startup_on now bt st) = Ok (process_on now st) ∧
  ∃ p', run os boot (process_on now st) = Done (Some (AutoscaleEnabled cfg)) p' ∧
    p_trace p' = EListen (":" +:+ pretty (GRPCPort cfg)) :: serving_events ∧
    ∀ id r, a_jobs (BoltStore.view st) !! id = Some r →
      if unfinished r
      then ∃ r', a_jobs (astate (p_srv p')) !! id = Some r' ∧ Status r' = StatusPending ∧
             id ∈ pendingQueue (p_srv p')
      else a_jobs (astate (p_srv p')) !! id = Some r.
Proof.
  intros Hr Hg Hauto Hroom Hin. split; [by apply start_on|].
  destruct (wp_within _ _ _ _ os Hin (boot_wp (process_on now st) eq_refl Hg eq_refl Hauto Hroom))
    as (r & p' & Hrun & -> & Htrace & Hrec).
  exists p'. split; [done|]. split; [done|]. intros id r Hj. exact (recovered_jobs _ _ id r Hrec Hj).
Qed.

(** C35: A process with too many jobs never serves: when the unfinished jobs do not fit the
    queue, [main] waits in the replay with a full queue; it has not started the queue
    loop, which alone could make room, nor any server. *)
Theorem boot_waits_when_overfull os p :
  RaftStore_ (p_srv p) = None → good contract (jobStore (p_srv p)) → shuttingDown (p_srv p) = false →
  (Z.of_nat (length (pendingQueue (p_srv p))) ≤ pendingQueueSize <
   Z.of_nat (length (pendingQueue (p_srv p)) + unfinished_jobs (p_srv p)))%Z →
  within steady os boot p →
  ∃ p', run os boot p = Blocked p' ∧ queue_full (p_srv p') ∧ p_trace p' = p_trace p.
Proof.
  intros Hr Hg Hd Hover Hin. eapply (wpw_blocks steady); [exact Hin|].
  apply wpw_bind, wp_wpw, on_server_wp, wp_reads. intros o _. rewrite Hr.
  apply wpw_bind, wpw_bind.
  apply (wpw_zoom p_srv (λ s p, mkProcess s (p_trace p)) pe_oracle (calm demote)); [done|done|by intros []|].
  eapply wpw_mono; [| |by apply RecoverUnfinishedJobs_overfull]; done.
Qed.

(** ** The end *)

Definition shutdown_events (graceful autoscaler : bool) : list event :=
  [EGracefulStop] ++ (if graceful then [] else [EStop]) ++ [ECancelBg]
    ++ (if autoscaler then [EAutoscalerShutdown] else []).

Lemma shutdown_wp autoscaler p :
  wp (λ _ _, True) (shutdown autoscaler) p (λ _ p',
    (∃ graceful, p_trace p' = p_trace p ++ shutdown_events graceful autoscaler) ∧
    jobStore (p_srv p') = jobStore (p_srv p) ∧ pendingQueue (p_srv p') = pendingQueue (p_srv p) ∧
    shuttingDown (p_srv p') = true ∧ channels (p_srv p') = None).
Proof.
  apply wp_bind, (on_server_wp _ (λ _ _, True)), wp_writes. intros o _. cbn [fst snd].
  apply wp_bind, emit_wp, wp_bind. intros e _. apply wp_ret, wp_bind.
  assert (∀ graceful p1, p_trace p1 = p_trace p ++ [EGracefulStop] ++ (if graceful : bool then [] else [EStop]) →
    p_srv p1 = set_shuttingDown true (p_srv p) →
    wp (λ _ _, True) (_ ← emit ECancelBg; _ ← (if autoscaler then emit EAutoscalerShutdown else mret tt);
                      on_server Close) p1 (λ _ p',
    (∃ graceful, p_trace p' = p_trace p ++ shutdown_events graceful autoscaler) ∧
    jobStore (p_srv p') = jobStore (p_srv p) ∧ pendingQueue (p_srv p') = pendingQueue (p_srv p) ∧
    shuttingDown (p_srv p') = true ∧ channels (p_srv p') = None)) as Hrest.
  { intros graceful p1 Et Es. apply wp_bind, emit_wp, wp_bind.
    unfold shutdown_events. destruct autoscaler; [apply emit_wp|apply wp_ret];
      apply (on_server_wp _ (λ _ _, True)), wp_writes; intros o' _; cbn; rewrite Es; cbn;
      (split; [exists graceful; rewrite Et, <- ?app_assoc; by destruct graceful|done]). }
  destruct (pe_graceful e); [apply wp_ret, (Hrest true)|apply emit_wp, (Hrest false)]; cbn;
    by rewrite <- ?app_assoc.
Qed.


End boot.

(** ** Examples *)

Module Processes.
Import Examples Recovering.

(** The store of a process that died while "job-1" was running. *)
Definition old_files : BoltStore.t := old_store.

Definition environment : penv :=
  mkPenv (mkOracle (A := Store) 3000 3000 ((no_faults, 3000%Z), Failover.follower_env) [] "u" None
            (Ok (pb.mkExecuteResponse true "")) false None 0) true.

(** The job before and after the replay. *)
Definition replaying (p : process) : Prop :=
  map_to_list (a_jobs (astate (p_srv p))) = [("job-1", old_job 2000)] ∨
  map_to_list (a_jobs (astate (p_srv p))) = [("job-1", demoted_job)].

#[export] Instance replaying_dec p : Decision (replaying p).
Proof. unfold replaying. apply _. Defined.

Lemma replaying_steady p : replaying p → steady environment p.
Proof.
  intros H. split; [intros [[Hf|Hf]|[Hf|[Hf|[[Hf|Hf]|[Hf|Hf]]]]]; by apply Hf|].
  intros id r c c' r' Hr%elem_of_map_to_list.
  destruct H as [H|H]; rewrite H in Hr; apply list_elem_of_singleton in Hr as [= -> ->];
    intros [= <- <-]; (intros [Hu|[v Hu]]; vm_compute in Hu; intuition discriminate).
Qed.

(** The run of [boot] from a process on the old files keeps to [replaying]. *)
Lemma boots_within p :
  checked (λ _, replaying) (λ _, environment) (boot cfg0 "" "" 2) p = true →
  within steady (λ _, environment) (boot cfg0 "" "" 2) p.
Proof.
  intros H. apply (within_const steady replaying); [apply replaying_steady|].
  by apply (checked_within (λ _, replaying) _).
Qed.

Lemma old_files_good : BoltStore.good old_files.
Proof. exact old_good. Qed.

Lemma cfg0_autoscaler : autoscaler_ok cfg0.
Proof. intros [=]. Qed.

Definition no_raft : RaftBoot :=
  mkBoot None (Err (errorString "unused")) no_faults None None None None None None.

Lemma boot_recovers_then_serves_witness :
  ∃ p' r', run (λ _, environment) (boot cfg0 "" "" 2) (process_on cfg0 3000 old_files) = Done (Some false) p' ∧
    a_jobs (astate (p_srv p')) !! "job-1" = Some r' ∧ Status r' = StatusPending ∧
    "job-1" ∈ pendingQueue (p_srv p').
Proof.
  destruct (boot_recovers_then_serves cfg0 "" "" 2 (λ _, environment) 3000 no_raft old_files)
    as (_ & p' & Hrun & _ & Hjobs).
  - reflexivity.
  - exact old_files_good.
  - exact cfg0_autoscaler.
  - vm_compute. discriminate.
  - apply boots_within. vm_compute. reflexivity.
  - exists p'. specialize (Hjobs "job-1" (old_job 2000) Loops.old_lookup).
    destruct Hjobs as (r' & Hr' & Hs & Hq). exists r'.
    split; [exact Hrun|]. split; [exact Hr'|]. split; [exact Hs|exact Hq].
Defined.

(** A process whose queue is full of copies of the job. *)
Definition overfull : process :=
  mkProcess (set_pendingQueue (replicate (Z.to_nat pendingQueueSize) "job-1")
               (p_srv (process_on cfg0 3000 old_files))) [].

Lemma boot_waits_when_overfull_witness :
  ∃ p', run (λ _, environment) (boot cfg0 "" "" 2) overfull = Blocked p' ∧ queue_full (p_srv p') ∧
    p_trace p' = [].
Proof.
  apply (boot_waits_when_overfull cfg0 "" "" 2 (λ _, environment) overfull).
  - reflexivity.
  - exact old_files_good.
  - reflexivity.
  - replace (unfinished_jobs (p_srv overfull)) with 1 by (vm_compute; reflexivity).
    cbn [pendingQueue overfull set_pendingQueue p_srv]. rewrite length_replicate. unfold pendingQueueSize. lia.
  - apply boots_within. vm_compute. reflexivity.
Defined.


End Processes.
