(* ===== verification/Python.v ===== *)
(** * Python: exceptions, programs that raise, strings, floats, pickled values

    What the worker (src/worker) and the SDK (src/sdk) use of the language and its
    standard library.  A function that may raise and touches shared state is a
    [py]: a program of atomic steps (Prog.v) whose reply is a value or an
    exception.  A [str] is kept as its UTF-8 encoding.  cloudpickle is a parameter,
    the class [Pickle]. *)

From stdpp Require Import strings gmap sorting prelude countable.
From Stdlib Require Import SpecFloat.
From Stdlib.Strings Require Import Byte.
From S2P Require Import Prelude Types Prog WorkerPool Metrics.

(** ** Exceptions *)

(** The status codes of gRPC calls that the Python code tells apart, and the
    others. *)
Inductive StatusCode : Type :=
| DEADLINE_EXCEEDED
| CANCELLED
| UNKNOWN
| UNAVAILABLE
| of_code (c : code).

#[export] Instance StatusCode_eq_dec : EqDecision StatusCode.
Proof. solve_decision. Defined.

Inductive exn_class : Type :=
| BaseException
| SystemExit (code : Z)
| KeyboardInterrupt
| Exception
| EOFError
| OSError
| TimeoutError
| ConnectionError
| FileNotFoundError
| ChildProcessError
| ProcessLookupError
| PermissionError
| RuntimeError
| NotImplementedError
| SerializationError
| FutureError
| CRIUNotAvailable
| ValueError
| LookupError
| KeyError
| TypeError
| AttributeError
| struct_error
| queue_Empty
| TimeoutExpired
| CalledProcessError
| RpcError (c : StatusCode)
| OtherException (name : string).

#[export] Instance exn_class_eq_dec : EqDecision exn_class.
Proof. solve_decision. Defined.

(** The class and its bases, up to [BaseException]. *)
Definition mro (c : exn_class) : list exn_class :=
  match c with
  | BaseException => [BaseException]
  | SystemExit _ | KeyboardInterrupt => [c; BaseException]
  | Exception => [Exception; BaseException]
  | TimeoutError | ConnectionError | FileNotFoundError | ChildProcessError
  | ProcessLookupError | PermissionError => [c; OSError; Exception; BaseException]
  | NotImplementedError | SerializationError | FutureError | CRIUNotAvailable =>
      [c; RuntimeError; Exception; BaseException]
  | KeyError => [c; LookupError; Exception; BaseException]
  | _ => [c; Exception; BaseException]
  end.

Record exn : Type := mkExn { exn_type : exn_class; exn_msg : string }.

#[export] Instance exn_eq_dec : EqDecision exn.
Proof. solve_decision. Defined.

(** [isinstance(e, classes)], the test of an [except] clause. *)
Definition isinstance (e : exn) (classes : list exn_class) : bool :=
  existsb (λ c, bool_decide (c ∈ mro (exn_type e))) classes.

(** [except grpc.RpcError]. *)
Definition is_RpcError (e : exn) : option StatusCode :=
  match exn_type e with RpcError c => Some c | _ => None end.

(** ** Programs that raise *)

Abbreviation outcome_of A := (result exn A).

Declare Scope py_scope.
Delimit Scope py_scope with py.

Section py.
Context {S O : Type}.

Definition py (A : Type) : Type := prog S O (result exn A).

Definition pure {A} (a : A) : py A := Ret (Ok a).

Definition raise_ {A} (e : exn) : py A := Ret (Err e).

Definition py_bind {A B} (p : py A) (f : A → py B) : py B :=
  mbind (M := prog S O) (λ r, match r with Ok a => f a | Err e => Ret (Err e) end) p.

(** What follows a [try] whose outcome decides how to go on. *)
Definition attempt {A B} (p : py A) (f : result exn A → py B) : py B :=
  mbind (M := prog S O) f p.

(** [try: p except ...: handler]; the handler is given for the exceptions that are
    caught. *)
Definition try_except {A} (p : py A) (handler : exn → option (py A)) : py A :=
  mbind (M := prog S O) (λ r,
    match r with
    | Ok a => Ret (Ok a)
    | Err e => match handler e with Some q => q | None => Ret (Err e) end
    end) p.

(** [try: p finally: q].  An exception of [q] replaces the one of [p]. *)
Definition try_finally {A} (p : py A) (q : py unit) : py A :=
  mbind (M := prog S O) (λ r,
    mbind (M := prog S O) (λ r', match r' with Ok _ => Ret r | Err e => Ret (Err e) end) q) p.

(** A step that neither waits nor raises. *)
Definition step_ {A} (f : O → S → A * S) : py A :=
  act (λ o s, let '(a, s) := f o s in Next (Ok a) s).

(** A computation that may raise and touches no shared state. *)
Definition lift {A} (r : result exn A) : py A := Ret r.

(** [for x in l: body(x)]. *)
Fixpoint for_each {X} (l : list X) (body : X → py unit) : py unit :=
  match l with
  | [] => pure tt
  | x :: l => py_bind (body x) (λ _, for_each l body)
  end.

End py.

Arguments py : clear implicits.

Notation "'let*' x ':=' p 'in' q" := (py_bind p (λ x, q))
  (at level 10, x binder, p at level 100, q at level 200) : py_scope.

Notation "p ';;;' q" := (py_bind p (λ _, q))
  (at level 100, q at level 200, right associativity) : py_scope.

(** What an [except] clause that names classes catches. *)
Definition catching {A} (classes : list exn_class) (h : exn → A) (e : exn) : option A :=
  if isinstance e classes then Some (h e) else None.

(** ** Results without state *)

Definition res_bind {A B} (r : result exn A) (f : A → result exn B) : result exn B :=
  match r with Ok a => f a | Err e => Err e end.

Notation "'let!' x ':=' p 'in' q" := (res_bind p (λ x, q))
  (at level 10, x binder, p at level 100, q at level 200) : py_scope.

(** ** Time

    [time.monotonic()] is a float number of seconds. *)

Definition elapsed_ms (now t0 : spec_float) : Z :=
  Metrics.float_to_int (SFmul 53 1024 (SFsub 53 1024 now t0) (WorkerPool.float64 1000)).

(** ** Strings *)

Definition newline : Ascii.ascii := Ascii.ascii_of_nat 10.

(** [s.split(NL, 1)] on a string that holds a newline. *)
Fixpoint split_newline (s : string) : option (string * string) :=
  match s with
  | "" => None
  | String c s =>
      if Ascii.eqb c newline then Some ("", s)
      else '(l, r) ← split_newline s; Some (String c l, r)
  end.

(** The length in bytes of the line boundary that [str.splitlines] sees at the start of
    the string: LF, CR, CR LF, VT, FF, FS, GS, RS, NEL, LINE SEPARATOR and
    PARAGRAPH SEPARATOR. *)
Definition boundary (s : string) : nat :=
  match s with
  | "" => 0
  | String c s =>
      let n := Ascii.nat_of_ascii c in
      let second := match s with String d _ => Ascii.nat_of_ascii d | "" => 0 end in
      let third := match s with String _ (String d _) => Ascii.nat_of_ascii d | _ => 0 end in
      if Nat.eqb n 13 then (if Nat.eqb second 10 then 2 else 1)
      else if existsb (Nat.eqb n) [10; 11; 12; 28; 29; 30] then 1
      else if Nat.eqb n 194 && Nat.eqb second 133 then 2
      else if Nat.eqb n 226 && Nat.eqb second 128 && (Nat.eqb third 168 || Nat.eqb third 169) then 3
      else 0
  end.

(** [skip] bytes of the last boundary are still to come; [cur] is the line so far. *)
Fixpoint splitlines_from (skip : nat) (cur s : string) : list string :=
  match s with
  | "" => if String.eqb cur "" then [] else [cur]
  | String c s' =>
      match skip with
      | S skip => splitlines_from skip cur s'
      | O =>
          match boundary s with
          | O => splitlines_from 0 (cur +:+ String c "") s'
          | S k => cur :: splitlines_from k "" s'
          end
      end
  end.

Definition splitlines (s : string) : list string := splitlines_from 0 "" s.

(** [len(s)]: the bytes that start a character. *)
Fixpoint str_len (s : string) : nat :=
  match s with
  | "" => 0
  | String c s =>
      let n := Ascii.nat_of_ascii c in
      (if (Nat.leb 128 n && Nat.ltb n 192)%bool then 0 else 1) + str_len s
  end.

(** ** Values *)

(** The objects that the code builds and takes apart itself, functions, and any other
    object of a user. *)
Inductive pyval : Type :=
| PNone
| PBool (b : bool)
| PInt (z : Z)
| PStr (s : string)
| PBytes (b : bytes)
| PTuple (l : list pyval)
| PDict (l : list (string * pyval))
| PFunction (name : string)
| PObject (name : string).

(** Truth of a value, [if v]. *)
Definition truthy (v : pyval) : bool :=
  match v with
  | PNone => false
  | PBool b => b
  | PInt z => negb (z =? 0)%Z
  | PStr s => negb (String.eqb s "")
  | PBytes b => match b with [] => false | _ => true end
  | PTuple l => match l with [] => false | _ => true end
  | PDict l => match l with [] => false | _ => true end
  | PFunction _ | PObject _ => true
  end.

(** The value of a key in a dict display; keys are distinct there. *)
Fixpoint assoc (k : string) (l : list (string * pyval)) : option pyval :=
  match l with
  | [] => None
  | (k', v) :: l => if String.eqb k k' then Some v else assoc k l
  end.

(** [d[k]]. *)
Definition getitem (d : pyval) (k : string) : result exn pyval :=
  match d with
  | PDict l => match assoc k l with Some v => Ok v | None => Err (mkExn KeyError k) end
  | _ => Err (mkExn TypeError "object is not subscriptable")
  end.

(** [d.get(k, v0)]. *)
Definition dict_get (d : pyval) (k : string) (v0 : pyval) : result exn pyval :=
  match d with
  | PDict l => Ok (default v0 (assoc k l))
  | _ => Err (mkExn AttributeError "object has no attribute 'get'")
  end.

(** A value used where a number, text or bytes are needed. *)
Definition as_int (v : pyval) : result exn Z :=
  match v with
  | PInt z => Ok z
  | PBool b => Ok (Z.b2z b)
  | _ => Err (mkExn TypeError "int() argument must be a number")
  end.

Definition as_str (v : pyval) : result exn string :=
  match v with PStr s => Ok s | _ => Err (mkExn TypeError "expected str") end.

Definition as_bytes (v : pyval) : result exn bytes :=
  match v with PBytes b => Ok b | _ => Err (mkExn TypeError "expected bytes") end.

(** [args, kwargs = v], the two then used as [fn( *args, **kwargs)]. *)
Definition as_call (v : pyval) : result exn (list pyval * list (string * pyval)) :=
  match v with
  | PTuple [PTuple args; PDict kwargs] => Ok (args, kwargs)
  | _ => Err (mkExn TypeError "cannot unpack arguments")
  end.

(** ** Pickling

    [cloudpickle.dumps] and [cloudpickle.loads]. *)

Class Pickle : Type := {
  dumps : pyval → result exn bytes;
  loads : bytes → result exn pyval;
}.

(** Values made of the built-in types only. *)
Fixpoint plain (v : pyval) : Prop :=
  match v with
  | PNone | PBool _ | PInt _ | PStr _ | PBytes _ => True
  | PTuple l => foldr (λ v P, plain v ∧ P) True l
  | PDict l => foldr (λ kv P, plain kv.2 ∧ P) True l
  | PFunction _ | PObject _ => False
  end.

(** What the documentation of the pickle modules says: a pickled value is read back,
    a pickle is not empty, values of the built-in types can be pickled, and what goes
    wrong is reported by an [Exception]. *)
Class PickleLaws `{!Pickle} : Prop := {
  loads_dumps v b : dumps v = Ok b → loads b = Ok v;
  dumps_nonempty v b : dumps v = Ok b → b ≠ [];
  dumps_plain v : plain v → ∃ b, dumps v = Ok b;
  dumps_raises v e : dumps v = Err e → isinstance e [Exception] = true;
  loads_raises b e : loads b = Err e → isinstance e [Exception] = true;
}.

(** ** Facts *)

Lemma isinstance_Exception e :
  isinstance e [Exception] = true ↔ Exception ∈ mro (exn_type e).
Proof. unfold isinstance. cbn. rewrite orb_false_r. apply bool_decide_eq_true. Qed.

(** Every class below [Exception]. *)
Lemma isinstance_weaken e cs :
  (∀ c, c ∈ cs → Exception ∈ mro c) → isinstance e cs = true → isinstance e [Exception] = true.
Proof.
  intros Hcs H. apply isinstance_Exception. unfold isinstance in H.
  apply existsb_exists in H as (c & Hc & Hin). apply bool_decide_eq_true in Hin.
  apply list_elem_of_In, Hcs in Hc.
  assert (c ∈ mro (exn_type e) → Exception ∈ mro c → Exception ∈ mro (exn_type e)) as Htrans; [|auto].
  clear. destruct (exn_type e); intros H; repeat (apply elem_of_cons in H as [->|H]);
    try (by apply elem_of_nil in H); intros Hc; try done; cbn in Hc |- *; rewrite !elem_of_cons in *; naive_solver.
Qed.

(** *** Programs alone *)

Section wp_py.
Context {S O : Type} (ok : O → S → Prop).

Lemma wp_py_bind {A B} (p : py S O A) (f : A → py S O B) s Q :
  wp ok p s (λ r s', match r with Ok a => wp ok (f a) s' Q | Err e => Q (Err e) s' end) →
  wp ok (py_bind p f) s Q.
Proof. intros H. apply wp_bind. eapply wp_mono; [|exact H]. by intros [a|e] s'. Qed.

Lemma wp_try_except {A} (p : py S O A) h s Q :
  wp ok p s (λ r s', match r with
                     | Ok a => Q (Ok a) s'
                     | Err e => match h e with Some q => wp ok q s' Q | None => Q (Err e) s' end
                     end) →
  wp ok (try_except p h) s Q.
Proof. intros H. apply wp_bind. eapply wp_mono; [|exact H]. intros [a|e] s'; [done|]. by destruct (h e). Qed.

Lemma wp_try_finally {A} (p : py S O A) q s Q :
  wp ok p s (λ r s', wp ok q s' (λ r' s'', Q (match r' with Ok _ => r | Err e => Err e end) s'')) →
  wp ok (try_finally p q) s Q.
Proof.
  intros H. apply wp_bind. eapply wp_mono; [|exact H]. intros r s' Hq.
  apply wp_bind. eapply wp_mono; [|exact Hq]. by intros [[]|e] s''.
Qed.

Lemma wp_attempt {A B} (p : py S O A) (f : result exn A → py S O B) s Q :
  wp ok p s (λ r s', wp ok (f r) s' Q) → wp ok (attempt p f) s Q.
Proof. apply wp_bind. Qed.

Lemma wp_step {A} (f : O → S → A * S) s (Q : result exn A → S → Prop) :
  (∀ o, ok o s → Q (Ok (f o s).1) (f o s).2) → wp ok (step_ f) s Q.
Proof. intros H o Ho. specialize (H o Ho). by destruct (f o s). Qed.

(** All along. *)
Lemma along_py_bind {A B} P (p : py S O A) (f : A → py S O B) s Q :
  along ok P p s (λ r s', match r with Ok a => along ok P (f a) s' Q | Err e => Q (Err e) s' end) →
  along ok P (py_bind p f) s Q.
Proof. intros H. apply along_bind. eapply along_mono; [|exact H]. by intros [a|e] s'. Qed.

Lemma along_act {A} P (step : O → S → outcome S (result exn A)) s (Q : result exn A → S → Prop) :
  P s → (∀ o r s', ok o s → step o s = Next r s' → P s' ∧ Q r s') → along ok P (act step) s Q.
Proof.
  intros HP H. split; [done|]. intros o Ho. destruct (step o s) as [r s'| |] eqn:E; [|done..].
  by eapply H.
Qed.

Lemma along_step {A} P (f : O → S → A * S) s (Q : result exn A → S → Prop) :
  P s → (∀ o, ok o s → P (f o s).2 ∧ Q (Ok (f o s).1) (f o s).2) → along ok P (step_ f) s Q.
Proof.
  intros HP H. apply along_act; [done|]. intros o r s' Ho E. specialize (H o Ho). destruct (f o s). by simplify_eq.
Qed.

Lemma along_try_except {A} P (p : py S O A) h s Q :
  along ok P p s (λ r s', match r with
                     | Ok a => Q (Ok a) s'
                     | Err e => match h e with Some q => along ok P q s' Q | None => Q (Err e) s' end
                     end) →
  along ok P (try_except p h) s Q.
Proof.
  intros H. apply along_bind. eapply along_mono; [|exact H]. intros [a|e] s' HP; [done|]. by destruct (h e).
Qed.

(** Whatever the state. *)
Lemma yields_py_bind {A B} (p : py S O A) (f : A → py S O B) Q :
  yields ok p (λ r, match r with Ok a => yields ok (f a) Q | Err e => Q (Err e) end) →
  yields ok (py_bind p f) Q.
Proof. intros H. apply yields_bind. eapply yields_mono; [|exact H]. by intros [a|e]. Qed.

Lemma yields_attempt {A B} (p : py S O A) (f : result exn A → py S O B) Q :
  yields ok p (λ r, yields ok (f r) Q) → yields ok (attempt p f) Q.
Proof. apply yields_bind. Qed.

Lemma yields_try_except {A} (p : py S O A) h Q :
  yields ok p (λ r, match r with
                    | Ok a => Q (Ok a)
                    | Err e => match h e with Some q => yields ok q Q | None => Q (Err e) end
                    end) →
  yields ok (try_except p h) Q.
Proof. intros H. apply yields_bind. eapply yields_mono; [|exact H]. intros [a|e]; [done|]. by destruct (h e). Qed.

Lemma yields_try_finally {A} (p : py S O A) q Q :
  yields ok p (λ r, yields ok q (λ r', Q (match r' with Ok _ => r | Err e => Err e end))) →
  yields ok (try_finally p q) Q.
Proof.
  intros H. apply yields_bind. eapply yields_mono; [|exact H]. intros r Hq.
  apply yields_bind. eapply yields_mono; [|exact Hq]. by intros [[]|e].
Qed.

Lemma yields_step {A} (f : O → S → A * S) (Q : result exn A → Prop) :
  (∀ a, Q (Ok a)) → yields ok (step_ f) Q.
Proof. intros H o s _. destruct (f o s). apply H. Qed.

End wp_py.

(** *** Lines *)

Lemma split_newline_Some s l r :
  split_newline s = Some (l, r) → s = l +:+ String newline r ∧ split_newline l = None.
Proof.
  revert l. induction s as [|c s IH]; intros l; cbn; [done|].
  destruct (Ascii.eqb c newline) eqn:Hc; [apply Ascii.eqb_eq in Hc as ->; by intros [= <- <-]|].
  destruct (split_newline s) as [[l' r']|] eqn:Hs; cbn; [|done]. intros [= <- <-].
  destruct (IH l' eq_refl) as [-> Hl]. split; [done|]. cbn. by rewrite Hc, Hl.
Qed.

Lemma split_newline_app s t :
  split_newline (s +:+ t) =
    match split_newline s with
    | Some (l, r) => Some (l, r +:+ t)
    | None => '(l, r) ← split_newline t; Some (s +:+ l, r)
    end.
Proof.
  induction s as [|c s IH]; [change ("" +:+ t) with t; cbn; by destruct (split_newline t) as [[]|]|].
  change (String c s +:+ t) with (String c (s +:+ t)). cbn.
  destruct (Ascii.eqb c newline); [done|]. rewrite IH.
  destruct (split_newline s) as [[l r]|]; cbn; [done|]. by destruct (split_newline t) as [[]|].
Qed.
