(* ===== verification/Framing.v ===== *)
(** * Framing: messages over sockets and pipes

    The length-prefixed wire format of the worker's child processes:
    [_recv_exact], [_send_message] and [_recv_message] of src/worker/warm_pool.py,
    [_read_exact], [_read_request] and [_write_envelope] of
    src/worker/subprocess_runner.py.  A receiver gets the bytes in pieces whose
    sizes the kernel chooses; a sender may fail after any part was sent. *)

From stdpp Require Import strings gmap sorting prelude pretty.
From Stdlib.Strings Require Import Byte.
From S2P Require Import Prelude Types Prog Python.

Open Scope py_scope.

(** ** [struct.pack] and [struct.unpack] with the format [!I] *)

Definition byte_of (z : Z) : Byte.byte := default x00 (Byte.of_N (Z.to_N (z mod 256))).

Definition byte_val (b : Byte.byte) : Z := Z.of_N (Byte.to_N b).

Definition pack_I (n : Z) : result exn bytes :=
  if (n <? 2 ^ 32)%Z
  then Ok [byte_of (Z.shiftr n 24); byte_of (Z.shiftr n 16); byte_of (Z.shiftr n 8); byte_of n]
  else Err (mkExn struct_error "'I' format requires 0 <= number <= 4294967295").

Definition unpack_I (bs : bytes) : result exn Z :=
  match bs with
  | [a; b; c; d] =>
      Ok (Z.lor (Z.shiftl (byte_val a) 24)
           (Z.lor (Z.shiftl (byte_val b) 16) (Z.lor (Z.shiftl (byte_val c) 8) (byte_val d))))
  | _ => Err (mkExn struct_error "unpack requires a buffer of 4 bytes")
  end.

Definition len (b : bytes) : Z := Z.of_nat (length b).

(** ** One end of a connection *)

(** [incoming] are the bytes the peer sent that were not received yet, [ending] what
    comes after them: the end of the stream ([None]) or an error such as a timeout;
    [outgoing] are the bytes sent. *)
Record sock : Type := mkSock {
  incoming : bytes;
  ending : option exn;
  outgoing : bytes;
}.

(** How many bytes a [recv] yields; whether a [sendall] fails, and after how many
    bytes. *)
Record sock_env : Type := mkSockEnv {
  o_take : nat;
  o_fail : option (nat * exn);
}.

Abbreviation sockio := (py sock sock_env).

(** [sock.recv(n)] and [stream.read(n)]: at least one byte unless the stream is over. *)
Definition recv (n : nat) : sockio bytes :=
  act (λ o s,
    match incoming s with
    | [] => Next (match ending s with None => Ok [] | Some e => Err e end) s
    | _ =>
        let k := max 1 (min n (o_take o)) in
        Next (Ok (take k (incoming s))) (mkSock (drop k (incoming s)) (ending s) (outgoing s))
    end).

(** [sock.sendall(b)] and [stream.write(b)]. *)
Definition sendall (b : bytes) : sockio unit :=
  act (λ o s,
    match o_fail o with
    | None => Next (Ok tt) (mkSock (incoming s) (ending s) (outgoing s ++ b))
    | Some (k, e) => Next (Err e) (mkSock (incoming s) (ending s) (outgoing s ++ take k b))
    end).

(** ** The code *)

Definition got_bytes (k n : nat) : exn :=
  mkExn EOFError ("got " +:+ pretty k +:+ "/" +:+ pretty n +:+ " bytes").

(** The loop of [_recv_exact] and [_read_exact]; [buf] is the buffer so far. *)
Fixpoint exact_loop (fuel : nat) (n : nat) (buf : bytes) : sockio bytes :=
  match fuel with
  | O => Spin
  | S fuel =>
      if Nat.ltb (length buf) n
      then
        let* chunk := recv (n - length buf) in
        match chunk with
        | [] => raise_ (got_bytes (length buf) n)
        | _ => exact_loop fuel n (buf ++ chunk)
        end
      else pure buf
  end.

Definition _recv_exact (n : nat) : sockio bytes := exact_loop (S n) n [].

Definition _send_message (payload : bytes) : sockio unit :=
  let* header := lift (pack_I (len payload)) in
  sendall header ;;;
  sendall payload.

Definition _recv_message : sockio bytes :=
  let* header := _recv_exact 4 in
  let* n := lift (unpack_I header) in
  _recv_exact (Z.to_nat n).

Definition _read_exact (n : nat) : sockio bytes := exact_loop (S n) n [].

Definition _read_request : sockio (bytes * bytes) :=
  let* header := _read_exact 4 in
  let* fn_len := lift (unpack_I header) in
  let* fn_bytes := _read_exact (Z.to_nat fn_len) in
  let* header := _read_exact 4 in
  let* args_len := lift (unpack_I header) in
  let* args_bytes := _read_exact (Z.to_nat args_len) in
  pure (fn_bytes, args_bytes).

Definition _write_envelope `{!Pickle} (envelope : pyval) : sockio unit :=
  let* buf := lift (dumps envelope) in
  let* header := lift (pack_I (len buf)) in
  sendall header ;;;
  sendall buf.

(** ** The length header *)

Lemma byte_val_of z : byte_val (byte_of z) = (z mod 256)%Z.
Proof.
  unfold byte_val, byte_of. pose proof (Z.mod_pos_bound z 256 ltac:(lia)) as Hb.
  destruct (Byte.of_N (Z.to_N (z mod 256))) as [b|] eqn:Hz; cbn.
  - apply Byte.to_of_N_iff in Hz. rewrite Hz. lia.
  - apply Byte.of_N_None_iff in Hz. lia.
Qed.

Lemma lor_shiftl a b k : (0 ≤ k → 0 ≤ b < 2 ^ k → Z.lor (Z.shiftl a k) b = a * 2 ^ k + b)%Z.
Proof.
  intros Hk Hb. rewrite <- Z.shiftl_mul_pow2 by done.
  assert (Z.land (Z.shiftl a k) b = 0%Z) as Hl; [|pose proof (Z.add_lor_land (Z.shiftl a k) b); lia].
  apply Z.bits_inj'. intros i Hi. rewrite Z.land_spec, Z.bits_0.
  destruct (decide (i < k)%Z); [by rewrite Z.shiftl_spec_low|].
  rewrite <- (Z.mod_small b (2 ^ k)) by done. rewrite Z.mod_pow2_bits_high by lia. apply andb_false_r.
Qed.

Lemma unpack_pack n header :
  (0 ≤ n)%Z → pack_I n = Ok header → unpack_I header = Ok n ∧ length header = 4.
Proof.
  unfold pack_I. intros Hn. destruct (Z.ltb_spec n (2 ^ 32)) as [Hlt|]; [|done]. intros [= <-].
  split; [|done]. cbn [unpack_I]. f_equal. rewrite !byte_val_of.
  pose proof (Z.mod_pos_bound n 256 ltac:(lia)).
  pose proof (Z.mod_pos_bound (Z.shiftr n 8) 256 ltac:(lia)).
  pose proof (Z.mod_pos_bound (Z.shiftr n 16) 256 ltac:(lia)).
  rewrite (lor_shiftl _ (n mod 256) 8), (lor_shiftl _ _ 16), (lor_shiftl _ _ 24) by lia.
  rewrite !Z.shiftr_div_pow2 in * by lia. Z.to_euclidean_division_equations. lia.
Qed.

(** ** Receiving *)

Definition any_env : sock_env → sock → Prop := λ _ _, True.

(** What the loop that has [buf] already makes of the stream. *)
Definition exact_post (n : nat) (buf : bytes) (s : sock) (r : result exn bytes) (s' : sock) : Prop :=
  outgoing s' = outgoing s ∧ ending s' = ending s ∧
  if decide (n - length buf ≤ length (incoming s))
  then r = Ok (buf ++ take (n - length buf) (incoming s)) ∧
       incoming s' = drop (n - length buf) (incoming s)
  else incoming s' = [] ∧
       r = Err (default (got_bytes (length buf + length (incoming s)) n) (ending s)).

#[local] Arguments exact_post : simpl never.

Lemma exact_loop_spec fuel n buf s :
  length buf ≤ n → n - length buf < fuel →
  wp any_env (exact_loop fuel n buf) s (exact_post n buf s).
Proof.
  revert buf s. induction fuel as [|fuel IH]; intros buf s Hle Hfuel; [lia|]. cbn [exact_loop].
  destruct (Nat.ltb_spec (length buf) n) as [Hlt|Hge].
  2:{ unfold exact_post. cbn. assert (n - length buf = 0) as -> by lia. cbn. by rewrite app_nil_r. }
  apply wp_py_bind. intros o _. destruct s as [[|b inc] en out]; cbn [incoming ending outgoing].
  { destruct en as [e|]; cbn; unfold exact_post; cbn [incoming ending outgoing];
      (rewrite decide_False by (cbn; lia)); cbn; by rewrite ?Nat.add_0_r. }
  set (k := max 1 (min (n - length buf) (o_take o))). cbn [wp].
  destruct (take k (b :: inc)) as [|c chunk] eqn:Hc; [by destruct k eqn:?; [lia|]|].
  assert (length (c :: chunk) = min k (length (b :: inc))) as Hlen
    by (rewrite <- Hc; apply length_take).
  eapply wp_mono; [|apply IH]; rewrite ?length_app; [|cbn in *; lia|cbn in *; lia].
  unfold exact_post. cbn [incoming ending outgoing]. intros r s' (Hout & Hen & H).
  split; [done|]. split; [done|]. revert H. rewrite length_drop, length_app, Hlen.
  repeat case_decide; try lia; intros [H1 H2].
  - rewrite H1, H2. rewrite <- Hc, <- app_assoc. split.
    + f_equal. f_equal.
      rewrite <- (take_drop k (take (n - length buf) (b :: inc))). rewrite take_take.
      f_equal; [f_equal; lia|]. rewrite skipn_firstn_comm. f_equal; lia.
    + rewrite drop_drop. f_equal. lia.
  - split; [done|]. rewrite H2. do 3 f_equal. lia.
Qed.

Lemma recv_exact_spec n s : wp any_env (_recv_exact n) s (exact_post n [] s).
Proof. apply exact_loop_spec; cbn; lia. Qed.

Lemma recv_exact_ok n a rest s Q :
  incoming s = a ++ rest → length a = n →
  Q (Ok a) (mkSock rest (ending s) (outgoing s)) → wp any_env (_recv_exact n) s Q.
Proof.
  intros Hin Hn HQ. eapply wp_mono; [|apply recv_exact_spec]. intros r [inc en out].
  unfold exact_post. cbn. rewrite Nat.sub_0_r, Hin, length_app, decide_True by lia.
  rewrite <- Hn at 1 2. rewrite take_app_length, drop_app_length. by intros (-> & -> & -> & ->).
Qed.

Lemma recv_exact_short n s Q :
  length (incoming s) < n →
  Q (Err (default (got_bytes (length (incoming s)) n) (ending s))) (mkSock [] (ending s) (outgoing s)) →
  wp any_env (_recv_exact n) s Q.
Proof.
  intros Hn HQ. eapply wp_mono; [|apply recv_exact_spec]. intros r [inc en out].
  unfold exact_post. cbn. rewrite Nat.sub_0_r, decide_False by lia. by intros (-> & -> & -> & ->).
Qed.

Lemma len_nonneg b : (0 ≤ len b)%Z.
Proof. unfold len. lia. Qed.

Lemma to_nat_len b : Z.to_nat (len b) = length b.
Proof. unfold len. lia. Qed.

Lemma recv_message_ok payload header rest s Q :
  pack_I (len payload) = Ok header → incoming s = header ++ payload ++ rest →
  Q (Ok payload) (mkSock rest (ending s) (outgoing s)) → wp any_env _recv_message s Q.
Proof.
  intros Hp Hin HQ. destruct (unpack_pack _ _ (len_nonneg payload) Hp) as [Hu Hl].
  apply wp_py_bind. eapply recv_exact_ok; [exact Hin|done|]. rewrite Hu. cbn [lift].
  apply wp_py_bind. cbn [wp lift]. eapply recv_exact_ok; [done|by rewrite to_nat_len|done].
Qed.

(** A stream that stops early never yields another message. *)
Lemma recv_message_prefix payload header s Q :
  pack_I (len payload) = Ok header → incoming s `prefix_of` header ++ payload →
  (∀ r s', r = Ok payload ∨ r = Err (default (got_bytes (length (incoming s)) 4) (ending s)) ∨
           r = Err (default (got_bytes (length (incoming s) - 4) (length payload)) (ending s)) →
           outgoing s' = outgoing s → Q r s') →
  wp any_env _recv_message s Q.
Proof.
  intros Hp [rest Hin] HQ. destruct (unpack_pack _ _ (len_nonneg payload) Hp) as [Hu Hl].
  apply wp_py_bind. destruct (decide (length (incoming s) < 4)) as [Hlt|Hge].
  { apply recv_exact_short; [done|]. apply HQ; [by auto|done]. }
  destruct s as [inc en out]. cbn [incoming ending outgoing] in *.
  assert (∃ p, inc = header ++ p) as [p ->].
  { exists (drop 4 inc). rewrite <- (take_drop 4 inc) at 1. f_equal.
    rewrite <- (take_app_length header payload), Hl, Hin. rewrite take_app_le by lia. done. }
  rewrite <- app_assoc in Hin. apply app_inv_head in Hin.
  eapply recv_exact_ok; [done|done|]. cbn [ending outgoing]. apply wp_py_bind. cbn [wp lift].
  rewrite Hu. cbn [wp]. rewrite to_nat_len. rewrite length_app, Hl in HQ.
  replace (4 + length p - 4) with (length p) in HQ by lia.
  destruct (decide (length p < length payload)) as [Hlt|Hge'].
  - apply recv_exact_short; [done|]. cbn. apply HQ; [by auto|done].
  - assert (rest = []) as -> by (apply nil_length_inv; apply (f_equal length) in Hin; rewrite length_app in Hin; lia).
    rewrite app_nil_r in Hin. subst p. eapply recv_exact_ok; [by rewrite app_nil_r|done|]. apply HQ; auto.
Qed.

(** Receiving raises an [EOFError], or what the stream ends with. *)
Lemma recv_message_raises s :
  (∀ e, ending s = Some e → isinstance e [Exception] = true) →
  wp any_env _recv_message s (λ r _, ∀ e, r = Err e → isinstance e [Exception] = true).
Proof.
  intros Hend. assert (∀ k n, isinstance (default (got_bytes k n) (ending s)) [Exception] = true) as Hdef.
  { intros k n. destruct (ending s) as [e|]; [by apply Hend|done]. }
  apply wp_py_bind. eapply wp_mono; [|apply recv_exact_spec]. intros r s' (_ & Hen & Hr).
  case_decide; destruct Hr as [Hr Hr']; [|rewrite Hr'; intros e [= <-]; apply Hdef].
  rewrite Hr. apply wp_py_bind. cbn [wp lift]. destruct (unpack_I _) as [n|e] eqn:Hu.
  - eapply wp_mono; [|apply recv_exact_spec]. intros r2 s2 (_ & _ & Hr2). rewrite Hen in Hr2.
    case_decide; destruct Hr2 as [H1 H2]; [by rewrite H1|rewrite H2].
    intros e [= <-]. apply Hdef.
  - intros e' [= <-]. unfold unpack_I in Hu. repeat case_match; try done; by injection Hu as <-.
Qed.

(** What [_send_message] puts on the wire: a prefix of the frame, all of it if it
    returns. *)
Lemma send_message_spec payload s :
  wp any_env (_send_message payload) s (λ r s', ∃ sent,
    s' = mkSock (incoming s) (ending s) (outgoing s ++ sent) ∧
    match pack_I (len payload) with
    | Err e => r = Err e ∧ sent = []
    | Ok header => sent `prefix_of` header ++ payload ∧ (r = Ok tt → sent = header ++ payload)
    end).
Proof.
  unfold _send_message. apply wp_py_bind. cbn [wp lift].
  destruct (pack_I (len payload)) as [header|e] eqn:Hp.
  2:{ exists []. rewrite app_nil_r. by destruct s. }
  apply wp_py_bind. intros o _. cbn. destruct (o_fail o) as [[k e]|]; cbn [wp].
  { eexists. split; [done|]. split; [|done].
    apply prefix_app_r. by apply prefix_take. }
  intros o' _. cbn. destruct (o_fail o') as [[k e]|]; cbn [wp].
  - exists (header ++ take k payload). rewrite <- app_assoc. split; [done|]. split; [|done].
    apply prefix_app. by apply prefix_take.
  - exists (header ++ payload). rewrite <- app_assoc. split; [done|]. by split.
Qed.

(** An environment in which no [sendall] fails. *)
Definition no_fail : sock_env → sock → Prop := λ o _, o_fail o = None.

Lemma send_message_no_fail payload s :
  (len payload < 2 ^ 32)%Z → wp no_fail (_send_message payload) s (λ r _, r = Ok tt).
Proof.
  intros Hlt. apply wp_py_bind. cbn [wp lift]. unfold pack_I.
  rewrite (proj2 (Z.ltb_lt _ _) Hlt). cbn. intros o ->. cbn. by intros o' ->.
Qed.

(** C32: The framing of messages between the worker and its warm children is a round
    trip however the kernel cuts the stream: what [_send_message] puts on the wire,
    [_recv_message] turns into exactly that payload and leaves the bytes behind it
    alone; if sending failed half-way and the peer then closed, the receiver gets the
    payload or an [EOFError], never another payload; and a payload below 4 GiB is sent
    unless the connection fails. *)
Theorem message_framing payload s out :
  wp any_env (_send_message payload) s (λ r s', ∃ sent,
    outgoing s' = outgoing s ++ sent ∧
    match r with
    | Ok _ => ∀ rest en,
        wp any_env _recv_message (mkSock (sent ++ rest) en out) (λ r' t,
          r' = Ok payload ∧ t = mkSock rest en out)
    | Err _ =>
        wp any_env _recv_message (mkSock sent None out) (λ r' _,
          r' = Ok payload ∨ ∃ m, r' = Err (mkExn EOFError m))
    end) ∧
  ((len payload < 2 ^ 32)%Z → wp no_fail (_send_message payload) s (λ r _, r = Ok tt)).
Proof.
  split; [|apply send_message_no_fail].
  eapply wp_mono; [|apply send_message_spec]. intros r s' (sent & -> & H). exists sent. split; [done|].
  destruct (pack_I (len payload)) as [header|e] eqn:Hp.
  - destruct H as [Hpre Hr]. destruct r as [[]|e].
    + rewrite (Hr eq_refl). intros rest en. eapply recv_message_ok; [done|by rewrite <- app_assoc|done].
    + eapply recv_message_prefix; [done|done|]. cbn. intros r' s' [E|[E|E]] _; rewrite E; eauto.
  - destruct H as [-> ->]. apply wp_py_bind. apply recv_exact_short; cbn; [lia|]. eauto.
Qed.

(** ** The request of a fresh interpreter *)

(** The bytes that [NaiveSubprocessExecutor.execute] writes to the pipe. *)
Definition request_bytes (function_bytes args_bytes : bytes) : result exn bytes :=
  let! fn_header := pack_I (len function_bytes) in
  let! args_header := pack_I (len args_bytes) in
  Ok (fn_header ++ function_bytes ++ args_header ++ args_bytes).

Lemma read_request_ok fb ab request s Q :
  request_bytes fb ab = Ok request → incoming s = request →
  Q (Ok (fb, ab)) (mkSock [] (ending s) (outgoing s)) → wp any_env _read_request s Q.
Proof.
  unfold request_bytes, res_bind.
  destruct (pack_I (len fb)) as [h1|] eqn:H1; [|done].
  destruct (pack_I (len ab)) as [h2|] eqn:H2; [|done]. intros [= <-] Hin HQ.
  destruct (unpack_pack _ _ (len_nonneg fb) H1) as [Hu1 Hl1].
  destruct (unpack_pack _ _ (len_nonneg ab) H2) as [Hu2 Hl2].
  apply wp_py_bind. eapply recv_exact_ok; [exact Hin|done|]. rewrite Hu1.
  apply wp_py_bind. cbn [wp lift]. apply wp_py_bind.
  eapply recv_exact_ok; [done|by rewrite to_nat_len|].
  apply wp_py_bind. eapply recv_exact_ok; [done|done|]. rewrite Hu2.
  apply wp_py_bind. cbn [wp lift]. apply wp_py_bind.
  eapply recv_exact_ok; [symmetry; apply app_nil_r|by rewrite to_nat_len|]. done.
Qed.

(** ** Envelopes *)

(** The bytes of an envelope on the wire. *)
Definition framed `{!Pickle} (envelope : pyval) : result exn bytes :=
  let! buf := dumps envelope in
  let! header := pack_I (len buf) in
  Ok (header ++ buf).

Lemma write_envelope_no_fail `{!Pickle} envelope s :
  wp no_fail (_write_envelope envelope) s (λ r s',
    match framed envelope with
    | Ok f => r = Ok tt ∧ s' = mkSock (incoming s) (ending s) (outgoing s ++ f)
    | Err e => r = Err e ∧ s' = s
    end).
Proof.
  unfold _write_envelope, framed. apply wp_py_bind. cbn [wp lift].
  destruct (dumps envelope) as [buf|e]; [|done]. cbn [res_bind]. apply wp_py_bind. cbn [wp lift].
  destruct (pack_I (len buf)) as [header|e]; [|done]. cbn. intros o ->. cbn. intros o' ->. cbn.
  by rewrite <- app_assoc.
Qed.

Lemma framed_raises `{!Pickle} `{!PickleLaws} envelope e :
  framed envelope = Err e → isinstance e [Exception] = true.
Proof.
  unfold framed, res_bind. destruct (dumps envelope) as [buf|e'] eqn:Hd; [|intros [= <-]; by eapply dumps_raises].
  unfold pack_I. destruct (len buf <? 2 ^ 32)%Z; [done|]. intros Hp. injection Hp as <-. reflexivity.
Qed.

(** An envelope as the other side reads it. *)
Lemma framed_Ok `{!Pickle} `{!PickleLaws} envelope f :
  framed envelope = Ok f →
  ∃ header buf, f = header ++ buf ∧ length header = 4 ∧ unpack_I header = Ok (len buf) ∧
    buf ≠ [] ∧ loads buf = Ok envelope.
Proof.
  unfold framed, res_bind. destruct (dumps envelope) as [buf|] eqn:Hd; [|done].
  destruct (pack_I (len buf)) as [header|] eqn:Hp; [|done]. intros [= <-].
  destruct (unpack_pack _ _ (len_nonneg buf) Hp). exists header, buf.
  split; [done|]. split; [done|]. split; [done|]. split; [exact (dumps_nonempty _ _ Hd)|by apply loads_dumps].
Qed.
