(* ===== verification/LogStream.v ===== *)
(** * LogStream: the output of user functions on its way to the orchestrator

    src/worker/logstream.py.  [StdIORouter] separates the output of tasks that run
    in different threads; an interleaving of threads is a list of operations, each
    with the thread that does it.  [LineBuffer] and [TaskLogStreamer] cut the
    output of one task into lines and ship them in chunks: the task's thread puts
    lines on a queue, the streamer's thread takes them off, and the environment
    decides how far the first is ahead of the second. *)

From stdpp Require Import strings gmap sorting prelude.
From S2P Require Import Prelude Types Prog Python.

Open Scope py_scope.

(** ** Routing by thread *)

Module Router.

(** What [sys.stdout] may be: one of the two routers, or a stream of somebody else. *)
Inductive stream : Type :=
| Routed (is_stderr : bool)
| Plain (id : nat).

#[export] Instance stream_eq_dec : EqDecision stream.
Proof. solve_decision. Defined.

(** [local] is the [threading.local]: the sink that each thread has set. *)
Record StdIORouter : Type := mkRouter {
  fallback : stream;
  local : gmap nat nat;
}.

(** The process: its two standard streams, the routers once installed, what was written
    to plain streams (a closed one is not in the map) and what the sinks received. *)
Record t : Type := mkProcess {
  sys_stdout : stream;
  sys_stderr : stream;
  routers : option (StdIORouter * StdIORouter);
  streams : gmap nat (list string);
  sinks : gmap nat (list (string * bool));
}.

Definition __init__ (fb : stream) : StdIORouter := mkRouter fb ∅.

Definition set_sink (tid sink : nat) (r : StdIORouter) : StdIORouter :=
  mkRouter (fallback r) (<[tid := sink]> (local r)).

Definition clear_sink (tid : nat) (r : StdIORouter) : StdIORouter :=
  mkRouter (fallback r) (delete tid (local r)).

(** [out._fallback = sys.stdout] when [sys.stdout] is not the router. *)
Definition reattach (is_stderr : bool) (current : stream) (r : StdIORouter) : StdIORouter :=
  if decide (current = Routed is_stderr) then r else mkRouter current (local r).

Definition install_routers (p : t) : t :=
  let '(out, err) :=
    match routers p with
    | None => (__init__ (sys_stdout p), __init__ (sys_stderr p))
    | Some rs => rs
    end in
  mkProcess (Routed false) (Routed true)
    (Some (reattach false (sys_stdout p) out, reattach true (sys_stderr p) err))
    (streams p) (sinks p).

Definition on_router (is_stderr : bool) (f : StdIORouter → StdIORouter) (p : t) : t :=
  mkProcess (sys_stdout p) (sys_stderr p)
    ((λ '(out, err), if is_stderr : bool then (out, f err) else (f out, err)) <$> routers p)
    (streams p) (sinks p).

Definition router (is_stderr : bool) (p : t) : option StdIORouter :=
  (λ '(out, err), if is_stderr : bool then err else out) <$> routers p.

(** The sink gets the text. *)
Definition sink_write (sink : nat) (s : string) (is_stderr : bool) (p : t) : t :=
  mkProcess (sys_stdout p) (sys_stderr p) (routers p) (streams p)
    (<[sink := default [] (sinks p !! sink) ++ [(s, is_stderr)]]> (sinks p)).

(** [self._fallback.write(s)] on a plain stream; [ValueError] when it is closed. *)
Definition stream_write (id : nat) (s : string) (p : t) : result exn nat * t :=
  match streams p !! id with
  | Some written =>
      (Ok (str_len s),
       mkProcess (sys_stdout p) (sys_stderr p) (routers p) (<[id := written ++ [s]]> (streams p)) (sinks p))
  | None => (Err (mkExn ValueError "I/O operation on closed file."), p)
  end.

(** [StdIORouter.write] in thread [tid]; a fallback that is a router writes on to the
    fallback of that router.  [None]: the chain of fallbacks does not end. *)
Fixpoint write (fuel : nat) (tid : nat) (is_stderr : bool) (s : string) (p : t) : option (nat * t) :=
  match fuel with
  | O => None
  | S fuel =>
      r ← router is_stderr p;
      let p := match local r !! tid with
               | Some sink => sink_write sink s is_stderr p
               | None => p
               end in
      match fallback r with
      | Plain id =>
          match stream_write id s p with
          | (Ok n, p) => Some (n, p)
          | (Err _, p) => Some (str_len s, p)
          end
      | Routed b => write fuel tid b s p
      end
  end.

(** What threads do with the routers: [_execute_streaming] sets the sink of its thread
    on both routers, runs the function and clears it. *)
Inductive op : Type :=
| SetSink (sink : nat)
| ClearSink
| Write (is_stderr : bool) (s : string).

(** There are two routers, so a chain of fallbacks that ends passes each once. *)
Definition chain : nat := 3.

Definition exec_op (tid : nat) (o : op) (p : t) : t :=
  match o with
  | SetSink sink => on_router true (set_sink tid sink) (on_router false (set_sink tid sink) p)
  | ClearSink => on_router true (clear_sink tid) (on_router false (clear_sink tid) p)
  | Write b s => match write chain tid b s p with Some (_, p) => p | None => p end
  end.

Definition exec (ops : list (nat * op)) (p : t) : t :=
  foldl (λ p x, exec_op x.1 x.2 p) p ops.

(** The routers are installed on plain streams. *)
Definition installed (p : t) : Prop :=
  ∃ out err i j, routers p = Some (out, err) ∧ fallback out = Plain i ∧ fallback err = Plain j.

(** The sink that a thread has on a router. *)
Definition sink_of (p : t) (is_stderr : bool) (tid : nat) : option nat :=
  r ← router is_stderr p; local r !! tid.

(** Installing on plain streams makes the routers the live streams, once. *)
Lemma install_routers_live p :
  (∀ b, sys_stdout p ≠ Routed b) → (∀ b, sys_stderr p ≠ Routed b) → routers p = None →
  let q := install_routers p in
  installed q ∧ sys_stdout q = Routed false ∧ sys_stderr q = Routed true ∧ install_routers q = q ∧
  fallback <$> router false q = Some (sys_stdout p) ∧ fallback <$> router true q = Some (sys_stderr p).
Proof.
  destruct p as [so se rs st si]. cbn. intros Ho He ->. unfold installed, install_routers, reattach, router. cbn.
  destruct so as [b|i]; [by destruct (Ho b)|]. destruct se as [b|j]; [by destruct (He b)|]. cbn.
  repeat split; eauto 10.
Qed.

Section isolation.
Variables (tid k : nat).

(** What the sink [k] of thread [tid] depends on. *)
Record alike (p q : t) : Prop := {
  al_p : installed p;
  al_q : installed q;
  al_local b : sink_of p b tid = sink_of q b tid;
  al_sink : sinks p !! k = sinks q !! k;
  al_other b tid' : sink_of p b tid' = Some k → tid' = tid;
}.

(** A write of a thread: its sink and the fallback of the router get the text. *)
Lemma write_installed p t' b s :
  installed p → ∃ p', exec_op t' (Write b s) p = p' ∧ routers p' = routers p ∧
    sinks p' = match sink_of p b t' with
               | Some sink => <[sink := default [] (sinks p !! sink) ++ [(s, b)]]> (sinks p)
               | None => sinks p
               end.
Proof.
  intros (out & err & i & j & Hr & Ho & He). eexists. split; [done|].
  unfold exec_op, chain, sink_of, router. cbn [write]. unfold router. rewrite Hr. cbn.
  destruct b; cbn; rewrite ?Ho, ?He; destruct (local _ !! t') as [sink|]; unfold stream_write; cbn;
    repeat case_match; simplify_eq; done.
Qed.

Lemma installed_router p b : installed p → ∃ r, router b p = Some r.
Proof. intros (out & err & i & j & Hr & _). unfold router. rewrite Hr. cbn. eauto. Qed.

Lemma installed_on p b f :
  (∀ r, fallback (f r) = fallback r) → installed p → installed (on_router b f p).
Proof.
  intros Hf (out & err & i & j & Hr & Ho & He). unfold installed, on_router. cbn. rewrite Hr. cbn.
  destruct b; (do 4 eexists; split; [done|]; by rewrite ?Hf).
Qed.

Lemma installed_exec p t' o : installed p → installed (exec_op t' o p).
Proof.
  intros Hp. destruct o as [sink| |b s].
  - cbn. by do 2 (apply installed_on; [done|]).
  - cbn. by do 2 (apply installed_on; [done|]).
  - destruct (write_installed p t' b s Hp) as (p' & -> & Hr & _).
    destruct Hp as (out & err & i & j & Hp). exists out, err, i, j. by rewrite Hr.
Qed.

(** The sinks of threads after an operation. *)
Lemma sink_of_exec p t' o b t'' :
  installed p →
  sink_of (exec_op t' o p) b t'' =
    if decide (t'' = t') then
      match o with SetSink sink => Some sink | ClearSink => None | Write _ _ => sink_of p b t'' end
    else sink_of p b t''.
Proof.
  intros Hp. destruct o as [sink| |c s].
  3:{ destruct (write_installed p t' c s Hp) as (p' & -> & Hr & _). unfold sink_of, router. rewrite Hr.
      by destruct (decide _). }
  all: destruct Hp as (out & err & i & j & Hr & _); unfold sink_of, router, exec_op, on_router; cbn;
    rewrite Hr; cbn; destruct b; cbn; destruct (decide (t'' = t')) as [->|];
    rewrite ?lookup_insert_eq, ?lookup_delete_eq, ?lookup_insert_ne, ?lookup_delete_ne by done; done.
Qed.

Lemma sinks_exec p t' o :
  installed p →
  sinks (exec_op t' o p) =
    match o with
    | Write b s =>
        match sink_of p b t' with
        | Some sink => <[sink := default [] (sinks p !! sink) ++ [(s, b)]]> (sinks p)
        | None => sinks p
        end
    | _ => sinks p
    end.
Proof.
  intros Hp. destruct o as [sink| |b s]; [done|done|].
  by destruct (write_installed p t' b s Hp) as (p' & -> & _ & ->).
Qed.

(** An operation of another thread does not matter. *)
Lemma alike_other p q t' o :
  t' ≠ tid → o ≠ SetSink k → alike p q → alike (exec_op t' o p) q.
Proof using.
  intros Hne Ho [Hp Hq Hl Hs Hot]. split; [by apply installed_exec|done| | |].
  - intros b. by rewrite sink_of_exec, decide_False.
  - rewrite sinks_exec by done. destruct o as [| |b s]; [done|done|].
    destruct (sink_of p b t') as [sink|] eqn:Hsink; [|done].
    rewrite lookup_insert_ne; [done|]. intros ->. by apply Hne, (Hot b).
  - intros b t''. rewrite sink_of_exec by done. destruct (decide (t'' = t')) as [->|]; [|apply Hot].
    destruct o as [sink| |c s]; [|done|apply Hot]. intros [= ->]. done.
Qed.

(** An operation of the thread itself has the same effect on both sides. *)
Lemma alike_self p q o : alike p q → alike (exec_op tid o p) (exec_op tid o q).
Proof using.
  intros [Hp Hq Hl Hs Hot]. split; [by apply installed_exec|by apply installed_exec| | |].
  - intros b. rewrite !sink_of_exec, !decide_True by done. by destruct o.
  - rewrite !sinks_exec by done. destruct o as [| |b s]; [done|done|]. rewrite <- Hl.
    destruct (sink_of p b tid) as [sink|]; [|done]. destruct (decide (sink = k)) as [->|Hne].
    + by rewrite !lookup_insert_eq, Hs.
    + by rewrite !lookup_insert_ne.
  - intros b t''. rewrite sink_of_exec by done. destruct (decide (t'' = tid)) as [->|]; [done|apply Hot].
Qed.

Lemma alike_exec ops p q :
  (∀ t', (t', SetSink k) ∈ ops → t' = tid) → alike p q →
  alike (exec ops p) (exec (filter (λ x, x.1 = tid) ops) q).
Proof using.
  revert p q. induction ops as [|[t' o] ops IH]; intros p q Hops Hal; [done|].
  assert (∀ t'', (t'', SetSink k) ∈ ops → t'' = tid) as Hops' by (intros; apply Hops; by right).
  rewrite filter_cons. cbn. destruct (decide (t' = tid)) as [->|Hne]; cbn; apply IH; auto.
  - by apply alike_self.
  - apply alike_other; [done| |done]. intros ->. apply Hne, Hops. by left.
Qed.

End isolation.

(** What [_execute_streaming] does with the routers around a function that writes [ws]. *)
Definition task_ops (tid k : nat) (ws : list (string * bool)) : list (nat * op) :=
  (tid, SetSink k) :: ((λ w, (tid, Write w.2 w.1)) <$> ws) ++ [(tid, ClearSink)].

Lemma exec_writes tid k ws p :
  installed p → (∀ b, sink_of p b tid = Some k) →
  default [] (sinks (exec ((λ w, (tid, Write w.2 w.1)) <$> ws) p) !! k) =
    default [] (sinks p !! k) ++ ws.
Proof.
  revert p. induction ws as [|[s b] ws IH]; intros p Hp Hk; [by rewrite app_nil_r|].
  cbn [fmap list_fmap exec foldl fst snd]. change (foldl _ ?q ?l) with (exec l q).
  rewrite IH; [|by apply installed_exec|by intros b'; rewrite sink_of_exec, decide_True].
  rewrite sinks_exec, Hk, lookup_insert_eq by done. cbn. by rewrite <- app_assoc.
Qed.

Lemma exec_app ops ops' p : exec (ops ++ ops') p = exec ops' (exec ops p).
Proof. apply foldl_app. Qed.

Lemma exec_task tid k ws p :
  installed p → default [] (sinks (exec (task_ops tid k ws) p) !! k) = default [] (sinks p !! k) ++ ws.
Proof.
  intros Hp. unfold task_ops. rewrite app_comm_cons, exec_app. cbn [exec foldl fst snd].
  change (foldl _ ?q ?l) with (exec l q).
  assert (∀ ops q, installed q → installed (exec ops q)) as Hexec.
  { induction ops as [|[t' o] ops IH]; intros q Hq; [done|]. by apply IH, installed_exec. }
  rewrite sinks_exec by (by apply Hexec, installed_exec).
  rewrite exec_writes; [by rewrite sinks_exec|by apply installed_exec|].
  intros b. by rewrite sink_of_exec, decide_True.
Qed.

(** C33: Tasks that run in different threads do not capture each other's output.  Take
    any interleaving of any number of threads that set and clear sinks and write to
    the two streams.  If only thread [tid] ever uses the sink [k], then that sink
    receives what it would have received if [tid] had run alone; so a task that sets
    its sink, writes [ws] and clears the sink again has exactly [ws] in it, in order
    and with the right stream flag, whatever the others print meanwhile. *)
Theorem router_isolates_tasks ops p tid k :
  installed p →
  (∀ b t', sink_of p b t' = Some k → t' = tid) →
  (∀ t', (t', SetSink k) ∈ ops → t' = tid) →
  let mine := filter (λ x, x.1 = tid) ops in
  sinks (exec ops p) !! k = sinks (exec mine p) !! k ∧
  ∀ ws, mine = task_ops tid k ws →
    default [] (sinks (exec ops p) !! k) = default [] (sinks p !! k) ++ ws.
Proof.
  intros Hp Hk Hops mine.
  assert (sinks (exec ops p) !! k = sinks (exec mine p) !! k) as E.
  { apply (al_sink tid k). apply alike_exec; [done|]. split; eauto. }
  split; [done|]. intros ws Hmine. rewrite E, Hmine. by apply exec_task.
Qed.

(** Two tasks print at the same time, one of them on both streams. *)
Definition two_tasks : list (nat * op) :=
  [(1, SetSink 10); (2, SetSink 20); (1, Write false "a"); (2, Write false "x");
   (1, Write true "b"); (2, ClearSink); (2, Write false "late"); (1, ClearSink)].

Definition fresh_process : t := install_routers (mkProcess (Plain 0) (Plain 1) None {[0 := []; 1 := []]} ∅).

Lemma router_isolates_tasks_witness :
  sinks (exec two_tasks fresh_process) !! 10 = Some [("a", false); ("b", true)] ∧
  default [] (sinks (exec two_tasks fresh_process) !! 10) = [("a", false); ("b", true)].
Proof.
  split; [reflexivity|].
  apply (router_isolates_tasks two_tasks fresh_process 1 10) with (ws := [("a", false); ("b", true)]).
  - unfold installed. do 4 eexists. split; [reflexivity|]. by split.
  - intros [] t' Ht; vm_compute in Ht; done.
  - intros t' Ht. unfold two_tasks in Ht. set_solver.
  - reflexivity.
Defined.

End Router.

(** ** Lines *)

Module LineBuffer.

(** The loop of [write]: the lines emitted, and the buffer left. *)
Fixpoint drain (fuel : nat) (buf : string) : list string * string :=
  match fuel with
  | O => ([], buf)
  | S fuel =>
      match split_newline buf with
      | Some (line, buf) => let '(lines, buf) := drain fuel buf in (line :: lines, buf)
      | None => ([], buf)
      end
  end.

(** Each round takes a newline out of the buffer. *)
Definition write (buf s : string) : list string * string :=
  drain (String.length (buf +:+ s)) (buf +:+ s).

Definition flush_partial (buf : string) : list string * string :=
  if String.eqb buf "" then ([], buf) else ([buf], "").

(** *** The reference: the lines of a text, and what follows the last newline. *)

Fixpoint cut (s : string) : list string * string :=
  match s with
  | "" => ([], "")
  | String c s =>
      let '(lines, rest) := cut s in
      if Ascii.eqb c newline then ("" :: lines, rest)
      else match lines with
           | [] => ([], String c rest)
           | l :: lines => (String c l :: lines, rest)
           end
  end.

(** The lines of a whole text; text after the last newline is a line of its own. *)
Definition text_lines (s : string) : list string :=
  let '(lines, rest) := cut s in lines ++ (flush_partial rest).1.

Lemma cut_split s :
  cut s = match split_newline s with
          | Some (l, r) => (l :: (cut r).1, (cut r).2)
          | None => ([], s)
          end.
Proof.
  induction s as [|c s IH]; [done|]. cbn.
  destruct (Ascii.eqb c newline); [by destruct (cut s)|]. rewrite IH.
  by destruct (split_newline s) as [[l r]|].
Qed.

Lemma drain_cut fuel buf : String.length buf ≤ fuel → drain fuel buf = cut buf.
Proof.
  revert buf. induction fuel as [|fuel IH]; intros buf Hl; rewrite cut_split.
  { by destruct buf; [|cbn in Hl; lia]. }
  cbn [drain]. destruct (split_newline buf) as [[l r]|] eqn:Hs; [|done].
  apply split_newline_Some in Hs as [-> _]. rewrite length_append in Hl. cbn in Hl.
  rewrite IH by lia. by destruct (cut r).
Qed.

Lemma cut_app s t :
  cut (s +:+ t) =
    let '(l1, r1) := cut s in let '(l2, r2) := cut (r1 +:+ t) in (l1 ++ l2, r2).
Proof.
  induction s as [|c s IH]; [cbn; change ("" +:+ t) with t; by destruct (cut t)|].
  change (String c s +:+ t) with (String c (s +:+ t)). cbn [cut]. rewrite IH.
  destruct (cut s) as [l1 r1] eqn:Hs. destruct (Ascii.eqb c newline) eqn:Hc.
  { by destruct (cut (r1 +:+ t)). }
  destruct l1 as [|l l1]; [|by destruct (cut (r1 +:+ t))].
  change (String c r1 +:+ t) with (String c (r1 +:+ t)). cbn [cut app].
  destruct (cut (r1 +:+ t)) as [[|l l2] r2]; by rewrite Hc.
Qed.

(** The lines that are complete stay lines. *)
Lemma cut_prefix s t : (cut s).1 ⊆ text_lines (s +:+ t).
Proof.
  unfold text_lines. rewrite cut_app. destruct (cut s) as [l1 r1]. destruct (cut (r1 +:+ t)) as [l2 r2]. set_solver.
Qed.

Lemma cut_rest s : cut (cut s).2 = ([], (cut s).2).
Proof.
  induction s as [|c s IH]; [done|]. cbn. destruct (cut s) as [l r]. cbn in IH.
  destruct (Ascii.eqb c newline) eqn:Hc; [done|]. destruct l; cbn; [|done]. by rewrite IH, Hc.
Qed.

(** Writing in pieces is cutting the whole text: [buf] holds no newline. *)
Lemma write_cut buf s : write buf s = cut (buf +:+ s).
Proof. by apply drain_cut. Qed.

End LineBuffer.

(** ** Shipping lines *)

Module Streamer.

(** [items] are the lines put on the queue so far, [started] whether the thread was
    started, [closed] whether [_CLOSE] was put behind them; [out] and [err] the two line
    buffers. *)
Record t : Type := mkStreamer {
  job_id : string;
  worker_id : string;
  items : list pb.LogLine;
  started : bool;
  closed : bool;
  out : string;
  err : string;
}.

Definition __init__ (job worker : string) : t := mkStreamer job worker [] false false "" "".

Definition _MAX_BATCH : nat := 256.

Section producer.
Variable clock : nat → Z.            (* the time when the [n]th line is enqueued, in ms *)

(** [_enqueue] with [_ensure_thread]. *)
Definition _enqueue (line : string) (is_stderr : bool) (st : t) : t :=
  mkStreamer (job_id st) (worker_id st)
    (items st ++ [pb.mkLogLine line is_stderr (clock (length (items st)))])
    true (closed st) (out st) (err st).

Definition emit (lines : list string) (is_stderr : bool) (st : t) : t :=
  foldl (λ st line, _enqueue line is_stderr st) st lines.

Definition buffer (is_stderr : bool) (st : t) : string := if is_stderr then err st else out st.

Definition set_buffer (is_stderr : bool) (buf : string) (st : t) : t :=
  mkStreamer (job_id st) (worker_id st) (items st) (started st) (closed st)
    (if is_stderr then out st else buf) (if is_stderr then buf else err st).

Definition sink (text : string) (is_stderr : bool) (st : t) : t :=
  let '(lines, buf) := LineBuffer.write (buffer is_stderr st) text in
  set_buffer is_stderr buf (emit lines is_stderr st).

Definition flush (is_stderr : bool) (st : t) : t :=
  let '(lines, buf) := LineBuffer.flush_partial (buffer is_stderr st) in
  set_buffer is_stderr buf (emit lines is_stderr st).

Definition close (st : t) : t :=
  let st := flush true (flush false st) in
  if started st
  then mkStreamer (job_id st) (worker_id st) (items st) true true (out st) (err st)
  else st.

Definition sink_all (ws : list (string * bool)) (st : t) : t :=
  foldl (λ st w, sink w.1 w.2 st) st ws.

End producer.

(** *** The streamer's thread *)

Inductive item : Type := Line (l : pb.LogLine) | CLOSE.

(** [q] is the queue, [coming] what the task's thread still puts there, [yielded] the
    chunks that the call took from the generator. *)
Record queue : Type := mkQueue {
  q : list item;
  coming : list item;
  yielded : list pb.TaskLogChunk;
}.

(** How many items arrive before an operation, and whether the call breaks. *)
Record stream_env : Type := mkStreamEnv {
  o_arrived : nat;
  o_broken : option StatusCode;
}.

Abbreviation thread := (py queue stream_env).

Definition arrive (n : nat) (s : queue) : queue :=
  mkQueue (q s ++ take n (coming s)) (drop n (coming s)) (yielded s).

(** [self._q.get()]: wait for an item. *)
Definition q_get : thread item :=
  act (λ o s,
    let s := arrive (o_arrived o) s in
    match q s, coming s with
    | i :: rest, later => Next (Ok i) (mkQueue rest later (yielded s))
    | [], i :: later => Next (Ok i) (mkQueue [] later (yielded s))
    | [], [] => Block
    end).

Definition q_get_nowait : thread item :=
  act (λ o s,
    let s := arrive (o_arrived o) s in
    match q s with
    | i :: rest => Next (Ok i) (mkQueue rest (coming s) (yielded s))
    | [] => Next (Err (mkExn queue_Empty "")) s
    end).

(** The call takes a chunk from the generator, or breaks. *)
Definition yield_ (c : pb.TaskLogChunk) : thread unit :=
  act (λ o s,
    match o_broken o with
    | None => Next (Ok tt) (mkQueue (q s) (coming s) (yielded s ++ [c]))
    | Some code => Next (Err (mkExn (RpcError code) "")) s
    end).

(** The inner loop: [room] is what is missing to [_MAX_BATCH] lines.  Returns the lines and
    [closing]. *)
Fixpoint batch (room : nat) (lines : list pb.LogLine) : thread (list pb.LogLine * bool) :=
  match room with
  | O => pure (lines, false)
  | S room =>
      attempt q_get_nowait (λ nxt,
        match nxt with
        | Ok CLOSE => pure (lines, true)
        | Ok (Line l) => batch room (lines ++ [l])
        | Err e => if isinstance e [queue_Empty] then pure (lines, false) else raise_ e
        end)
  end.

Fixpoint _chunks (fuel : nat) (job worker : string) : thread unit :=
  match fuel with
  | O => Spin
  | S fuel =>
      let* i := q_get in
      match i with
      | CLOSE => pure tt
      | Line l =>
          let* b := batch (_MAX_BATCH - 1) [l] in
          let '(lines, closing) := b in
          yield_ (pb.mkChunk job worker lines) ;;;
          if closing : bool then pure tt else _chunks fuel job worker
      end
  end.

Definition _run (fuel : nat) (st : t) : thread unit :=
  try_except (_chunks fuel (job_id st) (worker_id st))
    (λ e, match is_RpcError e with Some _ => Some (pure tt) | None => None end).

(** *** What arrives *)

Definition total (s : queue) : list item := q s ++ coming s.

(** The items of a stream with the lines [ls]. *)
Definition stream_of (ls : list pb.LogLine) : list item := (Line <$> ls) ++ [CLOSE].

(** If the connection is [reliable], no call breaks. *)
Definition stream_ok (reliable : bool) : stream_env → queue → Prop :=
  λ o _, reliable = true → o_broken o = None.

Lemma total_arrive n s : total (arrive n s) = total s.
Proof. unfold total, arrive. cbn. by rewrite <- app_assoc, take_drop. Qed.

Section consumer.
Variable ok : stream_env → queue → Prop.

Lemma q_get_wp s i rest Q :
  total s = i :: rest →
  (∀ s', total s' = rest → yielded s' = yielded s → Q (Ok i) s') → wp ok q_get s Q.
Proof.
  intros Ht HQ o _. rewrite <- (total_arrive (o_arrived o)) in Ht.
  change (yielded s) with (yielded (arrive (o_arrived o) s)) in HQ.
  cbn [q_get act]. destruct (arrive (o_arrived o) s) as [[|j q'] [|j' later] ys];
    unfold total in Ht; cbn in Ht |- *; simplify_eq; by apply HQ.
Qed.

Lemma q_get_nowait_wp s i rest Q :
  total s = i :: rest →
  (∀ s', total s' = rest → yielded s' = yielded s → Q (Ok i) s') →
  (∀ s', total s' = i :: rest → yielded s' = yielded s → Q (Err (mkExn queue_Empty "")) s') →
  wp ok q_get_nowait s Q.
Proof.
  intros Ht HQ HE o _. rewrite <- (total_arrive (o_arrived o)) in Ht.
  change (yielded s) with (yielded (arrive (o_arrived o) s)) in HQ, HE.
  cbn [q_get_nowait act]. destruct (arrive (o_arrived o) s) as [[|j q'] later ys]; cbn [q wp].
  - by apply HE.
  - unfold total in Ht. cbn in Ht. simplify_eq. by apply HQ.
Qed.

Lemma batch_spec room lines s ls :
  total s = stream_of ls →
  wp ok (batch room lines) s (λ r s', ∃ got rest (closing : bool),
    r = Ok (lines ++ got, closing) ∧ length got ≤ room ∧ ls = got ++ rest ∧ yielded s' = yielded s ∧
    if closing then rest = [] else total s' = stream_of rest).
Proof.
  revert lines s ls. induction room as [|room IH]; intros lines s ls Ht.
  { exists [], ls, false. by rewrite app_nil_r. }
  cbn [batch]. apply wp_attempt. destruct ls as [|l ls].
  - eapply q_get_nowait_wp; [exact Ht|intros s' _ Hy|intros s' Ht' Hy].
    + exists [], [], true. rewrite app_nil_r. cbn. auto with lia.
    + exists [], [], false. rewrite app_nil_r. cbn. auto with lia.
  - eapply q_get_nowait_wp; [exact Ht|intros s' Ht' Hy|intros s' Ht' Hy].
    + eapply wp_mono; [|by apply IH]. intros r s'' (got & rest & closing & -> & Hl & -> & Hy' & Hc).
      exists (l :: got), rest, closing. rewrite <- app_assoc. cbn. split; [done|]. split; [lia|].
      by rewrite Hy'.
    + exists [], (l :: ls), false. rewrite app_nil_r. cbn. auto with lia.
Qed.

End consumer.

(** A chunk as the orchestrator gets it. *)
Definition chunk_ok (job worker : string) (c : pb.TaskLogChunk) : Prop :=
  pb.chunk_job_id c = job ∧ pb.chunk_worker_id c = worker ∧
  1 ≤ length (pb.chunk_lines c) ≤ _MAX_BATCH.

Definition lines_of (cs : list pb.TaskLogChunk) : list pb.LogLine := mjoin (pb.chunk_lines <$> cs).

Definition chunks_post (reliable : bool) (job worker : string) (ls : list pb.LogLine)
    (ys : list pb.TaskLogChunk) (r : result exn unit) (s' : queue) : Prop :=
  ∃ cs rest, yielded s' = ys ++ cs ∧ ls = lines_of cs ++ rest ∧ Forall (chunk_ok job worker) cs ∧
    (r = Ok tt ∧ rest = [] ∨ reliable = false ∧ ∃ code, r = Err (mkExn (RpcError code) "")).

Lemma chunks_spec reliable fuel job worker s ls :
  total s = stream_of ls → length ls < fuel →
  wp (stream_ok reliable) (_chunks fuel job worker) s (chunks_post reliable job worker ls (yielded s)).
Proof.
  revert s ls. induction fuel as [|fuel IH]; intros s ls Ht Hf; [lia|]. cbn [_chunks].
  apply wp_py_bind. destruct ls as [|l ls].
  { eapply q_get_wp; [exact Ht|]. intros s' _ Hy. exists [], []. rewrite app_nil_r.
    split; [done|]. split; [done|]. split; [constructor|by left]. }
  eapply q_get_wp; [exact Ht|]. intros s1 Ht1 Hy1. apply wp_py_bind.
  eapply wp_mono; [|by apply batch_spec].
  intros r s2 (got & rest & closing & -> & Hl & -> & Hy2 & Hc). cbn [app].
  apply wp_py_bind. intros o Ho. cbn. destruct (o_broken o) as [code|] eqn:Hb; cbn [wp].
  { exists [], (l :: got ++ rest). rewrite app_nil_r, Hy2, Hy1. split; [done|]. split; [done|].
    split; [done|]. right. split; [|by eauto]. destruct reliable; [|done]. specialize (Ho eq_refl). congruence. }
  assert (chunk_ok job worker (pb.mkChunk job worker (l :: got))) as Hchunk.
  { split; [done|]. split; [done|]. unfold _MAX_BATCH in *. cbn [pb.chunk_lines length]. lia. }
  destruct closing.
  - subst rest. exists [pb.mkChunk job worker (l :: got)], []. cbn. rewrite Hy2, Hy1.
    split; [done|]. split; [by rewrite !app_nil_r|]. auto.
  - eapply wp_mono; [|apply (IH _ rest); [exact Hc|cbn in Hf; rewrite length_app in Hf; lia]].
    intros r s' (cs & rest' & Hy & -> & Hcs & Hr). cbn in Hy.
    exists (pb.mkChunk job worker (l :: got) :: cs), rest'. rewrite Hy, Hy2, Hy1, <- app_assoc.
    split; [done|]. split; [cbn; by rewrite <- app_assoc|]. split; [by constructor|done].
Qed.

Lemma thread_run_spec reliable fuel st s :
  total s = stream_of (items st) → length (items st) < fuel →
  wp (stream_ok reliable) (_run fuel st) s (λ r s', r = Ok tt ∧ ∃ cs rest,
    yielded s' = yielded s ++ cs ∧ items st = lines_of cs ++ rest ∧
    Forall (chunk_ok (job_id st) (worker_id st)) cs ∧ (reliable = true → rest = [])).
Proof.
  intros Ht Hf. apply wp_try_except. eapply wp_mono; [|by apply chunks_spec].
  intros r s' (cs & rest & Hy & Hi & Hcs & [[-> ->]|(-> & code & ->)]); cbn.
  - split; [done|]. by exists cs, [].
  - split; [done|]. by exists cs, rest.
Qed.

(** *** What the task's thread puts on the queue *)

Lemma text_lines_nil s : LineBuffer.text_lines s = [] ↔ s = "".
Proof.
  unfold LineBuffer.text_lines. rewrite LineBuffer.cut_split.
  destruct (split_newline s) as [[l r]|] eqn:Hs.
  - split; [done|]. intros ->. done.
  - unfold LineBuffer.flush_partial. destruct (String.eqb s "") eqn:He; cbn.
    + by apply String.eqb_eq in He.
    + apply String.eqb_neq in He. naive_solver.
Qed.

Section lines.
Variable clock : nat → Z.

(** The lines of one stream among the items. *)
Definition stream_lines (b : bool) (st : t) : list string :=
  pb.line <$> filter (λ l, pb.is_stderr l = b) (items st).

(** The text written to one stream. *)
Definition text_of (b : bool) (ws : list (string * bool)) : string :=
  foldr (λ w s, w.1 +:+ s) "" (filter (λ w, w.2 = b) ws).

Lemma emit_fields ls c st :
  job_id (emit clock ls c st) = job_id st ∧ worker_id (emit clock ls c st) = worker_id st ∧
  (∀ b, buffer b (emit clock ls c st) = buffer b st) ∧
  (∀ b, stream_lines b (emit clock ls c st) = stream_lines b st ++ (if decide (c = b) then ls else [])) ∧
  (started st = bool_decide (items st ≠ []) →
   started (emit clock ls c st) = bool_decide (items (emit clock ls c st) ≠ [])).
Proof.
  revert st. induction ls as [|l ls IH]; intros st.
  { cbn. do 3 (split; [done|]). split; [|done]. intros b. by destruct (decide (c = b)); rewrite app_nil_r. }
  cbn [emit foldl]. change (foldl _ ?s ?l) with (emit clock l c s).
  destruct (IH (_enqueue clock l c st)) as (-> & -> & Hb & Hl & Hs).
  do 2 (split; [done|]). split; [done|]. split.
  - intros b. rewrite Hl. unfold stream_lines. cbn. rewrite filter_app, filter_cons, filter_nil, fmap_app. cbn.
    destruct (decide (c = b)); cbn; by rewrite <- app_assoc.
  - intros _. apply Hs. symmetry. apply bool_decide_eq_true. cbn. by destruct (items st).
Qed.

(** The streamer after the writes [ws]: each stream is cut as its whole text. *)
Record cut_state (ws : list (string * bool)) (job worker : string) (st : t) : Prop := {
  cs_job : job_id st = job;
  cs_worker : worker_id st = worker;
  cs_cut b : LineBuffer.cut (text_of b ws) = (stream_lines b st, buffer b st);
  cs_started : started st = bool_decide (items st ≠ []);
}.

Lemma text_of_app b ws w :
  text_of b (ws ++ [w]) = text_of b ws +:+ (if decide (w.2 = b) then w.1 else "").
Proof.
  unfold text_of. rewrite filter_app, filter_cons, filter_nil.
  induction (filter _ ws) as [|x l IH]; cbn [app foldr].
  - case_decide; cbn; [|done]. by rewrite append_nil_r.
  - by rewrite IH, append_assoc.
Qed.

Lemma text_of_split b ws ws' : text_of b (ws ++ ws') = text_of b ws +:+ text_of b ws'.
Proof.
  induction ws' as [|w ws' IH] using rev_ind; [by rewrite app_nil_r, append_nil_r|].
  by rewrite app_assoc, !text_of_app, IH, append_assoc.
Qed.

Lemma set_buffer_same b buf st : buffer b (set_buffer b buf st) = buf.
Proof. by destruct b. Qed.

Lemma set_buffer_other b c buf st : b ≠ c → buffer b (set_buffer c buf st) = buffer b st.
Proof. by destruct b, c. Qed.

Lemma sink_cut ws job worker st text c :
  cut_state ws job worker st → cut_state (ws ++ [(text, c)]) job worker (sink clock text c st).
Proof.
  intros [Hj Hw Hc Hs]. unfold sink. rewrite LineBuffer.write_cut.
  pose proof (Hc c) as Hcc. destruct (LineBuffer.cut (buffer c st +:+ text)) as [ls buf] eqn:Hcut.
  destruct (emit_fields ls c st) as (Hj' & Hw' & Hb' & Hl' & Hs').
  split; [by cbn; rewrite Hj'|by cbn; rewrite Hw'| |by apply Hs'].
  intros b. rewrite text_of_app. cbn [fst snd].
  change (stream_lines b (set_buffer c buf ?st)) with (stream_lines b st). rewrite Hl'.
  destruct (decide (c = b)) as [<-|Hne].
  - rewrite LineBuffer.cut_app, Hcc, Hcut. by rewrite set_buffer_same.
  - rewrite append_nil_r, app_nil_r, Hc, set_buffer_other, Hb' by done. done.
Qed.

Lemma sink_all_cut ws job worker : cut_state ws job worker (sink_all clock ws (__init__ job worker)).
Proof.
  induction ws as [|[text c] ws IH] using rev_ind; [by split; [..|intros []|]|].
  unfold sink_all in *. rewrite foldl_snoc. by apply sink_cut.
Qed.

(** What was enqueued before the function went on to write [rest]. *)
Lemma early_lines ws rest job worker :
  Forall (λ l, pb.line l ∈ LineBuffer.text_lines (text_of (pb.is_stderr l) (ws ++ rest)))
    (items (sink_all clock ws (__init__ job worker))).
Proof.
  apply Forall_forall. intros l Hl. rewrite text_of_split. apply LineBuffer.cut_prefix.
  rewrite (cs_cut _ _ _ _ (sink_all_cut ws job worker)). cbn [fst]. by apply list_elem_of_fmap_2, list_elem_of_filter.
Qed.

Lemma flush_fields c st :
  started st = bool_decide (items st ≠ []) →
  job_id (flush clock c st) = job_id st ∧ worker_id (flush clock c st) = worker_id st ∧
  (∀ b, b ≠ c → buffer b (flush clock c st) = buffer b st ∧ stream_lines b (flush clock c st) = stream_lines b st) ∧
  stream_lines c (flush clock c st) = stream_lines c st ++ (LineBuffer.flush_partial (buffer c st)).1 ∧
  started (flush clock c st) = bool_decide (items (flush clock c st) ≠ []).
Proof.
  intros Hst. unfold flush. destruct (LineBuffer.flush_partial (buffer c st)) as [ls buf].
  destruct (emit_fields ls c st) as (Hj' & Hw' & Hb' & Hl' & Hs').
  split; [by rewrite <- Hj'|]. split; [by rewrite <- Hw'|]. split; [|split].
  - intros b Hb. rewrite set_buffer_other by done. split; [by apply Hb'|].
    change (stream_lines b (set_buffer c buf ?st)) with (stream_lines b st).
    by rewrite Hl', decide_False, app_nil_r.
  - change (stream_lines c (set_buffer c buf ?st)) with (stream_lines c st). by rewrite Hl', decide_True.
  - by apply Hs'.
Qed.

Lemma close_cut ws job worker st :
  cut_state ws job worker st →
  job_id (close clock st) = job ∧ worker_id (close clock st) = worker ∧
  (∀ b, stream_lines b (close clock st) = LineBuffer.text_lines (text_of b ws)) ∧
  started (close clock st) = bool_decide (items (close clock st) ≠ []) ∧
  (started (close clock st) = true → closed (close clock st) = true).
Proof.
  intros [Hj Hw Hc Hs].
  destruct (flush_fields false st Hs) as (Hj1 & Hw1 & Ho1 & Hl1 & Hs1).
  destruct (flush_fields true _ Hs1) as (Hj2 & Hw2 & Ho2 & Hl2 & Hs2).
  destruct (Ho1 true) as [Hb1 Hl1']; [done|]. destruct (Ho2 false) as [_ Hl2']; [done|].
  set (st2 := flush clock true (flush clock false st)) in *.
  assert (∀ b, stream_lines b st2 = LineBuffer.text_lines (text_of b ws)) as Hlines.
  { intros b. unfold LineBuffer.text_lines. rewrite Hc. destruct b.
    - by rewrite Hl2, Hl1', Hb1.
    - by rewrite Hl2', Hl1. }
  unfold close. fold st2. destruct (started st2) eqn:Hst; cbn; rewrite ?Hst, ?Hj2, ?Hj1, ?Hw2, ?Hw1.
  - split; [done|]. split; [done|]. split; [exact Hlines|done].
  - split; [done|]. split; [done|]. split; [exact Hlines|done].
Qed.

Lemma flush_buffers c b st : buffer b (flush clock c st) = if decide (b = c) then "" else buffer b st.
Proof.
  unfold flush. destruct (LineBuffer.flush_partial (buffer c st)) as [ls buf] eqn:Hf.
  assert (buf = "") as -> by (unfold LineBuffer.flush_partial in Hf; destruct (String.eqb_spec (buffer c st) ""); congruence).
  destruct (emit_fields ls c st) as (_ & _ & Hb & _). destruct (decide (b = c)) as [->|Hne].
  - by destruct c.
  - rewrite set_buffer_other by done. apply Hb.
Qed.

(** Closing it again finds nothing more. *)
Lemma close_again ws job worker st :
  cut_state ws job worker st → closed (close clock st) = true ∨ cut_state ws job worker (close clock st).
Proof.
  intros Hcut. destruct (close_cut _ _ _ _ Hcut) as (Hj & Hw & Hl & Hs & Hc).
  destruct (started (close clock st)) eqn:Hst; [left; by apply Hc|right]. split; [done|done| |by rewrite Hst].
  symmetry in Hs. apply bool_decide_eq_false in Hs. intros b.
  assert (stream_lines b (close clock st) = []) as Hnil.
  { unfold stream_lines. destruct (items _); [done|]. by destruct Hs. }
  rewrite Hnil. rewrite Hl in Hnil. rewrite (proj1 (text_lines_nil _) Hnil). cbn. f_equal.
  assert (∀ b, buffer b (flush clock true (flush clock false st)) = "") as Hb.
  { intros b'. rewrite flush_buffers. destruct (decide _) as [|Hne]; [done|]. rewrite flush_buffers.
    by destruct b'. }
  specialize (Hb b). unfold close.
  by destruct (started (flush clock true (flush clock false st))), b; cbn in *.
Qed.

Lemma flush_ids c st : job_id (flush clock c st) = job_id st ∧ worker_id (flush clock c st) = worker_id st.
Proof.
  unfold flush. destruct (LineBuffer.flush_partial (buffer c st)) as [ls buf].
  destruct (emit_fields ls c st) as (Hj & Hw & _). by split; cbn.
Qed.

Lemma close_ids st : job_id (close clock st) = job_id st ∧ worker_id (close clock st) = worker_id st.
Proof.
  destruct (flush_ids false st) as [Hj1 Hw1], (flush_ids true (flush clock false st)) as [Hj2 Hw2].
  rewrite <- Hj1, <- Hw1, <- Hj2, <- Hw2. unfold close.
  by destruct (started (flush clock true (flush clock false st))).
Qed.

Lemma close_closed st : closed st = true → closed (close clock st) = true.
Proof.
  intros Hc. assert (∀ ls c st, closed (emit clock ls c st) = closed st) as He.
  { intros ls c. unfold emit. induction ls as [|l ls IH]; intros st'; [done|]. cbn. by rewrite IH. }
  assert (∀ c st, closed (flush clock c st) = closed st) as Hf.
  { intros c st'. unfold flush. destruct (LineBuffer.flush_partial _). cbn. apply He. }
  unfold close. destruct (started _); [done|]. by rewrite !Hf.
Qed.

End lines.

Lemma stream_lines_nil st : items st = [] ↔ ∀ b, stream_lines b st = [].
Proof.
  unfold stream_lines. split; [by intros ->|]. intros H. destruct (items st) as [|l ls]; [done|].
  specialize (H (pb.is_stderr l)). by rewrite filter_cons_True in H.
Qed.

(** C34: The output of a task reaches the orchestrator line by line.  However a function
    cuts its output into writes [ws] on the two streams, and however the task's thread
    and the streamer's thread are interleaved: the lines put on the queue are, for each
    stream, the lines of the whole text, an unterminated last line included; the stream
    is opened only if there is any output; the chunks sent carry these lines in order
    and without loss or repetition, between 1 and 256 lines each, for this job and
    worker; a broken connection leaves a prefix of them, and never an exception. *)
Theorem output_is_streamed clock job worker ws :
  let st := close clock (sink_all clock ws (__init__ job worker)) in
  let sent := stream_of (items st) in
  (∀ b, stream_lines b st = LineBuffer.text_lines (text_of b ws)) ∧
  (started st = false ↔ ∀ b, text_of b ws = "") ∧
  ∀ (reliable : bool) (ahead : nat),
    wp (stream_ok reliable) (_run (S (length (items st))) st)
      (mkQueue (take ahead sent) (drop ahead sent) []) (λ r s',
        r = Ok tt ∧ ∃ rest, items st = lines_of (yielded s') ++ rest ∧
        Forall (chunk_ok job worker) (yielded s') ∧ (reliable = true → rest = [])).
Proof.
  intros st sent.
  destruct (close_cut clock ws job worker _ (sink_all_cut clock ws job worker)) as (Hj & Hw & Hl & Hs & _).
  fold st in Hj, Hw, Hl, Hs. split; [exact Hl|]. split.
  - rewrite Hs, bool_decide_eq_false. rewrite (stream_lines_nil st).
    split; intros H; [intros b; apply text_lines_nil; rewrite <- Hl|intros Hn; apply Hn; intros b; rewrite Hl; by apply text_lines_nil].
    destruct (decide (items st = [])) as [Hi|Hi]; [by apply stream_lines_nil|].
    destruct H. intros Hn. by apply Hi, stream_lines_nil.
  - intros reliable ahead. rewrite <- Hj, <- Hw. eapply wp_mono; [|apply thread_run_spec; [|lia]].
    + cbn. intros r s' (-> & cs & rest & -> & Hi & Hcs & Hr). split; [done|]. by exists rest.
    + unfold total. cbn. apply take_drop.
Qed.

End Streamer.

(** ** Output captured at completion

    Executors that cannot stream return the whole text, which the worker cuts with
    [str.splitlines]. *)

(** The newline is the only line boundary in the text. *)
Fixpoint only_newlines (s : string) : bool :=
  match s with
  | "" => true
  | String c s' => (Nat.eqb (boundary s) 0 || Ascii.eqb c newline) && only_newlines s'
  end.

Lemma splitlines_from_cut cur s :
  only_newlines s = true →
  splitlines_from 0 cur s =
    match LineBuffer.cut s with
    | ([], r) => (LineBuffer.flush_partial (cur +:+ r)).1
    | (l :: ls, r) => (cur +:+ l) :: ls ++ (LineBuffer.flush_partial r).1
    end.
Proof.
  revert cur. induction s as [|c s IH]; intros cur.
  { intros _. cbn. rewrite append_nil_r. unfold LineBuffer.flush_partial. by destruct (String.eqb cur ""). }
  intros [Hb Hs]%andb_true_iff. cbn [splitlines_from LineBuffer.cut].
  destruct (Ascii.eqb c newline) eqn:Hc.
  - apply Ascii.eqb_eq in Hc as ->. change (boundary (String newline s)) with 1. cbv iota.
    rewrite IH by done.
    destruct (LineBuffer.cut s) as [[|l ls] r]; cbn [app]; rewrite append_nil_r; done.
  - rewrite orb_false_r in Hb. apply Nat.eqb_eq in Hb. rewrite Hb. cbv iota. rewrite IH by done.
    destruct (LineBuffer.cut s) as [[|l ls] r]; by rewrite append_assoc.
Qed.

Lemma splitlines_text s : only_newlines s = true → splitlines s = LineBuffer.text_lines s.
Proof.
  intros Hs. unfold splitlines, LineBuffer.text_lines. rewrite splitlines_from_cut by done.
  by destruct (LineBuffer.cut s) as [[|l ls] r].
Qed.
