(* ===== verification/Serialization.v ===== *)
(** * Serialization: the cloudpickle wrappers

    src/sdk/minimodal/serialization.py, used by the SDK and by the worker. *)

From stdpp Require Import strings gmap sorting prelude.
From S2P Require Import Prelude Types Python.

Open Scope py_scope.

Section serialization.
Context `{!Pickle}.

(** [except Exception as e: raise SerializationError(f'{what} not picklable: {e}')]. *)
Definition not_picklable (what : string) (e : exn) : exn :=
  if isinstance e [Exception]
  then mkExn SerializationError (what +:+ " not picklable: " +:+ exn_msg e)
  else e.

Definition serialize_callable (fn : pyval) : result exn bytes :=
  match dumps fn with Ok b => Ok b | Err e => Err (not_picklable "function" e) end.

Definition serialize_args (args : list pyval) (kwargs : list (string * pyval)) : result exn bytes :=
  match dumps (PTuple [PTuple args; PDict kwargs]) with
  | Ok b => Ok b
  | Err e => Err (not_picklable "args" e)
  end.

Definition deserialize_callable (payload : bytes) : result exn pyval := loads payload.

Definition deserialize_args (payload : bytes) : result exn pyval := loads payload.

Definition serialize_result (r : pyval) : result exn bytes :=
  match dumps r with Ok b => Ok b | Err e => Err (not_picklable "result" e) end.

Definition deserialize_result (payload : bytes) : result exn pyval :=
  match payload with [] => Ok PNone | _ => loads payload end.

(** ** Facts *)

Context `{!PickleLaws}.

Lemma deserialize_serialize_result v b : serialize_result v = Ok b → deserialize_result b = Ok v.
Proof.
  unfold serialize_result. destruct (dumps v) as [b'|e] eqn:Hd; [|done]. intros [= ->].
  pose proof (dumps_nonempty v b Hd). destruct b; [done|]. by apply loads_dumps.
Qed.

Lemma deserialize_serialize_callable f b : serialize_callable f = Ok b → deserialize_callable b = Ok f.
Proof.
  unfold serialize_callable. destruct (dumps f) as [b'|e] eqn:Hd; [|done]. intros [= ->].
  by apply loads_dumps.
Qed.

Lemma deserialize_serialize_args args kwargs b :
  serialize_args args kwargs = Ok b → (let! v := deserialize_args b in as_call v) = Ok (args, kwargs).
Proof.
  unfold serialize_args. destruct (dumps _) as [b'|e] eqn:Hd; [|done]. intros [= ->].
  unfold deserialize_args. by rewrite (loads_dumps _ _ Hd).
Qed.

Lemma serialize_result_raises v e : serialize_result v = Err e → isinstance e [Exception] = true.
Proof.
  unfold serialize_result. destruct (dumps v) as [b|e'] eqn:Hd; [done|]. intros [= <-].
  unfold not_picklable. by rewrite (dumps_raises _ _ Hd).
Qed.

End serialization.
