(* ===== verification/Executor.v ===== *)
(** * Executor: running a user function

    src/worker/executor.py (the result type, the interface, the in-process and the
    fresh-interpreter strategies) and src/worker/subprocess_runner.py (what the
    fresh interpreter runs).  The warm pool is in WarmPool.v.

    What a user function does is a parameter, [call]: the texts it writes and how it
    ends.  An executor is an instance of [Executor]; its promises to the worker are
    those of [ExecutorOk]. *)

From stdpp Require Import strings gmap sorting prelude pretty.
From Stdlib Require Import SpecFloat.
From S2P Require Import Prelude Types Prog Python Framing LogStream Serialization.

Open Scope py_scope.

(** ** User functions *)

(** How a call ends; [Dies] stands for a fatal signal or [os._exit]. *)
Inductive call_end : Type :=
| Returns (v : pyval)
| Raises (e : exn)
| Dies
| Hangs.

Record behaviour : Type := mkBehaviour {
  writes : list (string * bool);
  ends : call_end;
}.

(** [fn( *args, **kwargs)]. *)
Class UserCode : Type :=
  call : pyval → list pyval → list (string * pyval) → behaviour.

(** What the interpreter decides: the clock and the text of a traceback. *)
Class Runtime (O : Type) : Type := {
  o_now : O → spec_float;
  o_tb : O → exn → string;
}.

Section runtime.
Context `{!UserCode} {S O : Type} `{!Runtime O}.

Definition monotonic : py S O spec_float := step_ (λ o s, (o_now o, s)).

Definition format_exc (e : exn) : py S O string := step_ (λ o s, (o_tb o e, s)).

(** A call in this process: its output, and its value or exception.  A function that
    hangs keeps the thread; one that dies takes the process with it. *)
Definition call_user (f : pyval) (args : list pyval) (kwargs : list (string * pyval)) :
    py S O (list (string * bool) * result exn pyval) :=
  act (λ _ s,
    let b := call f args kwargs in
    match ends b with
    | Returns v => Next (Ok (writes b, Ok v)) s
    | Raises e => Next (Ok (writes b, Err e)) s
    | Dies => Panic
    | Hangs => Block
    end).

End runtime.

(** ** The interface *)

Record ExecutionResult : Type := mkResult {
  success : bool;
  result_bytes : bytes;
  error_ : string;
  cold_start_ms : Z;
  execution_ms : Z;
  stdout : string;
  stderr : string;
}.

(** [execute] returns the result and what it passed to [output_sink], if there is one. *)
Class Executor (E O : Type) : Type := {
  name : string;
  execute : bytes → bytes → bool → py E O (ExecutionResult * list (string * bool));
}.

(** ** In the worker's own interpreter *)

Section inproc.
Context `{!Pickle} `{!UserCode} {O : Type} `{!Runtime O}.

Abbreviation inproc := (py unit O).

(** [fn = deserialize_callable(...); args, kwargs = deserialize_args(...)]. *)
Definition load_task (function_bytes args_bytes : bytes) :
    result exn (pyval * (list pyval * list (string * pyval))) :=
  let! fn := deserialize_callable function_bytes in
  let! a := deserialize_args args_bytes in
  let! args := as_call a in
  Ok (fn, args).

(** The body of the [try], up to the end of the call: what was written, and when the call
    started with its value, or the exception. *)
Definition run_loaded (function_bytes args_bytes : bytes) :
    inproc (list (string * bool) * result exn (spec_float * pyval)) :=
  match load_task function_bytes args_bytes with
  | Err e => pure ([], Err e)
  | Ok (fn, (args, kwargs)) =>
      let* exec_start := monotonic in
      let* u := call_user fn args kwargs in
      pure (u.1, result_map (pair exec_start) u.2)
  end.

(** The [except Exception] clause. *)
Definition inproc_failed (cold_start : spec_float) (out err : string) (e : exn) : inproc ExecutionResult :=
  if isinstance e [Exception]
  then
    let* tb := format_exc e in
    let* now := monotonic in
    pure (mkResult false [] tb (elapsed_ms now cold_start) 0 out err)
  else raise_ e.

(** The rest of the [try]. *)
Definition inproc_finish (cold_start : spec_float) (r : result exn (spec_float * pyval))
    (out err : string) : inproc ExecutionResult :=
  match r with
  | Ok (exec_start, v) =>
      let* exec_end := monotonic in
      match serialize_result v with
      | Ok b => pure (mkResult true b "" (elapsed_ms exec_start cold_start)
                        (elapsed_ms exec_end exec_start) out err)
      | Err e => inproc_failed cold_start out err e
      end
  | Err e => inproc_failed cold_start out err e
  end.

(** [execute] without a sink: the output is captured by [redirect_stdout] and
    [redirect_stderr]. *)
Definition execute_captured (function_bytes args_bytes : bytes) : inproc ExecutionResult :=
  let* cold_start := monotonic in
  let* x := run_loaded function_bytes args_bytes in
  inproc_finish cold_start x.2 (Streamer.text_of false x.1) (Streamer.text_of true x.1).

(** With a sink: the routers pass the writes on as they happen (module [Router]), and the
    result carries no output. *)
Definition _execute_streaming (function_bytes args_bytes : bytes) :
    inproc (ExecutionResult * list (string * bool)) :=
  let* cold_start := monotonic in
  let* x := run_loaded function_bytes args_bytes in
  let* res := inproc_finish cold_start x.2 "" "" in
  pure (res, x.1).

#[export] Instance InprocExecutor : Executor unit O := {
  name := "inproc";
  execute fb ab output_sink :=
    if output_sink : bool then _execute_streaming fb ab
    else let* res := execute_captured fb ab in pure (res, []);
}.

End inproc.

(** ** In a fresh interpreter *)

(** *** src/worker/subprocess_runner.py *)

(** The process: its two pipes and the text on its standard error. *)
Record runner : Type := mkRunner {
  pipe : sock;
  err_text : string;
}.

Definition set_pipe (p : sock) (s : runner) : runner := mkRunner p (err_text s).

Record runner_env : Type := mkRunnerEnv {
  r_sock : sock_env;
  r_now : spec_float;
  r_tb : exn → string;
}.

#[export] Instance runner_runtime : Runtime runner_env := { o_now := r_now; o_tb := r_tb }.

Abbreviation child := (py runner runner_env).

(** Reading from [sys.stdin.buffer] and writing to [sys.stdout.buffer]. *)
Definition on_pipe {A} (p : sockio A) : child A := zoom pipe set_pipe r_sock p.

Definition write_stderr (text : string) : child unit :=
  step_ (λ _ s, (tt, mkRunner (pipe s) (err_text s +:+ text))).

Section runner.
Context `{!Pickle} `{!UserCode}.

Definition envelope_error (error : string) (ms : Z) (output : list (string * pyval)) : pyval :=
  PDict ([("ok", PBool false); ("error", PStr error); ("execution_ms", PInt ms)] ++ output).

Definition envelope_ok (rb : bytes) (ms : Z) (output : list (string * pyval)) : pyval :=
  PDict ([("ok", PBool true); ("result_bytes", PBytes rb); ("execution_ms", PInt ms)] ++ output).

(** The call with its output captured into the envelope. *)
Definition runner_call (fn : pyval) (args : list pyval) (kwargs : list (string * pyval)) : child unit :=
  let* t0 := monotonic in
  let* u := call_user fn args kwargs in
  let output := [("stdout", PStr (Streamer.text_of false u.1));
                 ("stderr", PStr (Streamer.text_of true u.1))] in
  try_except
    (let* result := lift u.2 in
     let* now := monotonic in
     let* rb := lift (dumps result) in
     on_pipe (_write_envelope (envelope_ok rb (elapsed_ms now t0) output)))
    (catching [Exception] (λ e,
       let* now := monotonic in
       let* tb := format_exc e in
       on_pipe (_write_envelope (envelope_error tb (elapsed_ms now t0) output)))).

(** [main] of the runner after the request was read: the exit code. *)
Definition runner_task (fn_bytes args_bytes : bytes) : child Z :=
  match load_task fn_bytes args_bytes with
  | Err e =>
      if isinstance e [Exception]
      then
        let* tb := format_exc e in
        on_pipe (_write_envelope (envelope_error ("deserialize failed:" +:+ String newline tb) 0 [])) ;;;
        pure 0%Z
      else raise_ e
  | Ok (fn, (args, kwargs)) => runner_call fn args kwargs ;;; pure 0%Z
  end.

Definition runner_main : child Z :=
  attempt (on_pipe _read_request) (λ request,
    match request with
    | Err e =>
        if isinstance e [Exception]
        then write_stderr ("subprocess_runner: read request failed: " +:+ exn_msg e +:+ String newline "") ;;;
             pure 2%Z
        else raise_ e
    | Ok (fn_bytes, args_bytes) => runner_task fn_bytes args_bytes
    end).

(** The exit status of an interpreter whose main program ends so. *)
Definition exit_status (r : result exn Z) : Z :=
  match r with
  | Ok n => n
  | Err e =>
      match exn_type e with
      | SystemExit n => (n mod 256)%Z
      | KeyboardInterrupt => (-2)%Z
      | _ => 1%Z
      end
  end.

End runner.

(** *** [NaiveSubprocessExecutor] *)

(** What becomes of the process: it ends by itself, a signal kills it when it has written
    some of its output, or it takes longer than the timeout. *)
Inductive fate : Type :=
| Exits
| Killed (signal : Z) (kept : nat)
| Slow.

(** What the system decides for one step: whether [Popen] raises, what becomes of the
    process, what it decides for the steps of the process, the status of a process that
    dies in the user function, and text on its standard error that is not its own. *)
Record naive_env : Type := mkNaiveEnv {
  n_now : spec_float;
  n_tb : exn → string;
  n_popen : option exn;
  n_fate : fate;
  n_steps : nat → runner_env;
  n_died : Z;
  n_noise : string;
}.

#[export] Instance naive_runtime : Runtime naive_env := { o_now := n_now; o_tb := n_tb }.

(** [s[:n]] on characters. *)
Fixpoint str_take (n : nat) (s : string) : string :=
  match s with
  | "" => ""
  | String c s' =>
      if Nat.eqb (str_len (String c "")) 0 then String c (str_take n s')
      else match n with O => "" | S n => String c (str_take n s') end
  end.

Section naive.
Context `{!Pickle} `{!UserCode}.

Abbreviation naive := (py unit naive_env).

(** [subprocess.Popen(...)]. *)
Definition popen : naive unit :=
  act (λ o s, Next (match n_popen o with None => Ok tt | Some e => Err e end) s).

(** What the process has written and its status when it is over; [None] if it never
    ends. *)
Definition process (o : naive_env) (request : bytes) : option (bytes * string * Z) :=
  match run (n_steps o) runner_main (mkRunner (mkSock request None []) "") with
  | Done r s => Some (outgoing (pipe s), err_text s +:+ n_noise o, exit_status r)
  | Panicked s => Some (outgoing (pipe s), err_text s +:+ n_noise o, n_died o)
  | Blocked _ | Unfinished _ => None
  end.

(** [proc.communicate(request, timeout=60.0)]; after a timeout the process is killed
    and the second [communicate] returns its standard error. *)
Definition communicate (request : bytes) : naive (result string (bytes * string * Z)) :=
  act (λ o s,
    Next (Ok match process o request, n_fate o with
             | Some (out, err, status), Exits => Ok (out, err, status)
             | Some (out, err, _), Killed signal kept => Ok (take kept out, err, (- signal)%Z)
             | Some (_, err, _), Slow => Err err
             | None, Killed signal _ => Ok ([], n_noise o, (- signal)%Z)
             | None, _ => Err (n_noise o)
             end) s).

(** The result that an envelope describes. *)
Definition read_envelope (envelope : pyval) (wall_ms : Z) : result exn ExecutionResult :=
  let! ms := dict_get envelope "execution_ms" (PInt 0) in
  let! execution_ms := as_int ms in
  let cold_start_ms := Z.max 0 (wall_ms - execution_ms) in
  let! ok := dict_get envelope "ok" PNone in
  if truthy ok
  then
    let! rb := getitem envelope "result_bytes" in
    let! rb := as_bytes rb in
    let! out := dict_get envelope "stdout" (PStr "") in
    let! out := as_str out in
    let! err := dict_get envelope "stderr" (PStr "") in
    let! err := as_str err in
    Ok (mkResult true rb "" cold_start_ms execution_ms out err)
  else
    let! error := dict_get envelope "error" (PStr "unknown error") in
    let! error := as_str error in
    let! out := dict_get envelope "stdout" (PStr "") in
    let! out := as_str out in
    let! err := dict_get envelope "stderr" (PStr "") in
    let! err := as_str err in
    Ok (mkResult false [] error cold_start_ms execution_ms out err).

(** The end of [execute], with what the process left. *)
Definition naive_finish (out : bytes) (err : string) (status wall_ms : Z) : result exn ExecutionResult :=
  if (negb (status =? 0)%Z || Nat.ltb (length out) 4)%bool
  then Ok (mkResult false [] ("subprocess exit=" +:+ pretty status +:+ ": " +:+ str_take 500 err)
             wall_ms 0 "" err)
  else
    let! envelope_len := unpack_I (take 4 out) in
    let! envelope := deserialize_result (take (Z.to_nat envelope_len) (drop 4 out)) in
    read_envelope envelope wall_ms.

Definition naive_execute (function_bytes args_bytes : bytes) : naive ExecutionResult :=
  let* wall_start := monotonic in
  attempt popen (λ proc,
    match proc with
    | Err e =>
        if isinstance e [Exception]
        then
          let* tb := format_exc e in
          let* now := monotonic in
          pure (mkResult false [] ("spawn subprocess: " +:+ tb) (elapsed_ms now wall_start) 0 "" "")
        else raise_ e
    | Ok _ =>
        let* request := lift (request_bytes function_bytes args_bytes) in
        let* done_ := communicate request in
        let* now := monotonic in
        match done_ with
        | Err err =>
            pure (mkResult false [] "subprocess timed out" (elapsed_ms now wall_start) 0 "" err)
        | Ok (out, err, status) => lift (naive_finish out err status (elapsed_ms now wall_start))
        end
    end).

#[export] Instance NaiveSubprocessExecutor : Executor unit naive_env := {
  name := "naive";
  execute fb ab output_sink := let* res := naive_execute fb ab in pure (res, []);
}.

End naive.

(** ** What an executor promises *)

Section verdict.
Context `{!Pickle} `{!UserCode}.

(** What the function makes of the task: the pickled result, or nothing. *)
Definition verdict (function_bytes args_bytes : bytes) : option bytes :=
  match load_task function_bytes args_bytes with
  | Ok (fn, (args, kwargs)) =>
      match ends (call fn args kwargs) with
      | Returns v => match dumps v with Ok b => Some b | Err _ => None end
      | _ => None
      end
  | Err _ => None
  end.

(** The function stays within its call: it does not bring its process down, which is the
    worker in [InprocExecutor], and raises nothing but [Exception]s. *)
Definition contained (function_bytes args_bytes : bytes) : Prop :=
  match load_task function_bytes args_bytes with
  | Ok (fn, (args, kwargs)) =>
      match ends (call fn args kwargs) with
      | Raises e => isinstance e [Exception] = true
      | Dies => False
      | Returns _ | Hangs => True
      end
  | Err _ => True
  end.

(** It returns or raises an [Exception]. *)
Definition ordinary (function_bytes args_bytes : bytes) : Prop :=
  match load_task function_bytes args_bytes with
  | Ok (fn, (args, kwargs)) =>
      match ends (call fn args kwargs) with
      | Returns _ => True
      | Raises e => isinstance e [Exception] = true
      | _ => False
      end
  | Err _ => True
  end.

Lemma ordinary_contained fb ab : ordinary fb ab → contained fb ab.
Proof.
  unfold ordinary, contained. destruct (load_task fb ab) as [[fn [args kwargs]]|]; [|done].
  by destruct (ends _).
Qed.

(** The result tells the verdict; only an answer that the wire format cannot carry is
    reported as a failure. *)
Definition judged (oversize : bytes → bytes → Prop) (fb ab : bytes) (res : ExecutionResult) : Prop :=
  match verdict fb ab with
  | Some rb => success res = true ∧ result_bytes res = rb ∨ success res = false ∧ oversize fb ab
  | None => success res = false
  end.

(** What the function writes. *)
Definition written (function_bytes args_bytes : bytes) : list (string * bool) :=
  match load_task function_bytes args_bytes with
  | Ok (fn, (args, kwargs)) => writes (call fn args kwargs)
  | Err _ => []
  end.

(** What a caller of [execute] may rely on: what goes through the sink is that of [shown]; a
    reported success is the verdict and comes with the rest of [shown], on [stdout] and
    [stderr]; and what is raised is an [Exception]. *)
Definition honest (shown : string * string * list (string * bool)) (fb ab : bytes)
    (r : result exn (ExecutionResult * list (string * bool))) : Prop :=
  match r with
  | Ok (res, ws) =>
      ws = shown.2 ∧
      (success res = true → verdict fb ab = Some (result_bytes res) ∧ (stdout res, stderr res) = shown.1)
  | Err e => isinstance e [Exception] = true
  end.

(** The same before the sink's writes are added. *)
Definition honest_result (shown : string * string) (fb ab : bytes) (r : result exn ExecutionResult) : Prop :=
  match r with
  | Ok res => success res = true → verdict fb ab = Some (result_bytes res) ∧ (stdout res, stderr res) = shown
  | Err e => isinstance e [Exception] = true
  end.

(** The two streams of the output. *)
Definition both (ws : list (string * bool)) : string * string :=
  (Streamer.text_of false ws, Streamer.text_of true ws).

End verdict.

(** The executor as the worker sees it.  [possible] is what its environment may do at
    all, [faultless] when nothing goes wrong but what the function does itself, [ready] a
    state in which it can take a task at once; it [accepts] tasks that its wire format can
    carry; [delivers] tells where the output of a function goes, depending on whether there
    is a sink. *)
Class ExecutorOk `{!Pickle} `{!UserCode} (E O : Type) `{!Executor E O} : Type := {
  possible : O → E → Prop;
  faultless : O → E → Prop;
  ready : E → Prop;
  hosts : bytes → bytes → Prop;
  accepts : bytes → bytes → Prop;
  oversize : bytes → bytes → Prop;
  delivers : bool → list (string * bool) → string * string * list (string * bool);
  ordinary_hosts fb ab : ordinary fb ab → hosts fb ab;
  (** All output through the sink, all of it in the result, or none. *)
  delivers_output sink ws : delivers sink ws ∈ [("", "", ws); (both ws, []); ("", "", [])];
  (** Whatever happens, and whatever other threads do. *)
  execute_sound fb ab sink : hosts fb ab → yields possible (execute fb ab sink) (honest (delivers sink (written fb ab)) fb ab);
  (** An ordinary function gets its verdict when nothing goes wrong. *)
  execute_complete fb ab sink s :
    ordinary fb ab → accepts fb ab → ready s →
    wp faultless (execute fb ab sink) s (λ r s', ready s' ∧ ∃ res ws, r = Ok (res, ws) ∧ judged oversize fb ab res);
}.

(** ** The in-process executor keeps the promises *)

Section inproc_ok.
Context `{!Pickle} `{!PickleLaws} `{!UserCode} {O : Type} `{!Runtime O}.

Lemma verdict_loaded fb ab fn args kwargs :
  load_task fb ab = Ok (fn, (args, kwargs)) →
  verdict fb ab = match ends (call fn args kwargs) with
                  | Returns v => match dumps v with Ok b => Some b | Err _ => None end
                  | _ => None
                  end.
Proof. intros Hl. unfold verdict. by rewrite Hl. Qed.

Lemma load_task_raises fb ab e : load_task fb ab = Err e → isinstance e [Exception] = true.
Proof.
  unfold load_task, deserialize_callable, deserialize_args, res_bind.
  destruct (loads fb) as [f|e1] eqn:Hf; [|intros [= <-]; by eapply loads_raises].
  destruct (loads ab) as [a|e2] eqn:Ha; [|intros [= <-]; by eapply loads_raises].
  unfold as_call. repeat case_match; intros; simplify_eq; done.
Qed.

Lemma serialize_result_dumps v :
  match serialize_result v with
  | Ok b => dumps v = Ok b
  | Err e => (∃ e', dumps v = Err e') ∧ isinstance e [Exception] = true
  end.
Proof.
  destruct (serialize_result v) eqn:Hs; [|split; [|by eapply serialize_result_raises]];
    unfold serialize_result in Hs; destruct (dumps v); naive_solver.
Qed.

(** The function of a task has returned or raised, or the task could not be loaded. *)
Definition run_outcome (fb ab : bytes) (r : result exn (spec_float * pyval)) : Prop :=
  match r with
  | Ok (_, v) => verdict fb ab = match dumps v with Ok b => Some b | Err _ => None end
  | Err e => verdict fb ab = None ∧ (contained fb ab → isinstance e [Exception] = true)
  end.

Lemma run_loaded_outcome fb ab :
  match load_task fb ab with
  | Err e => run_outcome fb ab (Err e)
  | Ok (fn, (args, kwargs)) =>
      match ends (call fn args kwargs) with
      | Returns v => ∀ t, run_outcome fb ab (Ok (t, v))
      | Raises e => run_outcome fb ab (Err e)
      | _ => True
      end
  end.
Proof.
  unfold run_outcome, verdict, contained. destruct (load_task fb ab) as [[fn [args kwargs]]|e] eqn:Hl.
  - by destruct (ends _).
  - split; [done|]. intros _. by eapply load_task_raises.
Qed.

Lemma inproc_failed_yields (ok : O → unit → Prop) t out err e Q :
  isinstance e [Exception] = true → (∀ tb ms, Q (Ok (mkResult false [] tb ms 0 out err))) →
  yields ok (inproc_failed t out err e) Q.
Proof.
  intros He HQ. unfold inproc_failed. rewrite He.
  apply yields_py_bind, yields_step. intros tb. apply yields_py_bind, yields_step. intros now. apply HQ.
Qed.

Lemma inproc_finish_sound (ok : O → unit → Prop) fb ab t r out err :
  contained fb ab → run_outcome fb ab r → yields ok (inproc_finish t r out err) (honest_result (out, err) fb ab).
Proof.
  intros Hc Hr. unfold inproc_finish. destruct r as [[t0 v]|e].
  - apply yields_py_bind, yields_step. intros t1. pose proof (serialize_result_dumps v) as Hs.
    destruct (serialize_result v) as [b|e].
    + cbn in Hr. rewrite Hs in Hr. cbn. by rewrite Hr.
    + by apply inproc_failed_yields; [apply Hs|].
  - apply inproc_failed_yields; [by apply Hr|done].
Qed.

Lemma run_loaded_yields (ok : O → unit → Prop) fb ab :
  contained fb ab →
  yields ok (run_loaded fb ab) (λ r, ∃ x, r = Ok (written fb ab, x) ∧ run_outcome fb ab x).
Proof.
  intros Hsv. pose proof (run_loaded_outcome fb ab) as Ho. unfold run_loaded, contained, written in *.
  destruct (load_task fb ab) as [[fn [args kwargs]]|e]; [|by exists (Err e)].
  apply yields_py_bind, yields_step. intros t. apply yields_py_bind. intros o s _. cbn.
  destruct (ends (call fn args kwargs)); cbn; [eexists; split; [done|apply Ho]..|done|done].
Qed.

Definition inproc_delivers (sink : bool) (ws : list (string * bool)) : string * string * list (string * bool) :=
  if sink then ("", "", ws) else (both ws, []).

Lemma inproc_delivers_output sink ws :
  inproc_delivers sink ws ∈ [("", "", ws); (both ws, []); ("", "", [])].
Proof. destruct sink; [left|right; left]. Qed.

Lemma inproc_sound (ok : O → unit → Prop) fb ab sink :
  contained fb ab →
  yields ok (execute (E := unit) (O := O) fb ab sink) (honest (inproc_delivers sink (written fb ab)) fb ab).
Proof.
  intros Hsv. cbn [execute InprocExecutor]. destruct sink.
  - apply yields_py_bind, yields_step. intros t. apply yields_py_bind.
    eapply yields_mono; [|by apply run_loaded_yields]. intros r (x & -> & Hx). apply yields_py_bind.
    eapply yields_mono; [|by apply inproc_finish_sound]. by intros [res|e] Hres.
  - do 2 apply yields_py_bind. apply yields_step. intros t. apply yields_py_bind.
    eapply yields_mono; [|by apply run_loaded_yields]. intros r (x & -> & Hx).
    eapply yields_mono; [|by apply inproc_finish_sound]. by intros [res|e] Hres.
Qed.

Lemma inproc_failed_wp (ok : O → unit → Prop) t out err e s Q :
  isinstance e [Exception] = true → (∀ tb ms, Q (Ok (mkResult false [] tb ms 0 out err)) s) →
  wp ok (inproc_failed t out err e) s Q.
Proof.
  intros He HQ. unfold inproc_failed. rewrite He.
  apply wp_py_bind, wp_step. intros o _. apply wp_py_bind, wp_step. intros o' _. apply HQ.
Qed.

Lemma inproc_finish_complete (ok : O → unit → Prop) fb ab t r out err s Q :
  ordinary fb ab → run_outcome fb ab r →
  (∀ res, judged (λ _ _, False) fb ab res → Q (Ok res) s) →
  wp ok (inproc_finish t r out err) s Q.
Proof.
  intros Hord Hr HQ. unfold inproc_finish, judged in *. destruct r as [[t0 v]|e].
  - apply wp_py_bind, wp_step. intros o _. pose proof (serialize_result_dumps v) as Hs. cbn in Hr.
    destruct (serialize_result v) as [b|e].
    + rewrite Hs in Hr. apply HQ. rewrite Hr. by left.
    + destruct Hs as [[e' Hd] He]. rewrite Hd in Hr.
      apply inproc_failed_wp; [done|]. intros tb ms. apply HQ. by rewrite Hr.
  - destruct Hr as [Hv He]. apply inproc_failed_wp; [by apply He, ordinary_contained|]. intros tb ms. apply HQ. by rewrite Hv.
Qed.

Lemma run_loaded_wp (ok : O → unit → Prop) fb ab s Q :
  ordinary fb ab → (∀ x, run_outcome fb ab x.2 → Q (Ok x) s) → wp ok (run_loaded fb ab) s Q.
Proof.
  intros Hord HQ. pose proof (run_loaded_outcome fb ab) as Ho. unfold run_loaded, ordinary in *.
  destruct (load_task fb ab) as [[fn [args kwargs]]|e]; [|by apply HQ].
  apply wp_py_bind, wp_step. intros o _. apply wp_py_bind. intros o' _. cbn.
  destruct (ends (call fn args kwargs)); cbn; [apply HQ, Ho..|done|done].
Qed.

Lemma inproc_complete (ok : O → unit → Prop) fb ab sink s :
  ordinary fb ab →
  wp ok (execute (E := unit) (O := O) fb ab sink) s (λ r _,
    True ∧ ∃ res ws, r = Ok (res, ws) ∧ judged (λ _ _, False) fb ab res).
Proof.
  intros Hord. cbn [execute InprocExecutor]. destruct sink.
  - apply wp_py_bind, wp_step. intros o _. apply wp_py_bind, run_loaded_wp; [done|]. intros x Hx.
    apply wp_py_bind. eapply inproc_finish_complete; [done|done|]. intros res Hres. cbn. eauto.
  - do 2 apply wp_py_bind. apply wp_step. intros o _. apply wp_py_bind, run_loaded_wp; [done|]. intros x Hx.
    eapply inproc_finish_complete; [done|done|]. intros res Hres. cbn. eauto.
Qed.

#[export] Instance inproc_ok : ExecutorOk unit O := {
  possible := λ _ _, True;
  faultless := λ _ _, True;
  ready := λ _, True;
  hosts := contained;
  accepts := λ _ _, True;
  oversize := λ _ _, False;
  delivers := inproc_delivers;
  ordinary_hosts := ordinary_contained;
  delivers_output := inproc_delivers_output;
  execute_sound fb ab sink := inproc_sound _ fb ab sink;
  execute_complete fb ab sink s Hord _ _ := inproc_complete _ fb ab sink s Hord;
}.

End inproc_ok.

(** ** The fresh interpreter keeps the promises *)

Section naive_ok.
Context `{!Pickle} `{!PickleLaws} `{!UserCode}.

(** The parent keeps its end of the pipes open, so no write fails. *)
Definition runner_ok : runner_env → runner → Prop := λ o _, o_fail (r_sock o) = None.

Lemma on_pipe_wp {A} (p : sockio A) s Q :
  wp no_fail p (pipe s) (λ a x, Q a (set_pipe x s)) → wp runner_ok (on_pipe p) s Q.
Proof. intros Hp. exact (wp_zoom pipe set_pipe r_sock (λ _ _, eq_refl) (λ _ _ _, eq_refl) (λ '(mkRunner _ _), eq_refl) no_fail p s Q Hp). Qed.

(** The output that the runner puts into an envelope. *)
Definition captured (ws : list (string * bool)) : list (string * pyval) :=
  [("stdout", PStr (Streamer.text_of false ws)); ("stderr", PStr (Streamer.text_of true ws))].

(** An answer of 4 GiB or more, the output of the function included, does not fit into a
    frame. *)
Definition naive_oversize (fb ab : bytes) : Prop :=
  ∃ rb now t0 e, verdict fb ab = Some rb ∧
    framed (envelope_ok rb (elapsed_ms now t0) (captured (written fb ab))) = Err e.

(** What the process has left on its standard output: the envelope of a success, which
    is the verdict, the envelope of a failure, or nothing. *)
Inductive left_out (fb ab : bytes) : bytes → result exn unit → Prop :=
| left_ok rb ms f :
    verdict fb ab = Some rb → framed (envelope_ok rb ms (captured (written fb ab))) = Ok f →
    left_out fb ab f (Ok tt)
| left_error msg ms output f :
    output = [] ∨ (∃ ws, output = captured ws) → framed (envelope_error msg ms output) = Ok f →
    verdict fb ab = None ∨ naive_oversize fb ab →
    left_out fb ab f (Ok tt)
| left_nothing e :
    verdict fb ab = None ∨ naive_oversize fb ab →
    left_out fb ab [] (Err e).

Definition clean (s : runner) : Prop := outgoing (pipe s) = [].

Lemma runner_envelope_error_wp fb ab msg ms output s Q :
  clean s → output = [] ∨ (∃ ws, output = captured ws) →
  verdict fb ab = None ∨ naive_oversize fb ab →
  (∀ r s', left_out fb ab (outgoing (pipe s')) r → Q r s') →
  wp runner_ok (on_pipe (_write_envelope (envelope_error msg ms output))) s Q.
Proof.
  intros Hc Hout Hv HQ. apply on_pipe_wp. eapply wp_mono; [|apply write_envelope_no_fail].
  intros r s'. destruct (framed _) as [f|e] eqn:Hf; intros [-> ->]; apply HQ; cbn; rewrite Hc.
  - by eapply left_error.
  - by apply left_nothing.
Qed.

(** The part of [runner_call] after the call. *)
Lemma runner_after_wp fb ab t0 (u : list (string * bool) * result exn pyval) s :
  clean s →
  u.1 = written fb ab →
  match u.2 with
  | Ok v => verdict fb ab = match dumps v with Ok b => Some b | Err _ => None end
  | Err _ => verdict fb ab = None
  end →
  wp runner_ok
    (try_except
      (let* result := lift u.2 in
       let* now := monotonic in
       let* rb := lift (dumps result) in
       on_pipe (_write_envelope (envelope_ok rb (elapsed_ms now t0) (captured u.1))))
      (catching [Exception] (λ e,
         let* now := monotonic in
         let* tb := format_exc e in
         on_pipe (_write_envelope (envelope_error tb (elapsed_ms now t0) (captured u.1))))))
    s (λ r s', left_out fb ab (outgoing (pipe s')) r).
Proof.
  intros Hc Hw Hu. apply wp_try_except.
  assert (∀ e s, clean s →
    verdict fb ab = None ∨ naive_oversize fb ab →
    match catching [Exception] (λ e,
         let* now := monotonic in
         let* tb := format_exc e in
         on_pipe (_write_envelope (envelope_error tb (elapsed_ms now t0) (captured u.1)))) e with
    | Some q => wp runner_ok q s (λ r s', left_out fb ab (outgoing (pipe s')) r)
    | None => left_out fb ab (outgoing (pipe s)) (Err e)
    end) as Hexcept.
  { intros e s1 Hc1 Hv. unfold catching. destruct (isinstance e [Exception]).
    - apply wp_py_bind, wp_step. intros o _. apply wp_py_bind, wp_step. intros o' _.
      eapply runner_envelope_error_wp; eauto.
    - rewrite Hc1. by apply left_nothing. }
  apply wp_py_bind. cbn [wp lift]. destruct u.2 as [v|e]; [|by apply Hexcept; auto].
  apply wp_py_bind, wp_step. intros o _. cbn [fst snd]. apply wp_py_bind. cbn [wp lift].
  destruct (dumps v) as [rb|e] eqn:Hd; [|by apply Hexcept; auto].
  apply on_pipe_wp. eapply wp_mono; [|apply write_envelope_no_fail].
  intros r s'. destruct (framed _) as [f|e] eqn:Hf; intros [-> ->].
  - cbn. rewrite Hc. rewrite Hw in Hf. by eapply left_ok.
  - assert (set_pipe (pipe s) s = s) as -> by (by destruct s). apply Hexcept; [done|]. right.
    rewrite Hw in Hf. exists rb. eauto 6.
Qed.

(** [runner_main] once it has read the request. *)
Lemma runner_reads fb ab request os :
  (∀ n s, runner_ok (os n) s) → request_bytes fb ab = Ok request →
  ∃ os' s, (∀ n s, runner_ok (os' n) s) ∧ clean s ∧
    run os runner_main (mkRunner (mkSock request None []) "") = run os' (runner_task fb ab) s.
Proof.
  intros Hos Hreq. unfold runner_main, attempt.
  match goal with |- context [run _ (mbind ?f ?p) ?s0] =>
    destruct (wp_run_bind runner_ok p f s0 (λ r s, r = Ok (fb, ab) ∧ clean s) os)
      as (k & r & s & [-> Hs] & Hrun); [done| |] end.
  - apply on_pipe_wp. eapply wp_env; [|by eapply read_request_ok]. done.
  - exists (λ n, os (k + n)), s. split; [intros; apply Hos|]. split; [done|]. exact Hrun.
Qed.

(** How the process ends when the function does: what is left, and the status. *)
Definition task_post (fb ab : bytes) (r : result exn Z) (s : runner) : Prop :=
  ∃ r', left_out fb ab (outgoing (pipe s)) r' ∧ (r' = Ok tt → r = Ok 0%Z).

Lemma runner_task_wp fb ab s :
  clean s →
  match load_task fb ab with
  | Ok (fn, (args, kwargs)) => ends (call fn args kwargs) ≠ Dies ∧ ends (call fn args kwargs) ≠ Hangs
  | Err _ => True
  end →
  wp runner_ok (runner_task fb ab) s (task_post fb ab).
Proof.
  intros Hc. unfold runner_task.
  assert (∀ r s', left_out fb ab (outgoing (pipe s')) r →
            match r with
            | Ok _ => wp runner_ok (pure 0%Z) s' (task_post fb ab)
            | Err e => task_post fb ab (Err e) s'
            end) as Hend.
  { intros [[]|e] s' Hleft; cbn; eexists; by split. }
  destruct (load_task fb ab) as [[fn [args kwargs]]|e] eqn:Hl.
  - pose proof (verdict_loaded _ _ _ _ _ Hl) as Hv. intros [Hd Hh]. unfold runner_call.
    assert (writes (call fn args kwargs) = written fb ab) as Hw by (unfold written; by rewrite Hl).
    do 2 apply wp_py_bind. apply wp_step. intros o _. cbn [fst snd]. apply wp_py_bind. intros o' _. cbn.
    destruct (ends (call fn args kwargs)) as [v|e| |]; [| |done|done]; (eapply wp_mono; [apply Hend|]).
    + exact (runner_after_wp fb ab _ (writes (call fn args kwargs), Ok v) s Hc Hw Hv).
    + exact (runner_after_wp fb ab _ (writes (call fn args kwargs), Err e) s Hc Hw Hv).
  - intros _. rewrite (load_task_raises _ _ _ Hl).
    assert (verdict fb ab = None) as Hv by (unfold verdict; by rewrite Hl).
    apply wp_py_bind, wp_step. intros o1 _. cbn [fst snd]. apply wp_py_bind.
    eapply (runner_envelope_error_wp fb ab); [done|by left|by left|]. intros r s'. apply Hend.
Qed.

(** A run of the process, whatever the function does. *)
Lemma process_left o fb ab request :
  (∀ n s, runner_ok (n_steps o n) s) → request_bytes fb ab = Ok request →
  match process o request with
  | Some (out, err, status) => ∃ r, left_out fb ab out r ∧ (r = Ok tt → status = 0%Z)
  | None => ¬ ordinary fb ab
  end.
Proof.
  intros Hos Hreq. unfold process.
  destruct (runner_reads fb ab request (n_steps o) Hos Hreq) as (os & s & Hos' & Hc & ->).
  assert (wp runner_ok (runner_task fb ab) s (task_post fb ab) →
    match match run os (runner_task fb ab) s with
          | Done r s => Some (outgoing (pipe s), err_text s +:+ n_noise o, exit_status r)
          | Panicked s => Some (outgoing (pipe s), err_text s +:+ n_noise o, n_died o)
          | _ => None
          end with
    | Some (out, _, status) => ∃ r, left_out fb ab out r ∧ (r = Ok tt → status = 0%Z)
    | None => ¬ ordinary fb ab
    end) as Hwp.
  { intros Hwp. destruct (wp_run runner_ok _ s _ os Hos' Hwp) as (r & s' & -> & r' & ? & Hr).
    exists r'. split; [done|]. intros E. by rewrite (Hr E). }
  destruct (load_task fb ab) as [[fn [args kwargs]]|e] eqn:Hl.
  2:{ apply Hwp, runner_task_wp; [done|]. by rewrite Hl. }
  pose proof (verdict_loaded _ _ _ _ _ Hl) as Hv.
  destruct (ends (call fn args kwargs)) as [v|e| |] eqn:He.
  - apply Hwp, runner_task_wp; [done|]. by rewrite Hl, He.
  - apply Hwp, runner_task_wp; [done|]. by rewrite Hl, He.
  - clear Hwp. unfold runner_task. rewrite Hl. cbn. rewrite He. cbn. rewrite Hc.
    exists (Err (mkExn BaseException "")). split; [|done]. by apply left_nothing; left.
  - clear Hwp. unfold runner_task. rewrite Hl. cbn. rewrite He. cbn.
    unfold ordinary. rewrite Hl, He. by intros [].
Qed.

Lemma naive_finish_framed envelope f err wall :
  framed envelope = Ok f → naive_finish f err 0 wall = read_envelope envelope wall.
Proof.
  intros (header & buf & -> & Hl & Hu & Hne & Hloads)%framed_Ok. unfold naive_finish.
  assert (Nat.ltb (length (header ++ buf)) 4 = false) as -> by (apply Nat.ltb_ge; rewrite length_app; lia).
  cbn [negb orb Z.eqb]. rewrite <- Hl, take_app_length, drop_app_length, Hu. cbn [res_bind].
  rewrite to_nat_len, firstn_all. unfold deserialize_result. destruct buf; [done|]. by rewrite Hloads.
Qed.

Lemma naive_finish_failed out err status wall :
  status ≠ 0%Z ∨ out = [] → ∃ res, naive_finish out err status wall = Ok res ∧ success res = false.
Proof.
  intros Hs. unfold naive_finish.
  assert (negb (status =? 0)%Z || Nat.ltb (length out) 4 = true) as ->; [|by eauto].
  destruct Hs as [Hs| ->]; [|apply orb_true_r]. by rewrite (proj2 (Z.eqb_neq _ _) Hs).
Qed.

Lemma naive_finish_left fb ab out r err status wall :
  left_out fb ab out r → (r = Ok tt → status = 0%Z) →
  ∃ res, naive_finish out err status wall = Ok res ∧ judged naive_oversize fb ab res ∧
    (success res = true → (stdout res, stderr res) = both (written fb ab)).
Proof.
  intros Hleft Hst. unfold judged.
  destruct Hleft as [rb ms f Hv Hf|msg ms output f Hout Hf Hv|e Hv].
  - rewrite (Hst eq_refl), (naive_finish_framed _ _ _ _ Hf), Hv. eexists. split; [reflexivity|]. split; [by left|done].
  - rewrite (Hst eq_refl), (naive_finish_framed _ _ _ _ Hf).
    assert (∃ res, read_envelope (envelope_error msg ms output) wall = Ok res ∧ success res = false)
      as (res & -> & Hres) by (destruct Hout as [->|[ws ->]]; eexists; (split; [reflexivity|done])).
    exists res. split; [done|]. split; [|congruence].
    destruct Hv as [->|Hv]; [done|]. destruct (verdict fb ab); auto.
  - destruct (naive_finish_failed [] err status wall) as (res & -> & Hres); [by right|].
    exists res. split; [done|]. split; [|congruence].
    destruct Hv as [->|Hv]; [done|]. destruct (verdict fb ab); auto.
Qed.

Lemma judged_sound (over : bytes → bytes → Prop) fb ab res :
  judged over fb ab res → success res = true → verdict fb ab = Some (result_bytes res).
Proof.
  unfold judged. destruct (verdict fb ab) as [rb|]; [|congruence].
  intros [[_ ->]|[-> _]]; [done|discriminate].
Qed.

(** Signals have positive numbers, and [Popen] raises [Exception]s. *)
Definition naive_possible (o : naive_env) (_ : unit) : Prop :=
  (∀ n s, runner_ok (n_steps o n) s) ∧
  match n_fate o with Killed signal _ => signal ≠ 0%Z | _ => True end ∧
  match n_popen o with Some e => isinstance e [Exception] = true | None => True end.

Definition naive_faultless (o : naive_env) (_ : unit) : Prop :=
  (∀ n s, runner_ok (n_steps o n) s) ∧ n_fate o = Exits ∧ n_popen o = None.

(** What [communicate] hands to the rest of [execute]. *)
Lemma communicate_finish o fb ab request wall :
  (∀ n s, runner_ok (n_steps o n) s) →
  match n_fate o with Killed signal _ => signal ≠ 0%Z | _ => True end →
  request_bytes fb ab = Ok request →
  match process o request, n_fate o with
  | Some (out, err, status), Exits =>
      ∃ res, naive_finish out err status wall = Ok res ∧ judged naive_oversize fb ab res ∧
        (success res = true → (stdout res, stderr res) = both (written fb ab))
  | Some (out, err, _), Killed signal kept =>
      ∃ res, naive_finish (take kept out) err (- signal) wall = Ok res ∧ success res = false
  | Some _, Slow => True
  | None, Killed signal _ =>
      ∃ res, naive_finish [] (n_noise o) (- signal) wall = Ok res ∧ success res = false
  | None, _ => ¬ ordinary fb ab
  end.
Proof.
  intros Hos Hsig Hreq. pose proof (process_left o fb ab request Hos Hreq) as Hp.
  destruct (process o request) as [[[out err] status]|], (n_fate o) as [|signal kept|]; try done.
  - destruct Hp as (r & Hleft & Hst). by eapply naive_finish_left.
  - apply naive_finish_failed. left. lia.
  - apply naive_finish_failed. left. lia.
Qed.

Lemma request_bytes_raises fb ab e : request_bytes fb ab = Err e → isinstance e [Exception] = true.
Proof.
  unfold request_bytes, pack_I, res_bind.
  destruct (len fb <? 2 ^ 32)%Z, (len ab <? 2 ^ 32)%Z; intros He; by inversion He.
Qed.

Lemma naive_sound fb ab :
  yields naive_possible (naive_execute fb ab) (honest_result (both (written fb ab)) fb ab).
Proof.
  unfold naive_execute. apply yields_py_bind, yields_step. intros t. apply yields_attempt.
  intros o s (_ & _ & Hpopen). cbn [popen act yields]. destruct (n_popen o) as [e|].
  { rewrite Hpopen. apply yields_py_bind, yields_step. intros tb. by apply yields_py_bind, yields_step. }
  apply yields_py_bind. cbn [yields lift].
  destruct (request_bytes fb ab) as [request|] eqn:Hreq; [|by eapply request_bytes_raises].
  apply yields_py_bind. intros o1 [] (Hos & Hsig & _). cbn [communicate act].
  pose proof (λ wall, communicate_finish o1 fb ab request wall Hos Hsig Hreq) as Hfin.
  apply yields_py_bind, yields_step. intros now. specialize (Hfin (elapsed_ms now t)).
  destruct (process o1 request) as [[[out err] status]|], (n_fate o1) as [|signal kept|]; cbn; try done.
  - destruct Hfin as (res & -> & Hj & Hout). intros Hok. split; [by eapply judged_sound|by apply Hout].
  - destruct Hfin as (res & -> & Hf). intros Hok. congruence.
  - destruct Hfin as (res & -> & Hf). intros Hok. congruence.
Qed.

Lemma naive_complete fb ab s :
  ordinary fb ab → is_Ok (request_bytes fb ab) = true →
  wp naive_faultless (naive_execute fb ab) s (λ r _, ∃ res, r = Ok res ∧ judged naive_oversize fb ab res).
Proof.
  intros Hord Hacc. unfold naive_execute. apply wp_py_bind, wp_step. intros o _. apply wp_attempt.
  intros o1 (_ & _ & Ho1). cbn [popen act wp]. rewrite Ho1. apply wp_py_bind. cbn [wp lift].
  destruct (request_bytes fb ab) as [request|] eqn:Hreq; [|done].
  apply wp_py_bind. intros o2 (Hs2 & Hf2 & _). cbn [communicate act].
  pose proof (λ wall, communicate_finish o2 fb ab request wall) as Hfin.
  apply wp_py_bind, wp_step. intros o3 _. specialize (Hfin (elapsed_ms (n_now o3) (n_now o))).
  rewrite Hf2 in *. specialize (Hfin Hs2 I Hreq).
  destruct (process o2 request) as [[[out err] status]|]; [|done]. cbn.
  destruct Hfin as (res & -> & Hj & _). by eauto.
Qed.

Lemma naive_execute_sound fb ab (sink : bool) :
  yields naive_possible (execute fb ab sink) (honest (both (written fb ab), []) fb ab).
Proof.
  apply yields_py_bind. eapply yields_mono; [|apply naive_sound]. by intros [res|e] Hres.
Qed.

Lemma naive_execute_complete fb ab (sink : bool) s :
  ordinary fb ab → is_Ok (request_bytes fb ab) = true →
  wp naive_faultless (execute fb ab sink) s (λ r _,
    True ∧ ∃ res ws, r = Ok (res, ws) ∧ judged naive_oversize fb ab res).
Proof.
  intros Hord Hacc. apply wp_py_bind. eapply wp_mono; [|by apply naive_complete].
  intros r s' (res & -> & Hj). cbn. eauto.
Qed.

#[export] Instance naive_ok : ExecutorOk unit naive_env := {
  possible := naive_possible;
  faultless := naive_faultless;
  ready := λ _, True;
  hosts := λ _ _, True;
  accepts fb ab := is_Ok (request_bytes fb ab) = true;
  oversize := naive_oversize;
  delivers _ ws := (both ws, []);
  ordinary_hosts _ _ _ := I;
  delivers_output _ ws := ltac:(right; left);
  execute_sound fb ab sink _ := naive_execute_sound fb ab sink;
  execute_complete fb ab sink s Hord Hacc _ := naive_execute_complete fb ab sink s Hord Hacc;
}.

End naive_ok.
