(* ===== verification/Tokens.v ===== *)
(** * Tokens: what running programs hold

    A logic of ownership for interleaved programs.  A program holds a list of tokens (a
    child it has taken from a pool, a task it is running).  The invariant relates the
    shared state to all tokens together; a step of a program may turn the program's own
    tokens into others, and has to keep the invariant whatever the other programs
    hold.  A program that ends holds nothing ([owned]), so in every reachable
    configuration the tokens that the state accounts for are distributed over the
    running programs ([config_owned]). *)

From stdpp Require Import strings gmap sorting prelude.
From S2P Require Import Prelude Prog Python.

Section tokens.
Context {S O K : Type}.
Variable ok : O → S → Prop.
Variable inv : S → list K → Prop.

(** [H] are the program's tokens; [Q] tells about its value and the tokens it has then. *)
Fixpoint holds {A} (H : list K) (p : prog S O A) (Q : A → list K → Prop) : Prop :=
  match p with
  | Ret a => Q a H
  | Act B step k =>
      ∀ o s F, ok o s → inv s (H ++ F) →
        match step o s with
        | Next b s' => ∃ H', inv s' (H' ++ F) ∧ holds H' (k b) Q
        | Block => True
        | Panic => False
        end
  | Spin => True
  end.

Lemma holds_mono {A} (p : prog S O A) H (Q Q' : A → list K → Prop) :
  (∀ a H', Q a H' → Q' a H') → holds H p Q → holds H p Q'.
Proof.
  intros HQ. revert H. induction p as [a|B step k IH|]; intros H; cbn; [by auto| |done].
  intros Hp o s F Ho Hi. specialize (Hp o s F Ho Hi). destruct (step o s); [|done|done].
  destruct Hp as (H' & ? & ?). eauto.
Qed.

Lemma holds_bind {A B} (p : prog S O A) (f : A → prog S O B) H Q :
  holds H p (λ a H', holds H' (f a) Q) → holds H (p ≫= f) Q.
Proof.
  revert H. induction p as [a|C step k IH|]; intros H; cbn; [done| |done].
  intros Hp o s F Ho Hi. specialize (Hp o s F Ho Hi). destruct (step o s); [|done|done].
  destruct Hp as (H' & ? & ?). eauto.
Qed.

(** A program that does not need any token works beside those that it has. *)
Lemma holds_frame {A} (p : prog S O A) H R Q :
  holds H p Q → holds (H ++ R) p (λ a H'', ∃ H', H'' = H' ++ R ∧ Q a H').
Proof.
  revert H. induction p as [a|B step k IH|]; intros H; cbn; [by eauto| |done].
  intros Hp o s F Ho Hi. rewrite <- app_assoc in Hi. specialize (Hp o s (R ++ F) Ho Hi).
  destruct (step o s); [|done|done]. destruct Hp as (H' & Hi' & Hk).
  exists (H' ++ R). rewrite <- app_assoc. auto.
Qed.

Lemma holds_act {B} (step : O → S → outcome S B) H Q :
  (∀ o s F, ok o s → inv s (H ++ F) →
     match step o s with
     | Next b s' => ∃ H', inv s' (H' ++ F) ∧ Q b H'
     | Block => True
     | Panic => False
     end) →
  holds H (act step) Q.
Proof. done. Qed.

(** What a program returns does not depend on the tokens. *)
Lemma holds_yields {A} (p : prog S O A) H Q P :
  yields ok p P → holds H p Q → holds H p (λ a H', P a ∧ Q a H').
Proof.
  revert H. induction p as [a|B step k IH|]; intros H; cbn; [done| |done].
  intros Hy Hp o s F Ho Hi. specialize (Hy o s Ho). specialize (Hp o s F Ho Hi).
  destruct (step o s); [|done|done]. destruct Hp as (H' & ? & ?). eauto.
Qed.

(** *** Python programs *)

Lemma holds_py_bind {A B} (p : py S O A) (f : A → py S O B) H Q :
  holds H p (λ r H', match r with Ok a => holds H' (f a) Q | Err e => Q (Err e) H' end) →
  holds H (py_bind p f) Q.
Proof. intros Hp. apply holds_bind. eapply holds_mono; [|exact Hp]. by intros [a|e] H'. Qed.

Lemma holds_attempt {A B} (p : py S O A) (f : result exn A → py S O B) H Q :
  holds H p (λ r H', holds H' (f r) Q) → holds H (attempt p f) Q.
Proof. apply holds_bind. Qed.

Lemma holds_try_except {A} (p : py S O A) h H Q :
  holds H p (λ r H', match r with
                     | Ok a => Q (Ok a) H'
                     | Err e => match h e with Some q => holds H' q Q | None => Q (Err e) H' end
                     end) →
  holds H (try_except p h) Q.
Proof. intros Hp. apply holds_bind. eapply holds_mono; [|exact Hp]. intros [a|e] H'; [done|]. by destruct (h e). Qed.

Lemma holds_try_finally {A} (p : py S O A) q H Q :
  holds H p (λ r H', holds H' q (λ r' H'', Q (match r' with Ok _ => r | Err e => Err e end) H'')) →
  holds H (try_finally p q) Q.
Proof.
  intros Hp. apply holds_bind. eapply holds_mono; [|exact Hp]. intros r H' Hq.
  apply holds_bind. eapply holds_mono; [|exact Hq]. by intros [[]|e] H''.
Qed.

Lemma holds_step {A} (f : O → S → A * S) H (Q : result exn A → list K → Prop) :
  (∀ o s F, ok o s → inv s (H ++ F) → ∃ H', inv (f o s).2 (H' ++ F) ∧ Q (Ok (f o s).1) H') →
  holds H (step_ f) Q.
Proof. intros Hp o s F Ho Hi. specialize (Hp o s F Ho Hi). by destruct (f o s). Qed.

(** A step that only looks. *)
Lemma holds_look {A} (f : O → S → A) H (Q : result exn A → list K → Prop) :
  (∀ o s F, ok o s → inv s (H ++ F) → Q (Ok (f o s)) H) → holds H (step_ (λ o s, (f o s, s))) Q.
Proof. intros Hp o s F Ho Hi. exists H. split; [done|]. by eapply Hp. Qed.

(** ** Configurations *)

Section config.
Context {Req Reply : Type} (srv : server S O Req Reply).
Variable post : Req → Reply → Prop.
Hypothesis inv_perm : ∀ s H H', H ≡ₚ H' → inv s H → inv s H'.
Hypothesis allowed_ok : ∀ o s, allowed srv o s → ok o s.
Hypothesis handlers_own : ∀ req, holds [] (handler srv req) (λ r H, H = [] ∧ post req r).
Hypothesis restart_inv : ∀ o s, inv (restart srv o s) [].

(** Each thread holds its share, and ends without any. *)
Definition owned (H : list K) (t : Req * prog S O Reply) : Prop :=
  holds H t.2 (λ r H', H' = [] ∧ post t.1 r).

Definition config_owned (c : config S O Req Reply) : Prop :=
  (∃ Hs, Forall2 owned Hs (c_threads c) ∧ inv (c_state c) (mjoin Hs)) ∧
  Forall (λ p, post p.1 p.2) (c_replies c).

Lemma mjoin_lookup {X} (Hs : list (list X)) i H :
  Hs !! i = Some H → mjoin Hs ≡ₚ H ++ mjoin (delete i Hs).
Proof.
  revert i. induction Hs as [|H0 Hs IH]; intros [|i] Hi; cbn in *; [done|done|by simplify_eq|].
  rewrite (IH i Hi). rewrite !(assoc_L (++)). by rewrite (comm (++) H0 H).
Qed.

Lemma delete_insert_same {X} (l : list X) i x : delete i (<[i := x]> l) = delete i l.
Proof. revert i. induction l as [|y l IH]; intros [|i]; cbn; [done..|]. f_equal. apply IH. Qed.

Lemma mjoin_insert {X} (Hs : list (list X)) i H :
  i < length Hs → mjoin (<[i := H]> Hs) ≡ₚ H ++ mjoin (delete i Hs).
Proof.
  intros Hi. rewrite (mjoin_lookup _ i H) by (by apply list_lookup_insert_eq).
  by rewrite delete_insert_same.
Qed.

Lemma config_owned_step c c' : config_owned c → cstep srv c c' → config_owned c'.
Proof using inv_perm allowed_ok handlers_own restart_inv.
  intros [(Hs & Hall & Hi) Hr] Hstep.
  destruct Hstep as [req s ts rs|i req p p' o s s' ts rs Hti Ho Hadv|i req r s ts rs Hti|o s ts rs];
    cbn in *.
  - split; [|done]. exists (Hs ++ [[]]). split; [apply Forall2_app; [done|]; repeat constructor; apply handlers_own|].
    rewrite join_app. cbn. by rewrite app_nil_r.
  - split; [|done]. destruct (Forall2_lookup_r _ _ _ _ _ Hall Hti) as (H & HH & Hown). cbn in Hown.
    destruct p as [|B step k|]; cbn in Hadv; [done| |done].
    specialize (Hown o s (mjoin (delete i Hs)) (allowed_ok _ _ Ho)).
    destruct (step o s) as [b s1| |]; [|done|done]. simplify_eq.
    destruct Hown as (H' & Hi' & Hk). { eapply inv_perm; [|exact Hi]. by apply mjoin_lookup. }
    exists (<[i := H']> Hs). split; [by apply Forall2_insert|].
    eapply inv_perm; [|exact Hi']. symmetry. apply mjoin_insert. by eapply lookup_lt_Some.
  - destruct (Forall2_lookup_r _ _ _ _ _ Hall Hti) as (H & HH & [-> Hpost]).
    split; [|by apply Forall_app; split; [|apply Forall_singleton]].
    exists (delete i Hs). split; [by apply Forall2_delete|].
    eapply inv_perm; [|exact Hi]. by apply (mjoin_lookup Hs i []).
  - split; [|done]. exists []. split; [constructor|]. apply restart_inv.
Qed.

(** Every reachable configuration is accounted for, and every reply is as promised. *)
Lemma config_owned_reachable s c :
  inv s [] → rtc (cstep srv) (mkConfig s [] []) c → config_owned c.
Proof using inv_perm allowed_ok handlers_own restart_inv.
  intros Hi Hsteps.
  assert (config_owned (mkConfig s [] [])) as H0 by (split; [by exists []|constructor]).
  induction Hsteps as [|c1 c2 c3 H1 _ IH]; [done|]. by apply IH, (config_owned_step c1).
Qed.

End config.
End tokens.
