(* ===== verification/WarmPool.v ===== *)
(** * WarmPool: the pool of forked children

    src/worker/warm_pool.py.  The pool's queues and lists, the spawner process and the
    parts of the system that they touch are one state; [execute] is a program of atomic
    steps that any number of task threads run at the same time.  A conversation with a
    child is private to the thread that has the child: the child's loop body runs on
    what the thread sent, and the thread reads a part of the answer that the system
    chooses.  Messages to the spawner are JSON texts of flat dicts; they are represented
    by the dicts. *)

From stdpp Require Import strings gmap sorting prelude pretty.
From Stdlib Require Import SpecFloat.
From S2P Require Import Prelude Types Prog Python Framing LogStream Serialization Executor Tokens.

Open Scope py_scope.

(** ** Data *)

Record WarmPoolConfig : Type := mkPoolConfig {
  size : Z;
  preimport : list string;
  socket_dir : string;
  acquire_timeout_s : string;       (* as the error message prints it *)
}.

Record _ChildSlot : Type := mkSlot { pid : Z; sock_path : string }.

#[export] Instance _ChildSlot_eq_dec : EqDecision _ChildSlot.
Proof. solve_decision. Defined.

(** The first five fields are those of [ForkWarmPoolExecutor]; [lost] counts the lines in
    the log that say that a child could not be respawned.  The others are the system:
    the connections to children that the worker has open, the socket files, the running
    children, the list of the spawner, how often the worker itself has forked, and the
    socket paths made up so far. *)
Record pool : Type := mkPool {
  idle : list _ChildSlot;
  slots : list _ChildSlot;
  spawner_pid : option Z;
  started : bool;
  lost : nat;
  conns : list _ChildSlot;
  files : gset string;
  live : gset Z;
  spawner_children : list Z;
  forks : nat;
  used : gset string;
}.

(** What the system decides for one step. *)
Record pool_env : Type := mkPoolEnv {
  p_now : spec_float;
  p_tb : exn → string;
  p_import : option exn;            (* [__import__] raises *)
  p_unlink : option exn;            (* [os.unlink] fails on a file that exists *)
  p_fork : result exn Z;
  p_appears : bool;                 (* the socket is bound in time *)
  p_uuid : string;
  p_control : option (exn * bool);  (* the spawner is not reached; it got the request *)
  p_expired : bool;                 (* the wait for an idle child is over *)
  p_connect : option exn;           (* [connect] to a child fails *)
  p_send : nat → sock_env;
  p_child : nat → runner_env;       (* the steps of the child *)
  p_cut : option nat;               (* how much of the child's answer arrives, if not all *)
  p_end : option exn;               (* what comes after it *)
  p_recv : nat → sock_env;
}.

#[export] Instance pool_runtime : Runtime pool_env := { o_now := p_now; o_tb := p_tb }.

Abbreviation pooled := (py pool pool_env).

Abbreviation pool_reply := (result exn (ExecutionResult * list (string * bool))).

Definition set_idle (l : list _ChildSlot) (s : pool) : pool :=
  mkPool l (slots s) (spawner_pid s) (started s) (lost s) (conns s) (files s) (live s)
    (spawner_children s) (forks s) (used s).

Definition set_slots (l : list _ChildSlot) (s : pool) : pool :=
  mkPool (idle s) l (spawner_pid s) (started s) (lost s) (conns s) (files s) (live s)
    (spawner_children s) (forks s) (used s).

Definition set_spawner (p : option Z) (s : pool) : pool :=
  mkPool (idle s) (slots s) p (started s) (lost s) (conns s) (files s) (live s)
    (spawner_children s) (forks s) (used s).

Definition set_started (b : bool) (s : pool) : pool :=
  mkPool (idle s) (slots s) (spawner_pid s) b (lost s) (conns s) (files s) (live s)
    (spawner_children s) (forks s) (used s).

Definition set_lost (n : nat) (s : pool) : pool :=
  mkPool (idle s) (slots s) (spawner_pid s) (started s) n (conns s) (files s) (live s)
    (spawner_children s) (forks s) (used s).

Definition set_conns (l : list _ChildSlot) (s : pool) : pool :=
  mkPool (idle s) (slots s) (spawner_pid s) (started s) (lost s) l (files s) (live s)
    (spawner_children s) (forks s) (used s).

Definition set_files (f : gset string) (s : pool) : pool :=
  mkPool (idle s) (slots s) (spawner_pid s) (started s) (lost s) (conns s) f (live s)
    (spawner_children s) (forks s) (used s).

Definition set_live (l : gset Z) (s : pool) : pool :=
  mkPool (idle s) (slots s) (spawner_pid s) (started s) (lost s) (conns s) (files s) l
    (spawner_children s) (forks s) (used s).

Definition set_children (l : list Z) (s : pool) : pool :=
  mkPool (idle s) (slots s) (spawner_pid s) (started s) (lost s) (conns s) (files s) (live s)
    l (forks s) (used s).

Definition set_forks (n : nat) (s : pool) : pool :=
  mkPool (idle s) (slots s) (spawner_pid s) (started s) (lost s) (conns s) (files s) (live s)
    (spawner_children s) n (used s).

Definition set_used (u : gset string) (s : pool) : pool :=
  mkPool (idle s) (slots s) (spawner_pid s) (started s) (lost s) (conns s) (files s) (live s)
    (spawner_children s) (forks s) u.

(** [l.remove(x)]: the first occurrence. *)
Fixpoint remove_first (x : _ChildSlot) (l : list _ChildSlot) : list _ChildSlot :=
  match l with
  | [] => []
  | y :: l => if decide (y = x) then l else y :: remove_first x l
  end.

(** ** A warm child *)

Section child.
Context `{!Pickle} `{!UserCode}.

(** The inner [try]: load the function, call it, build the envelope. *)
Definition child_call (fn_bytes args_bytes : pyval) : child pyval :=
  let* t0 := monotonic in
  try_except
    (let* fb := lift (as_bytes fn_bytes) in
     let* fn := lift (loads fb) in
     let* ab := lift (as_bytes args_bytes) in
     let* a := lift (loads ab) in
     let* args := lift (as_call a) in
     let* u := call_user fn args.1 args.2 in
     let* result := lift u.2 in
     let* rb := lift (dumps result) in
     let* now := monotonic in
     pure (envelope_ok rb (elapsed_ms now t0) []))
    (catching [Exception] (λ e,
       let* tb := format_exc e in
       let* now := monotonic in
       pure (envelope_error tb (elapsed_ms now t0) []))).

(** The body of the loop of [_child_main] for one connection. *)
Definition child_conn : child unit :=
  try_except
    (let* request_bytes := on_pipe _recv_message in
     let* request := lift (loads request_bytes) in
     let* fn_bytes := lift (getitem request "fn") in
     let* args_bytes := lift (getitem request "args") in
     let* envelope := child_call fn_bytes args_bytes in
     let* buf := lift (dumps envelope) in
     on_pipe (_send_message buf))
    (λ e,
       if isinstance e [EOFError] then Some (pure tt)
       else if isinstance e [Exception]
       then Some (let* tb := format_exc e in
                  write_stderr ("warm-child unexpected error:" +:+ String newline tb))
       else None).

(** What a child sends back on a connection on which it receives [sent]. *)
Definition child_sends (os : nat → runner_env) (sent : bytes) : bytes :=
  match run os child_conn (mkRunner (mkSock sent None []) "") with
  | Done _ s | Blocked s | Panicked s | Unfinished s => outgoing (pipe s)
  end.

Definition cut_at (k : option nat) (b : bytes) : bytes :=
  match k with Some k => take k b | None => b end.

(** [_send_message(sock, request)] and [_recv_message(sock)] of the thread that has the
    child. *)
Definition conversation (o : pool_env) (request : bytes) : result exn bytes :=
  match run (p_send o) (_send_message request) (mkSock [] None []) with
  | Done (Err e) _ => Err e
  | Done (Ok _) s =>
      match run (p_recv o) _recv_message
              (mkSock (cut_at (p_cut o) (child_sends (p_child o) (outgoing s))) (p_end o) []) with
      | Done r _ => r
      | _ => Err (mkExn TimeoutError "timed out")
      end
  | _ => Err (mkExn TimeoutError "timed out")
  end.

End child.

(** ** What a conversation yields *)

Section conversation.
Context `{PK : !Pickle} `{PL : !PickleLaws} `{UC : !UserCode}.
Variables (fb ab : bytes).

(** The envelope of a child for this task. *)
Inductive answer : pyval → Prop :=
| answer_ok rb now t0 : verdict fb ab = Some rb → answer (envelope_ok rb (elapsed_ms now t0) [])
| answer_error msg ms : verdict fb ab = None → answer (envelope_error msg ms []).

(** Nothing, or a part of the frame of such an envelope. *)
Definition partial_answer (out : bytes) : Prop :=
  out = [] ∨ ∃ envelope payload header,
    answer envelope ∧ dumps envelope = Ok payload ∧ pack_I (len payload) = Ok header ∧
    out `prefix_of` header ++ payload.

Definition any_runner : runner_env → runner → Prop := λ _ _, True.

Lemma on_pipe_any {A} (p : sockio A) s Q :
  wp any_env p (pipe s) (λ a x, Q a (set_pipe x s)) → wp any_runner (on_pipe p) s Q.
Proof.
  intros Hp. exact (wp_zoom pipe set_pipe r_sock (λ _ _, eq_refl) (λ _ _ _, eq_refl)
    (λ '(mkRunner _ _), eq_refl) any_env p s Q Hp).
Qed.

Definition request_value : pyval := PDict [("fn", PBytes fb); ("args", PBytes ab)].

(** The function of the task has an outcome. *)
Definition ends_somehow : Prop :=
  match load_task fb ab with
  | Ok (fn, (args, kwargs)) => ends (call fn args kwargs) ≠ Dies ∧ ends (call fn args kwargs) ≠ Hangs
  | Err _ => True
  end.

(** Either the envelope, or an exception of an unusual function that ends the child. *)
Lemma child_call_wp s (Q : result exn pyval → runner → Prop) :
  ends_somehow →
  (∀ envelope, answer envelope → Q (Ok envelope) s) →
  (∀ e, ¬ ordinary fb ab → Q (Err e) s) →
  wp any_runner (child_call (PBytes fb) (PBytes ab)) s Q.
Proof.
  intros Hends HQ HE. apply wp_py_bind, wp_step. intros o _. cbn [fst snd]. apply wp_try_except.
  assert (∀ e, verdict fb ab = None → (ordinary fb ab → isinstance e [Exception] = true) →
    match catching [Exception] (λ e : exn,
       let* tb := format_exc e in
       let* now := monotonic in
       pure (envelope_error tb (elapsed_ms now (o_now o)) [])) e with
    | Some q => wp any_runner q s Q
    | None => Q (Err e) s
    end) as Hexcept.
  { intros e Hv Hord. unfold catching. destruct (isinstance e [Exception]).
    - apply wp_py_bind, wp_step. intros o1 _. apply wp_py_bind, wp_step. intros o2 _.
      by apply HQ, answer_error.
    - apply HE. intros Ho. by specialize (Hord Ho). }
  assert (∀ e, load_task fb ab = Err e →
    verdict fb ab = None ∧ (ordinary fb ab → isinstance e [Exception] = true)) as Hbad.
  { intros e He. split; [unfold verdict; by rewrite He|]. intros _. by eapply load_task_raises. }
  pose proof (verdict_loaded fb ab) as Hv.
  assert (∀ fn args kwargs, load_task fb ab = Ok (fn, (args, kwargs)) → ordinary fb ab →
    match ends (call fn args kwargs) with Raises e => isinstance e [Exception] = true | _ => True end) as Hord.
  { intros fn args kwargs E. unfold ordinary. rewrite E. by destruct (ends _). }
  unfold ends_somehow in Hends. unfold load_task, deserialize_callable, deserialize_args in *.
  apply wp_py_bind. cbn [wp lift as_bytes]. apply wp_py_bind. cbn [wp lift].
  destruct (loads fb) as [fn|e]; cbn [res_bind] in *; [|by eapply Hexcept; apply (Hbad e)].
  apply wp_py_bind. cbn [wp lift as_bytes]. apply wp_py_bind. cbn [wp lift].
  destruct (loads ab) as [a|e]; cbn [res_bind] in *; [|by eapply Hexcept; apply (Hbad e)].
  apply wp_py_bind. cbn [wp lift].
  destruct (as_call a) as [[args kwargs]|e]; cbn [res_bind] in *; [|by eapply Hexcept; apply (Hbad e)].
  specialize (Hv _ _ _ eq_refl). specialize (Hord _ _ _ eq_refl).
  apply wp_py_bind. intros o1 _. cbn [call_user act fst snd].
  destruct (ends (call fn args kwargs)) as [v|e| |]; [| |by destruct Hends..]; cbn [wp fst snd];
    apply wp_py_bind; cbn [wp lift]; [|by apply Hexcept].
  apply wp_py_bind. cbn [wp lift].
  destruct (dumps v) as [rb|e] eqn:Hd; [|apply Hexcept; [done|intros _; by eapply dumps_raises]].
  apply wp_py_bind, wp_step. intros o2 _. by apply HQ, answer_ok.
Qed.

(** The loop body of the child once the request is there. *)
Definition child_rest (request_bytes : bytes) : child unit :=
  let* request := lift (loads request_bytes) in
  let* fn_bytes := lift (getitem request "fn") in
  let* args_bytes := lift (getitem request "args") in
  let* envelope := child_call fn_bytes args_bytes in
  let* buf := lift (dumps envelope) in
  on_pipe (_send_message buf).

(** The [except] clauses of the loop body. *)
Definition child_except (e : exn) : option (child unit) :=
  if isinstance e [EOFError] then Some (pure tt)
  else if isinstance e [Exception]
  then Some (let* tb := format_exc e in
             write_stderr ("warm-child unexpected error:" +:+ String newline tb))
  else None.

Lemma child_conn_rest :
  child_conn = try_except (let* request_bytes := on_pipe _recv_message in child_rest request_bytes) child_except.
Proof. reflexivity. Qed.

Lemma child_except_wp (ok : runner_env → runner → Prop) e s Q :
  (∀ r s', pipe s' = pipe s → Q r s') →
  match child_except e with
  | Some q => wp ok q s Q
  | None => Q (Err e) s
  end.
Proof.
  intros HQ. unfold child_except. destruct (isinstance e [EOFError]); [by apply HQ|].
  destruct (isinstance e [Exception]); [|by apply HQ].
  apply wp_py_bind, wp_step. intros o _. apply wp_step. intros o' _. by apply HQ.
Qed.

Lemma child_rest_wp request s :
  loads request = Ok request_value → outgoing (pipe s) = [] → ends_somehow →
  wp any_runner (try_except (child_rest request) child_except) s (λ _ s', partial_answer (outgoing (pipe s'))).
Proof.
  intros Hreq Hclean Hends. unfold child_rest. apply wp_try_except, wp_py_bind. cbn [wp lift].
  rewrite Hreq. apply wp_py_bind. cbn [wp lift]. change (getitem request_value "fn") with (Ok (E := exn) (PBytes fb)).
  apply wp_py_bind. cbn [wp lift]. change (getitem request_value "args") with (Ok (E := exn) (PBytes ab)).
  apply wp_py_bind, child_call_wp; [done| |].
  2:{ intros e _. apply child_except_wp. intros r s' ->. rewrite Hclean. by left. }
  intros envelope Hans. apply wp_py_bind. cbn [wp lift]. destruct (dumps envelope) as [payload|e] eqn:Hd.
  2:{ apply child_except_wp. intros r s' ->. rewrite Hclean. by left. }
  apply on_pipe_any. eapply wp_mono; [|apply send_message_spec]. intros r x (sent & -> & Hsent).
  assert (partial_answer (outgoing (pipe s) ++ sent)) as Hpa.
  { rewrite Hclean. destruct (pack_I (len payload)) as [header|e] eqn:Hp.
    - right. exists envelope, payload, header. by destruct Hsent.
    - left. by destruct Hsent as [_ ->]. }
  destruct r as [[]|e]; [exact Hpa|]. apply child_except_wp. intros r s' ->. exact Hpa.
Qed.

(** A function that dies or hangs stops the child before it has sent anything. *)
Lemma child_stuck request fn args kwargs os s :
  loads request = Ok request_value → load_task fb ab = Ok (fn, (args, kwargs)) →
  ends (call fn args kwargs) = Dies ∨ ends (call fn args kwargs) = Hangs →
  match run os (try_except (child_rest request) child_except) s with
  | Done _ s | Blocked s | Panicked s | Unfinished s => outgoing (pipe s)
  end = outgoing (pipe s).
Proof.
  intros Hreq Hload Hends. unfold load_task, deserialize_callable, deserialize_args, res_bind in Hload.
  destruct (loads fb) as [f|] eqn:Hf; [|done]. destruct (loads ab) as [a|] eqn:Ha; [|done].
  destruct (as_call a) as [[args' kwargs']|] eqn:Hc; [|done]. simplify_eq.
  unfold child_rest. rewrite Hreq. unfold child_call. cbn. rewrite Hf. cbn. rewrite Ha. cbn. rewrite Hc. cbn.
  by destruct Hends as [-> | ->].
Qed.

(** Whatever the function does, the child has sent a part of an answer or nothing. *)
Lemma child_sends_partial os request header :
  dumps request_value = Ok request → pack_I (len request) = Ok header →
  partial_answer (child_sends os (header ++ request)).
Proof.
  intros Hd Hp. unfold child_sends. rewrite child_conn_rest. unfold try_except, py_bind.
  rewrite run_bind_assoc.
  match goal with |- context [run _ (mbind ?f ?p) ?s0] =>
    destruct (wp_run_bind any_runner p f s0 (λ r s, r = Ok request ∧ outgoing (pipe s) = []) os)
      as (k & r & s & [-> Hs] & ->); [done| |] end.
  { apply on_pipe_any. eapply recv_message_ok; [exact Hp|by rewrite app_nil_r|done]. }
  change (mbind _ (child_rest request)) with (try_except (child_rest request) child_except).
  pose proof (loads_dumps _ _ Hd) as Hl.
  assert (ends_somehow → partial_answer
    match run (λ n, os (k + n)) (try_except (child_rest request) child_except) s with
    | Done _ s | Blocked s | Panicked s | Unfinished s => outgoing (pipe s)
    end) as Hwp.
  { intros He. destruct (wp_run any_runner _ s _ (λ n, os (k + n)) (λ _ _, I) (child_rest_wp request s Hl Hs He))
      as (r & s' & -> & ?). done. }
  unfold ends_somehow in Hwp. destruct (load_task fb ab) as [[fn [args kwargs]]|e] eqn:Hload; [|by apply Hwp].
  destruct (ends (call fn args kwargs)) as [v|e| |] eqn:Hends; [by apply Hwp|by apply Hwp| |];
    rewrite (child_stuck _ _ _ _ _ _ Hl Hload) by auto; by left.
Qed.

(** An [Ok] of a conversation is the envelope for this task. *)
Lemma conversation_sound o request response :
  dumps request_value = Ok request → conversation o request = Ok response →
  ∃ envelope, answer envelope ∧ loads response = Ok envelope.
Proof.
  intros Hd. unfold conversation.
  destruct (wp_run any_env _ _ _ (p_send o) (λ _ _, I) (send_message_spec request (mkSock [] None [])))
    as (r & s & -> & sent & -> & Hsent). destruct r as [[]|e]; [|done]. cbn [outgoing app].
  destruct (pack_I (len request)) as [header|e] eqn:Hp; [|by destruct Hsent].
  destruct Hsent as [_ Hall]. rewrite (Hall eq_refl).
  pose proof (child_sends_partial (p_child o) request header Hd Hp) as Hpart.
  set (out := child_sends _ _) in *. clearbody out.
  destruct Hpart as [->|(envelope & payload & header' & Hans & Hd' & Hp' & Hpre)].
  - assert (cut_at (p_cut o) [] = []) as -> by (destruct (p_cut o); [apply take_nil|done]).
    destruct (wp_run any_env _recv_message (mkSock [] (p_end o) []) (λ r _, ∃ e, r = Err e) (p_recv o) (λ _ _, I))
      as (r & s & -> & e & ->); [|done].
    apply wp_py_bind, recv_exact_short; cbn; [lia|]. by eexists.
  - destruct (wp_run any_env _recv_message (mkSock (cut_at (p_cut o) out) (p_end o) [])
      (λ r _, r = Ok payload ∨ ∃ e, r = Err e) (p_recv o) (λ _ _, I)) as (r & s & -> & Hr).
    { eapply recv_message_prefix; [exact Hp'| |].
      - cbn. etrans; [|exact Hpre]. destruct (p_cut o); [apply prefix_take|done].
      - intros r s' [E|[E|E]] _; rewrite E; eauto. }
    intros ->. destruct Hr as [[= <-]|[e ?]]; [|done]. exists envelope. split; [done|]. by apply loads_dumps.
Qed.

(** What the connection raises are [Exception]s. *)
Definition wire_raises (o : pool_env) : Prop :=
  (∀ e, p_end o = Some e → isinstance e [Exception] = true) ∧
  (∀ k e, o_fail (p_send o 0) = Some (k, e) → isinstance e [Exception] = true) ∧
  (∀ k e, o_fail (p_send o 1) = Some (k, e) → isinstance e [Exception] = true).

Lemma conversation_raises o request e :
  wire_raises o → conversation o request = Err e → isinstance e [Exception] = true.
Proof.
  intros (Hend & H0 & H1). unfold conversation, _send_message, pack_I. cbn -[_recv_message child_sends].
  destruct (len request <? 2 ^ 32)%Z; cbn -[_recv_message child_sends]; [|by intros [= <-]].
  destruct (o_fail (p_send o 0)) as [[k e0]|]; cbn -[_recv_message child_sends]; [intros [= <-]; by eapply H0|].
  destruct (o_fail (p_send o 1)) as [[k e1]|]; cbn -[_recv_message child_sends]; [intros [= <-]; by eapply H1|].
  match goal with |- context [run _ _recv_message ?s0] => set (s := s0) end.
  destruct (wp_run any_env _ _ _ (p_recv o) (λ _ _, I) (recv_message_raises s Hend)) as (r & s' & -> & Hr).
  apply Hr.
Qed.

(** *** When nothing fails *)

Lemma ordinary_ends : ordinary fb ab → ends_somehow.
Proof.
  unfold ordinary, ends_somehow. destruct (load_task fb ab) as [[fn [args kwargs]]|]; [|done].
  by destruct (ends _).
Qed.

(** The bytes of the frame of an answer; nothing if it is too big for a frame. *)
Definition whole_answer (out : bytes) : Prop :=
  ∃ envelope, answer envelope ∧
    match framed envelope with Ok f => out = f | Err _ => out = [] end.

Lemma child_rest_complete request s :
  loads request = Ok request_value → outgoing (pipe s) = [] → ordinary fb ab →
  wp runner_ok (try_except (child_rest request) child_except) s (λ _ s', whole_answer (outgoing (pipe s'))).
Proof.
  intros Hreq Hclean Hord. unfold child_rest. apply wp_try_except, wp_py_bind. cbn [wp lift].
  rewrite Hreq. apply wp_py_bind. cbn [wp lift]. change (getitem request_value "fn") with (Ok (E := exn) (PBytes fb)).
  apply wp_py_bind. cbn [wp lift]. change (getitem request_value "args") with (Ok (E := exn) (PBytes ab)).
  apply wp_py_bind. eapply (wp_env any_runner); [done|]. apply child_call_wp; [by apply ordinary_ends| |done].
  intros envelope Hans. apply wp_py_bind. cbn [wp lift].
  assert (∀ e, (∀ f, framed envelope ≠ Ok f) → outgoing (pipe s) = [] →
    match child_except e with
    | Some q => wp runner_ok q s (λ _ s', whole_answer (outgoing (pipe s')))
    | None => whole_answer (outgoing (pipe s))
    end) as Hexcept.
  { intros e Hf Hc. apply (child_except_wp _ e s (λ _ s', whole_answer (outgoing (pipe s')))).
    intros _ s' ->. exists envelope. split; [done|]. rewrite Hc. destruct (framed envelope) as [f|]; [|done].
    by destruct (Hf f). }
  unfold whole_answer, framed, res_bind in *. destruct (dumps envelope) as [payload|e] eqn:Hd; [|by apply Hexcept].
  apply on_pipe_wp. unfold _send_message. apply wp_py_bind. cbn [wp lift].
  destruct (pack_I (len payload)) as [header|e] eqn:Hp.
  - apply wp_py_bind. intros o Ho. cbn. rewrite Ho. cbn. intros o' Ho'. rewrite Ho'. cbn.
    exists envelope. split; [done|]. rewrite Hd, Hp, Hclean. by rewrite <- app_assoc.
  - assert (set_pipe (pipe s) s = s) as -> by (by destruct s). by apply Hexcept.
Qed.

Lemma child_sends_whole os request header :
  (∀ n s, runner_ok (os n) s) → ordinary fb ab →
  dumps request_value = Ok request → pack_I (len request) = Ok header →
  whole_answer (child_sends os (header ++ request)).
Proof.
  intros Hos Hord Hd Hp. unfold child_sends. rewrite child_conn_rest. unfold try_except, py_bind.
  rewrite run_bind_assoc.
  match goal with |- context [run _ (mbind ?f ?p) ?s0] =>
    destruct (wp_run_bind runner_ok p f s0 (λ r s, r = Ok request ∧ outgoing (pipe s) = []) os Hos)
      as (k & r & s & [-> Hs] & ->) end.
  { apply on_pipe_wp. eapply wp_env; [|eapply recv_message_ok; [exact Hp|by rewrite app_nil_r|done]]. done. }
  change (mbind _ (child_rest request)) with (try_except (child_rest request) child_except).
  pose proof (loads_dumps _ _ Hd) as Hl.
  destruct (wp_run runner_ok _ s _ (λ n, os (k + n)) (λ n, Hos (k + n)) (child_rest_complete request s Hl Hs Hord))
    as (r & s' & -> & ?). done.
Qed.

(** Nothing fails on the way between the thread and the child. *)
Definition quiet_wire (o : pool_env) : Prop :=
  (∀ n s, no_fail (p_send o n) s) ∧ (∀ n s, runner_ok (p_child o n) s) ∧ p_end o = None ∧ p_cut o = None.

Lemma conversation_complete o request header :
  quiet_wire o → ordinary fb ab →
  dumps request_value = Ok request → pack_I (len request) = Ok header →
  ∃ envelope, answer envelope ∧
    match framed envelope with
    | Ok _ => ∃ response, conversation o request = Ok response ∧ loads response = Ok envelope
    | Err _ => ∃ m, conversation o request = Err (mkExn EOFError m)
    end.
Proof.
  intros (Hsend & Hchild & Hend & Hcut) Hord Hd Hp. unfold conversation.
  assert ((len request < 2 ^ 32)%Z) as Hlt by (unfold pack_I in Hp; by destruct (Z.ltb_spec (len request) (2 ^ 32))).
  destruct (wp_run no_fail _ _ _ (p_send o) Hsend (send_message_no_fail request (mkSock [] None []) Hlt))
    as (r & s & Hrun & ->).
  destruct (wp_run any_env _ _ _ (p_send o) (λ _ _, I) (send_message_spec request (mkSock [] None [])))
    as (r' & s' & Hrun' & sent & -> & Hsent). rewrite Hrun in Hrun'. injection Hrun' as <- ->. rewrite Hrun.
  rewrite Hp in Hsent. destruct Hsent as [_ Hall]. rewrite (Hall eq_refl). cbn [outgoing app]. rewrite Hend, Hcut.
  cbn [cut_at].
  destruct (child_sends_whole (p_child o) request header Hchild Hord Hd Hp) as (envelope & Hans & Hout).
  exists envelope. split; [done|]. destruct (framed envelope) as [f|e] eqn:Hf; rewrite Hout.
  - unfold framed, res_bind in Hf. destruct (dumps envelope) as [payload|] eqn:Hde; [|done].
    destruct (pack_I (len payload)) as [header'|] eqn:Hpe; [|done]. injection Hf as <-.
    destruct (wp_run any_env _recv_message (mkSock (header' ++ payload) None [])
      (λ r _, r = Ok payload) (p_recv o) (λ _ _, I)) as (r & s & -> & ->).
    { eapply recv_message_ok; [exact Hpe|by rewrite app_nil_r|done]. }
    exists payload. split; [done|]. by apply loads_dumps.
  - destruct (wp_run any_env _recv_message (mkSock [] None [])
      (λ r _, ∃ m, r = Err (mkExn EOFError m)) (p_recv o) (λ _ _, I)) as (r & s & -> & m & ->); [|by eauto].
    apply wp_py_bind, recv_exact_short; cbn; [lia|]. by eexists.
Qed.

End conversation.

(** ** The system and the spawner *)

(** [os.path.join(a, b)] with a relative [b]. *)
Definition path_join (a b : string) : string :=
  match String.get (String.length a - 1) a with
  | Some c => if Ascii.eqb c (Ascii.ascii_of_nat 47) then a +:+ b else a +:+ "/" +:+ b
  | None => b
  end.

(** [os.unlink(path)]. *)
Definition unlink (path : string) : pooled unit :=
  act (λ o s,
    if decide (path ∈ files s)
    then match p_unlink o with
         | None => Next (Ok tt) (set_files (files s ∖ {[path]}) s)
         | Some e => Next (Err e) s
         end
    else Next (Err (mkExn FileNotFoundError path)) s).

(** [_signal_pid(pid, sig)] with a signal that ends a child. *)
Definition _signal_pid (p : Z) : pooled unit := step_ (λ _ s, (tt, set_live (live s ∖ {[p]}) s)).

(** [_reap(pid)]: the child is gone. *)
Definition _reap (p : Z) (s : pool) : bool := bool_decide (p ∉ live s).

(** One round of the loop of [_spawner_main]: the reply to a request for a child.  The
    fork, the list of children and the reply are the spawner's. *)
Definition spawner_round (path : string) (o : pool_env) (s : pool) : pyval * pool :=
  let failed := PDict [("error", PStr "spawn failed")] in
  let '(reply, s) :=
    match (if decide (path ∈ files s) then p_unlink o else None) with
    | Some _ => (failed, s)
    | None =>
        let s := set_files (files s ∖ {[path]}) s in
        match p_fork o with
        | Err _ => (failed, s)
        | Ok p =>
            (PDict [("pid", PInt p)],
             set_children (spawner_children s ++ [p]) (set_live (live s ∪ {[p]}) s))
        end
    end in
  (reply, set_children (filter (λ p, _reap p s = false) (spawner_children s)) s).

(** The call to the spawner in [_spawn_child]. *)
Definition ask_spawner (path : string) : pooled pyval :=
  act (λ o s,
    match p_control o with
    | None => let '(reply, s) := spawner_round path o s in Next (Ok reply) s
    | Some (e, true) => let '(_, s) := spawner_round path o s in Next (Err e) s
    | Some (e, false) => Next (Err e) s
    end).

(** [_await_socket(path, timeout_s)]. *)
Definition _await_socket (path : string) : pooled unit :=
  act (λ o s,
    if p_appears o then Next (Ok tt) (set_files (files s ∪ {[path]}) s)
    else Next (Err (mkExn RuntimeError ("unix socket " +:+ path +:+ " never appeared"))) s).

(** ** The pool *)

Section pool.
Context `{PK : !Pickle} `{UC : !UserCode}.
Variable config : WarmPoolConfig.

Definition control_path : string := path_join (socket_dir config) "spawner.sock".

Definition __init__ : pool := mkPool [] [] None false 0 [] ∅ ∅ [] 0 ∅.

Definition child_path (uuid : string) : string :=
  path_join (socket_dir config) ("child-" +:+ uuid +:+ ".sock").

(** The name of a new socket. *)
Definition new_path : pooled string :=
  step_ (λ o s, (child_path (p_uuid o), set_used (used s ∪ {[child_path (p_uuid o)]}) s)).

Definition _spawn_child : pooled _ChildSlot :=
  let* path := new_path in
  let* reply := ask_spawner path in
  match getitem reply "pid" with
  | Err _ =>
      let e := match getitem reply "error" with Ok (PStr e) => e | _ => "None" end in
      raise_ (mkExn RuntimeError ("spawner refused to fork a child: " +:+ e))
  | Ok v =>
      _await_socket path ;;;
      let* p := lift (as_int v) in
      pure (mkSlot p path)
  end.

Definition slots_remove (slot : _ChildSlot) : pooled unit :=
  step_ (λ _ s, (tt, if decide (slot ∈ slots s) then set_slots (remove_first slot (slots s)) s else s)).

Definition slots_append (slot : _ChildSlot) : pooled unit :=
  step_ (λ _ s, (tt, set_slots (slots s ++ [slot]) s)).

Definition idle_put (slot : _ChildSlot) : pooled unit :=
  step_ (λ _ s, (tt, set_idle (idle s ++ [slot]) s)).

(** [self._idle.get(timeout=...)]: the longest idle child; with none, wait until the
    timeout. *)
Definition idle_get : pooled _ChildSlot :=
  act (λ o s,
    match idle s with
    | slot :: rest => Next (Ok slot) (set_idle rest s)
    | [] => if p_expired o then Next (Err (mkExn queue_Empty "")) s else Block
    end).

Definition _replace (slot : _ChildSlot) : pooled unit :=
  _signal_pid (pid slot) ;;;
  try_except (unlink (sock_path slot)) (catching [OSError] (λ _, pure tt)) ;;;
  slots_remove slot ;;;
  attempt _spawn_child (λ fresh,
    match fresh with
    | Err e =>
        if isinstance e [Exception] then step_ (λ _ s, (tt, set_lost (S (lost s)) s)) else raise_ e
    | Ok fresh => slots_append fresh ;;; idle_put fresh
    end).

(** ** [execute] *)

(** [sock.connect(slot.sock_path)] and [sock.close()]. *)
Definition connect (slot : _ChildSlot) : pooled unit :=
  act (λ o s,
    match p_connect o with
    | None => Next (Ok tt) (set_conns (slot :: conns s) s)
    | Some e => Next (Err e) s
    end).

Definition close (slot : _ChildSlot) : pooled unit :=
  step_ (λ _ s, (tt, set_conns (remove_first slot (conns s)) s)).

Definition exchange (request : bytes) : pooled bytes :=
  act (λ o s, Next (conversation o request) s).

Definition pool_result (envelope : pyval) (wall_ms : Z) : result exn ExecutionResult :=
  let! ms := dict_get envelope "execution_ms" (PInt 0) in
  let! execution_ms := as_int ms in
  let cold_start_ms := Z.max 0 (wall_ms - execution_ms) in
  let! ok := dict_get envelope "ok" PNone in
  if truthy ok
  then
    let! rb := getitem envelope "result_bytes" in
    let! rb := as_bytes rb in
    Ok (mkResult true rb "" cold_start_ms execution_ms "" "")
  else
    let! error := dict_get envelope "error" (PStr "unknown error") in
    let! error := as_str error in
    Ok (mkResult false [] error cold_start_ms execution_ms "" "").

(** The body of the outer [try]. *)
Definition talk (slot : _ChildSlot) (request : bytes) (wall_start : spec_float) : pooled ExecutionResult :=
  let* response := try_finally (connect slot ;;; exchange request) (close slot) in
  let* envelope := lift (loads response) in
  let* now := monotonic in
  lift (pool_result envelope (elapsed_ms now wall_start)).

(** The exceptions that mean that the child is broken. *)
Definition broken : list exn_class := [TimeoutError; ConnectionError; EOFError; OSError].

(** With a child: the conversation, and the [except] and [finally] clauses. *)
Definition with_child (slot : _ChildSlot) (request : bytes) (wall_start : spec_float) :
    pooled ExecutionResult :=
  attempt (talk slot request wall_start) (λ r,
    match r with
    | Ok res => idle_put slot ;;; pure res
    | Err e =>
        if isinstance e broken
        then
          let* now := monotonic in
          _replace slot ;;;
          pure (mkResult false [] ("warm child connection error: " +:+ exn_msg e)
                  (elapsed_ms now wall_start) 0 "" "")
        else idle_put slot ;;; raise_ e
    end).

Definition pool_execute (function_bytes args_bytes : bytes) : pooled ExecutionResult :=
  let* ready := step_ (λ _ s, (started s, s)) in
  if negb ready then raise_ (mkExn RuntimeError "WarmPool not started")
  else
    let* wall_start := monotonic in
    attempt idle_get (λ slot,
      match slot with
      | Err e =>
          if isinstance e [queue_Empty]
          then
            let* now := monotonic in
            pure (mkResult false []
                    ("no warm child available within " +:+ acquire_timeout_s config +:+ "s")
                    (elapsed_ms now wall_start) 0 "" "")
          else raise_ e
      | Ok slot =>
          let* request := lift (dumps (PDict [("fn", PBytes function_bytes); ("args", PBytes args_bytes)])) in
          with_child slot request wall_start
      end).

#[export] Instance ForkWarmPoolExecutor : Executor pool pool_env := {
  name := "fork";
  execute fb ab output_sink := let* res := pool_execute fb ab in pure (res, []);
}.

(** ** Lifecycle *)

(** [not m.strip()] on ASCII whitespace. *)
Fixpoint blank (m : string) : bool :=
  match m with
  | "" => true
  | String c m =>
      let n := Ascii.nat_of_ascii c in
      (Nat.eqb n 32 || (Nat.leb 9 n && Nat.leb n 13) || (Nat.leb 28 n && Nat.leb n 31))%bool && blank m
  end.

(** [__import__(m)] for a module that is named; a failure is logged. *)
Definition preimport_module (m : string) : pooled unit :=
  if blank m then pure tt
  else
    try_except (act (λ o s, Next (match p_import o with None => Ok tt | Some e => Err e end) s))
      (catching [Exception] (λ _, pure tt)).

(** [os.fork()] in the worker itself. *)
Definition worker_fork : pooled Z :=
  act (λ o s,
    match p_fork o with
    | Ok p => Next (Ok p) (set_live (live s ∪ {[p]}) (set_forks (S (forks s)) s))
    | Err e => Next (Err e) s
    end).

Definition put_spawner (p : option Z) : pooled unit := step_ (λ _ s, (tt, set_spawner p s)).

Definition _start_spawner : pooled unit :=
  try_except (unlink control_path) (catching [FileNotFoundError] (λ _, pure tt)) ;;;
  let* p := worker_fork in
  put_spawner (Some p) ;;;
  try_except (_await_socket control_path)
    (catching [RuntimeError] (λ e, _signal_pid p ;;; put_spawner None ;;; raise_ e)).

(** The loop that fills the pool. *)
Fixpoint fill (n : nat) : pooled unit :=
  match n with
  | O => pure tt
  | S n =>
      let* slot := _spawn_child in
      slots_append slot ;;;
      idle_put slot ;;;
      fill n
  end.

Definition start : pooled unit :=
  let* already := step_ (λ _ s, (started s, s)) in
  if already : bool then pure tt
  else
    for_each (preimport config) preimport_module ;;;
    _start_spawner ;;;
    fill (Z.to_nat (size config)) ;;;
    step_ (λ _ s, (tt, set_started true s)).

(** SIGTERM to the spawner, which ends its children and removes its socket, and
    [os.waitpid] for it. *)
Definition stop_spawner (p : Z) : pooled unit :=
  step_ (λ _ s,
    (tt, if decide (p ∈ live s)
         then set_children [] (set_files (files s ∖ {[control_path]})
                (set_live (live s ∖ ({[p]} ∪ list_to_set (spawner_children s))) s))
         else s)).

Definition shutdown : pooled unit :=
  let* mine := step_ (λ _ s, (slots s, s)) in
  for_each mine (λ slot, _signal_pid (pid slot)) ;;;
  let* spawner := step_ (λ _ s, (spawner_pid s, s)) in
  match spawner with
  | Some p => stop_spawner p ;;; put_spawner None
  | None => pure tt
  end ;;;
  for_each ((sock_path <$> mine) ++ [control_path]) (λ path,
    try_except (unlink path) (catching [OSError] (λ _, pure tt))) ;;;
  step_ (λ _ s, (tt, set_started false (set_slots [] s))).

(** ** Who has which child *)

(** A running [execute] has a child that it took from the queue, talks to it, is about to
    replace one that it has removed, or has made up the socket path of the new one. *)
Inductive token : Type :=
| Held (x : _ChildSlot)
| Talks (x : _ChildSlot)
| Gone
| Named (path : string).

Definition in_pool (t : token) : option _ChildSlot :=
  match t with Held x | Talks x => Some x | _ => None end.

Definition talks_to (t : token) : option _ChildSlot :=
  match t with Talks x => Some x | _ => None end.

Definition tok_path (t : token) : option string :=
  match t with Held x | Talks x => Some (sock_path x) | Named path => Some path | Gone => None end.

(** A child is missing while it is being replaced. *)
Definition missing (t : token) : nat := match t with Gone | Named _ => 1 | _ => 0 end.

(** [n] children were asked for, and the worker has forked [f] times. *)
Record pool_inv (n f : nat) (s : pool) (T : list token) : Prop := {
  pi_slots : slots s ≡ₚ idle s ++ omap in_pool T;
  pi_conns : conns s ≡ₚ omap talks_to T;
  pi_unique : NoDup ((sock_path <$> idle s) ++ omap tok_path T);
  pi_used path : path ∈ (sock_path <$> idle s) ++ omap tok_path T → path ∈ used s;
  pi_size : length (slots s) + sum_list_with missing T + lost s = n;
  pi_forks : forks s = f;
  pi_started : started s = true;
}.

(** The system raises [OSError]s, or at least [Exception]s, and a new UUID differs from
    those before. *)
Definition pool_possible (o : pool_env) (s : pool) : Prop :=
  (∀ e b, p_control o = Some (e, b) → isinstance e [Exception] = true) ∧
  (∀ e, p_unlink o = Some e → isinstance e [OSError] = true) ∧
  (∀ e, p_connect o = Some e → isinstance e [OSError] = true) ∧
  child_path (p_uuid o) ∉ used s ∧ wire_raises o.

(** The same as a test. *)
Definition pool_possibleb (o : pool_env) (s : pool) : bool :=
  match p_control o with Some (e, _) => isinstance e [Exception] | None => true end &&
  match p_unlink o with Some e => isinstance e [OSError] | None => true end &&
  match p_connect o with Some e => isinstance e [OSError] | None => true end &&
  bool_decide (child_path (p_uuid o) ∉ used s) &&
  match p_end o with Some e => isinstance e [Exception] | None => true end &&
  match o_fail (p_send o 0) with Some (_, e) => isinstance e [Exception] | None => true end &&
  match o_fail (p_send o 1) with Some (_, e) => isinstance e [Exception] | None => true end.

Lemma pool_possibleb_spec o s : pool_possibleb o s = true ↔ pool_possible o s.
Proof.
  unfold pool_possibleb, pool_possible, wire_raises. rewrite !andb_true_iff, bool_decide_eq_true.
  assert (∀ x : option exn, (∀ e, x = Some e → isinstance e [Exception] = true) ↔
    match x with Some e => isinstance e [Exception] | None => true end = true) as Hx by (intros []; naive_solver).
  assert (∀ x : option (nat * exn), (∀ k e, x = Some (k, e) → isinstance e [Exception] = true) ↔
    match x with Some (_, e) => isinstance e [Exception] | None => true end = true) as Hy
    by (intros [[]|]; naive_solver).
  rewrite Hx, !Hy. destruct (p_control o) as [[e b]|], (p_unlink o), (p_connect o); naive_solver.
Qed.

#[export] Instance pool_possible_dec o s : Decision (pool_possible o s).
Proof. refine (cast_if (decide (pool_possibleb o s = true))); by rewrite <- pool_possibleb_spec. Defined.

Lemma pool_inv_perm n f s T T' : T ≡ₚ T' → pool_inv n f s T → pool_inv n f s T'.
Proof.
  intros HT [H1 H2 H3 H4 H5 H6 H7].
  assert (∀ g : token → option string, omap g T ≡ₚ omap g T') as Hs by (intros g; by rewrite HT).
  assert (∀ g : token → option _ChildSlot, omap g T ≡ₚ omap g T') as Hx by (intros g; by rewrite HT).
  assert (sum_list_with missing T = sum_list_with missing T') as Hm.
  { clear -HT. induction HT; cbn; lia. }
  split; [by rewrite <- Hx|by rewrite <- Hx|by rewrite <- Hs| |by rewrite <- Hm|done|done].
  intros path. rewrite <- Hs. apply H4.
Qed.

(** What the invariant looks at. *)
Definition pool_view (s : pool) : list _ChildSlot * list _ChildSlot * list _ChildSlot * gset string * nat * nat * bool :=
  (idle s, slots s, conns s, used s, lost s, forks s, started s).

Lemma pool_inv_view n f s s' T : pool_view s' = pool_view s → pool_inv n f s T → pool_inv n f s' T.
Proof.
  intros [= E1 E2 E3 E4 E5 E6 E7] [H1 H2 H3 H4 H5 H6 H7].
  split; [by rewrite E1, E2|by rewrite E3|by rewrite E1|by rewrite E1, E4|by rewrite E2, E5|by rewrite E6|by rewrite E7].
Qed.

Section own.
Variables n f : nat.

Abbreviation owns := (holds pool_possible (pool_inv n f)).

(** A step that leaves the view alone. *)
Lemma own_quiet {B} (step : pool_env → pool → outcome pool (result exn B)) H (Q : result exn B → list token → Prop) :
  (∀ o s, pool_possible o s →
     match step o s with
     | Next r s' => pool_view s' = pool_view s ∧ Q r H
     | Block => True
     | Panic => False
     end) →
  owns H (act step) Q.
Proof.
  intros Hq o s F Ho Hi. specialize (Hq o s Ho). destruct (step o s); [|done|done].
  destruct Hq as [Hv HQ]. exists H. split; [by eapply pool_inv_view|done].
Qed.

Lemma own_monotonic H Q : (∀ t, Q (Ok t) H) → owns H monotonic Q.
Proof. intros HQ. apply holds_look. auto. Qed.

Lemma own_idle_get Q :
  (∀ x, Q (Ok x) [Held x]) → Q (Err (mkExn queue_Empty "")) [] → owns [] idle_get Q.
Proof.
  intros HQ HE o s F Ho [H1 H2 H3 H4 H5 H6 H7]. cbn in *. destruct (idle s) as [|x rest] eqn:Hi.
  - destruct (p_expired o); [|done]. exists []. split; [|done]. split; rewrite ?Hi; done.
  - exists [Held x]. split; [|apply HQ]. split; cbn; try done.
    + rewrite H1. cbn. by rewrite Permutation_middle.
    + cbn in H3. rewrite <- Permutation_middle. done.
    + intros path. rewrite <- Permutation_middle. apply H4.
Qed.

Lemma own_idle_put x Q : Q (Ok tt) [] → owns [Held x] (idle_put x) Q.
Proof.
  intros HQ. apply holds_step. intros o s F Ho [H1 H2 H3 H4 H5 H6 H7]. exists []. split; [|done].
  cbn in *. split; cbn; try done.
  - by rewrite H1, <- app_assoc.
  - by rewrite fmap_app, <- app_assoc.
  - intros path. rewrite fmap_app, <- app_assoc. apply H4.
Qed.

Lemma own_connect x Q :
  Q (Ok tt) [Talks x] → (∀ e, isinstance e [OSError] = true → Q (Err e) [Held x]) →
  owns [Held x] (connect x) Q.
Proof.
  intros HQ HE o s F Ho Hi. cbn. destruct (p_connect o) as [e|] eqn:Hc.
  - exists [Held x]. split; [done|]. apply HE. by apply Ho.
  - exists [Talks x]. split; [|done]. destruct Hi as [H1 H2 H3 H4 H5 H6 H7]. cbn in *.
    split; cbn; try done. by rewrite H2.
Qed.

Lemma remove_first_perm x l : x ∈ l → l ≡ₚ x :: remove_first x l.
Proof.
  induction l as [|y l IH]; [by intros ?%elem_of_nil|]. cbn. destruct (decide (y = x)) as [->|Hne]; [done|].
  intros [->|Hin]%elem_of_cons; [done|]. rewrite (IH Hin) at 1. apply Permutation_swap.
Qed.

Lemma remove_first_not x l : x ∉ l → remove_first x l = l.
Proof.
  induction l as [|y l IH]; [done|]. cbn. intros [Hne Hin]%not_elem_of_cons.
  rewrite decide_False by done. by rewrite IH.
Qed.

Lemma elem_of_omap_path (g : token → option _ChildSlot) x (F : list token) :
  (∀ t y, g t = Some y → tok_path t = Some (sock_path y)) →
  x ∈ omap g F → sock_path x ∈ omap tok_path F.
Proof.
  intros Hg (t & Ht & E)%list_elem_of_omap. apply list_elem_of_omap. exists t. eauto.
Qed.

Lemma own_close x H Q :
  H = [Talks x] ∨ H = [Held x] → Q (Ok tt) [Held x] → owns H (close x) Q.
Proof.
  intros HH HQ. apply holds_step. intros o s F Ho [H1 H2 H3 H4 H5 H6 H7]. exists [Held x]. split; [|done].
  destruct HH as [-> | ->]; cbn in *; split; cbn; try done.
  - apply (Permutation_cons_inv (a := x)). rewrite <- remove_first_perm; [done|]. rewrite H2. by left.
  - rewrite remove_first_not; [done|]. rewrite H2.
    intros Hx%(elem_of_omap_path talks_to); [|by intros [] y; cbn; intros; simplify_eq].
    apply NoDup_app in H3 as (_ & _ & H3). apply NoDup_cons in H3 as [Hn _]. done.
Qed.

Lemma own_slots_remove x Q : Q (Ok tt) [Gone] → owns [Held x] (slots_remove x) Q.
Proof.
  intros HQ. apply holds_step. intros o s F Ho [H1 H2 H3 H4 H5 H6 H7]. exists [Gone]. split; [|done].
  cbn in *. assert (x ∈ slots s) as Hx by (rewrite H1; set_solver).
  rewrite decide_True by done. pose proof (remove_first_perm x (slots s) Hx) as Hp.
  split; cbn; try done.
  - apply (Permutation_cons_inv (a := x)). rewrite <- Hp, H1. by rewrite Permutation_middle.
  - apply NoDup_app in H3 as (? & Hd & [_ ?]%NoDup_cons). apply NoDup_app. split; [done|]. split; [|done].
    intros p Hp1 Hp2. apply (Hd p Hp1). by right.
  - intros path Hpath. apply H4. set_solver.
  - apply Permutation_length in Hp. cbn in Hp. lia.
Qed.

Lemma own_new_path Q : (∀ path, Q (Ok path) [Named path]) → owns [Gone] new_path Q.
Proof.
  intros HQ. apply holds_step. intros o s F (_ & _ & _ & Hu) [H1 H2 H3 H4 H5 H6 H7].
  exists [Named (child_path (p_uuid o))]. split; [|apply HQ]. cbn in *. split; cbn; try done.
  - rewrite <- Permutation_middle. apply NoDup_cons. split; [|done]. intros Hin. by apply Hu, H4.
  - intros path Hpath. rewrite <- Permutation_middle in Hpath. set_solver.
Qed.

Lemma own_slots_append x Q : Q (Ok tt) [Held x] → owns [Named (sock_path x)] (slots_append x) Q.
Proof.
  intros HQ. apply holds_step. intros o s F Ho [H1 H2 H3 H4 H5 H6 H7]. exists [Held x]. split; [|done].
  cbn in *. split; cbn; try done.
  - rewrite H1. rewrite <- app_assoc. f_equiv. by rewrite Permutation_app_comm.
  - rewrite length_app. cbn. lia.
Qed.

Lemma own_lost path (Q : result exn unit → list token → Prop) :
  Q (Ok tt) [] → owns [Named path] (step_ (λ _ s, (tt, set_lost (S (lost s)) s))) Q.
Proof.
  intros HQ. apply holds_step. intros o s F Ho [H1 H2 H3 H4 H5 H6 H7]. exists []. split; [|done].
  cbn in *. split; cbn; try done.
  - rewrite <- Permutation_middle in H3. by apply NoDup_cons in H3 as [_ ?].
  - intros p Hp. apply H4. set_solver.
  - lia.
Qed.

Lemma own_signal p H Q : Q (Ok tt) H → owns H (_signal_pid p) Q.
Proof. intros HQ. by apply own_quiet. Qed.

(** [try: os.unlink(path) except OSError: pass]. *)
Lemma own_unlink path H (Q : result exn unit → list token → Prop) :
  Q (Ok tt) H → owns H (try_except (unlink path) (catching [OSError] (λ _, pure tt))) Q.
Proof.
  intros HQ. apply holds_try_except, own_quiet. intros o s (_ & Hu & _).
  destruct (decide (path ∈ files s)); [|done]. destruct (p_unlink o) as [e1|]; [|done].
  split; [done|]. unfold catching. by rewrite (Hu e1 eq_refl).
Qed.

Lemma spawner_round_view path o s : pool_view (spawner_round path o s).2 = pool_view s.
Proof.
  unfold spawner_round. destruct (if decide _ then _ else _); [done|]. by destruct (p_fork o).
Qed.

Lemma own_ask_spawner path H (Q : result exn pyval → list token → Prop) :
  (∀ v, Q (Ok v) H) → (∀ e, isinstance e [Exception] = true → Q (Err e) H) → owns H (ask_spawner path) Q.
Proof.
  intros HQ HE. apply own_quiet. intros o s (Hc & _). pose proof (spawner_round_view path o s) as Hv.
  destruct (p_control o) as [[e []]|]; [| |].
  - destruct (spawner_round path o s). cbn in Hv. split; [done|]. by apply HE, (Hc e true).
  - split; [done|]. by apply HE, (Hc e false).
  - destruct (spawner_round path o s). by split.
Qed.

Lemma own_await_socket path H (Q : result exn unit → list token → Prop) :
  Q (Ok tt) H → (∀ e, isinstance e [Exception] = true → Q (Err e) H) → owns H (_await_socket path) Q.
Proof. intros HQ HE. apply own_quiet. intros o s _. destruct (p_appears o); [done|]. split; [done|]. by apply HE. Qed.

Lemma own_spawn_child Q :
  (∀ x, Q (Ok x) [Named (sock_path x)]) →
  (∀ e path, isinstance e [Exception] = true → Q (Err e) [Named path]) →
  owns [Gone] _spawn_child Q.
Proof.
  intros HQ HE. apply holds_py_bind, own_new_path. intros path.
  apply holds_py_bind, own_ask_spawner; [|auto]. intros reply.
  destruct (getitem reply "pid") as [v|e]; [|by apply HE].
  apply holds_py_bind, own_await_socket; [|auto]. apply holds_py_bind. cbn.
  destruct v; cbn; try (by apply HE); apply (HQ (mkSlot _ _)).
Qed.

Lemma own_replace x Q : Q (Ok tt) [] → owns [Held x] (_replace x) Q.
Proof.
  intros HQ. apply holds_py_bind, own_signal. apply holds_py_bind, own_unlink.
  apply holds_py_bind, own_slots_remove. apply holds_attempt, own_spawn_child.
  - intros y. apply holds_py_bind, own_slots_append. by apply own_idle_put.
  - intros e path ->. by apply own_lost.
Qed.

Lemma own_talk x request t Q :
  (∀ r, Q r [Held x]) → owns [Held x] (talk x request t) Q.
Proof.
  intros HQ. apply holds_py_bind, holds_try_finally, holds_py_bind, own_connect.
  - apply own_quiet. intros o s _. split; [done|]. apply own_close; [by left|].
    destruct (conversation o request) as [b|e]; [|apply HQ]. apply holds_py_bind. cbn [holds lift].
    destruct (loads b) as [v|e]; [|apply HQ]. apply holds_py_bind, own_monotonic. intros now. apply HQ.
  - intros e _. apply own_close; [by right|]. apply HQ.
Qed.

Lemma own_with_child x request t Q :
  (∀ r, Q r []) → owns [Held x] (with_child x request t) Q.
Proof.
  intros HQ. apply holds_attempt, own_talk. intros [res|e].
  - apply holds_py_bind, own_idle_put. apply HQ.
  - destruct (isinstance e broken).
    + apply holds_py_bind, own_monotonic. intros now. apply holds_py_bind, own_replace. apply HQ.
    + apply holds_py_bind, own_idle_put. apply HQ.
Qed.

Lemma own_execute `{!PickleLaws} fb ab (sink : bool) :
  owns [] (execute fb ab sink) (λ r H, H = []).
Proof.
  cbn [execute ForkWarmPoolExecutor]. apply holds_py_bind, holds_py_bind, holds_look.
  intros o s F _ Hi. rewrite (pi_started _ _ _ _ Hi). cbn [negb].
  apply holds_py_bind, own_monotonic. intros t. apply holds_attempt, own_idle_get.
  - intros x. apply holds_py_bind. cbn [holds lift].
    destruct (dumps_plain (PDict [("fn", PBytes fb); ("args", PBytes ab)])) as [request ->]; [done|].
    apply own_with_child. by intros [res|e].
  - cbn [isinstance]. apply holds_py_bind, own_monotonic. by intros now.
Qed.

End own.

(** ** Starting the pool *)

(** Nobody uses the pool yet: every child is idle. *)
Record filling (k f : nat) (s : pool) : Prop := {
  fi_slots : slots s = idle s;
  fi_len : length (idle s) = k;
  fi_unique : NoDup (sock_path <$> idle s);
  fi_used path : path ∈ sock_path <$> idle s → path ∈ used s;
  fi_conns : conns s = [];
  fi_lost : lost s = 0;
  fi_forks : forks s = f;
}.

Lemma filling_view k f s s' :
  (idle s', slots s', conns s', used s', lost s', forks s') =
  (idle s, slots s, conns s, used s, lost s, forks s) → filling k f s → filling k f s'.
Proof.
  intros [= E1 E2 E3 E4 E5 E6] [H1 H2 H3 H4 H5 H6 H7].
  split; [by rewrite E1, E2|by rewrite E1|by rewrite E1|by rewrite E1, E4|by rewrite E3|by rewrite E5|by rewrite E6].
Qed.

Lemma wp_quiet {B} (step : pool_env → pool → outcome pool (result exn B)) s (Q : result exn B → pool → Prop) :
  (∀ o, pool_possible o s →
     match step o s with
     | Next r s' =>
         (idle s', slots s', conns s', used s', lost s', forks s') =
         (idle s, slots s, conns s, used s, lost s, forks s) ∧ Q r s'
     | _ => False
     end) →
  wp pool_possible (act step) s Q.
Proof. intros H o Ho. specialize (H o Ho). destruct (step o s); [|done|done]. by destruct H. Qed.

Lemma ask_spawner_filling k f path s (Q : result exn pyval → pool → Prop) :
  filling k f s → (∀ r s', filling k f s' → (idle s', used s') = (idle s, used s) → Q r s') →
  wp pool_possible (ask_spawner path) s Q.
Proof.
  intros Hf HQ o Ho. cbn. pose proof (spawner_round_view path o s) as Hv.
  destruct (spawner_round path o s) as [reply s1]. cbn in Hv. injection Hv as E1 E2 E3 E4 E5 E6 E7.
  assert (filling k f s1) as Hf1 by (eapply filling_view; [|exact Hf]; congruence).
  destruct (p_control o) as [[e []]|]; cbn; apply HQ; congruence.
Qed.

(** A fresh child, whose path nobody else has. *)
Lemma spawn_child_filling k f s (Q : result exn _ChildSlot → pool → Prop) :
  filling k f s →
  (∀ x s', filling k f s' → sock_path x ∈ used s' → sock_path x ∉ sock_path <$> idle s' → Q (Ok x) s') →
  (∀ e s', Q (Err e) s') →
  wp pool_possible _spawn_child s Q.
Proof.
  intros Hf HQ HE. apply wp_py_bind, wp_step. intros o (_ & _ & _ & Hu). cbn [fst snd].
  set (path := child_path (p_uuid o)) in *.
  assert (filling k f (set_used (used s ∪ {[path]}) s)) as Hf1.
  { destruct Hf as [H1 H2 H3 H4 H5 H6 H7]. split; cbn; try done. set_solver. }
  apply wp_py_bind. eapply ask_spawner_filling; [exact Hf1|]. intros [reply|e] s1 Hf2 Hv2; [|apply HE].
  cbn in Hv2. injection Hv2 as Hi2 Hu2.
  destruct (getitem reply "pid") as [v|e]; [|apply HE]. apply wp_py_bind. intros o1 Ho1. cbn.
  destruct (p_appears o1); cbn; [|apply HE].
  assert (filling k f (set_files (files s1 ∪ {[path]}) s1)) as Hf3 by (by eapply filling_view; [|exact Hf2]).
  assert (path ∉ sock_path <$> idle s1) as Hp by (rewrite Hi2; intros Hin; by apply Hu, (fi_used _ _ _ Hf)).
  destruct v; cbn; try apply HE; (apply HQ; cbn; [exact Hf3|rewrite Hu2; set_solver|exact Hp]).
Qed.

Lemma fill_filling m k f s :
  filling k f s →
  wp pool_possible (fill m) s (λ r s', r = Ok tt → filling (k + m) f s').
Proof.
  revert k s. induction m as [|m IH]; intros k s Hf; [cbn; by rewrite Nat.add_0_r|].
  apply wp_py_bind. eapply spawn_child_filling; [exact Hf| |done]. intros x s1 Hf1 Hx Hn.
  apply wp_py_bind, wp_step. intros o _. apply wp_py_bind, wp_step. intros o' _. cbn [fst snd].
  replace (k + S m) with (S k + m) by lia. apply IH.
  destruct Hf1 as [H1 H2 H3 H4 H5 H6 H7]. split; cbn; try done.
  - by rewrite H1.
  - rewrite length_app, H2. cbn. lia.
  - rewrite fmap_app. cbn. apply NoDup_app. split; [done|]. split; [|apply NoDup_singleton]. set_solver.
  - intros path. rewrite fmap_app. cbn. set_solver.
Qed.

(** Errors that the system may raise while the spawner starts change nothing in the pool. *)
Lemma for_each_filling k f mods s (Q : result exn unit → pool → Prop) :
  filling k f s → (∀ r s', filling k f s' → Q r s') →
  wp pool_possible (for_each mods preimport_module) s Q.
Proof.
  revert s. induction mods as [|m mods IH]; intros s Hf HQ; [by apply HQ|].
  apply wp_py_bind. unfold preimport_module. destruct (blank m); [by apply IH|].
  apply wp_try_except. intros o Ho. cbn. destruct (p_import o) as [e|]; cbn; [|by apply IH].
  unfold catching. destruct (isinstance e [Exception]); [by apply IH|by apply HQ].
Qed.

Lemma start_spawner_filling k f s (Q : result exn unit → pool → Prop) :
  filling k f s → (∀ s', filling k (S f) s' → Q (Ok tt) s') → (∀ e s', Q (Err e) s') →
  wp pool_possible _start_spawner s Q.
Proof.
  intros Hf HQ HE. apply wp_py_bind, wp_try_except.
  assert (∀ s, filling k f s → wp pool_possible
    (let* p := worker_fork in
     put_spawner (Some p) ;;;
     try_except (_await_socket control_path)
       (catching [RuntimeError] (λ e, _signal_pid p ;;; put_spawner None ;;; raise_ e))) s Q) as Hrest.
  { intros s1 Hf1. apply wp_py_bind. intros o _. cbn [worker_fork act].
    destruct (p_fork o) as [p|e]; cbn [wp]; [|apply HE].
    apply wp_py_bind, wp_step. intros o1 _. apply wp_try_except. intros o2 _. cbn.
    destruct (p_appears o2); cbn.
    - apply HQ. destruct Hf1. by split; cbn; [..|congruence].
    - intros _ _. intros _ _. apply HE. }
  intros o (_ & Hu & _). cbn [unlink act]. destruct (decide (control_path ∈ files s)); cbn [wp].
  - destruct (p_unlink o) as [e1|]; cbn [wp].
    + unfold catching. destruct (isinstance e1 _); [by apply Hrest|apply HE].
    + apply Hrest. by eapply filling_view; [|exact Hf].
  - by apply Hrest.
Qed.

(** A pool whose [start] returned has all its children, idle, and one fork of the worker
    has made the spawner. *)
Lemma start_wp :
  wp pool_possible start __init__ (λ r s, r = Ok tt → pool_inv (Z.to_nat (size config)) 1 s []).
Proof.
  apply wp_py_bind, wp_step. intros o _. cbn [fst snd started __init__].
  assert (filling 0 0 __init__) as H0 by (split; cbn; try done; [apply NoDup_nil_2|set_solver]).
  apply wp_py_bind. eapply for_each_filling; [exact H0|]. intros [[]|e] s1 H1; [|done].
  apply wp_py_bind. eapply start_spawner_filling; [exact H1| |done]. intros s2 H2.
  apply wp_py_bind. eapply wp_mono; [|apply (fill_filling _ 0 1), H2]. intros [[]|e] s3 H3; [|done].
  specialize (H3 eq_refl). apply wp_step. intros o' _ _. cbn.
  destruct H3 as [E1 E2 E3 E4 E5 E6 E7].
  split; cbn; rewrite ?app_nil_r; try done; [by rewrite E1|by rewrite E5|rewrite E1, E6; lia].
Qed.

(** ** The pool keeps the promises of an executor *)

Lemma pool_result_answer fb ab envelope wall :
  answer fb ab envelope →
  ∃ res, pool_result envelope wall = Ok res ∧
    match verdict fb ab with
    | Some rb => success res = true ∧ result_bytes res = rb ∧ (stdout res, stderr res) = ("", "")
    | None => success res = false
    end.
Proof. intros [rb now t0 Hv|msg ms Hv]; rewrite Hv; eexists; (split; [reflexivity|done]). Qed.

Section pool_ok.
Context `{PL : !PickleLaws}.

(** One step, whose reply is known. *)
Lemma yields_one {B} (step : pool_env → pool → outcome pool (result exn B)) (Q : result exn B → Prop) :
  (∀ o s, pool_possible o s → match step o s with Next r _ => Q r | Block => True | Panic => False end) →
  yields pool_possible (act step) Q.
Proof. done. Qed.

Lemma spawn_child_yields (Q : result exn _ChildSlot → Prop) :
  (∀ x, Q (Ok x)) → (∀ e, isinstance e [Exception] = true → Q (Err e)) →
  yields pool_possible _spawn_child Q.
Proof.
  intros HQ HE. apply yields_py_bind, yields_step. intros path. apply yields_py_bind, yields_one.
  intros o s (Hc & _). cbn.
  assert (∀ reply, yields pool_possible
    match getitem reply "pid" with
    | Err _ =>
        let e := match getitem reply "error" with Ok (PStr e) => e | _ => "None" end in
        raise_ (mkExn RuntimeError ("spawner refused to fork a child: " +:+ e))
    | Ok v => _await_socket path ;;; let* p := lift (as_int v) in pure (mkSlot p path)
    end Q) as Hreply.
  { intros reply. destruct (getitem reply "pid") as [v|e]; [|by apply HE].
    apply yields_py_bind, yields_one. intros o1 s1 _. cbn. destruct (p_appears o1); [|by apply HE].
    destruct v; cbn; solve [apply HQ|by apply HE]. }
  destruct (p_control o) as [[e b]|]; [|destruct (spawner_round _ _ _); apply Hreply].
  specialize (Hc e b eq_refl). destruct b; [destruct (spawner_round _ _ _)|]; by apply HE.
Qed.

(** [_replace] does not raise. *)
Lemma replace_yields x (Q : result exn unit → Prop) : Q (Ok tt) → yields pool_possible (_replace x) Q.
Proof.
  intros HQ. apply yields_py_bind, yields_step. intros _.
  apply yields_py_bind, yields_try_except, yields_one.
  assert (yields pool_possible (slots_remove x ;;;
    attempt _spawn_child (λ fresh,
      match fresh with
      | Err e => if isinstance e [Exception] then step_ (λ _ s, (tt, set_lost (S (lost s)) s)) else raise_ e
      | Ok fresh => slots_append fresh ;;; idle_put fresh
      end)) Q) as Hrest.
  { apply yields_py_bind, yields_step. intros _. apply yields_attempt, spawn_child_yields.
    - intros y. apply yields_py_bind, yields_step. intros _. apply yields_step. by intros [].
    - intros e ->. apply yields_step. by intros []. }
  intros o s (_ & Hu & _). cbn [unlink]. destruct (decide _); [|exact Hrest].
  destruct (p_unlink o) as [e1|]; [|exact Hrest]. unfold catching. by rewrite (Hu e1 eq_refl).
Qed.

Lemma talk_yields fb ab x request t :
  dumps (request_value fb ab) = Ok request →
  yields pool_possible (talk x request t) (honest_result ("", "") fb ab).
Proof.
  intros Hd. apply yields_py_bind, yields_try_finally, yields_py_bind. intros o s (_ & _ & Hcon & _).
  cbn [connect act]. destruct (p_connect o) as [e|]; cbn [yields].
  { apply yields_step. intros _. eapply (isinstance_weaken _ [OSError]); [|by apply Hcon].
    intros c ->%list_elem_of_singleton. set_solver. }
  intros o1 s1 (_ & _ & _ & _ & Hw). cbn [exchange act yields]. apply yields_step. intros _.
  destruct (conversation o1 request) as [response|e] eqn:Hc; [|by eapply conversation_raises].
  destruct (conversation_sound fb ab o1 request response Hd Hc) as (envelope & Hans & Hl).
  apply yields_py_bind. cbn [yields lift]. rewrite Hl. apply yields_py_bind, yields_step. intros now. cbn [yields lift].
  destruct (pool_result_answer fb ab envelope (elapsed_ms now t) Hans) as (res & -> & Hres).
  intros Hok. destruct (verdict fb ab) as [rb|]; [|congruence]. by destruct Hres as (_ & -> & ->).
Qed.

Lemma pool_sound fb ab (sink : bool) : yields pool_possible (execute fb ab sink) (honest ("", "", []) fb ab).
Proof.
  cbn [execute ForkWarmPoolExecutor]. apply yields_py_bind, yields_py_bind, yields_step. intros ready.
  destruct ready; cbn [negb]; [|done]. apply yields_py_bind, yields_step. intros t.
  apply yields_attempt, yields_one. intros o s _. cbn [idle_get]. destruct (idle s) as [|x rest].
  { destruct (p_expired o); [|done]. by apply yields_py_bind, yields_step. }
  apply yields_py_bind. cbn [yields lift].
  destruct (dumps _) as [request|e] eqn:Hd; [|by eapply dumps_raises]. apply yields_attempt.
  eapply yields_mono; [|by apply (talk_yields fb ab)]. intros [res|e] Hres.
  - apply yields_py_bind, yields_step. by intros _.
  - destruct (isinstance e broken).
    + apply yields_py_bind, yields_step. intros now. by apply yields_py_bind, replace_yields.
    + by apply yields_py_bind, yields_step.
Qed.

(** *** When nothing fails *)

Definition pool_faultless (o : pool_env) (_ : pool) : Prop :=
  quiet_wire o ∧ p_connect o = None ∧ p_control o = None ∧ p_unlink o = None ∧
  is_Ok (p_fork o) = true ∧ p_appears o = true.

Definition pool_ready (s : pool) : Prop := started s = true ∧ idle s ≠ [].

(** A task and an answer that fit into frames. *)
Definition pool_accepts (fb ab : bytes) : Prop :=
  ∃ request header, dumps (request_value fb ab) = Ok request ∧ pack_I (len request) = Ok header.

Definition pool_oversize (fb ab : bytes) : Prop :=
  ∃ rb now t0 e, verdict fb ab = Some rb ∧ framed (envelope_ok rb (elapsed_ms now t0) []) = Err e.

Lemma spawn_child_faultless s (Q : result exn _ChildSlot → pool → Prop) :
  started s = true → (∀ x s', started s' = true → Q (Ok x) s') → wp pool_faultless _spawn_child s Q.
Proof.
  intros Hs HQ. apply wp_py_bind, wp_step. intros o _. apply wp_py_bind.
  intros o1 (_ & _ & Hc & Hu & Hf & _). cbn [ask_spawner act]. rewrite Hc. unfold spawner_round. rewrite Hu.
  destruct (p_fork o1) as [p|]; [|done].
  destruct (decide _); cbn [wp]; (apply wp_py_bind; intros o2 (_ & _ & _ & _ & _ & Ha); cbn; rewrite Ha; cbn; by apply HQ).
Qed.

Lemma replace_faultless x s (Q : result exn unit → pool → Prop) :
  started s = true → (∀ s', pool_ready s' → Q (Ok tt) s') → wp pool_faultless (_replace x) s Q.
Proof.
  intros Hs HQ. apply wp_py_bind, wp_step. intros o _. apply wp_py_bind, wp_try_except.
  assert (∀ s, started s = true → wp pool_faultless (slots_remove x ;;;
    attempt _spawn_child (λ fresh,
      match fresh with
      | Err e => if isinstance e [Exception] then step_ (λ _ s, (tt, set_lost (S (lost s)) s)) else raise_ e
      | Ok fresh => slots_append fresh ;;; idle_put fresh
      end)) s Q) as Hrest.
  { intros s1 H1. apply wp_py_bind, wp_step. intros o1 _. apply wp_attempt, spawn_child_faultless.
    { cbn. by destruct (decide _). }
    intros y s2 H2. apply wp_py_bind, wp_step. intros o2 _. apply wp_step. intros o3 _. apply HQ.
    split; [done|]. cbn. by destruct (idle s2). }
  intros o1 (_ & _ & _ & Hu & _). cbn [unlink act]. destruct (decide _); [rewrite Hu|]; by apply Hrest.
Qed.

Lemma pool_complete fb ab (sink : bool) s :
  ordinary fb ab → pool_accepts fb ab → pool_ready s →
  wp pool_faultless (execute fb ab sink) s (λ r s',
    pool_ready s' ∧ ∃ res ws, r = Ok (res, ws) ∧ judged pool_oversize fb ab res).
Proof.
  intros Hord (request & header & Hd & Hp) [Hs Hi]. cbn [execute ForkWarmPoolExecutor].
  apply wp_py_bind, wp_py_bind, wp_step. intros o _. cbn [fst snd]. rewrite Hs. cbn [negb].
  apply wp_py_bind, wp_step. intros o1 _. cbn [fst snd]. apply wp_attempt. intros o2 _. cbn [idle_get act].
  destruct (idle s) as [|x rest]; [done|]. cbn [wp]. apply wp_py_bind. cbn [wp lift].
  change (PDict [("fn", PBytes fb); ("args", PBytes ab)]) with (request_value fb ab). rewrite Hd.
  apply wp_attempt. apply wp_py_bind, wp_try_finally, wp_py_bind. intros o3 (_ & Hc & _). cbn [connect act].
  rewrite Hc. cbn [wp]. intros o4 (Hw & _). cbn [exchange act wp]. apply wp_step. intros o5 _. cbn [fst snd].
  destruct (conversation_complete fb ab o4 request header Hw Hord Hd Hp) as (envelope & Hans & Hconv).
  unfold judged. destruct (framed envelope) as [f|e] eqn:Hf.
  - destruct Hconv as (response & -> & Hl). apply wp_py_bind. cbn [wp lift]. rewrite Hl.
    apply wp_py_bind, wp_step. intros o6 _. cbn [wp lift fst snd].
    destruct (pool_result_answer fb ab envelope (elapsed_ms (o_now o6) (o_now o1)) Hans) as (res & -> & Hres).
    apply wp_py_bind, wp_step. intros o7 _. cbn. split; [split; [done|by destruct rest]|].
    exists res, []. split; [done|]. destruct (verdict fb ab); [left; by destruct Hres as (? & ? & _)|done].
  - destruct Hconv as (m & ->). cbn [isinstance]. apply wp_py_bind, wp_step. intros o6 _.
    apply wp_py_bind, replace_faultless; [done|]. intros s' Hr. cbn. split; [done|].
    eexists _, []. split; [done|]. destruct Hans as [rb now t0 Hv|msg ms Hv]; rewrite Hv; [|done].
    right. split; [done|]. by exists rb, now, t0, e.
Qed.

#[export] Instance pool_executor_ok : ExecutorOk pool pool_env := {
  possible := pool_possible;
  faultless := pool_faultless;
  ready := pool_ready;
  hosts := λ _ _, True;
  accepts := pool_accepts;
  oversize := pool_oversize;
  delivers _ _ := ("", "", []);
  ordinary_hosts _ _ _ := I;
  delivers_output _ ws := ltac:(right; right; left);
  execute_sound fb ab sink _ := pool_sound fb ab sink;
  execute_complete := pool_complete;
}.

End pool_ok.

(** ** Any number of tasks at the same time *)

(** A worker that starts again starts with a new pool. *)
Definition pool_server (s0 : pool) : server pool pool_env (bytes * bytes) pool_reply :=
  mkServer _ _ _ _ (λ task, execute task.1 task.2 true) pool_possible (λ _ _, s0).

Lemma NoDup_omap_talks (T : list token) : NoDup (omap tok_path T) → NoDup (omap talks_to T).
Proof.
  induction T as [|t T IH]; [intros _; apply NoDup_nil_2|]. intros Hn.
  assert (NoDup (omap tok_path T)) as HT by (destruct t; cbn in Hn; [by apply NoDup_cons in Hn as [_ ?]..|done|by apply NoDup_cons in Hn as [_ ?]]).
  destruct t as [x|x| |path]; cbn; try by apply IH. apply NoDup_cons. split; [|by apply IH].
  cbn in Hn. apply NoDup_cons in Hn as [Hx _]. intros Hin. apply Hx.
  eapply (elem_of_omap_path talks_to); [|exact Hin]. by intros [] y; cbn; intros; simplify_eq.
Qed.

(** What the invariant says about the pool alone. *)
Lemma pool_inv_facts n f s T :
  pool_inv n f s T →
  NoDup (sock_path <$> slots s) ∧ NoDup (conns s) ∧ idle s ⊆ slots s ∧
  (∀ x, x ∈ conns s → x ∈ slots s ∧ x ∉ idle s) ∧ length (slots s) + lost s ≤ n.
Proof.
  intros [H1 H2 H3 H4 H5 H6 H7]. pose proof H3 as (Hi & Hd & HT)%NoDup_app.
  assert (∀ x, x ∈ omap talks_to T → x ∈ omap in_pool T) as Hsub.
  { intros x (t & Ht & E)%list_elem_of_omap. apply list_elem_of_omap. exists t. split; [done|]. by destruct t. }
  assert (∀ x, x ∈ omap in_pool T → sock_path x ∈ omap tok_path T) as Hpath.
  { intros x. apply elem_of_omap_path. by intros [] y; cbn; intros; simplify_eq. }
  split; [|split; [|split; [|split]]].
  - rewrite H1, fmap_app. clear -H3. revert H3. rewrite !NoDup_app. intros (Hi & Hd & HT).
    assert (sock_path <$> omap in_pool T ⊆ omap tok_path T) as Hsub.
    { intros p (x & -> & Hx)%list_elem_of_fmap. eapply (elem_of_omap_path in_pool); [|exact Hx].
      by intros [] y; cbn; intros; simplify_eq. }
    split; [done|]. split; [set_solver|]. clear -HT. induction T as [|t T IH]; [apply NoDup_nil_2|].
    destruct t as [x|x| |path]; cbn in *; try (apply NoDup_cons in HT as [Hn HT]); try (by apply IH);
      (apply NoDup_cons; split; [|by apply IH]); intros (y & Ey & Hy)%list_elem_of_fmap; apply Hn; rewrite Ey;
      (eapply (elem_of_omap_path in_pool); [|exact Hy]; by intros [] z; cbn; intros; simplify_eq).
  - rewrite H2. by apply NoDup_omap_talks.
  - intros x Hx. rewrite H1. set_solver.
  - intros x. rewrite H2. intros Hx. split; [rewrite H1; set_solver|]. intros Hidle.
    apply (Hd (sock_path x)); [by apply list_elem_of_fmap_2|by apply Hpath, Hsub].
  - lia.
Qed.

(** A task ends without a child, and what it reports is true. *)
Lemma pool_task_owns `{PL : !PickleLaws} n f fb ab :
  holds pool_possible (pool_inv n f) [] (execute fb ab true) (λ r H, H = [] ∧ honest ("", "", []) fb ab r).
Proof.
  pose proof (holds_yields _ _ _ _ _ _ (pool_sound fb ab true) (own_execute n f fb ab true)) as Hown.
  eapply holds_mono; [|exact Hown]. intros r H [Hs HH]. by split.
Qed.

(** C10: The warm pool neither loses nor shares children.  Start a pool with any faults of
    the system; if [start] returns, let any number of tasks run [execute] in any
    interleaving, with any failure of connections, children and spawner.  Then no two
    children have the same socket; a child that a task is connected to belongs to the
    pool, is not idle, and no other task is connected to it; the pool has at most as many
    children as asked for, and it is smaller only by the respawns that failed; whenever no
    task runs, every child is idle; and the worker itself has forked exactly once, for the
    spawner.  Every success that a task reports is what its function returned. *)
Theorem pool_is_conserved `{PL : !PickleLaws} os s0 c :
  within pool_possible os start __init__ →
  run os start __init__ = Done (Ok tt) s0 →
  rtc (cstep (pool_server s0)) (mkConfig s0 [] []) c →
  let s := c_state c in
  NoDup (sock_path <$> slots s) ∧ NoDup (conns s) ∧ idle s ⊆ slots s ∧
  (∀ x, x ∈ conns s → x ∈ slots s ∧ x ∉ idle s) ∧
  length (slots s) + lost s ≤ Z.to_nat (size config) ∧ forks s = 1 ∧
  (c_threads c = [] → slots s ≡ₚ idle s ∧ conns s = [] ∧ length (slots s) + lost s = Z.to_nat (size config)) ∧
  (∀ fb ab res ws, ((fb, ab), Ok (res, ws)) ∈ c_replies c → success res = true →
     verdict fb ab = Some (result_bytes res)).
Proof.
  intros Hwithin Hrun Hsteps s.
  destruct (wp_within _ _ _ _ _ Hwithin start_wp) as (r & s' & Hrun' & Hinv).
  rewrite Hrun in Hrun'. injection Hrun' as <- <-. specialize (Hinv eq_refl).
  destruct (config_owned_reachable pool_possible (pool_inv (Z.to_nat (size config)) 1) (pool_server s0)
    (λ task, honest ("", "", []) task.1 task.2) (pool_inv_perm _ _)) with (s := s0) (c := c) as [(Hs & Hall & Hi) Hr]; [done| |done|done|done|].
  { intros [fb ab]. cbn [handler pool_server fst snd]. exact (pool_task_owns _ _ fb ab). }
  destruct (pool_inv_facts _ _ _ _ Hi) as (F1 & F2 & F3 & F4 & F5).
  do 5 (split; [done|]). split; [apply (pi_forks _ _ _ _ Hi)|]. split.
  - intros Hnone. fold s in Hi. rewrite Hnone in Hall. apply Forall2_nil_inv_r in Hall as ->.
    destruct Hi as [H1 H2 H3 H4 H5 H6 H7]. cbn in *. rewrite app_nil_r in H1.
    split; [done|]. split; [by apply Permutation_nil_r in H2|lia].
  - intros fb ab res ws Hin Hok. rewrite Forall_forall in Hr. by destruct (proj2 (Hr _ Hin) Hok).
Qed.

End pool.
