(* ===== verification/Strategies.v ===== *)
(** * Strategies: choosing an executor, and how the three compare

    [make_executor] of src/worker/executor.py, the stubs of src/worker/snapshot.py, and
    that the three cold-start strategies compute the same. *)

From stdpp Require Import strings gmap sorting prelude pretty.
From S2P Require Import Prelude Types Prog Python Framing LogStream Serialization Executor Tokens WarmPool.

Open Scope py_scope.

(** ** [make_executor] *)

Definition lower_char (c : Ascii.ascii) : Ascii.ascii :=
  let n := Ascii.nat_of_ascii c in
  if (Nat.leb 65 n && Nat.leb n 90)%bool then Ascii.ascii_of_nat (n + 32) else c.

(** The bytes of the Kelvin sign, whose lower case is [k]. *)
Definition kelvin (a b c : Ascii.ascii) : bool :=
  Nat.eqb (Ascii.nat_of_ascii a) 226 && Nat.eqb (Ascii.nat_of_ascii b) 132 &&
  Nat.eqb (Ascii.nat_of_ascii c) 170.

(** [s.lower()] on the characters whose lower case is an ASCII letter. *)
Fixpoint lower (s : string) : string :=
  match s with
  | "" => ""
  | String a s1 =>
      match s1 with
      | String b (String c s3) =>
          if kelvin a b c then String (Ascii.ascii_of_nat 107) (lower s3) else String (lower_char a) (lower s1)
      | _ => String (lower_char a) (lower s1)
      end
  end.

Definition comma : Ascii.ascii := Ascii.ascii_of_nat 44.

(** [s.split(',')]; [cur] is the piece so far. *)
Fixpoint split_comma (cur s : string) : list string :=
  match s with
  | "" => [cur]
  | String c s =>
      if Ascii.eqb c comma then cur :: split_comma "" s else split_comma (cur +:+ String c "") s
  end.

Inductive executor : Type :=
| Inproc
| Naive
| Fork (config : WarmPoolConfig).

Section make_executor.
(** The environment variables, the name of a new temporary directory, and how the
    interpreter prints a string and a float that it has parsed from one ([None] if
    [float] raises). *)
Variables (environ : string → option string) (tmpdir : string).
Variables (repr : string → string) (float : string → option string).

Definition getenv (k v0 : string) : string := default v0 (environ k).

Definition float_of (s : string) : result exn string :=
  match float s with
  | Some f => Ok f
  | None => Err (mkExn ValueError ("could not convert string to float: " +:+ repr s))
  end.

Definition make_executor (strategy : string) (capacity : Z) : result exn executor :=
  let strategy := lower strategy in
  if bool_decide (strategy ∈ [""; "inproc"]) then Ok Inproc
  else if String.eqb strategy "naive" then Ok Naive
  else if String.eqb strategy "fork"
  then
    let preimport := filter (λ m, m ≠ "") (split_comma "" (getenv "MINIMODAL_PREIMPORT" "")) in
    let! task_timeout_s := float_of (getenv "MINIMODAL_TASK_TIMEOUT_S" "60") in
    let! acquire_timeout_s := float_of (getenv "MINIMODAL_ACQUIRE_TIMEOUT_S" "30") in
    Ok (Fork (mkPoolConfig capacity preimport tmpdir acquire_timeout_s))
  else if String.eqb strategy "criu"
  then Err (mkExn NotImplementedError "CRIU is Linux-only and stubbed in v1 (see worker/snapshot.py)")
  else Err (mkExn ValueError ("unknown MINIMODAL_COLD_START=" +:+ repr strategy)).

End make_executor.

(** ** src/worker/snapshot.py *)

(** What running [criu --version] does: [subprocess.run] returns or raises. *)
Definition criu_available (criu : result exn unit) : result exn bool :=
  match criu with
  | Ok _ => Ok true
  | Err e =>
      if isinstance e [FileNotFoundError; CalledProcessError; TimeoutExpired] then Ok false else Err e
  end.

Definition checkpoint_process (criu : result exn unit) : result exn unit :=
  let! available := criu_available criu in
  if negb available then Err (mkExn CRIUNotAvailable "criu binary not on PATH")
  else Err (mkExn NotImplementedError "checkpoint_process stubbed in Phase 1").

Definition restore_process (criu : result exn unit) : result exn Z :=
  let! available := criu_available criu in
  if negb available then Err (mkExn CRIUNotAvailable "criu binary not on PATH")
  else Err (mkExn NotImplementedError "restore_process stubbed in Phase 1").

(** ** The three strategies compute the same *)

Section strategies.
Context `{PK : !Pickle} `{PL : !PickleLaws} `{UC : !UserCode} {O : Type} `{RT : !Runtime O}.
Variable config : WarmPoolConfig.

(** What a result says about the call. *)
Definition told (res : ExecutionResult) : option bytes :=
  if success res then Some (result_bytes res) else None.

(** It says what the function made of the task, unless that does not fit into a frame. *)
Definition tells (over : bytes → bytes → Prop) (fb ab : bytes) (res : ExecutionResult) : Prop :=
  told res = verdict fb ab ∨ told res = None ∧ over fb ab.

Lemma judged_tells over fb ab res : judged over fb ab res → tells over fb ab res.
Proof.
  unfold judged, tells, told. destruct (verdict fb ab) as [rb|]; [|intros ->; by left].
  intros [[-> ->]|[-> H]]; auto.
Qed.

(** A run of an executor that is ready, when nothing fails. *)
Lemma execute_tells {E O'} `{X : !Executor E O'} `{XO : !ExecutorOk E O'} fb ab sink os s :
  ordinary fb ab → accepts fb ab → ready s → (∀ n s, faultless (os n) s) →
  ∃ res ws s', run os (execute fb ab sink) s = Done (Ok (res, ws)) s' ∧ tells oversize fb ab res ∧ ready s'.
Proof.
  intros Hord Hacc Hr Hos.
  destruct (wp_run _ _ _ _ os Hos (execute_complete fb ab sink s Hord Hacc Hr))
    as (r & s' & Hrun & Hr' & res & ws & -> & Hj).
  exists res, ws, s'. split; [done|]. split; [by apply judged_tells|done].
Qed.


End strategies.
