(* ===== verification/Worker.v ===== *)
(** * Worker: accepting, running and reporting tasks

    src/worker/worker.py.  The servicer, the queue of its task pool and the state of its
    executor are one state.  ExecuteTask handlers, the threads of the task pool and the
    shutdown of the pool are programs of atomic steps that run at the same time.  What a
    thread does with its own log streamer is private; the calls that the worker makes are
    recorded, and what they return is the environment's. *)

From stdpp Require Import strings gmap sorting prelude pretty.
From Stdlib Require Import SpecFloat.
From S2P Require Import Prelude Types Prog Python Framing LogStream Serialization Executor Tokens.

Open Scope py_scope.

(** ** Data *)

(** [exec_state] is the executor's, [_active] the servicer's counter, [work_queue] the
    tasks submitted to the pool that no thread has taken, [busy] how many threads of the
    pool are at work, [pool_down] whether it was shut down.  The rest is history: the tasks
    submitted, those that the shutdown cancelled, how many were refused after it, the
    ReportTaskResult calls, and the chunks of log lines sent. *)
Record worker (E : Type) : Type := mkWorker {
  exec_state : E;
  _active : Z;
  work_queue : list pb.ExecuteTaskRequest;
  busy : nat;
  pool_down : bool;
  submitted_tasks : list pb.ExecuteTaskRequest;
  cancelled : list pb.ExecuteTaskRequest;
  refused : nat;
  reports : list pb.ReportTaskResultRequest;
  shipped : list pb.TaskLogChunk;
}.

Arguments mkWorker {E} _ _ _ _ _ _ _ _ _ _.
Arguments exec_state {E} _.
Arguments _active {E} _.
Arguments work_queue {E} _.
Arguments busy {E} _.
Arguments pool_down {E} _.
Arguments submitted_tasks {E} _.
Arguments cancelled {E} _.
Arguments refused {E} _.
Arguments reports {E} _.
Arguments shipped {E} _.

Section setters.
Context {E : Type}.

Definition set_exec (x : E) (s : worker E) : worker E :=
  mkWorker x (_active s) (work_queue s) (busy s) (pool_down s) (submitted_tasks s) (cancelled s)
    (refused s) (reports s) (shipped s).

Definition set_active (x : Z) (s : worker E) : worker E :=
  mkWorker (exec_state s) x (work_queue s) (busy s) (pool_down s) (submitted_tasks s) (cancelled s)
    (refused s) (reports s) (shipped s).

Definition set_work (q : list pb.ExecuteTaskRequest) (b : nat) (s : worker E) : worker E :=
  mkWorker (exec_state s) (_active s) q b (pool_down s) (submitted_tasks s) (cancelled s)
    (refused s) (reports s) (shipped s).

Definition set_submitted (x : list pb.ExecuteTaskRequest) (s : worker E) : worker E :=
  mkWorker (exec_state s) (_active s) (work_queue s) (busy s) (pool_down s) x (cancelled s)
    (refused s) (reports s) (shipped s).

(** Only the shutdown cancels. *)
Definition set_cancelled (x : list pb.ExecuteTaskRequest) (s : worker E) : worker E :=
  mkWorker (exec_state s) (_active s) (work_queue s) (busy s) true (submitted_tasks s) x
    (refused s) (reports s) (shipped s).

Definition set_refused (x : nat) (s : worker E) : worker E :=
  mkWorker (exec_state s) (_active s) (work_queue s) (busy s) (pool_down s) (submitted_tasks s) (cancelled s)
    x (reports s) (shipped s).

Definition set_reports (x : list pb.ReportTaskResultRequest) (s : worker E) : worker E :=
  mkWorker (exec_state s) (_active s) (work_queue s) (busy s) (pool_down s) (submitted_tasks s) (cancelled s)
    (refused s) x (shipped s).

Definition set_shipped (x : list pb.TaskLogChunk) (s : worker E) : worker E :=
  mkWorker (exec_state s) (_active s) (work_queue s) (busy s) (pool_down s) (submitted_tasks s) (cancelled s)
    (refused s) (reports s) x.

End setters.

(** What the environment decides for one step: for the executor, the clock in
    milliseconds (for the lines of the log, by number), what a call to the orchestrator
    raises, and how the log stream proceeds. *)
Record worker_env (O : Type) : Type := mkWorkerEnv {
  w_exec : O;
  w_clock : nat → Z;
  w_rpc : option exn;
  w_stream : nat → Streamer.stream_env;
  w_ahead : nat;
}.

Arguments mkWorkerEnv {O} _ _ _ _ _.
Arguments w_exec {O} _.
Arguments w_clock {O} _.
Arguments w_rpc {O} _.
Arguments w_stream {O} _.
Arguments w_ahead {O} _.

(** [int64] fields of messages. *)
Definition fits_int64 (z : Z) : bool := ((minInt64 <=? z) && (z <=? maxInt64))%Z.

(** ** The servicer *)

Section servicer.
Context {E O : Type} `{X : !Executor E O}.
Variable worker_id : string.
Variable max_workers : nat.

Abbreviation work := (py (worker E) (worker_env O)).

Definition active_tasks : work Z := step_ (λ _ s, (_active s, s)).

Definition _inc : work unit := step_ (λ _ s, (tt, set_active (_active s + 1) s)).

Definition _dec : work unit := step_ (λ _ s, (tt, set_active (_active s - 1) s)).

(** [self._task_pool.submit(self._run_task, request)]. *)
Definition submit (req : pb.ExecuteTaskRequest) : work unit :=
  act (λ _ s,
    if pool_down s
    then Next (Err (mkExn RuntimeError "cannot schedule new futures after shutdown"))
           (set_refused (S (refused s)) s)
    else Next (Ok tt) (set_submitted (submitted_tasks s ++ [req])
                         (set_work (work_queue s ++ [req]) (busy s) s))).

Definition ExecuteTask (req : pb.ExecuteTaskRequest) : work pb.ExecuteTaskResponse :=
  _inc ;;;
  submit req ;;;
  pure (pb.mkExecuteResponse true "").

(** The writes of the function reach the streamer through its [sink]. *)
Definition stream_writes (req : pb.ExecuteTaskRequest) (ws : list (string * bool)) : work Streamer.t :=
  step_ (λ o s,
    (Streamer.sink_all (w_clock o) ws (Streamer.__init__ (pb.ex_job_id req) worker_id), s)).

(** The chunks that the streamer's thread sends. *)
Definition sent_chunks (o : worker_env O) (st : Streamer.t) : list pb.TaskLogChunk :=
  let sent := Streamer.stream_of (Streamer.items st) in
  match run (w_stream o) (Streamer._run (S (length (Streamer.items st))) st)
          (Streamer.mkQueue (take (w_ahead o) sent) (drop (w_ahead o) sent) []) with
  | Done _ q => Streamer.yielded q
  | _ => []
  end.

(** [streamer.close()]: the lines left go out, and the thread ends.  On a streamer that is
    closed already nothing is left. *)
Definition close_streamer (st : Streamer.t) : work Streamer.t :=
  step_ (λ o s,
    let st' := Streamer.close (w_clock o) st in
    (st', if (Streamer.started st' && negb (Streamer.closed st))%bool
          then set_shipped (shipped s ++ sent_chunks o st') s else s)).

Definition log_lines (ts : Z) (is_stderr : bool) (text : string) : list pb.LogLine :=
  (λ line, pb.mkLogLine line is_stderr ts) <$> splitlines text.

Definition _tail_lines (res : ExecutionResult) : work (list pb.LogLine) :=
  step_ (λ o s, (log_lines (w_clock o 0) false (stdout res) ++ log_lines (w_clock o 0) true (stderr res), s)).

(** Building the request checks the range of its integers. *)
Definition report_message (job_id : string) (success : bool) (result_bytes : bytes) (error : string)
    (cold_start_ms execution_ms : Z) (tail_lines : list pb.LogLine) : result exn pb.ReportTaskResultRequest :=
  if (fits_int64 cold_start_ms && fits_int64 execution_ms)%bool
  then Ok (pb.mkReport job_id worker_id success result_bytes error cold_start_ms execution_ms tail_lines)
  else Err (mkExn ValueError "Value out of range").

Definition stub_ReportTaskResult (msg : pb.ReportTaskResultRequest) : work unit :=
  act (λ o s,
    Next (match w_rpc o with None => Ok tt | Some e => Err e end) (set_reports (reports s ++ [msg]) s)).

Definition _report (msg : result exn pb.ReportTaskResultRequest) : work unit :=
  try_except (let* m := lift msg in stub_ReportTaskResult m)
    (λ e, match is_RpcError e with Some _ => Some (pure tt) | None => None end).

(** The [except Exception] clause of [_run_task]. *)
Definition internal_error (req : pb.ExecuteTaskRequest) (st : Streamer.t) (e : exn) : work unit :=
  close_streamer st ;;;
  _report (report_message (pb.ex_job_id req) false [] ("worker internal error: " +:+ exn_msg e) 0 0 []).

Definition on_exec {A} (p : py E O A) : work A := zoom exec_state set_exec w_exec p.

Definition _run_task (req : pb.ExecuteTaskRequest) : work unit :=
  try_finally
    (attempt (on_exec (execute (pb.ex_function_bytes req) (pb.ex_args_bytes req) true)) (λ r,
       match r with
       | Ok (res, ws) =>
           let* st := stream_writes req ws in
           let* st := close_streamer st in
           try_except
             (let* tail_lines := _tail_lines res in
              _report (report_message (pb.ex_job_id req) (success res) (result_bytes res) (error_ res)
                         (cold_start_ms res) (execution_ms res) tail_lines))
             (catching [Exception] (internal_error req st))
       | Err e =>
           if isinstance e [Exception]
           then internal_error req (Streamer.__init__ (pb.ex_job_id req) worker_id) e
           else raise_ e
       end))
    _dec.

(** ** The task pool

    [futures.ThreadPoolExecutor(max_workers=capacity)]: at most that many threads take
    tasks from the queue; the exception of a task stays in its future. *)

Definition take_work : work pb.ExecuteTaskRequest :=
  act (λ _ s,
    match work_queue s with
    | req :: rest => if Nat.ltb (busy s) max_workers then Next (Ok req) (set_work rest (S (busy s)) s) else Block
    | [] => Block
    end).

Definition release : work unit := step_ (λ _ s, (tt, set_work (work_queue s) (pred (busy s)) s)).

Definition task_thread : work unit :=
  let* req := take_work in
  attempt (_run_task req) (λ _, release).

(** [task_pool.shutdown(wait=True, cancel_futures=True)]. *)
Definition pool_shutdown : work unit :=
  step_ (λ _ s, (tt, set_cancelled (cancelled s ++ work_queue s) (set_work [] (busy s) s))) ;;;
  act (λ _ s, if Nat.eqb (busy s) 0 then Next (Ok tt) s else Block).

End servicer.

(** ** What becomes of the tasks *)

Section tasks.
Context `{PK : !Pickle} `{UC : !UserCode} {E O : Type} `{X : !Executor E O} `{XO : !ExecutorOk E O}.
Variable worker_id : string.
Variable max_workers : nat.

Abbreviation work := (py (worker E) (worker_env O)).

Definition hosted (t : pb.ExecuteTaskRequest) : Prop :=
  hosts (pb.ex_function_bytes t) (pb.ex_args_bytes t).

(** Output captured at completion, as the report carries it. *)
Definition tail_of (shown : string * string) : list (string * bool) :=
  ((λ l, (l, false)) <$> splitlines shown.1) ++ ((λ l, (l, true)) <$> splitlines shown.2).

(** The report is about this task, and a success is what the function of the task
    returned, with the output that the executor captured. *)
Definition faithful (t : pb.ExecuteTaskRequest) (rep : pb.ReportTaskResultRequest) : Prop :=
  pb.rep_job_id rep = pb.ex_job_id t ∧ pb.rep_worker_id rep = worker_id ∧
  (pb.rep_success rep = true →
   verdict (pb.ex_function_bytes t) (pb.ex_args_bytes t) = Some (pb.rep_result_bytes rep) ∧
   (λ l, (pb.line l, pb.is_stderr l)) <$> pb.rep_tail_lines rep =
     tail_of (delivers true (written (pb.ex_function_bytes t) (pb.ex_args_bytes t))).1).

(** The output that goes through the sink, and a line of it. *)
Definition sunk (t : pb.ExecuteTaskRequest) : list (string * bool) :=
  (delivers true (written (pb.ex_function_bytes t) (pb.ex_args_bytes t))).2.

Definition shipped_line (t : pb.ExecuteTaskRequest) (l : pb.LogLine) : Prop :=
  pb.line l ∈ LineBuffer.text_lines (Streamer.text_of (pb.is_stderr l) (sunk t)).

(** The chunk is for one of the tasks and carries lines of its output. *)
Definition true_chunk (ts : list pb.ExecuteTaskRequest) (c : pb.TaskLogChunk) : Prop :=
  ∃ t, t ∈ ts ∧ Streamer.chunk_ok (pb.ex_job_id t) worker_id c ∧ Forall (shipped_line t) (pb.chunk_lines c).

(** A chunk that the streamer's thread sends while the function is running, or after the
    function has ended its thread: [ws] is written so far.  ([shipped] has the chunks of
    the whole stream when it is closed.) *)
Definition early_chunk (t : pb.ExecuteTaskRequest) (c : pb.TaskLogChunk) : Prop :=
  ∃ o ws rest, sunk t = ws ++ rest ∧
    c ∈ sent_chunks (O := O) o (Streamer.sink_all (w_clock o) ws (Streamer.__init__ (pb.ex_job_id t) worker_id)).

(** The streamer of the task, which is closed, or has the output of the function, or
    nothing. *)
Definition streams (t : pb.ExecuteTaskRequest) (st : Streamer.t) : Prop :=
  Streamer.job_id st = pb.ex_job_id t ∧ Streamer.worker_id st = worker_id ∧
  (Streamer.closed st = true ∨
   ∃ ws, Streamer.cut_state ws (pb.ex_job_id t) worker_id st ∧ (ws = sunk t ∨ ws = [])).

(** A handler has counted a task that it has not submitted yet; a thread runs a task, has
    reported it, or has uncounted it. *)
Inductive task_token : Type :=
| Submitting
| Running (t : pb.ExecuteTaskRequest)
| Reported
| Ending.

Definition running (k : task_token) : option pb.ExecuteTaskRequest :=
  match k with Running t => Some t | _ => None end.

Definition counted (k : task_token) : nat := match k with Ending => 0 | _ => 1 end.

Definition at_work (k : task_token) : nat := match k with Submitting => 0 | _ => 1 end.

Record worker_inv (s : worker E) (T : list task_token) : Prop := {
  wi_tasks : ∃ fin, submitted_tasks s ≡ₚ work_queue s ++ cancelled s ++ omap running T ++ fin ∧
    Forall2 faithful fin (reports s);
  wi_active : _active s =
    Z.of_nat (length (work_queue s) + length (cancelled s) + refused s + sum_list_with counted T);
  wi_busy : busy s = sum_list_with at_work T;
  wi_room : busy s ≤ max_workers;
  wi_hosts : Forall hosted (submitted_tasks s);
  wi_shipped : Forall (true_chunk (submitted_tasks s)) (shipped s);
}.

(** Calls to the orchestrator fail with [RpcError]s. *)
Definition worker_ok (o : worker_env O) (s : worker E) : Prop :=
  possible (w_exec o) (exec_state s) ∧ ∀ e, w_rpc o = Some e → is_Some (is_RpcError e).

Abbreviation Holds := (holds worker_ok worker_inv).

Lemma worker_inv_perm s T T' : T ≡ₚ T' → worker_inv s T → worker_inv s T'.
Proof.
  intros HT [(fin & H1 & H1') H2 H3 H4 H5 H6]. split; try done; rewrite <- ?HT; try done.
  exists fin. by rewrite <- HT.
Qed.

(** The executor works on its own part of the state. *)
Lemma own_exec {A} (p : py E O A) H Q :
  yields possible p Q → Holds H (on_exec p) (λ r H', H' = H ∧ Q r).
Proof.
  unfold on_exec. induction p as [a|B step k IH|]; cbn; [done| |done].
  intros Hy o s F [Ho _] Hi. specialize (Hy _ _ Ho). destruct (step (w_exec o) (exec_state s)) as [b x| |]; [|done|done].
  exists H. split; [|by apply IH]. destruct Hi. by split.
Qed.

(** A step that only changes the shipped chunks. *)
Lemma sent_chunks_ok o st :
  Forall (λ c, Streamer.chunk_ok (Streamer.job_id st) (Streamer.worker_id st) c ∧
    pb.chunk_lines c ⊆ Streamer.items st) (sent_chunks (O := O) o st).
Proof.
  unfold sent_chunks. set (sent := Streamer.stream_of _).
  destruct (wp_run (Streamer.stream_ok false) _ _ _ (w_stream o) (λ _ _ H, match Bool.diff_false_true H with end)
    (Streamer.thread_run_spec false (S (length (Streamer.items st))) st
       (Streamer.mkQueue (take (w_ahead o) sent) (drop (w_ahead o) sent) []) (take_drop _ _) (Nat.lt_succ_diag_r _)))
    as (r & q & -> & _ & cs & rest & -> & -> & Hcs & _).
  apply Forall_forall. intros c Hc. rewrite Forall_forall in Hcs. split; [by apply Hcs|].
  intros l Hl. apply elem_of_app. left. unfold Streamer.lines_of. apply list_elem_of_join.
  exists (pb.chunk_lines c). split; [done|]. by apply list_elem_of_fmap_2.
Qed.

Lemma early_chunk_true t ts c : t ∈ ts → early_chunk t c → true_chunk ts c.
Proof.
  intros Ht (o & ws & rest & Hws & Hc). exists t. split; [done|].
  pose proof (Streamer.sink_all_cut (w_clock o) ws (pb.ex_job_id t) worker_id) as [Hj Hw _ _].
  pose proof (sent_chunks_ok o (Streamer.sink_all (w_clock o) ws (Streamer.__init__ (pb.ex_job_id t) worker_id))) as Hok.
  rewrite Forall_forall in Hok. destruct (Hok _ Hc) as [Hchunk Hin]. rewrite Hj, Hw in Hchunk. split; [done|].
  pose proof (Streamer.early_lines (w_clock o) ws rest (pb.ex_job_id t) worker_id) as Hl.
  unfold shipped_line. rewrite Hws. rewrite Forall_forall in Hl |- *. auto.
Qed.

(** The lines of a streamer that was just closed. *)
Lemma closed_lines t clock st :
  streams t st → Streamer.closed st = false → Forall (shipped_line t) (Streamer.items (Streamer.close clock st)).
Proof.
  intros (_ & _ & [Hc|(ws & Hcut & Hws)]) Hopen; [congruence|].
  destruct (Streamer.close_cut clock _ _ _ _ Hcut) as (_ & _ & Hl & _). apply Forall_forall. intros l Hin.
  assert (pb.line l ∈ Streamer.stream_lines (pb.is_stderr l) (Streamer.close clock st)) as Hl'.
  { apply list_elem_of_fmap_2, list_elem_of_filter. done. }
  rewrite Hl in Hl'. destruct Hws as [->| ->]; [exact Hl'|].
  change (Streamer.text_of (pb.is_stderr l) []) with "" in Hl'.
  rewrite (proj2 (Streamer.text_lines_nil "") eq_refl) in Hl'. by apply not_elem_of_nil in Hl'.
Qed.

Lemma streams_close t clock st : streams t st → streams t (Streamer.close clock st).
Proof.
  intros (Hj & Hw & Hst). destruct (Streamer.close_ids clock st) as [Hj' Hw'].
  split; [congruence|]. split; [congruence|]. destruct Hst as [Hc|(ws & Hcut & Hws)].
  - left. by apply Streamer.close_closed.
  - destruct (Streamer.close_again clock _ _ _ _ Hcut) as [|Hcut']; [by left|right; by exists ws].
Qed.

Lemma streams_init t : streams t (Streamer.__init__ (pb.ex_job_id t) worker_id).
Proof.
  split; [done|]. split; [done|]. right. exists []. split; [apply (Streamer.sink_all_cut (λ _, 0%Z) [])|by right].
Qed.

Lemma own_close_streamer t st Q :
  streams t st → (∀ st', streams t st' → Q (Ok st') [Running t]) → Holds [Running t] (close_streamer st) Q.
Proof.
  intros Hst HQ. apply holds_step. intros o s F _ Hi. exists [Running t]. cbn [fst snd].
  pose proof (streams_close t (w_clock o) st Hst) as Hst'.
  split; [|by apply HQ]. destruct (Streamer.closed st) eqn:Hc; [by rewrite andb_false_r|].
  destruct (_ && _)%bool; [|done]. destruct Hi as [H1 H2 H3 H4 H5 H6]. split; try done.
  cbn. apply Forall_app. split; [done|]. eapply Forall_impl; [apply sent_chunks_ok|]. intros c [Hc1 Hc2]. exists t.
  destruct Hst' as (Hj & Hw & _). rewrite Hj, Hw in Hc1. split; [|split; [done|]].
  - destruct H1 as (fin & -> & _). cbn. set_solver.
  - pose proof (closed_lines t (w_clock o) st Hst Hc) as Hl. rewrite Forall_forall in Hl |- *. auto.
Qed.

(** The call is made once, whatever becomes of it. *)
Lemma own_report t rep Q :
  faithful t rep → Q (Ok tt) [Reported] → Holds [Running t] (_report (Ok rep)) Q.
Proof.
  intros Hf HQ. unfold _report. apply holds_try_except, holds_py_bind. cbn [holds lift].
  intros o s F [_ Hrpc] Hi. cbn [stub_ReportTaskResult act]. exists [Reported]. split.
  - destruct Hi as [(fin & H1 & H1') H2 H3 H4 H5 H6]. split; try done.
    exists (fin ++ [t]). split; [|cbn; by apply Forall2_app; [|constructor]].
    cbn in H1 |- *. rewrite H1. solve_Permutation.
  - cbn [holds]. destruct (w_rpc o) as [e|]; [|done].
    destruct (Hrpc e eq_refl) as [code ->]. exact HQ.
Qed.

Lemma own_report_message t ok rb err cold exec tails Q :
  (∀ rep, rep = pb.mkReport (pb.ex_job_id t) worker_id ok rb err cold exec tails → faithful t rep) →
  Q (Ok tt) [Reported] → (∀ m, Q (Err (mkExn ValueError m)) [Running t]) →
  Holds [Running t] (_report (report_message worker_id (pb.ex_job_id t) ok rb err cold exec tails)) Q.
Proof.
  intros Hf HQ HE. unfold report_message. destruct (_ && _); [by apply own_report; [apply Hf|]|]. apply HE.
Qed.

Lemma own_internal_error t st e Q :
  streams t st → Q (Ok tt) [Reported] → Holds [Running t] (internal_error worker_id t st e) Q.
Proof.
  intros Hst HQ. apply holds_py_bind, (own_close_streamer t); [done|]. intros _ _.
  apply own_report; [|done]. by split.
Qed.

(** The second half of [_run_task], with the result of the executor. *)
Lemma own_finish t res ws (Q : result exn unit → list task_token → Prop) :
  honest (delivers true (written (pb.ex_function_bytes t) (pb.ex_args_bytes t)))
    (pb.ex_function_bytes t) (pb.ex_args_bytes t) (Ok (res, ws)) →
  Q (Ok tt) [Reported] →
  Holds [Running t]
    (let* st := stream_writes worker_id t ws in
     let* st := close_streamer st in
     try_except
       (let* tail_lines := _tail_lines res in
        _report (report_message worker_id (pb.ex_job_id t) (success res) (result_bytes res) (error_ res)
                   (cold_start_ms res) (execution_ms res) tail_lines))
       (catching [Exception] (internal_error worker_id t st))) Q.
Proof.
  intros Hres HQ. apply holds_py_bind, holds_look. intros o s F _ _.
  pose proof (Streamer.sink_all_cut (w_clock o) ws (pb.ex_job_id t) worker_id) as Hcut.
  apply holds_py_bind, (own_close_streamer t).
  { split; [apply Hcut|]. split; [apply Hcut|]. right. exists ws. split; [done|]. left. apply Hres. }
  intros st Hst.
  apply holds_try_except, holds_py_bind, holds_look. intros o1 s1 F1 _ _.
  apply own_report_message; [|exact HQ|].
  - intros rep ->. split; [done|]. split; [done|]. cbn. intros Hok. destruct (proj2 Hres Hok) as [-> Hshown].
    split; [done|]. rewrite <- Hshown. unfold tail_of, log_lines. cbn [fst snd].
    rewrite fmap_app, <- !list_fmap_compose. done.
  - intros m. cbn. by apply own_internal_error.
Qed.

Lemma own_run_task t (Q : result exn unit → list task_token → Prop) :
  hosted t → (∀ r, Q r [Ending]) → Holds [Running t] (_run_task worker_id t) Q.
Proof.
  intros Ht HQ. apply holds_try_finally.
  assert (∀ r : result exn unit, Holds [Reported] _dec (λ r' H, Q (match r' with Ok _ => r | Err e => Err e end) H)) as Hdec.
  { intros r. apply holds_step. intros o s F _ Hi. exists [Ending]. split; [|apply HQ].
    destruct Hi as [H1 H2 H3 H4 H5 H6]. split; try done. cbn in H2 |- *. rewrite H2. lia. }
  apply holds_attempt. eapply holds_mono; [|apply own_exec, (execute_sound _ _ true), Ht].
  intros r H [-> Hr]. destruct r as [[res ws]|e].
  - by apply own_finish; [|apply Hdec].
  - rewrite Hr. by apply own_internal_error; [apply streams_init|apply Hdec].
Qed.

Lemma own_task_thread (Q : result exn unit → list task_token → Prop) :
  (∀ r, Q r []) → Holds [] (task_thread worker_id max_workers) Q.
Proof.
  intros HQ. apply holds_py_bind. intros o s F _ Hi. cbn [take_work act].
  destruct (work_queue s) as [|t rest] eqn:Hq; [done|].
  destruct (Nat.ltb_spec (busy s) max_workers) as [Hlt|]; [|done]. exists [Running t].
  destruct Hi as [(fin & H1 & H1') H2 H3 H4 H5 H6]. rewrite Hq in H1, H2. cbn in H1, H2, H3.
  assert (hosted t) as Ht by (rewrite Forall_forall in H5; apply H5; rewrite H1; by left). split.
  - split; try done; cbn; [|rewrite H2; lia|by rewrite H3].
    exists fin. split; [|done]. rewrite H1. solve_Permutation.
  - cbn [holds]. apply holds_attempt, own_run_task; [done|]. intros r. apply holds_step. intros o1 s1 F1 _ Hi.
    exists []. split; [|apply HQ]. clear -Hi. destruct Hi as [H1 H2 H3 H4 H5 H6].
    cbn in *. split; try done; cbn; [by rewrite H3|lia].
Qed.

Lemma own_ExecuteTask t (Q : result exn pb.ExecuteTaskResponse → list task_token → Prop) :
  hosted t → (∀ r, Q r []) → Holds [] (ExecuteTask t) Q.
Proof.
  intros Ht HQ. apply holds_py_bind, holds_step. intros o s F _ Hi. exists [Submitting]. split.
  { destruct Hi as [H1 H2 H3 H4 H5 H6]. split; try done. cbn in H2 |- *. rewrite H2. lia. }
  apply holds_py_bind. intros o1 s1 F1 _ Hi1. cbn [submit act fst snd].
  destruct Hi1 as [(fin & H1 & H1') H2 H3 H4 H5 H6]. cbn in H1, H2, H3.
  destruct (pool_down s1); exists []; (split; [|apply HQ]); split; try done; cbn.
  - by exists fin.
  - rewrite H2. lia.
  - exists fin. split; [|done]. rewrite H1. solve_Permutation.
  - rewrite H2, length_app. cbn. lia.
  - apply Forall_app. by split; [|apply Forall_singleton].
  - eapply Forall_impl; [exact H6|]. intros c (t' & ? & ? & ?). exists t'. split; [set_solver|done].
Qed.

Lemma own_pool_shutdown (Q : result exn unit → list task_token → Prop) :
  (∀ r, Q r []) → Holds [] pool_shutdown Q.
Proof.
  intros HQ. apply holds_py_bind, holds_step. intros o s F _ Hi. exists []. split.
  - destruct Hi as [(fin & H1 & H1') H2 H3 H4 H5 H6]. cbn in *. split; try done; cbn.
    + exists fin. split; [|done]. rewrite H1. solve_Permutation.
    + rewrite H2, length_app. lia.
  - intros o1 s1 F1 _ Hi1. cbn. destruct (Nat.eqb _ _); [|done]. exists []. by split; [|apply HQ].
Qed.

(** ** The worker as a server *)

(** Requests of the orchestrator, threads of the task pool that look for work, and the
    shutdown. *)
Inductive worker_req : Type :=
| RExecute (t : pb.ExecuteTaskRequest) (h : hosted t)
| RThread
| RStop.

Abbreviation worker_reply := (result exn (option pb.ExecuteTaskResponse)).

Definition worker_handle (req : worker_req) : work (option pb.ExecuteTaskResponse) :=
  match req with
  | RExecute t _ => let* resp := ExecuteTask t in pure (Some resp)
  | RThread => task_thread worker_id max_workers ;;; pure None
  | RStop => pool_shutdown ;;; pure None
  end.

Definition new_worker (e : E) : worker E := mkWorker e 0 [] 0 false [] [] 0 [] [].

(** A worker process that is started again knows nothing of its tasks. *)
Definition worker_server (e0 : E) : server (worker E) (worker_env O) worker_req worker_reply :=
  mkServer _ _ _ _ worker_handle worker_ok (λ _ _, new_worker e0).

Lemma own_handle req : Holds [] (worker_handle req) (λ r H, H = [] ∧ True).
Proof.
  destruct req as [t Ht| |]; cbn [worker_handle]; apply holds_py_bind;
    [apply own_ExecuteTask; [done|]|apply own_task_thread|apply own_pool_shutdown]; by intros [].
Qed.

Lemma new_worker_inv e : worker_inv (new_worker e) [].
Proof. split; cbn; try done; [|lia]. exists []. by split; [|constructor]. Qed.

Definition worker_reaches (e0 : E) (c : config (worker E) (worker_env O) worker_req worker_reply) : Prop :=
  rtc (cstep (worker_server e0)) (mkConfig (new_worker e0) [] []) c.

Lemma worker_accounts e0 c :
  worker_reaches e0 c →
  ∃ T, worker_inv (c_state c) T ∧ (c_threads c = [] → T = []).
Proof.
  intros Hc.
  destruct (config_owned_reachable worker_ok worker_inv (worker_server e0) (λ _ _, True) worker_inv_perm)
    with (s := new_worker e0) (c := c) as [(Hs & Hall & Hi) _]; [done|apply own_handle|intros; apply new_worker_inv|
    apply new_worker_inv|done|].
  exists (mjoin Hs). split; [done|]. intros Hnone. rewrite Hnone in Hall. by apply Forall2_nil_inv_r in Hall as ->.
Qed.

(** What others may rely on: every report is about a task of this worker, and true. *)
Lemma reports_are_faithful e0 c rep :
  worker_reaches e0 c → rep ∈ reports (c_state c) → ∃ t, t ∈ submitted_tasks (c_state c) ∧ faithful t rep.
Proof.
  intros (T & [(fin & H1 & H1') _ _ _ _ _] & _)%worker_accounts Hin.
  apply list_elem_of_lookup in Hin as [i Hi]. destruct (Forall2_lookup_r _ _ _ _ _ H1' Hi) as (t & Ht & Hf).
  exists t. split; [|done]. rewrite H1. apply list_elem_of_lookup_2 in Ht. set_solver.
Qed.

Lemma chunks_are_true e0 c chunk :
  worker_reaches e0 c → chunk ∈ shipped (c_state c) → true_chunk (submitted_tasks (c_state c)) chunk.
Proof. intros (T & [_ _ _ _ _ Hs] & _)%worker_accounts Hin. rewrite Forall_forall in Hs. by apply Hs. Qed.

(** C6: A worker loses no task, reports none twice and tells the truth.  Whatever tasks
    arrive, however their handlers, the threads of the task pool and its shutdown are
    interleaved, and whatever fails in the executor or on the way to the orchestrator: the
    tasks submitted to the pool are exactly those still queued, those cancelled by the
    shutdown, those being run and the finished ones; for each finished task there was
    exactly one call of ReportTaskResult, with its job and this worker, and a reported
    success is what its function returned, with the output captured; no more tasks run
    than the capacity; the load in heartbeats covers every queued and running task, and is
    exact when no thread is at work; and log chunks are sent for this worker's tasks only,
    with lines of the output of their functions.
    The functions are those that the executor can host. *)
Theorem tasks_are_accounted_for e0 c :
  worker_reaches e0 c →
  let s := c_state c in
  ∃ running fin,
    submitted_tasks s ≡ₚ work_queue s ++ cancelled s ++ running ++ fin ∧
    Forall2 faithful fin (reports s) ∧
    length running ≤ busy s ≤ max_workers ∧
    (Z.of_nat (length (work_queue s) + length running) ≤ _active s)%Z ∧
    Forall (true_chunk (submitted_tasks s)) (shipped s) ∧
    (c_threads c = [] → running = [] ∧ busy s = 0 ∧
       _active s = Z.of_nat (length (work_queue s) + length (cancelled s) + refused s)).
Proof.
  intros (T & [(fin & H1 & H1') H2 H3 H4 _ H6] & Hnone)%worker_accounts s. subst s.
  assert (length (omap running T) ≤ sum_list_with at_work T ∧ length (omap running T) ≤ sum_list_with counted T)
    as [Hw Hc] by (clear; induction T as [|[] T IH]; cbn; lia).
  exists (omap running T), fin. do 2 (split; [done|]). split; [lia|]. split; [lia|]. split; [done|].
  intros Hn. specialize (Hnone Hn). subst T. cbn in *. split; [done|]. split; [done|]. rewrite H2. f_equal. lia.
Qed.

(** ** A task gets done

    When nothing fails: the executor works, and calls to the orchestrator succeed or fail
    with an [RpcError]. *)

Definition healthy (o : worker_env O) (s : worker E) : Prop :=
  faultless (w_exec o) (exec_state s) ∧ ∀ e, w_rpc o = Some e → is_Some (is_RpcError e).

(** What a worker tells of a result: times that do not fit into the message make it an
    internal error. *)
Definition relays (t : pb.ExecuteTaskRequest) (res : ExecutionResult) (rep : pb.ReportTaskResultRequest) : Prop :=
  pb.rep_job_id rep = pb.ex_job_id t ∧ pb.rep_worker_id rep = worker_id ∧
  if (fits_int64 (cold_start_ms res) && fits_int64 (execution_ms res))%bool
  then pb.rep_success rep = success res ∧ pb.rep_result_bytes rep = result_bytes res ∧ pb.rep_error rep = error_ res
  else pb.rep_success rep = false.

Lemma close_streamer_wp st s Q :
  (∀ st' sh, Q (Ok st') (set_shipped sh s)) → wp healthy (close_streamer st) s Q.
Proof.
  intros HQ. apply wp_step. intros o _. cbn [fst snd]. destruct (_ && _)%bool; [apply HQ|].
  specialize (HQ (Streamer.close (w_clock o) st) (shipped s)). by destruct s.
Qed.

Lemma report_wp msg s Q :
  match msg with Ok rep => Q (Ok tt) (set_reports (reports s ++ [rep]) s) | Err e => is_RpcError e = None ∧ Q (Err e) s end →
  wp healthy (_report msg) s Q.
Proof.
  intros HQ. apply wp_try_except, wp_py_bind. destruct msg as [rep|e]; cbn [wp lift pure raise_].
  - intros o [_ Ho]. cbn. destruct (w_rpc o) as [e|]; [|done]. by destruct (Ho e eq_refl) as [c ->].
  - cbn. by destruct HQ as [-> ?].
Qed.

Lemma finish_wp t res ws s Q :
  (∀ rep sh, relays t res rep → Q (Ok tt) (set_shipped sh (set_reports (reports s ++ [rep]) s))) →
  wp healthy
    (let* st := stream_writes worker_id t ws in
     let* st := close_streamer st in
     try_except
       (let* tail_lines := _tail_lines res in
        _report (report_message worker_id (pb.ex_job_id t) (success res) (result_bytes res) (error_ res)
                   (cold_start_ms res) (execution_ms res) tail_lines))
       (catching [Exception] (internal_error worker_id t st))) s Q.
Proof.
  intros HQ. apply wp_py_bind, wp_step. intros o _. cbn [fst snd].
  apply wp_py_bind, close_streamer_wp. intros st sh.
  apply wp_try_except, wp_py_bind, wp_step. intros o1 _. cbn [fst snd]. apply report_wp. unfold report_message.
  destruct (_ && _)%bool eqn:Hfit.
  - apply HQ. unfold relays. by rewrite Hfit.
  - split; [done|]. apply wp_py_bind, close_streamer_wp. intros _ sh2. apply report_wp. apply HQ.
    unfold relays. by rewrite Hfit.
Qed.

Lemma run_task_wp t s Q :
  let fb := pb.ex_function_bytes t in
  let ab := pb.ex_args_bytes t in
  ordinary fb ab → accepts fb ab → ready (exec_state s) →
  (∀ x res rep sh, ready x → judged oversize fb ab res → relays t res rep →
     Q (Ok tt) (set_active (_active s - 1) (set_shipped sh (set_reports (reports s ++ [rep]) (set_exec x s))))) →
  wp healthy (_run_task worker_id t) s Q.
Proof.
  intros fb ab Hord Hacc Hready HQ. apply wp_try_finally, wp_attempt.
  eapply wp_env; [|eapply (wp_zoom exec_state set_exec w_exec) with (ok := faultless)];
    [by intros o x [? _]|done|done|by intros []|].
  eapply wp_mono; [|by apply execute_complete]. intros r x (Hx & res & ws & -> & Hj).
  apply finish_wp. intros rep sh Hrep. apply wp_step. intros o _. cbn [fst snd]. by eapply HQ.
Qed.

(** C13: A task gets done and reported.  A thread of the pool that finds a task takes it,
    and if its function returns or raises and nothing fails in the executor, the thread
    comes back, whether or not the orchestrator can be reached: the executor has judged
    the task right, exactly one report relays that to the orchestrator, the load has gone
    down by one, and the thread and the executor are ready for the next task. *)
Theorem task_is_reported os s t rest :
  let fb := pb.ex_function_bytes t in
  let ab := pb.ex_args_bytes t in
  ordinary fb ab → accepts fb ab → ready (exec_state s) →
  work_queue s = t :: rest → busy s < max_workers → (∀ n s, healthy (os n) s) →
  ∃ s' res rep, run os (task_thread worker_id max_workers) s = Done (Ok tt) s' ∧
    judged oversize fb ab res ∧ relays t res rep ∧ reports s' = reports s ++ [rep] ∧
    work_queue s' = rest ∧ busy s' = busy s ∧ _active s' = (_active s - 1)%Z ∧ ready (exec_state s').
Proof.
  intros fb ab Hord Hacc Hready Hq Hbusy Hos.
  destruct (wp_run healthy (task_thread worker_id max_workers) s (λ r s', r = Ok tt ∧ ∃ res rep,
    judged oversize fb ab res ∧ relays t res rep ∧ reports s' = reports s ++ [rep] ∧ work_queue s' = rest ∧
    busy s' = busy s ∧ _active s' = (_active s - 1)%Z ∧ ready (exec_state s')) os Hos)
    as (r & s' & Hrun & -> & res & rep & H).
  - apply wp_py_bind. intros o _. cbn [take_work act]. rewrite Hq, (proj2 (Nat.ltb_lt _ _) Hbusy). cbn [wp].
    apply wp_attempt, run_task_wp; [done..|]. intros x res rep sh Hx Hj Hrep.
    apply wp_step. intros o1 _. split; [done|]. by exists res, rep.
  - by exists s', res, rep.
Qed.

End tasks.

(** ** A function that calls [sys.exit] *)

Section exit.
Context `{PK : !Pickle} `{UC : !UserCode} {O : Type} `{RT : !Runtime O}.
Variable worker_id : string.

(** C40: A function that raises something that is not an [Exception], as [sys.exit()] does,
    is never reported by the in-process strategy: the executor and the worker catch
    [Exception] only, so the error ends up in a future of the task pool that nobody reads.
    The worker is then idle, with load 0, and has made no call to the orchestrator, for
    which the job is RUNNING on a live worker. *)
Theorem exit_is_not_reported max_workers t fn args kwargs e (os : nat → worker_env O) :
  load_task (pb.ex_function_bytes t) (pb.ex_args_bytes t) = Ok (fn, (args, kwargs)) →
  ends (call fn args kwargs) = Raises e → isinstance e [Exception] = false → 0 < max_workers →
  ∃ s, run os (ExecuteTask t ;;; task_thread worker_id max_workers) (new_worker tt) = Done (Ok tt) s ∧
    submitted_tasks s = [t] ∧ work_queue s = [] ∧ busy s = 0 ∧ _active s = 0%Z ∧ reports s = [].
Proof.
  intros Hl Hc He Hm. destruct max_workers as [|m]; [lia|]. cbn -[isinstance].
  unfold run_loaded. rewrite Hl. cbn -[isinstance]. rewrite Hc. cbn -[isinstance]. unfold inproc_failed. rewrite He. cbn -[isinstance]. rewrite He. cbn -[isinstance].
  eexists. split; [reflexivity|]. by repeat split.
Qed.

End exit.
