(* ===== verification/WorkerMain.v ===== *)
(** * WorkerMain: joining the orchestrator, heartbeats, startup and shutdown

    The rest of src/worker/worker.py.  [register] and [heartbeat_loop] are written against
    the class [Surroundings], the calls they make; one instance leaves the answers to the
    environment, the other one is the orchestrator of Server.v itself. *)

From stdpp Require Import strings gmap sorting prelude pretty.
From Stdlib Require Import SpecFloat.
From S2P Require Import Prelude Types Prog Config StoreSpec WorkerPool State Server.
From S2P Require Import Python Framing LogStream Serialization Executor Tokens WarmPool Strategies Worker.

Open Scope py_scope.

(** ** The calls of the loops *)

Class Surroundings (S O : Type) : Type := {
  stub_RegisterWorker : pb.RegisterWorkerRequest → py S O pb.RegisterWorkerResponse;
  stub_Heartbeat : pb.HeartbeatRequest → py S O bool;
  sleep_for : spec_float → py S O unit;
  stop_is_set : py S O bool;
}.

Definition fits_int32 (z : Z) : bool := ((- 2 ^ 31 <=? z) && (z <? 2 ^ 31))%Z.

Definition out_of_range : exn := mkExn ValueError "Value out of range".

(** ** [register] *)

Definition seconds (z : Z) : spec_float := WorkerPool.float64 z.

Definition first_backoff : spec_float := SFdiv 53 1024 (seconds 1) (seconds 2).

(** [min(backoff * 2, 5.0)]. *)
Definition next_delay (backoff : spec_float) : spec_float :=
  let twice := SFmul 53 1024 backoff (seconds 2) in
  if SFltb (seconds 5) twice then seconds 5 else twice.

Section loops.
Context {St Ev : Type} `{SU : !Surroundings St Ev}.
Variables (worker_id address : string) (capacity : Z).

Definition register_message : result exn pb.RegisterWorkerRequest :=
  if fits_int32 capacity then Ok (pb.mkRegister worker_id address capacity) else Err out_of_range.

Fixpoint register_loop (fuel : nat) (backoff : spec_float) : py St Ev Z :=
  match fuel with
  | O => Spin
  | S fuel =>
      attempt (let* msg := lift register_message in stub_RegisterWorker msg) (λ resp,
        match resp with
        | Ok resp =>
            let ms := pb.regr_heartbeat_interval_ms resp in
            pure (if (ms =? 0)%Z then 2000%Z else ms)
        | Err e =>
            match is_RpcError e with
            | Some _ => sleep_for backoff ;;; register_loop fuel (next_delay backoff)
            | None => raise_ e
            end
        end)
  end.

Definition register (fuel : nat) : py St Ev Z := register_loop fuel first_backoff.

(** ** [heartbeat_loop]

    [active] reads the servicer's counter. *)

Variable active : py St Ev Z.

Definition heartbeat_message (n : Z) : result exn pb.HeartbeatRequest :=
  if fits_int32 n then Ok (pb.mkHeartbeat worker_id n) else Err out_of_range.

(** The body of the [try]. *)
Definition heartbeat (fuel : nat) : py St Ev unit :=
  let* n := active in
  let* msg := lift (heartbeat_message n) in
  let* should_drain := stub_Heartbeat msg in
  if should_drain : bool then register fuel ;;; pure tt else pure tt.

Fixpoint heartbeat_loop (fuel : nat) (interval_s : spec_float) : py St Ev unit :=
  match fuel with
  | O => Spin
  | S fuel =>
      let* stopped := stop_is_set in
      if stopped : bool then pure tt
      else
        try_except (heartbeat fuel)
          (λ e, match is_RpcError e with Some _ => Some (pure tt) | None => None end) ;;;
        sleep_for interval_s ;;;
        heartbeat_loop fuel interval_s
  end.

End loops.

(** ** A network that answers as it likes *)

(** The calls made and the delays waited so far. *)
Record net : Type := mkNet {
  registrations : list pb.RegisterWorkerRequest;
  heartbeats : list pb.HeartbeatRequest;
  slept : list spec_float;
}.

Record net_env : Type := mkNetEnv {
  n_register : result exn pb.RegisterWorkerResponse;
  n_heartbeat : result exn bool;
  n_stop : bool;
}.

#[export] Instance network : Surroundings net net_env := {
  stub_RegisterWorker msg :=
    act (λ o s, Next (n_register o) (mkNet (registrations s ++ [msg]) (heartbeats s) (slept s)));
  stub_Heartbeat msg :=
    act (λ o s, Next (n_heartbeat o) (mkNet (registrations s) (heartbeats s ++ [msg]) (slept s)));
  sleep_for d := step_ (λ _ s, (tt, mkNet (registrations s) (heartbeats s) (slept s ++ [d])));
  stop_is_set := step_ (λ o s, (n_stop o, s));
}.

(** The delays before the attempts after the first. *)
Fixpoint delays (n : nat) (backoff : spec_float) : list spec_float :=
  match n with O => [] | S n => backoff :: delays n (next_delay backoff) end.

Lemma register_loop_retries n fuel wid addr cap backoff os s :
  fits_int32 cap = true → n < fuel →
  (∀ i, i < n → ∃ e, n_register (os (2 * i)) = Err e ∧ is_Some (is_RpcError e)) →
  ∀ resp, n_register (os (2 * n)) = Ok resp →
  run os (register_loop wid addr cap fuel backoff) s =
    Done (Ok (if (pb.regr_heartbeat_interval_ms resp =? 0)%Z then 2000%Z else pb.regr_heartbeat_interval_ms resp))
      (mkNet (registrations s ++ replicate (S n) (pb.mkRegister wid addr cap)) (heartbeats s)
         (slept s ++ delays n backoff)).
Proof.
  intros Hcap. revert fuel backoff os s. induction n as [|n IH]; intros [|fuel] backoff os s Hlt Hfail resp Hresp;
    [lia|..|lia|]; cbn [register_loop]; unfold register_message; rewrite Hcap; cbn.
  - cbn in Hresp. rewrite Hresp. cbn. by rewrite app_nil_r.
  - destruct (Hfail 0) as (e & He & code & Hcode); [lia|]. cbn in He. rewrite He. cbn. rewrite Hcode. cbn.
    rewrite (IH fuel (next_delay backoff) (λ i, os (2 + i))) with (resp := resp).
    + cbn. by rewrite <- !app_assoc.
    + lia.
    + intros i Hi. specialize (Hfail (S i)). replace (2 + 2 * i) with (2 * S i) by lia.
      apply Hfail. lia.
    + replace (2 + 2 * n) with (2 * S n) by lia. done.
Qed.

(** A worker that starts before its orchestrator keeps trying: if the first [n]
    attempts to register fail with whatever RPC error, it waits 0.5, 1, 2, 4 and then 5
    seconds each time, always sends the same registration, and when the orchestrator
    answers, [register] returns its heartbeat interval, or two seconds if that is 0. *)
Theorem register_retries n fuel wid addr cap os s resp :
  fits_int32 cap = true → n < fuel →
  (∀ i, i < n → ∃ e, n_register (os (2 * i)) = Err e ∧ is_Some (is_RpcError e)) →
  n_register (os (2 * n)) = Ok resp →
  run os (register wid addr cap fuel) s =
    Done (Ok (if (pb.regr_heartbeat_interval_ms resp =? 0)%Z then 2000%Z else pb.regr_heartbeat_interval_ms resp))
      (mkNet (registrations s ++ replicate (S n) (pb.mkRegister wid addr cap)) (heartbeats s)
         (slept s ++ take n [first_backoff; seconds 1; seconds 2; seconds 4] ++ replicate (n - 4) (seconds 5))).
Proof.
  intros Hcap Hlt Hfail Hresp. unfold register. rewrite (register_loop_retries n fuel wid addr cap _ os s Hcap Hlt Hfail resp Hresp).
  do 3 f_equal. assert (∀ k, delays k (seconds 5) = replicate k (seconds 5)) as Hfive.
  { intros k. induction k as [|k IH]; [done|]. cbn [delays replicate]. f_equal. rewrite <- IH. f_equal. }
  destruct n as [|[|[|[|n]]]]; [done..|].
  change (delays _ first_backoff) with
    ([first_backoff; seconds 1; seconds 2; seconds 4] ++ delays n (seconds 5)).
  rewrite Hfive. by destruct n.
Qed.

(** ** The orchestrator on the other side *)

Section orchestrator.
Context {A : StoreAPI}.
Variable cfg : Config.

(** A call whose handler runs at once; its status is an [RpcError]. *)
Definition rpc {B} (p : prog (sys A) (oracle A) (result status B)) : py (sys A) (oracle A) B :=
  mbind (M := prog (sys A) (oracle A)) (λ r, Ret (match r with
    | Ok x => Ok x
    | Err st => Err (mkExn (RpcError (of_code (status_code st))) (status_msg st))
    end)) p.

#[local] Instance orchestrator_calls : Surroundings (sys A) (oracle A) := {
  stub_RegisterWorker req := rpc (RegisterWorker cfg req);
  stub_Heartbeat req := rpc (Heartbeat req);
  sleep_for _ := pure tt;
  stop_is_set := step_ (λ o s, (o_done o, s));
}.

Lemma found_worker ord pool k w :
  WorkerPool.wf pool → WorkerPool.workers pool !! k = Some w → WorkerPool.alive w = true →
  (WorkerPool.LeastLoadedAlive ord pool).2 = true.
Proof.
  intros Hwf Hk Hal. pose proof (WorkerPool.LeastLoaded_spec ord ∅ pool Hwf) as H. unfold WorkerPool.LeastLoadedAlive.
  destruct (WorkerPool.LeastLoadedAliveExcluding ord ∅ pool) as [[wid addr] []]; [done|].
  destruct (H k w Hk). split; [done|set_solver].
Qed.

(** C19: A worker that the orchestrator does not know, because the orchestrator was
    restarted, is back after its next heartbeat: the answer [should_drain] makes it
    register again under the same name and address.  One that is known is alive after the
    heartbeat, even if the fault detector had given it up, with the load it reported.
    Nothing else of the orchestrator changes, and the scheduler then finds a worker. *)
Theorem heartbeat_rejoins os s wid addr cap n :
  wid ≠ "" → addr ≠ "" → fits_int32 cap = true → fits_int32 n = true → WorkerPool.wf (workerPool s) →
  ∃ pool w, run os (heartbeat wid addr cap (pure n) 1) s = Done (Ok tt) (set_workerPool pool s) ∧
    WorkerPool.workers pool = <[wid := w]> (WorkerPool.workers (workerPool s)) ∧ WorkerPool.alive w = true ∧
    match WorkerPool.workers (workerPool s) !! wid with
    | None => WorkerPool.address w = addr ∧ WorkerPool.activeTasks w = 0%Z
    | Some w0 => WorkerPool.address w = WorkerPool.address w0 ∧ WorkerPool.activeTasks w = n
    end ∧
    ∀ ord, (WorkerPool.LeastLoadedAlive ord pool).2 = true.
Proof.
  intros Hw Ha Hc Hn Hwf. cbn -[heartbeat_message Heartbeat register]. unfold heartbeat_message, Heartbeat. rewrite Hn.
  cbn -[WorkerPool.RecordHeartbeat RegisterWorker]. rewrite (proj2 (String.eqb_neq wid "") Hw).
  cbn -[WorkerPool.RecordHeartbeat RegisterWorker].
  pose proof (WorkerPool.RecordHeartbeat_wf (State.o_now (os 0)) wid n (workerPool s) Hwf) as Hwf1.
  unfold WorkerPool.RecordHeartbeat in *. destruct (WorkerPool.workers (workerPool s) !! wid) as [w0|] eqn:Hk.
  - cbn in *. eexists _, _. split; [done|]. split; [done|]. split; [by destruct (WorkerPool.alive w0) eqn:Hal|].
    split; [by destruct (WorkerPool.alive w0)|]. intros ord. eapply found_worker; [exact Hwf1|apply lookup_insert_eq|].
    by destruct (WorkerPool.alive w0) eqn:Hal.
  - cbn. unfold register_message, RegisterWorker. rewrite Hc. cbn.
    rewrite (proj2 (String.eqb_neq wid "") Hw), (proj2 (String.eqb_neq addr "") Ha). cbn.
    eexists _, _. split; [by destruct s|]. split; [done|]. split; [done|]. split; [done|].
    intros ord. eapply found_worker; [by apply WorkerPool.Register_wf|apply lookup_insert_eq|done].
Qed.

End orchestrator.

(** ** [main] *)

Definition resolve_advertise_address (environ : string → option string) (hostname : string) (port : Z) : string :=
  let host := match environ "WORKER_ADVERTISE_HOST" with
              | Some h => if String.eqb h "" then hostname else h
              | None => hostname
              end in
  host +:+ ":" +:+ pretty port.

(** [int(s)] on ASCII text: blanks around it, a sign, digits with single underscores
    between them. *)
Definition space (c : Ascii.ascii) : bool := blank (String c "").

Fixpoint lstrip (s : string) : string :=
  match s with String c s' => if space c then lstrip s' else s | "" => "" end.

Fixpoint int_digits (s : string) (acc : Z) (after_digit : bool) : option Z :=
  match s with
  | "" => if after_digit then Some acc else None
  | String c s' =>
      let n := Z.of_nat (Ascii.nat_of_ascii c) in
      if ((48 <=? n) && (n <=? 57))%Z then int_digits s' (acc * 10 + (n - 48)) true
      else if ((n =? 95)%Z && after_digit)%bool then int_digits s' acc false
      else if (space c && after_digit && blank s')%bool then Some acc
      else None
  end.

Definition py_int (s : string) : result exn Z :=
  let digits :=
    match lstrip s with
    | String c s' =>
        if Ascii.eqb c (Ascii.ascii_of_nat 45) then Z.opp <$> int_digits s' 0 false
        else if Ascii.eqb c (Ascii.ascii_of_nat 43) then int_digits s' 0 false
        else int_digits (String c s') 0 false
    | "" => None
    end in
  match digits with
  | Some z => Ok z
  | None => Err (mkExn ValueError "invalid literal for int() with base 10")
  end.

(** What [main] opens, starts and stops. *)
Inductive event : Type :=
| EChannel
| ETaskPool
| EServer
| EHeartbeat
| EHeartbeatStopped
| EServerStopped
| ETaskPoolDown
| EChannelClosed.

#[export] Instance event_eq_dec : EqDecision event.
Proof. solve_decision. Defined.

(** The warm pool and, for each event, how often the process had forked by then. *)
Record proc : Type := mkProc {
  p_pool : pool;
  p_events : list (event * nat);
}.

Definition set_p_pool (x : pool) (s : proc) : proc := mkProc x (p_events s).

(** What the system decides for one step. *)
Record proc_env : Type := mkProcEnv {
  m_pool : pool_env;
  m_uuid : string;
  m_bind : option exn;              (* [add_insecure_port] fails *)
  m_register : result exn pb.RegisterWorkerResponse;
  m_signal : bool;                  (* SIGINT or SIGTERM has come *)
}.

#[export] Instance main_calls : Surroundings proc proc_env := {
  stub_RegisterWorker _ := act (λ o s, Next (m_register o) s);
  stub_Heartbeat _ := pure false;
  sleep_for _ := pure tt;
  stop_is_set := pure false;
}.

Section main.
Variables (environ : string → option string) (hostname tmpdir : string).
Variables (repr : string → string) (float : string → option string).

Abbreviation prc := (py proc proc_env).

Definition note (e : event) : prc unit :=
  step_ (λ _ s, (tt, mkProc (p_pool s) (p_events s ++ [(e, forks (p_pool s))]))).

Definition on_pool {A} (p : py pool pool_env A) : prc A := zoom p_pool set_p_pool m_pool p.

(** [os.environ.get('WORKER_ID') or ...]. *)
Definition worker_name : prc string :=
  match environ "WORKER_ID" with
  | Some w => if String.eqb w "" then step_ (λ o s, ("worker-" +:+ str_take 8 (m_uuid o), s)) else pure w
  | None => step_ (λ o s, ("worker-" +:+ str_take 8 (m_uuid o), s))
  end.

Definition task_pool (capacity : Z) : prc unit :=
  if (capacity <=? 0)%Z then raise_ (mkExn ValueError "max_workers must be greater than 0")
  else note ETaskPool.

Definition start_server : prc unit :=
  act (λ o s, Next (match m_bind o with None => Ok tt | Some e => Err e end) s) ;;;
  note EServer.

(** [shutdown.wait()]. *)
Definition wait_signal : prc unit := act (λ o s, if m_signal o then Next (Ok tt) s else Block).

Definition start_executor (x : executor) : prc unit :=
  match x with Fork config => on_pool (start config) | _ => pure tt end.

Definition stop_executor (x : executor) : prc unit :=
  match x with Fork config => on_pool (shutdown config) | _ => pure tt end.

Definition main (fuel : nat) : prc Z :=
  let* worker_port := lift (py_int (getenv environ "WORKER_PORT" "50100")) in
  let* capacity := lift (py_int (getenv environ "WORKER_CAPACITY" "4")) in
  let* worker_id := worker_name in
  let advertise := resolve_advertise_address environ hostname worker_port in
  let* executor := lift (make_executor environ tmpdir repr float
                           (getenv environ "MINIMODAL_COLD_START" "inproc") capacity) in
  start_executor executor ;;;
  note EChannel ;;;
  task_pool capacity ;;;
  start_server ;;;
  let* hb_interval_ms := register worker_id advertise capacity fuel in
  note EHeartbeat ;;;
  wait_signal ;;;
  note EHeartbeatStopped ;;;
  note EServerStopped ;;;
  note ETaskPoolDown ;;;
  stop_executor executor ;;;
  note EChannelClosed ;;;
  pure 0%Z.

End main.

(** ** The order of startup and shutdown *)

Definition order : list event :=
  [EChannel; ETaskPool; EServer; EHeartbeat; EHeartbeatStopped; EServerStopped; ETaskPoolDown; EChannelClosed].

(** The first [n] events have happened, and since the first of them nothing was forked. *)
Definition reached (n : nat) (s : proc) : Prop :=
  p_events s = (λ e, (e, forks (p_pool s))) <$> take n order.

Definition in_order (s : proc) : Prop := ∃ n, reached n s.

Section order.
Variables (environ : string → option string) (hostname tmpdir : string).
Variables (repr : string → string) (float : string → option string).

Abbreviation Along := (along (λ (_ : proc_env) _, True) in_order).

Lemma along_note n e s (Q : result exn unit → proc → Prop) :
  reached n s → order !! n = Some e → (∀ s', reached (S n) s' → Q (Ok tt) s') → Along (note e) s Q.
Proof.
  intros Hn He HQ. assert (reached (S n) (mkProc (p_pool s) (p_events s ++ [(e, forks (p_pool s))]))) as Hs'.
  { unfold reached in *. cbn [p_events p_pool]. rewrite Hn, (take_S_r _ _ _ He), fmap_app. done. }
  apply along_step; [by exists n|]. intros _ _. split; [by exists (S n)|by apply HQ].
Qed.

(** A step that leaves the process alone. *)
Lemma along_same {A} n (step : proc_env → proc → outcome proc (result exn A)) s (Q : result exn A → proc → Prop) :
  reached n s → (∀ o r s', step o s = Next r s' → s' = s) → (∀ r, Q r s) → Along (act step) s Q.
Proof.
  intros Hn Hs HQ. apply along_act; [by exists n|]. intros o r s' _ ->%Hs. split; [by exists n|apply HQ].
Qed.

Lemma shutdown_forks config x f :
  forks x = f → along (λ (_ : pool_env) _, True) (λ x, forks x = f) (shutdown config) x (λ _ x', forks x' = f).
Proof.
  intros Hx. assert (∀ {X} (l : list X) (body : X → py pool pool_env unit),
    (∀ y x, forks x = f → along (λ _ _, True) (λ x, forks x = f) (body y) x (λ _ x', forks x' = f)) →
    ∀ x, forks x = f → along (λ _ _, True) (λ x, forks x = f) (for_each l body) x (λ _ x', forks x' = f)) as Hfor.
  { intros X l body Hbody. induction l as [|y l IH]; intros x1 Hx1; [by split|].
    apply along_py_bind. eapply along_mono; [|by apply Hbody]. intros [[]|e] x2 Hx2 _; [by apply IH|done]. }
  assert (∀ p x, forks x = f →
    along (λ _ _, True) (λ x, forks x = f) (_signal_pid p) x (λ _ x', forks x' = f)) as Hsig.
  { intros p x1 Hx1. apply along_step; [done|]. by intros _ _. }
  apply along_py_bind, along_step; [done|]. intros _ _. split; [done|]. cbn [fst snd].
  apply along_py_bind. eapply along_mono; [|by apply Hfor; [intros; by apply Hsig|]].
  intros [[]|e] x1 Hx1 _; [|done]. apply along_py_bind, along_step; [done|]. intros _ _. split; [done|]. cbn [fst snd].
  apply along_py_bind. eapply along_mono with (Q := λ _ x', forks x' = f).
  2:{ destruct (spawner_pid x1); [|by split]. apply along_py_bind.
      assert (forks (if decide (z ∈ live x1) then set_children [] (set_files (files x1 ∖ {[control_path config]})
        (set_live (live x1 ∖ ({[z]} ∪ list_to_set (spawner_children x1))) x1)) else x1) = f) as Hx2
        by (destruct (decide _); done).
      apply along_step; [done|]. intros _ _. split; [exact Hx2|]. apply along_step; [exact Hx2|]. by intros _ _. }
  intros [[]|e] x2 Hx2 _; [|done]. apply along_py_bind. eapply along_mono; [|apply Hfor; [|done]].
  - intros [[]|e] x3 Hx3 _; [|done]. apply along_step; [done|]. by intros _ _.
  - intros path x3 Hx3. apply along_try_except, along_act; [done|]. intros o r x4 _ E.
    assert (forks x4 = f) as Hx4 by (destruct (decide _); [destruct (p_unlink o)|]; by simplify_eq).
    split; [done|]. destruct r as [[]|e]; [done|]. unfold catching. by destruct (isinstance e _).
Qed.

Lemma along_pool {A} (p : py pool pool_env A) s (P' : pool → Prop) Q :
  (∀ x, P' x → in_order (set_p_pool x s)) → along (λ _ _, True) P' p (p_pool s) (λ _ _, True) →
  (∀ r x, P' x → Q r (set_p_pool x s)) → Along (on_pool p) s Q.
Proof.
  intros HP Hp HQ. eapply along_mono; [|eapply (along_zoom p_pool set_p_pool m_pool); [| | |exact HP|exact Hp]].
  - intros r s' _ (x & -> & Hx & _). by apply HQ.
  - done.
  - done.
  - by intros [].
Qed.

Lemma along_register n wid addr cap fuel backoff s :
  reached n s → Along (register_loop wid addr cap fuel backoff) s (λ _ s', s' = s).
Proof.
  intros Hn. revert backoff. induction fuel as [|fuel IH]; intros backoff; [by exists n|]. cbn [register_loop].
  apply along_bind, along_py_bind. split; [by exists n|].
  assert (∀ r, Along
    (match r with
     | Ok resp =>
         let ms := pb.regr_heartbeat_interval_ms resp in pure (if (ms =? 0)%Z then 2000%Z else ms)
     | Err e =>
         match is_RpcError e with
         | Some _ => sleep_for backoff ;;; register_loop wid addr cap fuel (next_delay backoff)
         | None => raise_ e
         end
     end) s (λ _ s', s' = s)) as Hrest.
  { intros [resp|e]; [by split; [exists n|]|]. destruct (is_RpcError e); [apply IH|by split; [exists n|]]. }
  destruct (register_message wid addr cap) as [msg|e]; [|exact (Hrest (Err e))].
  eapply along_same; [done|by intros o r s' [= <- <-]|exact Hrest].
Qed.

(** From the start of the executor on. *)
Lemma along_start x s (Q : result exn unit → proc → Prop) :
  p_events s = [] → (∀ r s', reached 0 s' → Q r s') → Along (start_executor x) s Q.
Proof.
  intros Hs HQ. assert (∀ p, reached 0 (set_p_pool p s)) as H0 by (intros p; exact Hs).
  destruct x as [| |config]; cbn [start_executor].
  - split; [by exists 0|by apply HQ].
  - split; [by exists 0|by apply HQ].
  - apply (along_pool _ _ (λ _, True)); [intros p _; by exists 0|apply along_any|]. intros r p _. by apply HQ.
Qed.

Lemma along_stop n x s (Q : result exn unit → proc → Prop) :
  reached n s → (∀ r s', reached n s' → Q r s') → Along (stop_executor x) s Q.
Proof.
  intros Hn HQ. destruct x as [| |config]; cbn [stop_executor].
  - split; [by exists n|by apply HQ].
  - split; [by exists n|by apply HQ].
  - apply (along_pool _ _ (λ p, forks p = forks (p_pool s))).
    + intros p Hp. exists n. unfold reached in *. cbn. by rewrite Hp.
    + eapply along_mono; [|by apply shutdown_forks]. done.
    + intros r p Hp. apply HQ. unfold reached in *. cbn. by rewrite Hp.
Qed.

Definition main_post (r : result exn Z) (s : proc) : Prop := r = Ok 0%Z → reached 8 s.

(** The whole of [main]. *)
Lemma along_main fuel :
  Along (main environ hostname tmpdir repr float fuel) (mkProc __init__ []) main_post.
Proof.
  set (s0 := mkProc __init__ []). assert (reached 0 s0) as H0 by done.
  assert (∀ e s n, reached n s → main_post (Err e) s) as HE by done.
  unfold main. apply along_py_bind. split; [by exists 0|]. destruct (py_int _) as [port|]; [|done].
  apply along_py_bind. split; [by exists 0|]. destruct (py_int _) as [cap|]; [|done].
  apply along_py_bind. eapply along_mono with (Q := λ r s, s = s0).
  2:{ assert (Along (step_ (λ o s, ("worker-" +:+ str_take 8 (m_uuid o), s))) s0 (λ _ s, s = s0)) as Hname
        by (apply along_step; [by exists 0|]; intros o _; split; [by exists 0|done]).
      unfold worker_name. destruct (environ "WORKER_ID") as [w|]; [|done]. destruct (String.eqb w ""); [done|].
      split; [by exists 0|done]. }
  intros [wid|e] s _ ->; [|done]. apply along_py_bind. split; [by exists 0|].
  destruct (make_executor _ _ _ _ _ _) as [x|]; [|done].
  apply along_py_bind, along_start; [done|]. intros [[]|e] s1 H1; [|done].
  apply along_py_bind. eapply along_note; [exact H1|done|]. intros s2 H2.
  apply along_py_bind. unfold task_pool. destruct (cap <=? 0)%Z; [split; [by exists 1|done]|].
  eapply along_note; [exact H2|done|]. intros s3 H3.
  apply along_py_bind, along_py_bind. eapply along_same; [exact H3|by intros o r s' [= <- <-]|].
  intros [[]|e]; [|done]. eapply along_note; [exact H3|done|]. intros s4 H4.
  apply along_py_bind. eapply along_mono; [|by apply (along_register 3)]. intros [hb|e] s _ ->; [|done].
  apply along_py_bind. eapply along_note; [exact H4|done|]. intros s5 H5.
  apply along_py_bind. eapply along_same; [exact H5|intros o r s'; by destruct (m_signal o); intros; simplify_eq|].
  intros [[]|e]; [|done].
  apply along_py_bind. eapply along_note; [exact H5|done|]. intros s6 H6.
  apply along_py_bind. eapply along_note; [exact H6|done|]. intros s7 H7.
  apply along_py_bind. eapply along_note; [exact H7|done|]. intros s8 H8.
  apply along_py_bind, (along_stop 7); [exact H8|]. intros [[]|e] s9 H9; [|done].
  apply along_py_bind. eapply along_note; [exact H9|done|]. intros s10 H10. split; [by exists 8|by intros _].
Qed.

(** C18: The worker forks before it starts threads or opens sockets.  Whatever the settings
    and whatever fails, at any moment of a run of [main] (also while it waits for its
    orchestrator or for a signal, and after an exception) the channel, the task pool, the
    gRPC server and the heartbeat thread have been started in this order, and stopped in
    the order heartbeats, server, task pool, channel; and the process has not forked since
    the first of these events.  If [main] returns 0, everything was stopped. *)
Theorem forks_before_threads fuel os :
  let r := run os (main environ hostname tmpdir repr float fuel) (mkProc __init__ []) in
  (∃ n, p_events (last_state r) = (λ e, (e, forks (p_pool (last_state r)))) <$> take n order) ∧
  ∀ s, r = Done (Ok 0%Z) s → (p_events s).*1 = order.
Proof.
  destruct (along_run (λ _ _, True) in_order _ _ _ os (λ _ _, I) (along_main fuel)) as [HP HQ].
  split; [exact HP|]. intros s E. rewrite E in HQ. specialize (HQ eq_refl). unfold reached in HQ.
  rewrite HQ, <- list_fmap_compose. apply list_fmap_id.
Qed.

End order.
