(* ===== verification/Sdk.v ===== *)
(** * Sdk: calling functions remotely

    src/sdk/minimodal: [App] and [Func] (app.py), [OrchestratorClient] (client.py) and
    [Future] (future.py).  The events that a WatchJob call yields, and how it ends, are an
    argument of [get]. *)

From stdpp Require Import strings gmap sorting prelude pretty.
From S2P Require Import Prelude Types Prog Python LogStream Serialization Executor.

Open Scope py_scope.

#[local] Existing Instance pb.JobStatus_eq_dec.

(** ** Futures *)

(** [printed] is what [get] has written to the terminal, with the stream. *)
Record Future : Type := mkFuture {
  job_id : string;
  _cached_result : pyval;
  _resolved : bool;
  logs : list (string * bool);
  cold_start : Z;
  total_duration : Z;
  execution : Z;
  worker_id : string;
  printed : list (string * bool);
}.

Definition new_future (id : string) : Future := mkFuture id PNone false [] 0 0 0 "" [].

(** The events of a WatchJob call, and the exception that ends it, if it does not just
    stop. *)
Definition watch : Type := list pb.JobEvent * option exn.

Section future.
Context `{PK : !Pickle}.

Definition _on_log (l : pb.LogLine) (print_logs : bool) (f : Future) : Future :=
  let line := (pb.line l, pb.is_stderr l) in
  mkFuture (job_id f) (_cached_result f) (_resolved f) (logs f ++ [line]) (cold_start f) (total_duration f)
    (execution f) (worker_id f) (if print_logs then printed f ++ [line] else printed f).

(** The metrics of the result. *)
Definition note_result (r : pb.JobResult) (f : Future) : Future :=
  mkFuture (job_id f) (_cached_result f) (_resolved f) (logs f) (pb.jr_cold_start_ms r)
    (pb.jr_total_duration_ms r) (Z.max 0 (pb.jr_total_duration_ms r - pb.jr_cold_start_ms r))
    (pb.jr_worker_id r) (printed f).

Definition resolve (v : pyval) (f : Future) : Future :=
  mkFuture (job_id f) v true (logs f) (cold_start f) (total_duration f) (execution f) (worker_id f) (printed f).

Definition _finish (r : pb.JobResult) (f : Future) : result exn pyval * Future :=
  let f := note_result r f in
  if decide (pb.jr_status r = pb.JOB_STATUS_DONE)
  then match deserialize_result (pb.jr_result_bytes r) with
       | Ok v => (Ok v, resolve v f)
       | Err e => (Err e, f)
       end
  else (Err (mkExn FutureError ("job " +:+ job_id f +:+ " failed: " +:+ pb.jr_error r)), f).

(** The [except grpc.RpcError] clause; [timeout_s] as it is printed. *)
Definition get_except (timeout_s : string) (e : exn) (f : Future) : exn :=
  match is_RpcError e with
  | Some DEADLINE_EXCEEDED =>
      mkExn TimeoutError ("job " +:+ job_id f +:+ " did not complete within " +:+ timeout_s +:+ "s")
  | _ => e
  end.

(** The loop over the events. *)
Fixpoint consume (timeout_s : string) (print_logs : bool) (events : list pb.JobEvent) (ending : option exn)
    (f : Future) : result exn pyval * Future :=
  match events with
  | [] =>
      (Err (match ending with
            | Some e => get_except timeout_s e f
            | None => mkExn FutureError ("job " +:+ job_id f +:+ ": watch stream ended without a result")
            end), f)
  | ev :: events =>
      match pb.ev_event ev with
      | pb.JobEvent_Log l => consume timeout_s print_logs events ending (_on_log l print_logs f)
      | pb.JobEvent_Result r =>
          match _finish r f with
          | (Err e, f) => (Err (get_except timeout_s e f), f)
          | ok => ok
          end
      | pb.JobEvent_Status _ => consume timeout_s print_logs events ending f
      end
  end.

Definition get (timeout_s : string) (print_logs : bool) (w : watch) (f : Future) : result exn pyval * Future :=
  if _resolved f then (Ok (_cached_result f), f) else consume timeout_s print_logs w.1 w.2 f.

(** ** Functions *)

Record Func : Type := mkFunc { _fn : pyval; __name__ : string; __qualname__ : string }.

(** [getattr(fn, '__name__', 'anonymous')] and [getattr(fn, '__qualname__', name)]. *)
Definition new_func (fn : pyval) : Func :=
  match fn with
  | PFunction name => mkFunc fn name name
  | _ => mkFunc fn "anonymous" "anonymous"
  end.

Definition key_name : string := "_idempotency_key".

(** [kwargs.pop('_idempotency_key', '')]. *)
Definition pop_key (kwargs : list (string * pyval)) : pyval * list (string * pyval) :=
  (default (PStr "") (assoc key_name kwargs), filter (λ kv, kv.1 ≠ key_name) kwargs).

(** [OrchestratorClient.invoke]: the request. *)
Definition invoke (function_bytes args_bytes : bytes) (function_name : string) (key : pyval) :
    result exn pb.InvokeFunctionRequest :=
  let! idempotency_key := as_str key in
  Ok (pb.mkInvoke function_bytes args_bytes function_name idempotency_key).

(** [spawn]: the request, to whose answer it makes a [Future]. *)
Definition spawn (f : Func) (args : list pyval) (kwargs : list (string * pyval)) :
    result exn pb.InvokeFunctionRequest :=
  let (idempotency_key, kwargs) := pop_key kwargs in
  let! function_bytes := serialize_callable (_fn f) in
  let! args_bytes := serialize_args args kwargs in
  invoke function_bytes args_bytes (__qualname__ f) idempotency_key.

(** [remote]: the request of its [spawn]; then [get] on the future. *)
Definition remote (f : Func) (args : list pyval) (kwargs : list (string * pyval)) :
    result exn pb.InvokeFunctionRequest :=
  let (idem, kwargs) := pop_key kwargs in
  spawn f args ((key_name, idem) :: kwargs).

Definition local `{UC : !UserCode} (f : Func) (args : list pyval) (kwargs : list (string * pyval)) : behaviour :=
  call (_fn f) args kwargs.

Definition __call__ `{UC : !UserCode} (f : Func) (args : list pyval) (kwargs : list (string * pyval)) : behaviour :=
  local f args kwargs.

End future.

(** ** Apps *)

(** [_client] is the address that the client was created with. *)
Record App : Type := mkApp {
  app_name : string;
  _addr : string;
  _client : option string;
  _functions : list Func;
}.

Definition new_app (environ : string → option string) (name : string) (orchestrator_addr : option string) : App :=
  let default_addr := default "localhost:50051" (environ "MINIMODAL_ORCH_ADDR") in
  let addr := match orchestrator_addr with
              | Some a => if String.eqb a "" then default_addr else a
              | None => default_addr
              end in
  mkApp name addr None [].

Definition client (a : App) : string * App :=
  match _client a with
  | Some c => (c, a)
  | None => (_addr a, mkApp (app_name a) (_addr a) (Some (_addr a)) (_functions a))
  end.

Definition function (fn : pyval) (a : App) : Func * App :=
  (new_func fn, mkApp (app_name a) (_addr a) (_client a) (_functions a ++ [new_func fn])).

(** ** What [get] makes of a stream *)

Section get.
Context `{PK : !Pickle}.

Definition log_of (ev : pb.JobEvent) : option (string * bool) :=
  match pb.ev_event ev with pb.JobEvent_Log l => Some (pb.line l, pb.is_stderr l) | _ => None end.

(** The future after it has read events without a result. *)
Definition read_logs (print_logs : bool) (evs : list pb.JobEvent) (f : Future) : Future :=
  mkFuture (job_id f) (_cached_result f) (_resolved f) (logs f ++ omap log_of evs) (cold_start f)
    (total_duration f) (execution f) (worker_id f)
    (if print_logs then printed f ++ omap log_of evs else printed f).

Lemma consume_app timeout_s pl pre rest ending f :
  Forall (λ ev, pb.isResult ev = false) pre →
  consume timeout_s pl (pre ++ rest) ending f = consume timeout_s pl rest ending (read_logs pl pre f).
Proof.
  revert f. induction pre as [|ev pre IH]; intros f Hpre.
  { unfold read_logs. cbn. rewrite !app_nil_r. by destruct f, pl. }
  apply Forall_cons in Hpre as [Hev Hpre]. cbn [app consume].
  unfold pb.isResult in Hev. destruct ev as [id [st|l|r]]; cbn in *; [| |done]; rewrite IH by done; [done|].
  unfold read_logs, _on_log. cbn. f_equal. rewrite <- app_assoc. destruct pl; [|done]. by rewrite <- app_assoc.
Qed.

(** What [Future.get] returns.  On a stream whose last event is the result, it has kept
    and, if asked to, printed every log line in order on its stream; it returns the
    decoded value of a job that is DONE, and remembers it: another [get] gives the same
    value whatever the orchestrator says then; for a job that failed it raises a
    [FutureError] with the error of the job; and the metrics are those of the result.  On
    a stream that ends early it raises [TimeoutError] for a deadline, the RPC error as it
    is for any other, and [FutureError] if the stream just stopped, and stays unresolved. *)
Theorem get_returns timeout_s pl pre ending f :
  _resolved f = false → Forall (λ ev, pb.isResult ev = false) pre →
  let f' := read_logs pl pre f in
  (∀ id r rest,
     get timeout_s pl (pre ++ pb.mkJobEvent id (pb.JobEvent_Result r) :: rest, ending) f =
       match decide (pb.jr_status r = pb.JOB_STATUS_DONE), deserialize_result (pb.jr_result_bytes r) with
       | left _, Ok v => (Ok v, resolve v (note_result r f'))
       | left _, Err e => (Err (get_except timeout_s e f), note_result r f')
       | right _, _ => (Err (mkExn FutureError ("job " +:+ job_id f +:+ " failed: " +:+ pb.jr_error r)), note_result r f')
       end) ∧
  (∀ v w g, _resolved g = true → _cached_result g = v → get timeout_s pl w g = (Ok v, g)) ∧
  get timeout_s pl (pre, ending) f =
    (Err (match ending with
          | Some e => get_except timeout_s e f
          | None => mkExn FutureError ("job " +:+ job_id f +:+ ": watch stream ended without a result")
          end), f').
Proof.
  intros Hf Hpre f'. unfold get. rewrite Hf. cbn [fst snd]. split; [|split].
  - intros id r rest. rewrite consume_app by done. fold f'. cbn. unfold _finish.
    destruct (decide _); [|done]. by destruct (deserialize_result _).
  - by intros v w g -> ->.
  - pose proof (consume_app timeout_s pl pre [] ending f Hpre) as H. rewrite app_nil_r in H. rewrite H. done.
Qed.

End get.

(** ** What the worker gets *)

Section payload.
Context `{PK : !Pickle} `{PL : !PickleLaws}.

Lemma pop_twice kwargs :
  pop_key ((key_name, (pop_key kwargs).1) :: (pop_key kwargs).2) = pop_key kwargs.
Proof.
  unfold pop_key. cbn [fst snd assoc]. rewrite String.eqb_refl. cbn. f_equal.
  rewrite decide_False by naive_solver. induction kwargs as [|[k v] l IH]; [done|]. cbn.
  destruct (decide (k ≠ key_name)); [|done]. cbn. rewrite decide_True by done. f_equal. exact IH.
Qed.

Lemma remote_spawn f args kwargs : remote f args kwargs = spawn f args kwargs.
Proof.
  unfold remote, spawn. destruct (pop_key kwargs) as [idem rest] eqn:E.
  pose proof (pop_twice kwargs) as H. rewrite E in H. cbn [fst snd] in H. by rewrite H.
Qed.

Lemma spawn_payload f args kwargs req :
  spawn f args kwargs = Ok req →
  load_task (pb.inv_function_bytes req) (pb.inv_args_bytes req) =
    Ok (_fn f, (args, (pop_key kwargs).2)) ∧
  pb.inv_function_name req = __qualname__ f ∧
  (pop_key kwargs).1 = PStr (pb.inv_idempotency_key req).
Proof.
  unfold spawn. destruct (pop_key kwargs) as [key rest]. cbn [fst snd].
  unfold serialize_callable, serialize_args, invoke, res_bind.
  destruct (dumps (_fn f)) as [fb|] eqn:Hf; [|done].
  destruct (dumps (PTuple _)) as [ab|] eqn:Ha; [|done].
  destruct key; try done. cbn. intros [= <-]. cbn.
  unfold load_task, deserialize_callable, deserialize_args, res_bind.
  by rewrite (loads_dumps _ _ Hf), (loads_dumps _ _ Ha).
Qed.

End payload.
