(* ===== verification/EndToEnd.v ===== *)
(** * EndToEnd: the SDK, the orchestrator and the workers together

    A deployment is the orchestrator and any number of workers, each with the strategy of
    its own.  A worker gets the tasks that the orchestrator sends, the orchestrator the
    reports and log chunks that the workers send; messages may be lost, late, or arrive
    more than once. *)

From stdpp Require Import strings gmap sorting prelude pretty.
From S2P Require Import Prelude Types Prog Config StoreSpec LogHub State Watch Server Invariant Safety System.
From S2P Require Import Python LogStream Serialization Executor Worker Sdk.

Abbreviation worker_reply := (result exn (option pb.ExecuteTaskResponse)).

Section deployment.
Context {A : StoreAPI} {OK : StoreOk A} `{PK : !Pickle} `{UC : !UserCode}.
Variable cfg : Config.
Variable now : Z.
Variable st : store.

(** A worker: its executor, its name and capacity, and where it is. *)
Record node : Type := mkNode {
  n_state : Type;
  n_env : Type;
  n_executor : Executor n_state n_env;
  n_ok : ExecutorOk n_state n_env;
  n_id : string;
  n_capacity : nat;
  n_start : n_state;
  n_config : config (worker n_state) (worker_env n_env) worker_req worker_reply;
}.

Definition n_server (n : node) : server (worker (n_state n)) (worker_env (n_env n)) worker_req worker_reply :=
  worker_server (X := n_executor n) (XO := n_ok n) (n_id n) (n_capacity n) (n_start n).

Definition with_config (n : node) (c : config _ _ _ worker_reply) : node :=
  mkNode (n_state n) (n_env n) (n_executor n) (n_ok n) (n_id n) (n_capacity n) (n_start n) c.

Definition n_tasks (n : node) : list pb.ExecuteTaskRequest := submitted_tasks (c_state (n_config n)).

Definition n_sent (n : node) : list message :=
  (ReportMsg <$> reports (c_state (n_config n))) ++ (ChunkMsg <$> shipped (c_state (n_config n))).

(** [air] are all the reports and chunks that workers have sent. *)
Record deployment : Type := mkDeployment {
  orch : config (sys A) (oracle A) Req Reply;
  nodes : list node;
  air : list message;
}.

Definition tasks_sent (d : deployment) : list pb.ExecuteTaskRequest := (sentTasks (c_state (orch d))).*2.

(** Each part makes its own steps; what it receives was sent.  Workers may join at any
    time, and crash like the orchestrator.  Log chunks go out while a task runs. *)
Inductive dstep : deployment → deployment → Prop :=
| orchestrator_moves d c :
    cstep (orchestrator cfg) (orch d) c →
    received (c_state c) ⊆ received (c_state (orch d)) ++ air d →
    dstep d (mkDeployment c (nodes d) (air d))
| worker_joins d n :
    n_config n = mkConfig (new_worker (n_start n)) [] [] →
    dstep d (mkDeployment (orch d) (nodes d ++ [n]) (air d))
| worker_moves d i n c :
    nodes d !! i = Some n → cstep (n_server n) (n_config n) c →
    submitted_tasks (c_state c) ⊆ n_tasks n ++ tasks_sent d →
    dstep d (mkDeployment (orch d) (<[i := with_config n c]> (nodes d)) (air d ++ n_sent (with_config n c)))
| worker_streams d i n t chunk :
    nodes d !! i = Some n → t ∈ n_tasks n →
    early_chunk (X := n_executor n) (XO := n_ok n) (n_id n) t chunk →
    dstep d (mkDeployment (orch d) (nodes d) (air d ++ [ChunkMsg chunk])).

Definition deployed (d : deployment) : Prop :=
  rtc dstep (mkDeployment (mkConfig (NewServerWithStore now cfg st) [] []) [] []) d.

(** ** What the parts know of each other *)

(** A line of what was written on the stream: cut as the streamer does it, or as Python's
    [splitlines] does. *)
Definition output_line (ws : list (string * bool)) (l : pb.LogLine) : Prop :=
  let text := Streamer.text_of (pb.is_stderr l) ws in
  pb.line l ∈ LineBuffer.text_lines text ∨ pb.line l ∈ splitlines text.

Definition task_line (t : pb.ExecuteTaskRequest) : pb.LogLine → Prop :=
  output_line (written (pb.ex_function_bytes t) (pb.ex_args_bytes t)).

(** The message is about a task that was sent; a success is its verdict; and the lines of
    a success or a chunk are lines of the task's output. *)
Definition tells (t : pb.ExecuteTaskRequest) (m : message) : Prop :=
  match m with
  | ReportMsg rep =>
      pb.rep_job_id rep = pb.ex_job_id t ∧
      (pb.rep_success rep = true →
       verdict (pb.ex_function_bytes t) (pb.ex_args_bytes t) = Some (pb.rep_result_bytes rep) ∧
       Forall (task_line t) (pb.rep_tail_lines rep))
  | ChunkMsg chunk => pb.chunk_job_id chunk = pb.ex_job_id t ∧ Forall (task_line t) (pb.chunk_lines chunk)
  end.

Definition true_message (tasks : list pb.ExecuteTaskRequest) (m : message) : Prop := ∃ t, t ∈ tasks ∧ tells t m.

Definition node_ok (tasks : list pb.ExecuteTaskRequest) (n : node) : Prop :=
  worker_reaches (X := n_executor n) (XO := n_ok n) (n_id n) (n_capacity n) (n_start n) (n_config n) ∧
  n_tasks n ⊆ tasks.

Record deployment_ok (d : deployment) : Prop := {
  dep_orch : reachable cfg now st (orch d);
  dep_nodes : Forall (node_ok (tasks_sent d)) (nodes d);
  dep_air : Forall (true_message (tasks_sent d)) (air d);
  dep_received : received (c_state (orch d)) ⊆ air d;
}.

Lemma node_ok_mono ts ts' n : ts ⊆ ts' → node_ok ts n → node_ok ts' n.
Proof. intros Hts [? ?]. split; [done|]. by etrans. Qed.

Lemma true_message_mono ts ts' m : ts ⊆ ts' → true_message ts m → true_message ts' m.
Proof. intros Hts (t & ? & ?). exists t. split; [by apply Hts|done]. Qed.

(** Where a strategy delivers output, it is the function's. *)
Lemma tail_line {E V : Type} `{X : !Executor E V} {XO : ExecutorOk E V} t l :
  (pb.line l, pb.is_stderr l) ∈
    tail_of (delivers true (written (pb.ex_function_bytes t) (pb.ex_args_bytes t))).1 → task_line t l.
Proof.
  unfold task_line, output_line. pose proof (delivers_output true (written (pb.ex_function_bytes t) (pb.ex_args_bytes t))) as H.
  repeat setoid_rewrite elem_of_cons in H. rewrite elem_of_nil in H.
  destruct H as [->|[->|[->|[]]]]; unfold tail_of; cbn [fst snd both]; [by intros ?%not_elem_of_nil| |by intros ?%not_elem_of_nil].
  intros [(x & [= E1 E2] & ?)%list_elem_of_fmap|(x & [= E1 E2] & ?)%list_elem_of_fmap]%elem_of_app;
    rewrite E1, E2; by right.
Qed.

Lemma sunk_line {E V : Type} `{X : !Executor E V} {XO : ExecutorOk E V} t l : shipped_line t l → task_line t l.
Proof.
  unfold shipped_line, sunk, task_line, output_line.
  pose proof (delivers_output true (written (pb.ex_function_bytes t) (pb.ex_args_bytes t))) as H.
  repeat setoid_rewrite elem_of_cons in H. rewrite elem_of_nil in H.
  destruct H as [->|[->|[->|[]]]]; cbn [snd]; [by left|..]; by intros ?%not_elem_of_nil.
Qed.

Lemma chunk_tells {E V : Type} `{X : !Executor E V} {XO : ExecutorOk E V} w ts ts' chunk :
  ts ⊆ ts' → true_chunk w ts chunk → true_message ts' (ChunkMsg chunk).
Proof.
  intros Hts (t & Ht & (Hid & _) & Hl). exists t. split; [by apply Hts|]. split; [done|].
  eapply Forall_impl; [exact Hl|]. intros l. apply sunk_line.
Qed.

Lemma node_sends ts n : node_ok ts n → Forall (true_message ts) (n_sent n).
Proof.
  intros [Hr Hts]. apply Forall_app. split; apply Forall_fmap, Forall_forall.
  - intros rep Hin. destruct (reports_are_faithful _ _ _ _ _ Hr Hin) as (t & Ht & Hid & _ & Hv).
    exists t. split; [by apply Hts|]. split; [done|]. intros Hok. destruct (Hv Hok) as [Hv' Htail]. split; [done|].
    apply Forall_forall. intros l Hl. apply (tail_line (X := n_executor n) (XO := n_ok n)).
    rewrite <- Htail. by apply (list_elem_of_fmap_2 (λ l, (pb.line l, pb.is_stderr l))).
  - intros chunk Hin. exact (chunk_tells _ _ _ _ Hts (chunks_are_true _ _ _ _ _ Hr Hin)).
Qed.

Hypothesis st_good : good contract st.
Hypothesis st_ok : store_ok (view contract st).

Lemma dstep_ok d d' : dstep d d' → deployment_ok d → deployment_ok d'.
Proof.
  intros [d0 c Hc Hrec|d0 n Hn|d0 i n c Hi Hc Hts|d0 i n t chunk Hi Ht Hc] [H1 H2 H3 H4].
  - assert (tasks_sent d0 ⊆ (sentTasks (c_state c)).*2) as Hsub.
    { destruct (reach cfg now st st_good st_ok _ H1) as [Hok _].
      pose proof (hist_sent _ _ (steps_Hist cfg _ _ Hok (rtc_once _ _ Hc))). unfold tasks_sent. set_solver. }
    split; cbn.
    + by eapply rtc_r.
    + eapply Forall_impl; [exact H2|]. intros n. by apply node_ok_mono.
    + eapply Forall_impl; [exact H3|]. intros m. by apply true_message_mono.
    + intros m [?|?]%Hrec%elem_of_app; [by apply H4|done].
  - split; cbn; [done| |done|done]. apply Forall_app. split; [done|]. apply Forall_singleton. split.
    + rewrite Hn. apply rtc_refl.
    + unfold n_tasks. rewrite Hn. apply list_subseteq_nil.
  - assert (node_ok (tasks_sent d0) (with_config n c)) as Hn.
    { rewrite Forall_lookup in H2. destruct (H2 _ _ Hi) as [Hr Hsub]. split.
      - by eapply rtc_r.
      - intros t [?|?]%Hts%elem_of_app; [by apply Hsub|done]. }
    split; cbn; [done| | |].
    + by apply Forall_insert.
    + apply Forall_app. split; [done|]. by apply (node_sends _ (with_config n c)).
    + intros m ?%H4. apply elem_of_app. by left.
  - split; cbn; [done|done| |].
    + apply Forall_app. split; [done|]. apply Forall_singleton.
      rewrite Forall_lookup in H2. destruct (H2 _ _ Hi) as [_ Hsub].
      exact (chunk_tells _ _ _ _ Hsub (early_chunk_true _ _ _ _ Ht Hc)).
    + intros m ?%H4. apply elem_of_app. by left.
Qed.

Lemma deployed_ok d : deployed d → deployment_ok d.
Proof.
  intros Hd. unfold deployed in Hd.
  assert (∀ d0, rtc dstep d0 d → deployment_ok d0 → deployment_ok d) as Hall.
  { intros d0 Hs. induction Hs as [|d1 d2 d3 H12 _ IH]; [done|]. intros H1. by eapply IH, dstep_ok. }
  apply (Hall _ Hd). split; cbn; [apply rtc_refl|constructor|constructor|done].
Qed.

(** ** From [spawn] to [get] *)

Context `{PL : !PickleLaws}.

(** The tasks sent for a job carry the function and the arguments of its invocation. *)
Lemma invoked d req id :
  deployment_ok d → (RInvoke req, YInvoke (Ok id)) ∈ c_replies (orch d) → pb.inv_idempotency_key req = "" →
  payloads (c_state (orch d)) !! id = Some (pb.inv_function_bytes req, pb.inv_args_bytes req) ∧
  ∀ t, t ∈ tasks_sent d → pb.ex_job_id t = id →
    pb.ex_function_bytes t = pb.inv_function_bytes req ∧ pb.ex_args_bytes t = pb.inv_args_bytes req.
Proof.
  intros [Ho _ _ _] Hinv Hkey. destruct (reach cfg now st st_good st_ok _ Ho) as (_ & HI & Hpost & _).
  apply Hpost in Hinv as (t & _ & _ & Hpay). destruct (Hpay Hkey) as [uuid Hp]. split; [exact Hp|].
  intros t1 ([addr t'] & -> & Ht)%list_elem_of_fmap Hid. cbn [snd] in *. rewrite <- Hid in Hp.
  pose proof (inv_sent _ HI _ _ _ Ht Hp) as E. unfold payload in E. cbn in E. by injection E as -> ->.
Qed.

(** The result of a job that is DONE is what its function returned. *)
Lemma done_is_verdict d req id r :
  deployed d → (RInvoke req, YInvoke (Ok id)) ∈ c_replies (orch d) → pb.inv_idempotency_key req = "" →
  record_of (orch d) id = Some r → Status r = StatusDone →
  verdict (pb.inv_function_bytes req) (pb.inv_args_bytes req) = Some (ResultBytes r).
Proof.
  intros Hd%deployed_ok Hinv Hkey Hr Hdone. destruct (invoked _ _ _ Hd Hinv Hkey) as [Hp Htasks].
  destruct Hd as [Ho _ Hair Hrec]. destruct (reach cfg now st st_good st_ok _ Ho) as (_ & HI & _).
  destruct (inv_payloads _ HI _ _ Hp) as (r' & Hr' & _ & Hans). unfold record_of in Hr.
  assert (r' = r) as -> by congruence. destruct (Hans Hdone) as (rep & Hin & Hid & Hok & <-).
  rewrite Forall_forall in Hair. destruct (Hair _ (Hrec _ Hin)) as (t & Ht & Hid' & Hv).
  destruct (Hv Hok) as [<- _]. destruct (Htasks t Ht) as [-> ->]; [congruence|done].
Qed.

Lemma verdict_local f args kwargs req rb :
  spawn f args kwargs = Ok req →
  verdict (pb.inv_function_bytes req) (pb.inv_args_bytes req) = Some rb →
  ∃ v, ends (local f args (pop_key kwargs).2) = Returns v ∧ deserialize_result rb = Ok v.
Proof.
  intros (Hload & _)%spawn_payload. unfold verdict. rewrite Hload. fold (local f args (pop_key kwargs).2).
  destruct (ends _) as [v| | |]; [|done..]. destruct (dumps v) as [b|] eqn:Hd; [|done]. intros [= <-].
  exists v. split; [done|]. apply (deserialize_serialize_result v). unfold serialize_result. by rewrite Hd.
Qed.

(** What [get] makes of the stream of a finished job. *)
Lemma get_record timeout_s pl pre r err id :
  ongoing id pre → terminal r = true →
  (Status r = StatusDone →
     ∃ v, deserialize_result (ResultBytes r) = Ok v) →
  let '(res, fut) := get timeout_s pl (pre ++ [jobResultEvent r], err) (new_future id) in
  (Status r = StatusDone ∧ _resolved fut = true ∧
     ∃ v, deserialize_result (ResultBytes r) = Ok v ∧ res = Ok v) ∨
  (Status r = StatusFailed ∧ _resolved fut = false ∧
     res = Err (mkExn FutureError ("job " +:+ id +:+ " failed: " +:+ JobError r))).
Proof.
  intros Hpre Ht Hdec. unfold get. cbn [new_future _resolved fst snd].
  rewrite consume_app by (eapply Forall_impl; [exact Hpre|by intros ev [? _]]).
  unfold terminal, terminal_status in Ht. apply orb_true_iff in Ht as [E%String.eqb_eq|E%String.eqb_eq].
  - destruct (Hdec E) as [v Hv]. cbn -[deserialize_result]. unfold _finish. cbn -[deserialize_result].
    rewrite E. cbn -[deserialize_result]. rewrite Hv. left. split; [done|]. split; [done|]. by exists v.
  - cbn -[deserialize_result]. unfold _finish. cbn -[deserialize_result]. rewrite E. by right.
Qed.

(** C1: Calling a function remotely is calling it.  Take any deployment: any workers, each
    with its strategy, any interleaving, any crashes, any lost or repeated messages.  If
    [spawn] sent a function and its arguments (without an idempotency key) and [get] read
    the job's stream to its end, then the job is finished in the store, and either it is
    DONE and [get] returns the value that the function returns on these arguments in the
    caller's process, or it FAILED and [get] raises a [FutureError] with the job's error.
    If the stream ended otherwise, [get] raises and leaves the future unresolved. *)
Theorem remote_is_local d f args kwargs req id fuel sent ending err timeout_s pl :
  deployed d → spawn f args kwargs = Ok req → pb.inv_idempotency_key req = "" →
  (RInvoke req, YInvoke (Ok id)) ∈ c_replies (orch d) →
  (RWatch fuel id, YWatch sent ending) ∈ c_replies (orch d) →
  let '(res, fut) := get timeout_s pl (sent, err) (new_future id) in
  match ending with
  | WatchResult =>
      ∃ r, record_of (orch d) id = Some r ∧
        ((Status r = StatusDone ∧ _resolved fut = true ∧
            ∃ v, res = Ok v ∧ ends (local f args (pop_key kwargs).2) = Returns v) ∨
         (Status r = StatusFailed ∧ _resolved fut = false ∧
            res = Err (mkExn FutureError ("job " +:+ id +:+ " failed: " +:+ JobError r))))
  | _ => _resolved fut = false ∧ ∃ e, res = Err e
  end.
Proof.
  intros Hd Hspawn Hkey Hinv Hwatch. destruct (deployed_ok d Hd) as [Ho _ _ _].
  destruct (reach cfg now st st_good st_ok _ Ho) as (_ & _ & Hpost & _).
  apply Hpost in Hwatch. cbn in Hwatch. destruct Hwatch as [_ Hwatch]. cbn [fst snd] in Hwatch.
  assert (ongoing id sent → let '(res, fut) := get timeout_s pl (sent, err) (new_future id) in
    _resolved fut = false ∧ ∃ e, res = Err e) as Hearly.
  { intros Hon. unfold get. cbn [new_future _resolved fst snd].
    pose proof (consume_app timeout_s pl sent [] err (new_future id)) as E. rewrite app_nil_r in E.
    rewrite E by (eapply Forall_impl; [exact Hon|by intros ev [? _]]). cbn. eauto. }
  destruct ending; [|by apply Hearly..].
  destruct Hwatch as (pre & ev & -> & Hpre & Hres & Hid & Hev). destruct (Hev Hres) as (r & Hr & Ht & ->).
  rewrite Hid in Hr. pose proof (done_is_verdict d req id r Hd Hinv Hkey Hr) as Hv.
  pose proof (get_record timeout_s pl pre r err id Hpre Ht) as Hget.
  destruct (get _ _ _ _) as [res fut]. exists r. split; [done|].
  destruct Hget as [(E & Hf & v & Hv1 & Hv2)|(E & Hf & He)]; [|left|by right].
  - intros E. destruct (verdict_local _ _ _ _ _ Hspawn (Hv E)) as (v & _ & ?). by exists v.
  - split; [done|]. split; [done|]. exists v. split; [done|].
    destruct (verdict_local _ _ _ _ _ Hspawn (Hv E)) as (v' & ? & ?). congruence.
Qed.

(** What a failed attempt at the job left: a tail line of a report without success. *)
Definition failure_line (d : deployment) (id : string) (l : pb.LogLine) : Prop :=
  ∃ rep, ReportMsg rep ∈ air d ∧ pb.rep_job_id rep = id ∧ pb.rep_success rep = false ∧ l ∈ pb.rep_tail_lines rep.

(** A line that was received for an invoked job is a line of its function's output. *)
Lemma sent_line_output d f args kwargs req id l :
  deployment_ok d → spawn f args kwargs = Ok req → pb.inv_idempotency_key req = "" →
  (RInvoke req, YInvoke (Ok id)) ∈ c_replies (orch d) →
  sent_line (received (c_state (orch d))) id l →
  output_line (writes (local f args (pop_key kwargs).2)) l ∨ failure_line d id l.
Proof.
  intros Hd Hspawn Hkey Hinv (m & Hin & Hm). destruct (invoked _ _ _ Hd Hinv Hkey) as [_ Htasks].
  destruct Hd as [_ _ Hair Hrec]. apply Hrec in Hin. rewrite Forall_forall in Hair.
  destruct (Hair _ Hin) as (t & Ht & Htells).
  assert (pb.ex_job_id t = id → task_line t l → output_line (writes (local f args (pop_key kwargs).2)) l) as Hout.
  { intros Hid. unfold task_line, written. destruct (Htasks t Ht Hid) as [-> ->].
    apply spawn_payload in Hspawn as (-> & _). done. }
  destruct m as [rep|chunk]; destruct Htells as [Hid Hl], Hm as [Hid' Hin'].
  - destruct (pb.rep_success rep) eqn:Hok; [left|right; by exists rep].
    apply Hout; [congruence|]. destruct (Hl eq_refl) as [_ Hall]. rewrite Forall_forall in Hall. by apply Hall.
  - left. apply Hout; [congruence|]. rewrite Forall_forall in Hl. by apply Hl.
Qed.

(** The lines that [get] keeps are those of the log events of the stream. *)
Lemma get_logs timeout_s pl evs err id lb :
  lb ∈ logs (get timeout_s pl (evs, err) (new_future id)).2 → ∃ ev, ev ∈ evs ∧ log_of ev = Some lb.
Proof.
  assert (∀ f, lb ∈ logs (consume timeout_s pl evs err f).2 → lb ∈ logs f ∨ ∃ ev, ev ∈ evs ∧ log_of ev = Some lb) as H.
  { induction evs as [|ev evs IH]; intros f; cbn [consume].
    - destruct err; cbn; by left.
    - unfold log_of in *. destruct ev as [i [s|l|r]] eqn:Eev; cbn [pb.ev_event].
      + intros [?|(ev' & ? & ?)]%IH; [by left|]. right. exists ev'. split; [by right|done].
      + intros [Hl|(ev' & ? & ?)]%IH; [|right; exists ev'; split; [by right|done]].
        cbn in Hl. apply elem_of_app in Hl as [?|Hl%list_elem_of_singleton]; [by left|right].
        eexists. split; [by left|]. cbn. by rewrite Hl.
      + unfold _finish. cbn. intros Hl. left. revert Hl.
        destruct (decide _); [destruct (deserialize_result _)|]; done. }
  intros Hl. unfold get in Hl. cbn [new_future _resolved fst snd] in Hl.
  destruct (H (new_future id) Hl) as [[]%not_elem_of_nil|?]; done.
Qed.

(** C2: The logs are the function's own.  In any deployment, every line that [get] has kept
    and printed for a spawned job, whether the stream was read to its end or not, is a line
    of what the function of this job writes on that stream, on these arguments (cut where
    the orchestrator's limit on lines cuts it); or it comes from a report of this very job
    that told a failure.  Nothing another job wrote gets in, whatever ran beside it on the
    same worker. *)
Theorem logs_are_output d f args kwargs req id fuel sent ending err timeout_s pl line is_stderr :
  deployed d → spawn f args kwargs = Ok req → pb.inv_idempotency_key req = "" →
  (RInvoke req, YInvoke (Ok id)) ∈ c_replies (orch d) →
  (RWatch fuel id, YWatch sent ending) ∈ c_replies (orch d) →
  (line, is_stderr) ∈ logs (get timeout_s pl (sent, err) (new_future id)).2 →
  ∃ l, line = pb.line (LogHub.truncate l) ∧ is_stderr = pb.is_stderr l ∧
    (output_line (writes (local f args (pop_key kwargs).2)) l ∨ failure_line d id l).
Proof.
  intros Hd%deployed_ok Hspawn Hkey Hinv Hwatch (ev & Hev & Hlog)%get_logs.
  destruct (reach cfg now st st_good st_ok _ (dep_orch _ Hd)) as (_ & _ & Hpost & _).
  apply Hpost in Hwatch. cbn in Hwatch. apply watch_lines in Hwatch as [Htold Hids]. cbn [fst] in *.
  unfold told in Htold. rewrite Forall_forall in Htold, Hids. specialize (Htold _ Hev). specialize (Hids _ Hev).
  unfold log_of, log_ok in *. destruct (pb.ev_event ev) as [|l|]; [done| |done]. injection Hlog as <- <-.
  destruct Htold as (l0 & -> & Hsent). rewrite Hids in Hsent. exists l0. split; [done|].
  split; [by unfold LogHub.truncate; destruct (_ <? _)%Z|]. by eapply sent_line_output.
Qed.

End deployment.
