(* ===== verification/Pickles.v ===== *)
(** * Pickles: a concrete pickle

    An instance of the class [Pickle] that satisfies its laws, so that the theorems about
    the worker and the SDK can be evaluated on examples.  A value is a finite tree, a
    tree is a number, and a number is written as its bits, one per byte. *)

From stdpp Require Import strings gmap sorting prelude countable.
From Stdlib.Strings Require Import Byte.
From S2P Require Import Prelude Types Python.

(** ** Values as trees *)

Abbreviation tree := (gen_tree (string + Z)).

Definition leaf_text (s : string) : tree := GenLeaf (inl s).

Definition leaf_number (z : Z) : tree := GenLeaf (inr z).

Fixpoint to_tree (v : pyval) : tree :=
  match v with
  | PNone => GenNode 0 []
  | PBool b => GenNode 1 [leaf_number (Z.b2z b)]
  | PInt z => leaf_number z
  | PStr s => leaf_text s
  | PBytes b => GenNode 2 [leaf_text (String.string_of_list_byte b)]
  | PTuple l => GenNode 3 (map to_tree l)
  | PDict l => GenNode 4 (map (λ kv, GenNode 0 [leaf_text kv.1; to_tree kv.2]) l)
  | PFunction s => GenNode 5 [leaf_text s]
  | PObject s => GenNode 6 [leaf_text s]
  end.

Fixpoint of_tree (t : tree) : pyval :=
  match t with
  | GenLeaf (inl s) => PStr s
  | GenLeaf (inr z) => PInt z
  | GenNode 1 [GenLeaf (inr z)] => PBool (z =? 1)%Z
  | GenNode 2 [GenLeaf (inl s)] => PBytes (String.list_byte_of_string s)
  | GenNode 3 l => PTuple (map of_tree l)
  | GenNode 4 l =>
      PDict (map (λ t, match t with
                       | GenNode 0 [GenLeaf (inl k); v] => (k, of_tree v)
                       | _ => ("", PNone)
                       end) l)
  | GenNode 5 [GenLeaf (inl s)] => PFunction s
  | GenNode 6 [GenLeaf (inl s)] => PObject s
  | _ => PNone
  end.

Lemma of_to_tree : ∀ v, of_tree (to_tree v) = v.
Proof.
  fix IH 1. intros [| []| | |b|l|l| |]; cbn; [done..| | | |done|done].
  - by rewrite String.list_byte_of_string_of_list_byte.
  - f_equal. rewrite map_map. induction l as [|v l IHl]; [done|]. cbn. by rewrite IH, IHl.
  - f_equal. rewrite map_map. induction l as [|[k v] l IHl]; [done|]. cbn. f_equal; [by rewrite IH|exact IHl].
Qed.

(** ** Numbers as bytes *)

Fixpoint bits (p : positive) : bytes :=
  match p with
  | xH => [x2e]
  | xO p => x30 :: bits p
  | xI p => x31 :: bits p
  end.

Fixpoint unbits (b : bytes) : option positive :=
  match b with
  | [x2e] => Some xH
  | x30 :: b => xO <$> unbits b
  | x31 :: b => xI <$> unbits b
  | _ => None
  end.

Lemma unbits_bits p : unbits (bits p) = Some p.
Proof.
  induction p as [p IH|p IH|]; [| |done].
  - change (unbits (bits (xI p))) with (xI <$> unbits (bits p)). by rewrite IH.
  - change (unbits (bits (xO p))) with (xO <$> unbits (bits p)). by rewrite IH.
Qed.

(** ** The instance *)

#[export] Instance tree_pickle : Pickle := {
  dumps v := Ok (bits (encode (to_tree v)));
  loads b :=
    match unbits b ≫= decode with
    | Some t => Ok (of_tree t)
    | None => Err (mkExn (OtherException "UnpicklingError") "invalid load key")
    end;
}.

#[export] Instance tree_pickle_laws : PickleLaws.
Proof.
  split; cbn.
  - intros v b [= <-]. rewrite unbits_bits. cbn. rewrite decode_encode. by rewrite of_to_tree.
  - intros v b [= <-]. by destruct (encode (to_tree v)).
  - eauto.
  - done.
  - intros b e. destruct (unbits b ≫= decode); [done|]. by intros [= <-].
Qed.
