(* ===== verification/Runs.v ===== *)
(** * Runs: the worker and the SDK on concrete inputs

    A pickle (Pickles.v), a few user functions and schedules on which the theorems about
    the Python side are evaluated. *)

From stdpp Require Import strings gmap sorting prelude pretty.
From Stdlib Require Import SpecFloat.
From S2P Require Import Prelude Types Prog Config Bolt StoreSpec JobStore WorkerPool LogHub State Watch Server Invariant Safety System.
From S2P Require Import Python Framing LogStream Serialization Executor Tokens WarmPool Strategies Worker WorkerMain.
From S2P Require Import Sdk EndToEnd Pickles.

Open Scope py_scope.

(** ** User functions *)

Module Demo.

(** [double] doubles its argument and prints; the others fail in their own ways. *)
#[export] Instance demo_code : UserCode := λ f args kwargs,
  match f, args with
  | PFunction "double", [PInt z] =>
      mkBehaviour [("half a li", false); ("ne" +:+ String newline "", false); ("warning", true)]
        (Returns (PInt (2 * z)))
  | PFunction "raise", _ => mkBehaviour [] (Raises (mkExn ValueError "bad input"))
  | PFunction "exit", _ => mkBehaviour [] (Raises (mkExn (SystemExit 3) ""))
  | PFunction "segv", _ => mkBehaviour [] Dies
  | PFunction "loop", _ => mkBehaviour [] Hangs
  | _, _ => mkBehaviour [] (Raises (mkExn TypeError "object is not callable"))
  end.

Definition pickled (v : pyval) : bytes := match dumps v with Ok b => b | Err _ => [] end.

(** The payload of a job that calls a function with a number. *)
Definition fn_bytes (name : string) : bytes := pickled (PFunction name).

Definition args_bytes (z : Z) : bytes := pickled (PTuple [PTuple [PInt z]; PDict []]).

Definition clock (n : Z) : spec_float := WorkerPool.WorkerPool.float64 n.

Definition traceback (e : exn) : string := "Traceback: " +:+ exn_msg e.

Definition whole : sock_env := mkSockEnv 1000000 None.

Definition quiet_runner : runner_env := mkRunnerEnv whole (clock 0) traceback.

End Demo.

(** ** The warm pool *)

Module PoolRun.
Import Demo.

Definition config0 : WarmPoolConfig := mkPoolConfig 2 ["numpy"; " "] "/tmp/warm" "30.0".

(** Nothing fails; the [n]th UUID and PID. *)
Definition fine (n : nat) : pool_env :=
  mkPoolEnv (clock 0) traceback None None (Ok (100 + Z.of_nat n)%Z) true (pretty n) None false None
    (λ _, whole) (λ _, quiet_runner) None None (λ _, whole).

Definition started_pool : pool :=
  match run fine (start config0) __init__ with Done _ s => s | _ => __init__ end.

Lemma started_run : run fine (start config0) __init__ = Done (Ok tt) started_pool.
Proof. vm_compute. reflexivity. Qed.

Lemma started_within : within (pool_possible config0) fine (start config0) __init__.
Proof. eapply (checked_within (pool_possible config0)); [done|]. vm_compute. reflexivity. Qed.

(** Two tasks at the same time; the function of the second one crashes its child, which
    is replaced. *)
Definition two_tasks : list (move pool_env (bytes * bytes)) :=
  [Start (fn_bytes "double", args_bytes 21); Start (fn_bytes "segv", args_bytes 0)]
    ++ mjoin ((λ n, [Go 0 (fine n); Go 1 (fine n)]) <$> seq 100 8)
    ++ ((λ n, Go 1 (fine n)) <$> seq 200 7) ++ [Answer 1; Answer 0].

(** The end of the run: nobody is running, and the replies. *)
Definition tasks_end (c : config pool pool_env (bytes * bytes) pool_reply) :
    nat * list (option (bool * bytes)) * nat * nat :=
  (length (c_threads c),
   (λ r, match r.2 with Ok (res, _) => Some (success res, result_bytes res) | Err _ => None end) <$> c_replies c,
   length (slots (c_state c)), lost (c_state c)).

Lemma tasks_run :
  tasks_end <$> play (pool_server config0 started_pool) two_tasks (mkConfig started_pool [] []) =
  Some (0, [Some (false, []); Some (true, pickled (PInt 42))], 2, 0).
Proof. vm_compute. reflexivity. Qed.

Lemma pool_is_conserved_witness :
  ∃ c, tasks_end c = (0, [Some (false, []); Some (true, pickled (PInt 42))], 2, 0) ∧
    NoDup (conns (c_state c)) ∧ slots (c_state c) ≡ₚ idle (c_state c) ∧ forks (c_state c) = 1.
Proof.
  destruct (proj1 (fmap_Some _ _ _) tasks_run) as (c & Hc & E). exists c. split; [done|].
  destruct (pool_is_conserved config0 fine started_pool c started_within started_run (play_reach _ _ _ _ Hc))
    as (_ & Hconns & _ & _ & _ & Hforks & Hquiet & _).
  split; [exact Hconns|]. split; [|exact Hforks].
  apply Hquiet. destruct (c_threads c) eqn:Ht; [done|]. unfold tasks_end in E. rewrite Ht in E. discriminate.
Defined.

(** The spawner is gone: children that break are not replaced. *)
Definition no_spawner (n : nat) : pool_env :=
  mkPoolEnv (clock 0) traceback None None (Ok (100 + Z.of_nat n)%Z) true (pretty n)
    (Some (mkExn ConnectionError "Connection refused", false)) true None
    (λ _, whole) (λ _, quiet_runner) None None (λ _, whole).

(** Three tasks one after the other: two whose function crashes its child, and one more. *)
Definition dry_tasks : list (move pool_env (bytes * bytes)) :=
  [Start (fn_bytes "segv", args_bytes 0)] ++ ((λ n, Go 0 (no_spawner n)) <$> seq 100 13) ++ [Answer 0]
    ++ [Start (fn_bytes "segv", args_bytes 0)] ++ ((λ n, Go 0 (no_spawner n)) <$> seq 200 13) ++ [Answer 0]
    ++ [Start (fn_bytes "double", args_bytes 21)] ++ ((λ n, Go 0 (no_spawner n)) <$> seq 300 4) ++ [Answer 0].

Definition dry_end (c : config pool pool_env (bytes * bytes) pool_reply) :=
  ((λ r, match r.2 with Ok (res, _) => error_ res | Err _ => "" end) <$> c_replies c,
   idle (c_state c), slots (c_state c), lost (c_state c)).


(** [shutdown] leaves the children of the old pool on the queue; after another [start] the
    first tasks get dead children. *)
Definition restarted_pool : run_result pool (result exn unit) :=
  run fine (let* _ := start config0 in let* _ := shutdown config0 in start config0) __init__.

Lemma restart_keeps_dead_children :
  match restarted_pool with
  | Done r s => (r, length (idle s), length (slots s), (λ x, bool_decide (pid x ∈ live s)) <$> idle s)
  | _ => (Ok tt, 0, 0, [])
  end = (Ok tt, 4, 2, [false; false; true; true]).
Proof. vm_compute. reflexivity. Qed.

End PoolRun.

(** ** The three strategies on one task *)

Module StrategyRun.
Import Demo PoolRun.

Definition fresh : naive_env := mkNaiveEnv (clock 0) traceback None Exits (λ _, quiet_runner) 0 "".

Definition request_header : bytes :=
  match pack_I (len (pickled (request_value (fn_bytes "double") (args_bytes 21)))) with Ok h => h | Err _ => [] end.


End StrategyRun.

(** ** A worker *)

Module WorkerRun.
Import Demo.

Abbreviation inproc_req := (worker_req (E := unit) (O := runner_env) (X := InprocExecutor) (XO := inproc_ok)).

Abbreviation inproc_server := (worker_server (E := unit) (O := runner_env) (X := InprocExecutor) (XO := inproc_ok) "w" 2 tt).

#[export] Instance worker_allowed_dec (o : worker_env runner_env) (s : worker unit) :
  Decision (allowed inproc_server o s).
Proof.
  refine (match w_rpc o as r return w_rpc o = r → _ with
          | Some e => match is_RpcError e as c return is_RpcError e = c → _ with
                      | Some _ => λ Hc Hr, left (conj I _)
                      | None => λ Hc Hr, right _
                      end eq_refl
          | None => λ Hr, left (conj I _)
          end eq_refl).
  - intros e' He'. rewrite Hr in He'. injection He' as <-. by rewrite Hc.
  - intros [_ H]. destruct (H e Hr) as [c Hs]. by rewrite Hs in Hc.
  - intros e He. by rewrite He in Hr.
Defined.

(** Everything works, or the orchestrator cannot be reached. *)
Definition at_work (rpc : option exn) : worker_env runner_env :=
  mkWorkerEnv quiet_runner Z.of_nat rpc (λ _, Streamer.mkStreamEnv 0 None) 0.

Definition unavailable : exn := mkExn (RpcError UNAVAILABLE) "unavailable".

Definition task (id name : string) : pb.ExecuteTaskRequest := pb.mkExecute id (fn_bytes name) (args_bytes 21) name.

Lemma double_hosted : hosted (XO := inproc_ok (O := runner_env)) (task "job-1" "double").
Proof. vm_compute. exact I. Defined.

Lemma raise_hosted : hosted (XO := inproc_ok (O := runner_env)) (task "job-2" "raise").
Proof. vm_compute. reflexivity. Defined.

(** Two tasks; the report of the first one does not get through, the second one is
    cancelled by the shutdown. *)
Definition worker_moves : list (move (worker_env runner_env) inproc_req) :=
  [Start (RExecute _ double_hosted); Start (RExecute _ raise_hosted)]
    ++ mjoin (replicate 2 [Go 0 (at_work None); Go 1 (at_work None)]) ++ [Answer 1; Answer 0]
    ++ [Start RThread] ++ replicate 7 (Go 0 (at_work (Some unavailable)))
    ++ [Start RStop; Go 1 (at_work None)]
    ++ replicate 4 (Go 0 (at_work (Some unavailable))) ++ [Answer 0; Go 0 (at_work None); Answer 0].

Definition worker_end (c : config (worker unit) (worker_env runner_env) inproc_req worker_reply) :=
  (length (c_threads c), (λ rep, (pb.rep_job_id rep, pb.rep_success rep, pb.rep_result_bytes rep)) <$> reports (c_state c),
   pb.ex_job_id <$> cancelled (c_state c)).

Lemma worker_run :
  worker_end <$> play inproc_server worker_moves (mkConfig (new_worker tt) [] []) =
  Some (0, [("job-1", true, pickled (PInt 42))], ["job-2"]).
Proof. vm_compute. reflexivity. Qed.

Lemma tasks_are_accounted_for_witness :
  ∃ c, worker_end c = (0, [("job-1", true, pickled (PInt 42))], ["job-2"]) ∧
    busy (c_state c) = 0 ∧ _active (c_state c) = Z.of_nat (length (work_queue (c_state c)) + 1 + refused (c_state c)).
Proof.
  destruct (proj1 (fmap_Some _ _ _) worker_run) as (c & Hc & E). exists c. split; [exact (eq_sym E)|].
  destruct (tasks_are_accounted_for (X := InprocExecutor) (XO := inproc_ok) "w" 2 tt c (play_reach _ _ _ _ Hc))
    as (r & fin & _ & _ & _ & _ & _ & Hquiet).
  unfold worker_end in E. destruct Hquiet as (_ & Hb & Ha); [by destruct (c_threads c)|].
  split; [exact Hb|]. rewrite Ha. destruct (cancelled (c_state c)) as [|x [|y l]]; try discriminate E. f_equal.
Defined.

(** A worker with one task queued, while the orchestrator cannot be reached. *)
Definition one_task : worker unit := mkWorker tt 1 [task "job-1" "double"] 0 false [task "job-1" "double"] [] 0 [] [].

Lemma task_is_reported_witness :
  ∃ s' res rep, run (λ _, at_work (Some unavailable)) (task_thread (X := InprocExecutor) "w" 2) one_task = Done (Ok tt) s' ∧
    reports s' = [rep] ∧ relays "w" (task "job-1" "double") res rep ∧ _active s' = 0%Z.
Proof.
  destruct (task_is_reported (X := InprocExecutor) (XO := inproc_ok) "w" 2 (λ _, at_work (Some unavailable)) one_task
    (task "job-1" "double") []) as (s' & res & rep & Hrun & _ & Hrel & Hrep & _ & _ & Ha & _).
  - vm_compute. exact I.
  - exact I.
  - exact I.
  - reflexivity.
  - cbn. lia.
  - intros n s. split; [exact I|]. intros e [= <-]. vm_compute. by eexists.
  - exists s', res, rep. split; [exact Hrun|]. split; [exact Hrep|]. split; [exact Hrel|exact Ha].
Defined.

Lemma exit_is_not_reported_witness :
  ∃ s, run (λ _, at_work None) (ExecuteTask (task "job-3" "exit") ;;; task_thread "w" 2) (new_worker tt) = Done (Ok tt) s ∧
    submitted_tasks s = [task "job-3" "exit"] ∧ reports s = [].
Proof.
  destruct (exit_is_not_reported "w" 2 (task "job-3" "exit") (PFunction "exit") [PInt 21] [] (mkExn (SystemExit 3) "")
    (λ _, at_work None)) as (s & Hrun & Hsub & _ & _ & _ & Hrep);
    [vm_compute; reflexivity|reflexivity|vm_compute; reflexivity|lia|].
  exists s. split; [exact Hrun|]. split; [exact Hsub|exact Hrep].
Defined.

End WorkerRun.

(** ** Starting and rejoining *)

Module Joining.
Import Demo.

(** The orchestrator is not there for the first [n] attempts. *)
Definition late (n i : nat) : net_env :=
  mkNetEnv (if decide (i < 2 * n) then Err WorkerRun.unavailable else Ok (pb.mkRegisterResponse "w" 0)) (Ok false) false.

Lemma register_retries_witness :
  run (late 6) (register "w" "host:1" 4 10) (mkNet [] [] []) =
    Done (Ok 2000%Z) (mkNet (replicate 7 (pb.mkRegister "w" "host:1" 4)) []
      [first_backoff; seconds 1; seconds 2; seconds 4; seconds 5; seconds 5]).
Proof.
  apply (register_retries 6 10 "w" "host:1" 4 (late 6) (mkNet [] [] []) (pb.mkRegisterResponse "w" 0)).
  - reflexivity.
  - lia.
  - intros i Hi. exists WorkerRun.unavailable. split; [|by eexists]. unfold late. by rewrite decide_True by lia.
  - reflexivity.
Defined.

Import Examples.

(** An orchestrator that was restarted and knows no worker. *)
Lemma heartbeat_rejoins_witness :
  ∃ pool w, run (λ _, env 5 "u" 0) (heartbeat (SU := orchestrator_calls cfg0) "w" "host:1" 4 (pure 1%Z) 1) (c_state start) =
      Done (Ok tt) (set_workerPool pool (c_state start)) ∧
    WorkerPool.workers pool = {["w" := w]} ∧ WorkerPool.address w = "host:1" ∧
    ∀ ord, (WorkerPool.LeastLoadedAlive ord pool).2 = true.
Proof.
  destruct (heartbeat_rejoins cfg0 (λ _, env 5 "u" 0) (c_state start) "w" "host:1" 4 1)
    as (pool & w & Hrun & Hw & _ & [Ha _] & Hfound); [done..|apply WorkerPool.NewWorkerPool_wf|].
  exists pool, w. split; [exact Hrun|]. split; [exact Hw|]. split; [exact Ha|exact Hfound].
Defined.

End Joining.

(** ** A whole deployment *)

Module Deployment.
Import Demo WorkerRun Examples.

#[local] Existing Instance pb.LogLine_eq_dec.

#[local] Instance report_eq_dec : EqDecision pb.ReportTaskResultRequest.
Proof. solve_decision. Defined.

#[local] Instance chunk_eq_dec : EqDecision pb.TaskLogChunk.
Proof. solve_decision. Defined.

#[local] Instance message_eq_dec : EqDecision message.
Proof. solve_decision. Defined.

#[local] Instance task_eq_dec : EqDecision pb.ExecuteTaskRequest.
Proof. solve_decision. Defined.

Abbreviation inproc_conf := (config (worker unit) (worker_env runner_env) inproc_req worker_reply).

Definition the_node (w : inproc_conf) : node := mkNode unit runner_env InprocExecutor inproc_ok "w" 2 tt w.

(** The orchestrator and one worker. *)
Definition duo (x : conf * inproc_conf * list message) : deployment :=
  mkDeployment x.1.1 [the_node x.1.2] x.2.

Definition dmove (m : move (oracle bolt_api) Req + move (worker_env runner_env) inproc_req)
    (x : conf * inproc_conf * list message) :
    option (conf * inproc_conf * list message) :=
  let '(c, w, air) := x in
  match m with
  | inl m =>
      c' ← play_move (orchestrator cfg0) m c;
      if bool_decide (Forall (λ m, m ∈ received (c_state c) ++ air) (received (c_state c')))
      then Some (c', w, air) else None
  | inr m =>
      w' ← play_move inproc_server m w;
      if bool_decide (Forall (λ t, t ∈ submitted_tasks (c_state w) ++ (sentTasks (c_state c)).*2)
                        (submitted_tasks (c_state w')))
      then Some (c, w', air ++ n_sent (the_node w')) else None
  end.

Fixpoint dplay ms (x : conf * inproc_conf * list message) :=
  match ms with
  | [] => Some x
  | m :: ms => x ← dmove m x; dplay ms x
  end.

Lemma dmove_step m x y : dmove m x = Some y → dstep cfg0 (duo x) (duo y).
Proof.
  destruct x as [[c w] air]. unfold dmove. destruct m as [m|m].
  - intros (c' & Hc%play_move_step & H)%bind_Some. case_bool_decide as Hall; [|done]. injection H as <-.
    rewrite Forall_forall in Hall. by apply (orchestrator_moves cfg0 (duo (c, w, air)) c').
  - intros (w' & Hw%play_move_step & H)%bind_Some. case_bool_decide as Hall; [|done]. injection H as <-.
    rewrite Forall_forall in Hall. by apply (EndToEnd.worker_moves cfg0 (duo (c, w, air)) 0 (the_node w) w').
Qed.

Lemma dplay_steps ms x y : dplay ms x = Some y → rtc (dstep cfg0) (duo x) (duo y).
Proof.
  revert x. induction ms as [|m ms IH]; intros x; cbn; [by intros [= ->]|].
  intros (z & Hz%dmove_step & H)%bind_Some. eapply rtc_l; [exact Hz|by apply IH].
Qed.

(** The worker registers; [double.spawn(21)] is invoked, watched, dispatched and run; its
    log is streamed, and its result reported. *)
Definition double : Func := new_func (PFunction "double").

Definition request : pb.InvokeFunctionRequest :=
  pb.mkInvoke (fn_bytes "double") (args_bytes 21) "double" "".

Definition answer : pb.ReportTaskResultRequest :=
  pb.mkReport "job-1" "w" true (pickled (PInt 42)) "" 0 0 [].

Definition printout : list pb.TaskLogChunk :=
  [pb.mkChunk "job-1" "w" [pb.mkLogLine "half a line" false 0];
   pb.mkChunk "job-1" "w" [pb.mkLogLine "warning" true 1]].

Definition whole_life : list (move (oracle bolt_api) Req + move (worker_env runner_env) inproc_req) :=
  (inl <$>
    ([Start (RRegister (pb.mkRegister "w" "host:1" 2)); Go 0 (env 1 "u" 0); Answer 0]
      ++ [Start (RInvoke request); Go 0 (env 2 "u" 0); Go 0 (env 3 "job-1" 0)] ++ steps 0 3 (env 4 "u" 0) ++ [Answer 0]
      ++ [Start (RWatch 5 "job-1")] ++ steps 0 4 (env 5 "u" 2)
      ++ [Start (RDrainer 2)] ++ steps 1 6 (env 6 "u" 0)))
  ++ (inr <$>
    ([Start (RExecute _ double_hosted)] ++ replicate 2 (Go 0 (at_work None)) ++ [Answer 0]
      ++ [Start RThread] ++ replicate 11 (Go 0 (at_work None)) ++ [Answer 0]))
  ++ (inl <$>
    ([Start (RLogs printout None)] ++ steps 2 7 (env 7 "u" 0) ++ [Answer 2]
      ++ steps 0 4 (env 7 "u" 1)
      ++ [Start (RReport answer)] ++ steps 2 8 (env 7 "u" 0) ++ [Answer 2] ++ steps 0 6 (env 8 "u" 1) ++ [Answer 0])).

Definition whole_end (x : conf * inproc_conf * list message) := c_replies x.1.1.

Definition whole_result : pb.JobResult := pb.mkJobResult pb.JOB_STATUS_DONE (pickled (PInt 42)) "" 0 0 0 "w".

Definition stream : list pb.JobEvent :=
  [statusEvent "job-1" StatusPending;
   pb.mkJobEvent "job-1" (pb.JobEvent_Log (pb.mkLogLine "half a line" false 0)); statusEvent "job-1" StatusRunning;
   pb.mkJobEvent "job-1" (pb.JobEvent_Log (pb.mkLogLine "warning" true 1));
   pb.mkJobEvent "job-1" (pb.JobEvent_Result whole_result)].

Lemma whole_run :
  whole_end <$> dplay whole_life (start, mkConfig (new_worker tt) [] [], []) =
  Some [(RRegister (pb.mkRegister "w" "host:1" 2), YRegister (Ok (pb.mkRegisterResponse "w" 2000)));
        (RInvoke request, YInvoke (Ok "job-1")); (RLogs printout None, YLogs (Ok true)); (RReport answer, YReport (Ok true));
        (RWatch 5 "job-1", YWatch stream WatchResult)].
Proof. vm_compute. reflexivity. Qed.

Lemma whole_deployed :
  ∃ x, deployed cfg0 0 (BoltStore.empty_store : store) (duo x) ∧
    (RInvoke request, YInvoke (Ok "job-1")) ∈ c_replies (orch (duo x)) ∧
    (RWatch 5 "job-1", YWatch stream WatchResult) ∈ c_replies (orch (duo x)).
Proof.
  destruct (proj1 (fmap_Some _ _ _) whole_run) as (x & Hx & E). exists x. split; [|split].
  - eapply rtc_l; [|exact (dplay_steps _ _ _ Hx)].
    apply (worker_joins cfg0 (mkDeployment start [] []) (the_node (mkConfig (new_worker tt) [] []))). reflexivity.
  - change (c_replies (orch (duo x))) with (whole_end x). rewrite <- E. right. left.
  - change (c_replies (orch (duo x))) with (whole_end x). rewrite <- E. right. right. right. right. left.
Qed.

(** The caller gets 42. *)
Definition caller : result exn pyval * Future := get "60.0" true (stream, None) (new_future "job-1").

Lemma spawned : spawn double [PInt 21] [] = Ok request.
Proof. vm_compute. reflexivity. Qed.

Lemma remote_is_local_witness :
  caller.1 = Ok (PInt 42) ∧
  ∃ x r, record_of (orch (duo x)) "job-1" = Some r ∧ Status r = StatusDone ∧
    ∃ v, caller.1 = Ok v ∧ ends (local double [PInt 21] []) = Returns v.
Proof.
  split; [vm_compute; reflexivity|]. destruct whole_deployed as (x & Hd & Hinv & Hwatch).
  pose proof (remote_is_local cfg0 0 _ start_good start_ok (duo x) double [PInt 21] [] request "job-1" 5 stream
    WatchResult None "60.0" true Hd spawned eq_refl Hinv Hwatch) as H.
  fold caller in H. destruct caller as [res fut] eqn:E. destruct H as (r & Hr & [(Hs & _ & v & Hv)|(_ & Hf & _)]).
  - exists x, r. split; [exact Hr|]. split; [exact Hs|]. exists v. exact Hv.
  - exfalso. assert (_resolved caller.2 = true) as Ht by (vm_compute; reflexivity).
    rewrite E in Ht. cbn in Ht. rewrite Hf in Ht. discriminate Ht.
Defined.

(** What it printed is shown. *)
Lemma logs_are_output_witness :
  logs caller.2 = [("half a line", false); ("warning", true)] ∧
  ∃ x l, "warning" = pb.line (LogHub.truncate l) ∧ true = pb.is_stderr l ∧
    (output_line (writes (local double [PInt 21] [])) l ∨ failure_line (duo x) "job-1" l).
Proof.
  split; [vm_compute; reflexivity|]. destruct whole_deployed as (x & Hd & Hinv & Hwatch). exists x.
  apply (logs_are_output cfg0 0 _ start_good start_ok (duo x) double [PInt 21] [] request "job-1" 5 stream
    WatchResult None "60.0" true "warning" true Hd spawned eq_refl Hinv Hwatch).
  vm_compute. right. left.
Defined.

(** A job that printed two lines and failed. *)
Definition failing : list pb.JobEvent :=
  [pb.mkJobEvent "job-2" (pb.JobEvent_Log (pb.mkLogLine "out" false 1));
   pb.mkJobEvent "job-2" (pb.JobEvent_Log (pb.mkLogLine "err" true 2))].

Lemma get_returns_witness :
  get "60.0" false (failing ++ [pb.mkJobEvent "job-2" (pb.JobEvent_Result
        (pb.mkJobResult pb.JOB_STATUS_FAILED [] "bad input" 7 9 2 "w"))], None) (new_future "job-2") =
    (Err (mkExn FutureError "job job-2 failed: bad input"),
     mkFuture "job-2" PNone false [("out", false); ("err", true)] 7 9 2 "w" []) ∧
  get "60.0" false (failing, Some (mkExn (RpcError DEADLINE_EXCEEDED) "")) (new_future "job-2") =
    (Err (mkExn TimeoutError "job job-2 did not complete within 60.0s"),
     mkFuture "job-2" PNone false [("out", false); ("err", true)] 0 0 0 "" []).
Proof.
  assert (Forall (λ ev, pb.isResult ev = false) failing) as Hpre by repeat constructor.
  destruct (get_returns "60.0" false failing None (new_future "job-2") eq_refl Hpre) as (H1 & _ & _).
  destruct (get_returns "60.0" false failing (Some (mkExn (RpcError DEADLINE_EXCEEDED) "")) (new_future "job-2")
    eq_refl Hpre) as (_ & _ & H2).
  split; [rewrite H1; reflexivity|rewrite H2; reflexivity].
Defined.

End Deployment.
